(* ===== verification/_CoqProject ===== *)
-Q . S2P
Prelude.v
Outcome.v
Message.v
Backoff.v
Postgres.v
Config.v
Store.v
System.v
Safety.v
StoreSpec.v
Transactions.v
TxSafety.v
Snapshot.v
Relay.v
World.v
RelaySpec.v
RelaySafety.v
Handover.v
TxRelay.v
RelayCorrect.v
RelayLive.v
Cleaner.v
Lifecycle.v
Facade.v
TxCalls.v
EndToEnd.v
Wakeup.v
SqlText.v
Sql.v
StoreSql.v
SqlMeaning.v
SqlInsert.v
Statements.v
Typing.v
Placeholders.v
Adapters.v
Kafka.v
Nats.v
Valkey.v
Transports.v
Migrations.v
Api.v
Scripted.v
TxRuns.v
Witnesses.v
