(* ===== verification/Prelude.v ===== *)
(** * pg-outbox: a verification library for the transactional outbox

    pg-outbox is a Go library.  An application writes messages into the table
    [outbox_messages] inside its own transaction; relays, any number of
    processes with any number of workers each, claim due rows under a lease,
    hand them to a publisher, and record the outcome of every message; a
    cleaner deletes terminal rows.  The processes share nothing but the table.
    This library models the Go code and the SQL it sends as executable
    functions and proves what makes the outbox correct.

    ** The parts, and the files that model them

    - [Prelude.v]: times, the monad [M] of Go calls that return or panic and
      keep their effects either way, [preserves] (a relation on worlds that a
      computation stays in) with its tactics.
    - [Outcome.v] ([port/outcome.go]): the error values as one inductive type,
      [errors.As] and [errors.Is] as depth-first searches of the wrapping tree,
      the markers and their texts.
    - [Message.v] ([message/message.go]), [Backoff.v] ([backoff/backoff.go],
      64-bit shifts wrapped explicitly), [Config.v] ([config/config.go]).
    - [Postgres.v] (the SQL of [engine/store.go] and [migrations/*.sql]): rows,
      the table as a finite map by id, and the six statements as functions from
      a table to a new table, the returned rows and the affected count.  What the
      server decides is a [StmtEnv]: now(), clock_timestamp(), rows locked by
      others, the uuids drawn.  What its documentation promises about value
      syntax is the class [Postgres].
    - [Store.v] ([engine/store.go]): the methods of [Store], over an [Executor].
    - [System.v], [Safety.v], [StoreSpec.v]: the abstract system, a table with a
      clock and the set of tokens ever drawn, stepping by any statement the
      library sends ([sys_step]); its invariants, and the functional
      specification of each statement.
    - [Transactions.v]: the callers' transactions around [Enqueue] and [Requeue]
      (begin, statements, commit, rollback, row locks) beside the statements of
      relays and cleaners, [tx_exec] as one executable action and [tx_step] as
      the relation; [TxSafety.v]: leases, fencing and the fate of a row over
      whole runs; [TxCalls.v]: the calls [EnqueueBatch] and [Requeue] on an
      executor bound to such a transaction ([BoundTo]); [TxRuns.v]: concrete runs.
    - [Snapshot.v]: a statement under READ COMMITTED, over the committed tables of
      two moments, and why it is one of the statements above.
    - [SqlText.v], [Sql.v]: the SQL the store sends, as text: a lexer and parser,
      and an executable semantics of the trees (NULLs, three-valued logic,
      correlated subqueries, typing of parameters).  [StoreSql.v]: the texts of
      [engine/store.go], the trees they parse to; [SqlMeaning.v], [SqlInsert.v],
      [Statements.v]: each means its function of [Postgres.v].  [Typing.v]: the
      types and NOT NULL constraints of the columns, which the statements keep.
    - [Relay.v] ([engine/relay.go]): [processBatch], [publish] with its
      heartbeat, [settle], [settleEach], [complete], [isFatal], [drain], [worker].
    - [World.v]: what the relay may assume of executor, publisher and runtime, as
      classes over an abstract world with a trace and a shared server; between
      any two of its steps other processes may do what the relation [others]
      allows.  The server is the table alone, or one with open transactions.
    - [RelaySpec.v], [RelaySafety.v], [Handover.v]: theorems under arbitrary
      interference on any server; [TxRelay.v]: on the server of [Transactions.v].
      [RelayCorrect.v], [RelayLive.v]: theorems for a relay alone on its table
      ([others] is equality), the latter with a database that answers in time.
    - [Cleaner.v] ([engine/cleaner.go]), [Lifecycle.v] ([Relay.Run], [listen] and
      [Outbox.Run]), [Facade.v] and [Api.v] ([outbox.go]: what it does, and the
      names it gives to the rest), [Migrations.v] ([migrations/]).
    - [EndToEnd.v]: facade, table and relay composed, from [EnqueueBatch] to
      [Publish].  [Wakeup.v]: notifications, the listener, the channel [wake] and
      the workers of one relay as a step relation over [Transactions.v].
      [Placeholders.v]: a scanner of SQL parameters for the text of the INSERT.
    - [Adapters.v], [Kafka.v], [Nats.v], [Valkey.v] ([contrib/publishers/]), and
      [Transports.v]: what their answers mean.
    - [Scripted.v]: a concrete server, executor, publisher and runtime that
      satisfy every class of [World.v]; [Witnesses.v]: runs of the model on it,
      and for each theorem with hypotheses an input where they hold.

    Definitions keep the names of the Go functions; a field or constructor that
    would clash carries a prefix ([sBackoff], [cSchema], [MStatus]).

    ** What the theorems show

    - End to end: what is enqueued is what the publisher is handed by the next
      drain of a relay alone on the table ([EndToEnd.enqueue_drain_roundtrip]).
    - SQL: the text of every statement, parsed and run on its bound arguments,
      is the function of [Postgres.v] ([Statements.statement_meaning]); returned
      rows are scanned by position into the right fields
      ([Statements.scan_by_position]); no statement fails for a type, a NULL or a
      name, and what it writes and sends back has the types of the columns
      ([Typing.statement_well_typed], [reachable_typed]); every bound argument of the INSERT has its
      placeholder ([Placeholders.enqueue_placeholders]).
    - Snapshots: a claim, cleanup, renewal, completion or requeue that looked for
      its rows in an older table is a statement of the atomic system
      ([Snapshot.snapshot_claim_atomic], [snapshot_cleanup_atomic],
      [snapshot_completion_atomic], [snapshot_requeue_atomic]).
    - Transactions: what [EnqueueBatch] and [Requeue] do through the caller's
      executor is shown with its commit, whole, or never
      ([TxCalls.enqueue_joins_transaction], [TxCalls.requeue_joins_transaction]),
      and invisible while open ([Transactions.open_writes_isolated]).
    - Wake-ups: no commit that shows a message goes unnoticed by a relay whose
      listener is connected; what became visible while it was not waits for the
      next drain or poll tick ([Wakeup.no_lost_wakeup]).
    - Exclusive, fenced claims over whole runs: [TxSafety.lease_exclusive],
      [TxSafety.lost_token_fenced]; statement by statement:
      [Safety.live_lease_exclusive], [Safety.stale_keys_change_nothing].
    - Nothing is lost, published unread or recorded on a guess:
      [TxSafety.message_kept_or_expired], [TxRelay.handed_over_committed],
      [Safety.row_lifecycle],
      [RelaySafety.worker_completions_justified] (state, reason and delay of every
      completion are the publisher's answer on the batch last handed to it),
      [RelayCorrect.settle_batch_done], [RelaySafety.hooks_report_committed].
    - Ordering per key: [Safety.key_order_preserved] for single statements,
      [Transactions.ordered_transactions] for transactions that commit in order,
      [TxRelay.ordered_handover] for what a worker publishes,
      [StoreSpec.claim_ordered_spec]; and its limit, transactions that overlap
      ([TxRuns.overlapping_transactions_reorder]).
    - Fatal errors: [RelaySafety.fatal_answer_leaves_claims],
      [Lifecycle.outbox_run_contract], [RelaySpec.always_fatal_reordered].
    - Refinement: whatever a worker does is part of a run of the transaction
      system ([TxRelay.worker_among_transactions]), and of the statements alone
      ([RelaySafety.worker_refines]), so the theorems about runs hold while
      relays run ([System.exec_stmt_wf], [Safety.reachable_keeps_wf]).
    - Recovery: what a relay had claimed when it crashed or lost its lease is due
      again for the others ([RelayLive.drain_publishes_due] covers such rows); no
      claim is handed to the publisher twice ([TxRelay.handed_over_committed]).
    - Adapters: a nil answer means that everything was sent, in order
      ([Transports.success_means_sent]).
    - Termination and delivery: [RelayCorrect.drain_terminates],
      [TxRelay.drain_exhausts] (a drain ends when nothing is left to claim),
      [RelayLive.settle_batch_succeeds], [RelayLive.drain_publishes_due],
      [Cleaner.clean_pass_terminates], [Cleaner.clean_pass_complete].
    - What cannot be recorded: [RelayCorrect.unstorable_outcome_not_recorded].
    - Statements: [StoreSpec.claim_spec], [enqueue_spec], [finish_spec],
      [finish_scrub], [requeue_spec], [cleanup_spec], the last two against column
      by column descriptions of their own ([requeued], [past_retention]).
    - Options: their order does not matter ([Api.options_in_any_order]).
    - Lifecycle, facade, configuration, backoff, adapters, migrations: the
      theorems of the files of those names.

    ** Fuel and bounds

    [drain] and [clean_pass] are loops of the code without a bound of their own,
    so they take fuel and answer [None] when it runs out.  Enough is: for a
    drain, more than [RelayCorrect.work], the attempts the rows have left; for a
    cleanup pass, more than the number of rows.  The theorems on termination
    prove that [None] does not occur then.  [worker], [clean_ticks] and
    [Relay.Run] consume lists of the events their select statements receive;
    the receive loop of [listenOnce] counts notifications by fuel.  Safety
    theorems hold for every fuel.  The SQL parser takes [Sql.parse_fuel], forty
    more than the length of the text, which [statement_meaning] shows to be enough
    for every statement of the store.  A wake-up is worked off within
    [Wakeup.wake_work] steps of the relay.

    ** Abstractions

    - A statement is atomic, at one clock_timestamp(); it sees the table between
      other statements, and in a caller's transaction also that transaction's
      own writes.  The statements of relays and cleaners are transactions of
      their own.  [Snapshot.v] justifies this under READ COMMITTED for all but
      [Enqueue], whose conflicts PostgreSQL decides on the rows of now.  A failed statement draws no sequence
      numbers (gaps in [seq] are of no consequence).
    - A statement has at most 65535 parameters ([Postgres.max_params]), so an
      INSERT at most 8191 messages ([Store.fits_statement]).  The driver refuses a
      larger one, code "08P01" here, before the server sees it; the caller's
      transaction stays usable.
    - [Sql.v] is the fragment of SQL that the texts use; anything else is an error
      of the model.  Errors are SQLSTATEs: one class for data that does not
      convert, where PostgreSQL tells more apart.  A caller's statement that has to wait for
      another transaction is an action that cannot happen yet; deadlocks and the
      stricter isolation levels are left out.
    - A statement of the relay that has to wait for an open transaction either
      gets its turn or fails without effect.  The theorems on what a relay
      achieves ([RelayCorrect.v], [RelayLive.v]) are for one alone on its table.
    - An executor may drop a request, lose an answer after the statement took
      effect, return any error or panic.  An error of [rows.Err()] is an error
      of the query.  The scrubbing columns, casts and NULL comparisons are
      explicit.
    - The heartbeat's goroutine runs beside [Publish]: a stretch of it before the
      publisher acts and a stretch after.  Contexts, deadlines and tickers are
      events and answers of the [Runtime].
    - Times are microseconds, durations nanoseconds; strings are byte strings
      (header strings are taken to be UTF-8, which encoding/json enforces).
    - The publisher gets a copy of the relay's slice that shares what its
      messages point to: [Publish] answers the batch as it leaves it, with the
      same ids, tokens and attempts, any payload bytes, headers and times, and
      any attempt limits ([World.shares]); the bound of [drain_terminates] needs
      the limits left alone ([World.KeepsLimits]).  Elsewhere slices are values.

    Not modelled: the drivers (pgx, kafka-go, nats.go, valkey-go), which are
    parameters; embedding of files; indexes; logging attributes; tests, build
    and CI files. *)

From stdpp Require Export prelude gmap strings sorting pretty list.
From Stdlib Require Export ZArith Lia.

#[global] Set Default Goal Selector "!".

(** ** Scopes and base types

    Every time and duration is an integer: [time] counts microseconds since
    the Unix epoch, the resolution of a PostgreSQL [timestamptz]; [duration]
    counts nanoseconds, as Go's [time.Duration] does. *)
Abbreviation time := Z (only parsing).
Abbreviation duration := Z (only parsing).
Abbreviation bytes := (list Byte.byte) (only parsing).

Declare Scope go_scope.
Delimit Scope go_scope with go.

(** ** Strings *)

Lemma string_append_assoc (a b c : string) : ((a +:+ b) +:+ c = a +:+ (b +:+ c))%string.
Proof. induction a as [|x a IH]; [done|]. exact (f_equal (String x) IH). Qed.

Lemma string_append_empty (s : string) : (s +:+ EmptyString = s)%string.
Proof. induction s as [|c s IH]; [done|]. exact (f_equal (String c) IH). Qed.

Lemma string_append_length (a b : string) :
  String.length (a +:+ b)%string = (String.length a + String.length b)%nat.
Proof. induction a as [|x a IH]; [done|]. exact (f_equal S IH). Qed.

(** ** Lists *)

Lemma filter_map_fst {A B} (P : A → Prop) `{!∀ a, Decision (P a)} (l : list (A * B)) :
  map fst (filter (λ ab, P ab.1) l) = filter P (map fst l).
Proof.
  induction l as [|[a b] l IH]; [done|]. rewrite filter_cons. simpl. rewrite filter_cons. simpl.
  destruct (decide (P a)); simpl; by rewrite IH.
Qed.

Lemma filter_iff_in {A} (P Q : A → Prop) `{!∀ a, Decision (P a), !∀ a, Decision (Q a)} (l : list A) :
  (∀ a, a ∈ l → P a ↔ Q a) → filter P l = filter Q l.
Proof.
  intros Hpq. induction l as [|a l IH]; [done|]. rewrite !filter_cons.
  rewrite IH by (intros; apply Hpq; by right). pose proof (Hpq a ltac:(by left)).
  destruct (decide (P a)), (decide (Q a)); tauto.
Qed.

(** ** Go's [error]-or-panic computations

    A Go call either returns or panics, and in both cases the effects it had
    on the world stay.  [M P W A] is that: state passing over a world [W],
    with a panic value of type [P] as the only way not to return. *)
Inductive res (P A : Type) : Type :=
| Ok (a : A)
| Panicked (p : P).
Arguments Ok {P A} a.
Arguments Panicked {P A} p.

#[export] Instance res_ret {P} : MRet (res P) := λ A a, Ok a.
#[export] Instance res_bind {P} : MBind (res P) := λ A B f m,
  match m with Ok a => f a | Panicked p => Panicked p end.

Definition M (P W A : Type) : Type := W → res P A * W.

#[export] Instance M_ret {P W} : MRet (M P W) := λ A a w, (Ok a, w).
#[export] Instance M_bind {P W} : MBind (M P W) := λ A B f m w,
  match m w with
  | (Ok a, w') => f a w'
  | (Panicked p, w') => (Panicked p, w')
  end.

Definition raise {P W A} (p : P) : M P W A := λ w, (Panicked p, w).
Definition lift_res {P W A} (r : res P A) : M P W A := λ w, (r, w).

(** Go's [defer func() { recover() }()]: a panic becomes a returned value,
    the effects before it stay. *)
Definition try_catch {P W A} (m : M P W A) (h : P → A) : M P W A := λ w,
  match m w with
  | (Ok a, w') => (Ok a, w')
  | (Panicked p, w') => (Ok (h p), w')
  end.

(** ** Equations of the monad *)
Section MonadLaws.
Context {P W : Type}.

Lemma M_ret_bind {A B} (a : A) (f : A → M P W B) w : (mret a ≫= f) w = f a w.
Proof. reflexivity. Qed.

Lemma M_bind_ok {A B} (m : M P W A) (f : A → M P W B) w a w' :
  m w = (Ok a, w') → (m ≫= f) w = f a w'.
Proof. intros H. unfold mbind, M_bind. by rewrite H. Qed.

(** Inversion of a sequence, the rule every proof about a handler uses. *)
Lemma M_bind_inv {A B} (m : M P W A) (f : A → M P W B) w r w' :
  (m ≫= f) w = (r, w') →
  (∃ a w1, m w = (Ok a, w1) ∧ f a w1 = (r, w')) ∨
  (∃ p, m w = (Panicked p, w') ∧ r = Panicked p).
Proof.
  unfold mbind, M_bind. destruct (m w) as [[a|p] w1] eqn:E; intros H.
  - left. eauto.
  - right. simplify_eq. eauto.
Qed.

(** A relation on worlds every step of a computation stays in. *)
Definition preserves {A} (R : W → W → Prop) (m : M P W A) : Prop :=
  ∀ w r w', m w = (r, w') → R w w'.

Section Preserves.
Context (R : W → W → Prop) `{!Reflexive R, !Transitive R}.

Lemma preserves_ret {A} (a : A) : preserves R (mret a : M P W A).
Proof. intros w r w' [= _ <-]. done. Qed.

Lemma preserves_lift {A} (x : res P A) : preserves R (lift_res x : M P W A).
Proof. intros w r w' [= _ <-]. done. Qed.

Lemma preserves_raise {A} (p : P) : preserves R (raise p : M P W A).
Proof. intros w r w' [= _ <-]. done. Qed.

Lemma preserves_bind {A B} (m : M P W A) (f : A → M P W B) :
  preserves R m → (∀ a, preserves R (f a)) → preserves R (m ≫= f).
Proof.
  intros Hm Hf w r w' [(a & w1 & E1 & E2)|(p & E & ->)]%M_bind_inv.
  - etrans; [exact (Hm _ _ _ E1)|exact (Hf _ _ _ _ E2)].
  - exact (Hm _ _ _ E).
Qed.

Lemma preserves_try {A} (m : M P W A) h : preserves R m → preserves R (try_catch m h).
Proof.
  intros Hm w r w'. unfold try_catch.
  destruct (m w) as [[a|p] w1] eqn:E; intros; simplify_eq; exact (Hm _ _ _ E).
Qed.
End Preserves.
End MonadLaws.

Create HintDb outbox.
#[export] Hint Resolve preserves_ret preserves_lift preserves_raise : outbox.

(** Splits a goal [preserves R (x ← m; k)] along the program. *)
Ltac preserves_steps :=
  repeat match goal with
  | |- preserves _ (_ ≫= _) => apply preserves_bind; [apply _| |intros ?]
  | |- preserves _ (mret _) => apply preserves_ret; apply _
  | |- preserves _ (lift_res _) => apply preserves_lift; apply _
  | |- preserves _ (try_catch _ _) => apply preserves_try
  | |- preserves _ (match ?x with _ => _ end) => destruct x
  end; eauto with outbox.

(** Case analysis of a run of [m ≫= f]. *)
Ltac run_inv H :=
  apply M_bind_inv in H as [(? & ? & ? & H)|(? & ? & ?)].
