(* ===== verification/Outcome.v ===== *)
(** * Publish outcomes: [port/outcome.go]

    The error values the publisher, the executor and the relay exchange, with
    the wrapping tree [errors.As] and [errors.Is] walk.  An [err] is a non-nil
    Go [error]; a value of Go type [error] is an [option err]. *)

From S2P Require Import Prelude.

#[local] Set Warnings "-register-all".

Open Scope string_scope.
Open Scope Z_scope.

(** [ENew ident text] is a value of [errors.New]: [ident] is the pointer's
    identity.  [EPg] stands for the errors of the database driver, [EWrap] for
    [fmt.Errorf] with one [%w] verb at its end, [EJoin] for [errors.Join],
    [EFatal] for the relay's [fatalError].  The map of a [BatchError] is the
    list of its entries in the order a [range] over it visits them. *)
Inductive err : Type :=
| ENew (ident : N) (text : string)
| EPg (code text : string)
| EWrap (prefix : string) (e : err)
| EJoin (es : list err)
| EPermanent (e : option err)
| ERetryAfter (e : option err) (delay : Z)
| EDiscard (e : option err)
| EAbort (e : option err)
| EBatch (outcomes : list (string * option err)) (others : option err)
| EPanic (v : panic_value) (stack : string)
| EFatal (e : err)
with panic_value : Type :=
| PvError (e : err)
| PvOther (printed : string).

(** What a Go panic carries to the [recover] that stops it: its value and the
    stack the runtime captures. *)
Definition panic : Type := panic_value * string.

(** ** Constructors of [port/outcome.go] *)
Definition Permanent (e : option err) : err := EPermanent e.
Definition RetryAfter (e : option err) (delay : Z) : err := ERetryAfter e delay.
Definition Discard (reason : option err) : err := EDiscard reason.
Definition PerMessage (outcomes : list (string * option err)) (others : option err) : err :=
  EBatch outcomes others.
Definition Abort (e : option err) : err := EAbort e.
Definition ErrLeaseLost : err := ENew 1 "outbox: lease lost".

(** ** [errors.Join]: nil entries are dropped, no entry left is nil *)
Definition errors_Join (es : list (option err)) : option err :=
  match omap id es with
  | [] => None
  | es' => Some (EJoin es')
  end.

(** ** The [Unwrap] methods, as the list of the non-nil children *)
Definition BatchError_Unwrap (outcomes : list (string * option err)) (others : option err) : list err :=
  option_list others ++ omap snd outcomes.

Definition PanicError_Unwrap (v : panic_value) : option err :=
  match v with PvError e => Some e | PvOther _ => None end.

Definition Unwrap (e : err) : list err :=
  match e with
  | ENew _ _ | EPg _ _ | EFatal _ => []
  | EWrap _ e => [e]
  | EJoin es => es
  | EPermanent o | ERetryAfter o _ | EDiscard o | EAbort o => option_list o
  | EBatch outcomes others => BatchError_Unwrap outcomes others
  | EPanic v _ => option_list (PanicError_Unwrap v)
  end.

(** ** [errors.As]: depth-first, a node before its children, children in order *)
Definition or_else {A} (o : option A) (o' : option A) : option A :=
  match o with Some a => Some a | None => o' end.

Fixpoint errors_As {A} (target : err → option A) (e : err) {struct e} : option A :=
  or_else (target e)
    match e with
    | ENew _ _ | EPg _ _ | EFatal _ => None
    | EWrap _ e' => errors_As target e'
    | EJoin es =>
        (fix go es := match es with
                      | [] => None
                      | e' :: es' => or_else (errors_As target e') (go es')
                      end) es
    | EPermanent o | ERetryAfter o _ | EDiscard o | EAbort o =>
        match o with Some e' => errors_As target e' | None => None end
    | EBatch outcomes others =>
        or_else (match others with Some e' => errors_As target e' | None => None end)
          ((fix go outs := match outs with
                           | [] => None
                           | (_, Some e') :: outs' => or_else (errors_As target e') (go outs')
                           | (_, None) :: outs' => go outs'
                           end) outcomes)
    | EPanic (PvError e') _ => errors_As target e'
    | EPanic (PvOther _) _ => None
    end.

(** The targets the relay asks for, one per pointer type. *)
Definition as_permanent (e : err) : option err :=
  match e with EPermanent _ => Some e | _ => None end.
Definition as_discard (e : err) : option err :=
  match e with EDiscard _ => Some e | _ => None end.
Definition as_retry (e : err) : option Z :=
  match e with ERetryAfter _ d => Some d | _ => None end.
Definition as_batch (e : err) : option (list (string * option err) * option err) :=
  match e with EBatch outs others => Some (outs, others) | _ => None end.
Definition as_abort (e : err) : option err :=
  match e with EAbort _ => Some e | _ => None end.
Definition as_panic (e : err) : option panic :=
  match e with EPanic v st => Some (v, st) | _ => None end.
Definition as_fatal (e : err) : option err :=
  match e with EFatal e' => Some e' | _ => None end.

(** [errors.As] on a possibly nil error. *)
Definition errors_As_opt {A} (target : err → option A) (o : option err) : option A :=
  o ≫= errors_As target.

(** [errors.Is] against a value of [errors.New], compared by pointer. *)
Definition is_ident (i : N) (e : err) : option unit :=
  match e with ENew j _ => if N.eqb i j then Some tt else None | _ => None end.
Definition errors_Is (e : err) (target : N) : bool := bool_decide (is_Some (errors_As (is_ident target) e)).

(** ** The [Error] methods *)
Definition newline : string := String (Ascii.ascii_of_nat 10) EmptyString.

Definition BatchError_text (outcomes : list (string * option err)) (others : option string) : string :=
  "outbox: " +:+ pretty (Z.of_nat (length (omap snd outcomes))) +:+ " message(s) failed" +:+
  match others with Some t => "; others: " +:+ t | None => EmptyString end.

Fixpoint Error (e : err) : string :=
  match e with
  | ENew _ text => text
  | EPg _ text => text
  | EWrap prefix e' => prefix +:+ Error e'
  | EJoin es =>
      (fix go es := match es with
                    | [] => EmptyString
                    | [e'] => Error e'
                    | e' :: es' => Error e' +:+ newline +:+ go es'
                    end) es
  | EPermanent None => "outbox: permanent publish failure"
  | ERetryAfter None _ => "outbox: retry requested"
  | EDiscard None => "outbox: discarded"
  | EAbort None => "outbox: relay aborted"
  | EPermanent (Some e') | ERetryAfter (Some e') _ | EDiscard (Some e') | EAbort (Some e') => Error e'
  | EBatch outcomes others =>
      BatchError_text outcomes (match others with Some e' => Some (Error e') | None => None end)
  | EPanic v _ => "outbox: panic: " +:+ match v with PvError e' => Error e' | PvOther s => s end
  | EFatal e' => Error e'
  end.

(** ** The tree [errors.As] walks *)

(** First result of [f] along a list, the way the loops over [Unwrap() []error]
    stop at the first hit. *)
Fixpoint find_map {A B} (f : A → option B) (l : list A) : option B :=
  match l with
  | [] => None
  | a :: l' => or_else (f a) (find_map f l')
  end.

Lemma or_else_None {A} (o : option A) : or_else o None = o.
Proof. by destruct o. Qed.

Lemma find_map_app {A B} (f : A → option B) l k :
  find_map f (l ++ k) = or_else (find_map f l) (find_map f k).
Proof. induction l as [|a l IH]; simpl; [done|]. rewrite IH. by destruct (f a). Qed.

Lemma find_map_is_Some {A B} (f : A → option B) l :
  is_Some (find_map f l) ↔ ∃ a, a ∈ l ∧ is_Some (f a).
Proof.
  induction l as [|a l IH]; simpl.
  - split; [by intros [? ?]|]. intros (? & []%not_elem_of_nil & _).
  - destruct (f a) eqn:E; simpl.
    + split; [|by eauto]. intros _. exists a. rewrite E. split; [left|eauto].
    + rewrite IH. split.
      * intros (b & ? & ?). exists b. split; [by right|done].
      * intros (b & [->|?]%elem_of_cons & ?); [|by eauto].
        rewrite E in *. by destruct (is_Some_None (A:=B)).
Qed.

(** One equation for every constructor. *)
Lemma errors_As_unfold {A} (t : err → option A) e :
  errors_As t e = or_else (t e) (find_map (errors_As t) (Unwrap e)).
Proof.
  destruct e as [| |p e|es|[e|]|[e|] d|[e|]|[e|]|outs others|[e|s] st|e]; simpl;
    rewrite ?app_nil_r; try by destruct (t _).
  - (* EWrap *) f_equal. by rewrite or_else_None.
  - (* EJoin *) f_equal. induction es as [|e es IH]; simpl; [done|]. by rewrite IH.
  - (* EPermanent *) f_equal. by rewrite or_else_None.
  - (* ERetryAfter *) f_equal. by rewrite or_else_None.
  - (* EDiscard *) f_equal. by rewrite or_else_None.
  - (* EAbort *) f_equal. by rewrite or_else_None.
  - (* EBatch *) f_equal. unfold BatchError_Unwrap. rewrite find_map_app. f_equal.
    + destruct others as [e|]; simpl; [by rewrite or_else_None|done].
    + induction outs as [|[i [e|]] outs IH]; simpl; [done| |done]. by rewrite IH.
  - (* EPanic *) f_equal. by rewrite or_else_None.
Qed.

(** Induction over the tree, whatever the constructor. *)
Lemma err_tree_ind (P : err → Prop) :
  (∀ e, (∀ c, c ∈ Unwrap e → P c) → P e) → ∀ e, P e.
Proof.
  intros H. fix IH 1. intros e. apply H.
  destruct e as [| |p e|es|[e|]|[e|] d|[e|]|[e|]|outs others|[e|s] st|e]; simpl; intros c Hc;
    try destruct (not_elem_of_nil c Hc);
    try (apply list_elem_of_singleton in Hc as ->; apply IH).
  - (* EJoin *) induction es as [|e' es' IHes]; [destruct (not_elem_of_nil c Hc)|].
    apply elem_of_cons in Hc as [->|Hc]; [apply IH|exact (IHes Hc)].
  - (* EBatch *) unfold BatchError_Unwrap in Hc. apply elem_of_app in Hc as [Hc|Hc].
    + destruct others as [e|]; simpl in Hc; [|destruct (not_elem_of_nil c Hc)].
      apply list_elem_of_singleton in Hc as ->. apply IH.
    + induction outs as [|[i [e|]] outs' IHouts]; simpl in Hc.
      * destruct (not_elem_of_nil c Hc).
      * apply elem_of_cons in Hc as [->|Hc]; [apply IH|exact (IHouts Hc)].
      * exact (IHouts Hc).
Qed.

(** [subnode n e]: [n] is [e] or lies below it. *)
Inductive subnode (n : err) : err → Prop :=
| subnode_here : subnode n n
| subnode_below e c : c ∈ Unwrap e → subnode n c → subnode n e.
#[export] Hint Constructors subnode : outbox.

(** [errors.As] finds a marker exactly when some node of the error's
    wrapping tree carries it. *)
Lemma errors_As_subnode {A} (t : err → option A) e :
  is_Some (errors_As t e) ↔ ∃ n, subnode n e ∧ is_Some (t n).
Proof.
  induction e as [e IH] using err_tree_ind. rewrite errors_As_unfold.
  destruct (t e) as [a|] eqn:E; simpl.
  - split; [|by eauto]. intros _. exists e. rewrite E. eauto with outbox.
  - rewrite find_map_is_Some. split.
    + intros (c & Hc & (n & ? & ?)%IH); [|done]. exists n. eauto with outbox.
    + intros (n & Hn & Hs). inversion Hn; subst.
      * rewrite E in Hs. by destruct (is_Some_None (A:=A)).
      * exists c. rewrite IH by done. eauto.
Qed.

(** ** The order of a map's entries *)

(** Single-hole contexts of the wrapping tree. *)
Inductive frame : Type :=
| FWrap (prefix : string)
| FJoin (before after : list err)
| FPermanent | FRetryAfter (delay : Z) | FDiscard | FAbort
| FEntry (before after : list (string * option err)) (id : string) (others : option err)
| FOthers (outcomes : list (string * option err))
| FPanic (stack : string).

Definition plug (f : frame) (e : err) : err :=
  match f with
  | FWrap p => EWrap p e
  | FJoin b a => EJoin (b ++ e :: a)
  | FPermanent => EPermanent (Some e)
  | FRetryAfter d => ERetryAfter (Some e) d
  | FDiscard => EDiscard (Some e)
  | FAbort => EAbort (Some e)
  | FEntry b a i others => EBatch (b ++ (i, Some e) :: a) others
  | FOthers outs => EBatch outs (Some e)
  | FPanic st => EPanic (PvError e) st
  end.

(** Two errors equal up to the iteration order of one outcome map, at any depth. *)
Inductive reordered : err → err → Prop :=
| reordered_map outs outs' others :
    outs ≡ₚ outs' → reordered (EBatch outs others) (EBatch outs' others)
| reordered_frame f e e' : reordered e e' → reordered (plug f e) (plug f e').

Lemma reordered_sym e e' : reordered e e' → reordered e' e.
Proof. induction 1; constructor; [by symmetry|done]. Qed.

Lemma plug_children f : ∃ cs, ∀ e, Unwrap (plug f e) ≡ₚ e :: cs.
Proof.
  destruct f as [| b a| | | | |b a i others|outs|]; simpl; eauto; unfold BatchError_Unwrap.
  - exists (b ++ a)%list. intros e. by rewrite <-Permutation_middle.
  - exists (option_list others ++ omap snd b ++ omap snd a)%list. intros e.
    rewrite omap_app; simpl. rewrite !app_assoc. by rewrite <-Permutation_middle.
  - by exists (omap snd outs).
Qed.

(** A target that looks only at the type of a node, as a pointer target does. *)
Definition by_type {A} (t : err → option A) : Prop :=
  (∀ f e e', is_Some (t (plug f e)) ↔ is_Some (t (plug f e'))) ∧
  (∀ outs outs' o, is_Some (t (EBatch outs o)) ↔ is_Some (t (EBatch outs' o))).

Lemma reordered_subnode {A} (t : err → option A) e e' :
  by_type t → reordered e e' →
  (∃ n, subnode n e ∧ is_Some (t n)) → ∃ n, subnode n e' ∧ is_Some (t n).
Proof.
  intros [Hf Hb]. induction 1 as [outs outs' o Hp|f e e' _ IH]; intros (n & Hn & Hs);
    inversion Hn; subst.
  - exists (EBatch outs' o). split; [constructor|]. by eapply Hb.
  - exists n. split; [|done]. apply (subnode_below n _ c); [|done].
    simpl in *. unfold BatchError_Unwrap in *. by rewrite <-Hp.
  - exists (plug f e'). split; [constructor|]. by eapply Hf.
  - destruct (plug_children f) as [cs Hcs]. rewrite Hcs in *.
    match goal with H : _ ∈ _ :: _ |- _ => apply elem_of_cons in H as [->|Hc] end.
    + destruct IH as (m & ? & ?); [by eauto|]. exists m. split; [|done].
      apply (subnode_below m _ e'); [|done]. rewrite Hcs. by left.
    + exists n. split; [|done]. apply (subnode_below n _ c); [|done].
      rewrite Hcs. by right.
Qed.

(** Whether [errors.As] finds a marker does not depend on the order in which Go
    iterates over the outcome map of a [BatchError], at whatever depth it sits. *)
Lemma errors_As_reordered {A} (t : err → option A) e e' :
  by_type t → reordered e e' → is_Some (errors_As t e) ↔ is_Some (errors_As t e').
Proof.
  intros Ht Hr. rewrite !errors_As_subnode. split; apply reordered_subnode; try done.
  by apply reordered_sym.
Qed.

Lemma by_type_abort : by_type as_abort.
Proof. split; [intros []|]; intros; split; intros [? ?]; simplify_eq/=; eauto. Qed.

Lemma by_type_panic : by_type as_panic.
Proof.
  split; [intros []|]; intros; simpl; try done; split; intros _; eauto.
Qed.
#[export] Hint Resolve by_type_abort by_type_panic : outbox.
