(* ===== verification/Message.v ===== *)
(** * Messages: [message/message.go]

    The outbox row as Go code sees it, its lifecycle states and the enqueue
    validation. *)

From S2P Require Import Prelude Outcome.

Open Scope string_scope.
Open Scope Z_scope.

Definition TableName : string := "outbox_messages".

Definition ErrEmptyTopic : err := ENew 2 "outbox: message topic is empty".
Definition ErrNilPayload : err := ENew 3 "outbox: message payload is nil".

(** [Status] is a Go string type with five constants. *)
Inductive Status : Set :=
| StatusPending | StatusProcessing | StatusPublished | StatusDead | StatusDiscarded.

#[export] Instance Status_eq_dec : EqDecision Status.
Proof. solve_decision. Defined.

Definition string_of_status (s : Status) : string :=
  match s with
  | StatusPending => "pending"
  | StatusProcessing => "processing"
  | StatusPublished => "published"
  | StatusDead => "dead"
  | StatusDiscarded => "discarded"
  end.

#[export] Instance string_of_status_inj : Inj (=) (=) string_of_status.
Proof. by intros [] []. Qed.

(** A nil [Payload] and a nil [Headers] are [None]; both are told apart from
    their empty values by the code. *)
Record Message : Type := mkMessage {
  ID : string;
  Topic : string;
  PartitionKey : string;
  Payload : option bytes;
  Headers : option (gmap string string);
  ContentType : string;
  MessageType : string;
  MaxAttempts : option Z;
  MStatus : Status;
  Attempts : Z;
  LeaseToken : string;
  LockedBy : string;
  LockedUntil : option time;
  NextAttemptAt : time;
  LastError : string;
  CreatedAt : time;
  PublishedAt : option time;
  FinishedAt : option time
}.

(** [time.Time{}], the zero value: midnight UTC of January 1st of year 1. *)
Definition zero_time : time := -62135596800000000.

(** The message a caller builds: the enqueue fields, zero values elsewhere. *)
Definition new_message (id topic key : string) (payload : option bytes)
    (headers : option (gmap string string)) (ctype mtype : string) (max : option Z) : Message :=
  mkMessage id topic key payload headers ctype mtype max
    StatusPending 0 EmptyString EmptyString None zero_time EmptyString zero_time None None.

Definition Validate (m : Message) : option err :=
  if String.eqb m.(Topic) EmptyString then Some ErrEmptyTopic
  else match m.(Payload) with
       | None => Some ErrNilPayload
       | Some _ => None
       end.

Lemma Validate_ok m :
  Validate m = None ↔ m.(Topic) ≠ EmptyString ∧ is_Some m.(Payload).
Proof.
  unfold Validate. destruct (String.eqb_spec (Topic m) EmptyString) as [->|H].
  - naive_solver.
  - destruct (Payload m); [|split; [done|by intros [_ [? ?]]]].
    split; [eauto|done].
Qed.
