(* ===== verification/Backoff.v ===== *)
(** * Retry backoff: [backoff/backoff.go]

    Exponential backoff over 64-bit durations, wrap-around included, and the
    adapters for stateful third-party sources.  A [Backoff] is a Go closure
    that may draw from the process-wide random source, so it takes that source
    [int64n] ([rand.Int64N]) as an argument; it may panic. *)

From S2P Require Import Prelude Outcome.

Open Scope Z_scope.

(** ** 64-bit integers *)
Definition int64_min : Z := - 2 ^ 63.
Definition int64_max : Z := 2 ^ 63 - 1.

(** Two's complement reading of an integer modulo [2^64]. *)
Definition wrap64 (z : Z) : Z := (z + 2 ^ 63) mod 2 ^ 64 - 2 ^ 63.

Definition is_int64 (z : Z) : Prop := int64_min ≤ z ≤ int64_max.

(** Go's [x << n] on an [int64] and an unsigned count. *)
Definition shl64 (x n : Z) : Z := wrap64 (Z.shiftl x n).

(** [rand.Int64N] panics unless its argument is positive. *)
Definition Int64N (int64n : Z → Z) (n : Z) : res panic Z :=
  if n <=? 0 then Panicked (PvOther "invalid argument to Int64N", EmptyString)
  else Ok (int64n n).

(** What the random source promises: a draw below its bound. *)
Definition draws (int64n : Z → Z) : Prop := ∀ n, 0 < n → 0 ≤ int64n n < n.

Definition Backoff : Type := (Z → Z) → Z → res panic Z.

(** The delay of [Exp] before jitter. *)
Definition Exp_delay (base maxDelay attempt : Z) : Z :=
  let attempt := if attempt <? 1 then 1 else attempt in
  let shift := attempt - 1 in
  let shift := if shift >? 62 then 62 else shift in
  let d := shl64 base shift in
  let d := if d <? base then maxDelay else d in
  if (maxDelay >? 0) && (d >? maxDelay) then maxDelay else d.

Definition Exp (base maxDelay : Z) (jitter : bool) : Backoff := λ int64n attempt,
  let d := Exp_delay base maxDelay attempt in
  if jitter && (d >? 0) then Int64N int64n (wrap64 (d + 1)) else Ok d.

Definition Millisecond : Z := 1000000.
Definition Second : Z := 1000 * Millisecond.

Definition Default : Backoff := Exp (100 * Millisecond) (30 * Second) true.

(** [Backoff.Delay] *)
Definition Delay (b : Backoff) : Backoff := λ int64n attempt, b int64n attempt.

(** ** Adapters: a factory of stateful sources, advanced [attempt] times *)

Definition Stop : Z := -1.

(** The method of the interfaces, on the state of a source. *)
Definition NextBackOffer (S : Type) : Type := S → Z * S.
Definition Nexter (S : Type) : Type := S → (Z * bool) * S.

(** The loop of [FromNextBackOff]: [n] calls of [NextBackOff] on one source. *)
Fixpoint next_backoff_loop {S} (NextBackOff : NextBackOffer S) (n : nat) (b : S) (d : Z) : Z :=
  match n with
  | O => d
  | Datatypes.S n' =>
      let '(d', b') := NextBackOff b in
      if d' =? Stop then 0 else next_backoff_loop NextBackOff n' b' d'
  end.

Definition FromNextBackOff {S} (NextBackOff : NextBackOffer S) (newB : S) : Backoff := λ _ attempt,
  let attempt := if attempt <? 1 then 1 else attempt in
  Ok (next_backoff_loop NextBackOff (Z.to_nat attempt) newB 0).

(** The loop of [FromNexter]: [Next] also reports whether to stop. *)
Fixpoint nexter_loop {S} (Next : Nexter S) (n : nat) (b : S) (d : Z) : Z :=
  match n with
  | O => d
  | Datatypes.S n' =>
      let '((d', stop), b') := Next b in
      if stop : bool then 0 else nexter_loop Next n' b' d'
  end.

Definition FromNexter {S} (Next : Nexter S) (newB : S) : Backoff := λ _ attempt,
  let attempt := if attempt <? 1 then 1 else attempt in
  Ok (nexter_loop Next (Z.to_nat attempt) newB 0).

(** ** Machine integers *)

Lemma wrap64_id z : is_int64 z → wrap64 z = z.
Proof. unfold is_int64, int64_min, int64_max, wrap64. intros. rewrite Z.mod_small; lia. Qed.

(** A wrapped multiple of [2^s] is still a multiple of [2^s]. *)
Lemma wrap64_multiple b s : 0 ≤ s ≤ 63 → ∃ q, wrap64 (b * 2 ^ s) = q * 2 ^ s.
Proof.
  intros Hs. unfold wrap64.
  rewrite (Z.mod_eq _ (2 ^ 64)) by lia. set (k := _ / _).
  assert (2 ^ 64 = 2 ^ s * 2 ^ (64 - s)) as -> by (rewrite <-Z.pow_add_r by lia; f_equal; lia).
  exists (b - 2 ^ (64 - s) * k). ring.
Qed.

Lemma shl64_mul x n : 0 ≤ n → shl64 x n = wrap64 (x * 2 ^ n).
Proof. intros. unfold shl64. by rewrite Z.shiftl_mul_pow2. Qed.

(** ** Exponential backoff *)

(** Case analysis of the comparisons left in the goal. *)
Ltac zcases :=
  repeat match goal with
  | |- context [?a <? ?b] => destruct (Z.ltb_spec a b)
  | |- context [?a >? ?b] => destruct (Z.gtb_spec a b)
  | |- context [?a <=? ?b] => destruct (Z.leb_spec a b)
  end; simpl.

(** The shift [Exp] computes from an attempt number. *)
Definition exp_shift (attempt : Z) : Z := Z.min (Z.max attempt 1 - 1) 62.

Lemma Exp_delay_shift base maxDelay attempt :
  Exp_delay base maxDelay attempt =
    let d := wrap64 (base * 2 ^ exp_shift attempt) in
    let d := if d <? base then maxDelay else d in
    if (maxDelay >? 0) && (d >? maxDelay) then maxDelay else d.
Proof.
  unfold Exp_delay.
  set (sh := if (if attempt <? 1 then 1 else attempt) - 1 >? 62 then 62
             else (if attempt <? 1 then 1 else attempt) - 1).
  assert (sh = exp_shift attempt) as ->.
  { subst sh. unfold exp_shift. zcases; lia. }
  by rewrite shl64_mul by (unfold exp_shift; lia).
Qed.

(** With a cap the delay stays in [[0, maxDelay]] for every attempt number,
    whatever the shift overflows to. *)
Theorem Exp_delay_bounded base maxDelay attempt :
  0 ≤ base → 0 < maxDelay → 0 ≤ Exp_delay base maxDelay attempt ≤ maxDelay.
Proof. intros Hb Hm. rewrite Exp_delay_shift. simpl. zcases; lia. Qed.

Lemma Exp_delay_min base maxDelay attempt :
  0 < base → 0 < maxDelay → base * maxDelay < 2 ^ 63 → maxDelay ≤ base * 2 ^ 62 →
  Exp_delay base maxDelay attempt =
    Z.min (base * 2 ^ (Z.max attempt 1 - 1)) maxDelay.
Proof.
  intros Hb Hm Hprod Hbig. rewrite Exp_delay_shift.
  assert (0 ≤ exp_shift attempt ≤ 62) as Hs by (unfold exp_shift; lia).
  assert (Z.min (base * 2 ^ (Z.max attempt 1 - 1)) maxDelay =
          Z.min (base * 2 ^ exp_shift attempt) maxDelay) as ->.
  { unfold exp_shift. destruct (Z.le_gt_cases (Z.max attempt 1 - 1) 62) as [?|?].
    - by rewrite (Z.min_l _ 62) by lia.
    - rewrite (Z.min_r _ 62) by lia. rewrite !Z.min_r; [done|done|].
      pose proof (Z.pow_le_mono_r 2 62 (Z.max attempt 1 - 1)). nia. }
  set (s := exp_shift attempt) in *. assert (0 < 2 ^ s) as H by (apply Z.pow_pos_nonneg; lia).
  destruct (Z.lt_ge_cases (base * 2 ^ s) (2 ^ 63)) as [Hno|Hover].
  - rewrite wrap64_id by (unfold is_int64, int64_min, int64_max; nia).
    simpl. zcases; nia.
  - assert (maxDelay < 2 ^ s) by (apply (Z.mul_lt_mono_pos_l base); lia).
    rewrite Z.min_r by nia.
    destruct (wrap64_multiple base s) as [q Hq]; [lia|].
    assert (q * 2 ^ s ≤ 0 ∨ 2 ^ s ≤ q * 2 ^ s).
    { clear -H. destruct (Z.le_gt_cases q 0); [left|right]; nia. }
    rewrite Hq. simpl. zcases; lia.
Qed.

Lemma Exp_delay_fits base maxDelay attempt :
  0 < base → base * 2 ^ (Z.max attempt 1 - 1) < 2 ^ 63 →
  Exp_delay base maxDelay attempt =
    if 0 <? maxDelay then Z.min (base * 2 ^ (Z.max attempt 1 - 1)) maxDelay
    else base * 2 ^ (Z.max attempt 1 - 1).
Proof.
  intros Hb Hfit. assert (0 ≤ Z.max attempt 1 - 1) as Hn by lia. rewrite Exp_delay_shift.
  assert (exp_shift attempt = Z.max attempt 1 - 1) as ->.
  { unfold exp_shift. apply Z.min_l, Z.lt_succ_r, (Z.pow_lt_mono_r_iff 2); [lia..|].
    change (Z.succ 62) with 63. nia. }
  generalize dependent (Z.max attempt 1 - 1). intros n Hfit Hn.
  assert (0 < 2 ^ n) by (apply Z.pow_pos_nonneg; lia).
  rewrite wrap64_id by (unfold is_int64, int64_min, int64_max; nia).
  simpl. zcases; nia.
Qed.

(** C37. Where the 64-bit shift does not overflow, that is where
    [base * 2 ^ (attempt - 1)] is below [2 ^ 63], the machine computation is the
    mathematical exponential, cut at [maxDelay] when there is a cap.  Where it
    overflows and there is a cap, the delay is the cap, if [base * maxDelay] is
    below [2 ^ 63] and [maxDelay] is at most [base * 2 ^ 62], as for the 100ms and
    30s of the default policy: the test [d < base] or the cap itself catches
    every wrapped value then. *)
Theorem Exp_delay_exact base maxDelay attempt :
  0 < base →
  (base * 2 ^ (Z.max attempt 1 - 1) < 2 ^ 63 →
   Exp_delay base maxDelay attempt =
     if 0 <? maxDelay then Z.min (base * 2 ^ (Z.max attempt 1 - 1)) maxDelay
     else base * 2 ^ (Z.max attempt 1 - 1)) ∧
  (2 ^ 63 ≤ base * 2 ^ (Z.max attempt 1 - 1) →
   0 < maxDelay → base * maxDelay < 2 ^ 63 → maxDelay ≤ base * 2 ^ 62 →
   Exp_delay base maxDelay attempt = maxDelay).
Proof.
  intros Hb. split; [by apply Exp_delay_fits|]. intros Hover Hm Hprod Hbig.
  rewrite Exp_delay_min by done. apply Z.min_r. nia.
Qed.

(** The default policy never panics and draws uniformly below the exact
    capped exponential of 100ms and 30s, for every attempt number. *)
Theorem Default_delay int64n attempt :
  draws int64n →
  ∃ d, Default int64n attempt = Ok d ∧
       0 ≤ d ≤ Z.min (100 * Millisecond * 2 ^ (Z.max attempt 1 - 1)) (30 * Second).
Proof.
  intros Hd. unfold Default, Exp.
  rewrite Exp_delay_min by (unfold Second, Millisecond; lia).
  assert (0 < 2 ^ (Z.max attempt 1 - 1)) by (apply Z.pow_pos_nonneg; lia).
  generalize dependent (2 ^ (Z.max attempt 1 - 1)). intros p Hp.
  set (d := Z.min _ _).
  assert (0 < d ≤ 30 * Second) by (subst d; unfold Second, Millisecond; lia).
  rewrite (proj2 (Z.gtb_gt d 0)), wrap64_id
    by (unfold is_int64, int64_min, int64_max, Second, Millisecond in *; lia).
  simpl. unfold Int64N. destruct (Z.leb_spec (d + 1) 0); [lia|].
  eexists. split; [done|]. specialize (Hd (d + 1)). lia.
Qed.

(** ** Adapters *)

(** The results of the first [n] calls of a source. *)
Fixpoint calls {S R} (step : S → R * S) (n : nat) (b : S) : list R :=
  match n with
  | O => []
  | Datatypes.S n' => let '(r, b') := step b in r :: calls step n' b'
  end.

Lemma next_backoff_loop_spec {S} (NextBackOff : NextBackOffer S) n b d :
  next_backoff_loop NextBackOff n b d =
    if decide (Stop ∈ calls NextBackOff n b) then 0
    else default d (last (calls NextBackOff n b)).
Proof.
  revert b d. induction n as [|n IH]; intros b d; cbn [next_backoff_loop calls].
  - by rewrite decide_False by apply not_elem_of_nil.
  - destruct (NextBackOff b) as [r b'] eqn:E. destruct (Z.eqb_spec r Stop) as [->|Hne].
    + by rewrite decide_True by left.
    + rewrite IH. destruct (decide (Stop ∈ calls NextBackOff n b')).
      * by rewrite decide_True by (by right).
      * rewrite decide_False by (rewrite elem_of_cons; naive_solver).
        rewrite last_cons. by destruct (last _).
Qed.

Lemma nexter_loop_spec {S} (Next : Nexter S) n b d :
  nexter_loop Next n b d =
    if existsb snd (calls Next n b) then 0 else default d (fst <$> last (calls Next n b)).
Proof.
  revert b d. induction n as [|n IH]; intros b d; simpl; [done|].
  destruct (Next b) as [[r stop] b'] eqn:E; simpl. destruct stop; simpl; [done|].
  rewrite IH. destruct (existsb snd _); [done|].
  rewrite last_cons. by destruct (last _).
Qed.

(** Both adapters return the result of the [attempt]-th call on a fresh
    source, and 0 as soon as one of the calls up to it asked to stop. *)
Theorem adapters_spec {S1 S2} (NextBackOff : NextBackOffer S1) (b1 : S1)
    (Next : Nexter S2) (b2 : S2) int64n attempt :
  let n := Z.to_nat (Z.max attempt 1) in
  FromNextBackOff NextBackOff b1 int64n attempt =
    Ok (if decide (Stop ∈ calls NextBackOff n b1) then 0
        else default 0 (last (calls NextBackOff n b1))) ∧
  FromNexter Next b2 int64n attempt =
    Ok (if existsb snd (calls Next n b2) then 0
        else default 0 (fst <$> last (calls Next n b2))).
Proof.
  unfold FromNextBackOff, FromNexter. rewrite next_backoff_loop_spec, nexter_loop_spec.
  destruct (Z.ltb_spec attempt 1).
  - by replace (Z.max attempt 1) with 1 by lia.
  - by replace (Z.max attempt 1) with attempt by lia.
Qed.

(** ** Where the overflow guard is not exact *)

Lemma wrap64_shift62 base : wrap64 (base * 2 ^ 62) = 2 ^ 62 * ((base + 2) mod 4 - 2).
Proof.
  unfold wrap64. replace (base * 2 ^ 62 + 2 ^ 63) with (2 ^ 62 * (base + 2)) by lia.
  replace (2 ^ 64) with (2 ^ 62 * 4) by lia. rewrite Z.mul_mod_distr_l by lia. lia.
Qed.

(** C38. Without a cap ([maxDelay = 0]) the backoff does not stay exponential:
    from the 63rd attempt on, every base that is not one more than a multiple of
    four nanoseconds, so every whole number of microseconds, yields no delay at
    all; a 100ms base does so first at its 38th.  With a cap, a wrapped value that
    lands between [base] and [maxDelay] goes undetected. *)
Theorem Exp_delay_overflow base attempt :
  0 < base < 2 ^ 62 → 63 ≤ attempt → base mod 4 ≠ 1 →
  Exp_delay base 0 attempt = 0 ∧
  Exp_delay (100 * Millisecond) 0 38 = 0 ∧
  Exp_delay (100 * Millisecond) 0 37 = 100 * Millisecond * 2 ^ 36 ∧
  Exp_delay 1073741825 (30 * Second) 35 = 17179869184 ∧
  17179869184 < 30 * Second < 1073741825 * 2 ^ 34.
Proof.
  intros Hb Ha Hm. split; [|by vm_compute]. rewrite Exp_delay_shift.
  replace (exp_shift attempt) with 62 by (unfold exp_shift; lia). rewrite wrap64_shift62.
  assert ((base + 2) mod 4 ≤ 2) as Hle.
  { pose proof (Z.mod_pos_bound base 4). rewrite <-Z.add_mod_idemp_l by done.
    assert (base mod 4 = 0 ∨ base mod 4 = 2 ∨ base mod 4 = 3) as [-> | [-> | ->]] by lia; by vm_compute. }
  simpl. zcases; lia.
Qed.
