(* ===== verification/Postgres.v ===== *)
(** * The outbox table and the SQL the store sends

    The columns of [outbox_messages] after [migrations/*.sql] and the meaning
    of the six statements of [engine/store.go], as executable functions on the
    table.  What the server alone decides is an argument of the statement: its
    clocks, the rows other transactions hold locked, the random uuids; what the
    server's documentation promises about value syntax is the class [Postgres]. *)

From S2P Require Import Prelude Outcome Message.

#[local] Set Warnings "-register-all".

Open Scope string_scope.
Open Scope Z_scope.

(** ** JSON documents *)

Inductive json : Type :=
| JNull
| JBool (b : bool)
| JNum (n : Z)
| JStr (s : string)
| JArr (l : list json)
| JObj (fields : list (string * json)).

(** ** What is not under [src/]

    [uuid_in] is the uuid input function, as the canonical text of what it
    reads; [text_in] and [jsonb_in] say which strings and documents the server
    stores, by its encoding and without zero bytes; [interval_us d] is [make_interval(secs => d.Seconds())] in
    microseconds; [returning] is the order in which a statement hands over the
    rows it changed, which SQL leaves open. *)
Class Postgres : Type := {
  uuid_in : string → option string;
  uuid_in_canonical : ∀ s c, uuid_in s = Some c → uuid_in c = Some c;
  text_in : string → bool;
  jsonb_in : json → bool;
  interval_us : duration → Z;
  interval_us_nonneg : ∀ d, 0 ≤ d → 0 ≤ interval_us d;
  returning : ∀ {A}, list A → list A;
  returning_perm : ∀ {A} (l : list A), returning l ≡ₚ l
}.

(** ** Columns *)

Record Row : Type := mkRow {
  topic : string;
  partition_key : option string;
  payload : bytes;
  headers : json;
  content_type : option string;
  message_type : option string;
  status : Status;
  attempts : Z;
  max_attempts : option Z;
  locked_by : option string;
  locked_until : option time;
  next_attempt_at : time;
  last_error : option string;
  created_at : time;
  published_at : option time;
  lease_token : option string;
  finished_at : option time;
  seq : Z
}.

(** The table, keyed by its primary key [id], with the sequence behind [seq],
    its qualified name and the number of notifications sent on the channel. *)
Record Db : Type := mkDb {
  table_name : string;
  rows : gmap string Row;
  next_seq : Z;
  notified : nat
}.

Definition with_rows (db : Db) (t : gmap string Row) : Db :=
  mkDb db.(table_name) t db.(next_seq) db.(notified).

(** ** Server state a statement reads *)
Record StmtEnv : Type := mkStmtEnv {
  e_now : time;                (* now(): the start of the transaction *)
  e_clk : time;                (* clock_timestamp() *)
  e_locked : gset string;      (* rows another transaction holds locked *)
  e_token : string → string;   (* gen_random_uuid() for the row of this id *)
  e_id : nat → string          (* gen_random_uuid() for the n-th tuple *)
}.

(** ** Bound arguments and statements *)

Inductive arg : Type :=
| ANull
| AText (s : string)
| ABytes (b : bytes)
| AJson (j : json)
| AInt (z : Z).

Inductive Cmd : Type :=
| CEnqueue (sql : string) (args : list arg)
| CClaim (ordered : bool) (instance : string) (lease : duration) (limit : Z)
| CRenew (ids tokens : list string) (lease : duration)
| CFinish (ids tokens : list string) (st : Status) (reason : arg) (delay : duration) (clear : bool)
| CRequeue (id : string)
| CCleanup (retention dead discard : duration) (limit : Z).

Record Stmt : Type := mkStmt { st_table : string; st_cmd : Cmd }.

(** A statement fails with an SQLSTATE ("22000" stands for every data exception
    of a cast, "08P01" for a driver's refusal to send it) and changes nothing, or yields the new
    table, the rows it returns and the number of rows it affected. *)
Record Done : Type := mkDone { d_db : Db; d_rows : list (string * Row); d_affected : Z }.

Inductive sql_res : Type :=
| SqlOk (d : Done)
| SqlErr (code : string).

(** ** SQL expressions *)

Definition int4_min : Z := - 2 ^ 31.
Definition int4_max : Z := 2 ^ 31 - 1.
Definition int4_ok (z : Z) : bool := (int4_min <=? z) && (z <=? int4_max).

(** A comparison with NULL is not true. *)
Definition null_lt (a b : option Z) : bool :=
  match a, b with Some x, Some y => x <? y | _, _ => false end.
Definition null_eq (a b : option string) : bool :=
  match a, b with Some x, Some y => String.eqb x y | _, _ => false end.

(** [(id, lease_token) IN (SELECT * FROM unnest(ids, tokens))] *)
Definition holds_key (keys : list (string * string)) (id : string) (r : Row) : bool :=
  existsb (λ '(i, t), String.eqb i id && null_eq r.(lease_token) (Some t)) keys.

(** [UPDATE ... SET f WHERE p RETURNING ...] *)
Definition matched (p : string → Row → bool) (t : gmap string Row) : list (string * Row) :=
  filter (λ ir, p ir.1 ir.2 = true) (map_to_list t).

Definition update_rows (p : string → Row → bool) (f : string → Row → Row)
    (t : gmap string Row) : gmap string Row :=
  map_imap (λ id r, Some (if p id r then f id r else r)) t.

Section Statements.
Context `{Postgres}.

Definition run_update (db : Db) (p : string → Row → bool) (f : string → Row → Row) : Done :=
  let hit := matched p db.(rows) in
  mkDone (with_rows db (update_rows p f db.(rows)))
    (returning (map (λ ir, (ir.1, f ir.1 ir.2)) hit))
    (Z.of_nat (length hit)).

(** *** Enqueue *)

Definition arg_text (a : arg) : option (option string) :=
  match a with ANull => Some None | AText s => if text_in s then Some (Some s) else None | _ => None end.

(** A new row with the column defaults of the migrations. *)
Definition insert_row (e : StmtEnv) (db : Db) (tp : string) (pk : option string) (pl : bytes)
    (hd : json) (ct mt : option string) (ma : option Z) : Row :=
  mkRow tp pk pl hd ct mt StatusPending 0 ma None None e.(e_now) None e.(e_now) None None None
    db.(next_seq).

(** One VALUES tuple, number [i]: cast its arguments, draw the next [seq], and
    insert unless the id is taken ([ON CONFLICT (id) DO NOTHING]). *)
Definition insert_tuple (e : StmtEnv) (i : nat) (args : list arg) (db : Db) : Db + string :=
  match args with
  | [a_id; AText tp; a_pk; ABytes pl; AJson hd; a_ct; a_mt; a_max] =>
      if negb (text_in tp && jsonb_in hd) then inr "22000" else
      match
        (match a_id with ANull => Some (e.(e_id) i) | AText s => uuid_in s | _ => None end),
        arg_text a_pk, arg_text a_ct, arg_text a_mt,
        (match a_max with
         | ANull => Some None
         | AInt z => if int4_ok z then Some (Some z) else None
         | _ => None
         end)
      with
      | Some id, Some pk, Some ct, Some mt, Some ma =>
          inl (mkDb db.(table_name)
                 (match db.(rows) !! id with
                  | Some _ => db.(rows)
                  | None => <[id := insert_row e db tp pk pl hd ct mt ma]> db.(rows)
                  end)
                 (db.(next_seq) + 1) db.(notified))
      | _, _, _, _, _ => inr "22000"
      end
  | _ => inr "23502"
  end.

Fixpoint insert_tuples (e : StmtEnv) (i : nat) (tuples : list (list arg)) (db : Db) : Db + string :=
  match tuples with
  | [] => inl db
  | tu :: tuples' =>
      match insert_tuple e i tu db with
      | inl db' => insert_tuples e (S i) tuples' db'
      | inr code => inr code
      end
  end.

(** The argument list cut into tuples of eight, the arity of the statement. *)
Fixpoint tuples_of (args : list arg) : list (list arg) :=
  match args with
  | a1 :: a2 :: a3 :: a4 :: a5 :: a6 :: a7 :: a8 :: args' =>
      [a1; a2; a3; a4; a5; a6; a7; a8] :: tuples_of args'
  | [] => []
  | rest => [rest]
  end.

(** The Bind message of the protocol counts its parameters in sixteen bits: a
    driver refuses a statement with more, and the server never sees it. *)
Definition max_params : Z := 65535.
Definition too_many_params : string := "08P01".

(** The statement trigger notifies once, also when every tuple conflicted. *)
Definition exec_enqueue (e : StmtEnv) (args : list arg) (db : Db) : sql_res :=
  if max_params <? Z.of_nat (length args) then SqlErr too_many_params else
  match insert_tuples e 0 (tuples_of args) db with
  | inl db' =>
      SqlOk (mkDone (mkDb db'.(table_name) db'.(rows) db'.(next_seq) (S db'.(notified))) []
               (Z.of_nat (size db'.(rows)) - Z.of_nat (size db.(rows))))
  | inr code => SqlErr code
  end.

(** *** Claim *)

(** [e.status NOT IN ('published', 'discarded')] *)
Definition settled (r : Row) : bool :=
  bool_decide (r.(status) = StatusPublished) || bool_decide (r.(status) = StatusDiscarded).

(** [(a.created_at, a.seq) < (b.created_at, b.seq)] *)
Definition before (a b : Row) : bool :=
  (a.(created_at) <? b.(created_at)) ||
  ((a.(created_at) =? b.(created_at)) && (a.(seq) <? b.(seq))).

(** The subquery of the ordered mode's NOT EXISTS. *)
Definition blocked (t : gmap string Row) (o : Row) : bool :=
  existsb (λ ir, null_eq ir.2.(partition_key) o.(partition_key) && before ir.2 o
                 && negb (settled ir.2)) (map_to_list t).

Definition claimable (now : time) (ordered : bool) (t : gmap string Row) (o : Row) : bool :=
  (o.(next_attempt_at) <=? now)
  && (bool_decide (o.(status) = StatusPending)
      || (bool_decide (o.(status) = StatusProcessing) && null_lt o.(locked_until) (Some now)))
  && (if ordered then negb (blocked t o) else true).

(** [ORDER BY o.created_at, o.seq] *)
Definition claim_order (a b : string * Row) : Prop := before b.2 a.2 = false.
#[export] Instance claim_order_dec a b : Decision (claim_order a b).
Proof. unfold claim_order. apply _. Defined.

(** [ORDER BY ... FOR UPDATE SKIP LOCKED LIMIT n] *)
Definition skip_locked_limit (locked : gset string) (limit : Z) (l : list (string * Row)) : list string :=
  take (Z.to_nat limit) (filter (λ id, id ∉ locked) (map fst l)).

Definition claim_select (e : StmtEnv) (ordered : bool) (limit : Z) (t : gmap string Row) : list string :=
  skip_locked_limit e.(e_locked) limit
    (merge_sort claim_order (matched (λ _ r, claimable e.(e_now) ordered t r) t)).

Definition claim_row (e : StmtEnv) (instance : string) (lease : duration) (id : string) (r : Row) : Row :=
  mkRow r.(topic) r.(partition_key) r.(payload) r.(headers) r.(content_type) r.(message_type)
    StatusProcessing (r.(attempts) + 1) r.(max_attempts)
    (Some instance) (Some (e.(e_clk) + interval_us lease))
    r.(next_attempt_at) r.(last_error) r.(created_at) r.(published_at)
    (Some (e.(e_token) id)) r.(finished_at) r.(seq).

Definition exec_claim (e : StmtEnv) (ordered : bool) (instance : string) (lease : duration)
    (limit : Z) (db : Db) : sql_res :=
  if limit <? 0 then SqlErr "2201W"
  else if negb (text_in instance) then SqlErr "22000"
  else
    let sel := claim_select e ordered limit db.(rows) in
    let p id (r : Row) := bool_decide (id ∈ sel) in
    if forallb (λ ir, int4_ok (ir.2.(attempts) + 1)) (matched p db.(rows))
    then SqlOk (run_update db p (claim_row e instance lease))
    else SqlErr "22003".

(** *** Renew and finish *)

(** The arrays cast to [uuid[]]; they have one length, that of the batch. *)
Definition cast_keys (ids tokens : list string) : option (list (string * string)) :=
  ids' ← mapM uuid_in ids; tokens' ← mapM uuid_in tokens; Some (zip ids' tokens').

(** [... AND status='processing' AND locked_until > clock_timestamp()] *)
Definition live_claim (clk : time) (keys : list (string * string)) (id : string) (r : Row) : bool :=
  holds_key keys id r && bool_decide (r.(status) = StatusProcessing)
  && null_lt (Some clk) r.(locked_until).

Definition renew_row (e : StmtEnv) (lease : duration) (r : Row) : Row :=
  mkRow r.(topic) r.(partition_key) r.(payload) r.(headers) r.(content_type) r.(message_type)
    r.(status) r.(attempts) r.(max_attempts) r.(locked_by)
    (Some (e.(e_clk) + interval_us lease))
    r.(next_attempt_at) r.(last_error) r.(created_at) r.(published_at) r.(lease_token)
    r.(finished_at) r.(seq).

Definition exec_renew (e : StmtEnv) (ids tokens : list string) (lease : duration) (db : Db) : sql_res :=
  match cast_keys ids tokens with
  | Some keys => SqlOk (run_update db (live_claim e.(e_clk) keys) (λ _, renew_row e lease))
  | None => SqlErr "22000"
  end.

(** [$6 AND $3 IN ('published','discarded')] *)
Definition scrubs (clear : bool) (st : Status) : bool :=
  clear && (bool_decide (st = StatusPublished) || bool_decide (st = StatusDiscarded)).

Definition finish_row (e : StmtEnv) (st : Status) (reason : option string) (delay : duration)
    (clear : bool) (r : Row) : Row :=
  mkRow r.(topic) r.(partition_key)
    (if scrubs clear st then [] else r.(payload))
    (if scrubs clear st then JObj [] else r.(headers))
    r.(content_type) r.(message_type)
    st r.(attempts) r.(max_attempts) None None
    (if bool_decide (st = StatusPending) then e.(e_clk) + interval_us delay else r.(next_attempt_at))
    reason r.(created_at)
    (if bool_decide (st = StatusPublished) then Some e.(e_clk) else None)
    None
    (if bool_decide (st = StatusPending) then None else Some e.(e_clk))
    r.(seq).

Definition exec_finish (e : StmtEnv) (ids tokens : list string) (st : Status) (reason : arg)
    (delay : duration) (clear : bool) (db : Db) : sql_res :=
  match cast_keys ids tokens, arg_text reason with
  | Some keys, Some reason' =>
      SqlOk (run_update db (live_claim e.(e_clk) keys) (λ _, finish_row e st reason' delay clear))
  | _, _ => SqlErr "22000"
  end.

(** *** Requeue *)

Definition requeue_row (e : StmtEnv) (r : Row) : Row :=
  mkRow r.(topic) r.(partition_key) r.(payload) r.(headers) r.(content_type) r.(message_type)
    StatusPending 0 r.(max_attempts) None None e.(e_clk) None r.(created_at) None None None r.(seq).

(** The statement selects [pg_notify] once per changed row, so the rows it
    returns are what the command tag counts. *)
Definition exec_requeue (e : StmtEnv) (id : string) (db : Db) : sql_res :=
  match uuid_in id with
  | Some id' =>
      let p i r := String.eqb i id' && bool_decide (r.(status) = StatusDead) in
      let d := run_update db p (λ _, requeue_row e) in
      SqlOk (mkDone (mkDb db.(table_name) d.(d_db).(rows) db.(next_seq)
                       (Z.to_nat d.(d_affected) + db.(notified))) [] d.(d_affected))
  | None => SqlErr "22000"
  end.

(** *** Cleanup *)

(** [$n > 0 AND status=... AND ts < now()-make_interval(secs => $n)] *)
Definition expired (now : time) (keep : duration) (ts : option time) : bool :=
  (0 <? keep) && null_lt ts (Some (now - interval_us keep)).

Definition removable (now : time) (retention dead discard : duration) (r : Row) : bool :=
  match r.(status) with
  | StatusPublished => expired now retention r.(published_at)
  | StatusDead => expired now dead r.(finished_at)
  | StatusDiscarded => expired now discard r.(finished_at)
  | StatusPending | StatusProcessing => false
  end.

(** [COALESCE(finished_at, published_at)], NULL sorting last. *)
Definition terminal_time (r : Row) : option time := or_else r.(finished_at) r.(published_at).

(** [ORDER BY COALESCE(finished_at, published_at), id] *)
Definition cleanup_after (a b : string * Row) : bool :=
  match terminal_time a.2, terminal_time b.2 with
  | Some x, Some y => (y <? x) || ((y =? x) && negb (String.leb a.1 b.1))
  | Some _, None => false
  | None, Some _ => true
  | None, None => negb (String.leb a.1 b.1)
  end.
Definition cleanup_order (a b : string * Row) : Prop := cleanup_after a b = false.
#[export] Instance cleanup_order_dec a b : Decision (cleanup_order a b).
Proof. unfold cleanup_order. apply _. Defined.

Definition cleanup_select (e : StmtEnv) (retention dead discard : duration) (limit : Z)
    (t : gmap string Row) : list string :=
  skip_locked_limit e.(e_locked) limit
    (merge_sort cleanup_order (matched (λ _ r, removable e.(e_now) retention dead discard r) t)).

Definition exec_cleanup (e : StmtEnv) (retention dead discard : duration) (limit : Z) (db : Db) : sql_res :=
  if limit <? 0 then SqlErr "2201W"
  else
    let sel := cleanup_select e retention dead discard limit db.(rows) in
    SqlOk (mkDone (with_rows db (filter (λ ir, ir.1 ∉ sel) db.(rows))) []
             (Z.of_nat (size db.(rows)) - Z.of_nat (size (filter (λ ir, ir.1 ∉ sel) db.(rows))))).

(** *** Any statement *)
Definition exec_stmt (e : StmtEnv) (s : Stmt) (db : Db) : sql_res :=
  if String.eqb s.(st_table) db.(table_name) then
    match s.(st_cmd) with
    | CEnqueue _ args => exec_enqueue e args db
    | CClaim ordered inst lease limit => exec_claim e ordered inst lease limit db
    | CRenew ids tokens lease => exec_renew e ids tokens lease db
    | CFinish ids tokens st reason delay clear => exec_finish e ids tokens st reason delay clear db
    | CRequeue id => exec_requeue e id db
    | CCleanup ret dead disc limit => exec_cleanup e ret dead disc limit db
    end
  else SqlErr "42P01".

(** The table after a statement: unchanged when it failed. *)
Definition after_stmt (e : StmtEnv) (s : Stmt) (db : Db) : Db :=
  match exec_stmt e s db with SqlOk d => d.(d_db) | SqlErr _ => db end.
End Statements.

(** ** Facts about the table operations *)

Lemma lookup_update_rows p f t id :
  update_rows p f t !! id = (λ r, if p id r then f id r else r) <$> t !! id.
Proof. unfold update_rows. rewrite map_lookup_imap. by destruct (t !! id). Qed.

Lemma elem_of_matched p t id r : (id, r) ∈ matched p t ↔ t !! id = Some r ∧ p id r = true.
Proof. unfold matched. rewrite list_elem_of_filter, elem_of_map_to_list; simpl. naive_solver. Qed.

Lemma NoDup_fst_filter {A} (P : string * A → Prop) `{∀ x, Decision (P x)} (l : list (string * A)) :
  NoDup l.*1 → NoDup (filter P l).*1.
Proof.
  induction l as [|[i a] l IH]; simpl; [done|]. intros [Hi Hl]%NoDup_cons.
  rewrite filter_cons. case_decide; simpl; [|auto].
  apply NoDup_cons. split; [|auto].
  intros ([j b] & -> & Hin%list_elem_of_filter)%list_elem_of_fmap.
  apply Hi, list_elem_of_fmap. exists (j, b). naive_solver.
Qed.

Lemma NoDup_fst_matched p t : NoDup (matched p t).*1.
Proof. apply NoDup_fst_filter, NoDup_fst_map_to_list. Qed.

Lemma matched_nil p t : matched p t = [] ↔ ∀ id r, t !! id = Some r → p id r = false.
Proof.
  split.
  - intros Hn id r Hr. destruct (p id r) eqn:E; [|done].
    assert ((id, r) ∈ matched p t) as Hin by by apply elem_of_matched.
    rewrite Hn in Hin. by apply not_elem_of_nil in Hin.
  - intros Hall. destruct (matched p t) as [|[id r] l] eqn:E; [done|].
    assert ((id, r) ∈ matched p t) as [Hr Hp]%elem_of_matched by (rewrite E; left).
    rewrite (Hall id r Hr) in Hp. done.
Qed.

(** *** SKIP LOCKED and LIMIT *)
Section SkipLocked.
Context (locked : gset string) (limit : Z) (l : list (string * Row)).

Lemma skip_locked_limit_sub id :
  id ∈ skip_locked_limit locked limit l → id ∉ locked ∧ ∃ r, (id, r) ∈ l.
Proof.
  unfold skip_locked_limit. intros Hin%(subseteq_take (A:=string)).
  apply list_elem_of_filter in Hin as [? ([j r] & -> & ?)%list_elem_of_fmap]. eauto.
Qed.

Lemma skip_locked_limit_length :
  0 ≤ limit → (Z.of_nat (length (skip_locked_limit locked limit l)) ≤ limit)%Z.
Proof. intros. unfold skip_locked_limit. rewrite length_take. lia. Qed.

Lemma skip_locked_limit_nodup : NoDup l.*1 → NoDup (skip_locked_limit locked limit l).
Proof. intros. unfold skip_locked_limit.
  eapply sublist_NoDup; [|apply sublist_take]. by apply NoDup_filter. Qed.

(** Rows left out although unlocked exist only when the limit was reached. *)
Lemma skip_locked_limit_full id r :
  (id, r) ∈ l → id ∉ locked → id ∉ skip_locked_limit locked limit l → 0 ≤ limit →
  Z.of_nat (length (skip_locked_limit locked limit l)) = limit.
Proof.
  unfold skip_locked_limit. intros Hin Hlk Hout Hl.
  set (cs := filter (λ i, i ∉ locked) (map fst l)) in *.
  assert (id ∈ cs) as Hcs.
  { apply list_elem_of_filter. split; [done|]. apply list_elem_of_fmap. by exists (id, r). }
  rewrite length_take. destruct (decide (Z.to_nat limit ≤ length cs)%nat); [lia|].
  exfalso. apply Hout. rewrite take_ge by lia. done.
Qed.
End SkipLocked.

(** *** The claim order *)
Lemma before_spec a b :
  before a b = true ↔ created_at a < created_at b ∨ (created_at a = created_at b ∧ seq a < seq b).
Proof. unfold before. rewrite orb_true_iff, andb_true_iff, !Z.ltb_lt, Z.eqb_eq. done. Qed.

Lemma before_false a b :
  before a b = false ↔ created_at b < created_at a ∨ (created_at a = created_at b ∧ seq b ≤ seq a).
Proof.
  rewrite <-not_true_iff_false, before_spec. lia.
Qed.

#[export] Instance claim_order_trans : Transitive claim_order.
Proof. intros a b c. unfold claim_order. rewrite !before_false. lia. Qed.

#[export] Instance claim_order_total : Total claim_order.
Proof. intros a b. unfold claim_order. rewrite !before_false. lia. Qed.

Lemma before_trichotomy a b : seq a ≠ seq b → before a b = true ∨ before b a = true.
Proof. intros. rewrite !before_spec. lia. Qed.

(** *** Ordered mode *)
Lemma null_eq_spec a b : null_eq a b = true ↔ ∃ k, a = Some k ∧ b = Some k.
Proof.
  destruct a as [x|], b as [y|]; simpl; try naive_solver.
  rewrite String.eqb_eq. naive_solver.
Qed.

Lemma blocked_spec t o :
  blocked t o = true ↔
  ∃ id r k, t !! id = Some r ∧ partition_key r = Some k ∧ partition_key o = Some k ∧
            before r o = true ∧ settled r = false.
Proof.
  unfold blocked. rewrite existsb_exists. split.
  - intros ([id r] & Hin%list_elem_of_In%elem_of_map_to_list & H0).
    apply andb_true_iff in H0 as [[(k & ? & ?)%null_eq_spec ?]%andb_true_iff ?%negb_true_iff].
    simpl in *. naive_solver.
  - intros (id & r & k & Hr & Hk & Hk' & Hb & Hs). exists (id, r). split.
    + by apply list_elem_of_In, elem_of_map_to_list.
    + simpl. rewrite Hb, Hs. rewrite (proj2 (null_eq_spec _ _)); [done|by eauto].
Qed.

(** *** Keys of a batch *)
Lemma holds_key_spec keys id r :
  holds_key keys id r = true ↔ ∃ t, (id, t) ∈ keys ∧ lease_token r = Some t.
Proof.
  unfold holds_key. rewrite existsb_exists. split.
  - intros ([i t] & Hin%list_elem_of_In & H0).
    apply andb_true_iff in H0 as [->%String.eqb_eq (k & ? & ?)%null_eq_spec]. naive_solver.
  - intros (t & Hin & Ht). exists (id, t). split; [by apply list_elem_of_In|].
    rewrite String.eqb_refl, Ht. simpl. by rewrite String.eqb_refl.
Qed.

Lemma live_claim_spec clk keys id r :
  live_claim clk keys id r = true ↔
  (∃ t, (id, t) ∈ keys ∧ lease_token r = Some t) ∧ status r = StatusProcessing ∧
  (∃ u, locked_until r = Some u ∧ clk < u).
Proof.
  unfold live_claim. rewrite !andb_true_iff, holds_key_spec, bool_decide_eq_true.
  destruct (locked_until r) as [u|]; simpl; [rewrite Z.ltb_lt|]; naive_solver.
Qed.

(** *** Selections *)
Section Select.
Context (e : StmtEnv).

Lemma elem_of_claim_select ordered limit t id :
  id ∈ claim_select e ordered limit t →
  id ∉ e_locked e ∧ ∃ r, t !! id = Some r ∧ claimable (e_now e) ordered t r = true.
Proof.
  intros [? [r Hr]]%skip_locked_limit_sub. split; [done|]. exists r.
  rewrite merge_sort_Permutation in Hr. by apply elem_of_matched in Hr.
Qed.

Lemma claim_select_full ordered limit t id r :
  t !! id = Some r → claimable (e_now e) ordered t r = true → id ∉ e_locked e →
  id ∉ claim_select e ordered limit t → 0 ≤ limit →
  Z.of_nat (length (claim_select e ordered limit t)) = limit.
Proof.
  intros Hr Hc Hl Hn ?. eapply skip_locked_limit_full; [|done..].
  rewrite merge_sort_Permutation. by apply elem_of_matched.
Qed.

Lemma NoDup_claim_select ordered limit t : NoDup (claim_select e ordered limit t).
Proof.
  apply skip_locked_limit_nodup. rewrite merge_sort_Permutation. apply NoDup_fst_matched.
Qed.

Lemma elem_of_cleanup_select `{Postgres} ret dead disc limit t id :
  id ∈ cleanup_select e ret dead disc limit t →
  id ∉ e_locked e ∧ ∃ r, t !! id = Some r ∧ removable (e_now e) ret dead disc r = true.
Proof.
  intros [? [r Hr]]%skip_locked_limit_sub. split; [done|]. exists r.
  rewrite merge_sort_Permutation in Hr. by apply elem_of_matched in Hr.
Qed.

Lemma cleanup_select_full `{Postgres} ret dead disc limit t id r :
  t !! id = Some r → removable (e_now e) ret dead disc r = true → id ∉ e_locked e →
  id ∉ cleanup_select e ret dead disc limit t → 0 ≤ limit →
  Z.of_nat (length (cleanup_select e ret dead disc limit t)) = limit.
Proof.
  intros Hr Hc Hl Hn ?. eapply skip_locked_limit_full; [|done..].
  rewrite merge_sort_Permutation. by apply elem_of_matched.
Qed.
End Select.

(** A claimable row: due, and pending or with an expired lease. *)
Lemma claimable_spec now ordered t o :
  claimable now ordered t o = true ↔
  next_attempt_at o ≤ now ∧
  (status o = StatusPending ∨
   status o = StatusProcessing ∧ ∃ u, locked_until o = Some u ∧ u < now) ∧
  (ordered = true → blocked t o = false).
Proof.
  unfold claimable. rewrite !andb_true_iff, orb_true_iff, andb_true_iff, !bool_decide_eq_true, Z.leb_le.
  assert (null_lt (locked_until o) (Some now) = true ↔ ∃ u, locked_until o = Some u ∧ u < now) as ->.
  { destruct (locked_until o); simpl; [rewrite Z.ltb_lt|]; naive_solver. }
  destruct ordered; [rewrite negb_true_iff|]; naive_solver.
Qed.
