(* ===== verification/Config.v ===== *)
(** * Settings and options: [config/config.go], with the interfaces of [port/port.go]

    The resolved settings, the functional options in the order they are
    applied, the normalisation done by [Resolve], and the schema check. *)

From S2P Require Import Prelude Outcome Backoff.

Open Scope string_scope.
Open Scope Z_scope.

Definition ErrInvalidSchema : err := ENew 4 "outbox: invalid schema identifier".

(** ** Values of interface type the settings hold *)

(** A Go value of type [any]: a value of some type. *)
Inductive any : Type := mkAny (T : Set) (v : T).

(** [port.Codec] *)
Record Codec : Type := mkCodec {
  Marshal : any → option bytes * string * option err;
  Unmarshal : option bytes → any → any * option err
}.

(** [port.Hooks]: an implementation, by name, and whether it also implements
    [port.DiscardHooks].  What its methods do is an effect of the world. *)
Record Hooks : Type := mkHooks { hooks_name : string; implements_discard : bool }.
Definition NoopHooks : Hooks := mkHooks "NoopHooks" false.

(** Handles to a [*slog.Logger] and a [*pgxpool.Pool]. *)
Definition Logger : Type := string.
Definition Pool : Type := string.

(** ** Settings; a nil field is [None] *)
Record Settings : Type := mkSettings {
  InstanceID : string;
  Schema : string;
  PollInterval : duration;
  BatchSize : Z;
  LeaseDuration : duration;
  Concurrency : Z;
  sMaxAttempts : Z;
  sBackoff : option Backoff;
  Retention : duration;
  DeadRetention : duration;
  DiscardRetention : duration;
  ClearPayloadOnComplete : bool;
  PublishTimeout : duration;
  CleanupInterval : duration;
  Ordered : bool;
  Notify : bool;
  ListenPool : option Pool;
  Fatal : option (err → res panic bool);
  sHooks : option Hooks;
  sCodec : option Codec;
  sLogger : option Logger
}.

Definition neverFatal (e : err) : res panic bool := Ok false.
Definition DiscardLogger : Logger := "slog.DiscardHandler".

Definition Default : Settings := {|
  InstanceID := EmptyString; Schema := "public"; PollInterval := Second; BatchSize := 100;
  LeaseDuration := 30 * Second; Concurrency := 1; sMaxAttempts := 10;
  sBackoff := Some Backoff.Default; Retention := 0; DeadRetention := 0; DiscardRetention := 0;
  ClearPayloadOnComplete := false; PublishTimeout := 0; CleanupInterval := 0; Ordered := false;
  Notify := true; ListenPool := None; Fatal := Some neverFatal; sHooks := Some NoopHooks;
  sCodec := None; sLogger := Some DiscardLogger
|}.

(** ** Options *)
Definition Option : Type := Settings → Settings.

(** [Config], the declarative form, without its decoding tags. *)
Record Config : Type := mkConfig {
  cSchema : string;
  cPollInterval : duration;
  cBatchSize : Z;
  cLeaseDuration : duration;
  cConcurrency : Z;
  cMaxAttempts : Z;
  cRetention : duration;
  cDeadRetention : duration;
  cDiscardRetention : duration;
  cClearPayloadOnComplete : bool;
  cPublishTimeout : duration;
  cCleanupInterval : duration;
  cOrdered : bool;
  DisableNotify : bool
}.

Definition WithConfig (c : Config) : Option := λ s, {|
  InstanceID := s.(InstanceID); Schema := c.(cSchema); PollInterval := c.(cPollInterval);
  BatchSize := c.(cBatchSize); LeaseDuration := c.(cLeaseDuration);
  Concurrency := c.(cConcurrency); sMaxAttempts := c.(cMaxAttempts); sBackoff := s.(sBackoff);
  Retention := c.(cRetention); DeadRetention := c.(cDeadRetention);
  DiscardRetention := c.(cDiscardRetention);
  ClearPayloadOnComplete := c.(cClearPayloadOnComplete); PublishTimeout := c.(cPublishTimeout);
  CleanupInterval := c.(cCleanupInterval); Ordered := c.(cOrdered);
  Notify := negb c.(DisableNotify); ListenPool := s.(ListenPool); Fatal := s.(Fatal);
  sHooks := s.(sHooks); sCodec := s.(sCodec); sLogger := s.(sLogger)
|}.

(** The single-field options write one field of the settings. *)
Definition set_strings (id schema : string) (s : Settings) : Settings :=
  mkSettings id schema s.(PollInterval) s.(BatchSize) s.(LeaseDuration) s.(Concurrency)
    s.(sMaxAttempts) s.(sBackoff) s.(Retention) s.(DeadRetention) s.(DiscardRetention)
    s.(ClearPayloadOnComplete) s.(PublishTimeout) s.(CleanupInterval) s.(Ordered) s.(Notify)
    s.(ListenPool) s.(Fatal) s.(sHooks) s.(sCodec) s.(sLogger).
Definition set_limits (poll : duration) (batch : Z) (lease : duration) (conc maxa : Z) (s : Settings) : Settings :=
  mkSettings s.(InstanceID) s.(Schema) poll batch lease conc maxa s.(sBackoff) s.(Retention)
    s.(DeadRetention) s.(DiscardRetention) s.(ClearPayloadOnComplete) s.(PublishTimeout)
    s.(CleanupInterval) s.(Ordered) s.(Notify) s.(ListenPool) s.(Fatal) s.(sHooks) s.(sCodec)
    s.(sLogger).
Definition set_retentions (ret dead disc pub clean : duration) (s : Settings) : Settings :=
  mkSettings s.(InstanceID) s.(Schema) s.(PollInterval) s.(BatchSize) s.(LeaseDuration)
    s.(Concurrency) s.(sMaxAttempts) s.(sBackoff) ret dead disc s.(ClearPayloadOnComplete) pub clean
    s.(Ordered) s.(Notify) s.(ListenPool) s.(Fatal) s.(sHooks) s.(sCodec) s.(sLogger).
Definition set_flags (clear ordered notify : bool) (s : Settings) : Settings :=
  mkSettings s.(InstanceID) s.(Schema) s.(PollInterval) s.(BatchSize) s.(LeaseDuration)
    s.(Concurrency) s.(sMaxAttempts) s.(sBackoff) s.(Retention) s.(DeadRetention)
    s.(DiscardRetention) clear s.(PublishTimeout) s.(CleanupInterval) ordered notify
    s.(ListenPool) s.(Fatal) s.(sHooks) s.(sCodec) s.(sLogger).
Definition set_plugins (b : option Backoff) (pool : option Pool) (f : option (err → res panic bool))
    (h : option Hooks) (c : option Codec) (l : option Logger) (s : Settings) : Settings :=
  mkSettings s.(InstanceID) s.(Schema) s.(PollInterval) s.(BatchSize) s.(LeaseDuration)
    s.(Concurrency) s.(sMaxAttempts) b s.(Retention) s.(DeadRetention)
    s.(DiscardRetention) s.(ClearPayloadOnComplete) s.(PublishTimeout) s.(CleanupInterval)
    s.(Ordered) s.(Notify) pool f h c l.

Definition WithInstanceID (id : string) : Option := λ s, set_strings id s.(Schema) s.
Definition WithSchema (schema : string) : Option := λ s, set_strings s.(InstanceID) schema s.
Definition WithPollInterval (d : duration) : Option := λ s,
  set_limits d s.(BatchSize) s.(LeaseDuration) s.(Concurrency) s.(sMaxAttempts) s.
Definition WithBatchSize (n : Z) : Option := λ s,
  set_limits s.(PollInterval) n s.(LeaseDuration) s.(Concurrency) s.(sMaxAttempts) s.
Definition WithLeaseDuration (d : duration) : Option := λ s,
  set_limits s.(PollInterval) s.(BatchSize) d s.(Concurrency) s.(sMaxAttempts) s.
Definition WithConcurrency (n : Z) : Option := λ s,
  set_limits s.(PollInterval) s.(BatchSize) s.(LeaseDuration) n s.(sMaxAttempts) s.
Definition WithMaxAttempts (n : Z) : Option := λ s,
  set_limits s.(PollInterval) s.(BatchSize) s.(LeaseDuration) s.(Concurrency) n s.
Definition WithRetryBackoff (b : option Backoff) : Option := λ s,
  match b with
  | Some _ => set_plugins b s.(ListenPool) s.(Fatal) s.(sHooks) s.(sCodec) s.(sLogger) s
  | None => s
  end.
Definition WithRetention (ttl : duration) : Option := λ s,
  set_retentions ttl s.(DeadRetention) s.(DiscardRetention) s.(PublishTimeout) s.(CleanupInterval) s.
Definition WithDeadRetention (ttl : duration) : Option := λ s,
  set_retentions s.(Retention) ttl s.(DiscardRetention) s.(PublishTimeout) s.(CleanupInterval) s.
Definition WithDiscardRetention (ttl : duration) : Option := λ s,
  set_retentions s.(Retention) s.(DeadRetention) ttl s.(PublishTimeout) s.(CleanupInterval) s.
Definition WithPublishTimeout (d : duration) : Option := λ s,
  set_retentions s.(Retention) s.(DeadRetention) s.(DiscardRetention) d s.(CleanupInterval) s.
Definition WithCleanupInterval (d : duration) : Option := λ s,
  set_retentions s.(Retention) s.(DeadRetention) s.(DiscardRetention) s.(PublishTimeout) d s.
Definition WithClearPayloadOnComplete (enabled : bool) : Option := λ s,
  set_flags enabled s.(Ordered) s.(Notify) s.
Definition WithOrdered (v : bool) : Option := λ s,
  set_flags s.(ClearPayloadOnComplete) v s.(Notify) s.
Definition WithoutNotify : Option := λ s,
  set_flags s.(ClearPayloadOnComplete) s.(Ordered) false s.
Definition WithListenPool (p : option Pool) : Option := λ s,
  set_plugins s.(sBackoff) p s.(Fatal) s.(sHooks) s.(sCodec) s.(sLogger) s.
Definition WithFatal (f : option (err → res panic bool)) : Option := λ s,
  match f with
  | Some _ => set_plugins s.(sBackoff) s.(ListenPool) f s.(sHooks) s.(sCodec) s.(sLogger) s
  | None => s
  end.
Definition WithHooks (h : option Hooks) : Option := λ s,
  match h with
  | Some _ => set_plugins s.(sBackoff) s.(ListenPool) s.(Fatal) h s.(sCodec) s.(sLogger) s
  | None => s
  end.
Definition WithCodec (c : option Codec) : Option := λ s,
  set_plugins s.(sBackoff) s.(ListenPool) s.(Fatal) s.(sHooks) c s.(sLogger) s.
Definition WithLogger (l : option Logger) : Option := λ s,
  match l with
  | Some _ => set_plugins s.(sBackoff) s.(ListenPool) s.(Fatal) s.(sHooks) s.(sCodec) l s
  | None => s
  end.

(** ** Resolve *)

(** One lowercase hexadecimal digit, and [hex.EncodeToString]. *)
Definition hex_digit (n : N) : Ascii.ascii :=
  Ascii.ascii_of_N (if (n <? 10)%N then n + 48 else n + 87).
Definition hex_EncodeToString (b : bytes) : string :=
  fold_right (λ c s, let n := Byte.to_N c in
    String (hex_digit (n / 16)%N) (String (hex_digit (n mod 16)%N) s)) EmptyString b.

(** [generateInstanceID]: eight random bytes, and [os.Hostname]'s answer
    ([None] for an error). *)
Definition generateInstanceID (random : bytes) (hostname : option string) : string :=
  let suffix := hex_EncodeToString random in
  match hostname with
  | Some host => if String.eqb host EmptyString then "outbox-" +:+ suffix else host +:+ "-" +:+ suffix
  | None => "outbox-" +:+ suffix
  end.

Definition normalize (d : Settings) (random : bytes) (hostname : option string) (s : Settings) : Settings := {|
  InstanceID := if String.eqb s.(InstanceID) EmptyString
                then generateInstanceID random hostname else s.(InstanceID);
  Schema := if String.eqb s.(Schema) EmptyString then d.(Schema) else s.(Schema);
  PollInterval := if s.(PollInterval) <=? 0 then d.(PollInterval) else s.(PollInterval);
  BatchSize := if s.(BatchSize) <? 1 then d.(BatchSize) else s.(BatchSize);
  LeaseDuration := if s.(LeaseDuration) <=? 0 then d.(LeaseDuration) else s.(LeaseDuration);
  Concurrency := if s.(Concurrency) <? 1 then d.(Concurrency) else s.(Concurrency);
  sMaxAttempts := if s.(sMaxAttempts) <? 1 then d.(sMaxAttempts) else s.(sMaxAttempts);
  sBackoff := or_else s.(sBackoff) d.(sBackoff);
  Retention := s.(Retention); DeadRetention := s.(DeadRetention);
  DiscardRetention := s.(DiscardRetention);
  ClearPayloadOnComplete := s.(ClearPayloadOnComplete); PublishTimeout := s.(PublishTimeout);
  CleanupInterval := s.(CleanupInterval); Ordered := s.(Ordered); Notify := s.(Notify);
  ListenPool := s.(ListenPool);
  Fatal := or_else s.(Fatal) d.(Fatal);
  sHooks := or_else s.(sHooks) d.(sHooks);
  sCodec := s.(sCodec);
  sLogger := or_else s.(sLogger) d.(sLogger)
|}.

Definition Resolve (random : bytes) (hostname : option string) (opts : list Option) : Settings :=
  let d := Default in
  normalize d random hostname (fold_left (λ s o, o s) opts d).

(** What the engine relies on. *)
Record runnable (s : Settings) : Prop := {
  run_instance : InstanceID s ≠ EmptyString;
  run_schema : Schema s ≠ EmptyString;
  run_poll : 0 < PollInterval s;
  run_batch : 1 ≤ BatchSize s;
  run_lease : 0 < LeaseDuration s;
  run_concurrency : 1 ≤ Concurrency s;
  run_attempts : 1 ≤ sMaxAttempts s;
  run_backoff : is_Some (sBackoff s);
  run_fatal : is_Some (Fatal s);
  run_hooks : is_Some (sHooks s);
  run_logger : is_Some (sLogger s)
}.

Lemma append_nonempty a b : (a ≠ EmptyString → a +:+ b ≠ EmptyString)%string.
Proof. by destruct a. Qed.

Lemma generateInstanceID_nonempty random hostname :
  generateInstanceID random hostname ≠ EmptyString.
Proof.
  unfold generateInstanceID. destruct hostname as [host|]; [|done].
  destruct (String.eqb_spec host EmptyString); [done|]. by apply append_nonempty.
Qed.

Lemma Resolve_is_runnable random hostname opts : runnable (Resolve random hostname opts).
Proof.
  unfold Resolve. set (s := fold_left _ _ _). destruct s. split; simpl.
  - destruct (String.eqb_spec InstanceID0 EmptyString); [apply generateInstanceID_nonempty|done].
  - by destruct (String.eqb_spec Schema0 EmptyString).
  - by destruct (Z.leb_spec PollInterval0 0).
  - by destruct (Z.ltb_spec BatchSize0 1).
  - by destruct (Z.leb_spec LeaseDuration0 0).
  - by destruct (Z.ltb_spec Concurrency0 1).
  - by destruct (Z.ltb_spec sMaxAttempts0 1).
  - destruct sBackoff0; simpl; eauto.
  - destruct Fatal0; simpl; eauto.
  - destruct sHooks0; simpl; eauto.
  - destruct sLogger0; simpl; eauto.
Qed.

(** C36. Whatever the options write, a zero or negative limit, an empty string or
    a nil collaborator included, the resolved settings are runnable. *)
Theorem Resolve_runnable random hostname opts : runnable (Resolve random hostname opts).
Proof. apply Resolve_is_runnable. Qed.

(** Runnable settings are left alone: normalisation only fills gaps. *)
Lemma normalize_runnable d random hostname s :
  runnable s → normalize d random hostname s = s.
Proof.
  intros [Hi Hs Hp Hb Hl Hc Ha [b Hbk] [f Hf] [h Hh] [l Hlg]]. destruct s; simpl in *; subst.
  unfold normalize; simpl.
  rewrite (proj2 (String.eqb_neq _ _) Hi), (proj2 (String.eqb_neq _ _) Hs).
  rewrite (proj2 (Z.leb_gt _ _) Hp), (proj2 (Z.leb_gt _ _) Hl).
  rewrite !(proj2 (Z.ltb_ge _ _)) by lia. done.
Qed.

(** A declarative [Config] whose own fields are usable is applied verbatim,
    and an option after it wins over the field it narrows. *)
Theorem WithConfig_then_option random hostname c id dead :
  id ≠ EmptyString → cSchema c ≠ EmptyString → 0 < cPollInterval c → 1 ≤ cBatchSize c →
  0 < cLeaseDuration c → 1 ≤ cConcurrency c → 1 ≤ cMaxAttempts c →
  Resolve random hostname [WithInstanceID id; WithConfig c; WithDeadRetention dead] =
    WithDeadRetention dead (WithConfig c (WithInstanceID id Default)).
Proof. intros. apply normalize_runnable. split; simpl; eauto. Qed.

(** The zero [Config] keeps every default and leaves notifications on. *)
Theorem Resolve_zero_config random hostname :
  let s := Resolve random hostname
    [WithConfig (mkConfig EmptyString 0 0 0 0 0 0 0 0 false 0 0 false false)] in
  s = WithInstanceID (InstanceID s) Default.
Proof. reflexivity. Qed.

(** Not every non-positive duration falls back to its default: a negative
    publish timeout or retention passes [Resolve] unchanged (the engine then
    treats it as disabled). *)
Theorem Resolve_keeps_negative random hostname :
  let s := Resolve random hostname [WithPublishTimeout (-1); WithRetention (-5); WithCleanupInterval (-7)] in
  PublishTimeout s = -1 ∧ Retention s = -5 ∧ CleanupInterval s = -7 ∧
  PublishTimeout Default = 0 ∧ Retention Default = 0 ∧ CleanupInterval Default = 0.
Proof. done. Qed.

(** ** The schema identifier *)

(** The fragment of regular expressions [schemaRe] uses, matched on bytes. *)
Inductive regex : Type :=
| RClass (p : Ascii.ascii → bool)
| RStar (r : regex)
| RSeq (r r' : regex).

Inductive matches : regex → string → Prop :=
| m_class p c : p c = true → matches (RClass p) (String c EmptyString)
| m_star_nil r : matches (RStar r) EmptyString
| m_star_cons r s s' : matches r s → matches (RStar r) s' → matches (RStar r) (s +:+ s')
| m_seq r r' s s' : matches r s → matches r' s' → matches (RSeq r r') (s +:+ s').

Definition in_range (lo hi : N) (c : Ascii.ascii) : bool :=
  let n := Ascii.N_of_ascii c in ((lo <=? n) && (n <=? hi))%N.

(** [[A-Za-z_]] and [[A-Za-z0-9_]] *)
Definition ident_start (c : Ascii.ascii) : bool :=
  in_range 65 90 c || in_range 97 122 c || in_range 95 95 c.
Definition ident_cont (c : Ascii.ascii) : bool := ident_start c || in_range 48 57 c.

(** [^[A-Za-z_][A-Za-z0-9_]*$]: anchored at both ends. *)
Definition schemaRe : regex := RSeq (RClass ident_start) (RStar (RClass ident_cont)).

Fixpoint string_all (p : Ascii.ascii → bool) (s : string) : bool :=
  match s with EmptyString => true | String c s' => p c && string_all p s' end.

Definition ValidSchema (s : string) : bool :=
  match s with EmptyString => false | String c s' => ident_start c && string_all ident_cont s' end.

Lemma matches_star_class p s : matches (RStar (RClass p)) s ↔ string_all p s = true.
Proof.
  split.
  - remember (RStar (RClass p)) as r eqn:Er. induction 1; simplify_eq; [done|].
    match goal with H : matches (RClass _) _ |- _ => inversion H; subst end; simpl.
    apply andb_true_iff. auto.
  - induction s as [|c s IH]; simpl; [constructor|]. intros [Hc Hs]%andb_true_iff.
    apply (m_star_cons _ (String c EmptyString) s); [by constructor|auto].
Qed.

(** The byte test is the regular expression of the source. *)
Theorem ValidSchema_regex s : ValidSchema s = true ↔ matches schemaRe s.
Proof.
  split.
  - destruct s as [|c s]; simpl; [done|]. intros [Hc Hs]%andb_true_iff.
    apply (m_seq _ _ (String c EmptyString) s); [by constructor|by apply matches_star_class].
  - inversion 1 as [| | |? ? ? ? H1 H2]; subst. inversion H1; subst; simpl.
    apply andb_true_iff. split; [done|by apply matches_star_class].
Qed.
