(* ===== verification/Store.v ===== *)
(** * The store: [engine/store.go]

    The Go methods that build the statements of [Postgres.v], send them through
    an [Executor] and read the rows back.  The executor is an interface of
    [port/port.go]: a record of operations over an abstract world. *)

From Stdlib Require Import Ascii.
From S2P Require Import Prelude Outcome Message Backoff Config Postgres.

Open Scope string_scope.
Open Scope Z_scope.

Definition NotifyChannel : string := "outbox_messages".

(** A Go computation over the world [W]. *)
Abbreviation go W A := (M panic W A).

(** ** [port.Executor]: send a statement, get rows or a command tag *)
Record Executor (W : Type) : Type := mkExecutor {
  Exec : Stmt → go W (Z * option err);
  Query : Stmt → go W (list (string * Row) * option err)
}.
Arguments Exec {W}.
Arguments Query {W}.

(** ** [%q] of [fmt]: the schema, quoted

    Escapes as [strconv.Quote] writes them for ASCII; other bytes are kept, as
    they are for printable runes. *)
Definition quote_char : Ascii.ascii := Ascii.ascii_of_N 34.
Definition backslash : Ascii.ascii := Ascii.ascii_of_N 92.

Definition quote_byte (c : Ascii.ascii) : string :=
  let n := Ascii.N_of_ascii c in
  let esc (l : Ascii.ascii) := String backslash (String l EmptyString) in
  if (n =? 34)%N || (n =? 92)%N then esc c
  else if (n =? 7)%N then esc "a"%char else if (n =? 8)%N then esc "b"%char
  else if (n =? 9)%N then esc "t"%char else if (n =? 10)%N then esc "n"%char
  else if (n =? 11)%N then esc "v"%char else if (n =? 12)%N then esc "f"%char
  else if (n =? 13)%N then esc "r"%char
  else if (n <? 32)%N || (n =? 127)%N then
    String backslash (String "x"%char (String (hex_digit (n / 16)) (String (hex_digit (n mod 16)) EmptyString)))
  else String c EmptyString.

Fixpoint quote_body (s : string) : string :=
  match s with EmptyString => EmptyString | String c s' => quote_byte c +:+ quote_body s' end.

Definition Quote (s : string) : string :=
  String quote_char (quote_body s +:+ String quote_char EmptyString).

(** ** [Store] *)
Record Store (W : Type) : Type := mkStore {
  exec : Executor W;
  enq : Executor W;
  pool : option Pool;
  table : string
}.
Arguments exec {W}.
Arguments enq {W}.
Arguments pool {W}.
Arguments table {W}.
Arguments mkStore {W}.

Definition NewStore {W} (ex en : Executor W) (p : option Pool) (schema : string) : Store W :=
  mkStore ex en p (Quote schema +:+ "." +:+ TableName).

Definition Table {W} (s : Store W) : string := s.(table).

(** ** Null conversions *)
Definition nullStr (s : string) : arg := if String.eqb s EmptyString then ANull else AText s.
Definition nullInt (p : option Z) : arg := match p with None => ANull | Some z => AInt z end.
Definition derefStr (p : option string) : string := match p with None => EmptyString | Some s => s end.

(** ** JSON of the headers *)

(** [json.Marshal] of a [map[string]string]: an object of strings. *)
Definition json_Marshal (h : gmap string string) : json :=
  JObj (map (λ kv, (kv.1, JStr kv.2)) (map_to_list h)).

Definition ErrUnmarshal : err := ENew 5 "json: cannot unmarshal value into Go value of type map[string]string".

(** [json.Unmarshal] into a nil [map[string]string]: a JSON null leaves the map
    nil, an object allocates it, a null field is the empty string. *)
Fixpoint json_fields (fields : list (string * json)) : option (gmap string string) :=
  match fields with
  | [] => Some ∅
  | (k, v) :: fields' =>
      m ← json_fields fields';
      match v with
      | JStr s => Some (if decide (is_Some (m !! k)) then m else <[k := s]> m)
      | JNull => Some (if decide (is_Some (m !! k)) then m else <[k := EmptyString]> m)
      | _ => None
      end
  end.

Definition json_Unmarshal (j : json) : option (gmap string string) + err :=
  match j with
  | JNull => inl None
  | JObj fields => match json_fields fields with Some m => inl (Some m) | None => inr ErrUnmarshal end
  | _ => inr ErrUnmarshal
  end.

(** ** Reading rows back *)
Definition scan_row (id : string) (r : Row) (h : option (gmap string string)) : Message := {|
  ID := id; Topic := r.(topic); PartitionKey := derefStr r.(partition_key);
  Payload := Some r.(payload); Headers := h; ContentType := derefStr r.(content_type);
  MessageType := derefStr r.(message_type); MaxAttempts := r.(max_attempts);
  MStatus := r.(status); Attempts := r.(attempts); LeaseToken := derefStr r.(lease_token);
  LockedBy := derefStr r.(locked_by); LockedUntil := r.(locked_until);
  NextAttemptAt := r.(next_attempt_at); LastError := derefStr r.(last_error);
  CreatedAt := r.(created_at); PublishedAt := r.(published_at); FinishedAt := r.(finished_at)
|}.

Fixpoint scan_loop (out : list Message) (rs : list (string * Row)) : list Message * option err :=
  match rs with
  | [] => (out, None)
  | (id, r) :: rs' =>
      match json_Unmarshal r.(headers) with
      | inl h => scan_loop (out ++ [scan_row id r h]) rs'
      | inr e => ([], Some (EWrap "outbox: unmarshal headers: " e))
      end
  end.
Definition scanMessages (rs : list (string * Row)) : list Message * option err := scan_loop [] rs.

(** ** The INSERT text *)
Definition cols : nat := 8.

Definition placeholders (n : nat) : string :=
  let d (k : nat) := pretty (Z.of_nat (n + k)) in
  "(COALESCE($" +:+ d 1%nat +:+ "::uuid, gen_random_uuid()),$" +:+ d 2%nat +:+ ",$" +:+ d 3%nat
    +:+ ",$" +:+ d 4%nat +:+ ",$" +:+ d 5%nat +:+ "::jsonb,$" +:+ d 6%nat +:+ ",$" +:+ d 7%nat
    +:+ ",$" +:+ d 8%nat +:+ ")".

Fixpoint values_text (i : nat) (ms : list Message) : string :=
  match ms with
  | [] => EmptyString
  | _ :: ms' =>
      (if (0 <? i)%nat then "," else EmptyString) +:+ placeholders (i * cols) +:+ values_text (S i) ms'
  end.

Definition enqueue_text (tbl : string) (ms : list Message) : string :=
  "INSERT INTO " +:+ tbl +:+
  " (id, topic, partition_key, payload, headers, content_type, message_type, max_attempts) VALUES "
  +:+ values_text 0 ms +:+ " ON CONFLICT (id) DO NOTHING".

(** The eight arguments of one message, in column order. *)
Definition enqueue_args (m : Message) : list arg :=
  [ nullStr m.(ID); AText m.(Topic); nullStr m.(PartitionKey);
    match m.(Payload) with None => ANull | Some b => ABytes b end;
    AJson (json_Marshal (default ∅ m.(Headers)));
    nullStr m.(ContentType); nullStr m.(MessageType); nullInt m.(MaxAttempts) ].

(** ** Operations *)
Section Operations.
Context {W : Type} (s : Store W).

Definition Enqueue (msgs : list Message) : go W (option err) :=
  match msgs with
  | [] => mret None
  | _ =>
      '(_, e) ← Exec s.(enq) (mkStmt s.(table)
                  (CEnqueue (enqueue_text s.(table) msgs) (flat_map enqueue_args msgs)));
      mret e
  end.

Definition claim (set : Settings) : go W (list Message * option err) :=
  '(rs, e) ← Query s.(exec) (mkStmt s.(table)
               (CClaim set.(Ordered) set.(InstanceID) set.(LeaseDuration) set.(BatchSize)));
  match e with
  | Some _ => mret ([], e)
  | None => mret (scanMessages rs)
  end.

Definition claimKeys (msgs : list Message) : list string * list string :=
  (map ID msgs, map LeaseToken msgs).

Definition renew (msgs : list Message) (d : duration) : go W (option err) :=
  let '(ids, tokens) := claimKeys msgs in
  '(n, e) ← Exec s.(exec) (mkStmt s.(table) (CRenew ids tokens d));
  match e with
  | Some _ => mret e
  | None => if n =? Z.of_nat (length msgs) then mret None else mret (Some ErrLeaseLost)
  end.

Definition finish (msgs : list Message) (st : Status) (reason : string) (delay : duration)
    (clear : bool) : go W (list Message * option err) :=
  match msgs with
  | [] => mret ([], None)
  | _ =>
      let '(ids, tokens) := claimKeys msgs in
      '(rs, e) ← Query s.(exec) (mkStmt s.(table) (CFinish ids tokens st (nullStr reason) delay clear));
      match e with
      | Some _ => mret ([], e)
      | None => mret (scanMessages rs)
      end
  end.

Definition Requeue (id : string) : go W (bool * option err) :=
  '(n, e) ← Exec s.(enq) (mkStmt s.(table) (CRequeue id));
  match e with
  | Some _ => mret (false, e)
  | None => mret (n =? 1, None)
  end.

Definition cleanup (set : Settings) : go W (Z * option err) :=
  '(n, e) ← Exec s.(exec) (mkStmt s.(table)
              (CCleanup set.(Retention) set.(DeadRetention) set.(DiscardRetention) set.(BatchSize)));
  match e with
  | Some _ => mret (0, e)
  | None => mret (n, None)
  end.
End Operations.

(** ** Facts about the conversions *)

(** The column value [nullStr] stores. *)
Definition null_text (s : string) : option string :=
  if String.eqb s EmptyString then None else Some s.

(** What [nullStr] makes of [s] can be stored. *)
Definition storable `{Postgres} (s : string) : bool := String.eqb s EmptyString || text_in s.

Lemma arg_text_nullStr `{Postgres} s :
  arg_text (nullStr s) = if storable s then Some (null_text s) else None.
Proof. unfold nullStr, null_text, storable. by destruct (String.eqb s EmptyString). Qed.

Lemma derefStr_null_text s : derefStr (null_text s) = s.
Proof. unfold null_text. destruct (String.eqb_spec s EmptyString) as [->|]; done. Qed.

(** The eight-argument layout the statement cuts apart again. *)
Lemma tuples_of_enqueue ms : tuples_of (flat_map enqueue_args ms) = map enqueue_args ms.
Proof. induction ms as [|m ms IH]; [done|]. simpl. by rewrite IH. Qed.

(** A batch whose arguments fit one statement. *)
Definition fits_statement (ms : list Message) : Prop := Z.of_nat (length ms) ≤ 8191.

Lemma enqueue_params ms :
  (max_params <? Z.of_nat (length (flat_map enqueue_args ms))) = negb (bool_decide (fits_statement ms)).
Proof.
  assert (length (flat_map enqueue_args ms) = (8 * length ms)%nat) as ->.
  { induction ms as [|m ms IH]; [done|]. simpl in *. lia. }
  unfold fits_statement, max_params. case_bool_decide; cbn [negb]; [apply Z.ltb_ge|apply Z.ltb_lt]; lia.
Qed.

Lemma json_fields_marshal (l : list (string * string)) :
  NoDup l.*1 → json_fields (map (λ kv, (kv.1, JStr kv.2)) l) = Some (list_to_map l).
Proof.
  induction l as [|[k v] l IH]; simpl; [done|]. intros [Hk Hl]%NoDup_cons.
  rewrite IH by done. simpl. rewrite decide_False; [done|].
  rewrite <-not_eq_None_Some. intros Hn. apply Hn, not_elem_of_list_to_map_1, Hk.
Qed.

Lemma json_roundtrip h : json_Unmarshal (json_Marshal h) = inl (Some h).
Proof.
  unfold json_Marshal, json_Unmarshal.
  rewrite json_fields_marshal by apply NoDup_fst_map_to_list. by rewrite list_to_map_to_list.
Qed.

(** Reading rows back succeeds exactly when every header document is readable. *)
Definition readable (r : Row) : Prop := ∃ h, json_Unmarshal (headers r) = inl h.

Definition scanned (ir : string * Row) : Message :=
  scan_row ir.1 ir.2 (match json_Unmarshal (headers ir.2) with inl h => h | inr _ => None end).

Lemma scan_loop_ok out rs :
  Forall (λ ir, readable ir.2) rs → scan_loop out rs = ((out ++ map scanned rs)%list, None).
Proof.
  revert out. induction rs as [|[id r] rs IH]; intros out Hall; simpl.
  - by rewrite app_nil_r.
  - apply Forall_cons in Hall as [[h Hh] Hall]. simpl in Hh. rewrite Hh, IH by done.
    unfold scanned at 2. simpl. rewrite Hh. by rewrite <-app_assoc.
Qed.

Lemma scanMessages_ok rs :
  Forall (λ ir, readable ir.2) rs → scanMessages rs = (map scanned rs, None).
Proof. intros. unfold scanMessages. by rewrite scan_loop_ok. Qed.

Lemma scan_loop_cases out rs :
  (scan_loop out rs = ((out ++ map scanned rs)%list, None) ∧ Forall (λ ir, readable ir.2) rs) ∨
  (∃ e, scan_loop out rs = ([], Some (EWrap "outbox: unmarshal headers: " e))).
Proof.
  revert out. induction rs as [|[id r] rs IH]; intros out; simpl.
  - left. by rewrite app_nil_r.
  - destruct (json_Unmarshal (headers r)) as [h|e] eqn:Hh; [|by right; eauto].
    destruct (IH (out ++ [scan_row id r h])%list) as [[E F]|[e E]]; rewrite E; [left|by right; eauto].
    split; [|constructor; [by exists h|done]].
    unfold scanned at 2. simpl. rewrite Hh. by rewrite <-app_assoc.
Qed.

(** ** Facts about the quoted schema *)

(** An identifier character stands for itself in [%q] and ends no quotes. *)
Lemma ident_plain c :
  ident_cont c = true → quote_byte c = String c EmptyString ∧ Ascii.eqb c quote_char = false.
Proof.
  intros Hc.
  enough (implb (ident_cont c)
            (String.eqb (quote_byte c) (String c EmptyString) && negb (Ascii.eqb c quote_char)) = true) as Hp.
  { rewrite Hc in Hp. simpl in Hp.
    apply andb_true_iff in Hp as [->%String.eqb_eq Hq]. by apply negb_true_iff in Hq. }
  clear Hc. by destruct c as [[] [] [] [] [] [] [] []]; vm_compute.
Qed.

Lemma quote_body_plain s : string_all ident_cont s = true → quote_body s = s.
Proof.
  induction s as [|c s IH]; simpl; [done|]. intros [Hc Hs]%andb_true_iff.
  by rewrite (proj1 (ident_plain c Hc)), IH.
Qed.

Lemma ValidSchema_plain s : ValidSchema s = true → string_all ident_cont s = true.
Proof.
  destruct s as [|c s]; simpl; [done|]. intros [Hc Hs]%andb_true_iff. rewrite Hs.
  unfold ident_cont. by rewrite Hc.
Qed.
