(* ===== verification/System.v ===== *)
(** * The shared table as a transition system

    Any number of relays, cleaners and enqueuing transactions send statements
    to one table.  A step of the system is one statement; its effect on each
    row is the relation [row_step], and the safety theorems of the outbox are
    proved once, by cases on it, for every interleaving. *)

From S2P Require Import Prelude Outcome Message Backoff Config Postgres Store.

Open Scope string_scope.
Open Scope Z_scope.

(** ** The statements this library sends

    [set] ranges over the settings of the different processes. *)
Inductive issued : Cmd → Prop :=
| issued_enqueue tbl ms : issued (CEnqueue (enqueue_text tbl ms) (flat_map enqueue_args ms))
| issued_claim set : issued (CClaim (Ordered set) (InstanceID set) (LeaseDuration set) (BatchSize set))
| issued_renew ms d : issued (CRenew (map ID ms) (map LeaseToken ms) d)
| issued_finish ms st reason delay clear :
    st ≠ StatusProcessing →
    issued (CFinish (map ID ms) (map LeaseToken ms) st (nullStr reason) delay clear)
| issued_requeue id : issued (CRequeue id)
| issued_cleanup set :
    issued (CCleanup (Retention set) (DeadRetention set) (DiscardRetention set) (BatchSize set)).
#[export] Hint Constructors issued : outbox.

Section System.
Context `{Postgres}.

(** ** Effect of a statement on the row of one id *)

(** The row that enqueuing [m] creates. *)
Definition enqueued_row (now : time) (m : Message) (k : Z) : Row :=
  mkRow (Topic m) (null_text (PartitionKey m)) (default [] (Payload m))
    (json_Marshal (default ∅ (Headers m))) (null_text (ContentType m)) (null_text (MessageType m))
    StatusPending 0 (MaxAttempts m) None None now None now None None None k.

(** The id column of message [m], tuple [i]: generated when it names none. *)
Definition id_of (e : StmtEnv) (i : nat) (m : Message) (id : string) : Prop :=
  if String.eqb (ID m) EmptyString then id = e_id e i else uuid_in (ID m) = Some id.

Definition int4_max_ok (m : Message) : Prop :=
  match MaxAttempts m with None => True | Some z => int4_ok z = true end.

Inductive row_step (e : StmtEnv) (db : Db) (id : string) : Cmd → option Row → option Row → Prop :=
| rs_same c o : row_step e db id c o o
| rs_insert sql ms m i k :
    m ∈ ms → is_Some (Payload m) → int4_max_ok m → id_of e i m id →
    rows db !! id = None → next_seq db ≤ k →
    row_step e db id (CEnqueue sql (flat_map enqueue_args ms)) None
      (Some (enqueued_row (e_now e) m k))
| rs_claim ordered inst lease limit r :
    rows db !! id = Some r → id ∈ claim_select e ordered limit (rows db) →
    int4_ok (attempts r + 1) = true →
    row_step e db id (CClaim ordered inst lease limit) (Some r) (Some (claim_row e inst lease id r))
| rs_renew ids tokens lease keys r :
    cast_keys ids tokens = Some keys → live_claim (e_clk e) keys id r = true →
    row_step e db id (CRenew ids tokens lease) (Some r) (Some (renew_row e lease r))
| rs_finish ids tokens st reason why delay clear keys r :
    cast_keys ids tokens = Some keys → arg_text reason = Some why →
    live_claim (e_clk e) keys id r = true →
    row_step e db id (CFinish ids tokens st reason delay clear) (Some r)
      (Some (finish_row e st why delay clear r))
| rs_requeue s r :
    uuid_in s = Some id → status r = StatusDead →
    row_step e db id (CRequeue s) (Some r) (Some (requeue_row e r))
| rs_cleanup ret dead disc limit r :
    removable (e_now e) ret dead disc r = true →
    row_step e db id (CCleanup ret dead disc limit) (Some r) None.

Lemma lookup_run_update db p f id :
  rows (d_db (run_update db p f)) !! id = (λ r, if p id r then f id r else r) <$> rows db !! id.
Proof. apply lookup_update_rows. Qed.

(** One tuple of an INSERT: a fresh id gets the new row, a known id nothing. *)
Lemma insert_tuple_inv e i m db db' :
  insert_tuple e i (enqueue_args m) db = inl db' →
  ∃ id, id_of e i m id ∧ is_Some (Payload m) ∧ int4_max_ok m ∧
    table_name db' = table_name db ∧ next_seq db' = next_seq db + 1 ∧
    ((is_Some (rows db !! id) ∧ rows db' = rows db) ∨
     (rows db !! id = None ∧
      rows db' = <[id := enqueued_row (e_now e) m (next_seq db)]> (rows db))).
Proof.
  unfold insert_tuple, enqueue_args, id_of, int4_max_ok. rewrite !arg_text_nullStr.
  destruct (Payload m) as [pl|] eqn:Hpl; [|done].
  destruct (negb _); [done|]. destruct (storable (PartitionKey m)), (storable (ContentType m)),
    (storable (MessageType m)); try by destruct (match nullStr (ID m) with ANull => _ | _ => _ end).
  assert (match nullStr (ID m) with ANull => Some (e_id e i) | AText s => uuid_in s | _ => None end =
          if String.eqb (ID m) EmptyString then Some (e_id e i) else uuid_in (ID m)) as ->.
  { unfold nullStr. by destruct (String.eqb (ID m) EmptyString). }
  destruct (if String.eqb (ID m) EmptyString then _ else _) as [id|] eqn:Hid; [|done].
  destruct (match nullInt (MaxAttempts m) with ANull => _ | _ => _ end) as [ma|] eqn:Hma; [|done].
  assert (ma = MaxAttempts m ∧ match MaxAttempts m with None => True | Some z => int4_ok z = true end)
    as [-> Hok].
  { destruct (MaxAttempts m); simpl in Hma; [destruct (int4_ok _) eqn:?|]; by simplify_eq. }
  intros [= <-]. exists id. simpl. split_and!; try done.
  - destruct (String.eqb (ID m) EmptyString); by simplify_eq.
  - destruct (rows db !! id) eqn:Hr; [by left; eauto|right].
    split; [done|]. unfold enqueued_row, insert_row. by rewrite Hpl.
Qed.

Lemma insert_tuples_inv e i ms db db' :
  insert_tuples e i (map enqueue_args ms) db = inl db' →
  table_name db' = table_name db ∧ next_seq db' = next_seq db + Z.of_nat (length ms) ∧
  ∀ id, rows db' !! id = rows db !! id ∨
    (rows db !! id = None ∧ ∃ j m k, m ∈ ms ∧ is_Some (Payload m) ∧ int4_max_ok m ∧ id_of e j m id ∧
     next_seq db ≤ k < next_seq db' ∧ rows db' !! id = Some (enqueued_row (e_now e) m k)).
Proof.
  revert i db. induction ms as [|m ms IH]; intros i db.
  - simpl. intros [= <-]. split_and!; [done|lia|auto].
  - cbn [map insert_tuples]. destruct (insert_tuple _ _ _ _) as [db1|] eqn:E1; [|done]. intros E2.
    destruct (insert_tuple_inv _ _ _ _ _ E1) as (i0 & Hi & Hpl & Hmx & Htn & Hsq & Hrows).
    destruct (IH _ _ E2) as (Htn' & Hsq' & Hall). cbn [length].
    split_and!; [congruence|lia|]. intros id. destruct (Hall id) as [Heq|(Hn & j & m' & k & ? & ? & ? & ? & ? & ?)].
    + rewrite Heq. destruct Hrows as [[? ->]|[Hn ->]]; [by left|].
      destruct (decide (i0 = id)) as [->|]; [|left; by rewrite lookup_insert_ne].
      right. split; [done|]. exists i, m, (next_seq db). rewrite lookup_insert_eq.
      split_and!; try done; [by left|lia..].
    + right. split.
      * destruct Hrows as [[? <-]|[? Heq]]; [done|].
        destruct (rows db !! id) eqn:Hd; [|done]. rewrite Heq in Hn.
        rewrite lookup_insert_ne in Hn; [congruence|]. intros ->. congruence.
      * exists j, m', k. split_and!; try done; [by right|lia..].
Qed.

(** Every effect of a statement this library sends is one of [row_step]. *)
Lemma exec_row_step e s db d id :
  issued (st_cmd s) → exec_stmt e s db = SqlOk d →
  row_step e db id (st_cmd s) (rows db !! id) (rows (d_db d) !! id).
Proof.
  intros Hiss. unfold exec_stmt. destruct (String.eqb _ _); [|done].
  destruct Hiss as [tbl ms|set|ms du|ms st reason delay clear Hst|s0|set].
  - unfold exec_enqueue. destruct (_ <? _); [done|]. rewrite tuples_of_enqueue.
    destruct (insert_tuples _ _ _ _) as [db'|] eqn:E; [|done]. intros [= <-]; simpl.
    destruct (insert_tuples_inv _ _ _ _ _ E) as (_ & _ & Hall).
    destruct (Hall id) as [->|(Hn & j & m & k & ? & ? & ? & ? & ? & ->)]; [constructor|].
    rewrite Hn. econstructor; try done. lia.
  - unfold exec_claim. destruct (_ <? 0); [done|]. destruct (negb _); [done|].
    destruct (forallb _ _) eqn:Hint; [|done].
    intros [= <-]. rewrite lookup_run_update. destruct (rows db !! id) as [r|] eqn:Hr; simpl; [|constructor].
    case_bool_decide as Hsel; [|constructor]. constructor; [done..|].
    rewrite forallb_forall in Hint. apply (Hint (id, r)), list_elem_of_In, elem_of_matched.
    split; [done|]. by apply bool_decide_eq_true.
  - unfold exec_renew. destruct (cast_keys _ _) as [keys|] eqn:Hk; [|done].
    intros [= <-]. rewrite lookup_run_update. destruct (rows db !! id) as [r|] eqn:Hr; simpl; [|constructor].
    destruct (live_claim _ _ _ _) eqn:?; [|constructor]. by econstructor.
  - unfold exec_finish. destruct (cast_keys _ _) as [keys|] eqn:Hk; [|done].
    destruct (arg_text _) as [why|] eqn:Hw; [|done].
    intros [= <-]. rewrite lookup_run_update. destruct (rows db !! id) as [r|] eqn:Hr; simpl; [|constructor].
    destruct (live_claim _ _ _ _) eqn:?; [|constructor]. by econstructor.
  - unfold exec_requeue. destruct (uuid_in s0) as [i|] eqn:Hi; [|done]. intros [= <-]; simpl.
    rewrite lookup_update_rows. destruct (rows db !! id) as [r|] eqn:Hr; simpl; [|constructor].
    destruct (String.eqb_spec id i) as [->|]; simpl; [|constructor].
    case_bool_decide; [|constructor]. by constructor.
  - unfold exec_cleanup. destruct (_ <? 0); [done|]. intros [= <-]; simpl.
    rewrite map_lookup_filter. destruct (rows db !! id) as [r|] eqn:Hr; simpl; [|constructor].
    case_guard as Hin; [constructor|]. constructor.
    apply elem_of_cleanup_select in Hin as [_ (r' & ? & ?)]. by simplify_eq.
Qed.

(** ** Well-formed tables *)

Definition unlocked (r : Row) : Prop :=
  locked_by r = None ∧ locked_until r = None ∧ lease_token r = None.

(** The columns that belong to each state. *)
Definition state_columns (r : Row) : Prop :=
  match status r with
  | StatusPending => unlocked r ∧ published_at r = None ∧ finished_at r = None
  | StatusProcessing =>
      (is_Some (locked_by r) ∧ is_Some (locked_until r) ∧ is_Some (lease_token r)) ∧
      published_at r = None ∧ finished_at r = None ∧ 1 ≤ attempts r
  | StatusPublished => unlocked r ∧ is_Some (finished_at r) ∧ published_at r = finished_at r
  | StatusDead | StatusDiscarded => unlocked r ∧ is_Some (finished_at r) ∧ published_at r = None
  end.

Record wf_row (id : string) (r : Row) : Prop := {
  wf_id : uuid_in id = Some id;
  wf_token : ∀ t, lease_token r = Some t → uuid_in t = Some t;
  wf_attempts : 0 ≤ attempts r ≤ int4_max;
  wf_headers : readable r;
  wf_state : state_columns r
}.

Record wf_db (db : Db) : Prop := {
  wf_rows : ∀ id r, rows db !! id = Some r → wf_row id r;
  wf_seq_lt : ∀ id r, rows db !! id = Some r → seq r < next_seq db;
  wf_seq_inj : ∀ i j r r', rows db !! i = Some r → rows db !! j = Some r' → seq r = seq r' → i = j
}.

(** What the server promises about its clocks and uuids. *)
Record env_ok (e : StmtEnv) : Prop := {
  env_clock : e_now e ≤ e_clk e;
  env_ids : ∀ i, uuid_in (e_id e i) = Some (e_id e i);
  env_tokens : ∀ id, uuid_in (e_token e id) = Some (e_token e id)
}.

Lemma id_of_canonical e i m id : env_ok e → id_of e i m id → uuid_in id = Some id.
Proof.
  intros [_ Hids _]. unfold id_of. destruct (String.eqb _ _).
  - intros ->. apply Hids.
  - apply uuid_in_canonical.
Qed.

Lemma enqueued_row_wf e i m id k :
  env_ok e → id_of e i m id → wf_row id (enqueued_row (e_now e) m k).
Proof.
  intros He Hid. split; simpl; try done.
  - by eapply id_of_canonical.
  - eexists. simpl. apply json_roundtrip.
Qed.

(** The columns no statement changes, and those only a scrub does. *)
Record same_origin (r r' : Row) : Prop := {
  so_topic : topic r' = topic r;
  so_key : partition_key r' = partition_key r;
  so_ctype : content_type r' = content_type r;
  so_mtype : message_type r' = message_type r;
  so_max : max_attempts r' = max_attempts r;
  so_created : created_at r' = created_at r;
  so_seq : seq r' = seq r
}.

Lemma row_step_origin e db id c r r' :
  row_step e db id c (Some r) (Some r') → same_origin r r'.
Proof. inversion 1; subst; by split. Qed.

Lemma row_step_wf e db id c o r' :
  env_ok e → issued c → (∀ r, o = Some r → wf_row id r) →
  row_step e db id c o (Some r') → wf_row id r'.
Proof.
  intros He Hiss Ho Hs. inversion Hs; subst; eauto using enqueued_row_wf.
  - destruct (Ho _ eq_refl) as [? ? [? ?] ? Hst].
    match goal with H : _ ∈ claim_select _ _ _ _ |- _ =>
      apply elem_of_claim_select in H as (_ & r1 & ? & (_ & Hcl & _)%claimable_spec) end.
    simplify_eq. split; simpl; try done.
    + intros t [= <-]. apply (env_tokens e He).
    + unfold int4_ok, int4_max, int4_min in *. lia.
    + assert (published_at r = None ∧ finished_at r = None) as [? ?].
      { unfold state_columns in Hst. destruct Hcl as [Hcl|[Hcl _]]; rewrite Hcl in Hst; naive_solver. }
      unfold state_columns; simpl. split_and!; eauto. lia.
  - destruct (Ho _ eq_refl) as [? ? ? ? Hst]. split; simpl; try done.
    match goal with H : live_claim _ _ _ _ = true |- _ =>
      apply live_claim_spec in H as (_ & Hp & _) end.
    unfold state_columns in *; simpl. rewrite Hp in *.
    destruct Hst as ((? & ? & ?) & ? & ? & ?). eauto 8.
  - destruct (Ho _ eq_refl) as [? ? ? Hrd Hst]. split; simpl; try done.
    + unfold readable; simpl. destruct (scrubs _ _); [|done]. by exists (Some ∅).
    + inversion Hiss; subst. unfold state_columns, unlocked; simpl.
      destruct st; simpl; split_and!; eauto; done.
  - destruct (Ho _ eq_refl) as [? ? ? ? Hst]. split; simpl; done.
Qed.

(** ** The sequence behind [seq] *)

Lemma exec_stmt_frame e s db d :
  issued (st_cmd s) → exec_stmt e s db = SqlOk d →
  table_name (d_db d) = table_name db ∧ next_seq db ≤ next_seq (d_db d).
Proof.
  intros Hiss. unfold exec_stmt. destruct (String.eqb _ _); [|done].
  destruct Hiss; unfold exec_enqueue, exec_claim, exec_renew, exec_finish, exec_requeue, exec_cleanup.
  - destruct (_ <? _); [done|]. rewrite tuples_of_enqueue. destruct (insert_tuples _ _ _ _) as [db'|] eqn:E; [|done].
    intros [= <-]; simpl. destruct (insert_tuples_inv _ _ _ _ _ E) as (? & ? & _). split; [done|lia].
  - destruct (_ <? 0); [done|]. destruct (negb _); [done|]. destruct (forallb _ _); [|done].
    intros [= <-]; simpl. split; [done|lia].
  - destruct (cast_keys _ _); [|done]. intros [= <-]; simpl. split; [done|lia].
  - destruct (cast_keys _ _); [|done]. destruct (arg_text _); [|done]. intros [= <-]; simpl. split; [done|lia].
  - destruct (uuid_in _); [|done]. intros [= <-]; simpl. split; [done|lia].
  - destruct (_ <? 0); [done|]. intros [= <-]; simpl. split; [done|lia].
Qed.

Lemma insert_tuple_wf e i m db db' :
  env_ok e → wf_db db → insert_tuple e i (enqueue_args m) db = inl db' → wf_db db'.
Proof.
  intros He [Hr Hl Hi] (id & Hid & Hpl & Hmx & _ & Hsq & [[_ Heq]|[Hn Heq]])%insert_tuple_inv;
    split; rewrite ?Heq, ?Hsq; intros *.
  - apply Hr.
  - intros ?%Hl. lia.
  - apply Hi.
  - rewrite lookup_insert_Some. intros [[<- <-]|[_ ?]]; [by eapply enqueued_row_wf|auto].
  - rewrite lookup_insert_Some. intros [[<- <-]|[_ ?%Hl]]; simpl; lia.
  - rewrite !lookup_insert_Some. intros [[<- <-]|[_ H1]] [[<- <-]|[_ H2]] Hs; simpl in *; try done.
    + apply Hl in H2. lia.
    + apply Hl in H1. lia.
    + by eapply Hi.
Qed.

Lemma insert_tuples_wf e i ms db db' :
  env_ok e → wf_db db → insert_tuples e i (map enqueue_args ms) db = inl db' → wf_db db'.
Proof.
  intros He. revert i db. induction ms as [|m ms IH]; intros i db Hwf; cbn [map insert_tuples].
  - by intros [= <-].
  - destruct (insert_tuple _ _ _ _) as [db1|] eqn:E1; [|done].
    apply IH. by eapply insert_tuple_wf.
Qed.

(** A statement that is not an INSERT only shrinks the table. *)
Lemma exec_stmt_shrinks e s db d id r' :
  issued (st_cmd s) → (∀ sql args, st_cmd s ≠ CEnqueue sql args) →
  exec_stmt e s db = SqlOk d → rows (d_db d) !! id = Some r' →
  ∃ r, rows db !! id = Some r ∧ same_origin r r'.
Proof.
  intros Hiss Hne Hex Hr'. pose proof (exec_row_step e s db d id Hiss Hex) as Hs.
  rewrite Hr' in Hs. destruct (rows db !! id) as [r|] eqn:Hr.
  - exists r. split; [done|by eapply row_step_origin].
  - inversion Hs; subst. by edestruct Hne.
Qed.

Lemma stmt_keeps_wf e s db d :
  env_ok e → issued (st_cmd s) → wf_db db → exec_stmt e s db = SqlOk d → wf_db (d_db d).
Proof.
  intros He Hiss Hwf Hex. destruct (st_cmd s) eqn:Hc.
  1: { inversion Hiss; subst. revert Hex. unfold exec_stmt, exec_enqueue. rewrite Hc.
       destruct (String.eqb _ _); [|done]. destruct (_ <? _); [done|]. rewrite tuples_of_enqueue.
       destruct (insert_tuples _ _ _ _) as [db'|] eqn:E; [|done]. intros [= <-].
       destruct (insert_tuples_wf _ _ _ _ _ He Hwf E) as [? ? ?]. by split. }
  all: rewrite <-Hc in Hiss; assert (∀ sql args, st_cmd s ≠ CEnqueue sql args) as Hne by congruence;
    pose proof (exec_stmt_frame _ _ _ _ Hiss Hex) as [_ Hseq]; destruct Hwf as [Hr Hl Hi]; split.
  all: try (intros k r' Hr'; pose proof (exec_row_step e s db d k Hiss Hex) as Hst;
            rewrite Hr' in Hst; eapply row_step_wf; [exact He|exact Hiss| |exact Hst]; apply Hr).
  all: try (intros k r' Hr'; destruct (exec_stmt_shrinks _ _ _ _ _ _ Hiss Hne Hex Hr') as (r & Hlk & []);
            apply Hl in Hlk; lia).
  all: intros i j r r' H1 H2 Heq;
    destruct (exec_stmt_shrinks _ _ _ _ _ _ Hiss Hne Hex H1) as (? & ? & []);
    destruct (exec_stmt_shrinks _ _ _ _ _ _ Hiss Hne Hex H2) as (? & ? & []);
    eapply Hi; [done|done|congruence].
Qed.
(** Every statement the library sends keeps the table well formed: the
    columns of each row match its state, ids and tokens are canonical uuids,
    headers decode, attempt counts fit the int4 column, and [seq] is unique. *)
Theorem exec_stmt_wf e s db :
  env_ok e → issued (st_cmd s) → wf_db db → wf_db (after_stmt e s db).
Proof.
  intros. unfold after_stmt. destruct (exec_stmt e s db) eqn:E; [|done]. by eapply stmt_keeps_wf.
Qed.
End System.
