(* ===== verification/Safety.v ===== *)
(** * Safety of the shared table

    What the statements of [engine/store.go] guarantee to each other, for every
    interleaving of relays, cleaners and enqueuing transactions: the row
    lifecycle, lease fencing and exclusivity, per-key ordering, and that no row
    is lost. *)

From stdpp Require Import relations.
From S2P Require Import Prelude Outcome Message Backoff Config Postgres Store System.

Open Scope string_scope.
Open Scope Z_scope.

(** ** The lifecycle of a row *)

(** The state changes a single statement may make. *)
Definition next_status (s s' : Status) : bool :=
  match s, s' with
  | StatusPending, (StatusPending | StatusProcessing) => true
  | StatusProcessing, _ => true
  | StatusPublished, StatusPublished => true
  | StatusDiscarded, StatusDiscarded => true
  | StatusDead, (StatusDead | StatusPending) => true
  | _, _ => false
  end.

Section Safety.
Context `{Postgres}.

Lemma claim_row_status e ordered limit t id r :
  t !! id = Some r → id ∈ claim_select e ordered limit t →
  status r = StatusPending ∨
  status r = StatusProcessing ∧ ∃ u, locked_until r = Some u ∧ u < e_now e.
Proof.
  intros Hr [_ (r' & ? & (_ & Hs & _)%claimable_spec)]%elem_of_claim_select.
  simplify_eq. naive_solver.
Qed.

(** Inverts a row's effect, reading the guard of the statement. *)
Ltac row_cases H :=
  inversion H; subst; simplify_eq/=;
  repeat match goal with
  | X : live_claim _ _ _ _ = true |- _ => apply live_claim_spec in X as (? & ? & ?)
  | X : _ ∈ claim_select _ _ _ _ |- _ => eapply claim_row_status in X; [|eassumption]
  end.

(** C19. One statement moves a row only along the lifecycle, never touches its
    topic, key, types, attempt limit, creation time or sequence number, leaves
    payload and headers alone unless a completion scrubs them on its way to
    published or discarded, and counts attempts: up by one at a claim, back to
    zero at a requeue of a dead row. *)
Theorem row_lifecycle e s db d id r r' :
  issued (st_cmd s) → exec_stmt e s db = SqlOk d →
  rows db !! id = Some r → rows (d_db d) !! id = Some r' →
  next_status (status r) (status r') = true ∧ same_origin r r' ∧
  ((payload r' = payload r ∧ headers r' = headers r) ∨
   (payload r' = [] ∧ headers r' = JObj [] ∧ settled r' = true)) ∧
  (attempts r' = attempts r ∨
   (attempts r' = attempts r + 1 ∧ status r' = StatusProcessing) ∨
   (attempts r' = 0 ∧ status r = StatusDead ∧ status r' = StatusPending)).
Proof.
  intros Hiss Hex Hr Hr'. pose proof (exec_row_step e s db d id Hiss Hex) as Hs.
  rewrite Hr, Hr' in Hs. pose proof (row_step_origin _ _ _ _ _ _ Hs) as Ho.
  split_and!; [|done| |].
  - row_cases Hs; destruct_or?; destruct_and?;
      repeat match goal with X : status _ = _ |- _ => rewrite X end; try done.
    by destruct (status r').
  - row_cases Hs; auto. destruct (scrubs clear st) eqn:Hsc; [right|by left].
    unfold scrubs, settled in *; simpl. destruct clear; [done|done].
  - row_cases Hs; auto.
Qed.

(** No message is lost: the only statement that removes a row is a cleanup,
    and only a published, dead or discarded row whose own retention is switched
    on and has run out at the statement's [now()]. *)
Theorem row_removed_only_expired e s db d id r :
  issued (st_cmd s) → exec_stmt e s db = SqlOk d →
  rows db !! id = Some r → rows (d_db d) !! id = None →
  ∃ ret dead disc limit ts keep,
    st_cmd s = CCleanup ret dead disc limit ∧ 0 < keep ∧ ts < e_now e - interval_us keep ∧
    ((status r = StatusPublished ∧ keep = ret ∧ published_at r = Some ts) ∨
     (status r = StatusDead ∧ keep = dead ∧ finished_at r = Some ts) ∨
     (status r = StatusDiscarded ∧ keep = disc ∧ finished_at r = Some ts)).
Proof.
  intros Hiss Hex Hr Hr'. pose proof (exec_row_step e s db d id Hiss Hex) as Hs.
  rewrite Hr, Hr' in Hs. inversion Hs as [| | | | | |ret dead disc limit r0 Hrm]; subst.
  assert (∀ keep ts, expired (e_now e) keep ts = true →
    0 < keep ∧ ∃ x, ts = Some x ∧ x < e_now e - interval_us keep) as Hexp.
  { intros keep [x|]; unfold expired; simpl; rewrite andb_true_iff, Z.ltb_lt; [|naive_solver].
    rewrite Z.ltb_lt. naive_solver. }
  exists ret, dead, disc, limit. unfold removable in Hrm.
  destruct (status r) eqn:Hst; try done;
    apply Hexp in Hrm as (? & x & ? & ?); eexists x, _; split_and!; eauto.
Qed.

(** ** Leases *)

(** The keys a renewal or a completion presents. *)
Definition presents (c : Cmd) (id t : string) : Prop :=
  match c with
  | CRenew ids tokens _ | CFinish ids tokens _ _ _ _ =>
      ∃ keys, cast_keys ids tokens = Some keys ∧ (id, t) ∈ keys
  | _ => False
  end.

(** Exclusive leases: while the lease of a claim has not run out at the
    statement's clock, no statement of any process changes or removes the row,
    except a renewal or a completion that presents the claim's own token. *)
Theorem live_lease_exclusive e s db d id r t u :
  env_ok e → issued (st_cmd s) → exec_stmt e s db = SqlOk d →
  rows db !! id = Some r → status r = StatusProcessing →
  lease_token r = Some t → locked_until r = Some u → e_clk e < u →
  rows (d_db d) !! id = Some r ∨ presents (st_cmd s) id t.
Proof.
  intros [Hclk _ _] Hiss Hex Hr Hst Ht Hu Hlive.
  pose proof (exec_row_step e s db d id Hiss Hex) as Hs. rewrite Hr in Hs.
  inversion Hs as [|?|? ? ? ? ? ? Hsel|? ? ? ? ? ? Hlc|? ? ? ? ? ? ? ? ? ? ? Hlc|? ? ? Hdead|? ? ? ? ? Hrm];
    subst; simplify_eq; auto.
  - eapply claim_row_status in Hsel; [|done].
    destruct Hsel as [?|[? (u' & ? & ?)]]; [congruence|]. simplify_eq. lia.
  - apply live_claim_spec in Hlc as ((t' & ? & ?) & _). simplify_eq. right; simpl; eauto.
  - apply live_claim_spec in Hlc as ((t' & ? & ?) & _). simplify_eq. right; simpl; eauto.
  - congruence.
  - unfold removable in Hrm. by rewrite Hst in Hrm.
Qed.

Lemma stale_keys_frame e s db d id r :
  issued (st_cmd s) → exec_stmt e s db = SqlOk d → rows db !! id = Some r →
  (∃ ids tokens lease, st_cmd s = CRenew ids tokens lease) ∨
  (∃ ids tokens st reason delay clear, st_cmd s = CFinish ids tokens st reason delay clear) →
  (∀ t u, presents (st_cmd s) id t → status r = StatusProcessing → lease_token r = Some t →
          locked_until r = Some u → u ≤ e_clk e) →
  rows (d_db d) !! id = Some r.
Proof.
  intros Hiss Hex Hr Hkind Hstale. pose proof (exec_row_step e s db d id Hiss Hex) as Hs.
  rewrite Hr in Hs.
  inversion Hs as [|?|? ? ? ? ? ? Hsel|? ? ? ? ? Hk Hlc|? ? ? ? ? ? ? ? ? Hk Hw Hlc|? ? ? Hdead|? ? ? ? ? Hrm];
    subst; simplify_eq; auto; try (destruct Hkind as [(? & ? & ? & ?)|(? & ? & ? & ? & ? & ? & ?)]; congruence).
  - apply live_claim_spec in Hlc as ((t & ? & ?) & ? & u & ? & ?).
    enough (u ≤ e_clk e) by lia. eapply (Hstale t); try done.
    match goal with X : CRenew _ _ _ = _ |- _ => rewrite <-X end. simpl; eauto.
  - apply live_claim_spec in Hlc as ((t & ? & ?) & ? & u & ? & ?).
    enough (u ≤ e_clk e) by lia. eapply (Hstale t); try done.
    match goal with X : CFinish _ _ _ _ _ _ = _ |- _ => rewrite <-X end. simpl; eauto.
Qed.

(** Fencing: a renewal or completion leaves a row alone unless the row is
    processing, still carries a token presented for it, and its lease has not
    run out; an expired lease is never extended or completed. *)
Theorem stale_keys_change_nothing e s db d id r :
  issued (st_cmd s) → exec_stmt e s db = SqlOk d → rows db !! id = Some r →
  (∃ ids tokens lease, st_cmd s = CRenew ids tokens lease) ∨
  (∃ ids tokens st reason delay clear, st_cmd s = CFinish ids tokens st reason delay clear) →
  (∀ t u, presents (st_cmd s) id t → status r = StatusProcessing → lease_token r = Some t →
          locked_until r = Some u → u ≤ e_clk e) →
  rows (d_db d) !! id = Some r.
Proof. apply stale_keys_frame. Qed.

(** ** Executions *)

(** The table, the server clock at its last effect, and every lease token ever
    drawn. *)
Record Sys : Type := mkSys { s_db : Db; s_clock : time; s_used : gset string }.

Definition table_tokens (t : gmap string Row) : gset string :=
  list_to_set (omap (λ ir, lease_token ir.2) (map_to_list t)).

(** One statement: it may fail and change nothing; its effect happens at a
    clock that does not run backwards, with tokens never drawn before. *)
Inductive sys_step (s s' : Sys) : Prop :=
| sys_stmt e st :
    env_ok e → s_clock s ≤ e_clk e → (∀ id, e_token e id ∉ s_used s) → issued (st_cmd st) →
    s' = mkSys (after_stmt e st (s_db s)) (e_clk e)
           (s_used s ∪ table_tokens (rows (after_stmt e st (s_db s)))) →
    sys_step s s'.

Lemma after_stmt_row_step e st db id :
  issued (st_cmd st) →
  row_step e db id (st_cmd st) (rows db !! id) (rows (after_stmt e st db) !! id).
Proof.
  intros Hiss. unfold after_stmt. destruct (exec_stmt e st db) as [d|] eqn:E.
  - by apply exec_row_step.
  - constructor.
Qed.

(** Every table reachable by any interleaving of the library's statements
    from a well-formed one is well formed. *)
Lemma reachable_keeps_wf s s' : rtc sys_step s s' → wf_db (s_db s) → wf_db (s_db s').
Proof.
  induction 1 as [|s1 s2 s3 [e st He _ _ Hiss ->] _ IH]; [done|]. intros Hwf.
  apply IH; simpl. unfold after_stmt. destruct (exec_stmt e st (s_db s1)) eqn:E; [|done].
  by eapply stmt_keeps_wf.
Qed.

(** ** The life of one message

    [seq] identifies a message: an id can be enqueued again once its row was
    deleted, but never with the same sequence number. *)

Lemma sys_step_seq s s' id r' :
  sys_step s s' → rows (s_db s') !! id = Some r' → seq r' < next_seq (s_db s) →
  ∃ r, rows (s_db s) !! id = Some r ∧ seq r = seq r' ∧ next_seq (s_db s) ≤ next_seq (s_db s').
Proof.
  intros [e st _ _ _ Hiss ->] Hr' Hlt. simpl in *.
  pose proof (after_stmt_row_step e st (s_db s) id Hiss) as Hs. rewrite Hr' in Hs.
  assert (next_seq (s_db s) ≤ next_seq (after_stmt e st (s_db s))).
  { unfold after_stmt. destruct (exec_stmt e st (s_db s)) eqn:E; [|lia].
    by eapply exec_stmt_frame in E as [_ ?]. }
  destruct (rows (s_db s) !! id) as [r|].
  - exists r. split_and!; [done| |done]. by apply row_step_origin in Hs as [].
  - inversion Hs; subst; simpl in *. lia.
Qed.

Lemma run_seq s s' id r' :
  rtc sys_step s s' → rows (s_db s') !! id = Some r' → seq r' < next_seq (s_db s) →
  ∃ r, rows (s_db s) !! id = Some r ∧ seq r = seq r'.
Proof.
  intros Hrun. revert r'. induction Hrun as [s|s1 s2 s3 H12 H23 IH]; intros r' Hr' Hlt; [eauto|].
  assert (next_seq (s_db s1) ≤ next_seq (s_db s2)) as Hle.
  { destruct H12 as [e st _ _ _ Hiss ->]. simpl. unfold after_stmt.
    destruct (exec_stmt e st (s_db s1)) eqn:E; [|lia]. by eapply exec_stmt_frame in E as [_ ?]. }
  destruct (IH r' Hr') as (r2 & Hr2 & Hs2); [lia|].
  destruct (sys_step_seq _ _ _ _ H12 Hr2) as (r1 & ? & ? & _); [lia|]. exists r1. split; [done|congruence].
Qed.

(** What a row keeps through any history: identity always, data until it is
    published or discarded, and everything from then on. *)
Record descends (r r' : Row) : Prop := {
  desc_origin : same_origin r r';
  desc_data : (payload r' = payload r ∧ headers r' = headers r) ∨
              (payload r' = [] ∧ headers r' = JObj [] ∧ settled r' = true);
  desc_final : settled r = true → r' = r
}.

#[export] Instance descends_refl : Reflexive descends.
Proof. intros r. split; [by split|by left|done]. Qed.

#[export] Instance descends_trans : Transitive descends.
Proof.
  intros r1 r2 r3 [[] D1 F1] [[] D2 F2]. split; [split; congruence| |].
  - destruct D2 as [[Hp Hh]|?]; [|by right]. destruct D1 as [[]|(? & ? & Hs)]; [left; split; congruence|].
    right. by rewrite (F2 Hs).
  - intros Hs. pose proof (F1 Hs) as ->. auto.
Qed.

Lemma row_step_descends e db id c r r' : row_step e db id c (Some r) (Some r') → descends r r'.
Proof.
  intros Hs. split; [by eapply row_step_origin| |].
  - inversion Hs; subst; simpl; auto. destruct (scrubs clear st) eqn:Hsc; [right|by left].
    unfold scrubs, settled in *; simpl. by destruct clear.
  - unfold settled. rewrite orb_true_iff, !bool_decide_eq_true.
    row_cases Hs; destruct_or?; destruct_and?; intros [?|?]; congruence.
Qed.

(** No history loses or alters a message: as long as its row exists, in any
    interleaving of any statements, its topic, key, types, limit and place in
    the order are those it was enqueued with; payload and headers too until it
    is published or discarded, where a relay may empty them; and a published or
    discarded row is never changed again, so nothing is published twice after
    its publication was recorded. *)
Theorem message_history s s' id r r' :
  wf_db (s_db s) → rtc sys_step s s' →
  rows (s_db s) !! id = Some r → rows (s_db s') !! id = Some r' → seq r' = seq r → descends r r'.
Proof.
  intros Hwf Hrun. revert r. induction Hrun as [s|s1 s2 s3 H12 H23 IH]; intros r Hr Hr' Hseq.
  { simplify_eq. reflexivity. }
  assert (wf_db (s_db s2)) as Hwf2 by (eapply reachable_keeps_wf; [by apply rtc_once|done]).
  pose proof (wf_seq_lt _ Hwf _ _ Hr) as Hlt.
  destruct (run_seq s2 s3 id r' H23 Hr') as (r2 & Hr2 & Hs2).
  { destruct H12 as [e st _ _ _ Hiss ->]. simpl in *. unfold after_stmt.
    destruct (exec_stmt e st (s_db s1)) eqn:E; [|lia]. eapply exec_stmt_frame in E as [_ ?]; [lia|done]. }
  etrans; [|by apply (IH Hwf2 r2)].
  destruct H12 as [e st _ _ _ Hiss ->]. simpl in Hr2.
  pose proof (after_stmt_row_step e st (s_db s1) id Hiss) as Hs. rewrite Hr, Hr2 in Hs.
  by eapply row_step_descends.
Qed.

(** The row [id] is claimed under [tok]. *)
Definition held (s : Sys) (id tok : string) : Prop :=
  ∃ r, rows (s_db s) !! id = Some r ∧ lease_token r = Some tok.

Lemma stale_step s s' id tok :
  sys_step s s' → tok ∈ s_used s → ¬ held s id tok → tok ∈ s_used s' ∧ ¬ held s' id tok.
Proof.
  intros [e st He _ Hfresh Hiss ->] Hin Hnot. split; [simpl; set_solver|].
  intros (r' & Hr' & Ht). simpl in Hr'.
  pose proof (after_stmt_row_step e st (s_db s) id Hiss) as Hs. rewrite Hr' in Hs.
  apply Hnot. unfold held. inversion Hs; subst; simplify_eq/=; eauto.
  by destruct (Hfresh id).
Qed.

(** A token that lost its row never gets it back: once [tok] has been drawn
    and [id] is not claimed under it, then in every later state a renewal or
    completion that presents only [tok] for [id] leaves the row exactly as it
    is, whatever instance ids, attempt counts and requeues happened since. *)
Theorem lost_claim_fenced s s' id tok e st r :
  tok ∈ s_used s → ¬ held s id tok → rtc sys_step s s' →
  issued (st_cmd st) → rows (s_db s') !! id = Some r →
  (∃ ids tokens lease, st_cmd st = CRenew ids tokens lease) ∨
  (∃ ids tokens st' reason delay clear, st_cmd st = CFinish ids tokens st' reason delay clear) →
  (∀ t, presents (st_cmd st) id t → t = tok) →
  rows (after_stmt e st (s_db s')) !! id = Some r.
Proof.
  intros Hin Hnot Hrun Hiss Hr Hkind Hpres.
  assert (tok ∈ s_used s' ∧ ¬ held s' id tok) as [_ Hnot'].
  { clear Hr. induction Hrun as [|s1 s2 s3 H12 _ IH]; [done|].
    destruct (stale_step _ _ _ _ H12 Hin Hnot). auto. }
  unfold after_stmt. destruct (exec_stmt e st (s_db s')) as [d|] eqn:E; [|done].
  eapply stale_keys_frame; try done. intros t u Hp _ Ht _.
  destruct Hnot'. exists r. by rewrite <-(Hpres t Hp).
Qed.

(** ** Ordered mode *)

(** For two rows of one key: while the earlier one is neither published nor
    discarded, the later one has not been handed out. *)
Definition key_order (db : Db) : Prop := ∀ i j r1 r2 k,
  rows db !! i = Some r1 → rows db !! j = Some r2 →
  partition_key r1 = Some k → partition_key r2 = Some k →
  before r1 r2 = true → 0 < attempts r2 → settled r1 = true.

(** Statements of an all-ordered deployment whose transactions start after the
    rows they follow were created. *)
Definition ordered_env (e : StmtEnv) (st : Stmt) (db : Db) : Prop :=
  (∀ o inst lease limit, st_cmd st = CClaim o inst lease limit → o = true) ∧
  (∀ sql args, st_cmd st = CEnqueue sql args →
    ∀ id r, rows db !! id = Some r → created_at r ≤ e_now e).

Lemma before_origin r1 r2 r1' r2' :
  same_origin r1 r1' → same_origin r2 r2' → before r1' r2' = before r1 r2.
Proof. intros [] []. unfold before. congruence. Qed.

Lemma settled_step e db id c r r' :
  row_step e db id c (Some r) (Some r') → settled r = true → settled r' = true.
Proof.
  intros Hs. unfold settled. rewrite !orb_true_iff, !bool_decide_eq_true.
  row_cases Hs; destruct_or?; destruct_and?; intros [?|?]; (congruence || by auto).
Qed.

Lemma key_order_step e st db :
  issued (st_cmd st) → ordered_env e st db → wf_db db → key_order db →
  key_order (after_stmt e st db).
Proof.
  intros Hiss [Hord Hmono] Hwf Hinv i j r1' r2' k H1' H2' Hk1 Hk2 Hb Hatt.
  pose proof (after_stmt_row_step e st db i Hiss) as S1. rewrite H1' in S1.
  pose proof (after_stmt_row_step e st db j Hiss) as S2. rewrite H2' in S2.
  destruct (rows db !! j) as [r2|] eqn:H2; [|by inversion S2; subst].
  pose proof (row_step_origin _ _ _ _ _ _ S2) as O2.
  destruct (rows db !! i) as [r1|] eqn:H1.
  - pose proof (row_step_origin _ _ _ _ _ _ S1) as O1.
    rewrite (before_origin _ _ _ _ O1 O2) in Hb.
    rewrite (so_key _ _ O1) in Hk1. rewrite (so_key _ _ O2) in Hk2.
    eapply settled_step; [exact S1|].
    destruct (decide (0 < attempts r2)); [by eapply Hinv|].
    inversion S2 as [|?|o ? ? ? ? Hr0 Hsel| | | |]; subst; simplify_eq/=; try lia.
    apply elem_of_claim_select in Hsel as (_ & r0 & ? & (_ & _ & Hblk)%claimable_spec).
    simplify_eq. assert (o = true) as -> by (by eapply Hord).
    specialize (Hblk eq_refl). destruct (settled r1) eqn:Hst; [done|].
    rewrite (proj2 (blocked_spec _ _)) in Hblk; [done|]. by exists i, r1, k.
  - (* the earlier row was inserted just now: it cannot be earlier *)
    exfalso. inversion S1 as [|sql ms m n q ? ? ? ? ? Hq| | | | |]; subst.
    apply before_spec in Hb; simpl in Hb. destruct O2 as [_ _ _ _ _ Hcr Hsq].
    pose proof (Hmono _ _ ltac:(by symmetry) _ _ H2). pose proof (wf_seq_lt _ Hwf _ _ H2). lia.
Qed.

Inductive ordered_step (s s' : Sys) : Prop :=
| ordered_stmt e st :
    ordered_env e st (s_db s) →
    env_ok e → s_clock s ≤ e_clk e → (∀ id, e_token e id ∉ s_used s) → issued (st_cmd st) →
    s' = mkSys (after_stmt e st (s_db s)) (e_clk e)
           (s_used s ∪ table_tokens (rows (after_stmt e st (s_db s)))) →
    ordered_step s s'.

Lemma ordered_run_invariant s s' :
  rtc ordered_step s s' → wf_db (s_db s) → key_order (s_db s) →
  wf_db (s_db s') ∧ key_order (s_db s').
Proof.
  induction 1 as [|s1 s2 s3 [e st Ho He Hc Hf Hiss ->] _ IH]; [done|]. intros Hwf Hk. apply IH; simpl.
  - eapply (reachable_keeps_wf s1 (mkSys _ _ _)); [|done]. apply rtc_once. by econstructor.
  - by apply key_order_step.
Qed.

Lemma key_order_exclusive db : wf_db db → key_order db →
  ∀ i j r1 r2 k, rows db !! i = Some r1 → rows db !! j = Some r2 →
    partition_key r1 = Some k → partition_key r2 = Some k →
    status r1 = StatusProcessing → status r2 = StatusProcessing → i = j.
Proof.
  intros Hwf Hk i j r1 r2 k H1 H2 K1 K2 S1 S2.
  assert (∀ id r, rows db !! id = Some r → status r = StatusProcessing →
            0 < attempts r ∧ settled r = false) as Hp.
  { intros id r Hr Hs. pose proof (wf_state _ _ (wf_rows _ Hwf _ _ Hr)) as Hc.
    unfold state_columns in Hc. rewrite Hs in Hc. unfold settled. rewrite Hs. split; [lia|done]. }
  destruct (Hp _ _ H1 S1), (Hp _ _ H2 S2).
  destruct (decide (seq r1 = seq r2)) as [?|Hne]; [by eapply wf_seq_inj|].
  destruct (before_trichotomy _ _ Hne) as [Hb|Hb].
  - assert (settled r1 = true) by (eapply (Hk i j); eauto). congruence.
  - assert (settled r2 = true) by (eapply (Hk j i); eauto). congruence.
Qed.

(** Strict per-key order: whatever relays, enqueuers and operators of an
    ordered deployment do, in every reachable table the rows of a key are handed
    out one at a time and in order: a row that was ever claimed has all earlier
    rows of its key published or discarded, and no two rows of a key are being
    processed at once.  A pending, processing or dead row holds back the rest of
    its key. *)
Theorem key_order_preserved s s' :
  rtc ordered_step s s' → wf_db (s_db s) → key_order (s_db s) →
  key_order (s_db s') ∧
  ∀ i j r1 r2 k, rows (s_db s') !! i = Some r1 → rows (s_db s') !! j = Some r2 →
    partition_key r1 = Some k → partition_key r2 = Some k →
    status r1 = StatusProcessing → status r2 = StatusProcessing → i = j.
Proof.
  intros Hrun Hwf Hk. destruct (ordered_run_invariant _ _ Hrun Hwf Hk) as [Hwf' Hk'].
  split; [done|]. by apply key_order_exclusive.
Qed.
End Safety.
