(* ===== verification/StoreSpec.v ===== *)
(** * What each statement of the store computes

    Functional specifications of enqueue, claim, finish, requeue and cleanup on
    the table, errors included; [Safety.v] has what they guarantee jointly. *)

From S2P Require Import Prelude Outcome Message Backoff Config Postgres Store System.

Open Scope string_scope.
Open Scope Z_scope.

(** ** Rows an UPDATE returns *)
Section Update.
Context `{Postgres} (db : Db) (p : string → Row → bool) (f : string → Row → Row).

Lemma elem_of_returned id r' :
  (id, r') ∈ d_rows (run_update db p f) ↔
  ∃ r, rows db !! id = Some r ∧ p id r = true ∧ r' = f id r.
Proof.
  simpl. rewrite returning_perm. split.
  - intros ([i r] & [= -> ->] & [? ?]%elem_of_matched)%list_elem_of_fmap. eauto.
  - intros (r & ? & ? & ->). apply list_elem_of_fmap. exists (id, r).
    split; [done|]. by apply elem_of_matched.
Qed.

Lemma NoDup_returned : NoDup (d_rows (run_update db p f)).*1.
Proof.
  simpl. rewrite returning_perm. rewrite <-list_fmap_compose. apply NoDup_fst_matched.
Qed.

Lemma affected_returned : d_affected (run_update db p f) = Z.of_nat (length (d_rows (run_update db p f))).
Proof. simpl. by rewrite returning_perm, length_map. Qed.
End Update.

Lemma length_matched_sel (sel : list string) t :
  NoDup sel → (∀ id, id ∈ sel → is_Some (t !! id)) →
  length (matched (λ id _, bool_decide (id ∈ sel)) t) = length sel.
Proof.
  intros Hnd Hin. rewrite <-(length_fmap fst).
  apply Permutation_length, NoDup_Permutation; [apply NoDup_fst_matched|done|].
  intros id. rewrite list_elem_of_fmap. split.
  - intros ([i r] & -> & [_ Hb]%elem_of_matched). by apply bool_decide_eq_true in Hb.
  - intros Hid. destruct (Hin id Hid) as [r Hr]. exists (id, r). split; [done|].
    apply elem_of_matched. by rewrite bool_decide_eq_true.
Qed.

(** ** Selection order *)
Lemma NoDup_fst_inj {A} (l : list (string * A)) i a b :
  NoDup l.*1 → (i, a) ∈ l → (i, b) ∈ l → a = b.
Proof.
  induction l as [|[j c] l IH]; simpl; [by intros _ ?%not_elem_of_nil|].
  intros [Hj Hl]%NoDup_cons [?|Ha]%elem_of_cons [?|Hb]%elem_of_cons; simplify_eq; auto.
  - destruct Hj. apply list_elem_of_fmap. by exists (j, b).
  - destruct Hj. apply list_elem_of_fmap. by exists (j, a).
Qed.

Section Order.
Context (R : relation (string * Row)).

Lemma skip_locked_limit_fst locked limit l :
  skip_locked_limit locked limit l =
  (take (Z.to_nat limit) (filter (λ ir, ir.1 ∉ locked) l)).*1.
Proof.
  unfold skip_locked_limit. rewrite <-firstn_map. f_equal.
  induction l as [|[i r] l IH]; [done|]. simpl. rewrite !filter_cons. simpl.
  case_decide; simpl; by rewrite IH.
Qed.

Lemma StronglySorted_filter (P : string * Row → Prop) `{∀ x, Decision (P x)} l :
  StronglySorted R l → StronglySorted R (filter P l).
Proof.
  induction 1 as [|x l Hs IH Hx]; [constructor|]. rewrite filter_cons.
  case_decide; [|done]. constructor; [done|]. rewrite Forall_forall in *.
  intros y [_ Hy]%list_elem_of_filter. by apply Hx.
Qed.

(** A row passed over although unlocked comes after every row selected. *)
Lemma skip_locked_limit_prio locked limit l i r j o :
  StronglySorted R l → NoDup l.*1 → (i, r) ∈ l → (j, o) ∈ l →
  i ∈ skip_locked_limit locked limit l →
  j ∉ locked → j ∉ skip_locked_limit locked limit l → R (i, r) (j, o).
Proof.
  rewrite skip_locked_limit_fst. intros Hs Hnd Hi Hj Hsel Hlk Hout.
  set (l' := filter (λ ir, ir.1 ∉ locked) l) in *.
  assert (StronglySorted R l') as Hs' by by apply StronglySorted_filter.
  rewrite <-(take_drop (Z.to_nat limit) l') in Hs'.
  eapply StronglySorted_app_1_elem_of; [exact Hs'| |].
  - apply list_elem_of_fmap in Hsel as ([i' r'] & Heq & Hin). simpl in Heq. subst i'.
    enough (r' = r) as -> by done.
    assert ((i, r') ∈ l) as Hin' by (apply subseteq_take, list_elem_of_filter in Hin; naive_solver).
    eapply (NoDup_fst_inj l); eauto.
  - assert ((j, o) ∈ l') as Hj' by by apply list_elem_of_filter.
    rewrite <-(take_drop (Z.to_nat limit) l') in Hj'. apply elem_of_app in Hj' as [Hj'|?]; [|done].
    destruct Hout. apply list_elem_of_fmap. by exists (j, o).
Qed.
End Order.

Section Specs.
Context `{Postgres}.

(** ** Claim *)

Section Claim.
Context (e : StmtEnv) (ordered : bool) (inst : string) (lease : duration) (limit : Z) (db d' : Db).

Lemma exec_claim_inv d :
  exec_claim e ordered inst lease limit db = SqlOk d →
  0 ≤ limit ∧
  d = run_update db (λ id _, bool_decide (id ∈ claim_select e ordered limit (rows db)))
        (claim_row e inst lease).
Proof.
  unfold exec_claim. destruct (Z.ltb_spec limit 0); [done|]. destruct (negb _); [done|].
  destruct (forallb _ _); [|done]. by intros [= <-].
Qed.

Lemma claimed_ids d id :
  exec_claim e ordered inst lease limit db = SqlOk d →
  id ∈ (d_rows d).*1 ↔ id ∈ claim_select e ordered limit (rows db).
Proof.
  intros [_ ->]%exec_claim_inv. rewrite list_elem_of_fmap. split.
  - intros ([i r] & -> & (r0 & _ & Hb & _)%elem_of_returned). by apply bool_decide_eq_true in Hb.
  - intros Hsel. destruct (elem_of_claim_select _ _ _ _ _ Hsel) as (_ & r & Hr & _).
    eexists (id, _). split; [done|]. apply elem_of_returned. exists r.
    by rewrite bool_decide_eq_true.
Qed.
End Claim.

Lemma claim_facts e ordered inst lease limit db d :
  exec_claim e ordered inst lease limit db = SqlOk d →
  (NoDup (d_rows d).*1 ∧ d_affected d = Z.of_nat (length (d_rows d)) ∧ d_affected d ≤ limit) ∧
  (∀ id r', (id, r') ∈ d_rows d → ∃ r,
     rows db !! id = Some r ∧ r' = claim_row e inst lease id r ∧ rows (d_db d) !! id = Some r' ∧
     id ∉ e_locked e ∧ next_attempt_at r ≤ e_now e ∧
     (status r = StatusPending ∨
      status r = StatusProcessing ∧ ∃ u, locked_until r = Some u ∧ u < e_now e)) ∧
  (∀ id, id ∉ (d_rows d).*1 → rows (d_db d) !! id = rows db !! id) ∧
  (∀ id r, rows db !! id = Some r → claimable (e_now e) ordered (rows db) r = true →
     id ∉ e_locked e → id ∉ (d_rows d).*1 →
     d_affected d = limit ∧
     ∀ id0 r0, id0 ∈ (d_rows d).*1 → rows db !! id0 = Some r0 → before r r0 = false).
Proof.
  intros Hex. pose proof (λ id, claimed_ids _ _ _ _ _ _ d id Hex) as Hids.
  destruct (exec_claim_inv _ _ _ _ _ _ _ Hex) as [Hlim Hd].
  set (sel := claim_select e ordered limit (rows db)) in *.
  assert (NoDup sel) as Hnd by apply NoDup_claim_select.
  assert (d_affected d = Z.of_nat (length sel)) as Haff.
  { rewrite Hd. simpl. rewrite length_matched_sel; [done|done|].
    intros id (_ & r & -> & _)%elem_of_claim_select. eauto. }
  split_and!.
  - rewrite Hd. apply NoDup_returned.
  - rewrite Hd. apply affected_returned.
  - rewrite Haff. by apply skip_locked_limit_length.
  - intros id r' Hin. rewrite Hd in Hin.
    apply elem_of_returned in Hin as (r & Hr & Hb & ->).
    exists r. assert (id ∈ sel) as Hsel by by apply bool_decide_eq_true in Hb.
    destruct (elem_of_claim_select _ _ _ _ _ Hsel) as (Hlk & r0 & Hr0 & (? & ? & _)%claimable_spec).
    simplify_eq. split_and!; try done. rewrite lookup_run_update, Hr. simpl. by rewrite Hb.
  - intros id Hid. rewrite Hd, lookup_run_update.
    rewrite bool_decide_eq_false_2 by (by rewrite <-Hids).
    by destruct (rows db !! id).
  - intros id r Hr Hc Hlk Hout. rewrite Hids in Hout. split.
    + rewrite Haff. by eapply claim_select_full.
    + intros id0 r0 Hin%Hids Hr0.
      destruct (elem_of_claim_select _ _ _ _ _ Hin) as (_ & r1 & Hr1 & Hc1). simplify_eq.
      apply (skip_locked_limit_prio claim_order (e_locked e) limit
               (merge_sort claim_order (matched (λ _ r, claimable (e_now e) ordered (rows db) r) (rows db)))
               id0 r0 id r); try done.
      * apply StronglySorted_merge_sort; apply _.
      * rewrite merge_sort_Permutation. apply NoDup_fst_matched.
      * rewrite merge_sort_Permutation. by apply elem_of_matched.
      * rewrite merge_sort_Permutation. by apply elem_of_matched.
Qed.


(** Row [i] is the first of its key in [t] that is not settled. *)
Definition head_of_key (t : gmap string Row) (i : string) : Prop :=
  ∀ ri j rj k, t !! i = Some ri → t !! j = Some rj →
    partition_key ri = Some k → partition_key rj = Some k → before rj ri = true → settled rj = true.

Lemma settled_spec r : settled r = true ↔ status r = StatusPublished ∨ status r = StatusDiscarded.
Proof. unfold settled. by rewrite orb_true_iff, !bool_decide_eq_true. Qed.

Lemma claimable_unsettled now ordered t r : claimable now ordered t r = true → settled r = false.
Proof. intros (_ & [Hs|[Hs _]] & _)%claimable_spec; unfold settled; by rewrite Hs. Qed.

(** What an ordered claim took was the head of its key, and is it afterwards. *)
Lemma claim_heads e inst lease limit db d id :
  exec_claim e true inst lease limit db = SqlOk d → id ∈ (d_rows d).*1 →
  head_of_key (rows db) id ∧ head_of_key (rows (d_db d)) id.
Proof.
  intros Hex Hin. pose proof (λ i, claimed_ids _ _ _ _ _ _ d i Hex) as Hids.
  pose proof (exec_claim_inv _ _ _ _ _ _ _ Hex) as [_ Hd]. apply Hids, elem_of_claim_select in Hin as (_ & r & Hr & Hc).
  assert (head_of_key (rows db) id) as Hhead.
  { intros ri j rj k Hri Hrj Hki Hkj Hb. simplify_eq. apply claimable_spec in Hc as (_ & _ & Hblk).
    destruct (settled rj) eqn:Hs; [done|]. rewrite (proj2 (blocked_spec _ _)) in Hblk by (by exists j, rj, k).
    by discriminate Hblk. }
  split; [done|]. intros ri j rj k Hri Hrj Hki Hkj Hb.
  rewrite Hd, lookup_run_update in Hri, Hrj. rewrite Hr in Hri. simpl in Hri.
  destruct (rows db !! j) as [rj0|] eqn:Hj; [|done]. simpl in Hrj.
  assert (before rj0 r = true ∧ partition_key rj0 = Some k ∧ partition_key r = Some k) as (Hb0 & Hkj0 & Hk0).
  { destruct (bool_decide (id ∈ _)), (bool_decide (j ∈ _)); by simplify_eq. }
  pose proof (Hhead r j rj0 k Hr Hj Hk0 Hkj0 Hb0) as Hs. case_bool_decide as Hjs; [|by simplify_eq].
  apply elem_of_claim_select in Hjs as (_ & r' & Hr' & Hc'%claimable_unsettled). simplify_eq. congruence.
Qed.

(** Ordered claim: of each partition key at most one row is handed out, and every
    earlier row of its key has already been published or discarded. *)
Theorem claim_ordered_spec e inst lease limit db d :
  wf_db db → exec_claim e true inst lease limit db = SqlOk d →
  (∀ i j ri rj k, (i, ri) ∈ d_rows d → (j, rj) ∈ d_rows d →
     partition_key ri = Some k → partition_key rj = Some k → i = j) ∧
  (∀ i ri j rj k, (i, ri) ∈ d_rows d → rows db !! j = Some rj →
     partition_key ri = Some k → partition_key rj = Some k → before rj ri = true →
     settled rj = true).
Proof.
  intros Hwf Hex. destruct (claim_facts _ _ _ _ _ _ _ Hex) as (_ & Hclaimed & _).
  assert (∀ i ri, (i, ri) ∈ d_rows d → ∃ r, rows db !! i = Some r ∧ ri = claim_row e inst lease i r ∧
            settled r = false ∧ head_of_key (rows db) i) as Hin.
  { intros i ri Hi. destruct (Hclaimed i ri Hi) as (r & Hr & -> & _ & _ & _ & Hst). exists r. split_and!; [done..| |].
    - destruct Hst as [Hs|[Hs _]]; unfold settled; by rewrite Hs.
    - eapply claim_heads; [exact Hex|]. apply list_elem_of_fmap. by eexists (i, _). }
  split.
  - intros i j ri rj k (r1 & Hr1 & -> & Hn1 & Hh1)%Hin (r2 & Hr2 & -> & Hn2 & Hh2)%Hin Hk1 Hk2.
    destruct (decide (i = j)) as [|Hne]; [done|]. exfalso.
    assert (seq r1 ≠ seq r2) as [Hb|Hb]%before_trichotomy by (intros ?; by eapply Hne, wf_seq_inj).
    + rewrite (Hh2 r2 i r1 k) in Hn1 by done. done.
    + rewrite (Hh1 r1 j r2 k) in Hn2 by done. done.
  - intros i ri j rj k (r & Hr & -> & _ & Hh)%Hin Hj Hki Hkj Hb. by eapply (Hh r j rj k).
Qed.

(** A claim fails only for a negative limit, an instance id the server cannot
    store or an attempt counter at the top of its int4 column. *)
Lemma exec_claim_total e ordered inst lease limit db :
  0 ≤ limit → text_in inst = true → (∀ id r, rows db !! id = Some r → int4_ok (attempts r + 1) = true) →
  ∃ d, exec_claim e ordered inst lease limit db = SqlOk d.
Proof.
  intros Hl Hin Hatt. unfold exec_claim. destruct (Z.ltb_spec limit 0); [lia|]. rewrite Hin. simpl.
  rewrite (proj2 (forallb_forall _ _)); [eauto|].
  intros [id r] [Hr _]%list_elem_of_In%elem_of_matched. by eapply Hatt.
Qed.

(** ** Enqueue *)

Lemma insert_tuples_keep e i ms db db' id r :
  insert_tuples e i (map enqueue_args ms) db = inl db' →
  rows db !! id = Some r → rows db' !! id = Some r.
Proof.
  intros (_ & _ & Hall)%insert_tuples_inv Hr. destruct (Hall id) as [->|[Hn _]]; congruence.
Qed.

Lemma insert_tuples_app e i ms ms' db :
  insert_tuples e i (map enqueue_args (ms ++ ms')) db =
  match insert_tuples e i (map enqueue_args ms) db with
  | inl db1 => insert_tuples e (i + length ms) (map enqueue_args ms') db1
  | inr code => inr code
  end.
Proof.
  revert i db. induction ms as [|m ms IH]; intros i db; cbn [map app insert_tuples length].
  - by rewrite Nat.add_0_r.
  - destruct (insert_tuple _ _ _ _); [|done]. rewrite IH. by rewrite Nat.add_succ_comm.
Qed.

Lemma insert_tuples_not_new e i ms db db' id :
  insert_tuples e i (map enqueue_args ms) db = inl db' → rows db !! id = None →
  (∀ j m, ms !! j = Some m → ¬ id_of e (i + j) m id) → rows db' !! id = None.
Proof.
  revert i db. induction ms as [|m ms IH]; intros i db; cbn [map insert_tuples]; [by intros [= <-]|].
  destruct (insert_tuple _ _ _ _) as [db1|] eqn:E1; [|done]. intros E Hn Hno.
  eapply IH; [exact E| |].
  - destruct (insert_tuple_inv _ _ _ _ _ E1) as (id' & Hid' & _ & _ & _ & _ & [[_ ->]|[_ ->]]); [done|].
    rewrite lookup_insert_ne; [done|]. intros ->. apply (Hno 0%nat m eq_refl). by rewrite Nat.add_0_r.
  - intros j m' Hj. rewrite Nat.add_succ_comm. by apply (Hno (S j)).
Qed.

Lemma insert_tuples_notified e i ms db db' :
  insert_tuples e i (map enqueue_args ms) db = inl db' → notified db' = notified db.
Proof.
  revert i db. induction ms as [|m ms IH]; intros i db; cbn [map insert_tuples]; [by intros [= ->]|].
  destruct (insert_tuple e i (enqueue_args m) db) as [db1|] eqn:E1; [|done]. intros ->%IH.
  revert E1. unfold insert_tuple, enqueue_args. rewrite !arg_text_nullStr.
  repeat case_match; intros; by simplify_eq.
Qed.

(** A message naming no id, or one the uuid parser reads, with a payload, an
    attempt limit that fits its column, and texts and headers the server stores. *)
Definition enqueuable (m : Message) : Prop :=
  (ID m = EmptyString ∨ is_Some (uuid_in (ID m))) ∧ is_Some (Payload m) ∧ int4_max_ok m ∧
  text_in (Topic m) && jsonb_in (json_Marshal (default ∅ (Headers m))) = true ∧
  storable (PartitionKey m) && storable (ContentType m) && storable (MessageType m) = true.

Lemma insert_tuple_total e i m db :
  enqueuable m → ∃ db', insert_tuple e i (enqueue_args m) db = inl db'.
Proof.
  intros (Hid & [pl Hpl] & Hmx & Htx & [[Hpk Hct]%andb_true_iff Hmt]%andb_true_iff).
  unfold insert_tuple, enqueue_args, int4_max_ok in *.
  rewrite Hpl, !arg_text_nullStr, Htx, Hpk, Hct, Hmt. simpl negb. cbv iota.
  assert (∃ id, match nullStr (ID m) with ANull => Some (e_id e i) | AText s => uuid_in s
                | _ => None end = Some id) as [id ->].
  { unfold nullStr. destruct (String.eqb_spec (ID m) EmptyString); [eauto|].
    destruct Hid as [|[id Hid]]; [done|eauto]. }
  destruct (MaxAttempts m); simpl; [rewrite Hmx|]; eauto.
Qed.

Lemma insert_tuples_total e i ms db :
  Forall enqueuable ms → ∃ db', insert_tuples e i (map enqueue_args ms) db = inl db'.
Proof.
  intros Hall. revert i db. induction Hall as [|m ms Hm _ IH]; intros i db; cbn [map insert_tuples]; [eauto|].
  destruct (insert_tuple_total e i m db Hm) as [db1 ->]. apply IH.
Qed.

Lemma enqueue_refused e ms db :
  ¬ fits_statement ms → exec_enqueue e (flat_map enqueue_args ms) db = SqlErr too_many_params.
Proof. intros Hbig. unfold exec_enqueue. by rewrite enqueue_params, bool_decide_eq_false_2. Qed.

Lemma enqueue_facts e ms db :
  Forall enqueuable ms → fits_statement ms →
  ∃ d, exec_enqueue e (flat_map enqueue_args ms) db = SqlOk d ∧
    notified (d_db d) = S (notified db) ∧
    (∀ id r, rows db !! id = Some r → rows (d_db d) !! id = Some r) ∧
    (∀ pre m post id, ms = (pre ++ m :: post)%list → id_of e (length pre) m id →
       rows db !! id = None → (∀ j m', pre !! j = Some m' → ¬ id_of e j m' id) →
       ∃ k, next_seq db ≤ k ∧ rows (d_db d) !! id = Some (enqueued_row (e_now e) m k)).
Proof.
  intros Hall Hfits. unfold exec_enqueue. rewrite enqueue_params, bool_decide_eq_true_2, tuples_of_enqueue by done.
  destruct (insert_tuples_total e 0 ms db Hall) as [db' E]. rewrite E. eexists. split; [done|].
  simpl. rewrite (insert_tuples_notified _ _ _ _ _ E).
  split_and!; [done|intros; by eapply insert_tuples_keep|].
  intros pre m post id -> Hid Hn Hpre. rewrite insert_tuples_app in E.
  destruct (insert_tuples e 0 (map enqueue_args pre) db) as [db1|] eqn:E1; [|done].
  cbn [map insert_tuples] in E. destruct (insert_tuple _ _ _ _) as [db2|] eqn:E2; [|done].
  destruct (insert_tuples_inv _ _ _ _ _ E1) as (_ & Hsq & Hrows).
  assert (rows db1 !! id = None) as Hn1.
  { eapply insert_tuples_not_new; [exact E1|done|]. intros j m' Hj. by apply Hpre. }
  exists (next_seq db1). split; [lia|]. eapply insert_tuples_keep; [exact E|].
  destruct (insert_tuple_inv _ _ _ _ _ E2) as (id' & Hid' & _ & _ & _ & _ & Hcase).
  assert (id' = id) as ->.
  { revert Hid Hid'. unfold id_of. simpl. destruct (String.eqb _ _); congruence. }
  destruct Hcase as [[[? ?] _]|[_ ->]]; [congruence|]. by rewrite lookup_insert_eq.
Qed.

(** After an INSERT that succeeded every message of it has its row: one that was
    there, or that of a message of the batch under the same id. *)
Lemma insert_tuples_present e i ms db db' m :
  insert_tuples e i (map enqueue_args ms) db = inl db' → m ∈ ms →
  ∃ j id, id_of e j m id ∧ is_Some (rows db' !! id).
Proof.
  revert i db. induction ms as [|m0 ms IH]; intros i db E; [by intros ?%not_elem_of_nil|].
  cbn [map insert_tuples] in E. destruct (insert_tuple _ _ _ _) as [db1|] eqn:E1; [|done].
  intros [->|Hm]%elem_of_cons; [|by eapply IH].
  destruct (insert_tuple_inv _ _ _ _ _ E1) as (id & Hid & _ & _ & _ & _ & Hrow). exists i, id. split; [done|].
  assert (is_Some (rows db1 !! id)) as [r Hr].
  { destruct Hrow as [[? ->]|[_ ->]]; [done|]. rewrite lookup_insert_eq. by eexists. }
  exists r. by eapply insert_tuples_keep.
Qed.

Lemma enqueued_present e ms db d m :
  exec_enqueue e (flat_map enqueue_args ms) db = SqlOk d → m ∈ ms →
  ∃ j id, id_of e j m id ∧
    (is_Some (rows db !! id) ∨
     rows db !! id = None ∧ ∃ m' j' k, m' ∈ ms ∧ id_of e j' m' id ∧
       rows (d_db d) !! id = Some (enqueued_row (e_now e) m' k)).
Proof.
  unfold exec_enqueue. destruct (_ <? _); [done|]. rewrite tuples_of_enqueue.
  destruct (insert_tuples _ _ _ _) as [db'|] eqn:E; [|done]. intros [= <-] Hm. simpl.
  destruct (insert_tuples_present _ _ _ _ _ _ E Hm) as (j & id & Hid & Hin). exists j, id. split; [done|].
  destruct (insert_tuples_inv _ _ _ _ _ E) as (_ & _ & Hall).
  destruct (Hall id) as [<-|(Hn & j' & m' & k & ? & _ & _ & ? & _ & ?)]; [by left|].
  right. split; [done|]. by exists m', j', k.
Qed.

(** C25. Idempotent enqueue: an INSERT of at most 8191 messages the table accepts
    succeeds and notifies once; rows already present are untouched, so a known id
    is a no-op; and the row of a new id is the first message of the batch naming
    it, pending, without attempts and due at once.  A larger batch has more than
    65535 parameters and always fails. *)
Theorem enqueue_spec e ms db :
  (Forall enqueuable ms → Z.of_nat (length ms) ≤ 8191 →
   ∃ d, exec_enqueue e (flat_map enqueue_args ms) db = SqlOk d ∧
    notified (d_db d) = S (notified db) ∧
    (∀ id r, rows db !! id = Some r → rows (d_db d) !! id = Some r) ∧
    (∀ pre m post id, ms = (pre ++ m :: post)%list → id_of e (length pre) m id →
       rows db !! id = None → (∀ j m', pre !! j = Some m' → ¬ id_of e j m' id) →
       ∃ k, next_seq db ≤ k ∧ rows (d_db d) !! id = Some (enqueued_row (e_now e) m k))) ∧
  (8191 < Z.of_nat (length ms) → exec_enqueue e (flat_map enqueue_args ms) db = SqlErr "08P01").
Proof.
  split; [by apply enqueue_facts|]. intros Hbig. apply enqueue_refused. unfold fits_statement. lia.
Qed.

(** ** Renew and finish *)

(** The key of a claimed message, and a batch whose keys are uuids. *)
Definition msg_key (m : Message) : string * string := (ID m, LeaseToken m).

Definition canonical (m : Message) : Prop :=
  uuid_in (ID m) = Some (ID m) ∧ uuid_in (LeaseToken m) = Some (LeaseToken m).

Lemma mapM_canonical (l : list string) :
  Forall (λ x, uuid_in x = Some x) l → mapM uuid_in l = Some l.
Proof. intros Hall. by apply mapM_Some_2, Forall_Forall2_diag. Qed.

Lemma cast_keys_canonical ms :
  Forall canonical ms → cast_keys (map ID ms) (map LeaseToken ms) = Some (map msg_key ms).
Proof.
  intros Hall. unfold cast_keys.
  rewrite !mapM_canonical
    by (apply Forall_fmap; eapply Forall_impl; [exact Hall|by intros ? []]).
  simpl. f_equal. clear Hall. induction ms as [|m ms IH]; simpl; [done|]. by rewrite IH.
Qed.

(** Row [r] is the live claim of message [m] at clock [clk]. *)
Definition live_row (clk : time) (m : Message) (r : Row) : Prop :=
  status r = StatusProcessing ∧ lease_token r = Some (LeaseToken m) ∧
  ∃ u, locked_until r = Some u ∧ clk < u.

Lemma live_claim_batch clk ms id r :
  live_claim clk (map msg_key ms) id r = true ↔ ∃ m, m ∈ ms ∧ ID m = id ∧ live_row clk m r.
Proof.
  rewrite live_claim_spec. unfold live_row. split.
  - intros ((t & (m & [= -> ->] & Hin)%list_elem_of_fmap & Ht) & ? & ?). exists m. split_and!; eauto.
  - intros (m & Hin & <- & ? & ? & ?). split_and!; try done. exists (LeaseToken m). split; [|done].
    apply list_elem_of_fmap. by exists m.
Qed.

(** A batch all of whose claims are live. *)
Definition live_batch (clk : time) (db : Db) (ms : list Message) : Prop :=
  Forall canonical ms ∧ NoDup (map ID ms) ∧
  ∀ m, m ∈ ms → ∃ r, rows db !! ID m = Some r ∧ live_row clk m r.

Lemma live_batch_matched clk db ms :
  live_batch clk db ms → (matched (live_claim clk (map msg_key ms)) (rows db)).*1 ≡ₚ map ID ms.
Proof.
  intros (_ & Hnd & Hlive). apply NoDup_Permutation; [apply NoDup_fst_matched|done|].
  intros id. rewrite !list_elem_of_fmap. split.
  - intros ([i r] & -> & [_ (m & ? & ? & _)%live_claim_batch]%elem_of_matched). by exists m.
  - intros (m & -> & Hin). destruct (Hlive m Hin) as (r & Hr & Hl). exists (ID m, r).
    split; [done|]. apply elem_of_matched. split; [done|]. apply live_claim_batch. by exists m.
Qed.

Lemma exec_finish_storable e ids tokens st reason delay clear db d :
  exec_finish e ids tokens st (nullStr reason) delay clear db = SqlOk d → storable reason = true.
Proof.
  unfold exec_finish. destruct (cast_keys _ _); [|done]. rewrite arg_text_nullStr. by destruct (storable _).
Qed.

Lemma finish_facts e ms st reason delay clear db :
  Forall canonical ms → storable reason = true →
  ∃ d, exec_finish e (map ID ms) (map LeaseToken ms) st (nullStr reason) delay clear db = SqlOk d ∧
    (∀ id r, rows db !! id = Some r →
       (∃ m, m ∈ ms ∧ ID m = id ∧ live_row (e_clk e) m r) →
       rows (d_db d) !! id = Some (finish_row e st (null_text reason) delay clear r)) ∧
    (∀ id, (∀ m r, m ∈ ms → ID m = id → rows db !! id = Some r → ¬ live_row (e_clk e) m r) →
       rows (d_db d) !! id = rows db !! id) ∧
    (∀ id r', (id, r') ∈ d_rows d ↔ ∃ m r, m ∈ ms ∧ ID m = id ∧ rows db !! id = Some r ∧
       live_row (e_clk e) m r ∧ r' = finish_row e st (null_text reason) delay clear r) ∧
    (live_batch (e_clk e) db ms → length (d_rows d) = length ms).
Proof.
  intros Hcan Hst. unfold exec_finish. rewrite cast_keys_canonical by done. rewrite arg_text_nullStr, Hst.
  eexists. split; [done|]. split_and!.
  - intros id r Hr Hl%live_claim_batch. rewrite lookup_run_update, Hr. simpl. by rewrite Hl.
  - intros id Hno. rewrite lookup_run_update. destruct (rows db !! id) as [r|]; [simpl|done].
    destruct (live_claim _ _ _ _) eqn:Hl; [|done].
    apply live_claim_batch in Hl as (m & ? & ? & ?). by destruct (Hno m r).
  - intros id r'. rewrite elem_of_returned. setoid_rewrite live_claim_batch. naive_solver.
  - intros Hlive%live_batch_matched%Permutation_length. simpl.
    rewrite returning_perm, length_map. by rewrite !length_map in Hlive.
Qed.

(** C26. Completion: with canonical keys and an error text the server can store
    the statement succeeds, and with any other text it fails; it rewrites
    exactly the rows that are live claims of the batch, returns exactly those,
    and touches no other row.  When every claim is live all rows come back. *)
Theorem finish_spec e ms st reason delay clear db :
  Forall canonical ms →
  (storable reason = false →
     exec_finish e (map ID ms) (map LeaseToken ms) st (nullStr reason) delay clear db = SqlErr "22000") ∧
  (storable reason = true → ∃ d,
    exec_finish e (map ID ms) (map LeaseToken ms) st (nullStr reason) delay clear db = SqlOk d ∧
    (∀ id r, rows db !! id = Some r →
       (∃ m, m ∈ ms ∧ ID m = id ∧ live_row (e_clk e) m r) →
       rows (d_db d) !! id = Some (finish_row e st (null_text reason) delay clear r)) ∧
    (∀ id, (∀ m r, m ∈ ms → ID m = id → rows db !! id = Some r → ¬ live_row (e_clk e) m r) →
       rows (d_db d) !! id = rows db !! id) ∧
    (∀ id r', (id, r') ∈ d_rows d ↔ ∃ m r, m ∈ ms ∧ ID m = id ∧ rows db !! id = Some r ∧
       live_row (e_clk e) m r ∧ r' = finish_row e st (null_text reason) delay clear r) ∧
    (live_batch (e_clk e) db ms → length (d_rows d) = length ms)).
Proof.
  intros Hcan. split; [|by apply finish_facts]. intros Hs. unfold exec_finish.
  by rewrite cast_keys_canonical, arg_text_nullStr, Hs.
Qed.

(** A completion clears payload and headers only of rows it publishes or
    discards, and only when asked to; dead and retried rows keep them. *)
Lemma finish_scrub e st why delay clear r :
  let r' := finish_row e st why delay clear r in
  (clear = true ∧ (st = StatusPublished ∨ st = StatusDiscarded) →
     payload r' = [] ∧ headers r' = JObj []) ∧
  (clear = false ∨ st = StatusDead ∨ st = StatusPending →
     payload r' = payload r ∧ headers r' = headers r) ∧
  (st = StatusPending → finished_at r' = None ∧ next_attempt_at r' = e_clk e + interval_us delay) ∧
  (st ≠ StatusPending → finished_at r' = Some (e_clk e) ∧ next_attempt_at r' = next_attempt_at r) ∧
  last_error r' = why ∧ unlocked r'.
Proof.
  simpl. unfold scrubs. split_and!; try done.
  - by intros [-> [->| ->]].
  - intros [->|[->| ->]]; [done|..]; by destruct clear.
  - by intros ->.
  - intros. by rewrite bool_decide_eq_false_2.
Qed.

(** ** Requeue *)

(** What a replay makes of a dead row, column by column: pending and due at [clk]
    with no attempt counted; no error, terminal time or lease left; its message and
    its place in the creation order as they were. *)
Record requeued (clk : time) (r r' : Row) : Prop := {
  rq_pending : status r' = StatusPending ∧ attempts r' = 0 ∧ next_attempt_at r' = clk;
  rq_cleared : last_error r' = None ∧ finished_at r' = None ∧ published_at r' = None;
  rq_released : locked_by r' = None ∧ locked_until r' = None ∧ lease_token r' = None;
  rq_message : topic r' = topic r ∧ partition_key r' = partition_key r ∧ payload r' = payload r ∧
    headers r' = headers r ∧ content_type r' = content_type r ∧ message_type r' = message_type r ∧
    max_attempts r' = max_attempts r;
  rq_order : created_at r' = created_at r ∧ seq r' = seq r
}.

Lemma requeue_facts e s id db :
  uuid_in s = Some id →
  ∃ d, exec_requeue e s db = SqlOk d ∧
    (∀ j, j ≠ id → rows (d_db d) !! j = rows db !! j) ∧
    match rows db !! id with
    | Some r =>
        if bool_decide (status r = StatusDead) then
          d_affected d = 1 ∧ notified (d_db d) = S (notified db) ∧
          ∃ r', rows (d_db d) !! id = Some r' ∧ requeued (e_clk e) r r'
        else d_affected d = 0 ∧ notified (d_db d) = notified db ∧ rows (d_db d) !! id = Some r
    | None => d_affected d = 0 ∧ notified (d_db d) = notified db ∧ rows (d_db d) !! id = None
    end.
Proof.
  intros Hid. unfold exec_requeue. rewrite Hid. eexists. split; [done|]. simpl.
  set (p := λ i r, String.eqb i id && bool_decide (status r = StatusDead)).
  split.
  { intros j Hj. rewrite lookup_update_rows.
    destruct (rows db !! j) as [r|]; [|done]. unfold p. simpl. by rewrite (proj2 (String.eqb_neq _ _) Hj). }
  rewrite lookup_update_rows.
  assert (∀ r, rows db !! id = Some r → status r = StatusDead → matched p (rows db) ≡ₚ [(id, r)]) as Hone.
  { intros r Hr Hd. apply NoDup_Permutation.
    - eapply NoDup_fmap_1, NoDup_fst_matched.
    - apply NoDup_singleton.
    - intros [j r']. rewrite elem_of_matched, list_elem_of_singleton. unfold p.
      rewrite andb_true_iff, String.eqb_eq, bool_decide_eq_true. naive_solver. }
  assert ((∀ r, rows db !! id = Some r → status r ≠ StatusDead) → matched p (rows db) = []) as Hnone.
  { intros Hno. apply matched_nil. intros j r Hr. unfold p.
    destruct (String.eqb_spec j id) as [->|]; simpl; [|done]. apply bool_decide_eq_false_2. auto. }
  destruct (rows db !! id) as [r|] eqn:Hr; simpl.
  - assert (p id r = bool_decide (status r = StatusDead)) as -> by (unfold p; by rewrite String.eqb_refl).
    case_bool_decide as Hd.
    + rewrite (Hone r) by done. split_and!; [done..|]. exists (requeue_row e r). by repeat split.
    + rewrite Hnone by naive_solver. done.
  - rewrite Hnone by done. done.
Qed.

(** C27. Requeue reports true exactly for a dead row; it makes it pending and due
    at the statement's clock with zero attempts, its last error, its terminal
    times and its lease NULL, keeps the message's columns and its creation order,
    notifies once, and leaves the rest alone; a row in any other state stays what
    it is. *)
Theorem requeue_spec e s id db :
  uuid_in s = Some id →
  ∃ d, exec_requeue e s db = SqlOk d ∧
    (∀ j, j ≠ id → rows (d_db d) !! j = rows db !! j) ∧
    match rows db !! id with
    | Some r =>
        if bool_decide (status r = StatusDead) then
          d_affected d = 1 ∧ notified (d_db d) = S (notified db) ∧
          ∃ r', rows (d_db d) !! id = Some r' ∧ requeued (e_clk e) r r'
        else d_affected d = 0 ∧ notified (d_db d) = notified db ∧ rows (d_db d) !! id = Some r
    | None => d_affected d = 0 ∧ notified (d_db d) = notified db ∧ rows (d_db d) !! id = None
    end.
Proof. apply requeue_facts. Qed.

(** ** Cleanup *)

(** A terminal row whose retention is set and over: a published one by
    [published_at], a dead or discarded one by [finished_at]. *)
Definition past_retention (now : time) (ret dead disc : duration) (r : Row) : Prop :=
  (status r = StatusPublished ∧ 0 < ret ∧ ∃ t, published_at r = Some t ∧ t < now - interval_us ret) ∨
  (status r = StatusDead ∧ 0 < dead ∧ ∃ t, finished_at r = Some t ∧ t < now - interval_us dead) ∨
  (status r = StatusDiscarded ∧ 0 < disc ∧ ∃ t, finished_at r = Some t ∧ t < now - interval_us disc).

Lemma removable_spec now ret dead disc r :
  removable now ret dead disc r = true ↔ past_retention now ret dead disc r.
Proof.
  assert (∀ keep ts, expired now keep ts = true ↔ 0 < keep ∧ ∃ t, ts = Some t ∧ t < now - interval_us keep) as Hx.
  { intros keep ts. unfold expired. rewrite andb_true_iff, Z.ltb_lt.
    destruct ts as [t|]; simpl; [rewrite Z.ltb_lt|]; naive_solver. }
  unfold removable, past_retention. destruct (status r) eqn:Hs; rewrite ?Hx; naive_solver.
Qed.

(** Row [a] ended before row [b]: by the time it reached its terminal state, and
    by its id between equal times. *)
Definition ended_before (a b : string * Row) : Prop :=
  ∀ x y, terminal_time a.2 = Some x → terminal_time b.2 = Some y →
    x < y ∨ x = y ∧ String.leb a.1 b.1 = true.

Lemma cleanup_order_ended a b : cleanup_order a b → ended_before a b.
Proof.
  unfold cleanup_order, cleanup_after, ended_before. intros Ho x y Hx Hy. rewrite Hx, Hy in Ho.
  destruct (Z.ltb_spec y x), (Z.eqb_spec y x); simpl in Ho; try done; [|left; lia].
  apply negb_false_iff in Ho. right. by split.
Qed.

#[export] Instance cleanup_order_total : Total cleanup_order.
Proof.
  intros [i r] [j o]. unfold cleanup_order, cleanup_after. simpl.
  destruct (terminal_time r) as [x|], (terminal_time o) as [y|]; try (by (left + right)).
  - destruct (Z.ltb_spec y x), (Z.ltb_spec x y), (Z.eqb_spec y x), (Z.eqb_spec x y); simpl; try lia; auto.
    rewrite !negb_false_iff. apply String.leb_total.
  - rewrite !negb_false_iff. apply String.leb_total.
Qed.

#[export] Instance cleanup_order_trans : Transitive cleanup_order.
Proof.
  assert (∀ i j k, String.leb i j = true → String.leb j k = true → String.leb i k = true) as Htr.
  { intros i j k H1%Is_true_true H2%Is_true_true. apply Is_true_true. by apply (transitivity (R:=String.le) (y:=j)). }
  intros [i r] [j o] [k q]. unfold cleanup_order, cleanup_after. simpl.
  destruct (terminal_time r) as [x|], (terminal_time o) as [y|], (terminal_time q) as [z|]; try done.
  - rewrite !orb_false_iff, !andb_false_iff, !Z.ltb_ge, !Z.eqb_neq, !negb_false_iff.
    intros [? Hij] [? Hjk]. split; [lia|]. destruct (decide (z = x)) as [->|]; [|by left].
    right. destruct Hij as [?|Hij]; [lia|]. destruct Hjk as [?|Hjk]; [lia|]. by eapply Htr.
  - rewrite !negb_false_iff. apply Htr.
Qed.

(** A removable row passed over although unlocked ended after every one selected. *)
Lemma cleanup_select_prio e ret dead disc limit t i r j o :
  t !! i = Some r → t !! j = Some o →
  i ∈ cleanup_select e ret dead disc limit t → j ∉ cleanup_select e ret dead disc limit t →
  j ∉ e_locked e → removable (e_now e) ret dead disc o = true → cleanup_order (i, r) (j, o).
Proof.
  intros Hr Ho Hi Hj Hlk Hrm. destruct (elem_of_cleanup_select _ _ _ _ _ _ _ Hi) as (_ & r' & ? & ?). simplify_eq.
  eapply (skip_locked_limit_prio cleanup_order (e_locked e) limit); try done.
  - apply StronglySorted_merge_sort; apply _.
  - rewrite merge_sort_Permutation. apply NoDup_fst_matched.
  - rewrite merge_sort_Permutation. by apply elem_of_matched.
  - rewrite merge_sort_Permutation. by apply elem_of_matched.
Qed.

Lemma cleanup_facts e ret dead disc limit db :
  0 ≤ limit →
  ∃ d, exec_cleanup e ret dead disc limit db = SqlOk d ∧
    0 ≤ d_affected d ≤ limit ∧
    d_affected d = Z.of_nat (size (rows db)) - Z.of_nat (size (rows (d_db d))) ∧
    (∀ id r, rows db !! id = Some r →
       rows (d_db d) !! id = Some r ∨
       (rows (d_db d) !! id = None ∧ id ∉ e_locked e ∧ removable (e_now e) ret dead disc r = true)) ∧
    (∀ id, rows db !! id = None → rows (d_db d) !! id = None) ∧
    (∀ id r, rows (d_db d) !! id = Some r → removable (e_now e) ret dead disc r = true →
       id ∉ e_locked e → d_affected d = limit ∧
       ∀ id0 r0, rows db !! id0 = Some r0 → rows (d_db d) !! id0 = None → ended_before (id0, r0) (id, r)).
Proof.
  intros Hlim. unfold exec_cleanup. destruct (Z.ltb_spec limit 0); [lia|]. eexists. split; [done|]. simpl.
  set (sel := cleanup_select e ret dead disc limit (rows db)).
  assert (NoDup sel) as Hnd.
  { apply skip_locked_limit_nodup. rewrite merge_sort_Permutation. apply NoDup_fst_matched. }
  assert (list_to_set sel ⊆ dom (rows db)) as Hsub.
  { intros id Hid%elem_of_list_to_set. apply elem_of_cleanup_select in Hid as (_ & r & Hr & _).
    apply elem_of_dom. eauto. }
  assert (dom (filter (λ ir, ir.1 ∉ sel) (rows db)) = dom (rows db) ∖ list_to_set sel) as Hdom.
  { apply set_eq. intros id. rewrite elem_of_difference, elem_of_list_to_set, !elem_of_dom.
    unfold is_Some. setoid_rewrite map_lookup_filter_Some. simpl. naive_solver. }
  assert (Z.of_nat (size (rows db)) - Z.of_nat (size (filter (λ ir, ir.1 ∉ sel) (rows db)))
          = Z.of_nat (length sel)) as Hsize.
  { rewrite <-!size_dom, Hdom, size_difference by done. rewrite (size_list_to_set sel) by done.
    apply subseteq_size in Hsub. rewrite (size_list_to_set sel) in Hsub by done. lia. }
  split_and!.
  - lia.
  - rewrite Hsize. by apply skip_locked_limit_length.
  - done.
  - intros id r Hr. destruct (decide (id ∈ sel)) as [Hin|Hout].
    + right. destruct (elem_of_cleanup_select _ _ _ _ _ _ _ Hin) as (? & r' & ? & ?). simplify_eq.
      split_and!; try done. apply map_lookup_filter_None. right. naive_solver.
    + left. apply map_lookup_filter_Some. naive_solver.
  - intros id Hn. apply map_lookup_filter_None. by left.
  - intros id r [Hr Hout]%map_lookup_filter_Some Hrm Hlk. rewrite Hsize.
    split; [by eapply cleanup_select_full|]. intros id0 r0 Hr0 Hgone. apply cleanup_order_ended.
    assert (id0 ∈ sel) as Hin.
    { apply dec_stable. intros Hn. assert (filter (λ ir, ir.1 ∉ sel) (rows db) !! id0 = Some r0) by
        (by apply map_lookup_filter_Some). congruence. }
    by eapply cleanup_select_prio.
Qed.

(** C28. Cleanup deletes only published rows whose [published_at] and dead or
    discarded rows whose [finished_at] is older than that state's retention, and
    only where that retention is positive; no pending, processing or locked row,
    and at most the batch size.  It keeps every other row as it is, reports how
    many it deleted, and leaves an unlocked row past its retention behind only
    when it deleted a full batch, all of rows that ended before it. *)
Theorem cleanup_spec e ret dead disc limit db :
  0 ≤ limit →
  ∃ d, exec_cleanup e ret dead disc limit db = SqlOk d ∧
    0 ≤ d_affected d ≤ limit ∧
    d_affected d = Z.of_nat (size (rows db)) - Z.of_nat (size (rows (d_db d))) ∧
    (∀ id r, rows db !! id = Some r →
       rows (d_db d) !! id = Some r ∨
       (rows (d_db d) !! id = None ∧ id ∉ e_locked e ∧ past_retention (e_now e) ret dead disc r)) ∧
    (∀ id, rows db !! id = None → rows (d_db d) !! id = None) ∧
    (∀ id r, rows (d_db d) !! id = Some r → past_retention (e_now e) ret dead disc r →
       id ∉ e_locked e → d_affected d = limit ∧
       ∀ id0 r0, rows db !! id0 = Some r0 → rows (d_db d) !! id0 = None → ended_before (id0, r0) (id, r)).
Proof.
  intros Hl. destruct (cleanup_facts e ret dead disc limit db Hl) as (d & E & Hle & Haff & Hrow & Hnone & Hfull).
  exists d. setoid_rewrite <-removable_spec. split; [done|]. split; [exact Hle|]. by repeat (split; [assumption|]).
Qed.
End Specs.
