(* ===== verification/Transactions.v ===== *)
(** * The callers' transactions

    [Enqueue] and [Requeue] run on an executor bound to the caller's business
    transaction: their rows become visible when it commits.  This file has the
    transactions of any number of callers beside the statements of relays and
    cleaners, which commit on their own, under PostgreSQL's READ COMMITTED: each
    statement sees the committed table under its own transaction's writes, rows
    written by an open transaction are locked, and a statement that would write
    such a row waits. *)

From stdpp Require Import relations.
From S2P Require Import Prelude Outcome Message Backoff Config Postgres Store System Safety StoreSpec.

Open Scope string_scope.
Open Scope Z_scope.

(** An open transaction: its start, which is now() for all its statements, the
    rows it wrote, whether it has a notification to send, and whether a statement
    of it failed on the server, after which it can only roll back. *)
Record Tx : Type := mkTx {
  x_start : time;
  x_own : gmap string Row;
  x_note : bool;
  x_failed : bool
}.

(** The committed state and the open transactions, numbered as they begin. *)
Record TxSys : Type := mkTxSys {
  t_sys : Sys;
  t_open : gmap nat Tx;
  t_next : nat
}.

Definition committed (T : TxSys) : Db := s_db (t_sys T).

(** The rows written by a set of open transactions. *)
Definition held_by (open : gmap nat Tx) : gset string :=
  map_fold (λ _ tx ids, dom (x_own tx) ∪ ids) ∅ open.

(** What a statement of transaction [tx] sees. *)
Definition view (db : Db) (tx : Tx) : Db := with_rows db (x_own tx ∪ rows db).

(** The rows a statement inserted or moved to another state. *)
Definition writes (db db' : Db) : gmap string Row :=
  filter (λ ir, status <$> rows db !! ir.1 ≠ Some (status ir.2)) (rows db').

(** The commands a caller's transaction is assumed to send; [TxCalls.v] shows that
    those of [Enqueue] and [Requeue] are among them. *)
Definition caller_cmd (c : Cmd) : bool :=
  match c with CEnqueue _ _ | CRequeue _ => true | _ => false end.

(** What happens next: a transaction begins, sends a statement, commits or rolls
    back, or a statement runs in a transaction of its own. *)
Inductive Act : Type :=
| Begin (c : time)
| InTx (x : nat) (e : StmtEnv) (st : Stmt)
| Commit (x : nat) (c : time)
| Rollback (x : nat)
| Auto (e : StmtEnv) (st : Stmt).

Definition at_clock (s : Sys) (c : time) : Sys := mkSys (s_db s) c (s_used s).
Definition with_db (s : Sys) (db : Db) (c : time) : Sys :=
  mkSys db c (s_used s ∪ table_tokens (rows db)).

Section Transactions.
Context `{Postgres}.

(** One action, if it can happen now; a statement that would write a row some
    other open transaction wrote has to wait.  A sequence is not transactional:
    the numbers a statement drew stay drawn.  A transaction sends its equal
    notifications once. *)
Definition tx_exec (T : TxSys) (a : Act) : option TxSys :=
  let s := t_sys T in
  match a with
  | Begin c => Some (mkTxSys (at_clock s c) (<[t_next T := mkTx c ∅ false false]> (t_open T)) (S (t_next T)))
  | InTx x e st =>
      tx ← t_open T !! x;
      if x_failed tx then None
      else
        match exec_stmt e st (view (committed T) tx) with
        | SqlErr code =>
            Some (mkTxSys (at_clock s (e_clk e))
                    (<[x := mkTx (x_start tx) (x_own tx) (x_note tx) (negb (String.eqb code too_many_params))]> (t_open T))
                    (t_next T))
        | SqlOk d =>
            let w := writes (view (committed T) tx) (d_db d) in
            if decide (dom w ## held_by (delete x (t_open T))) then
              let db := committed T in
              Some (mkTxSys
                      (mkSys (mkDb (table_name db) (rows db) (next_seq (d_db d)) (notified db)) (e_clk e) (s_used s))
                      (<[x := mkTx (x_start tx) (w ∪ x_own tx)
                                (x_note tx || (notified db <? notified (d_db d))%nat) false]> (t_open T))
                      (t_next T))
            else None
        end
  | Commit x c =>
      tx ← t_open T !! x;
      if x_failed tx then Some (mkTxSys (at_clock s c) (delete x (t_open T)) (t_next T))
      else
        let v := view (committed T) tx in
        Some (mkTxSys
                (with_db s (mkDb (table_name v) (rows v) (next_seq v)
                              ((if x_note tx then 1 else 0) + notified v)%nat) c)
                (delete x (t_open T)) (t_next T))
  | Rollback x => Some (mkTxSys s (delete x (t_open T)) (t_next T))
  | Auto e st =>
      let db := after_stmt e st (committed T) in
      if decide (dom (writes (committed T) db) ## held_by (t_open T)) then
        Some (mkTxSys (with_db s db (e_clk e)) (t_open T) (t_next T))
      else None
  end.

(** What the server and the library see to. *)
Definition act_ok (T : TxSys) (a : Act) : Prop :=
  let clock := s_clock (t_sys T) in
  match a with
  | Begin c => clock ≤ c
  | InTx x e st =>
      env_ok e ∧ clock ≤ e_clk e ∧ issued (st_cmd st) ∧ caller_cmd (st_cmd st) = true ∧
      (∀ tx, t_open T !! x = Some tx → e_now e = x_start tx)
  | Commit x c => clock ≤ c
  | Rollback x => True
  | Auto e st =>
      env_ok e ∧ clock ≤ e_clk e ∧ issued (st_cmd st) ∧ (∀ id, e_token e id ∉ s_used (t_sys T)) ∧
      held_by (t_open T) ⊆ e_locked e
  end.

Inductive tx_step (T T' : TxSys) : Prop :=
| tx_act a : act_ok T a → tx_exec T a = Some T' → tx_step T T'.

(** ** Locks and writes *)

Lemma elem_of_held open id :
  id ∈ held_by open ↔ ∃ x tx, open !! x = Some tx ∧ is_Some (x_own tx !! id).
Proof.
  unfold held_by. induction open as [|x tx open Hx IH] using map_ind.
  - rewrite map_fold_empty, elem_of_empty. split; [done|]. intros (x & tx & Hl & _). by rewrite lookup_empty in Hl.
  - rewrite map_fold_insert_L by (set_solver || done). rewrite elem_of_union, elem_of_dom, IH. split.
    + intros [?|(y & ty & Hy & ?)]; [exists x, tx; by rewrite lookup_insert_eq|].
      exists y, ty. rewrite lookup_insert_ne by congruence. done.
    + intros (y & ty & [[-> ->]|[_ Hy]]%lookup_insert_Some & ?); [by left|right; eauto].
Qed.

Lemma lookup_writes db db' id r' :
  writes db db' !! id = Some r' ↔
  rows db' !! id = Some r' ∧ ∀ r, rows db !! id = Some r → status r ≠ status r'.
Proof.
  unfold writes. rewrite map_lookup_filter_Some. simpl. split; intros [Hr Hs]; (split; [done|]).
  - intros r Hr0 E. apply Hs. by rewrite Hr0, <-E.
  - destruct (rows db !! id) as [r|]; [|done]. simpl. intros [= E]. by apply (Hs r).
Qed.

(** What a statement of a caller does to a row it sees. *)
Lemma caller_row_step e db st d id :
  issued (st_cmd st) → caller_cmd (st_cmd st) = true → exec_stmt e st db = SqlOk d →
  rows (d_db d) !! id = rows db !! id ∨
  (∃ m k, rows db !! id = None ∧ next_seq db ≤ k ∧ rows (d_db d) !! id = Some (enqueued_row (e_now e) m k)) ∨
  (∃ r, rows db !! id = Some r ∧ status r = StatusDead ∧ rows (d_db d) !! id = Some (requeue_row e r)).
Proof.
  intros Hiss Hc Hex. pose proof (exec_row_step e st db d id Hiss Hex) as Hs.
  remember (st_cmd st) as c eqn:Ec. remember (rows db !! id) as o1 eqn:E1. remember (rows (d_db d) !! id) as o2 eqn:E2.
  destruct Hs; try done.
  - by left.
  - right; left. by exists m, k.
  - right; right. by exists r.
Qed.

Lemma caller_writes e db st d :
  issued (st_cmd st) → caller_cmd (st_cmd st) = true → exec_stmt e st db = SqlOk d →
  rows (d_db d) = writes db (d_db d) ∪ rows db.
Proof.
  intros Hiss Hc Hex. apply map_eq. intros id. rewrite lookup_union.
  destruct (writes db (d_db d) !! id) as [r'|] eqn:Hw.
  - apply lookup_writes in Hw as [-> _]. by destruct (rows db !! id).
  - rewrite (left_id_L None union).
    destruct (caller_row_step e db st d id Hiss Hc Hex) as [?|[(m & k & Hn & _ & Hr)|(r & Hr0 & Hst & Hr)]]; [done| |];
      exfalso; apply (eq_None_not_Some (writes db (d_db d) !! id)); try done; eexists; apply lookup_writes;
      (split; [exact Hr|]); intros r1 Hr1; [congruence|]. simplify_eq. by rewrite Hst.
Qed.

(** ** Well-formed states *)

(** A row an open transaction wrote: a pending one the others do not see, or the
    new version of a dead row. *)
Record own_ok (db : Db) (id : string) (row : Row) : Prop := {
  own_wf : wf_row id row;
  own_seq : seq row < next_seq db;
  own_pending : status row = StatusPending ∧ attempts row = 0;
  own_origin : match rows db !! id with
               | None => ∀ j r, rows db !! j = Some r → seq r ≠ seq row
               | Some r => status r = StatusDead ∧ descends r row
               end
}.

Record tx_ok (T : TxSys) : Prop := {
  ok_db : wf_db (committed T);
  ok_start : ∀ x tx, t_open T !! x = Some tx → x_start tx ≤ s_clock (t_sys T) ∧ (x < t_next T)%nat;
  ok_own : ∀ x tx id row, t_open T !! x = Some tx → x_own tx !! id = Some row → own_ok (committed T) id row;
  ok_ids : ∀ x y tx ty id, t_open T !! x = Some tx → t_open T !! y = Some ty →
    is_Some (x_own tx !! id) → is_Some (x_own ty !! id) → x = y;
  ok_seqs : ∀ x y tx ty i j r r', t_open T !! x = Some tx → t_open T !! y = Some ty →
    x_own tx !! i = Some r → x_own ty !! j = Some r' → seq r = seq r' → i = j
}.

(** Another row's number is never that of a row of an open transaction. *)
Lemma own_seq_committed db id row j r :
  wf_db db → own_ok db id row → rows db !! j = Some r → seq r = seq row → j = id.
Proof.
  intros Hwf Ho Hj Hs. pose proof (own_origin _ _ _ Ho) as Hor. destruct (rows db !! id) as [r0|] eqn:Hr0.
  - destruct Hor as [_ [[] _ _]]. eapply (wf_seq_inj _ Hwf j id); [done..|congruence].
  - by destruct (Hor j r Hj).
Qed.

Lemma view_wf T x tx : tx_ok T → t_open T !! x = Some tx → wf_db (view (committed T) tx).
Proof.
  intros Hok Hx. pose proof (ok_db _ Hok) as Hwf.
  assert (∀ id r, rows (view (committed T) tx) !! id = Some r →
            x_own tx !! id = Some r ∨ rows (committed T) !! id = Some r) as Hcase.
  { intros id r [?|[_ ?]]%lookup_union_Some_raw; auto. }
  split.
  - intros id r [Hr|Hr]%Hcase; [by apply (own_wf _ _ _ (ok_own _ Hok _ _ _ _ Hx Hr))|by apply (wf_rows _ Hwf)].
  - intros id r [Hr|Hr]%Hcase; [by apply (own_seq _ _ _ (ok_own _ Hok _ _ _ _ Hx Hr))|by apply (wf_seq_lt _ Hwf) in Hr].
  - intros i j r r' [Hi|Hi]%Hcase [Hj|Hj]%Hcase Hs.
    + by apply (ok_seqs _ Hok x x tx tx i j r r').
    + symmetry. eapply own_seq_committed; [done|by eapply ok_own|exact Hj|done].
    + eapply own_seq_committed; [done|by eapply ok_own|exact Hi|done].
    + by eapply (wf_seq_inj _ Hwf).
Qed.

Lemma next_seq_mono e st db d :
  issued (st_cmd st) → exec_stmt e st db = SqlOk d → next_seq db ≤ next_seq (d_db d).
Proof. intros Hiss Hex. by eapply exec_stmt_frame in Hex as [_ ?]. Qed.

Lemma after_next_seq e st db : issued (st_cmd st) → next_seq db ≤ next_seq (after_stmt e st db).
Proof.
  intros Hiss. unfold after_stmt. destruct (exec_stmt e st db) eqn:E; [by eapply next_seq_mono|lia].
Qed.

Lemma after_wf e st db : env_ok e → issued (st_cmd st) → wf_db db → wf_db (after_stmt e st db).
Proof.
  intros. unfold after_stmt. destruct (exec_stmt e st db) eqn:E; [by eapply stmt_keeps_wf|done].
Qed.

(** *** A statement of a transaction *)

Lemma requeue_descends e r : status r = StatusDead → descends r (requeue_row e r).
Proof. intros Hs. split; [by split|by left|]. unfold settled. by rewrite Hs. Qed.

(** What a statement of a caller writes under the eyes of its transaction. *)
Lemma written_own_ok T x tx e st d id row :
  tx_ok T → env_ok e → t_open T !! x = Some tx → issued (st_cmd st) → caller_cmd (st_cmd st) = true →
  exec_stmt e st (view (committed T) tx) = SqlOk d → writes (view (committed T) tx) (d_db d) !! id = Some row →
  (rows (committed T) !! id = None ∧ next_seq (committed T) ≤ seq row ∧ status row = StatusPending ∧ attempts row = 0) ∨
  (∃ r, rows (committed T) !! id = Some r ∧ status r = StatusDead ∧ row = requeue_row e r).
Proof.
  intros Hok He Hx Hiss Hc Hex [Hrow Hne]%lookup_writes.
  destruct (caller_row_step e _ st d id Hiss Hc Hex) as [Hsame|[(m & k & Hn & Hk & Hr)|(r & Hr0 & Hst & Hr)]].
  - rewrite Hsame in Hrow. by destruct (Hne row).
  - left. rewrite Hr in Hrow. injection Hrow as <-. simpl in *. split_and!; try done.
    by apply lookup_union_None in Hn as [_ ?].
  - right. exists r. rewrite Hr in Hrow. injection Hrow as <-. split_and!; try done.
    apply lookup_union_Some_raw in Hr0 as [Ho|[_ ?]]; [|done].
    destruct (own_pending _ _ _ (ok_own _ Hok _ _ _ _ Hx Ho)). congruence.
Qed.

Definition after_in_tx (T : TxSys) (x : nat) (tx : Tx) (e : StmtEnv) (d : Done) : TxSys :=
  let db := committed T in
  mkTxSys (mkSys (mkDb (table_name db) (rows db) (next_seq (d_db d)) (notified db)) (e_clk e) (s_used (t_sys T)))
    (<[x := mkTx (x_start tx) (writes (view db tx) (d_db d) ∪ x_own tx)
              (x_note tx || (notified db <? notified (d_db d))%nat) false]> (t_open T))
    (t_next T).

Section InTx.
Context (T : TxSys) (x : nat) (tx : Tx) (e : StmtEnv) (st : Stmt) (d : Done).
Hypothesis Hok : tx_ok T.
Hypothesis He : env_ok e.
Hypothesis Hx : t_open T !! x = Some tx.
Hypothesis Hiss : issued (st_cmd st).
Hypothesis Hc : caller_cmd (st_cmd st) = true.
Hypothesis Hex : exec_stmt e st (view (committed T) tx) = SqlOk d.

Let w := writes (view (committed T) tx) (d_db d).

Lemma in_tx_view_wf : wf_db (d_db d).
Proof. eapply stmt_keeps_wf; [done..|by eapply view_wf|done]. Qed.

Lemma in_tx_view id row : (w ∪ x_own tx) !! id = Some row → rows (d_db d) !! id = Some row.
Proof.
  intros Hr. rewrite (caller_writes _ _ _ _ Hiss Hc Hex). fold w.
  apply lookup_union_Some_raw in Hr as [Hr|[Hn Hr]]; [by apply lookup_union_Some_l|].
  rewrite lookup_union_r by done. by apply lookup_union_Some_l.
Qed.

(** A row the transaction has now: one it had, or one the statement wrote. *)
Lemma in_tx_cases id row :
  (w ∪ x_own tx) !! id = Some row →
  x_own tx !! id = Some row ∨
  (rows (committed T) !! id = None ∧ next_seq (committed T) ≤ seq row ∧ status row = StatusPending ∧ attempts row = 0) ∨
  (∃ r, rows (committed T) !! id = Some r ∧ status r = StatusDead ∧ row = requeue_row e r).
Proof.
  intros [Hr|[_ Hr]]%lookup_union_Some_raw; [right|by left]. by apply (written_own_ok T x tx e st d).
Qed.

Lemma in_tx_own id row :
  (w ∪ x_own tx) !! id = Some row → own_ok (committed (after_in_tx T x tx e d)) id row.
Proof.
  intros Hr. pose proof (in_tx_view _ _ Hr) as Hr'. split.
  - by apply (wf_rows _ in_tx_view_wf).
  - simpl. by apply (wf_seq_lt _ in_tx_view_wf) in Hr'.
  - apply in_tx_cases in Hr as [Hr|[(_ & _ & ? & ?)|(r & _ & _ & ->)]]; [|by split..].
    by apply (own_pending _ _ _ (ok_own _ Hok _ _ _ _ Hx Hr)).
  - simpl. apply in_tx_cases in Hr as [Hr|[(-> & Hk & _)|(r & -> & Hst & ->)]].
    + by apply (own_origin _ _ _ (ok_own _ Hok _ _ _ _ Hx Hr)).
    + intros j r Hj%(wf_seq_lt _ (ok_db _ Hok)). lia.
    + split; [done|by apply requeue_descends].
Qed.

(** Against the other open transactions. *)
Lemma in_tx_ids y ty id :
  dom w ## held_by (delete x (t_open T)) → y ≠ x → t_open T !! y = Some ty →
  is_Some ((w ∪ x_own tx) !! id) → is_Some (x_own ty !! id) → False.
Proof.
  intros Hdisj Hne Hy [row [Hr|[_ Hr]]%lookup_union_Some_raw] Hty.
  - apply (Hdisj id); [by apply elem_of_dom_2 in Hr|]. apply elem_of_held. exists y, ty.
    by rewrite lookup_delete_ne.
  - apply Hne. by eapply (ok_ids _ Hok).
Qed.

Lemma in_tx_seqs y ty i j r r' :
  t_open T !! y = Some ty → (w ∪ x_own tx) !! i = Some r → x_own ty !! j = Some r' → seq r = seq r' → i = j.
Proof.
  intros Hy Hi Hj Hs. pose proof (ok_own _ Hok _ _ _ _ Hy Hj) as Hoj.
  apply in_tx_cases in Hi as [Hi|[(_ & Hk & _)|(r0 & Hr0 & _ & ->)]].
  - by eapply (ok_seqs _ Hok x y).
  - pose proof (own_seq _ _ _ Hoj). lia.
  - by eapply (own_seq_committed _ _ _ _ _ (ok_db _ Hok) Hoj).
Qed.

Lemma in_tx_ok :
  s_clock (t_sys T) ≤ e_clk e → dom w ## held_by (delete x (t_open T)) → tx_ok (after_in_tx T x tx e d).
Proof.
  intros Hclk Hdisj. pose proof (next_seq_mono _ _ _ _ Hiss Hex) as Hseq. simpl in Hseq.
  assert (∀ y ty, t_open (after_in_tx T x tx e d) !! y = Some ty →
            (y = x ∧ x_own ty = w ∪ x_own tx ∧ x_start ty = x_start tx) ∨ (y ≠ x ∧ t_open T !! y = Some ty)) as Hopen.
  { simpl. intros y ty [[<- <-]|[Hne ?]]%lookup_insert_Some; [by left|right; auto]. }
  split.
  - destruct (ok_db _ Hok) as [Hr Hl Hi]. split; [done| |done]. intros id r Hr0%Hl. simpl. lia.
  - intros y ty Hy. simpl. apply Hopen in Hy as [(-> & _ & ->)|[_ Hy]];
      [destruct (ok_start _ Hok _ _ Hx)|destruct (ok_start _ Hok _ _ Hy)]; (split; [lia|done]).
  - intros y ty id row [(-> & -> & _)|[_ Hy]]%Hopen Hr; [by apply in_tx_own|].
    destruct (ok_own _ Hok _ _ _ _ Hy Hr) as [? ? ? ?]. split; try done. simpl. lia.
  - intros y z ty tz id [(-> & Hoy & _)|[Hny Hy]]%Hopen [(-> & Hoz & _)|[Hnz Hz]]%Hopen H1 H2; try done.
    + rewrite Hoy in H1. by destruct (in_tx_ids z tz id).
    + rewrite Hoz in H2. by destruct (in_tx_ids y ty id).
    + by eapply (ok_ids _ Hok).
  - intros y z ty tz i j r r' [(-> & -> & _)|[Hny Hy]]%Hopen [(-> & -> & _)|[Hnz Hz]]%Hopen H1 H2 Hs.
    + apply (wf_seq_inj _ in_tx_view_wf i j r r'); [by apply in_tx_view..|done].
    + by eapply (in_tx_seqs z).
    + symmetry. by eapply (in_tx_seqs y).
    + by eapply (ok_seqs _ Hok y z).
Qed.
End InTx.

(** *** Commits and statements of their own *)

Lemma view_lookup db tx id : rows (view db tx) !! id = or_else (x_own tx !! id) (rows db !! id).
Proof. simpl. rewrite lookup_union. by destruct (x_own tx !! id), (rows db !! id). Qed.

(** Transactions that begin, fail or end, while the table stays. *)
Lemma recast_ok T c open n :
  tx_ok T → s_clock (t_sys T) ≤ c → (t_next T ≤ n)%nat →
  (∀ y ty, open !! y = Some ty →
     (x_own ty = ∅ ∧ x_start ty ≤ c ∧ (y < n)%nat) ∨
     ∃ ty', t_open T !! y = Some ty' ∧ x_own ty = x_own ty' ∧ x_start ty = x_start ty') →
  tx_ok (mkTxSys (at_clock (t_sys T) c) open n).
Proof.
  intros [Hdb Hst Hown Hids Hseqs] Hc Hn Hopen. split; simpl; [done|..].
  - intros y ty [(_ & ? & ?)|(ty' & Hy & _ & ->)]%Hopen; [done|]. destruct (Hst _ _ Hy). split; lia.
  - intros y ty id row [(-> & _)|(ty' & Hy & -> & _)]%Hopen Hr; [by rewrite lookup_empty in Hr|by eapply Hown].
  - intros y z ty tz id [(-> & _)|(ty' & Hy & -> & _)]%Hopen [(-> & _)|(tz' & Hz & -> & _)]%Hopen H1 H2;
      try (rewrite lookup_empty in H1; by destruct H1); [rewrite lookup_empty in H2; by destruct H2|by eapply Hids].
  - intros y z ty tz i j r r' [(-> & _)|(ty' & Hy & -> & _)]%Hopen [(-> & _)|(tz' & Hz & -> & _)]%Hopen H1 H2 Hs;
      try by rewrite lookup_empty in H1. 1: by rewrite lookup_empty in H2. by eapply (Hseqs y z).
Qed.

Lemma fewer_ok T c open :
  tx_ok T → s_clock (t_sys T) ≤ c → open ⊆ t_open T → tx_ok (mkTxSys (at_clock (t_sys T) c) open (t_next T)).
Proof.
  intros Hok Hc Hsub. apply recast_ok; [done..|]. intros y ty Hy. right. exists ty.
  split; [by eapply lookup_weaken|done].
Qed.

(** A new committed table under which the rows of the open transactions are still
    what they were. *)
Lemma committed_ok T db c u open :
  tx_ok T → s_clock (t_sys T) ≤ c → open ⊆ t_open T → wf_db db → next_seq (committed T) ≤ next_seq db →
  (∀ id, id ∈ held_by open → rows db !! id = rows (committed T) !! id) →
  (∀ j r, rows db !! j = Some r → (∃ r0, rows (committed T) !! j = Some r0 ∧ seq r0 = seq r) ∨
     next_seq (committed T) ≤ seq r ∨
     ∃ x tx, t_open T !! x = Some tx ∧ open !! x = None ∧ x_own tx !! j = Some r) →
  tx_ok (mkTxSys (mkSys db c u) open (t_next T)).
Proof.
  intros Hok Hc Hsub Hwf Hseq Hheld Hrows.
  pose proof (fewer_ok T c open Hok Hc Hsub) as [_ Hst _ Hids Hseqs].
  split; simpl in *; [done|exact Hst| |exact Hids|exact Hseqs].
  intros x tx id row Hx Hr. pose proof (lookup_weaken _ _ _ _ Hx Hsub) as Hx'.
  pose proof (ok_own _ Hok _ _ _ _ Hx' Hr) as [Hw Hs Hp Hor].
  assert (rows db !! id = rows (committed T) !! id) as Hsame.
  { apply Hheld, elem_of_held. exists x, tx. split; [done|by eexists]. }
  split; [done|unfold committed in *; simpl; lia|done|]. unfold committed at 1. simpl. rewrite Hsame. destruct (rows (committed T) !! id) as [r0|]; [done|].
  intros j r Hj. destruct (Hrows j r Hj) as [(r0 & Hr0 & <-)|[Hk|(y & ty & Hy & Hn & Ho)]]; [by eapply Hor|lia|].
  intros E. assert (j = id) as -> by by apply (ok_seqs _ Hok y x ty tx j id r row).
  assert (y = x) as -> by (by eapply (ok_ids _ Hok y x)). congruence.
Qed.

Lemma commit_ok T x tx c n u :
  tx_ok T → s_clock (t_sys T) ≤ c → t_open T !! x = Some tx →
  let v := view (committed T) tx in
  tx_ok (mkTxSys (mkSys (mkDb (table_name v) (rows v) (next_seq v) n) c u) (delete x (t_open T)) (t_next T)).
Proof.
  intros Hok Hc Hx v. apply committed_ok; [done|done|apply delete_subseteq| |done| |].
  - destruct (view_wf _ _ _ Hok Hx). by split.
  - intros id (y & ty & [Hne Hy]%lookup_delete_Some & Ho)%elem_of_held.
    change (rows v !! id = rows (committed T) !! id). unfold v. rewrite view_lookup.
    destruct (x_own tx !! id) eqn:E; [|done]. destruct Hne. by eapply (ok_ids _ Hok x y).
  - intros j r Hj. change (rows v !! j = Some r) in Hj. unfold v in Hj. rewrite view_lookup in Hj.
    destruct (x_own tx !! j) as [r0|] eqn:E; simpl in Hj; [|by left; eauto].
    injection Hj as ->. right; right. exists x, tx. by rewrite lookup_delete_eq.
Qed.

(** A statement in a transaction of its own leaves the rows of open transactions
    alone: claims and cleanups skip them, completions find them not processing,
    and whoever would write one waits. *)
Lemma auto_held T e st id :
  tx_ok T → issued (st_cmd st) → held_by (t_open T) ⊆ e_locked e →
  dom (writes (committed T) (after_stmt e st (committed T))) ## held_by (t_open T) →
  id ∈ held_by (t_open T) → rows (after_stmt e st (committed T)) !! id = rows (committed T) !! id.
Proof.
  intros Hok Hiss Hlk Hdisj Hid. set (db := committed T) in *. unfold after_stmt in *.
  destruct (exec_stmt e st db) as [d|] eqn:Hex; [|done].
  assert (∀ r', rows (d_db d) !! id = Some r' → (∀ r, rows db !! id = Some r → status r ≠ status r') → False) as Hw.
  { intros r' Hr' Hs. apply (Hdisj id); [|done].
    assert (writes db (d_db d) !! id = Some r') as E by by apply lookup_writes. by apply elem_of_dom_2 in E. }
  assert (∀ r, rows db !! id = Some r → status r = StatusDead) as Hdead.
  { intros r Hr. apply elem_of_held in Hid as (x & tx & Hx & [row Hrow]).
    pose proof (own_origin _ _ _ (ok_own _ Hok _ _ _ _ Hx Hrow)) as Ho. fold db in Ho. rewrite Hr in Ho. by destruct Ho. }
  pose proof (exec_row_step e st db d id Hiss Hex) as Hs.
  remember (st_cmd st) as cmd eqn:Ec. remember (rows db !! id) as o1 eqn:E1. remember (rows (d_db d) !! id) as o2 eqn:E2.
  destruct Hs as [| |? ? ? ? r _ Hsel|? ? ? ? r _ Hl|? ? ? ? ? ? ? ? r _ _ Hl|? r _ Hst|ret dead disc limit r Hrm];
    [done|..]; exfalso.
  - eapply Hw; [reflexivity|]. done.
  - apply elem_of_claim_select in Hsel as (Hnl & _). by apply Hnl, Hlk.
  - apply live_claim_spec in Hl as (_ & Hp & _). by rewrite (Hdead r) in Hp.
  - apply live_claim_spec in Hl as (_ & Hp & _). by rewrite (Hdead r) in Hp.
  - eapply Hw; [reflexivity|]. simpl. intros r0 [= ->]. by rewrite Hst.
  - revert Hex. unfold exec_stmt. destruct (String.eqb _ _); [|done]. rewrite <-Ec. unfold exec_cleanup.
    destruct (limit <? 0); [done|]. intros [= <-]. simpl in E2. symmetry in E2.
    rewrite map_lookup_filter in E2. fold db in E1. rewrite <-E1 in E2. simpl in E2.
    case_guard as Hin; [done|].
    apply elem_of_cleanup_select in Hin as (Hnl & _). by apply Hnl, Hlk.
Qed.

Lemma auto_ok T e st u :
  tx_ok T → env_ok e → s_clock (t_sys T) ≤ e_clk e → issued (st_cmd st) → held_by (t_open T) ⊆ e_locked e →
  dom (writes (committed T) (after_stmt e st (committed T))) ## held_by (t_open T) →
  tx_ok (mkTxSys (mkSys (after_stmt e st (committed T)) (e_clk e) u) (t_open T) (t_next T)).
Proof.
  intros Hok He Hc Hiss Hlk Hdisj. apply committed_ok; try done.
  - by apply after_wf, ok_db.
  - by apply after_next_seq.
  - intros id. by apply auto_held.
  - intros j r Hj. pose proof (after_stmt_row_step e st (committed T) j Hiss) as Hs. rewrite Hj in Hs.
    destruct (rows (committed T) !! j) as [r0|] eqn:Hr0.
    + left. exists r0. split; [done|]. by apply row_step_origin in Hs as [].
    + right; left. by inversion Hs; subst.
Qed.

Lemma tx_exec_ok T a T' : act_ok T a → tx_exec T a = Some T' → tx_ok T → tx_ok T'.
Proof.
  intros Ha Hex Hok. destruct a as [c|x e st|x c|x|e st]; simpl in *.
  - injection Hex as <-. apply recast_ok; [done|done|lia|].
    intros y ty [[<- <-]|[_ ?]]%lookup_insert_Some; [left|right; by exists ty]. simpl. split_and!; [done|lia..].
  - destruct (t_open T !! x) as [tx|] eqn:Hx; [|done]. simpl in Hex.
    destruct Ha as (He & Hc & Hiss & Hcall & _). destruct (x_failed tx); [done|].
    destruct (exec_stmt _ _ _) as [d|code] eqn:Ed.
    + case_decide as Hd; [|done]. injection Hex as <-. by apply (in_tx_ok T x tx e st d).
    + injection Hex as <-. apply recast_ok; [done|done|lia|]. intros y ty [[<- <-]|[_ ?]]%lookup_insert_Some; right; eauto.
  - destruct (t_open T !! x) as [tx|] eqn:Hx; [|done]. simpl in Hex. destruct (x_failed tx); injection Hex as <-.
    + apply fewer_ok; [done|done|apply delete_subseteq].
    + by apply commit_ok.
  - injection Hex as <-. destruct T as [[db clk used] open n]. apply (fewer_ok (mkTxSys (mkSys db clk used) open n) clk);
      [done|simpl; lia|apply delete_subseteq].
  - case_decide as Hd; [|done]. injection Hex as <-. destruct Ha as (He & Hc & Hiss & _ & Hlk). by apply auto_ok.
Qed.

Lemma tx_reachable_ok T T' : rtc tx_step T T' → tx_ok T → tx_ok T'.
Proof. induction 1 as [|T1 T2 T3 [a Ha Hex] _ IH]; [done|]. intros Hok. apply IH. by eapply tx_exec_ok. Qed.

(** A table without open transactions. *)
Lemma quiet_ok T : wf_db (committed T) → t_open T = ∅ → tx_ok T.
Proof. intros Hwf Ho. split; [done|..]; intros *; rewrite Ho, lookup_empty; done. Qed.

(** C13. Isolation: whatever callers, relays and cleaners do, the committed table
    stays well formed, and what an open transaction wrote stays its own: a
    message it enqueued is no row of the committed table, under its id or any
    other, so no relay can claim it; a row it requeued is still the dead row. *)
Theorem open_writes_isolated T T' :
  rtc tx_step T T' → wf_db (committed T) → t_open T = ∅ →
  wf_db (committed T') ∧
  ∀ x tx id row, t_open T' !! x = Some tx → x_own tx !! id = Some row →
    match rows (committed T') !! id with
    | None => ∀ j r, rows (committed T') !! j = Some r → seq r ≠ seq row
    | Some r => status r = StatusDead ∧ seq r = seq row
    end.
Proof.
  intros Hrun Hwf Ho. pose proof (tx_reachable_ok _ _ Hrun (quiet_ok _ Hwf Ho)) as Hok.
  split; [apply Hok|]. intros x tx id row Hx Hr. pose proof (own_origin _ _ _ (ok_own _ Hok _ _ _ _ Hx Hr)) as Hor.
  destruct (rows (committed T') !! id) as [r|]; [|done]. destruct Hor as [? [[] _ _]]. done.
Qed.

(** ** All or nothing *)

(** The message with sequence number [k] is somewhere: committed or in an open
    transaction. *)
Definition present (T : TxSys) (k : Z) : Prop :=
  (∃ j r, rows (committed T) !! j = Some r ∧ seq r = k) ∨
  (∃ x tx j r, t_open T !! x = Some tx ∧ x_own tx !! j = Some r ∧ seq r = k).

Lemma present_step T a T' :
  act_ok T a → tx_exec T a = Some T' → tx_ok T →
  next_seq (committed T) ≤ next_seq (committed T') ∧
  ∀ k, present T' k → present T k ∨ next_seq (committed T) ≤ k.
Proof.
  intros Ha Hex Hok. destruct a as [c|x e st|x c|x|e st]; simpl in *.
  - injection Hex as <-. split; [done|]. unfold present at 1. cbn [t_open]. intros k [?|(y & ty & j & r & [[<- <-]|[_ Hy]]%lookup_insert_Some & Hr & <-)];
      [by left; left|simpl in Hr; by rewrite lookup_empty in Hr|left; right; naive_solver].
  - destruct (t_open T !! x) as [tx|] eqn:Hx; [|done]. simpl in Hex.
    destruct Ha as (He & Hc & Hiss & Hcall & _). destruct (x_failed tx); [done|].
    destruct (exec_stmt _ _ _) as [d|code] eqn:Ed.
    + case_decide as Hd; [|done]. injection Hex as <-. split; [by apply next_seq_mono in Ed|]. unfold present at 1. cbn [t_open].
      intros k [?|(y & ty & j & r & [[<- <-]|[_ Hy]]%lookup_insert_Some & Hr & <-)];
        [by left; left| |left; right; naive_solver]. simpl in Hr.
      apply lookup_union_Some_raw in Hr as [Hr|[_ Hr]]; [|left; right; naive_solver].
      apply (written_own_ok T x tx e st d) in Hr as [(_ & ? & _)|(r0 & ? & _ & ->)]; [by right| |done..].
      left; left. by exists j, r0.
    + injection Hex as <-. split; [done|]. unfold present at 1. cbn [t_open].
      intros k [?|(y & ty & j & r & [[<- <-]|[_ Hy]]%lookup_insert_Some & Hr & <-)]; left;
        [by left|right; by exists x, tx, j, r|right; naive_solver].
  - destruct (t_open T !! x) as [tx|] eqn:Hx; [|done]. simpl in Hex. destruct (x_failed tx); injection Hex as <-;
      (split; [done|]); unfold present at 1; cbn [t_open]; intros k [(j & r & Hj & <-)|(y & ty & j & r & [_ Hy]%lookup_delete_Some & Hr & <-)]; left;
      try (right; naive_solver); [left; naive_solver|].
    change (rows (view (committed T) tx) !! j = Some r) in Hj. rewrite view_lookup in Hj.
    destruct (x_own tx !! j) as [r0|] eqn:Ho; simpl in Hj; [right|left; by exists j, r].
    exists x, tx, j, r0. split_and!; [done..|congruence].
  - injection Hex as <-. split; [done|]. unfold present at 1. cbn [t_open].
    intros k [?|(y & ty & j & r & [_ Hy]%lookup_delete_Some & Hr & <-)]; left; [by left|right; naive_solver].
  - case_decide as Hd; [|done]. injection Hex as <-. destruct Ha as (He & Hc & Hiss & _ & Hlk).
    split; [by apply after_next_seq|]. unfold present at 1. cbn [t_open]. intros k [(j & r & Hj & <-)|?]; [|by left; right].
    pose proof (after_stmt_row_step e st (committed T) j Hiss) as Hs. unfold committed in Hj at 1. simpl in Hj.
    rewrite Hj in Hs. destruct (rows (committed T) !! j) as [r0|] eqn:Hr0.
    + left; left. exists j, r0. split; [done|]. by apply row_step_origin in Hs as [].
    + right. by inversion Hs; subst.
Qed.

(** A message that is nowhere, under a number already drawn, never turns up. *)
Lemma gone_forever T T' k :
  rtc tx_step T T' → tx_ok T → k < next_seq (committed T) → ¬ present T k → ¬ present T' k.
Proof.
  induction 1 as [|T1 T2 T3 [a Ha Hex] _ IH]; [done|]. intros Hok Hk Hn.
  destruct (present_step _ _ _ Ha Hex Hok) as [Hle Hp]. apply IH; [by eapply tx_exec_ok|lia|].
  intros [?|?]%Hp; [done|lia].
Qed.

(** How an open transaction goes on: it keeps what it wrote, or it ends by
    committing all of it, or by dropping all of it. *)
Lemma tx_goes_on T a T' x tx :
  act_ok T a → tx_exec T a = Some T' → tx_ok T → t_open T !! x = Some tx →
  (∃ tx', t_open T' !! x = Some tx' ∧ x_own tx ⊆ x_own tx') ∨
  (t_open T' !! x = None ∧
   (rows (committed T') = x_own tx ∪ rows (committed T) ∨
    (committed T' = committed T ∧ t_open T' = delete x (t_open T)))).
Proof.
  intros Ha Hex Hok Hx. destruct a as [c|y e st|y c|y|e st]; simpl in *.
  - injection Hex as <-. left. exists tx. simpl. rewrite lookup_insert_ne; [done|].
    destruct (ok_start _ Hok _ _ Hx). lia.
  - destruct (t_open T !! y) as [ty|] eqn:Hy; [|done]. simpl in Hex.
    destruct Ha as (He & Hc & Hiss & Hcall & _). destruct (x_failed ty); [done|].
    destruct (decide (y = x)) as [->|Hne].
    + assert (ty = tx) as -> by congruence. clear Hy. left. destruct (exec_stmt _ _ _) as [d|code] eqn:Ed; [case_decide as Hd; [|done]|];
        injection Hex as <-; eexists; (split; [simpl; by rewrite lookup_insert_eq|]); simpl; [|done].
      apply map_union_subseteq_r, map_disjoint_spec. intros id r r' Hw Ho.
      destruct (own_pending _ _ _ (ok_own _ Hok _ _ _ _ Hx Ho)) as [Hp _].
      apply (written_own_ok T x tx e st d) in Hw as Hc'; [|done..]. apply lookup_writes in Hw as [Hr Hst].
      specialize (Hst r'). rewrite view_lookup, Ho, Hp in Hst.
      destruct Hc' as [(_ & _ & E & _)|(r0 & _ & _ & ->)]; [rewrite E in Hst|]; by apply Hst.
    + left. exists tx. destruct (exec_stmt _ _ _) as [d|code] eqn:Ed; [case_decide as Hd; [|done]|];
        injection Hex as <-; simpl; by rewrite lookup_insert_ne.
  - destruct (t_open T !! y) as [ty|] eqn:Hy; [|done]. simpl in Hex. destruct (decide (y = x)) as [->|Hne].
    + assert (ty = tx) as -> by congruence. right. destruct (x_failed tx); injection Hex as <-; simpl; rewrite lookup_delete_eq; auto.
    + left. exists tx. destruct (x_failed ty); injection Hex as <-; simpl; by rewrite lookup_delete_ne.
  - injection Hex as <-. simpl. destruct (decide (y = x)) as [->|Hne].
    + right. rewrite lookup_delete_eq. auto.
    + left. exists tx. by rewrite lookup_delete_ne.
  - case_decide as Hd; [|done]. injection Hex as <-. left. by exists tx.
Qed.

(** A transaction that is rolled back takes its messages with it. *)
Lemma rolled_back T T' x tx id row :
  tx_ok T → t_open T !! x = Some tx → x_own tx !! id = Some row → rows (committed T) !! id = None →
  committed T' = committed T → t_open T' = delete x (t_open T) → ¬ present T' (seq row).
Proof.
  intros Hok Hx Hr Hn Hdb Hop. pose proof (ok_own _ Hok _ _ _ _ Hx Hr) as [_ _ _ Hor]. rewrite Hn in Hor.
  intros [(j & r & Hj & Hs)|(y & ty & j & r & Hy & Hj & Hs)].
  - rewrite Hdb in Hj. by eapply Hor.
  - rewrite Hop in Hy. apply lookup_delete_Some in Hy as [Hne Hy]. apply Hne.
    assert (id = j) as <- by by apply (ok_seqs _ Hok x y tx ty id j row r).
    by eapply (ok_ids _ Hok x y tx ty id).
Qed.

(** From [T1] on, transaction [x] ends whole: a run in which it is no longer open
    has one step that ended it, which committed every row it ever wrote, with those
    it had written in [tx1], or none; and then no row with the sequence number of a
    message it enqueued ever exists. *)
Definition ends_whole (x : nat) (T1 : TxSys) (tx1 : Tx) : Prop :=
  ∀ T2, rtc tx_step T1 T2 → t_open T2 !! x = None →
  ∃ Ta Tb tx, rtc tx_step T1 Ta ∧ tx_step Ta Tb ∧ rtc tx_step Tb T2 ∧
    t_open Ta !! x = Some tx ∧ x_own tx1 ⊆ x_own tx ∧
    (rows (committed Tb) = x_own tx ∪ rows (committed Ta) ∨
     (rows (committed Tb) = rows (committed Ta) ∧
      ∀ id row, x_own tx !! id = Some row → rows (committed Ta) !! id = None →
      ∀ j r, rows (committed T2) !! j = Some r → seq r ≠ seq row)).

Lemma transaction_whole x T1 tx1 : tx_ok T1 → t_open T1 !! x = Some tx1 → ends_whole x T1 tx1.
Proof.
  intros Hok Hx T2 H12 Hn. revert tx1 Hok Hx Hn.
  induction H12 as [T|T1 T T2 Hstep H2 IH]; intros tx1 Hok Hx Hn; [congruence|].
  pose proof Hstep as [a Ha Hex].
  destruct (tx_goes_on _ _ _ _ _ Ha Hex Hok Hx) as [(tx' & Hx' & Hsub)|(Hx' & Hend)].
  - destruct (IH tx') as (Ta & Tb & tx & HTa & Hab & HTb & Hxa & Hsub' & Hend); [by eapply tx_exec_ok|done..|].
    exists Ta, Tb, tx. split_and!; [by eapply rtc_l|done..|by etrans|done].
  - exists T1, T, tx1. split_and!; [apply rtc_refl|done..|]. destruct Hend as [?|[Hdb Hop]]; [by left|].
    right. split; [by rewrite Hdb|]. intros id row Hr Hnone j r Hj Hs.
    apply (gone_forever T T2 (seq row)); [done|by eapply tx_exec_ok| |by eapply rolled_back|left; by exists j, r].
    rewrite Hdb. by apply (own_seq _ _ _ (ok_own _ Hok _ _ _ _ Hx Hr)).
Qed.

(** ** Ordered mode *)

(** Actions of an all-ordered deployment whose transactions commit in the order
    of their keys' rows: a message becomes visible only behind the rows of its
    key that are. *)
Definition in_order (T : TxSys) (a : Act) : Prop :=
  match a with
  | Auto e st => ordered_env e st (committed T)
  | Commit x _ => ∀ tx id row j r k, t_open T !! x = Some tx → x_own tx !! id = Some row →
      rows (committed T) !! id = None → rows (committed T) !! j = Some r →
      partition_key row = Some k → partition_key r = Some k → before row r = false
  | _ => True
  end.

Inductive ordered_tx_step (T T' : TxSys) : Prop :=
| ordered_tx_act a : act_ok T a → in_order T a → tx_exec T a = Some T' → ordered_tx_step T T'.

Lemma commit_key_order T x c tx :
  tx_ok T → in_order T (Commit x c) → t_open T !! x = Some tx →
  key_order (committed T) → key_order (view (committed T) tx).
Proof.
  intros Hok Hord Hx Hk i j r1 r2 k H1 H2 K1 K2 Hb Hatt. rewrite view_lookup in H1, H2.
  destruct (x_own tx !! j) as [o2|] eqn:E2; simpl in H2.
  { destruct (own_pending _ _ _ (ok_own _ Hok _ _ _ _ Hx E2)). simplify_eq. lia. }
  destruct (x_own tx !! i) as [o1|] eqn:E1; simpl in H1; [|by eapply Hk]. injection H1 as ->.
  pose proof (own_origin _ _ _ (ok_own _ Hok _ _ _ _ Hx E1)) as Hor.
  destruct (rows (committed T) !! i) as [r0|] eqn:E0.
  - destruct Hor as [Hdead [Hso _ _]].
    assert (settled r0 = true) as Hs.
    { apply (Hk i j r0 r2 k); [done|done|by rewrite <-(so_key _ _ Hso)|done| |done].
      by rewrite (before_origin r0 r2 r1 r2 Hso ltac:(done)) in Hb. }
    unfold settled in Hs. by rewrite Hdead in Hs.
  - simpl in Hord. by rewrite (Hord tx i r1 j r2 k) in Hb.
Qed.

Lemma ordered_tx_run T T' :
  rtc ordered_tx_step T T' → tx_ok T → key_order (committed T) → tx_ok T' ∧ key_order (committed T').
Proof.
  induction 1 as [|T1 T2 T3 [a Ha Hord Hex] _ IH]; [done|]. intros Hok Hk.
  apply IH; [by eapply tx_exec_ok|]. clear IH. destruct a as [c|x e st|x c|x|e st]; simpl in Hex.
  - by injection Hex as <-.
  - destruct (t_open T1 !! x) as [tx|]; [|done]. simpl in Hex. destruct (x_failed tx); [done|].
    destruct (exec_stmt _ _ _); [case_decide; [|done]|]; by injection Hex as <-.
  - destruct (t_open T1 !! x) as [tx|] eqn:Hx; [|done]. simpl in Hex. destruct (x_failed tx); injection Hex as <-; [done|].
    by apply (commit_key_order T1 x c tx).
  - by injection Hex as <-.
  - case_decide; [|done]. injection Hex as <-. destruct Ha as (_ & _ & Hiss & _).
    apply key_order_step; [done|done|by apply ok_db|done].
Qed.

(** C11. Ordered delivery across transactions: when every claim is ordered and
    the transactions of a key commit in the order of their rows, then whatever
    else overlaps or rolls back, a row that was ever claimed has all earlier
    rows of its key published or discarded, and no two rows of a key are being
    processed at once. *)
Theorem ordered_transactions T T' :
  rtc ordered_tx_step T T' → wf_db (committed T) → t_open T = ∅ → key_order (committed T) →
  key_order (committed T') ∧
  ∀ i j r1 r2 k, rows (committed T') !! i = Some r1 → rows (committed T') !! j = Some r2 →
    partition_key r1 = Some k → partition_key r2 = Some k →
    status r1 = StatusProcessing → status r2 = StatusProcessing → i = j.
Proof.
  intros Hrun Hwf Ho Hk. destruct (ordered_tx_run _ _ Hrun (quiet_ok _ Hwf Ho) Hk) as [Hok' Hk'].
  split; [done|]. by apply key_order_exclusive; [apply Hok'|].
Qed.

(** Actions of a deployment where every claim is ordered, and nothing is said
    about the order of commits. *)
Inductive ordered_claims_step (T T' : TxSys) : Prop :=
| ordered_claims_act a :
    act_ok T a →
    (∀ e st o inst lease limit, a = Auto e st → st_cmd st = CClaim o inst lease limit → o = true) →
    tx_exec T a = Some T' → ordered_claims_step T T'.
End Transactions.
