(* ===== verification/TxSafety.v ===== *)
(** * Safety across transactions

    The guarantees of [Safety.v] for single statements, carried over whole runs
    of [Transactions.v]: leases, fencing and the fate of a row while callers'
    transactions overlap the statements of relays and cleaners, commit and roll
    back. *)

From stdpp Require Import relations.
From S2P Require Import Prelude Outcome Message Backoff Config Postgres Store System Safety StoreSpec Transactions.

Open Scope string_scope.
Open Scope Z_scope.

Section TxSafety.
Context `{Postgres}.

(** States a deployment gets to: its table was well formed and at rest once. *)
Definition reached (T : TxSys) : Prop :=
  ∃ T0, wf_db (committed T0) ∧ t_open T0 = ∅ ∧ rtc tx_step T0 T.

Lemma reached_ok T : reached T → tx_ok T.
Proof. intros (T0 & Hwf & Ho & Hrun). by eapply tx_reachable_ok; [|apply quiet_ok]. Qed.

(** What an action does to the committed row of an id. *)
Inductive row_act (T : TxSys) (id : string) : Act → option Row → option Row → Prop :=
| ra_same a o : row_act T id a o o
| ra_auto e st o o' : issued (st_cmd st) → row_step e (committed T) id (st_cmd st) o o' → row_act T id (Auto e st) o o'
| ra_commit x c tx row :
    t_open T !! x = Some tx → x_own tx !! id = Some row → own_ok (committed T) id row →
    row_act T id (Commit x c) (rows (committed T) !! id) (Some row).

Lemma tx_exec_row T a T' id :
  act_ok T a → tx_exec T a = Some T' → tx_ok T →
  row_act T id a (rows (committed T) !! id) (rows (committed T') !! id).
Proof.
  intros Ha Hex Hok. destruct a as [c|x e st|x c|x|e st]; simpl in Hex.
  - injection Hex as <-. constructor.
  - destruct (t_open T !! x) as [tx|]; [|done]. simpl in Hex. destruct (x_failed tx); [done|].
    destruct (exec_stmt _ _ _); [case_decide; [|done]|]; injection Hex as <-; constructor.
  - destruct (t_open T !! x) as [tx|] eqn:Hx; [|done]. simpl in Hex. destruct (x_failed tx); injection Hex as <-; [constructor|].
    change (rows (committed (mkTxSys _ _ _)) !! id) with (rows (view (committed T) tx) !! id). rewrite view_lookup.
    destruct (x_own tx !! id) as [row|] eqn:Ho; simpl; [|constructor].
    by eapply ra_commit, ok_own.
  - injection Hex as <-. constructor.
  - case_decide; [|done]. injection Hex as <-. destruct Ha as (_ & _ & Hiss & _).
    apply ra_auto; [done|]. by apply after_stmt_row_step.
Qed.

(** The clock and the tokens ever drawn only grow. *)
Lemma tx_exec_mono T a T' :
  act_ok T a → tx_exec T a = Some T' →
  s_clock (t_sys T) ≤ s_clock (t_sys T') ∧ s_used (t_sys T) ⊆ s_used (t_sys T').
Proof.
  intros Ha Hex. destruct a as [c|x e st|x c|x|e st]; simpl in *.
  - by injection Hex as <-.
  - destruct (t_open T !! x) as [tx|]; [|done]. simpl in Hex. destruct (x_failed tx); [done|].
    destruct Ha as (_ & ? & _).
    destruct (exec_stmt _ _ _); [case_decide; [|done]|]; injection Hex as <-; by simpl.
  - destruct (t_open T !! x) as [tx|]; [|done]. simpl in Hex.
    destruct (x_failed tx); injection Hex as <-; simpl; [done|]. split; [done|set_solver].
  - injection Hex as <-. simpl. split; [lia|done].
  - case_decide; [|done]. injection Hex as <-. destruct Ha as (_ & ? & _). simpl. split; [done|set_solver].
Qed.

(** ** Leases *)

(** The action presents the token [t] for the row [id]. *)
Definition presented (a : Act) (id t : string) : Prop :=
  match a with Auto _ st => presents (st_cmd st) id t | _ => False end.

Inductive unpresented_step (id t : string) (T T' : TxSys) : Prop :=
| unpresented_act a : act_ok T a → ¬ presented a id t → tx_exec T a = Some T' → unpresented_step id t T T'.

Lemma unpresented_keeps id t T T' r u :
  tx_ok T → unpresented_step id t T T' → rows (committed T) !! id = Some r →
  status r = StatusProcessing → lease_token r = Some t → locked_until r = Some u → s_clock (t_sys T') < u →
  rows (committed T') !! id = Some r.
Proof.
  intros Hok [a Ha Hnp Hex] Hr Hst Ht Hu Hclk.
  destruct a as [c|x e st|x c|x|e st].
  5: { simpl in Hex. case_decide; [|done]. injection Hex as <-. destruct Ha as (He & _ & Hiss & _).
       change (rows (after_stmt e st (committed T)) !! id = Some r). unfold after_stmt.
       destruct (exec_stmt e st (committed T)) as [d|] eqn:Ed; [|done].
       by destruct (live_lease_exclusive e st (committed T) d id r t u). }
  all: pose proof (tx_exec_row _ _ _ id Ha Hex Hok) as Hs; rewrite Hr in Hs; inversion Hs as [| |? ? tx row Hx Ho Hown]; subst;
    try done.
  all: pose proof (own_origin _ _ _ Hown) as Hor; rewrite Hr in Hor; destruct Hor as [Hd _]; congruence.
Qed.

Lemma unpresented_tx_step id t T T' : unpresented_step id t T T' → tx_step T T'.
Proof. intros [a ? _ ?]. by econstructor. Qed.

Lemma unpresented_clock id t T T' :
  rtc (unpresented_step id t) T T' → s_clock (t_sys T) ≤ s_clock (t_sys T').
Proof.
  induction 1 as [|T1 T2 T3 [a Ha _ Hex] _ IH]; [done|]. pose proof (tx_exec_mono _ _ _ Ha Hex). lia.
Qed.

(** C1. Exclusive leases: from a claim until its lease runs out on the server's
    clock, whatever relays, cleaners and callers' transactions do, and however
    these overlap, the row stays exactly as the claim left it, unless somebody
    sends a renewal or a completion with the claim's own token: no other relay
    claims it, no cleanup removes it, no requeue and no commit replaces it. *)
Theorem lease_exclusive T T' id r t u :
  reached T → rows (committed T) !! id = Some r → status r = StatusProcessing →
  lease_token r = Some t → locked_until r = Some u →
  rtc (unpresented_step id t) T T' → s_clock (t_sys T') < u →
  rows (committed T') !! id = Some r.
Proof.
  intros Hok%reached_ok Hr Hst Ht Hu Hrun Hclk.
  induction Hrun as [|T1 T2 T3 H12 H23 IH]; [done|].
  pose proof (unpresented_clock _ _ _ _ H23).
  apply IH; [|apply (unpresented_keeps id t T1 T2 r u); [done..|lia]|done].
  apply unpresented_tx_step in H12 as [a ? ?]. by eapply tx_exec_ok.
Qed.

Lemma unheld_step T a T' id tok :
  act_ok T a → tx_exec T a = Some T' → tx_ok T →
  tok ∈ s_used (t_sys T) → ¬ held (t_sys T) id tok → ¬ held (t_sys T') id tok.
Proof.
  intros Ha Hex Hok Hin Hnot (r' & Hr' & Ht).
  pose proof (tx_exec_row _ _ _ id Ha Hex Hok) as Hs. unfold committed in Hs at 2. rewrite Hr' in Hs.
  apply Hnot. unfold held. inversion Hs as [|e st o o' Hiss Hst|? ? tx row Hx Ho Hown]; subst.
  - by exists r'.
  - destruct Ha as (_ & _ & _ & Hfresh & _). inversion Hst; subst; simplify_eq/=; eauto. by destruct (Hfresh id).
  - pose proof (wf_state _ _ (own_wf _ _ _ Hown)) as Hu. unfold state_columns in Hu.
    rewrite (proj1 (own_pending _ _ _ Hown)) in Hu. destruct Hu as ((_ & _ & Hn) & _). congruence.
Qed.

(** C5. A token that lost its row never gets it back: once [tok] has been drawn
    and [id] is not claimed under it, then after any run, commits of overlapping
    transactions included, a renewal or completion that presents only [tok] for
    [id] leaves the row exactly as it is, whatever claims, requeues and deletions
    happened since. *)
Theorem lost_token_fenced T T' T'' id tok e st :
  reached T → tok ∈ s_used (t_sys T) → ¬ held (t_sys T) id tok → rtc tx_step T T' →
  act_ok T' (Auto e st) → tx_exec T' (Auto e st) = Some T'' →
  (∃ ids tokens lease, st_cmd st = CRenew ids tokens lease) ∨
  (∃ ids tokens st' reason delay clear, st_cmd st = CFinish ids tokens st' reason delay clear) →
  (∀ t, presents (st_cmd st) id t → t = tok) →
  rows (committed T'') !! id = rows (committed T') !! id.
Proof.
  intros Hok%reached_ok Hin Hnot Hrun Ha Hex Hkind Hpres.
  assert (¬ held (t_sys T') id tok) as Hnot'.
  { clear Ha Hex. induction Hrun as [|T1 T2 T3 [a Ha Hex] _ IH]; [done|].
    apply IH; [by eapply tx_exec_ok| |by eapply unheld_step]. apply (tx_exec_mono _ _ _ Ha Hex), Hin. }
  pose proof (tx_reachable_ok _ _ Hrun Hok) as Hok'.
  destruct Ha as (_ & _ & Hiss & _). simpl in Hex. case_decide; [|done]. injection Hex as <-.
  change (rows (after_stmt e st (committed T')) !! id = rows (committed T') !! id). unfold after_stmt.
  destruct (exec_stmt e st (committed T')) as [d|] eqn:Ed; [|done].
  destruct (rows (committed T') !! id) as [r|] eqn:Hr.
  - eapply stale_keys_frame; try done. intros t u Hp _ Ht _.
    destruct Hnot'. exists r. by rewrite <-(Hpres t Hp).
  - pose proof (exec_row_step e st _ d id Hiss Ed) as Hs. rewrite Hr in Hs.
    destruct Hkind as [(? & ? & ? & E)|(? & ? & ? & ? & ? & ? & E)]; rewrite E in Hs; by inversion Hs.
Qed.

(** ** The fate of a row *)

(** The command is a cleanup, and the row is in a terminal state whose own
    retention is switched on and ran out before [now]. *)
Definition retention_over (c : Cmd) (now : time) (r : Row) : Prop :=
  ∃ ret dead disc limit ts keep,
    c = CCleanup ret dead disc limit ∧ 0 < keep ∧ ts < now - interval_us keep ∧
    ((status r = StatusPublished ∧ keep = ret ∧ published_at r = Some ts) ∨
     (status r = StatusDead ∧ keep = dead ∧ finished_at r = Some ts) ∨
     (status r = StatusDiscarded ∧ keep = disc ∧ finished_at r = Some ts)).

Lemma act_descends T a T' id r r' :
  act_ok T a → tx_exec T a = Some T' → tx_ok T →
  rows (committed T) !! id = Some r → rows (committed T') !! id = Some r' → descends r r'.
Proof.
  intros Ha Hex Hok Hr Hr'. pose proof (tx_exec_row _ _ _ id Ha Hex Hok) as Hs. rewrite Hr, Hr' in Hs.
  inversion Hs as [|? ? ? ? _ Hst|? ? tx row Hx Ho Hown]; subst; [reflexivity|by eapply row_step_descends|].
  pose proof (own_origin _ _ _ Hown) as Hor. rewrite Hr in Hor. by destruct Hor.
Qed.

(** An action that removes a row: a cleanup, of a row no open transaction has a
    new version of, so its number is gone with it. *)
Lemma act_removes T a T' id r :
  act_ok T a → tx_exec T a = Some T' → tx_ok T →
  rows (committed T) !! id = Some r → rows (committed T') !! id = None →
  (∃ e st, a = Auto e st ∧ retention_over (st_cmd st) (e_now e) r) ∧
  seq r < next_seq (committed T') ∧ ¬ present T' (seq r).
Proof.
  intros Ha Hex Hok Hr Hn. pose proof (tx_exec_row _ _ _ id Ha Hex Hok) as Hs. rewrite Hr, Hn in Hs.
  inversion Hs as [|e st o o' Hiss Hst|]; subst. clear Hs Hst. split.
  { exists e, st. split; [done|]. simpl in Hex. case_decide; [|done]. injection Hex as <-.
    change (rows (after_stmt e st (committed T)) !! id = None) in Hn. unfold after_stmt in Hn.
    destruct (exec_stmt e st (committed T)) as [d|] eqn:Ed; [|congruence].
    by apply (row_removed_only_expired e st (committed T) d id). }
  destruct (present_step _ _ _ Ha Hex Hok) as [Hle _].
  pose proof (wf_seq_lt _ (ok_db _ Hok) _ _ Hr) as Hlt. split; [lia|].
  destruct Ha as (He & Hc & _ & _ & Hlk). simpl in Hex. case_decide as Hd; [|done]. injection Hex as <-.
  change (rows (after_stmt e st (committed T)) !! id = None) in Hn.
  intros [(j & r' & Hj & Hseq)|(x & tx & j & row & Hx & Hj & Hseq)].
  - change (rows (after_stmt e st (committed T)) !! j = Some r') in Hj.
    pose proof (after_stmt_row_step e st (committed T) j Hiss) as Hs. rewrite Hj in Hs.
    destruct (rows (committed T) !! j) as [r0|] eqn:Hr0; [|inversion Hs; subst; simpl in *; lia].
    apply row_step_origin in Hs as [].
    assert (id = j) as <- by (eapply (wf_seq_inj _ (ok_db _ Hok)); [done..|congruence]). congruence.
  - simpl in Hx. assert (id = j) as <-.
    { eapply own_seq_committed; [by apply ok_db|by eapply ok_own|done|done]. }
    rewrite (auto_held T e st id) in Hn; [congruence|done..|]. apply elem_of_held. by exists x, tx.
Qed.

(** C18. No message is lost or altered: after any run, transactions included,
    the row of a committed message is still there with the topic, key, types,
    limit and place in the order it was enqueued with, with its payload and
    headers too until it is published or discarded, and unchanged since then; or
    a cleanup removed it, when it was published, dead or discarded and the
    retention configured for that state had run out; and then no row with its
    sequence number ever exists again, so it is not delivered again. *)
Theorem message_kept_or_expired T T' id r :
  reached T → rtc tx_step T T' → rows (committed T) !! id = Some r →
  (∃ r', rows (committed T') !! id = Some r' ∧ descends r r') ∨
  (∃ Ta Tb e st r1, rtc tx_step T Ta ∧ act_ok Ta (Auto e st) ∧ tx_exec Ta (Auto e st) = Some Tb ∧ rtc tx_step Tb T' ∧
     rows (committed Ta) !! id = Some r1 ∧ descends r r1 ∧ retention_over (st_cmd st) (e_now e) r1 ∧
     ∀ j r', rows (committed T') !! j = Some r' → seq r' ≠ seq r).
Proof.
  intros Hok%reached_ok Hrun. revert r Hok.
  induction Hrun as [T|T1 T2 T3 [a Ha Hex] H23 IH]; intros r Hok Hr.
  { left. exists r. by split. }
  pose proof (tx_exec_ok _ _ _ Ha Hex Hok) as Hok2.
  destruct (rows (committed T2) !! id) as [r2|] eqn:Hr2.
  - pose proof (act_descends _ _ _ _ _ _ Ha Hex Hok Hr Hr2) as Hd.
    destruct (IH r2 Hok2 eq_refl) as [(r' & ? & ?)|(Ta & Tb & e & st & r1 & Hpre & ? & ? & ? & ? & ? & ? & Hgone)].
    + left. exists r'. split; [done|by etrans].
    + right. exists Ta, Tb, e, st, r1. split_and!; try done; [by eapply rtc_l; [econstructor|]|by etrans|].
      destruct Hd as [[] _ _]. intros j r' Hj. specialize (Hgone j r' Hj). congruence.
  - destruct (act_removes _ _ _ _ _ Ha Hex Hok Hr Hr2) as ((e & st & -> & Hret) & Hlt & Hnp).
    right. exists T1, T2, e, st, r. split_and!; try done.
    intros j r' Hj Hseq. apply (gone_forever T2 T3 (seq r)); [done..|]. left. by exists j, r'.
Qed.
End TxSafety.
