(* ===== verification/Snapshot.v ===== *)
(** * Statements and their snapshots

    Elsewhere a statement sees one table.  Under PostgreSQL's READ COMMITTED it
    does not: it looks for rows, and its subqueries look for others, in the table
    as it was committed when the statement began; a row that was changed meanwhile
    is checked again on its new version, and written if that still passes.  Claims
    and cleanups lock their rows one by one, skipping those that are locked or
    gone.  This file has those statements, over the committed tables of two
    moments, and shows that each is one of the statements the rest of the library
    reasons about. *)

From stdpp Require Import relations.
From S2P Require Import Prelude Outcome Message Backoff Config Postgres Store System Safety StoreSpec Transactions TxSafety.

Open Scope string_scope.
Open Scope Z_scope.

Section Snapshot.
Context `{Postgres}.

(** ** Claims and cleanups *)

(** Candidate [ir] of the snapshot when its turn comes: no other transaction holds
    it, the same row is still there, and its version of now, out of [cur], passes
    the WHERE clause [p], whose subqueries still read the snapshot. *)
Definition lockable (e : StmtEnv) (p : Row → bool) (cur : gmap string Row) (ir : string * Row) : bool :=
  bool_decide (ir.1 ∉ e_locked e) &&
  match cur !! ir.1 with Some r => (seq r =? seq ir.2) && p r | None => false end.

(** [ORDER BY order FOR UPDATE SKIP LOCKED LIMIT limit] *)
Definition snapshot_pick (e : StmtEnv) (order : relation (string * Row)) `{∀ a b, Decision (order a b)}
    (p : Row → bool) (limit : Z) (t0 cur : gmap string Row) : list string :=
  take (Z.to_nat limit)
    (map fst (filter (λ ir, lockable e p cur ir = true) (merge_sort order (matched (λ _ r, p r) t0)))).

Definition snapshot_claim (e : StmtEnv) (ordered : bool) (limit : Z) (t0 cur : gmap string Row) : list string :=
  snapshot_pick e claim_order (claimable (e_now e) ordered t0) limit t0 cur.
Definition snapshot_cleanup (e : StmtEnv) (ret dead disc : duration) (limit : Z) (t0 cur : gmap string Row) : list string :=
  snapshot_pick e cleanup_order (removable (e_now e) ret dead disc) limit t0 cur.

(** The UPDATE of the selected rows. *)
Definition claim_selected (e : StmtEnv) (sel : list string) (instance : string) (lease : duration) (db : Db) : sql_res :=
  if negb (text_in instance) then SqlErr "22000"
  else if forallb (λ ir, int4_ok (ir.2.(attempts) + 1)) (matched (λ id _, bool_decide (id ∈ sel)) db.(rows))
  then SqlOk (run_update db (λ id _, bool_decide (id ∈ sel)) (claim_row e instance lease))
  else SqlErr "22003".

Definition delete_selected (sel : list string) (db : Db) : sql_res :=
  let left := filter (λ ir, ir.1 ∉ sel) db.(rows) in
  SqlOk (mkDone (with_rows db left) [] (Z.of_nat (size db.(rows)) - Z.of_nat (size left))).

Definition claim_on_snapshot (e : StmtEnv) (ordered : bool) (instance : string) (lease : duration) (limit : Z)
    (t0 cur : gmap string Row) (db : Db) : sql_res :=
  if limit <? 0 then SqlErr "2201W"
  else claim_selected e (snapshot_claim e ordered limit t0 cur) instance lease db.

Definition cleanup_on_snapshot (e : StmtEnv) (ret dead disc : duration) (limit : Z)
    (t0 cur : gmap string Row) (db : Db) : sql_res :=
  if limit <? 0 then SqlErr "2201W" else delete_selected (snapshot_cleanup e ret dead disc limit t0 cur) db.

Lemma exec_claim_selected e ordered inst lease limit db :
  0 ≤ limit → exec_claim e ordered inst lease limit db =
    claim_selected e (claim_select e ordered limit (rows db)) inst lease db.
Proof. intros Hl. unfold exec_claim. by rewrite (proj2 (Z.ltb_ge limit 0) Hl). Qed.

Lemma exec_cleanup_selected e ret dead disc limit db :
  0 ≤ limit → exec_cleanup e ret dead disc limit db =
    delete_selected (cleanup_select e ret dead disc limit (rows db)) db.
Proof. intros Hl. unfold exec_cleanup. by rewrite (proj2 (Z.ltb_ge limit 0) Hl). Qed.

(** Only which rows are written matters. *)
Lemma run_update_same db p q f :
  (∀ id r, rows db !! id = Some r → p id r = q id r) → run_update db p f = run_update db q f.
Proof.
  intros Hpq. unfold run_update.
  assert (matched p (rows db) = matched q (rows db)) as ->.
  { apply filter_iff_in. intros [id r] Hr%elem_of_map_to_list. simpl. by rewrite (Hpq id r). }
  assert (update_rows p f (rows db) = update_rows q f (rows db)) as ->; [|done].
  apply map_eq. intros id. rewrite !lookup_update_rows. destruct (rows db !! id) as [r|] eqn:Hr; [|done].
  simpl. by rewrite (Hpq id r).
Qed.

Lemma claim_selected_same e sel sel' inst lease db :
  (∀ id, id ∈ sel ↔ id ∈ sel') → claim_selected e sel inst lease db = claim_selected e sel' inst lease db.
Proof.
  intros Hs. assert (∀ id, bool_decide (id ∈ sel) = bool_decide (id ∈ sel')) as Hb by (intros; by apply bool_decide_ext).
  unfold claim_selected. rewrite (run_update_same _ _ (λ id _, bool_decide (id ∈ sel'))) by done.
  assert (matched (λ id _, bool_decide (id ∈ sel)) (rows db) = matched (λ id _, bool_decide (id ∈ sel')) (rows db)) as ->; [|done].
  apply filter_iff_in. intros. by rewrite Hb.
Qed.

Lemma delete_selected_same sel sel' db :
  (∀ id, id ∈ sel ↔ id ∈ sel') → delete_selected sel db = delete_selected sel' db.
Proof.
  intros Hs. unfold delete_selected.
  assert (filter (λ ir : string * Row, ir.1 ∉ sel) (rows db) = filter (λ ir : string * Row, ir.1 ∉ sel') (rows db)) as ->; [|done].
  apply map_filter_ext. intros id r _. simpl. by rewrite Hs.
Qed.

Section Pick.
Context (e : StmtEnv) (order : relation (string * Row)) `{!∀ a b, Decision (order a b)}.
Context (p : Row → bool) (limit : Z) (t0 cur : gmap string Row).

Lemma NoDup_snapshot_pick : NoDup (snapshot_pick e order p limit t0 cur).
Proof.
  unfold snapshot_pick. eapply sublist_NoDup; [|apply sublist_take]. apply NoDup_fst_filter.
  rewrite merge_sort_Permutation. apply NoDup_fst_matched.
Qed.

Lemma length_snapshot_pick : 0 ≤ limit → Z.of_nat (length (snapshot_pick e order p limit t0 cur)) ≤ limit.
Proof. intros. unfold snapshot_pick. rewrite length_take. lia. Qed.

Lemma elem_of_snapshot_pick id :
  id ∈ snapshot_pick e order p limit t0 cur →
  id ∉ e_locked e ∧ ∃ r0 r, t0 !! id = Some r0 ∧ cur !! id = Some r ∧ seq r = seq r0 ∧ p r = true.
Proof.
  unfold snapshot_pick. intros Hin%(subseteq_take (A:=string)).
  apply list_elem_of_In, in_map_iff in Hin as ([i r0] & <- & Hin%list_elem_of_In).
  apply list_elem_of_filter in Hin as [Hl Hin]. rewrite merge_sort_Permutation in Hin.
  apply elem_of_matched in Hin as [Hr0 _]. unfold lockable in Hl. simpl in *.
  apply andb_true_iff in Hl as [Hn%bool_decide_eq_true Hl]. destruct (cur !! i) as [r|]; [|done].
  apply andb_true_iff in Hl as [Hs%Z.eqb_eq Hc]. naive_solver.
Qed.
End Pick.

(** Nothing happened meanwhile: the plain selection. *)
Lemma pick_quiet e order `{!∀ a b, Decision (order a b)} p limit t :
  snapshot_pick e order p limit t t = skip_locked_limit (e_locked e) limit (merge_sort order (matched (λ _ r, p r) t)).
Proof.
  unfold snapshot_pick, skip_locked_limit. rewrite <-(filter_map_fst (λ id, id ∉ e_locked e)).
  do 2 f_equal. apply filter_iff_in. intros [id r]. rewrite merge_sort_Permutation. intros [Hr Hc]%elem_of_matched.
  unfold lockable. simpl. rewrite Hr, Z.eqb_refl, Hc, andb_true_r. apply bool_decide_eq_true.
Qed.

Lemma claim_snapshot_quiet e ordered inst lease limit db :
  claim_on_snapshot e ordered inst lease limit (rows db) (rows db) db = exec_claim e ordered inst lease limit db.
Proof.
  unfold claim_on_snapshot. destruct (limit <? 0) eqn:Hl; [unfold exec_claim; by rewrite Hl|].
  rewrite exec_claim_selected by by apply Z.ltb_ge. unfold snapshot_claim. by rewrite pick_quiet.
Qed.

(** ** The tables of two moments *)

Lemma run_descends T T' id r r' :
  tx_ok T → rtc tx_step T T' → rows (committed T) !! id = Some r → rows (committed T') !! id = Some r' →
  seq r' = seq r → descends r r'.
Proof.
  intros Hok Hrun. revert r Hok. induction Hrun as [T|T1 T2 T3 [a Ha Hex] H23 IH]; intros r Hok Hr Hr' Hs.
  { simplify_eq. reflexivity. }
  pose proof (tx_exec_ok _ _ _ Ha Hex Hok) as Hok2. destruct (rows (committed T2) !! id) as [r2|] eqn:Hr2.
  - pose proof (act_descends _ _ _ _ _ _ Ha Hex Hok Hr Hr2) as Hd. etrans; [exact Hd|].
    apply IH; [done..|]. destruct Hd as [[] _ _]. congruence.
  - destruct (act_removes _ _ _ _ _ Ha Hex Hok Hr Hr2) as (_ & Hlt & Hnp).
    destruct (gone_forever T2 T3 (seq r) H23 Hok2 Hlt Hnp). left. by exists id, r'.
Qed.

Lemma ordered_is_tx T T' : ordered_tx_step T T' → tx_step T T'.
Proof. intros [a ? _ ?]. by econstructor. Qed.

Lemma ordered_run_is_tx T T' : rtc ordered_tx_step T T' → rtc tx_step T T'.
Proof. induction 1; [done|]. eapply rtc_l; [by apply ordered_is_tx|done]. Qed.

(** A row that became visible in an ordered deployment is behind the rows of its
    key that were there. *)
Lemma newcomer_step T a T' i r j o k :
  tx_ok T → act_ok T a → in_order T a → tx_exec T a = Some T' →
  rows (committed T) !! i = None → rows (committed T') !! i = Some r →
  rows (committed T) !! j = Some o → partition_key r = Some k → partition_key o = Some k → before r o = false.
Proof.
  intros Hok Ha Hord Hex Hn Hr Hj Hkr Hko. pose proof (tx_exec_row _ _ _ i Ha Hex Hok) as Hs. rewrite Hn, Hr in Hs.
  inversion Hs as [|e st ? ? Hiss Hst|x c tx row Hx Ho Hown]; subst.
  - destruct Hord as [_ Hmono].
    inversion Hst as [|sql ms m n q ? ? ? ? ? Hq Hc| | | | |]; subst. apply before_false. simpl.
    pose proof (Hmono _ _ ltac:(by symmetry) _ _ Hj). pose proof (wf_seq_lt _ (ok_db _ Hok) _ _ Hj). lia.
  - by eapply Hord.
Qed.

Lemma newcomers_behind T T' i r j o o' k :
  tx_ok T → rtc ordered_tx_step T T' →
  (∀ r0, rows (committed T) !! i = Some r0 → seq r0 ≠ seq r) → rows (committed T') !! i = Some r →
  rows (committed T) !! j = Some o → rows (committed T') !! j = Some o' → seq o' = seq o →
  partition_key r = Some k → partition_key o' = Some k → before r o' = false.
Proof.
  intros Hok Hrun. revert o Hok. induction Hrun as [T|T1 T2 T3 [a Ha Hord Hex] H23 IH]; intros o Hok Hnew Hr Hj Hj' Hs Hkr Hko.
  { by destruct (Hnew r Hr). }
  pose proof (tx_exec_ok _ _ _ Ha Hex Hok) as Hok2. pose proof (ordered_run_is_tx _ _ H23) as H23'.
  destruct (rows (committed T2) !! j) as [o2|] eqn:Hj2.
  2: { destruct (act_removes _ _ _ _ _ Ha Hex Hok Hj Hj2) as (_ & Hlt & Hnp).
       destruct (gone_forever T2 T3 (seq o) H23' Hok2 Hlt Hnp). left. by exists j, o'. }
  pose proof (act_descends _ _ _ _ _ _ Ha Hex Hok Hj Hj2) as [[? Hk1 ? ? ? ? Hs1] _ _].
  destruct (rows (committed T2) !! i) as [r2|] eqn:Hr2; [destruct (decide (seq r2 = seq r)) as [E|Hne]|].
  - destruct (run_descends T2 T3 i r2 r Hok2 H23' Hr2 Hr ltac:(done)) as [Hor _ _].
    destruct (run_descends T2 T3 j o2 o' Hok2 H23' Hj2 Hj' ltac:(congruence)) as [Hoo _ _].
    rewrite (before_origin r2 o2 r o') by done.
    destruct (rows (committed T1) !! i) as [r1|] eqn:Hr1.
    + pose proof (act_descends _ _ _ _ _ _ Ha Hex Hok Hr1 Hr2) as [[] _ _]. destruct (Hnew r1 eq_refl). congruence.
    + rewrite (before_origin r2 o r2 o2); [|by split|by apply (act_descends T1 a T2 j)].
      apply (newcomer_step T1 a T2 i r2 j o k); try done; [by rewrite <-(so_key _ _ Hor)|].
      by rewrite <-Hk1, <-(so_key _ _ Hoo).
  - apply (IH o2); try done; [|congruence]. intros r0 [= <-]. done.
  - apply (IH o2); try done. congruence.
Qed.

Definition run_of (ordered : bool) : TxSys → TxSys → Prop := if ordered then rtc ordered_tx_step else rtc tx_step.

Lemma run_of_tx ordered T T' : run_of ordered T T' → rtc tx_step T T'.
Proof. destruct ordered; [apply ordered_run_is_tx|done]. Qed.

(** What was claimable under the snapshot still is. *)
Lemma still_claimable now ordered T0 T1 id r0 r :
  tx_ok T0 → run_of ordered T0 T1 →
  rows (committed T0) !! id = Some r0 → rows (committed T1) !! id = Some r → seq r = seq r0 →
  claimable now ordered (rows (committed T0)) r = true → claimable now ordered (rows (committed T1)) r = true.
Proof.
  intros Hok Hrun Hr0 Hr Hs (Hdue & Hst & Hb)%claimable_spec. apply claimable_spec. split_and!; [done..|].
  intros ->. specialize (Hb eq_refl). destruct (blocked (rows (committed T1)) r) eqn:Hbl; [|done].
  apply blocked_spec in Hbl as (i & e1 & k & He1 & Hk1 & Hk & Hbe & Hns). simpl in Hrun.
  rewrite <-Hb. symmetry. apply blocked_spec. destruct (rows (committed T0) !! i) as [e0|] eqn:He0.
  - destruct (decide (seq e1 = seq e0)) as [E|Hne].
    + destruct (run_descends T0 T1 i e0 e1 Hok (run_of_tx true _ _ Hrun) He0 He1 E) as [Ho _ Hf].
      exists i, e0, k. split_and!; [done|by rewrite <-(so_key _ _ Ho)|done| |].
      * by rewrite <-(before_origin e0 r e1 r Ho ltac:(by split)).
      * destruct (settled e0) eqn:Hse; [|done]. rewrite <-(Hf eq_refl) in Hse. congruence.
    + rewrite (newcomers_behind T0 T1 i e1 id r0 r k) in Hbe; try done. intros e' He'. congruence.
  - rewrite (newcomers_behind T0 T1 i e1 id r0 r k) in Hbe; try done. intros e' He'. congruence.
Qed.

(** ** The claim is one of the atomic ones *)

(** The claim skips everything but [sel]. *)
Definition skipping (e : StmtEnv) (T : TxSys) (sel : list string) : StmtEnv :=
  mkStmtEnv (e_now e) (e_clk e)
    ((e_locked e ∪ dom (rows (committed T)) ∪ held_by (t_open T)) ∖ list_to_set sel) (e_token e) (e_id e).

Lemma skipping_selects e T sel chosen limit :
  NoDup sel → NoDup chosen → Z.of_nat (length sel) ≤ limit →
  (∀ id, id ∈ sel → is_Some (rows (committed T) !! id)) →
  (∀ id, id ∈ chosen → id ∉ e_locked (skipping e T sel) ∧ is_Some (rows (committed T) !! id)) →
  (∀ id, id ∈ sel → id ∉ e_locked (skipping e T sel) → id ∉ chosen → Z.of_nat (length chosen) = limit) →
  ∀ id, id ∈ chosen ↔ id ∈ sel.
Proof.
  intros Hnd Hnd' Hlen Hsel Hch Hfull.
  assert (∀ id, id ∈ chosen → id ∈ sel) as Hsub.
  { intros id [Hnl [r Hr]]%Hch. apply elem_of_dom_2 in Hr. simpl in Hnl.
    apply dec_stable. intros Hn. apply Hnl. set_solver. }
  intros id. split; [apply Hsub|]. intros Hid. apply dec_stable. intros Hn.
  assert (Z.of_nat (length chosen) = limit) as Hl by (apply (Hfull id); [done|simpl; set_solver|done]).
  assert (length (id :: chosen) ≤ length sel)%nat as Hle.
  { apply submseteq_length, NoDup_submseteq; [by constructor|]. intros x [->|?]%elem_of_cons; auto. }
  simpl in Hle. lia.
Qed.

(** A claim that skips what [sel] does not have, and a cleanup. *)
Lemma skipping_claim e ordered limit T sel :
  NoDup sel → Z.of_nat (length sel) ≤ limit →
  (∀ id, id ∈ sel → ∃ r, rows (committed T) !! id = Some r ∧
    claimable (e_now e) ordered (rows (committed T)) r = true) →
  ∀ id, id ∈ claim_select (skipping e T sel) ordered limit (rows (committed T)) ↔ id ∈ sel.
Proof.
  intros Hnd Hlen Hcl. apply (skipping_selects e T sel _ limit); [done|apply NoDup_claim_select|done|..].
  - intros id (r & ? & _)%Hcl. by eexists.
  - intros id (Hnl & r & ? & _)%elem_of_claim_select. split; [done|by eexists].
  - intros id (r & Hr & Hc)%Hcl Hnl Hn. eapply claim_select_full; [exact Hr|exact Hc|done|done|lia].
Qed.

Lemma NoDup_cleanup_select e ret dead disc limit t : NoDup (cleanup_select e ret dead disc limit t).
Proof. apply skip_locked_limit_nodup. rewrite merge_sort_Permutation. apply NoDup_fst_matched. Qed.

Lemma skipping_cleanup e ret dead disc limit T sel :
  NoDup sel → Z.of_nat (length sel) ≤ limit →
  (∀ id, id ∈ sel → ∃ r, rows (committed T) !! id = Some r ∧ removable (e_now e) ret dead disc r = true) →
  ∀ id, id ∈ cleanup_select (skipping e T sel) ret dead disc limit (rows (committed T)) ↔ id ∈ sel.
Proof.
  intros Hnd Hlen Hcl. apply (skipping_selects e T sel _ limit); [done|apply NoDup_cleanup_select|done|..].
  - intros id (r & ? & _)%Hcl. by eexists.
  - intros id (Hnl & r & ? & _)%elem_of_cleanup_select. split; [done|by eexists].
  - intros id (r & Hr & Hc)%Hcl Hnl Hn. eapply cleanup_select_full; [exact Hr|exact Hc|done|done|lia].
Qed.

Lemma skipping_held e T sel :
  (∀ id, id ∈ sel → id ∉ held_by (t_open T)) → held_by (t_open T) ⊆ e_locked (skipping e T sel).
Proof.
  intros Hlocked id Hid. simpl. apply elem_of_difference. split; [set_solver|].
  rewrite elem_of_list_to_set. intros Hs. by apply Hlocked in Hs.
Qed.

(** C10. A claim under READ COMMITTED is an atomic one: let a claim begin on the
    committed table of [T0], while everything else that relays, cleaners and
    callers do takes the system to [T1]; in ordered mode this run must be one where
    every claim is ordered and the transactions of a key commit in the order of
    their rows ([run_of]), since an older row committed after the snapshot would
    block the row claimed.  When the rows it managed to lock are as [T1] has them
    and no open transaction of [T1] wrote one of them, their update is a statement
    of the library on the table of [T1], at the same clocks and with the same
    tokens: a step of the system all theorems about runs are about. *)
Theorem snapshot_claim_atomic T0 T1 e set cur :
  let o := Ordered set in
  let st := mkStmt (table_name (committed T1)) (CClaim o (InstanceID set) (LeaseDuration set) (BatchSize set)) in
  reached T0 → run_of o T0 T1 → 0 ≤ BatchSize set →
  (∀ id, id ∈ snapshot_claim e o (BatchSize set) (rows (committed T0)) cur →
     rows (committed T1) !! id = cur !! id ∧ id ∉ held_by (t_open T1)) →
  env_ok e → s_clock (t_sys T1) ≤ e_clk e → (∀ id, e_token e id ∉ s_used (t_sys T1)) →
  ∃ e' T2,
    e_now e' = e_now e ∧ e_clk e' = e_clk e ∧ e_token e' = e_token e ∧
    exec_stmt e' st (committed T1) =
      claim_on_snapshot e o (InstanceID set) (LeaseDuration set) (BatchSize set) (rows (committed T0)) cur (committed T1) ∧
    tx_exec T1 (Auto e' st) = Some T2 ∧ committed T2 = after_stmt e' st (committed T1) ∧
    (if o then ordered_tx_step T1 T2 else tx_step T1 T2).
Proof.
  intros o st HT0 Hrun Hl Hlocked He Hclk Hfresh. pose proof (reached_ok _ HT0) as Hok.
  set (sel := snapshot_claim e o (BatchSize set) (rows (committed T0)) cur) in *. set (e' := skipping e T1 sel).
  assert (∀ id, id ∈ claim_select e' o (BatchSize set) (rows (committed T1)) ↔ id ∈ sel) as Hsel.
  { apply skipping_claim; [apply NoDup_snapshot_pick|by apply length_snapshot_pick|]. intros id Hid.
    destruct (Hlocked id Hid) as [Hr _].
    apply elem_of_snapshot_pick in Hid as (_ & r0 & r & Hr0 & Hc & Hs & Hcl). rewrite Hc in Hr.
    exists r. split; [done|]. exact (still_claimable _ _ T0 T1 id r0 r Hok Hrun Hr0 Hr Hs Hcl). }
  assert (held_by (t_open T1) ⊆ e_locked e') as Hheld by (apply skipping_held; intros; by apply Hlocked).
  assert (dom (writes (committed T1) (after_stmt e' st (committed T1))) ## held_by (t_open T1)) as Hdisj.
  { intros id (r & [Hr Hw]%lookup_writes)%elem_of_dom Hid.
    pose proof (after_stmt_row_step e' st (committed T1) id (issued_claim set)) as Hs. rewrite Hr in Hs.
    inversion Hs as [? ? Heq| |? ? ? ? r1 Hr1 Hin| | | |]; subst.
    - by destruct (Hw r).
    - apply Hsel, Hlocked in Hin as [_ ?]. done. }
  assert (act_ok T1 (Auto e' st)) as Hact.
  { split_and!; [destruct He; by constructor|done|apply issued_claim|done|done]. }
  assert (∃ T2, tx_exec T1 (Auto e' st) = Some T2 ∧ committed T2 = after_stmt e' st (committed T1)) as (T2 & HT2 & Hdb).
  { simpl. rewrite decide_True by done. by eexists. }
  exists e', T2. split_and!; try done.
  - unfold exec_stmt. cbn [st_table st_cmd st]. rewrite String.eqb_refl, exec_claim_selected by done.
    unfold claim_on_snapshot. rewrite (proj2 (Z.ltb_ge (BatchSize set) 0) Hl).
    by rewrite (claim_selected_same e' _ sel _ _ _ Hsel).
  - destruct o eqn:Ho; [|by econstructor].
    econstructor; [exact Hact| |exact HT2]. split; simpl; [|done]. intros ? ? ? ? [= <- _ _ _]. by subst o.
Qed.

(** The same for a cleanup, whose condition reads the row alone. *)
Theorem snapshot_cleanup_atomic T0 T1 e set cur :
  let st := mkStmt (table_name (committed T1))
              (CCleanup (Retention set) (DeadRetention set) (DiscardRetention set) (BatchSize set)) in
  reached T0 → rtc tx_step T0 T1 → 0 ≤ BatchSize set →
  (∀ id, id ∈ snapshot_cleanup e (Retention set) (DeadRetention set) (DiscardRetention set) (BatchSize set)
                (rows (committed T0)) cur →
     rows (committed T1) !! id = cur !! id ∧ id ∉ held_by (t_open T1)) →
  env_ok e → s_clock (t_sys T1) ≤ e_clk e → (∀ id, e_token e id ∉ s_used (t_sys T1)) →
  ∃ e' T2,
    e_now e' = e_now e ∧ e_clk e' = e_clk e ∧
    exec_stmt e' st (committed T1) =
      cleanup_on_snapshot e (Retention set) (DeadRetention set) (DiscardRetention set) (BatchSize set)
        (rows (committed T0)) cur (committed T1) ∧
    tx_exec T1 (Auto e' st) = Some T2 ∧ committed T2 = after_stmt e' st (committed T1) ∧ tx_step T1 T2.
Proof.
  intros st HT0 Hrun Hl Hlocked He Hclk Hfresh.
  set (sel := snapshot_cleanup e _ _ _ _ _ cur) in *. set (e' := skipping e T1 sel).
  assert (∀ id, id ∈ cleanup_select e' (Retention set) (DeadRetention set) (DiscardRetention set) (BatchSize set)
            (rows (committed T1)) ↔ id ∈ sel) as Hsel.
  { apply skipping_cleanup; [apply NoDup_snapshot_pick|by apply length_snapshot_pick|]. intros id Hid.
    destruct (Hlocked id Hid) as [Hr _].
    apply elem_of_snapshot_pick in Hid as (_ & r0 & r & _ & Hc & _ & Hrm). rewrite Hc in Hr. by exists r. }
  assert (held_by (t_open T1) ⊆ e_locked e') as Hheld by (apply skipping_held; intros; by apply Hlocked).
  assert (dom (writes (committed T1) (after_stmt e' st (committed T1))) ## held_by (t_open T1)) as Hdisj.
  { intros id (r & [Hr Hw]%lookup_writes)%elem_of_dom Hid.
    pose proof (after_stmt_row_step e' st (committed T1) id (issued_cleanup set)) as Hs. rewrite Hr in Hs.
    inversion Hs; subst. by destruct (Hw r). }
  assert (act_ok T1 (Auto e' st)) as Hact.
  { split_and!; [destruct He; by constructor|done|apply issued_cleanup|done|done]. }
  assert (∃ T2, tx_exec T1 (Auto e' st) = Some T2 ∧ committed T2 = after_stmt e' st (committed T1)) as (T2 & HT2 & Hdb).
  { simpl. rewrite decide_True by done. by eexists. }
  exists e', T2. split_and!; try done; [|by econstructor].
  unfold exec_stmt. cbn [st_table st_cmd st]. rewrite String.eqb_refl, exec_cleanup_selected by done.
  unfold cleanup_on_snapshot. rewrite (proj2 (Z.ltb_ge (BatchSize set) 0) Hl).
  by rewrite (delete_selected_same _ sel _ Hsel).
Qed.

(** ** Renewals and completions *)

(** The row holds a live claim of the batch in the snapshot and, still the same
    row, now. *)
Definition live_since (clk : time) (keys : list (string * string)) (t0 : gmap string Row) (id : string) (r : Row) : bool :=
  live_claim clk keys id r &&
  match t0 !! id with Some r0 => (seq r =? seq r0) && live_claim clk keys id r0 | None => false end.

Definition renew_on_snapshot (e : StmtEnv) (ids tokens : list string) (lease : duration) (t0 : gmap string Row) (db : Db) : sql_res :=
  match cast_keys ids tokens with
  | Some keys => SqlOk (run_update db (live_since (e_clk e) keys t0) (λ _, renew_row e lease))
  | None => SqlErr "22000"
  end.

Definition finish_on_snapshot (e : StmtEnv) (ids tokens : list string) (st : Status) (reason : arg) (delay : duration)
    (clear : bool) (t0 : gmap string Row) (db : Db) : sql_res :=
  match cast_keys ids tokens, arg_text reason with
  | Some keys, Some reason' =>
      SqlOk (run_update db (live_since (e_clk e) keys t0) (λ _, finish_row e st reason' delay clear))
  | _, _ => SqlErr "22000"
  end.

(** Steps in which nobody presents one of the keys. *)
Inductive keys_unused (keys : list (string * string)) (T T' : TxSys) : Prop :=
| keys_unused_act a :
    act_ok T a → (∀ id t, (id, t) ∈ keys → ¬ presented a id t) → tx_exec T a = Some T' → keys_unused keys T T'.

(** A row held under a token that was drawn before, and that nobody presented,
    has not changed since. *)
Lemma held_unchanged keys T T' id t r :
  tx_ok T → rtc (keys_unused keys) T T' → (id, t) ∈ keys → t ∈ s_used (t_sys T) →
  rows (committed T') !! id = Some r → lease_token r = Some t → rows (committed T) !! id = Some r.
Proof.
  intros Hok Hrun. revert Hok. induction Hrun as [|T1 T2 T3 [a Ha Hun Hex] _ IH]; intros Hok Hin Hused Hr Ht; [done|].
  destruct (tx_exec_mono _ _ _ Ha Hex) as [_ Hmono].
  assert (rows (committed T2) !! id = Some r) as Hr2 by (apply IH; [by eapply tx_exec_ok|done|set_solver|done..]).
  pose proof (tx_exec_row _ _ _ id Ha Hex Hok) as Hs. rewrite Hr2 in Hs.
  inversion Hs as [|e st o o' Hiss Hst|? ? tx row Hx Ho Hown]; subst; [done| |].
  - destruct Ha as (_ & _ & _ & Hfresh & _). pose proof (Hun id t Hin) as Hnp. simpl in Hnp.
    inversion Hst as [|?|? ? ? ? ? Hr1 Hsel Hint Hc|? ? ? ? ? Hk Hl Hc|? ? ? ? ? ? ? ? ? Hk Hw Hl Hc|? ? ? ? Hc|];
      subst; simplify_eq/=; [done| |].
    + by destruct (Hfresh id).
    + destruct Hnp. rewrite <-Hc. exists keys0. split; [done|].
      apply live_claim_spec in Hl as ((t' & ? & ?) & _). congruence.
  - pose proof (wf_state _ _ (own_wf _ _ _ Hown)) as Hu. unfold state_columns in Hu.
    rewrite (proj1 (own_pending _ _ _ Hown)) in Hu. destruct Hu as ((_ & _ & Hn) & _). congruence.
Qed.

(** C22. A completion or a renewal under READ COMMITTED is an atomic one: when the
    tokens of its batch had been drawn and nobody else presents them while it
    runs, which rows hold a live claim of the batch in its snapshot makes no
    difference: the statement writes what it would write on the table of [T1]
    alone. *)
Theorem snapshot_completion_atomic T0 T1 e ids tokens :
  reached T0 →
  (∀ keys, cast_keys ids tokens = Some keys →
     rtc (keys_unused keys) T0 T1 ∧ ∀ id t, (id, t) ∈ keys → t ∈ s_used (t_sys T0)) →
  (∀ lease, renew_on_snapshot e ids tokens lease (rows (committed T0)) (committed T1) = exec_renew e ids tokens lease (committed T1)) ∧
  (∀ st reason delay clear,
     finish_on_snapshot e ids tokens st reason delay clear (rows (committed T0)) (committed T1) =
     exec_finish e ids tokens st reason delay clear (committed T1)).
Proof.
  intros Hok%reached_ok Hkeys. unfold renew_on_snapshot, finish_on_snapshot, exec_renew, exec_finish.
  destruct (cast_keys ids tokens) as [keys|]; [|done]. destruct (Hkeys keys eq_refl) as [Hrun Hused].
  assert (∀ id r, rows (committed T1) !! id = Some r →
            live_since (e_clk e) keys (rows (committed T0)) id r = live_claim (e_clk e) keys id r) as Hsame.
  { intros id r Hr. unfold live_since. destruct (live_claim (e_clk e) keys id r) eqn:Hl; [|done]. simpl.
    pose proof Hl as ((t & Hin & Ht) & _)%live_claim_spec.
    rewrite (held_unchanged keys T0 T1 id t r) by eauto. by rewrite Z.eqb_refl, Hl. }
  split.
  - intros lease. by rewrite (run_update_same _ _ _ _ Hsame).
  - intros st reason delay clear. destruct (arg_text reason); [|done]. by rewrite (run_update_same _ _ _ _ Hsame).
Qed.

(** ** Requeues *)

(** The dead row of the snapshot, when it is the same row and dead now. *)
Definition dead_since (id' : string) (t0 : gmap string Row) (i : string) (r : Row) : bool :=
  String.eqb i id' && bool_decide (status r = StatusDead) &&
  match t0 !! i with Some r0 => (seq r =? seq r0) && bool_decide (status r0 = StatusDead) | None => false end.

Definition requeue_on_snapshot (e : StmtEnv) (id : string) (t0 : gmap string Row) (db : Db) : sql_res :=
  match uuid_in id with
  | Some id' =>
      let d := run_update db (dead_since id' t0) (λ _, requeue_row e) in
      SqlOk (mkDone (mkDb (table_name db) (rows (d_db d)) (next_seq db) (Z.to_nat (d_affected d) + notified db)%nat) []
               (d_affected d))
  | None => SqlErr "22000"
  end.

(** Where one row of an id was replaced by another there was none in between. *)
Lemma absent_between T0 T1 id r0 r1 :
  tx_ok T0 → rtc tx_step T0 T1 → rows (committed T0) !! id = Some r0 → rows (committed T1) !! id = Some r1 →
  seq r1 ≠ seq r0 → ∃ T, rtc tx_step T0 T ∧ rtc tx_step T T1 ∧ rows (committed T) !! id = None.
Proof.
  intros Hok Hrun. revert r0 Hok. induction Hrun as [T|T T2 T3 Hstep H23 IH]; intros r0 Hok Hr0 Hr1 Hne; [congruence|].
  pose proof Hstep as [a Ha Hex]. destruct (rows (committed T2) !! id) as [r2|] eqn:Hr2.
  - pose proof (act_descends _ _ _ _ _ _ Ha Hex Hok Hr0 Hr2) as [Ho _ _].
    destruct (IH r2) as (T' & H1 & H2 & Hn); [by eapply tx_exec_ok|done..|rewrite (so_seq _ _ Ho); done|].
    exists T'. split_and!; [by eapply rtc_l|done..].
  - exists T2. split_and!; [by apply rtc_once|done..].
Qed.

Lemma run_update_nothing db p f :
  (∀ id r, rows db !! id = Some r → p id r = false) → run_update db p f = mkDone db [] 0.
Proof.
  intros Hp. rewrite (run_update_same db p (λ _ _, false) f) by done. unfold run_update.
  assert (returning ([] : list (string * Row)) = []) as Hnil by (apply Permutation_nil; symmetry; apply returning_perm).
  assert (matched (λ _ _, false) (rows db) = []) as -> by (unfold matched; induction (map_to_list _); [done|by rewrite filter_cons]).
  assert (update_rows (λ _ _, false) f (rows db) = rows db) as ->; [|simpl; rewrite Hnil; by destruct db].
  apply map_eq. intros id. rewrite lookup_update_rows. by destruct (rows db !! id).
Qed.

(** A requeue with nothing to do. *)
Lemma requeue_misses e id id' db :
  uuid_in id = Some id' → (∀ r, rows db !! id' = Some r → status r ≠ StatusDead) →
  exec_requeue e id db = SqlOk (mkDone db [] 0).
Proof.
  intros Hid Hn. unfold exec_requeue. rewrite Hid, run_update_nothing; [by destruct db|].
  intros i r Hr. destruct (String.eqb_spec i id') as [->|]; [|done]. by apply bool_decide_eq_false, Hn.
Qed.

(** Testing the snapshot as well makes no difference, or the statement changes
    nothing and there was a moment with nothing to change. *)
Lemma dead_since_cases T0 T1 id' :
  tx_ok T0 → rtc tx_step T0 T1 →
  (∀ i r, rows (committed T1) !! i = Some r →
     dead_since id' (rows (committed T0)) i r = String.eqb i id' && bool_decide (status r = StatusDead)) ∨
  (∀ i r, rows (committed T1) !! i = Some r → dead_since id' (rows (committed T0)) i r = false) ∧
  ∃ T, rtc tx_step T0 T ∧ rtc tx_step T T1 ∧ ∀ r, rows (committed T) !! id' = Some r → status r ≠ StatusDead.
Proof.
  intros Hok Hrun. unfold dead_since. destruct (rows (committed T0) !! id') as [r0|] eqn:Hr0.
  2: { right. split; [|exists T0; by rewrite Hr0]. intros i r _.
       destruct (String.eqb_spec i id') as [->|]; [|done]. rewrite Hr0. apply andb_false_r. }
  destruct (decide (status r0 = StatusDead)) as [Hd|Hd].
  2: { right. split; [|exists T0; split_and!; [done..|intros r; by rewrite Hr0; intros [= <-]]]. intros i r _.
       destruct (String.eqb_spec i id') as [->|]; [|done]. by rewrite Hr0, (bool_decide_eq_false_2 _ Hd), !andb_false_r. }
  destruct (rows (committed T1) !! id') as [r1|] eqn:Hr1; [destruct (decide (seq r1 = seq r0)) as [E|Hne]|].
  - left. intros i r Hr. destruct (String.eqb_spec i id') as [->|]; [|done].
    simplify_eq. rewrite Hr0, E, Z.eqb_refl, (bool_decide_eq_true_2 _ Hd). apply andb_true_r.
  - right. split; [|destruct (absent_between T0 T1 id' r0 r1) as (T & ? & ? & Hn); [done..|exists T; by rewrite Hn]].
    intros i r Hr. destruct (String.eqb_spec i id') as [->|]; [|done]. simplify_eq.
    rewrite Hr0, (proj2 (Z.eqb_neq _ _) Hne). apply andb_false_r.
  - left. intros i r Hr. destruct (String.eqb_spec i id') as [->|]; [congruence|done].
Qed.

(** A requeue under READ COMMITTED is an atomic one, too, of the table of [T1] or,
    when it changes nothing, of one that was there while it ran. *)
Theorem snapshot_requeue_atomic T0 T1 e id :
  reached T0 → rtc tx_step T0 T1 →
  requeue_on_snapshot e id (rows (committed T0)) (committed T1) = exec_requeue e id (committed T1) ∨
  requeue_on_snapshot e id (rows (committed T0)) (committed T1) = SqlOk (mkDone (committed T1) [] 0) ∧
  ∃ T, rtc tx_step T0 T ∧ rtc tx_step T T1 ∧ exec_requeue e id (committed T) = SqlOk (mkDone (committed T) [] 0).
Proof.
  intros Hok%reached_ok Hrun. unfold requeue_on_snapshot.
  destruct (uuid_in id) as [id'|] eqn:Hid; [|left; unfold exec_requeue; by rewrite Hid].
  destruct (dead_since_cases T0 T1 id' Hok Hrun) as [Hsame|(Hno & T & H1 & H2 & Hn)].
  - left. unfold exec_requeue. rewrite Hid. by rewrite (run_update_same _ _ _ _ Hsame).
  - right. split; [rewrite run_update_nothing by done; by destruct (committed T1)|].
    exists T. split_and!; [done..|by eapply requeue_misses].
Qed.
End Snapshot.
