(* ===== verification/Relay.v ===== *)
(** * The relay: [engine/relay.go]

    Claim, publish, settle and drain, as Go wrote them, over an abstract world.
    What the relay calls is passed to it: the store's executor, the publisher,
    and a [Runtime] for contexts, tickers, the random source, hooks and logger. *)

From S2P Require Import Prelude Outcome Message Backoff Config Postgres Store.

Open Scope string_scope.
Open Scope Z_scope.

(** ** Collaborators *)

(** Calls of [port.Hooks], [port.DiscardHooks] and the logger. *)
Inductive Event : Type :=
| OnPublished (ms : list Message)
| OnDiscarded (ms : list Message) (reason : option err)
| OnDead (m : Message)
| OnFailed (m : Message) (e : option err)
| OnCleanup (deleted : Z)
| LogError (msg : string) (e : err)
| LogWarn (msg : string).

(** What the select of the heartbeat can receive, and where its loop stands:
    still selecting, or returned with an error and, after a failed renewal, the
    publisher's context cancelled. *)
Inductive HbEvent : Type := HbStop | HbDone | HbTick.
Inductive HbState : Type :=
| Beating
| Beaten (e : option err) (cancel : bool).

(** What the select of a worker can receive. *)
Inductive WorkerEvent : Type := WDone | WTick | WWake.

Record Runtime (W : Type) : Type := mkRuntime {
  ctx_Err : go W bool;                          (* ctx.Err() != nil *)
  pubCtx_Err : go W bool;                       (* the same for the publisher's context *)
  heartbeat_events : option duration → duration → go W (list HbEvent);
  random : go W (Z → Z);                        (* rand.Int64N *)
  observe : Event → go W unit
}.
Arguments ctx_Err {W}.
Arguments pubCtx_Err {W}.
Arguments heartbeat_events {W}.
Arguments random {W}.
Arguments observe {W}.

(** [port.Publisher]; the boolean says that the heartbeat cancelled its context.
    The publisher gets a copy of the relay's slice, but its messages share what
    they point to (payload bytes, headers map, attempt limit, times) with the
    relay's own: the list answered is that batch as the call leaves it. *)
Record Publisher (W : Type) : Type := mkPublisher {
  Publish : bool → list Message → go W (list Message * option err)
}.
Arguments Publish {W}.

Record Relay (W : Type) : Type := NewRelay { store : Store W; pub : Publisher W; set : Settings }.
Arguments store {W}.
Arguments pub {W}.
Arguments set {W}.
Arguments NewRelay {W}.

(** ** Panics and fatal errors *)

Definition panic_error (p : panic) : err := EPanic p.1 p.2.

Definition nil_dereference : panic :=
  (PvOther "runtime error: invalid memory address or nil pointer dereference", EmptyString).

Definition recovered {W} (fn : go W (option err)) : go W (option err) :=
  try_catch fn (λ p, Some (panic_error p)).

(** Abort outcomes and recovered panics. *)
Definition always_fatal (e : err) : bool :=
  bool_decide (is_Some (errors_As as_abort e)) || bool_decide (is_Some (errors_As as_panic e)).

Section Relay.
Context {W : Type} (rt : Runtime W).

Definition isFatal (s : Settings) (e : err) : go W bool :=
  if always_fatal e then mret true
  else
    done ← rt.(ctx_Err);
    if done : bool then mret false
    else match s.(Fatal) with Some f => lift_res (f e) | None => raise nil_dereference end.

(** A method call on the settings' hooks or logger. *)
Definition call_hook (s : Settings) (ev : Event) : go W unit :=
  match s.(sHooks) with Some _ => rt.(observe) ev | None => raise nil_dereference end.
Definition call_logger (s : Settings) (ev : Event) : go W unit :=
  match s.(sLogger) with Some _ => rt.(observe) ev | None => raise nil_dereference end.

Fixpoint for_each {A} (l : list A) (f : A → go W unit) : go W unit :=
  match l with
  | [] => mret tt
  | a :: l' => _ ← f a; for_each l' f
  end.

(** ** Publishing under a renewed lease *)
Section Publishing.
Context (r : Relay W).

Definition heartbeat_interval : duration :=
  let interval := Z.quot r.(set).(LeaseDuration) 3 in
  if interval <=? 0 then 1 else interval.

(** The deadline of the publisher's context, when there is one. *)
Definition publish_deadline : option duration :=
  if 0 <? r.(set).(PublishTimeout) then Some r.(set).(PublishTimeout) else None.

(** The heartbeat over the events it receives. *)
Fixpoint heartbeat (evs : list HbEvent) (msgs : list Message) : go W HbState :=
  match evs with
  | [] => mret Beating
  | HbStop :: _ | HbDone :: _ => mret (Beaten None false)
  | HbTick :: evs' =>
      e ← renew r.(store) msgs r.(set).(LeaseDuration);
      match e with
      | None => heartbeat evs' msgs
      | Some e =>
          done ← rt.(pubCtx_Err);
          if done : bool then mret (Beaten None false)
          else mret (Beaten (Some (EWrap "outbox: renew claims: " e)) true)
      end
  end.

(** A stretch of the heartbeat's goroutine; a panic ends it with an error. *)
Definition beat (msgs : list Message) : go W HbState :=
  evs ← rt.(heartbeat_events) publish_deadline heartbeat_interval;
  try_catch (heartbeat evs msgs) (λ p, Beaten (Some (panic_error p)) false).

Definition hb_cancelled (hb : HbState) : bool :=
  match hb with Beating => false | Beaten _ c => c end.
Definition hb_error (hb : HbState) : option err :=
  match hb with Beating => None | Beaten e _ => e end.

(** The heartbeat's goroutine runs beside [Publish]: a stretch of it before the
    publisher acts and, if it is still selecting, a stretch after, until [stop]
    ends it.  A panic of the publisher is the panic of the call.  The batch is
    returned as the publisher leaves it, beside the two errors; the ids and
    tokens the heartbeat reads are not among what the publisher can change. *)
Definition publish (msgs : list Message) : go W (list Message * option err * option err) :=
  hb ← beat msgs;
  '(after, perr) ← Publish r.(pub) (hb_cancelled hb) msgs;
  hb ← (match hb with Beating => beat msgs | Beaten _ _ => mret hb end);
  mret (after, perr, hb_error hb).

(** ** Settling outcomes *)

Definition complete (msgs : list Message) (st : Status) (cause : option err) (delay : duration)
    : go W (option err) :=
  let reason := match cause with Some e => Error e | None => EmptyString end in
  '(completed, e) ← finish r.(store) msgs st reason delay r.(set).(ClearPayloadOnComplete);
  match e with
  | Some _ => mret e
  | None =>
      _ ← (match completed with
           | [] => mret tt
           | _ =>
               match st with
               | StatusPublished => call_hook r.(set) (OnPublished completed)
               | StatusDiscarded =>
                   match r.(set).(sHooks) with
                   | Some h => if h.(implements_discard)
                               then rt.(observe) (OnDiscarded completed cause) else mret tt
                   | None => mret tt
                   end
               | StatusDead => for_each completed (λ m, call_hook r.(set) (OnDead m))
               | StatusPending => for_each completed (λ m, call_hook r.(set) (OnFailed m cause))
               | StatusProcessing => mret tt
               end
           end);
      if (length completed =? length msgs)%nat then mret None else mret (Some ErrLeaseLost)
  end.

(** [max]: the message's own limit, else the relay's. *)
Definition attempt_limit (m : Message) : Z :=
  match m.(MaxAttempts) with Some n => n | None => r.(set).(sMaxAttempts) end.

(** State and delay of one message of a batch that failed without a terminal
    outcome; [retry] is the delay of a [RetryAfterError], if there is one. *)
Definition retry_decision (retry : option duration) (m : Message) : go W (Status * duration) :=
  if attempt_limit m <=? m.(Attempts) then mret (StatusDead, 0)
  else
    int64n ← rt.(random);
    delay ← (match r.(set).(sBackoff) with
             | Some b => lift_res (b int64n m.(Attempts))
             | None => raise nil_dereference
             end);
    let delay := if delay <? 0 then 0 else delay in
    let delay := match retry with Some d => if d >? delay then d else delay | None => delay end in
    mret (StatusPending, delay).

Fixpoint settle_loop (perr : err) (retry : option duration) (errs : list err) (msgs : list Message)
    : go W (option err) :=
  match msgs with
  | [] => mret (errors_Join (map Some errs))
  | m :: msgs' =>
      '(st, delay) ← retry_decision retry m;
      e ← complete [m] st (Some perr) delay;
      settle_loop perr retry (errs ++ option_list e) msgs'
  end.

Definition settle (msgs : list Message) (perr : option err) : go W (option err) :=
  match msgs, perr with
  | [], _ => mret None
  | _, None => complete msgs StatusPublished None 0
  | _, Some e =>
      match errors_As as_permanent e, errors_As as_discard e with
      | Some _, _ => complete msgs StatusDead perr 0
      | None, Some _ => complete msgs StatusDiscarded perr 0
      | None, None => settle_loop e (errors_As as_retry e) [] msgs
      end
  end.

(** The entry of an outcome map. *)
Definition map_entry (outcomes : list (string * option err)) (id : string) : option (option err) :=
  snd <$> find (λ kv, String.eqb kv.1 id) outcomes.

Fixpoint settleEach_loop (outcomes : list (string * option err)) (others_err : option err)
    (published others : list Message) (errs : list (option err)) (msgs : list Message)
    : go W (option err) :=
  match msgs with
  | [] =>
      e1 ← settle published None;
      e2 ← settle others others_err;
      mret (errors_Join (errs ++ [e1; e2]))
  | m :: msgs' =>
      let entry := map_entry outcomes m.(ID) in
      match default others_err entry, entry with
      | None, _ => settleEach_loop outcomes others_err (published ++ [m]) others errs msgs'
      | Some _, None => settleEach_loop outcomes others_err published (others ++ [m]) errs msgs'
      | Some e, Some _ =>
          e' ← settle [m] (Some e);
          settleEach_loop outcomes others_err published others (errs ++ [e']) msgs'
      end
  end.

Definition settleEach (msgs : list Message) (outcomes : list (string * option err))
    (others_err : option err) : go W (option err) :=
  settleEach_loop outcomes others_err [] [] [] msgs.

(** ** One batch *)
Definition processBatch : go W (Z * option err) :=
  '(msgs, e) ← claim r.(store) r.(set);
  match e with
  | Some _ => mret (0, e)
  | None =>
      match msgs with
      | [] => mret (0, None)
      | _ =>
          let n := Z.of_nat (length msgs) in
          '(msgs, perr, leaseErr) ← publish msgs;
          fatal ← (match perr with Some pe => isFatal r.(set) pe | None => mret false end);
          match perr, fatal, leaseErr with
          | Some pe, true, _ => mret (n, Some (EFatal pe))
          | _, _, Some _ => mret (n, leaseErr)
          | _, _, None =>
              match errors_As_opt as_batch perr with
              | Some (outcomes, others) =>
                  e ← settleEach msgs outcomes others; mret (n, e)
              | None => e ← settle msgs perr; mret (n, e)
              end
          end
      end
  end.

(** ** The drain loop; [None] means the fuel ran out before the loop ended *)
Fixpoint drain (fuel : nat) : go W (option (option err)) :=
  match fuel with
  | O => mret None
  | S fuel' =>
      done ← rt.(ctx_Err);
      if done : bool then mret (Some None)
      else
        '(n, e) ← processBatch;
        match e with
        | Some e =>
            match errors_As as_fatal e with
            | Some c => mret (Some (Some c))
            | None =>
                fatal ← isFatal r.(set) e;
                if fatal : bool then mret (Some (Some e))
                else _ ← call_logger r.(set) (LogError "outbox: relay batch failed" e); mret (Some None)
            end
        | None => if n =? 0 then mret (Some None) else drain fuel'
        end
  end.

(** A worker over the events its select receives, one drain per wake-up. *)
Fixpoint worker (fuel : nat) (evs : list WorkerEvent) : go W (option (option err)) :=
  match evs with
  | [] | WDone :: _ => mret (Some None)
  | (WTick | WWake) :: evs' =>
      res ← drain fuel;
      match res with
      | Some None => worker fuel evs'
      | _ => mret res
      end
  end.
End Publishing.
End Relay.
