(* ===== verification/World.v ===== *)
(** * The contract between the relay and its surroundings

    What [Relay.v] may assume of the executor, the publisher and the runtime it
    is given, as classes over an abstract world: every statement reaches a shared
    server, with the table of [Safety.v] and whatever else that server has,
    between arbitrary steps of the other processes, may fail before or after it took effect, and everything the relay does is
    recorded in a trace.  The relay's theorems use only these laws;
    [Scripted.v] has an implementation of them. *)

From stdpp Require Import relations.
From S2P Require Import Prelude Outcome Message Backoff Config Postgres Store System Safety Relay.

Open Scope string_scope.
Open Scope Z_scope.

(** ** Observations *)

(** What a process does, in order: statements sent, batches handed to the
    publisher with its answer and the batch as the call left it, and calls of
    hooks and logger. *)
Inductive Obs : Type :=
| Sent (st : Stmt)
| Handed (ms : list Message) (answer : res panic (list Message * option err))
| Observed (ev : Event).

(** A server: its table, clock and tokens, what else it has (open transactions,
    say), and when the rest of it lets a statement that commits on its own run. *)
Class Server (S : Type) : Type := {
  base : S → Sys;
  admits : StmtEnv → Stmt → S → S → Prop
}.

(** The server of [Safety.v]: the table alone, and nothing makes a statement wait. *)
#[export] Instance sys_server : Server Sys := {| base := λ s, s; admits := λ _ _ _ _, True |}.

(** A world has a server, which the processes share, and this process's trace. *)
Class Deployment (W : Type) : Type := {
  server : Type;
  server_class :: Server server;
  server_of : W → server;
  trace_of : W → list Obs
}.
Arguments server W {_}.

Definition sys_of {W} `{Deployment W} (w : W) : Sys := base (server_of w).
Definition db_of {W} `{Deployment W} (w : W) : Db := s_db (sys_of w).

Section Contract.
Context `{Postgres} {W : Type} `{Deployment W}.

(** What the processes around this one may do to the server at any moment. *)
Context (others : relation (server W)).

(** The environment of a statement is possible in state [s]. *)
Record stmt_ready (e : StmtEnv) (s : Sys) : Prop := {
  ready_env : env_ok e;
  ready_clock : s_clock s ≤ e_clk e;
  ready_fresh : ∀ id, e_token e id ∉ s_used s
}.

Definition advance (e : StmtEnv) (st : Stmt) (s : Sys) : Sys :=
  mkSys (after_stmt e st (s_db s)) (e_clk e)
    (s_used s ∪ table_tokens (rows (after_stmt e st (s_db s)))).

(** The statement takes the server from [s] to [s']. *)
Record runs {S} `{Server S} (e : StmtEnv) (st : Stmt) (s s' : S) : Prop := {
  runs_ready : stmt_ready e (base s);
  runs_base : base s' = advance e st (base s);
  runs_admitted : admits e st s s'
}.

(** A statement sent in world [w]: [Some d] when its answer arrives; without an
    answer it may have taken effect or not. *)
Inductive call (st : Stmt) (w w' : W) : option Done → Prop :=
| call_answered e s s' d :
    others (server_of w) s → runs e st s s' → exec_stmt e st (s_db (base s)) = SqlOk d →
    others s' (server_of w') → call st w w' (Some d)
| call_lost e s s' :
    others (server_of w) s → runs e st s s' → others s' (server_of w') → call st w w' None
| call_dropped : others (server_of w) (server_of w') → call st w w' None.

Definition records (w w' : W) (o : list Obs) : Prop := trace_of w' = (trace_of w ++ o)%list.

(** Errors from outside the engine never contain its unexported [fatalError]. *)
Definition foreign (e : err) : Prop := errors_As as_fatal e = None.

Class LawfulExecutor (ex : Executor W) : Prop := {
  exec_law st w r w' : Exec ex st w = (r, w') →
    records w w' [Sent st] ∧
    match r with
    | Ok (n, None) => ∃ d, call st w w' (Some d) ∧ n = d_affected d
    | Ok (_, Some e) => call st w w' None ∧ foreign e
    | Panicked p => call st w w' None ∧ foreign (panic_error p)
    end;
  query_law st w r w' : Query ex st w = (r, w') →
    records w w' [Sent st] ∧
    match r with
    | Ok (rs, None) => ∃ d, call st w w' (Some d) ∧ rs = d_rows d
    | Ok (_, Some e) => call st w w' None ∧ foreign e
    | Panicked p => call st w w' None ∧ foreign (panic_error p)
    end
}.

(** A computation that leaves the server to the others and records [o]. *)
Definition aside {A} (m : go W A) (o : res panic A → list Obs) : Prop :=
  ∀ w r w', m w = (r, w') → others (server_of w) (server_of w') ∧ records w w' (o r).

(** Two states of one message of the relay's slice around a call that had a copy
    of it: what the slice holds itself is the same, what it points to is the
    publisher's to change. *)
Record shares (m m' : Message) : Prop := {
  shares_ID : ID m' = ID m;
  shares_Topic : Topic m' = Topic m;
  shares_PartitionKey : PartitionKey m' = PartitionKey m;
  shares_Payload : length <$> Payload m' = length <$> Payload m;
  shares_Headers : is_Some (Headers m') ↔ is_Some (Headers m);
  shares_ContentType : ContentType m' = ContentType m;
  shares_MessageType : MessageType m' = MessageType m;
  shares_MaxAttempts : is_Some (MaxAttempts m') ↔ is_Some (MaxAttempts m);
  shares_MStatus : MStatus m' = MStatus m;
  shares_Attempts : Attempts m' = Attempts m;
  shares_LeaseToken : LeaseToken m' = LeaseToken m;
  shares_LockedBy : LockedBy m' = LockedBy m;
  shares_LockedUntil : is_Some (LockedUntil m') ↔ is_Some (LockedUntil m);
  shares_NextAttemptAt : NextAttemptAt m' = NextAttemptAt m;
  shares_LastError : LastError m' = LastError m;
  shares_CreatedAt : CreatedAt m' = CreatedAt m;
  shares_PublishedAt : is_Some (PublishedAt m') ↔ is_Some (PublishedAt m);
  shares_FinishedAt : is_Some (FinishedAt m') ↔ is_Some (FinishedAt m)
}.

#[export] Instance shares_refl : Reflexive shares.
Proof. by intros m. Qed.

Class LawfulPublisher (pub : Publisher W) : Prop := {
  publish_law c ms : aside (Publish pub c ms) (λ r, [Handed ms r]);
  publish_shares c ms w ms' e w' : Publish pub c ms w = (Ok (ms', e), w') → Forall2 shares ms ms'
}.

(** A publisher that leaves the attempt limits of the messages alone. *)
Class KeepsLimits (pub : Publisher W) : Prop := {
  keeps_limits c ms w ms' e w' : Publish pub c ms w = (Ok (ms', e), w') → map MaxAttempts ms' = map MaxAttempts ms
}.

Class LawfulRuntime (rt : Runtime W) : Prop := {
  ctx_law : aside (ctx_Err rt) (λ _, []);
  pubctx_law : aside (pubCtx_Err rt) (λ _, []);
  pubctx_returns w p w' : pubCtx_Err rt w ≠ (Panicked p, w');
  events_law dl d : aside (heartbeat_events rt dl d) (λ _, []);
  random_law : aside (random rt) (λ _, []);
  observe_law ev : aside (observe rt ev) (λ _, [Observed ev])
}.

(** ** Relations every computation of the relay stays in *)

(** The trace grows, by observations satisfying [P]. *)
Definition grows (P : Obs → Prop) (w w' : W) : Prop := ∃ o, records w w' o ∧ Forall P o.

#[export] Instance grows_refl P : Reflexive (grows P).
Proof. intros w. exists []. split; [|done]. unfold records. by rewrite app_nil_r. Qed.

#[export] Instance grows_trans P : Transitive (grows P).
Proof.
  intros w1 w2 w3 (o1 & E1 & F1) (o2 & E2 & F2). exists (o1 ++ o2)%list. unfold records in *.
  split; [by rewrite E2, E1, app_assoc|by apply Forall_app].
Qed.

Lemma records_grows P w w' o : records w w' o → Forall P o → grows P w w'.
Proof. intros. by exists o. Qed.

Lemma records_app w1 w2 w3 o1 o2 : records w1 w2 o1 → records w2 w3 o2 → records w1 w3 (o1 ++ o2).
Proof. unfold records. intros E1 E2. by rewrite E2, E1, app_assoc. Qed.

(** Keeping an invariant of the world. *)
Definition keeps (I : W → Prop) (w w' : W) : Prop := I w → I w'.
#[export] Instance keeps_refl I : Reflexive (keeps I).
Proof. intros w Hw. exact Hw. Qed.
#[export] Instance keeps_trans I : Transitive (keeps I).
Proof. unfold keeps. intros w1 w2 w3. auto. Qed.

(** The table evolves by statements of the library. *)
Definition base_steps (s s' : server W) : Prop := rtc sys_step (base s) (base s').
#[export] Instance base_steps_refl : Reflexive base_steps.
Proof. intros s. apply rtc_refl. Qed.
#[export] Instance base_steps_trans : Transitive base_steps.
Proof. intros s1 s2 s3 H12 H23. exact (transitivity (R:=rtc sys_step) H12 H23). Qed.

Definition evolves (w w' : W) : Prop := base_steps (server_of w) (server_of w').
#[export] Instance evolves_refl : Reflexive evolves.
Proof. intros w. apply base_steps_refl. Qed.
#[export] Instance evolves_trans : Transitive evolves.
Proof. intros w1 w2 w3. apply base_steps_trans. Qed.

Lemma advance_step e st s : stmt_ready e s → issued (st_cmd st) → sys_step s (advance e st s).
Proof. intros [He Hc Hf] Hi. exact (sys_stmt _ _ e st He Hc Hf Hi eq_refl). Qed.

Lemma advance_evolves e st w w' :
  sys_of w' = advance e st (sys_of w) → stmt_ready e (sys_of w) → issued (st_cmd st) → evolves w w'.
Proof.
  intros E Hr Hi. unfold evolves, base_steps. fold (sys_of w) (sys_of w'). rewrite E. by apply rtc_once, advance_step.
Qed.

Lemma runs_step e st s s' : runs e st s s' → issued (st_cmd st) → sys_step (base s) (base s').
Proof. intros [Hr -> _] Hi. by apply advance_step. Qed.
End Contract.
Arguments LawfulExecutor {_ W _} others ex.
Arguments LawfulPublisher {W _} others pub.
Arguments LawfulRuntime {W _} others rt.
Arguments exec_law {_ W _ others ex _} st w r w' _.
Arguments query_law {_ W _ others ex _} st w r w' _.
Arguments publish_law {W _ others pub _} c ms.
Arguments publish_shares {W _ others pub _} c ms w ms' e w' _.
Arguments KeepsLimits {W} pub.
Arguments keeps_limits {W pub _} c ms w ms' e w' _.
Arguments ctx_law {W _ others rt _}.
Arguments pubctx_law {W _ others rt _}.
Arguments events_law {W _ others rt _} dl d.
Arguments random_law {W _ others rt _}.
Arguments observe_law {W _ others rt _} ev.
Arguments pubctx_returns {W _ others rt _} w p w'.
