(* ===== verification/RelaySpec.v ===== *)
(** * What the relay does, whatever happens around it

    Theorems about [Relay.v] over the contract of [World.v]: how errors are
    classified, which statements a batch may send, when a message may be
    marked published, what a fatal error leaves behind, and that a running
    relay is one of the processes of [Safety.v]. *)

From stdpp Require Import relations.
From S2P Require Import Prelude Outcome Message Backoff Config Postgres Store System Safety StoreSpec Relay World.

Open Scope string_scope.
Open Scope Z_scope.

(** ** The verdict on one message *)

(** The outcome of a message: its entry of a per-message map, else the rest's. *)
Definition message_outcome (perr : option err) (m : Message) : option err :=
  match errors_As_opt as_batch perr with
  | Some (outcomes, others) => default others (map_entry outcomes (ID m))
  | None => perr
  end.

(** The state the relay means to record for a message with this outcome. *)
Definition verdict (limit : Z) (outcome : option err) (m : Message) : Status :=
  match outcome with
  | None => StatusPublished
  | Some e =>
      if bool_decide (is_Some (errors_As as_permanent e)) then StatusDead
      else if bool_decide (is_Some (errors_As as_discard e)) then StatusDiscarded
      else if limit <=? Attempts m then StatusDead else StatusPending
  end.

Lemma verdict_not_processing limit o m : verdict limit o m ≠ StatusProcessing.
Proof. unfold verdict. repeat case_match; done. Qed.

(** The delay before a retry: never negative, and at least what the publisher
    asked for. *)
Definition retry_delay (d : duration) (retry : option duration) : duration :=
  match retry with Some x => Z.max (Z.max 0 d) x | None => Z.max 0 d end.

(** The reason recorded with it: the text of its error. *)
Definition verdict_reason (outcome : option err) : string :=
  match outcome with Some e => Error e | None => EmptyString end.

Lemma bool_decide_Some {A} (o : option A) a : o = Some a → bool_decide (is_Some o) = true.
Proof. intros ->. by apply bool_decide_eq_true_2. Qed.
Lemma bool_decide_None {A} (o : option A) : o = None → bool_decide (is_Some o) = false.
Proof. intros ->. by apply bool_decide_eq_false_2, is_Some_None. Qed.

(** ** Fatal errors *)

(** Whether an error always stops the relay does not depend on the order in
    which Go walks the outcome map of a batch error inside it. *)
Theorem always_fatal_reordered e e' : reordered e e' → always_fatal e = always_fatal e'.
Proof.
  intros Hr. unfold always_fatal.
  rewrite (bool_decide_ext _ _ (errors_As_reordered _ _ _ by_type_abort Hr)).
  by rewrite (bool_decide_ext _ _ (errors_As_reordered _ _ _ by_type_panic Hr)).
Qed.

Section Relay.
Context `{Postgres} {W : Type} `{Deployment W} (others : relation (server W)).
Context (rt : Runtime W) (r : Relay W).
Context `{!LawfulExecutor others (exec (store r))}.
Context `{!LawfulPublisher others (pub r)} `{!LawfulRuntime others rt}.

Let limit (m : Message) : Z := attempt_limit r m.

(** ** Statements of the relay *)

Definition claim_stmt : Stmt :=
  mkStmt (table (store r))
    (CClaim (Ordered (set r)) (InstanceID (set r)) (LeaseDuration (set r)) (BatchSize (set r))).
Definition renew_stmt (ms : list Message) : Stmt :=
  mkStmt (table (store r)) (CRenew (map ID ms) (map LeaseToken ms) (LeaseDuration (set r))).
Definition finish_stmt (ms : list Message) (st : Status) (reason : string) (delay : duration) : Stmt :=
  mkStmt (table (store r))
    (CFinish (map ID ms) (map LeaseToken ms) st (nullStr reason) delay (ClearPayloadOnComplete (set r))).

Lemma retry_decision_inv retry m w st delay w' :
  retry_decision rt r retry m w = (Ok (st, delay), w') →
  if limit m <=? Attempts m then st = StatusDead ∧ delay = 0
  else st = StatusPending ∧ ∃ b rnd d, sBackoff (set r) = Some b ∧ b rnd (Attempts m) = Ok d ∧
         delay = retry_delay d retry.
Proof.
  unfold retry_decision. fold (limit m). destruct (limit m <=? Attempts m); [by intros [= <- <- _]|].
  intros E. run_inv E; [|done].
  destruct (sBackoff (set r)) as [b|]; [|by inversion E].
  run_inv E; [|done]. injection E as <- <- <-. split; [done|].
  unfold lift_res in *. simplify_eq. eexists b, _, _. split_and!; [done|done|].
  unfold retry_delay. destruct retry; repeat case_match; lia.
Qed.

(** The delay sent with a verdict: none, unless the message is retried; then the
    backoff of its attempts under some random number, never negative and at least
    what a retry-after outcome asks for. *)
Definition verdict_delay (outcome : option err) (m : Message) (delay : duration) : Prop :=
  match verdict (limit m) outcome m with
  | StatusPending => ∃ b rnd d, sBackoff (set r) = Some b ∧ b rnd (Attempts m) = Ok d ∧
      delay = retry_delay d (errors_As_opt as_retry outcome)
  | _ => delay = 0
  end.

(** What a completion of a message with this outcome records. *)
Definition settled_as (outcome : option err) (m : Message) (st : Status) (why : string) (delay : duration) : Prop :=
  st = verdict (limit m) outcome m ∧ why = verdict_reason outcome ∧ verdict_delay outcome m delay.

(** The three outcomes that settle a whole batch alike. *)
Lemma settled_as_published m : settled_as None m StatusPublished EmptyString 0.
Proof. done. Qed.

Lemma settled_permanent e m : is_Some (errors_As as_permanent e) → settled_as (Some e) m StatusDead (Error e) 0.
Proof. intros [pe Hp]. unfold settled_as, verdict_delay, verdict. by rewrite (bool_decide_Some _ _ Hp). Qed.

Lemma settled_discard e m : errors_As as_permanent e = None → is_Some (errors_As as_discard e) →
  settled_as (Some e) m StatusDiscarded (Error e) 0.
Proof.
  intros Hp [di Hd]. unfold settled_as, verdict_delay, verdict.
  by rewrite (bool_decide_None _ Hp), (bool_decide_Some _ _ Hd).
Qed.

(** The others are decided message by message. *)
Lemma settled_decision e m w st delay w' :
  errors_As as_permanent e = None → errors_As as_discard e = None →
  retry_decision rt r (errors_As as_retry e) m w = (Ok (st, delay), w') →
  settled_as (Some e) m st (Error e) delay.
Proof.
  intros Hp Hd Hv%retry_decision_inv. unfold settled_as, verdict_delay, verdict.
  rewrite (bool_decide_None _ Hp), (bool_decide_None _ Hd).
  destruct (limit m <=? Attempts m); by destruct Hv as [-> Hv].
Qed.

(** ** Proof principle

    A relation on worlds holds along a computation of the relay as soon as it
    holds of its steps: what the others do, and each statement it may send. *)
Section Steps.
Context (R : W → W → Prop) `{!Reflexive R, !Transitive R}.

Definition tolerates (P : Obs → Prop) : Prop :=
  ∀ w w' o, others (server_of w) (server_of w') → records w w' o → Forall P o → R w w'.
Definition allows (st : Stmt) : Prop :=
  ∀ w w' x, call others st w w' x → records w w' [Sent st] → R w w'.

Lemma aside_preserves {A} P (m : go W A) o :
  tolerates P → aside others m o → (∀ x, Forall P (o x)) → preserves R m.
Proof. intros HR Hm Ho w x w' E. destruct (Hm _ _ _ E). by eapply HR. Qed.

Lemma exec_preserves st : allows st → preserves R (Exec (exec (store r)) st).
Proof.
  intros HR w x w' E. destruct (exec_law _ _ _ _ E) as [? Hx].
  destruct x as [[n [e|]]|p]; destruct Hx as (? & Hx); [| |]; try destruct Hx; by eapply HR.
Qed.

Lemma query_preserves st : allows st → preserves R (Query (exec (store r)) st).
Proof.
  intros HR w x w' E. destruct (query_law _ _ _ _ E) as [? Hx].
  destruct x as [[n [e|]]|p]; destruct Hx as (? & Hx); [| |]; try destruct Hx; by eapply HR.
Qed.

Definition is_event (o : Obs) : Prop := match o with Observed _ => True | _ => False end.

Section Quiet.
Context (Hq : tolerates is_event).

Lemma runtime_preserves {A} (m : go W A) o :
  aside others m o → (∀ x, Forall is_event (o x)) → preserves R m.
Proof. by apply aside_preserves. Qed.

Lemma ctx_preserves : preserves R (ctx_Err rt).
Proof. eapply runtime_preserves; [apply ctx_law|by constructor]. Qed.
Lemma pubctx_preserves : preserves R (pubCtx_Err rt).
Proof. eapply runtime_preserves; [apply pubctx_law|by constructor]. Qed.
Lemma events_preserves dl d : preserves R (heartbeat_events rt dl d).
Proof. eapply runtime_preserves; [apply events_law|by constructor]. Qed.
Lemma random_preserves : preserves R (random rt).
Proof. eapply runtime_preserves; [apply random_law|by constructor]. Qed.
Lemma observe_preserves ev : preserves R (observe rt ev).
Proof. eapply runtime_preserves; [apply observe_law|repeat constructor]. Qed.
Hint Resolve ctx_preserves pubctx_preserves events_preserves random_preserves observe_preserves : outbox.

Lemma hook_preserves s ev : preserves R (call_hook rt s ev).
Proof. unfold call_hook. preserves_steps. Qed.
Lemma logger_preserves s ev : preserves R (call_logger rt s ev).
Proof. unfold call_logger. preserves_steps. Qed.
Hint Resolve hook_preserves logger_preserves : outbox.

Lemma for_each_preserves {A} (l : list A) f :
  (∀ a, preserves R (f a)) → preserves R (for_each l f : go W unit).
Proof. intros Hf. induction l; simpl; preserves_steps. Qed.

Lemma isFatal_preserves s e : preserves R (isFatal rt s e).
Proof. unfold isFatal. preserves_steps. Qed.

Lemma renew_preserves ms : allows (renew_stmt ms) → preserves R (renew (store r) ms (LeaseDuration (set r))).
Proof.
  intros Ha. unfold renew, claimKeys. pose proof (exec_preserves _ Ha). preserves_steps.
Qed.

Lemma heartbeat_preserves evs ms : allows (renew_stmt ms) → preserves R (heartbeat rt r evs ms).
Proof.
  intros Ha. pose proof (renew_preserves ms Ha).
  induction evs as [|[]]; simpl; preserves_steps.
Qed.

Lemma beat_preserves ms : allows (renew_stmt ms) → preserves R (beat rt r ms).
Proof. intros Ha. unfold beat. preserves_steps. by apply heartbeat_preserves. Qed.

Lemma publish_preserves ms :
  allows (renew_stmt ms) → (∀ c, preserves R (Publish (pub r) c ms)) → preserves R (publish rt r ms).
Proof. intros Ha Hp. pose proof (beat_preserves ms Ha). unfold publish. preserves_steps. Qed.

Lemma complete_preserves ms st cause delay :
  (ms ≠ [] → allows (finish_stmt ms st (match cause with Some e => Error e | None => EmptyString end) delay)) →
  preserves R (complete rt r ms st cause delay).
Proof.
  intros Ha. unfold complete.
  assert (preserves R (finish (store r) ms st (match cause with Some e => Error e | None => EmptyString end)
            delay (ClearPayloadOnComplete (set r)))) as Hf.
  { unfold finish, claimKeys. destruct ms as [|m ms]; [by apply preserves_ret|].
    pose proof (query_preserves _ (Ha ltac:(done))). preserves_steps. }
  preserves_steps; apply for_each_preserves; eauto with outbox.
Qed.

Lemma retry_decision_preserves retry m : preserves R (retry_decision rt r retry m).
Proof. unfold retry_decision. preserves_steps. Qed.

(** The statements [settle] may send: completions of messages of the batch with
    their own verdict. *)
Definition settles (ms : list Message) (outcome : Message → option err) : Prop :=
  ∀ ms' st why d, ms' ≠ [] →
    (∀ m, m ∈ ms' → m ∈ ms ∧ settled_as (outcome m) m st why d) →
    allows (finish_stmt ms' st why d).

Lemma settles_sub ms ms' f g :
  settles ms f → (∀ m, m ∈ ms' → m ∈ ms ∧ g m = f m) → settles ms' g.
Proof.
  intros Hs Hsub l st why d Hne Hl. apply Hs; [done|]. intros m Hm.
  destruct (Hl m Hm) as [Hin Hv], (Hsub m Hin) as [? E]. by rewrite <-E.
Qed.

Lemma settle_loop_preserves e errs ms :
  errors_As as_permanent e = None → errors_As as_discard e = None →
  settles ms (λ _, Some e) →
  preserves R (settle_loop rt r e (errors_As as_retry e) errs ms).
Proof.
  intros Hp Hd. revert errs. induction ms as [|m ms IH]; intros errs Hs; simpl; [preserves_steps|].
  intros w x w' E. run_inv E; [|subst; by eapply retry_decision_preserves].
  etrans; [by eapply retry_decision_preserves|].
  destruct x0 as [st delay].
  assert (preserves R (complete rt r [m] st (Some e) delay)) as Hone.
  { apply complete_preserves. intros _. apply Hs; [done|].
    intros m' ->%list_elem_of_singleton. split; [by left|]. by eapply settled_decision. }
  run_inv E; [|by eapply Hone]. etrans; [by eapply Hone|]. eapply IH; [|exact E].
  eapply settles_sub; [exact Hs|]. intros. split; [by right|done].
Qed.

Lemma settle_preserves ms perr : settles ms (λ _, perr) → preserves R (settle rt r ms perr).
Proof.
  intros Hs. unfold settle. destruct ms as [|m0 ms0]; [preserves_steps|].
  destruct perr as [e|].
  - destruct (errors_As as_permanent e) as [pe|] eqn:Hp.
    { apply complete_preserves. intros Hne. apply Hs; [done|]. intros m Hm. split; [done|].
      by eapply settled_permanent. }
    destruct (errors_As as_discard e) as [di|] eqn:Hd; [|by apply settle_loop_preserves].
    apply complete_preserves. intros Hne. apply Hs; [done|]. intros m Hm. split; [done|].
    by eapply settled_discard.
  - apply complete_preserves. intros Hne. apply Hs; [done|]. intros m Hm. split; [done|apply settled_as_published].
Qed.

Lemma settleEach_loop_preserves outs oth pub0 others0 errs ms :
  let f m := default oth (map_entry outs (ID m)) in
  settles (pub0 ++ others0 ++ ms) f →
  (∀ m, m ∈ pub0 → f m = None) → (∀ m, m ∈ others0 → f m = oth) →
  preserves R (settleEach_loop rt r outs oth pub0 others0 errs ms).
Proof.
  intros f. revert pub0 others0 errs. induction ms as [|m ms IH]; intros pub0 others0 errs Hs Hp Ho;
    cbn [settleEach_loop].
  - assert (settles pub0 (λ _, None)) as Hs1.
    { eapply settles_sub; [exact Hs|]. intros m Hm. rewrite (Hp m Hm). set_solver. }
    assert (settles others0 (λ _, oth)) as Hs2.
    { eapply settles_sub; [exact Hs|]. intros m Hm. rewrite (Ho m Hm). set_solver. }
    pose proof (settle_preserves _ _ Hs1). pose proof (settle_preserves _ _ Hs2). preserves_steps.
  - destruct (default oth (map_entry outs (ID m))) as [e|] eqn:Hf.
    + destruct (map_entry outs (ID m)) as [ent|] eqn:He.
      * apply preserves_bind; [done| |intros e'].
        { apply settle_preserves. eapply settles_sub; [exact Hs|]. intros m' ->%list_elem_of_singleton.
          split; [set_solver|]. unfold f. rewrite He. done. }
        apply IH; [|done..]. eapply settles_sub; [exact Hs|]. set_solver.
      * apply IH; [|done|].
        { eapply settles_sub; [exact Hs|]. set_solver. }
        intros m' [?| ->%list_elem_of_singleton]%elem_of_app; [auto|]. unfold f. by rewrite He.
    + apply IH; [| |done].
      { eapply settles_sub; [exact Hs|]. set_solver. }
      intros m' [?| ->%list_elem_of_singleton]%elem_of_app; auto.
Qed.

Lemma settleEach_preserves ms outs oth :
  settles ms (λ m, default oth (map_entry outs (ID m))) → preserves R (settleEach rt r ms outs oth).
Proof.
  intros Hs. apply settleEach_loop_preserves; [done|..]; by intros ? ?%not_elem_of_nil.
Qed.
End Quiet.
End Steps.

(** ** The stages of a batch *)

(** What [processBatch] does once neither a fatal error nor a lost lease stops it. *)
Definition settle_batch (ms : list Message) (perr : option err) : go W (option err) :=
  match errors_As_opt as_batch perr with
  | Some (outcomes, oth) => settleEach rt r ms outcomes oth
  | None => settle rt r ms perr
  end.

Definition fatal_stage (perr : option err) : go W bool :=
  match perr with Some pe => isFatal rt (set r) pe | None => mret false end.

Lemma settle_batch_preserves R `{!Reflexive R, !Transitive R} ms perr :
  tolerates R is_event → settles R ms (message_outcome perr) → preserves R (settle_batch ms perr).
Proof.
  intros Hq Hs. unfold settle_batch, message_outcome in *.
  destruct (errors_As_opt as_batch perr) as [[outs oth]|].
  - by apply settleEach_preserves.
  - by apply settle_preserves.
Qed.

(** A batch that is not settled: nothing claimed, or stopped on the way. *)
Inductive stopped : res panic (Z * option err) → W → W → Prop :=
| st_claim w w' x y :
    claim (store r) (set r) w = (x, w') →
    match x with
    | Ok (ms, e) => (ms = [] ∨ is_Some e) ∧ y = Ok (0, e)
    | Panicked p => y = Panicked p
    end → stopped y w w'
| st_publish w w1 w' ms p :
    claim (store r) (set r) w = (Ok (ms, None), w1) → ms ≠ [] →
    publish rt r ms w1 = (Panicked p, w') → stopped (Panicked p) w w'
| st_fatal w w1 w2 w' ms ms' perr leaseErr f y :
    claim (store r) (set r) w = (Ok (ms, None), w1) → ms ≠ [] →
    publish rt r ms w1 = (Ok (ms', perr, leaseErr), w2) → fatal_stage perr w2 = (f, w') →
    match f with
    | Panicked p => y = Panicked p
    | Ok true => ∃ pe, perr = Some pe ∧ y = Ok (Z.of_nat (length ms), Some (EFatal pe))
    | Ok false => is_Some leaseErr ∧ y = Ok (Z.of_nat (length ms), leaseErr)
    end → stopped y w w'.

Inductive batch : res panic (Z * option err) → W → W → Prop :=
| b_stopped y w w' : stopped y w w' → batch y w w'
| b_settled w w1 w2 w3 w' ms ms' perr x :
    claim (store r) (set r) w = (Ok (ms, None), w1) → ms ≠ [] →
    publish rt r ms w1 = (Ok (ms', perr, None), w2) → fatal_stage perr w2 = (Ok false, w3) →
    settle_batch ms' perr w3 = (x, w') →
    batch (match x with Ok e => Ok (Z.of_nat (length ms), e) | Panicked p => Panicked p end) w w'.

Lemma processBatch_inv w y w' : processBatch rt r w = (y, w') → batch y w w'.
Proof.
  unfold processBatch. intros E. run_inv E; [|subst; apply b_stopped; by eapply st_claim].
  destruct x as [ms e]. destruct e as [e|].
  { injection E as <- <-. apply b_stopped. eapply st_claim; [done|]. split; eauto. }
  destruct ms as [|m ms].
  { injection E as <- <-. apply b_stopped. eapply st_claim; [done|]. split; eauto. }
  set (msgs := m :: ms) in *. assert (msgs ≠ []) as Hne by done.
  run_inv E; [|subst; apply b_stopped; by eapply st_publish].
  destruct x as [[msgs' perr] leaseErr]. fold (fatal_stage perr) in E.
  run_inv E; [|subst; apply b_stopped; by eapply st_fatal].
  destruct x as [].
  { destruct perr as [pe|]; [|done]. injection E as <- <-. apply b_stopped.
    eapply (st_fatal _ _ _ _ msgs _ _ _ (Ok true)); [done..|]. by exists pe. }
  assert ((match leaseErr with
           | Some _ => mret (Z.of_nat (length msgs), leaseErr)
           | None => e ← settle_batch msgs' perr; mret (Z.of_nat (length msgs), e)
           end : go W _) x2 = (y, w')) as E'.
  { rewrite <-E. unfold settle_batch. destruct leaseErr; [by destruct perr|].
    destruct (errors_As_opt as_batch perr) as [[]|]; by destruct perr. }
  destruct leaseErr.
  { injection E' as <- <-. apply b_stopped.
    eapply (st_fatal _ _ _ _ msgs _ _ _ (Ok false)); [done..|]. split; [by eexists|done]. }
  run_inv E'.
  - injection E' as <- <-. by eapply (b_settled _ _ _ _ _ msgs msgs' perr (Ok _)).
  - subst. by eapply (b_settled _ _ _ _ _ msgs msgs' perr (Panicked _)).
Qed.
End Relay.
