(* ===== verification/RelaySafety.v ===== *)
(** * Safety of a running relay

    For any executor, publisher, clock, fault and interleaving: a relay is one
    of the processes of [Safety.v]; every completion it sends records the
    publisher's own verdict on a message it was handed; a fatal error, a lost
    lease or a panic leaves the batch claimed; hooks see committed rows only;
    and a drain returns nothing but fatal errors. *)

From stdpp Require Import relations.
From S2P Require Import Prelude Outcome Message Backoff Config Postgres Store System Safety StoreSpec Relay World RelaySpec.

Open Scope string_scope.
Open Scope Z_scope.

Section Relay.
Context `{Postgres} {W : Type} `{Deployment W} (others : relation (server W)).
Context (rt : Runtime W) (r : Relay W).
Context `{!LawfulExecutor others (exec (store r))}.
Context `{!LawfulPublisher others (pub r)} `{!LawfulRuntime others rt}.

Definition passive (o : Obs) : Prop := match o with Sent _ => False | _ => True end.

Lemma event_passive o : is_event o → passive o.
Proof. by destruct o. Qed.

Lemma tolerates_weaken R P Q : (∀ o, P o → Q o) → tolerates others R Q → tolerates others R P.
Proof. intros HPQ Hq w w' o ? ? Ho. eapply Hq; [done..|]. by eapply Forall_impl. Qed.

Lemma preserves_fatal_stage R `{!Reflexive R, !Transitive R} perr :
  tolerates others R is_event → preserves R (fatal_stage rt r perr).
Proof.
  intros. unfold fatal_stage. destruct perr; [by eapply isFatal_preserves|preserves_steps].
Qed.

(** ** Whole runs *)
Section Whole.
Context (R : W → W → Prop) `{!Reflexive R, !Transitive R}.
Context (Hq : tolerates others R passive).
Context (Hclaim : allows others R (claim_stmt r)).
Context (Hrenew : ∀ ms, allows others R (renew_stmt r ms)).

Let Hev : tolerates others R is_event := tolerates_weaken _ _ _ event_passive Hq.

Lemma claim_preserves : preserves R (claim (store r) (set r)).
Proof.
  unfold claim. apply preserves_bind; [done| |].
  - by eapply query_preserves.
  - intros [rs [e|]]; preserves_steps.
Qed.

Lemma handed_preserves c ms : preserves R (Publish (pub r) c ms).
Proof. eapply aside_preserves; [exact Hq|apply publish_law|repeat constructor]. Qed.

Lemma publish_whole ms : preserves R (publish rt r ms).
Proof.
  eapply publish_preserves; try done. intros c. apply handed_preserves.
Qed.

Lemma stopped_preserves y w w' : stopped rt r y w w' → R w w'.
Proof.
  inversion 1; subst.
  - by eapply claim_preserves.
  - etrans; [by eapply claim_preserves|by eapply publish_whole].
  - etrans; [by eapply claim_preserves|]. etrans; [by eapply publish_whole|].
    by eapply preserves_fatal_stage.
Qed.

Context (Hsettle : ∀ ms perr, preserves R (settle_batch rt r ms perr)).

Lemma processBatch_preserves : preserves R (processBatch rt r).
Proof.
  intros w y w' Hb%processBatch_inv. destruct Hb; [by eapply stopped_preserves|].
  etrans; [by eapply claim_preserves|]. etrans; [by eapply publish_whole|].
  etrans; [by eapply preserves_fatal_stage|by eapply Hsettle].
Qed.
End Whole.

(** Drains and workers stay in any relation their batches stay in. *)
Section Loops.
Context (R : W → W → Prop) `{!Reflexive R, !Transitive R}.
Context (Hev : tolerates others R is_event) (Hb : preserves R (processBatch rt r)).

Lemma drain_preserves fuel : preserves R (drain rt r fuel).
Proof.
  pose proof (ctx_preserves others rt R Hev) as Hctx.
  pose proof (isFatal_preserves others rt R Hev) as Hfat.
  pose proof (logger_preserves others rt R Hev) as Hlog.
  induction fuel as [|fuel IH]; simpl; preserves_steps.
Qed.

Lemma worker_preserves fuel evs : preserves R (worker rt r fuel evs).
Proof.
  pose proof (drain_preserves fuel).
  induction evs as [|[]]; simpl; preserves_steps.
Qed.
End Loops.

(** ** Refinement of the transition system *)

(** A relation on servers that holds of what the others do and of every statement
    of the library holds along a worker's run. *)
Section Along.
Context (R : relation (server W)) `{!Reflexive R, !Transitive R}.
Context (Hoth : ∀ s s', others s s' → R s s').
Context (Hruns : ∀ e st s s', issued (st_cmd st) → runs e st s s' → R s s').

Definition along (w w' : W) : Prop := R (server_of w) (server_of w').

#[local] Instance along_refl : Reflexive along.
Proof. intros w. unfold along. reflexivity. Qed.
#[local] Instance along_trans : Transitive along.
Proof. intros w1 w2 w3. unfold along. apply transitivity. Qed.

Lemma along_tolerates P : tolerates others along P.
Proof. intros w w' o Ho _ _. by apply Hoth. Qed.
Lemma along_allows st : issued (st_cmd st) → allows others along st.
Proof.
  intros Hi w w' x Hc _. unfold along. destruct Hc as [e s s' d H1 Hr _ H2|e s s' H1 Hr H2|Ho]; [| |by apply Hoth];
    (transitivity s; [by apply Hoth|]; transitivity s'; [by eapply Hruns|by apply Hoth]).
Qed.

Lemma claim_allowed : allows others along (claim_stmt r).
Proof. apply along_allows. constructor. Qed.
Lemma renew_allowed ms : allows others along (renew_stmt r ms).
Proof. apply along_allows. constructor. Qed.

Lemma publish_along ms : preserves along (publish rt r ms).
Proof. apply (publish_whole along); [apply along_tolerates|apply renew_allowed]. Qed.

Lemma fatal_along perr : preserves along (fatal_stage rt r perr).
Proof. apply preserves_fatal_stage; [apply _..|apply along_tolerates]. Qed.

Lemma settle_along ms perr : preserves along (settle_batch rt r ms perr).
Proof.
  apply (settle_batch_preserves others); [apply _..|apply along_tolerates|].
  intros ms' st why d Hne Hv. apply along_allows. constructor.
  destruct ms' as [|m ms']; [done|]. destruct (Hv m) as [_ [-> _]]; [by left|].
  apply verdict_not_processing.
Qed.

Lemma processBatch_along : preserves along (processBatch rt r).
Proof.
  apply (processBatch_preserves along); [apply along_tolerates|apply claim_allowed|apply renew_allowed|apply settle_along].
Qed.

Lemma worker_along fuel evs : preserves along (worker rt r fuel evs).
Proof. apply (worker_preserves along); [apply along_tolerates|apply processBatch_along]. Qed.
End Along.

Section Refinement.
Context (Hoth : ∀ s s', others s s' → base_steps s s').

Lemma evolves_tolerates P : tolerates others evolves P.
Proof. intros w w' o Ho _ _. by apply Hoth. Qed.
Lemma runs_evolves e st s s' : issued (st_cmd st) → runs e st s s' → base_steps s s'.
Proof. intros ? ?. by eapply rtc_once, runs_step. Qed.
Lemma evolves_allows st : issued (st_cmd st) → allows others evolves st.
Proof. apply (along_allows base_steps); [apply Hoth|apply runs_evolves]. Qed.

Lemma processBatch_evolves : preserves evolves (processBatch rt r).
Proof. apply (processBatch_along base_steps); [apply Hoth|apply runs_evolves]. Qed.

(** Refinement: whatever a worker's events, faults and interleavings, the
    table it leaves is reached from the one it found by steps of the library's
    transition system, so every theorem about reachable tables (well-formed
    rows, fencing of lost tokens) holds while relays run. *)
Theorem worker_refines fuel evs w x w' :
  worker rt r fuel evs w = (x, w') → rtc sys_step (sys_of w) (sys_of w').
Proof.
  apply (worker_preserves evolves); [apply evolves_tolerates|apply processBatch_evolves].
Qed.
End Refinement.

(** ** Completions record the publisher's verdict *)

Definition not_handed (o : Obs) : Prop := match o with Handed _ _ => False | _ => True end.

(** The last batch handed to the publisher is [ms], and the publisher returned:
    [ms'] is what it left of the batch, [perr] its answer. *)
Definition last_handed (seen : list Obs) (ms ms' : list Message) (perr : option err) : Prop :=
  ∃ before after, seen = (before ++ Handed ms (Ok (ms', perr)) :: after)%list ∧ Forall not_handed after.

(** The batch last handed over holds a message with this id and token, and what is
    recorded (state, reason and delay) is what the publisher's answer on it stands
    for, read with the attempts and the attempt limit it left the message. *)
Definition backed (seen : list Obs) (id tok : string) (st : Status) (why : arg) (delay : duration) : Prop :=
  ∃ ms ms' perr m m', last_handed seen ms ms' perr ∧ m ∈ ms ∧ m' ∈ ms' ∧ shares m m' ∧
    ID m = id ∧ LeaseToken m = tok ∧
    ∃ reason, why = nullStr reason ∧ settled_as r (message_outcome perr m') m' st reason delay.

Definition justified (seen : list Obs) (o : Obs) : Prop :=
  match o with
  | Sent (mkStmt tbl (CFinish ids tokens st why delay clear)) =>
      tbl = table (store r) ∧ clear = ClearPayloadOnComplete (set r) ∧ length ids = length tokens ∧
      ∀ id tok, (id, tok) ∈ zip ids tokens → backed seen id tok st why delay
  | _ => True
  end.

Definition trace_ok (tr : list Obs) : Prop :=
  ∀ pre o post, tr = (pre ++ o :: post)%list → justified pre o.

Lemma trace_ok_nil : trace_ok [].
Proof. by intros [] ? ? [=]. Qed.

Lemma trace_ok_snoc tr o : trace_ok tr → justified tr o → trace_ok (tr ++ [o]).
Proof.
  intros Hok Ho pre o' post E. destruct post as [|o1 post] using rev_ind.
  - apply app_inj_tail in E as [-> ->]. done.
  - rewrite app_comm_cons, app_assoc in E. apply app_inj_tail in E as [-> _]. by eapply Hok.
Qed.

Lemma trace_ok_app tr os : trace_ok tr → Forall passive os → trace_ok (tr ++ os).
Proof.
  intros Hok Hp. revert tr Hok. induction Hp as [|o os Ho _ IH]; intros tr Hok.
  - by rewrite app_nil_r.
  - rewrite cons_middle, app_assoc. apply IH.
    apply trace_ok_snoc; [done|]. by destruct o.
Qed.

(** Invariants: justified traces, and those whose last batch is a given one. *)
Definition sound (w : W) : Prop := trace_ok (trace_of w).
Definition handed_over (ms ms' : list Message) (perr : option err) (w : W) : Prop :=
  sound w ∧ last_handed (trace_of w) ms ms' perr ∧ Forall2 shares ms ms'.

Lemma last_handed_app tr os ms ms' perr :
  last_handed tr ms ms' perr → Forall not_handed os → last_handed (tr ++ os) ms ms' perr.
Proof.
  intros (b & a & -> & Ha) Ho. exists b, (a ++ os)%list. rewrite <-app_assoc. split; [done|by apply Forall_app].
Qed.

Lemma sound_tolerates : tolerates others (keeps sound) passive.
Proof. intros w w' os _ E Ho Hok. unfold sound. rewrite E. by apply trace_ok_app. Qed.

Lemma sound_allows st : (∀ seen, justified seen (Sent st)) → allows others (keeps sound) st.
Proof. intros Hj w w' x _ E Hok. unfold sound. rewrite E. by apply trace_ok_snoc. Qed.

Lemma handed_tolerates ms ms' perr : tolerates others (keeps (handed_over ms ms' perr)) is_event.
Proof.
  intros w w' os _ E Ho (Hok & Hin & Hsh). unfold handed_over, sound. rewrite E. split_and!; [| |done].
  - apply trace_ok_app; [done|]. eapply Forall_impl; [exact Ho|apply event_passive].
  - apply last_handed_app; [done|]. eapply Forall_impl; [exact Ho|by intros []].
Qed.

Lemma in_zip_map ms id tok : (id, tok) ∈ zip (map ID ms) (map LeaseToken ms) →
  ∃ m, m ∈ ms ∧ ID m = id ∧ LeaseToken m = tok.
Proof.
  induction ms as [|m ms IH]; simpl; [by intros ?%not_elem_of_nil|].
  intros [?|Hin]%elem_of_cons; simplify_eq.
  - exists m. split_and!; [by left|done..].
  - destruct (IH Hin) as (m' & ? & ?). exists m'. split; [by right|done].
Qed.

Lemma handed_settles ms ms' perr :
  settles others r (keeps (handed_over ms ms' perr)) ms' (message_outcome perr).
Proof.
  intros l st why d Hne Hv w w' x _ E (Hok & Hin & Hsh). unfold handed_over, sound. rewrite E.
  split_and!; [|apply last_handed_app; [done|by constructor]|done].
  apply trace_ok_snoc; [done|]. simpl. rewrite !length_map. split_and!; [done..|].
  intros id tok (m' & Hm & <- & <-)%in_zip_map. destruct (Hv m' Hm) as [Hm' Has].
  apply list_elem_of_lookup in Hm' as [i Hi].
  destruct (Forall2_lookup_r _ _ _ _ _ Hsh Hi) as (m & Hm0 & Hs).
  exists ms, ms', perr, m, m'. pose proof (list_elem_of_lookup_2 _ _ _ Hi). pose proof (list_elem_of_lookup_2 _ _ _ Hm0).
  destruct Hs as [Hid]. split_and!; try done. by exists why.
Qed.

(** The one call of the publisher inside [publish]. *)
Lemma publish_call ms w ms' perr le w' :
  publish rt r ms w = (Ok (ms', perr, le), w') →
  ∃ c w1 w2, Publish (pub r) c ms w1 = (Ok (ms', perr), w2).
Proof.
  intros E. unfold publish in E. run_inv E; [|done]. run_inv E; [|done]. destruct x1 as [l e].
  run_inv E; [|done]. injection E as <- <- _ _. eauto.
Qed.

Lemma publish_batch ms w ms' perr le w' :
  publish rt r ms w = (Ok (ms', perr, le), w') → Forall2 shares ms ms'.
Proof. intros (c & w1 & w2 & E)%publish_call. by eapply publish_shares. Qed.

Lemma publish_answered ms w ms' perr le w' :
  publish rt r ms w = (Ok (ms', perr, le), w') → sound w → handed_over ms ms' perr w'.
Proof.
  intros E Hok. pose proof E as E0.
  assert (sound w') as Hok'.
  { eapply (publish_whole (keeps sound)); try done; [apply sound_tolerates|].
    intros ms0. by apply sound_allows. }
  split; [done|]. split; [|by eapply publish_batch].
  unfold publish in E. run_inv E; [|done]. run_inv E; [|done]. destruct x1 as [l e1].
  run_inv E; [|done]. injection E as <- <- _ <-.
  assert (grows not_handed x2 x3) as (tr & -> & Htr).
  { destruct x; [|injection H3 as _ <-; by apply (grows_refl (W:=W))].
    eapply (beat_preserves others rt r (grows not_handed)); [..|eassumption].
    - intros u u' o _ Ho He. apply (records_grows _ _ _ o Ho). eapply Forall_impl; [exact He|by intros []].
    - intros u u' y _ Ho. eapply records_grows; [exact Ho|by constructor]. }
  match goal with X : Publish _ _ _ _ = _ |- _ => apply publish_law in X as [_ ->] end.
  eexists _, tr. by rewrite <-app_assoc.
Qed.

Lemma processBatch_sound_trace : preserves (keeps sound) (processBatch rt r).
Proof.
  assert (allows others (keeps sound) (claim_stmt r)) as Hc by by apply sound_allows.
  assert (∀ ms, allows others (keeps sound) (renew_stmt r ms)) as Hr by (intros; by apply sound_allows).
  intros w y w' Hb%processBatch_inv Hok. destruct Hb as [y w w' Hst|w w1 w2 w3 w' ms ms' perr x E1 _ E2 E3 E4].
  - revert Hok. by eapply (stopped_preserves (keeps sound)); [apply sound_tolerates|..].
  - assert (sound w1) as Hok1 by (revert Hok; by eapply (claim_preserves (keeps sound))).
    assert (handed_over ms ms' perr w3) as Ha.
    { assert (handed_over ms ms' perr w2) as Ha2 by by eapply publish_answered.
      revert Ha2. eapply (preserves_fatal_stage _ _ (handed_tolerates _ _ _)). done. }
    enough (handed_over ms ms' perr w') as [? _] by done.
    exact (settle_batch_preserves others rt r (keeps (handed_over ms ms' perr)) ms' perr
             (handed_tolerates _ _ _) (handed_settles ms ms' perr) _ _ _ E4 Ha).
Qed.

(** C2. No message is marked published, dead, discarded or retried on a guess:
    in every run of a worker, whatever fails around it, each row named by a
    completion statement is one of the batch last handed to the publisher, under
    that same lease token, the publisher returned, and what the statement records
    is what its answer on that very message stands for: the state, the reason
    (the text of the message's error, or none) and the delay (none, or for a retry
    the backoff of the message's attempts, never negative and at least what a
    retry-after answer asks for).  What the publisher does to the memory it shares
    with the relay can change that message's attempt limit, and no other part of
    what is recorded. *)
Theorem worker_completions_justified fuel evs w x w' :
  worker rt r fuel evs w = (x, w') → trace_ok (trace_of w) → trace_ok (trace_of w').
Proof.
  apply (worker_preserves (keeps sound)).
  - intros w1 w2 o ? ? Ho. eapply sound_tolerates; [done..|].
    eapply Forall_impl; [exact Ho|apply event_passive].
  - apply processBatch_sound_trace.
Qed.

(** ** Batches that stop before settling *)

Definition no_finish (o : Obs) : Prop :=
  match o with Sent (mkStmt _ (CFinish _ _ _ _ _ _)) => False | _ => True end.

Lemma grows_tolerates (P Q : Obs → Prop) : (∀ o, Q o → P o) → tolerates others (grows P) Q.
Proof. intros HQ w w' o _ E Ho. exists o. split; [done|]. by eapply Forall_impl. Qed.
Lemma grows_allows (P : Obs → Prop) st : P (Sent st) → allows others (grows P) st.
Proof. intros HP w w' x _ E. exists [Sent st]. by split; [|constructor]. Qed.

Lemma passive_no_finish o : passive o → no_finish o.
Proof. by destruct o. Qed.

(** A batch stopped before settling sends no completion: its rows stay claimed. *)
Lemma stopped_no_finish y w w' : stopped rt r y w w' → grows no_finish w w'.
Proof.
  apply stopped_preserves; [apply _..|apply grows_tolerates, passive_no_finish| |];
    intros; by apply grows_allows.
Qed.

Lemma beat_trace ms : preserves (grows not_handed) (beat rt r ms).
Proof.
  apply (beat_preserves others); [apply _..|apply grows_tolerates; by intros []|]. by apply grows_allows.
Qed.

(** What a publish call leaves in the trace: renewals around the one hand-over. *)
Lemma publish_trace ms w ms' perr le w' :
  publish rt r ms w = (Ok (ms', perr, le), w') →
  ∃ tr tr', records w w' (tr ++ Handed ms (Ok (ms', perr)) :: tr') ∧
    Forall not_handed tr ∧ Forall not_handed tr'.
Proof.
  intros E. unfold publish in E. run_inv E; [|done]. run_inv E; [|done]. destruct x1 as [l e1].
  run_inv E; [|done]. injection E as <- <- _ <-.
  assert (grows not_handed w x0) as (tr & E1 & Htr) by by eapply beat_trace.
  assert (grows not_handed x2 x3) as (tr' & E3 & Htr').
  { destruct x; [by eapply beat_trace|injection H3 as _ <-; by apply (grows_refl (W:=W))]. }
  match goal with X : Publish _ _ _ _ = _ |- _ => apply publish_law in X as [_ E2] end.
  exists tr, tr'. split; [|done]. unfold records in *. by rewrite E3, E2, E1, <-!app_assoc.
Qed.

Lemma isFatal_false e w w' : isFatal rt (set r) e w = (Ok false, w') → always_fatal e = false.
Proof. unfold isFatal. by destruct (always_fatal e). Qed.

(** The publisher's answer ends the relay whatever the classifier says. *)
Definition ends_relay (answer : res panic (list Message * option err)) : Prop :=
  match answer with
  | Panicked _ => True
  | Ok (_, Some e) => always_fatal e = true
  | Ok (_, None) => False
  end.

Lemma settled_not_handed ms perr : preserves (grows not_handed) (settle_batch rt r ms perr).
Proof.
  apply (settle_batch_preserves others); [apply _..|apply grows_tolerates; by intros []|].
  intros ms' st why d _ _. by apply grows_allows.
Qed.

Lemma grows_sub (P Q : Obs → Prop) w w' : (∀ o, P o → Q o) → grows P w w' → grows Q w w'.
Proof. intros HPQ (tr & Hr & HP). exists tr. split; [done|]. by eapply Forall_impl. Qed.

(** A batch that reaches its settling was handed over once. *)
Lemma batch_trace w w1 w2 w3 w' ms ms' perr x :
  claim (store r) (set r) w = (Ok (ms, None), w1) → publish rt r ms w1 = (Ok (ms', perr, None), w2) →
  fatal_stage rt r perr w2 = (Ok false, w3) → settle_batch rt r ms' perr w3 = (x, w') →
  ∃ tr tr', records w w' (tr ++ Handed ms (Ok (ms', perr)) :: tr') ∧
    Forall not_handed tr ∧ Forall not_handed tr'.
Proof.
  intros E1 E2 E3 E4.
  assert (grows not_handed w w1) as (tr1 & R1 & H1).
  { eapply (claim_preserves (grows not_handed)); [|exact E1]. by apply grows_allows. }
  apply publish_trace in E2 as (tr2 & tr2' & R2 & H2 & H2').
  assert (grows not_handed w2 w') as (tr3 & R3 & H3).
  { etrans; [|by eapply settled_not_handed]. eapply (grows_sub is_event); [by intros []|].
    eapply (preserves_fatal_stage (grows is_event)); [by apply grows_tolerates|exact E3]. }
  exists (tr1 ++ tr2)%list, (tr2' ++ tr3)%list. split_and!.
  - unfold records in *. by rewrite R3, R2, R1, <-!app_assoc.
  - by apply Forall_app.
  - by apply Forall_app.
Qed.

(** C16. An abort, or a panic of the publisher or one wrapped in its error,
    leaves the batch claimed: a batch in whose course the publisher gave such an
    answer sends no completion at all, so its rows come back when their lease
    expires. *)
Theorem fatal_answer_leaves_claims w y w' :
  processBatch rt r w = (y, w') →
  ∃ tr, records w w' tr ∧
    ((∃ ms a, Handed ms a ∈ tr ∧ ends_relay a) → Forall no_finish tr).
Proof.
  intros Hb%processBatch_inv. destruct Hb as [y w w' Hst|w w1 w2 w3 w' ms ms' perr x E1 _ E2 E3 E4].
  - destruct (stopped_no_finish _ _ _ Hst) as (tr & ? & ?). by exists tr.
  - destruct (batch_trace _ _ _ _ _ _ _ _ _ E1 E2 E3 E4) as (tr & tr' & Hr & H1 & H2).
    eexists. split; [exact Hr|]. intros (l & a & Hin & Ha). exfalso.
    assert (∀ tr, Forall not_handed tr → Handed l a ∉ tr) as Hno.
    { intros t Ht Hx. by rewrite Forall_forall in Ht; apply Ht in Hx. }
    assert (Handed l a = Handed ms (Ok (ms', perr))) as [= -> ->].
    { apply elem_of_app in Hin as [Hin|[?|Hin]%elem_of_cons]; [by destruct (Hno _ H1)|done|].
      by destruct (Hno _ H2). }
    destruct perr as [e|]; [|done]. apply isFatal_false in E3. simpl in Ha. congruence.
Qed.

(** ** Errors *)

Lemma foreign_wrap p e : foreign (EWrap p e) ↔ foreign e.
Proof. unfold foreign. rewrite errors_As_unfold. simpl. by rewrite or_else_None. Qed.

Lemma foreign_join es : foreign (EJoin es) ↔ Forall foreign es.
Proof.
  unfold foreign. rewrite errors_As_unfold. simpl.
  induction es as [|e es IH]; simpl; [done|]. rewrite Forall_cons, <-IH.
  destruct (errors_As as_fatal e); simpl; naive_solver.
Qed.

Lemma foreign_Join es e : errors_Join es = Some e → (∀ x, Some x ∈ es → foreign x) → foreign e.
Proof.
  unfold errors_Join. intros He Hes.
  assert (e = EJoin (omap id es)) as -> by (destruct (omap id es); naive_solver).
  apply foreign_join, Forall_forall. intros x (y & Hy & [= ->])%list_elem_of_omap. auto.
Qed.

Definition yields_foreign (m : go W (option err)) : Prop :=
  ∀ w e w', m w = (Ok (Some e), w') → foreign e.

Lemma scanMessages_foreign rs ms e : scanMessages rs = (ms, Some e) → foreign e.
Proof.
  unfold scanMessages. generalize (@nil Message). revert ms.
  induction rs as [|[id row] rs IH]; intros ms out; simpl; [done|].
  destruct (json_Unmarshal (headers row)) as [h|e'] eqn:E; [apply IH|].
  intros [= _ <-]. apply foreign_wrap. unfold json_Unmarshal in E.
  destruct (headers row); try (by inversion E); simplify_eq; try done.
  by destruct (json_fields _); simplify_eq.
Qed.

Lemma complete_foreign ms st cause delay : yields_foreign (complete rt r ms st cause delay).
Proof.
  intros w e w' E. unfold complete in E. run_inv E; [|done]. destruct x as [completed [e'|]].
  - injection E as <- <-. unfold finish, claimKeys in *. destruct ms; [by simplify_eq/=|].
    run_inv H1; [|done]. destruct x as [rs [e1|]].
    + injection H1 as _ <- _.
      match goal with X : Query _ _ _ = _ |- _ => apply query_law in X as (_ & _ & Hf) end. done.
    + injection H1 as Hs _. by eapply scanMessages_foreign.
  - run_inv E; [|done]. destruct (_ =? _)%nat; [done|]. by injection E as <- _.
Qed.

Lemma settle_loop_foreign e retry errs ms :
  Forall foreign errs → yields_foreign (settle_loop rt r e retry errs ms).
Proof.
  revert errs. induction ms as [|m ms IH]; intros errs Hes w e' w' E; simpl in E.
  - injection E as Hj _. eapply foreign_Join; [exact Hj|].
    intros x (y & [= ->] & Hy)%list_elem_of_fmap. by rewrite Forall_forall in Hes; apply Hes.
  - run_inv E; [|done]. destruct x as [st delay]. run_inv E; [|done].
    eapply IH; [|exact E]. apply Forall_app. split; [done|]. destruct x as [e1|]; [|constructor].
    repeat constructor. by eapply complete_foreign.
Qed.

Lemma settle_foreign ms perr : yields_foreign (settle rt r ms perr).
Proof.
  unfold settle. destruct ms as [|m ms]; [done|]. destruct perr as [e|]; [|apply complete_foreign].
  destruct (errors_As as_permanent e); [apply complete_foreign|].
  destruct (errors_As as_discard e); [apply complete_foreign|]. by apply settle_loop_foreign.
Qed.

Lemma settleEach_loop_foreign outs oth ps os errs ms :
  (∀ x, Some x ∈ errs → foreign x) → yields_foreign (settleEach_loop rt r outs oth ps os errs ms).
Proof.
  revert ps os errs. induction ms as [|m ms IH]; intros ps os errs Hes w e w' E; cbn [settleEach_loop] in E.
  - run_inv E; [|done]. run_inv E; [|done]. injection E as Hj _. eapply foreign_Join; [exact Hj|].
    intros y [?|[?|[?|?%not_elem_of_nil]%elem_of_cons]%elem_of_cons]%elem_of_app; subst; auto;
      first [done|by eapply settle_foreign].
  - destruct (default oth (map_entry outs (ID m)));
      [destruct (map_entry outs (ID m))|]; try exact (IH _ _ _ Hes _ _ _ E).
    run_inv E; [|done]. refine (IH _ _ _ _ _ _ _ E).
    intros y [?|?%list_elem_of_singleton]%elem_of_app; subst; auto. by eapply settle_foreign.
Qed.

Lemma settle_batch_foreign ms perr : yields_foreign (settle_batch rt r ms perr).
Proof.
  unfold settle_batch. destruct (errors_As_opt as_batch perr) as [[outs oth]|].
  - apply settleEach_loop_foreign. by intros ? ?%not_elem_of_nil.
  - apply settle_foreign.
Qed.

Lemma renew_foreign ms d : yields_foreign (renew (store r) ms d).
Proof.
  intros w e w' E. unfold renew, claimKeys in E. run_inv E; [|done]. destruct x as [n [e'|]].
  - injection E as -> _.
    match goal with X : Exec _ _ _ = _ |- _ => apply exec_law in X as (_ & _ & Hf) end. done.
  - destruct (n =? _); [done|]. by injection E as <- _.
Qed.

Lemma heartbeat_foreign evs ms w e c w' :
  heartbeat rt r evs ms w = (Ok (Beaten (Some e) c), w') → foreign e ∧ c = true.
Proof.
  revert w. induction evs as [|[] evs IH]; intros w; simpl; try done. intros E.
  run_inv E; [|done]. destruct x as [e1|]; [|by eapply IH].
  run_inv E; [|done]. destruct x as []; [done|]. injection E as <- <- _. split; [|done].
  apply foreign_wrap. by eapply renew_foreign.
Qed.

Lemma heartbeat_panic evs ms w p w' :
  heartbeat rt r evs ms w = (Panicked p, w') → foreign (panic_error p).
Proof.
  revert w. induction evs as [|[] evs IH]; intros w; simpl; try done. intros E.
  run_inv E.
  - destruct x as [e1|]; [|by eapply IH]. run_inv E; [by destruct x|].
    by destruct (pubctx_returns _ _ _ ltac:(eassumption)).
  - simplify_eq. unfold renew, claimKeys in *. run_inv H1; [by repeat case_match|].
    match goal with X : Exec _ _ _ = _ |- _ => apply exec_law in X as (_ & _ & Hf) end.
    by simplify_eq.
Qed.

(** The relay stops for this error: an abort, a recovered panic, or one the
    caller's classifier accepts. *)
Definition accepted (e : err) : Prop :=
  always_fatal e = true ∨ ∃ f, Fatal (set r) = Some f ∧ f e = Ok true.

Lemma isFatal_true e w w' : isFatal rt (set r) e w = (Ok true, w') → accepted e.
Proof.
  unfold isFatal, accepted. destruct (always_fatal e); [by left|]. intros E. right.
  run_inv E; [|done]. destruct x as []; [done|]. destruct (Fatal (set r)) as [f|]; [|done].
  injection E as Hf _. eauto.
Qed.

Lemma claim_foreign w ms e w' : claim (store r) (set r) w = (Ok (ms, Some e), w') → foreign e.
Proof.
  intros E. unfold claim in E. run_inv E; [|done]. destruct x as [rs [e'|]].
  - injection E as _ <- _.
    match goal with X : Query _ _ _ = _ |- _ => apply query_law in X as (_ & _ & Hf) end. done.
  - injection E as Hs _. by eapply scanMessages_foreign.
Qed.

(** The error of a renewal, or the panic of the heartbeat. *)
Lemma beat_foreign ms w e c w' : beat rt r ms w = (Ok (Beaten (Some e) c), w') → foreign e.
Proof.
  intros E. unfold beat in E. run_inv E; [|done]. unfold try_catch in E.
  destruct (heartbeat rt r x ms x0) as [[hb|p] w2] eqn:Eh; simplify_eq.
  - by apply heartbeat_foreign in Eh as [? _].
  - by eapply heartbeat_panic.
Qed.

Lemma publish_lease_error ms w ms' perr e w' :
  publish rt r ms w = (Ok (ms', perr, Some e), w') → foreign e.
Proof.
  intros E. unfold publish in E. run_inv E; [|done]. run_inv E; [|done]. destruct x1 as [l e1].
  run_inv E; [|done]. injection E as _ _ E _.
  destruct x as [|e' c]; [|injection H3 as <- _; simpl in E; subst e'; by eapply beat_foreign].
  destruct x1 as [|e' c]; simpl in E; [done|]. subst e'. by eapply beat_foreign.
Qed.

Lemma processBatch_error w n e w' :
  processBatch rt r w = (Ok (n, Some e), w') →
  (∃ pe, e = EFatal pe ∧ accepted pe) ∨ foreign e.
Proof.
  intros Hb%processBatch_inv. inversion Hb as [? ? ? Hst|? ? ? ? ? ? ? ? x _ _ _ _ Hs]; subst.
  - inversion Hst as [? ? x ? Hc Hx|? ? ? ? ? _ _ Hp|? ? ? ? ms ms' perr le f ? _ _ Hp Hf Hx]; subst.
    + destruct x as [[ms e']|p]; [|done]. destruct Hx as [_ [= -> <-]].
      right. by eapply claim_foreign.
    + destruct f as [[]|p]; [| |done].
      * destruct Hx as (pe & -> & [= -> ->]). left. exists pe. split; [done|]. by eapply isFatal_true.
      * destruct Hx as (_ & [= -> <-]). right. by eapply publish_lease_error.
  - destruct x as [e'|p]; simplify_eq. right. by eapply settle_batch_foreign.
Qed.

Lemma drain_error fuel w e w' : drain rt r fuel w = (Ok (Some (Some e)), w') → accepted e.
Proof.
  revert w. induction fuel as [|fuel IH]; intros w E; simpl in E; [done|].
  run_inv E; [|done]. destruct x as []; [done|]. run_inv E; [|done].
  destruct x as [n [e1|]].
  - destruct (errors_As as_fatal e1) as [c|] eqn:Hc.
    + injection E as <- _.
      match goal with X : processBatch _ _ _ = _ |- _ =>
        apply processBatch_error in X as [(pe & -> & Ha)|Hf] end.
      * by simplify_eq/=.
      * unfold foreign in Hf. congruence.
    + run_inv E; [|done]. destruct x as [].
      * injection E as <- _. by eapply isFatal_true.
      * run_inv E; done.
  - destruct (n =? 0); [done|]. by eapply IH.
Qed.

(** A worker returns an error only to stop the relay: an abort, a recovered
    panic, or an error the caller's classifier accepts; lost leases, database
    errors and everything else are logged and left to a later wake-up. *)
Lemma worker_error fuel evs w e w' :
  worker rt r fuel evs w = (Ok (Some (Some e)), w') → accepted e.
Proof.
  revert w. induction evs as [|ev evs IH]; intros w E; simpl in E; [done|].
  destruct ev; [done|..]; (run_inv E; [|done]); destruct x as [[e1|]|]; try done;
    [injection E as <- _; by eapply drain_error|by eapply IH|
     injection E as <- _; by eapply drain_error|by eapply IH].
Qed.

(** ** Hooks *)

(** The calls a completion as [st] may make about the rows it returned. *)
Definition reports (st : Status) (cause : option err) (ms : list Message) (ev : Event) : Prop :=
  match ev with
  | OnPublished l => st = StatusPublished ∧ l = ms
  | OnDiscarded l c => st = StatusDiscarded ∧ l = ms ∧ c = cause
  | OnDead m => st = StatusDead ∧ m ∈ ms
  | OnFailed m c => st = StatusPending ∧ m ∈ ms ∧ c = cause
  | OnCleanup _ | LogError _ _ | LogWarn _ => False
  end.

Lemma observe_grows (P : Obs → Prop) ev : P (Observed ev) → preserves (grows P) (observe rt ev).
Proof.
  intros HP w x w' E. apply observe_law in E as [_ E]. exists [Observed ev]. by split; [|constructor].
Qed.

Lemma hook_grows (P : Obs → Prop) s ev : P (Observed ev) → preserves (grows P) (call_hook rt s ev).
Proof.
  intros HP. unfold call_hook. destruct (sHooks s); [by apply observe_grows|apply preserves_raise, _].
Qed.

Lemma for_each_grows {A} (P : Obs → Prop) (l : list A) f :
  (∀ a, a ∈ l → preserves (grows P) (f a)) → preserves (grows P) (for_each l f : go W unit).
Proof.
  induction l as [|a l IH]; intros Hf; simpl; [apply preserves_ret, _|].
  apply preserves_bind; [apply _|apply Hf; by left|]. intros _. apply IH. intros b Hb. apply Hf. by right.
Qed.

(** C31. Hooks observe committed outcomes only: a completion sends one statement
    first, and calls a hook only when its answer arrived, about the rows that
    statement changed and the state it gave them. *)
Theorem hooks_report_committed ms st cause delay w x w' :
  ms ≠ [] → complete rt r ms st cause delay w = (x, w') →
  ∃ tr, records w w' (Sent (finish_stmt r ms st (match cause with Some e => Error e | None => EmptyString end) delay) :: tr) ∧
    (tr ≠ [] → ∃ w1 d, call others (finish_stmt r ms st (match cause with Some e => Error e | None => EmptyString end) delay) w w1 (Some d) ∧
       Forall (λ o, ∃ ev, o = Observed ev ∧ reports st cause (map scanned (d_rows d)) ev) tr).
Proof.
  intros Hne E. unfold complete in E.
  set (stmt := finish_stmt r ms st _ delay) in *.
  assert (∀ y w1, finish (store r) ms st (match cause with Some e => Error e | None => EmptyString end)
            delay (ClearPayloadOnComplete (set r)) w = (y, w1) →
          records w w1 [Sent stmt] ∧
          (∀ c, y = Ok (c, None) → ∃ d, call others stmt w w1 (Some d) ∧ c = map scanned (d_rows d))) as Hfin.
  { intros y w1 Ef. unfold finish, claimKeys in Ef. destruct ms as [|m ms']; [done|].
    run_inv Ef; subst.
    - match goal with X : Query _ _ _ = _ |- _ => apply query_law in X as [Hr Hd] end.
      destruct x0 as [rs [e|]].
      + injection Ef as <- <-. by split.
      + injection Ef as <- <-. split; [done|]. intros c [= Hs]. destruct Hd as (d & Hd & ->).
        exists d. split; [done|]. unfold scanMessages in Hs.
        destruct (scan_loop_cases [] (d_rows d)) as [[Hsc _]|[e Hsc]]; rewrite Hsc in Hs; by simplify_eq.
    - match goal with X : Query _ _ _ = _ |- _ => apply query_law in X as [Hr _] end. by split. }
  run_inv E; [|subst; destruct (Hfin _ _ ltac:(eassumption)) as [Hr _]; by exists []].
  destruct (Hfin _ _ ltac:(eassumption)) as [Hr Hc]. destruct x0 as [completed [e|]].
  { injection E as <- <-. by exists []. }
  destruct (Hc _ eq_refl) as (d & Hcall & ->). set (c := map scanned (d_rows d)) in *.
  set (P := λ o, ∃ ev, o = Observed ev ∧ reports st cause c ev).
  match type of E with (?m ≫= _) _ = _ => assert (preserves (grows P) m) as Hp end.
  { assert (∀ ev, reports st cause c ev → P (Observed ev)) as HP by (intros ev ?; by exists ev).
    destruct c as [|m c'] eqn:Ec; [apply preserves_ret, _|]. rewrite <-Ec in *. destruct st.
    - apply for_each_grows. intros a ?. by apply hook_grows, HP.
    - apply preserves_ret, _.
    - by apply hook_grows, HP.
    - apply for_each_grows. intros a ?. by apply hook_grows, HP.
    - destruct (sHooks (set r)) as [h|]; [|apply preserves_ret, _].
      destruct (implements_discard h); [by apply observe_grows, HP|apply preserves_ret, _]. }
  assert (grows P x1 w') as (tr & Htr & HP).
  { apply M_bind_inv in E as [(? & w2 & E1 & E2)|(? & E1 & _)]; [|by eapply Hp].
    enough (w' = w2) as -> by by eapply Hp. destruct (_ =? _)%nat; by injection E2 as _ <-. }
  exists tr. unfold records in *. split; [by rewrite Htr, Hr, <-app_assoc|]. eauto.
Qed.
End Relay.
