(* ===== verification/Handover.v ===== *)
(** * What a relay hands to the publisher

    Whatever happens around a worker, each batch it hands over is read from the
    table as one claim of its own left it: nothing is published that was not
    read, under a lease, from the table the server shows the relay, and in ordered
    mode nothing that was not the head of its key there.  No claim is handed over
    twice. *)

From stdpp Require Import relations.
From S2P Require Import Prelude Outcome Message Backoff Config Postgres Store System Safety StoreSpec Relay World RelaySpec RelaySafety.

Open Scope string_scope.
Open Scope Z_scope.

Section Handover.
Context `{Postgres} {W : Type} `{Deployment W} (others : relation (server W)).
Context (rt : Runtime W) (r : Relay W).
Context `{!LawfulExecutor others (exec (store r))}.
Context `{!LawfulPublisher others (pub r)} `{!LawfulRuntime others rt}.

(** A relation on servers, as in [RelaySafety.along]. *)
Context (R : relation (server W)) `{!Reflexive R, !Transitive R}.
Context (Hoth : ∀ s s', others s s' → R s s').
Context (Hruns : ∀ e st s s', issued (st_cmd st) → runs e st s s' → R s s').

#[local] Instance along_reflexive : Reflexive (along R).
Proof. intros w. unfold along. reflexivity. Qed.
#[local] Instance along_transitive : Transitive (along R).
Proof. intros w1 w2 w3. unfold along. apply transitivity. Qed.

(** The message is what [scanRow] reads from a row that is processing under the
    message's token. *)
Definition leased_as (db : Db) (m : Message) : Prop :=
  ∃ row, rows db !! ID m = Some row ∧ status row = StatusProcessing ∧
    lease_token row = Some (LeaseToken m) ∧ readable row ∧ m = scanned (ID m, row).

(** Two such messages of one key that are both its head are the same. *)
Lemma leased_heads db m m' :
  wf_db db → leased_as db m → leased_as db m' → head_of_key (rows db) (ID m) → head_of_key (rows db) (ID m') →
  PartitionKey m = PartitionKey m' → PartitionKey m ≠ EmptyString → m = m'.
Proof.
  intros Hwf (row & Hr & Hs & _ & _ & Em) (row' & Hr' & Hs' & _ & _ & Em') Hh Hh' Hk Hne.
  destruct (decide (ID m = ID m')) as [Hid|Hid]; [rewrite Hid in Hr, Em; congruence|]. exfalso.
  rewrite Em, Em' in Hk. rewrite Em in Hne. simpl in Hk, Hne.
  assert (∃ k, partition_key row = Some k ∧ partition_key row' = Some k) as (k & Hk1 & Hk2).
  { destruct (partition_key row), (partition_key row'); simpl in *; subst; eauto; done. }
  assert (settled row = false ∧ settled row' = false) as [Hn Hn'] by (unfold settled; by rewrite Hs, Hs').
  assert (seq row ≠ seq row') as [Hb|Hb]%before_trichotomy by (intros ?; by eapply Hid, wf_seq_inj).
  - rewrite (Hh' row' (ID m) row k) in Hn by done. done.
  - rewrite (Hh row (ID m') row' k) in Hn' by done. done.
Qed.

(** Between the two worlds a claim took the server from one state to another, drew
    the tokens of the messages there, and left the claimed row of every message of
    the batch; in ordered mode each is the head of its key. *)
Definition claimed_between (w w' : W) (ms : list Message) : Prop :=
  ∃ s0 s, R (server_of w) s0 ∧ R s0 s ∧ R s (server_of w') ∧ NoDup (map ID ms) ∧
    ∀ m, m ∈ ms → leased_as (s_db (base s)) m ∧
      LeaseToken m ∉ s_used (base s0) ∧ LeaseToken m ∈ s_used (base s) ∧
      (Ordered (set r) = true → head_of_key (rows (s_db (base s))) (ID m)).

Lemma claimed_between_mono w0 w w' w1 ms :
  along R w0 w → along R w' w1 → claimed_between w w' ms → claimed_between w0 w1 ms.
Proof. unfold along. intros H1 H2 (s0 & s & ? & ? & ? & ? & ?). exists s0, s. split_and!; [by etrans|done|by etrans|done..]. Qed.

Lemma claimed_nothing w w' : along R w w' → claimed_between w w' [].
Proof.
  intros Ha. exists (server_of w), (server_of w). split_and!; [done..|exact Ha|constructor|]. by intros m ?%not_elem_of_nil.
Qed.

Lemma claim_claimed w ms w' :
  claim (store r) (set r) w = (Ok (ms, None), w') → claimed_between w w' ms.
Proof.
  intros E. unfold claim in E. run_inv E; [|done]. destruct x as [rs [e|]]; [done|]. injection E as Hs <-.
  match goal with X : Query _ _ _ = _ |- _ => apply query_law in X as [_ (d & Hc & ->)] end.
  unfold scanMessages in Hs. destruct (scan_loop_cases [] (d_rows d)) as [[Hsc Hread]|[? Hsc]]; rewrite Hsc in Hs; simplify_eq.
  inversion Hc as [e s s' d' Ho Hr Hex Ho'| |]; subst. assert (R s s') as HR by (eapply Hruns; [|exact Hr]; apply (issued_claim (set r))).
  assert (exec_claim e (Ordered (set r)) (InstanceID (set r)) (LeaseDuration (set r)) (BatchSize (set r)) (s_db (base s)) = SqlOk d)
    as Hcl by (revert Hex; unfold exec_stmt; by destruct (String.eqb _ _)).
  assert (s_db (base s') = d_db d) as Hdb by (rewrite (runs_base _ _ _ _ Hr); simpl; unfold after_stmt; by rewrite Hex).
  destruct (claim_facts _ _ _ _ _ _ _ Hcl) as ((Hnd & _) & Hclaimed & _).
  exists s, s'. split_and!; [by apply Hoth|exact HR|by apply Hoth|simpl; by rewrite map_map|].
  intros m ([id row] & -> & Hin)%list_elem_of_fmap. destruct (Hclaimed _ _ Hin) as (row0 & _ & -> & Hrow & _).
  assert (leased_as (s_db (base s')) (scanned (id, claim_row e (InstanceID (set r)) (LeaseDuration (set r)) id row0))) as Hl.
  { eexists. rewrite Hdb. rewrite Forall_forall in Hread. split_and!; [exact Hrow|done|done|exact (Hread _ Hin)|done]. }
  split_and!; [exact Hl|apply (ready_fresh _ _ (runs_ready _ _ _ _ Hr))| |].
  - rewrite (runs_base _ _ _ _ Hr). simpl. apply elem_of_union_r. unfold after_stmt. rewrite Hex.
    unfold table_tokens. apply elem_of_list_to_set, list_elem_of_omap. eexists (id, _).
    split; [by apply elem_of_map_to_list|done].
  - intros Hord. rewrite Hdb. rewrite Hord in Hcl. eapply claim_heads; [exact Hcl|]. apply list_elem_of_fmap. by eexists.
Qed.

(** ** What is handed over *)

Definition handed (tr : list Obs) : list (list Message) :=
  omap (λ o, match o with Handed ms _ => Some ms | _ => None end) tr.

Lemma sublist_one {A} (l : list A) x : l `sublist_of` [x] → l = [] ∨ l = [x].
Proof. inversion 1 as [|? ? ? Hl|? ? ? Hl]; subst; inversion Hl; auto. Qed.

(** Between the two worlds, these batches. *)
Definition hands (l : list (list Message)) (w w' : W) : Prop := ∃ tr, records w w' tr ∧ handed tr = l.

Lemma hands_app l1 l2 w1 w2 w3 : hands l1 w1 w2 → hands l2 w2 w3 → hands (l1 ++ l2) w1 w3.
Proof.
  intros (tr1 & R1 & <-) (tr2 & R2 & <-). exists (tr1 ++ tr2)%list. split; [by eapply records_app|apply omap_app].
Qed.

Lemma quiet_hands w w' : grows not_handed w w' → hands [] w w'.
Proof.
  intros (tr & Hr & Hn). exists tr. split; [done|]. clear Hr. induction Hn as [|o tr Ho _ IH]; [done|]. by destruct o.
Qed.

Lemma claim_hands w y w' : claim (store r) (set r) w = (y, w') → hands [] w w'.
Proof.
  intros E. apply quiet_hands. revert E.
  apply (claim_preserves others r (grows not_handed)). by apply grows_allows.
Qed.

Lemma fatal_hands perr w y w' : fatal_stage rt r perr w = (y, w') → hands [] w w'.
Proof.
  intros E. apply quiet_hands. revert E.
  apply (preserves_fatal_stage others rt r (grows not_handed)); [apply _..|apply grows_tolerates; by intros []].
Qed.

Lemma settle_hands ms perr w y w' : settle_batch rt r ms perr w = (y, w') → hands [] w w'.
Proof. intros E. apply quiet_hands. by eapply settled_not_handed. Qed.

(** A call of publish hands its batch over at most once. *)
Lemma publish_hands ms w y w' : publish rt r ms w = (y, w') → ∃ l, hands l w w' ∧ l `sublist_of` [ms].
Proof.
  intros E. unfold publish in E.
  assert (∀ v x v', beat rt r ms v = (x, v') → hands [] v v') as Hbeat by (intros; by eapply quiet_hands, beat_trace).
  run_inv E.
  2: { subst. exists []. split; [by eapply Hbeat|apply sublist_nil_l]. }
  match goal with X : beat _ _ _ w = _ |- _ => apply Hbeat in X as H1 end.
  assert (∀ a v, (trace_of v = trace_of x0 ++ [Handed ms a])%list → hands [ms] w v) as Hpub.
  { intros a v Hv. change [ms] with ([] ++ [ms])%list. eapply hands_app; [exact H1|]. by exists [Handed ms a]. }
  run_inv E; match goal with X : Publish _ _ _ _ = _ |- _ => apply publish_law in X as [_ Hrec] end.
  2: { subst. exists [ms]. split; [by eapply Hpub|done]. }
  destruct x1 as [l e1]. exists [ms]. split; [|done]. apply Hpub in Hrec.
  change [ms] with ([ms] ++ [])%list. eapply hands_app; [exact Hrec|].
  assert (∀ v y v', (match x with Beating => beat rt r ms | Beaten _ _ => mret x end) v = (y, v') → hands [] v v') as Hlast.
  { intros v z v'. destruct x; [apply Hbeat|]. intros [= _ <-]. by apply quiet_hands, (grows_refl (W:=W)). }
  run_inv E; [|subst; by eapply Hlast]. injection E as _ <-. by eapply Hlast.
Qed.

(** A batch whose claim returned [ms] goes on along the relation. *)
Lemma after_claim w w1 w' ms :
  claim (store r) (set r) w = (Ok (ms, None), w1) → along R w1 w' → claimed_between w w' ms.
Proof. intros Ec Ha. eapply (claimed_between_mono w w w1); [reflexivity|exact Ha|by eapply claim_claimed]. Qed.

Lemma then_publish w w1 w2 w' ms y :
  hands [] w w1 → publish rt r ms w1 = (y, w2) → hands [] w2 w' → ∃ l, hands l w w' ∧ l `sublist_of` [ms].
Proof.
  intros H1 (l' & H2 & Hl)%publish_hands H3. exists l'. split; [|done].
  rewrite <-(app_nil_r l'). eapply hands_app; [|exact H3]. by apply (hands_app [] l' w w1 w2).
Qed.

Lemma batch_hands w y w' :
  processBatch rt r w = (y, w') → ∃ ms l, hands l w w' ∧ l `sublist_of` [ms] ∧ claimed_between w w' ms.
Proof.
  pose proof (publish_along others rt r R Hoth Hruns) as Hp. pose proof (fatal_along others rt r R Hoth) as Hf.
  pose proof (settle_along others rt r R Hoth Hruns) as Hs. intros Hb.
  pose proof (processBatch_along others rt r R Hoth Hruns _ _ _ Hb) as Hall. apply processBatch_inv in Hb.
  inversion Hb as [? ? ? Hst|? w1 w2 w3 ? ms ms' perr x Ec _ Ep Ef Es]; subst.
  - inversion Hst as [? ? x ? Ec _|? w1 ? ms p Ec _ Ep|? w1 w2 ? ms ms' perr le f ? Ec _ Ep Ef _]; subst.
    + exists [], []. split_and!; [by eapply claim_hands|apply sublist_nil_l|by apply claimed_nothing].
    + exists ms. destruct (publish_hands _ _ _ _ Ep) as (l & Hl & Hsub). exists l.
      split_and!; [apply (hands_app [] l w w1 w'); [by eapply claim_hands|done]|done|eapply after_claim; [done|by eapply Hp]].
    + exists ms. destruct (then_publish w w1 w2 w' ms _ ltac:(by eapply claim_hands) Ep ltac:(by eapply fatal_hands))
        as (l & Hl & Hsub). exists l. split_and!; [done..|]. eapply after_claim; [done|]. etrans; [by eapply Hp|by eapply Hf].
  - exists ms. destruct (then_publish w w1 w2 w' ms _ ltac:(by eapply claim_hands) Ep) as (l & Hl & Hsub).
    { apply (hands_app [] [] w2 w3 w'); [by eapply fatal_hands|by eapply settle_hands]. }
    exists l. split_and!; [done..|]. eapply after_claim; [done|]. etrans; [by eapply Hp|]. etrans; [by eapply Hf|by eapply Hs].
Qed.

(** ** Whole runs *)

Section Runs.
(** States from which tokens are never forgotten. *)
Context (Good : server W → Prop) (Hgood : ∀ s s', R s s' → Good s → Good s').
Context (Hused : ∀ s s', R s s' → Good s → s_used (base s) ⊆ s_used (base s')).

(** The claims the batches were handed over under. *)
Definition handed_keys (l : list (list Message)) : list (string * string) := flat_map (map msg_key) l.

Lemma NoDup_msg_keys ms : NoDup (map ID ms) → NoDup (map msg_key ms).
Proof.
  intros Hnd. apply (NoDup_fmap_1 fst). change (fst <$> map msg_key ms) with (map fst (map msg_key ms)).
  by rewrite map_map.
Qed.

(** Between the two worlds every batch handed over had its claimed rows, and every
    claim was a new one, handed over once. *)
Definition accounted (w w' : W) : Prop :=
  along R w w' ∧
  ∃ tr, records w w' tr ∧ (∀ ms, ms ∈ handed tr → claimed_between w w' ms) ∧
    (Good (server_of w) → NoDup (handed_keys (handed tr)) ∧
      ∀ k, k ∈ handed_keys (handed tr) → k.2 ∉ s_used (sys_of w) ∧ k.2 ∈ s_used (sys_of w')).

Lemma nothing_accounted w w' tr : along R w w' → records w w' tr → handed tr = [] → accounted w w'.
Proof.
  intros Ha Hr Hn. split; [done|]. exists tr. rewrite Hn. split_and!; [done|by intros ms ?%not_elem_of_nil|].
  intros _. split; [constructor|]. by intros k ?%not_elem_of_nil.
Qed.

#[local] Instance accounted_refl : Reflexive accounted.
Proof. intros w. eapply (nothing_accounted w w []); [reflexivity|unfold records; by rewrite app_nil_r|done]. Qed.

#[local] Instance accounted_trans : Transitive accounted.
Proof.
  intros w1 w2 w3 (A1 & tr1 & R1 & C1 & K1) (A2 & tr2 & R2 & C2 & K2). split; [by etrans|].
  exists (tr1 ++ tr2)%list. unfold handed. rewrite omap_app. fold (handed tr1) (handed tr2).
  split_and!; [by eapply records_app| |].
  - intros ms [Hin|Hin]%elem_of_app.
    + eapply (claimed_between_mono w1 w1 w2 w3); [reflexivity|done|by apply C1].
    + eapply (claimed_between_mono w1 w2 w3 w3); [done|reflexivity|by apply C2].
  - intros Hg. pose proof (Hgood _ _ A1 Hg) as Hg2. destruct (K1 Hg) as [N1 F1], (K2 Hg2) as [N2 F2].
    pose proof (Hused _ _ A1 Hg) as U1. pose proof (Hused _ _ A2 Hg2) as U2. unfold sys_of in *.
    unfold handed_keys. rewrite flat_map_app. fold (handed_keys (handed tr1)) (handed_keys (handed tr2)). split.
    + apply NoDup_app. split_and!; [done| |done]. intros k [_ Hk]%F1 [Hn _]%F2. done.
    + intros k [[? ?]%F1|[? ?]%F2]%elem_of_app; split; set_solver.
Qed.

Lemma batch_accounted w y w' : processBatch rt r w = (y, w') → accounted w w'.
Proof.
  intros E. pose proof (processBatch_along others rt r R Hoth Hruns _ _ _ E) as Ha.
  apply batch_hands in E as (ms & l & (tr & Hr & Hl) & Hsub & Hc).
  destruct (sublist_one _ _ Hsub) as [->| ->]; [by eapply nothing_accounted|]. split; [done|]. exists tr. rewrite Hl. split_and!; [done| |].
  - by intros ms' ->%list_elem_of_singleton.
  - intros Hg. destruct Hc as (s0 & s & R0 & R1 & R2 & Hnd & Hms). unfold handed_keys. simpl. rewrite app_nil_r.
    split; [by apply NoDup_msg_keys|]. intros k (m & -> & Hm)%list_elem_of_fmap. simpl.
    destruct (Hms m Hm) as (_ & Hn & Hi & _). pose proof (Hgood _ _ R0 Hg) as Hg0. unfold sys_of.
    pose proof (Hused _ _ R0 Hg). pose proof (Hused _ _ R2 (Hgood _ _ R1 Hg0)). set_solver.
Qed.

Lemma worker_accounted fuel evs : preserves accounted (worker rt r fuel evs).
Proof.
  apply (worker_preserves others rt r accounted); [|intros w y w' E; by eapply batch_accounted].
  intros w w' o Ho Hr He. apply (nothing_accounted w w' o); [by apply Hoth|done|].
  clear Hr. induction He as [|x o Hx _ IH]; [done|]. by destruct x.
Qed.
End Runs.

(** ** When a drain stops *)

(** At some moment between the two worlds a claim of this relay ran and every row
    it could have taken was locked. *)
Definition exhausted_between (w w' : W) : Prop :=
  ∃ e s s', R (server_of w) s ∧ runs e (claim_stmt r) s s' ∧ R s' (server_of w') ∧
    ∀ id row, rows (s_db (base s)) !! id = Some row →
      claimable (e_now e) (Ordered (set r)) (rows (s_db (base s))) row = true → id ∈ e_locked e.

Lemma nothing_selected e inst lease limit db ordered d :
  exec_claim e ordered inst lease limit db = SqlOk d → d_rows d = [] → 1 ≤ limit →
  ∀ id row, rows db !! id = Some row → claimable (e_now e) ordered (rows db) row = true → id ∈ e_locked e.
Proof.
  unfold exec_claim. destruct (limit <? 0); [done|]. destruct (negb _); [done|].
  set (sel := claim_select e ordered limit (rows db)). destruct (forallb _ _); [|done]. intros [= <-] Hrs Hl id row Hr Hc.
  assert (∀ i, i ∉ sel) as Hnone.
  { intros i Hi. pose proof Hi as (_ & ri & Hri & _)%elem_of_claim_select.
    assert ((i, ri) ∈ matched (λ id _, bool_decide (id ∈ sel)) (rows db)) as Hm
      by (apply elem_of_matched; split; [done|by apply bool_decide_eq_true]).
    simpl in Hrs. pose proof (returning_perm (map (λ ir : string * Row, (ir.1, claim_row e inst lease ir.1 ir.2))
      (matched (λ id _, bool_decide (id ∈ sel)) (rows db)))) as Hp.
    rewrite Hrs in Hp. apply Permutation_nil, map_eq_nil in Hp. rewrite Hp in Hm. by apply not_elem_of_nil in Hm. }
  apply dec_stable. intros Hn.
  pose proof (claim_select_full e ordered limit (rows db) id row Hr Hc Hn (Hnone id) ltac:(lia)) as Hlen. fold sel in Hlen.
  destruct sel as [|i l]; [simpl in Hlen; lia|]. apply (Hnone i). left.
Qed.

Lemma claim_exhausted w w' :
  1 ≤ BatchSize (set r) → claim (store r) (set r) w = (Ok ([], None), w') → exhausted_between w w'.
Proof.
  intros Hbs E. unfold claim in E. run_inv E; [|done]. destruct x as [rs [er|]]; [done|]. injection E as Hs <-.
  match goal with X : Query _ _ _ = _ |- _ => apply query_law in X as [_ (d & Hc & ->)] end.
  unfold scanMessages in Hs. destruct (scan_loop_cases [] (d_rows d)) as [[Hsc _]|[? Hsc]]; rewrite Hsc in Hs; [|done]. injection Hs as Hs.
  inversion Hc as [e s s' d' Ho Hr Hex Ho'| |]; subst. exists e, s, s'. split_and!; [by apply Hoth|done|by apply Hoth|].
  assert (exec_claim e (Ordered (set r)) (InstanceID (set r)) (LeaseDuration (set r)) (BatchSize (set r)) (s_db (base s)) = SqlOk d)
    as Hcl by (revert Hex; unfold exec_stmt; by destruct (String.eqb _ _)).
  eapply nothing_selected; [exact Hcl| |exact Hbs]. by apply map_eq_nil in Hs.
Qed.

Lemma exhausted_mono w0 w w' w1 : along R w0 w → along R w' w1 → exhausted_between w w' → exhausted_between w0 w1.
Proof. unfold along. intros H1 H2 (e & s & s' & ? & ? & ? & ?). exists e, s, s'. split_and!; [by etrans|done|by etrans|done]. Qed.

(** Why a drain reports nothing: the context ended, a batch failed and was logged,
    or there was nothing left to claim. *)
Inductive drain_stops (w w' : W) : Prop :=
| stops_context w1 : along R w w1 → ctx_Err rt w1 = (Ok true, w') → drain_stops w w'
| stops_failed w1 er : along R w w1 → records w1 w' [Observed (LogError "outbox: relay batch failed" er)] → drain_stops w w'
| stops_exhausted : exhausted_between w w' → drain_stops w w'.

Lemma drain_stops_later w w1 w' : along R w w1 → drain_stops w1 w' → drain_stops w w'.
Proof.
  intros Ha [w2 H2 E|w2 er H2 E|He].
  - eapply stops_context; [|exact E]. by etrans.
  - eapply stops_failed; [|exact E]. by etrans.
  - apply stops_exhausted. eapply exhausted_mono; [exact Ha|reflexivity|exact He].
Qed.

Lemma batch_empty w w' :
  1 ≤ BatchSize (set r) → processBatch rt r w = (Ok (0, None), w') → exhausted_between w w'.
Proof.
  intros Hbs Hb%processBatch_inv. inversion Hb as [? ? ? Hst|? w1 w2 w3 ? ms ms' perr x Ec Hne Ep Ef Es Hy]; subst.
  - inversion Hst as [? ? x ? Ec Hx|? w1 ? ms p Ec _ Ep|? w1 w2 ? ms ms' perr le f ? Ec Hne Ep Ef Hx]; subst.
    + destruct x as [[ms e]|p]; [|done]. destruct Hx as [Hms [= <-]].
      destruct Hms as [->|[? ?]]; [by eapply claim_exhausted|done].
    + destruct f as [[]|]; [by destruct Hx as (? & _ & ?)|by destruct Hx as [[? ->] ?]|done].
  - destruct x as [e|]; [|done]. injection Hy as Hn _. by destruct ms.
Qed.

Lemma drain_why fuel w w' :
  1 ≤ BatchSize (set r) → drain rt r fuel w = (Ok (Some None), w') → drain_stops w w'.
Proof.
  intros Hbs. revert w. induction fuel as [|fuel IH]; intros w E; [done|]. cbn [drain] in E.
  run_inv E; [|done]. rename x into done, x0 into w1.
  match goal with X : ctx_Err rt w = _ |- _ => rename X into Ectx end.
  destruct (ctx_law _ _ _ Ectx) as [Ho _]. apply Hoth in Ho. destruct done.
  { injection E as <-. by eapply stops_context; [reflexivity|]. }
  eapply drain_stops_later; [exact Ho|]. run_inv E; [|done]. destruct x as [n e]. rename x0 into w2.
  match goal with X : processBatch rt r w1 = _ |- _ => rename X into Eb end.
  pose proof (processBatch_along others rt r R Hoth Hruns _ _ _ Eb) as Ha.
  destruct e as [e|].
  - destruct (errors_As as_fatal e); [done|]. run_inv E; [|done].
    match goal with X : isFatal _ _ _ _ = _ |- _ => rename X into Ef end.
    assert (along R w2 x0) as Hf.
    { pose proof (fatal_along others rt r R Hoth (Some e) w2 _ _ Ef). done. }
    destruct x; [done|]. run_inv E; [|done]. injection E as <-.
    match goal with X : call_logger _ _ _ _ = _ |- _ => rename X into El end.
    unfold call_logger in El. destruct (sLogger (set r)); [|done]. apply observe_law in El as [Hlo Hrec].
    eapply stops_failed; [|exact Hrec]. by etrans.
  - destruct (Z.eqb_spec n 0) as [->|].
    + injection E as <-. apply stops_exhausted. eapply exhausted_mono; [reflexivity|reflexivity|by apply batch_empty].
    + eapply drain_stops_later; [exact Ha|by apply IH].
Qed.
End Handover.
