(* ===== verification/TxRelay.v ===== *)
(** * A relay among transactions

    The server of [Transactions.v] as a server of [World.v]: the relay's
    statements run beside the open transactions of the callers, other relays and
    cleaners, and what a worker does is part of a run of that system. *)

From stdpp Require Import relations.
From S2P Require Import Prelude Outcome Message Backoff Config Postgres Store System Safety StoreSpec Transactions TxSafety Relay World RelaySpec RelaySafety Handover.

Open Scope string_scope.
Open Scope Z_scope.

Section TxRelay.
Context `{Postgres}.

(** A statement of its own transaction skips the rows of open transactions where
    the code says SKIP LOCKED, and runs when it does not have to wait for one. *)
#[export] Instance tx_server : Server TxSys := {|
  base := t_sys;
  admits := λ e st T T', held_by (t_open T) ⊆ e_locked e ∧ tx_exec T (Auto e st) = Some T'
|}.

Lemma runs_tx_step e st T T' : issued (st_cmd st) → runs e st T T' → tx_step T T'.
Proof.
  intros Hi [[He Hc Hf] _ [Hl Hex]]. apply (tx_act T T' (Auto e st)); [|done]. by split_and!.
Qed.

(** Which states can follow: none that the callers, relays and cleaners do not
    reach, from a state they reached. *)
Definition follows (T T' : TxSys) : Prop := reached T → rtc tx_step T T'.

Lemma reached_run T T' : reached T → rtc tx_step T T' → reached T'.
Proof. intros (T0 & ? & ? & ?) ?. exists T0. split_and!; [done..|by etrans]. Qed.

#[export] Instance follows_refl : Reflexive follows.
Proof. intros T _. apply rtc_refl. Qed.
#[export] Instance follows_trans : Transitive follows.
Proof.
  intros T1 T2 T3 H12 H23 Hr. specialize (H12 Hr). etrans; [exact H12|]. apply H23. by eapply reached_run.
Qed.

Lemma follows_reached T T' : follows T T' → reached T → reached T'.
Proof. intros Hf Hr. eapply reached_run; [exact Hr|by apply Hf]. Qed.

(** Tokens are never forgotten. *)
Lemma run_used T T' : rtc tx_step T T' → s_used (t_sys T) ⊆ s_used (t_sys T').
Proof. induction 1 as [|T1 T2 T3 [a Ha Hex] _ IH]; [done|]. pose proof (tx_exec_mono _ _ _ Ha Hex) as [_ ?]. set_solver. Qed.

Lemma follows_used T T' : follows T T' → reached T → s_used (t_sys T) ⊆ s_used (t_sys T').
Proof. intros Hf Hr. by apply run_used, Hf. Qed.

(** ** Workers *)

Context {W : Type} (tx_of : W → TxSys) (trace : W → list Obs).

(** A deployment whose server has transactions. *)
#[local] Instance tx_deployment : Deployment W := {| server := TxSys; server_of := tx_of; trace_of := trace |}.

Lemma runs_follows e st T T' : issued (st_cmd st) → runs e st T T' → follows T T'.
Proof. intros Hi Hr _. by eapply rtc_once, runs_tx_step. Qed.

Context (others : relation TxSys) (rt : Runtime W) (r : Relay W).
Context `{!LawfulExecutor others (exec (store r))}.
Context `{!LawfulPublisher others (pub r)} `{!LawfulRuntime others rt}.

(** C6. Refinement: whatever events a worker receives, whatever faults occur and
    whatever transactions of callers open, write, commit and roll back between
    its statements, beside other relays and cleaners, the server it leaves is
    reached from the one it found by actions of the transaction system; so every
    theorem about its runs holds while relays run. *)
Theorem worker_among_transactions fuel evs w x w' :
  (∀ T T', others T T' → follows T T') → reached (tx_of w) →
  worker rt r fuel evs w = (x, w') → rtc tx_step (tx_of w) (tx_of w').
Proof.
  intros Hoth Hr E. revert Hr. change (along follows w w').
  exact (@worker_along _ W tx_deployment others rt r _ _ _ follows _ _ Hoth runs_follows fuel evs w x w' E).
Qed.

(** What [Handover.accounted] says of a worker's run here. *)
Lemma worker_hands fuel evs w x w' :
  (∀ T T', others T T' → follows T T') → reached (tx_of w) →
  worker rt r fuel evs w = (x, w') →
  ∃ tr, trace w' = (trace w ++ tr)%list ∧
    (∀ ms, ms ∈ handed tr → @claimed_between W tx_deployment r follows w w' ms) ∧
    NoDup (handed_keys (handed tr)) ∧ ∀ k, k ∈ handed_keys (handed tr) → k.2 ∉ s_used (t_sys (tx_of w)).
Proof.
  intros Hoth Hr E.
  destruct (@worker_accounted _ W tx_deployment others rt r _ _ _ follows _ _ Hoth runs_follows reached follows_reached
    follows_used fuel evs w x w' E) as (_ & tr & Htr & Hall & Hkeys).
  destruct (Hkeys Hr) as [Hnd Hf]. exists tr. split_and!; [exact Htr|exact Hall|exact Hnd|]. intros k Hk. by apply Hf.
Qed.

(** C21. Only committed messages are published, once per claim: each message a
    worker hands to the publisher is what [scanRow] reads from a row that, at some
    moment of the run, was in the committed table, processing, under the lease
    token the message carries; so a message of a transaction that is open or was
    rolled back is never handed over, whatever happens around the worker.  Each of
    these claims was made in the run, under a token drawn there, and none is handed
    over twice: every publication costs one of the attempts its row counts. *)
Theorem handed_over_committed fuel evs w x w' :
  (∀ T T', others T T' → follows T T') → reached (tx_of w) →
  worker rt r fuel evs w = (x, w') →
  ∃ tr, trace w' = (trace w ++ tr)%list ∧
    (∀ ms m, ms ∈ handed tr → m ∈ ms →
     ∃ T row, rtc tx_step (tx_of w) T ∧ rtc tx_step T (tx_of w') ∧
       rows (committed T) !! ID m = Some row ∧ status row = StatusProcessing ∧
       lease_token row = Some (LeaseToken m) ∧ m = scanned (ID m, row)) ∧
    NoDup (handed_keys (handed tr)) ∧ ∀ k, k ∈ handed_keys (handed tr) → k.2 ∉ s_used (t_sys (tx_of w)).
Proof.
  intros Hoth Hr E. destruct (worker_hands fuel evs w x w' Hoth Hr E) as (tr & Htr & Hall & Hkeys).
  exists tr. split_and!; [exact Htr| |apply Hkeys..]. intros ms m Hin Hm.
  destruct (Hall ms Hin) as (T0 & T & H0 & H1 & H2 & _ & Hms).
  destruct (Hms m Hm) as [(row & ? & ? & ? & _ & ?) _].
  assert (rtc tx_step (tx_of w) T) as HT by (exact (transitivity (R:=follows) H0 H1 Hr)).
  exists T, row. split_and!; [done|by apply H2; eapply reached_run|done..].
Qed.

(** C24. Ordered publication: each batch that a worker in ordered mode hands to the
    publisher was read from one committed table in which, whatever happens around
    the worker, every message of the batch with a partition key was the first of
    its key that was not yet published or discarded; so a batch has at most one
    message of a key. *)
Theorem ordered_handover fuel evs w x w' :
  (∀ T T', others T T' → follows T T') → reached (tx_of w) → Ordered (set r) = true →
  worker rt r fuel evs w = (x, w') →
  ∃ tr, trace w' = (trace w ++ tr)%list ∧
    ∀ ms, ms ∈ handed tr →
    (∃ T, rtc tx_step (tx_of w) T ∧ rtc tx_step T (tx_of w') ∧
      ∀ m, m ∈ ms → ∃ row, rows (committed T) !! ID m = Some row ∧ m = scanned (ID m, row) ∧
        ∀ j rj k, rows (committed T) !! j = Some rj → partition_key row = Some k → partition_key rj = Some k →
          before rj row = true → status rj = StatusPublished ∨ status rj = StatusDiscarded) ∧
    ∀ m m', m ∈ ms → m' ∈ ms → PartitionKey m = PartitionKey m' → PartitionKey m ≠ EmptyString → m = m'.
Proof.
  intros Hoth Hr Hord E. destruct (worker_hands fuel evs w x w' Hoth Hr E) as (tr & Htr & Hall & _).
  exists tr. split; [exact Htr|]. intros ms Hin. destruct (Hall ms Hin) as (T0 & T & H0 & H1 & H2 & _ & Hms).
  assert (rtc tx_step (tx_of w) T) as Hrun by (exact (transitivity (R:=follows) H0 H1 Hr)).
  pose proof (reached_run _ _ Hr Hrun) as HT. split.
  - exists T. split_and!; [done|by apply H2|]. intros m Hm.
    destruct (Hms m Hm) as ((row & Hrow & _ & _ & _ & Hm') & _ & _ & Hhead). exists row. split_and!; [done..|].
    intros j rj k Hj Hk Hkj Hb. eapply settled_spec, (Hhead Hord); done.
  - intros m m' Hm Hm' Hk Hne. destruct (Hms m Hm) as (Hl & _ & _ & Hh), (Hms m' Hm') as (Hl' & _ & _ & Hh').
    eapply leased_heads; [exact (ok_db _ (reached_ok _ HT))|exact Hl|exact Hl'|by apply Hh|by apply Hh'|done..].
Qed.

(** C15. A drain stops when there is nothing to do: whatever other relays, callers
    and cleaners do meanwhile, a drain that reports no error ended because the
    context did, because a batch failed and was logged as its last act, or because
    a claim of its own ran at a moment of the run when every row it could take, in
    the table committed then, was locked by somebody else. *)
Theorem drain_exhausts fuel w w' :
  (∀ T T', others T T' → follows T T') → reached (tx_of w) → 1 ≤ BatchSize (set r) →
  drain rt r fuel w = (Ok (Some None), w') →
  (∃ w1, rtc tx_step (tx_of w) (tx_of w1) ∧ ctx_Err rt w1 = (Ok true, w')) ∨
  (∃ tr er, trace w' = (tr ++ [Observed (LogError "outbox: relay batch failed" er)])%list) ∨
  ∃ e T T', rtc tx_step (tx_of w) T ∧ act_ok T (Auto e (claim_stmt r)) ∧
    tx_exec T (Auto e (claim_stmt r)) = Some T' ∧ rtc tx_step T' (tx_of w') ∧
    ∀ id row, rows (committed T) !! id = Some row →
      claimable (e_now e) (Ordered (set r)) (rows (committed T)) row = true → id ∈ e_locked e.
Proof.
  intros Hoth Hreach Hbs E.
  destruct (@drain_why _ W tx_deployment others rt r _ _ _ follows _ _ Hoth runs_follows fuel w w' Hbs E)
    as [w1 H1 Ec|w1 er _ Hrec|(e & T & T' & H1 & Hr & H2 & Hall)].
  - left. exists w1. split; [by apply H1|done].
  - right; left. by exists (trace w1), er.
  - right; right. specialize (H1 Hreach). pose proof (reached_run _ _ Hreach H1) as HT.
    pose proof Hr as [[He Hc Hf] _ [Hl Hex]].
    assert (act_ok T (Auto e (claim_stmt r))) as Hact.
    { simpl. split_and!; [exact He|exact Hc|apply (issued_claim (set r))|exact Hf|exact Hl]. }
    exists e, T, T'. split_and!; [exact H1|exact Hact|exact Hex| |exact Hall].
    apply H2. eapply reached_run; [exact HT|]. apply rtc_once, (runs_tx_step e (claim_stmt r)); [apply (issued_claim (set r))|done].
Qed.
End TxRelay.
