(* ===== verification/RelayCorrect.v ===== *)
(** * What a relay achieves when it runs alone

    The functional side of [Relay.v], for a table no other process touches:
    a batch that reports success recorded every message's own verdict and
    touched nothing else; a drain always ends, within an explicit number of
    batches; and when the database answers and leases outlive the statements, a
    settled batch does report success. *)

From stdpp Require Import relations.
From S2P Require Import Prelude Outcome Message Backoff Config Postgres Store System Safety StoreSpec Relay World RelaySpec RelaySafety.

Open Scope string_scope.
Open Scope Z_scope.

Section Alone.
Context `{Postgres} {W : Type} `{Deployment W} (rt : Runtime W) (r : Relay W).
Context `{!LawfulExecutor eq (exec (store r))}.
Context `{!LawfulPublisher eq (pub r)} `{!LawfulRuntime eq rt}.

Let limit (m : Message) : Z := attempt_limit r m.

(** ** One statement *)

Lemma call_some st w w' d :
  call eq st w w' (Some d) →
  ∃ e, stmt_ready e (sys_of w) ∧ exec_stmt e st (db_of w) = SqlOk d ∧ db_of w' = d_db d.
Proof.
  inversion 1 as [e s s' d' Hs [Hrd Hadv _] Hex Hs'| |]; subst s s' d'. exists e. split_and!; try done.
  unfold db_of, sys_of in *. rewrite Hadv. simpl. unfold after_stmt. by rewrite Hex.
Qed.

(** Computations that send nothing leave the table alone. *)
Definition same_table (w w' : W) : Prop := sys_of w' = sys_of w.
#[export] Instance same_table_refl : Reflexive same_table.
Proof. by intros w. Qed.
#[export] Instance same_table_trans : Transitive same_table.
Proof. unfold same_table. intros w1 w2 w3. congruence. Qed.

Lemma same_server w w' : server_of w = server_of w' → same_table w w'.
Proof. intros E. unfold same_table, sys_of. by rewrite E. Qed.

Lemma same_table_tolerates P : tolerates eq same_table P.
Proof. intros w w' o E _ _. by apply same_server. Qed.

Lemma same_table_db w w' : same_table w w' → db_of w' = db_of w.
Proof. unfold same_table, db_of. by intros ->. Qed.

(** ** Completions *)

Definition cause_text (outcome : option err) : string :=
  match outcome with Some e => Error e | None => EmptyString end.

(** Message [m] was still claimed when a completion recorded [outcome] for it. *)
Definition recorded (outcome : option err) (m : Message) (w w' : W) : Prop :=
  ∃ e row delay,
    rows (db_of w) !! ID m = Some row ∧ live_row (e_clk e) m row ∧
    rows (db_of w') !! ID m =
      Some (finish_row e (verdict (limit m) outcome m) (null_text (cause_text outcome)) delay
              (ClearPayloadOnComplete (set r)) row) ∧
    (verdict (limit m) outcome m = StatusPending →
     ∃ x b rnd d, outcome = Some x ∧ sBackoff (set r) = Some b ∧ b rnd (Attempts m) = Ok d ∧
       delay = retry_delay d (errors_As as_retry x)).

(** Every message of [ms] got its outcome, and no other row changed. *)
Definition settled_to (f : Message → option err) (ms : list Message) (w w' : W) : Prop :=
  (∀ m, m ∈ ms → recorded (f m) m w w') ∧
  (∀ id, id ∉ map ID ms → rows (db_of w') !! id = rows (db_of w) !! id).

Lemma recorded_lookup o m w1 w1' w2 w2' :
  rows (db_of w1) !! ID m = rows (db_of w2) !! ID m →
  rows (db_of w1') !! ID m = rows (db_of w2') !! ID m →
  recorded o m w1 w1' → recorded o m w2 w2'.
Proof.
  intros E1 E2 (e & row & delay & ? & ? & ? & ?). exists e, row, delay.
  split_and!; [congruence|done|congruence|done].
Qed.

Lemma settled_to_nil f w w' : same_table w w' → settled_to f [] w w'.
Proof.
  intros E%same_table_db. split; [by intros m ?%not_elem_of_nil|]. by rewrite E.
Qed.

Lemma settled_to_app f ms1 ms2 w w1 w2 :
  NoDup (map ID (ms1 ++ ms2)) → settled_to f ms1 w w1 → settled_to f ms2 w1 w2 →
  settled_to f (ms1 ++ ms2) w w2.
Proof.
  rewrite map_app. intros (_ & Hdisj & _)%NoDup_app [R1 S1] [R2 S2]. split.
  - intros m [Hm|Hm]%elem_of_app.
    + eapply recorded_lookup; [done| |by apply R1]. symmetry. apply S2, Hdisj.
      apply list_elem_of_fmap. by exists m.
    + eapply recorded_lookup; [|done|by apply R2]. apply S1. intros Hin.
      apply (Hdisj _ Hin), list_elem_of_fmap. by exists m.
  - intros id Hid. rewrite map_app, not_elem_of_app in Hid. destruct Hid.
    by rewrite S2, S1.
Qed.

Lemma settled_to_same f g ms ms' w w' :
  ms ≡ₚ ms' → (∀ m, m ∈ ms → f m = g m) → settled_to f ms w w' → settled_to g ms' w w'.
Proof.
  intros Hp Hfg [HR HS]. split.
  - intros m Hm. rewrite <-Hp in Hm. rewrite <-Hfg by done. auto.
  - intros id Hid. apply HS. by rewrite Hp.
Qed.

Lemma settled_to_table f ms w w1 w1' w' :
  same_table w w1 → same_table w1' w' → settled_to f ms w1 w1' → settled_to f ms w w'.
Proof.
  intros E1%same_table_db E2%same_table_db [HR HS]. split.
  - intros m Hm. eapply recorded_lookup; [..|by apply HR]; congruence.
  - intros id Hid. rewrite E2, <-E1. auto.
Qed.

Lemma finish_query ms st why delay w c w1 :
  ms ≠ [] →
  finish (store r) ms st why delay (ClearPayloadOnComplete (set r)) w = (Ok (c, None), w1) →
  ∃ e d, exec_finish e (map ID ms) (map LeaseToken ms) st (nullStr why) delay
           (ClearPayloadOnComplete (set r)) (db_of w) = SqlOk d ∧
    db_of w1 = d_db d ∧ length c = length (d_rows d).
Proof.
  intros Hne E. unfold finish, claimKeys in E. destruct ms as [|m ms]; [done|]. run_inv E; [|done].
  destruct x as [rs [e|]]; [done|]. injection E as Hs <-.
  match goal with X : Query _ _ _ = _ |- _ => apply query_law in X as [_ (d & Hc & ->)] end.
  apply call_some in Hc as (e & _ & Hex & Hdb). exists e, d. split_and!; try done.
  - revert Hex. unfold exec_stmt. by destruct (String.eqb _ _).
  - unfold scanMessages in Hs. destruct (scan_loop_cases [] (d_rows d)) as [[Hc _]|[? Hc]];
      rewrite Hc in Hs; simplify_eq. simpl. by rewrite length_map.
Qed.

Lemma complete_table ms st cause delay w c w1 w' :
  finish (store r) ms st (cause_text cause) delay (ClearPayloadOnComplete (set r)) w = (Ok (c, None), w1) →
  complete rt r ms st cause delay w = (Ok None, w') → same_table w1 w' ∧ length c = length ms.
Proof.
  intros Ef E. unfold complete in E. fold (cause_text cause) in E.
  rewrite (M_bind_ok _ _ _ _ _ Ef) in E.
  match type of E with (?m ≫= _) _ = _ => assert (preserves same_table m) as Hp end.
  { pose proof (same_table_tolerates is_event) as Ht.
    pose proof (hook_preserves eq rt same_table Ht). pose proof (observe_preserves eq rt same_table Ht).
    preserves_steps; apply (for_each_preserves); try apply _; auto. }
  run_inv E; [|done].
  match goal with X : _ w1 = _ |- _ => apply Hp in X end.
  destruct (_ =? _)%nat eqn:Hl; [|done]. injection E as <-. split; [done|].
  by apply Nat.eqb_eq in Hl.
Qed.

(** A completion that reports success changed every row it was about. *)
Lemma complete_done ms st cause delay w w' :
  ms ≠ [] → Forall canonical ms → NoDup (map ID ms) →
  complete rt r ms st cause delay w = (Ok None, w') →
  ∃ e, (∀ m, m ∈ ms → ∃ row, rows (db_of w) !! ID m = Some row ∧ live_row (e_clk e) m row ∧
          rows (db_of w') !! ID m =
            Some (finish_row e st (null_text (cause_text cause)) delay (ClearPayloadOnComplete (set r)) row)) ∧
       (∀ id, id ∉ map ID ms → rows (db_of w') !! id = rows (db_of w) !! id).
Proof.
  intros Hne Hcan Hnd E. pose proof E as E0. unfold complete in E. fold (cause_text cause) in E.
  run_inv E; [|done]. destruct x as [c [e|]]; [done|].
  destruct (complete_table _ _ _ _ _ _ _ _ ltac:(eassumption) E0) as [Hw Hlen].
  destruct (finish_query _ _ _ _ _ _ _ Hne ltac:(eassumption)) as (e & d & Hex & Hdb & Hc).
  destruct (finish_facts e ms st (cause_text cause) delay (ClearPayloadOnComplete (set r)) (db_of w) Hcan
    (exec_finish_storable _ _ _ _ _ _ _ _ _ Hex)) as (d' & Hex' & Hhit & Hmiss & Hrows & _).
  rewrite Hex in Hex'. injection Hex' as <-.
  apply same_table_db in Hw. rewrite <-Hdb, <-Hw in *.
  exists e. split.
  - intros m Hm.
    assert ((d_rows d).*1 ≡ₚ map ID ms) as Hperm.
    { apply submseteq_length_Permutation; [|rewrite !length_fmap; lia].
      apply NoDup_submseteq.
      - revert Hex. unfold exec_finish. destruct (cast_keys _ _); [|done]. destruct (arg_text _); [|done].
        intros [= <-]. apply NoDup_returned.
      - intros id ([i r'] & -> & (m' & ? & ? & <- & _)%Hrows)%list_elem_of_fmap.
        apply list_elem_of_fmap. eauto. }
    assert (ID m ∈ (d_rows d).*1) as Hin.
    { rewrite Hperm. apply list_elem_of_fmap. by exists m. }
    apply list_elem_of_fmap in Hin as ([i r'] & Hi & (m' & row & Hm' & Hid & Hrow & Hlive & _)%Hrows).
    simpl in Hi. subst i.
    assert (m' = m) as ->.
    { apply list_elem_of_lookup in Hm as [j Hj], Hm' as [j' Hj'].
      enough (j' = j) as -> by congruence.
      eapply (NoDup_lookup (map ID ms)); [done|..].
      - by rewrite list_lookup_fmap, Hj'.
      - rewrite list_lookup_fmap, Hj. simpl. congruence. }
    exists row. split_and!; try done. apply Hhit; [done|]. by exists m.
  - intros id Hid. apply Hmiss. intros m row Hm Hi. destruct Hid. apply list_elem_of_fmap. eauto.
Qed.

(** ** Settling *)

Definition claims (ms : list Message) : Prop := Forall canonical ms ∧ NoDup (map ID ms).

Lemma claims_perm ms ms' : ms ≡ₚ ms' → claims ms → claims ms'.
Proof. intros Hp [? ?]. split; by rewrite <-Hp. Qed.

Lemma claims_app ms ms' : claims (ms ++ ms') → claims ms ∧ claims ms'.
Proof.
  intros [[? ?]%Forall_app Hnd]. rewrite map_app in Hnd. apply NoDup_app in Hnd as (? & _ & ?). done.
Qed.

(** A call of the publisher leaves the ids and tokens of the batch. *)
Lemma shares_keys ms ms' :
  Forall2 shares ms ms' → map ID ms' = map ID ms ∧ map LeaseToken ms' = map LeaseToken ms.
Proof. induction 1 as [|m m' ms ms' [] _ [IH1 IH2]]; [done|]. simpl. rewrite IH1, IH2. by split; f_equal. Qed.

Lemma shares_claims ms ms' : Forall2 shares ms ms' → claims ms → claims ms'.
Proof.
  intros Hs [Hc Hnd]. split; [|by rewrite (proj1 (shares_keys _ _ Hs))].
  apply Forall_forall. intros m' [i Hi]%list_elem_of_lookup.
  destruct (Forall2_lookup_r _ _ _ _ _ Hs Hi) as (m & Hm & Hsm).
  apply list_elem_of_lookup_2 in Hm. rewrite Forall_forall in Hc. specialize (Hc m Hm).
  unfold canonical in *. by rewrite (shares_ID _ _ Hsm), (shares_LeaseToken _ _ Hsm).
Qed.

Lemma complete_settled f ms st cause delay w w' :
  ms ≠ [] → claims ms → complete rt r ms st cause delay w = (Ok None, w') →
  (∀ m, m ∈ ms → f m = cause ∧ st = verdict (limit m) cause m) →
  (st = StatusPending → ∀ m, m ∈ ms → ∃ x b rnd d, cause = Some x ∧ sBackoff (set r) = Some b ∧
     b rnd (Attempts m) = Ok d ∧ delay = retry_delay d (errors_As as_retry x)) →
  settled_to f ms w w'.
Proof.
  intros Hne [Hc Hnd] E Hv Hdel. destruct (complete_done _ _ _ _ _ _ Hne Hc Hnd E) as (e & Hhit & Hmiss).
  split; [|done]. intros m Hm. destruct (Hv m Hm) as [-> Hst], (Hhit m Hm) as (row & ? & ? & ?).
  exists e, row, delay. rewrite <-Hst. split_and!; try done. intros Hp. by apply Hdel.
Qed.

Lemma random_same retry m w x w' : retry_decision rt r retry m w = (x, w') → same_table w w'.
Proof.
  exact (retry_decision_preserves eq rt r same_table (same_table_tolerates _) retry m w x w').
Qed.

Lemma errors_Join_None es : errors_Join es = None → ∀ e, e ∈ es → e = None.
Proof.
  unfold errors_Join. intros Hj e He. destruct e as [e|]; [|done].
  assert (e ∈ omap id es) as Hin by (apply list_elem_of_omap; by exists (Some e)).
  destruct (omap id es); [by apply not_elem_of_nil in Hin|done].
Qed.

Lemma settle_loop_done e errs ms w w' :
  errors_As as_permanent e = None → errors_As as_discard e = None → claims ms →
  settle_loop rt r e (errors_As as_retry e) errs ms w = (Ok None, w') →
  errs = [] ∧ settled_to (λ _, Some e) ms w w'.
Proof.
  intros Hp Hd. revert errs w. induction ms as [|m ms IH]; intros errs w Hcl E; simpl in E.
  - injection E as Hj <-. split; [|by apply settled_to_nil].
    destruct errs as [|e0 errs]; [done|]. by assert (Some e0 = None) by
      (apply (errors_Join_None _ Hj); left).
  - run_inv E; [|done]. destruct x as [st delay]. run_inv E; [|done].
    destruct (claims_app [m] ms Hcl) as [Hc1 Hc2].
    destruct (IH _ _ Hc2 E) as [Herr Hrest]. apply app_eq_nil in Herr as [-> Hx].
    destruct x as [|]; [done|]. split; [done|].
    eapply (settled_to_app _ [m]); [apply Hcl| |exact Hrest].
    match goal with X : retry_decision _ _ _ _ _ = _ |- _ =>
      pose proof (random_same _ _ _ _ _ X) as Hs; apply retry_decision_inv in X as Hv end.
    eapply settled_to_table; [exact Hs|apply reflexivity|].
    assert (st = verdict (limit m) (Some e) m) as Hst.
    { unfold verdict. rewrite (bool_decide_None _ Hp), (bool_decide_None _ Hd).
      unfold limit. destruct (_ <=? _); naive_solver. }
    eapply complete_settled; [done..| |].
    + by intros m' ->%list_elem_of_singleton.
    + intros -> m' ->%list_elem_of_singleton. destruct (_ <=? _); [naive_solver|].
      destruct Hv as (_ & b & rnd & d & ? & ? & ?). by exists e, b, rnd, d.
Qed.

(** When [settle] reports success, every message of the batch was still claimed
    and its row now has what its outcome prescribes. *)
Lemma settle_done ms perr w w' :
  claims ms → settle rt r ms perr w = (Ok None, w') → settled_to (λ _, perr) ms w w'.
Proof.
  intros Hcl E. unfold settle in E. destruct ms as [|m ms].
  { injection E as <-. by apply settled_to_nil. }
  destruct perr as [e|].
  2: { by eapply complete_settled. }
  destruct (errors_As as_permanent e) eqn:Hp.
  { eapply complete_settled; [done..| |done]. intros. split; [done|].
    unfold verdict. by rewrite (bool_decide_Some _ _ Hp). }
  destruct (errors_As as_discard e) eqn:Hd.
  { eapply complete_settled; [done..| |done]. intros. split; [done|].
    unfold verdict. by rewrite (bool_decide_None _ Hp), (bool_decide_Some _ _ Hd). }
  by eapply settle_loop_done.
Qed.

Lemma settleEach_loop_done outs oth ps os errs ms w w' :
  let f m := default oth (map_entry outs (ID m)) in
  claims (ms ++ ps ++ os) → (∀ m, m ∈ ps → f m = None) → (∀ m, m ∈ os → f m = oth) →
  settleEach_loop rt r outs oth ps os errs ms w = (Ok None, w') →
  (∀ e, e ∈ errs → e = None) ∧ settled_to f (ms ++ ps ++ os) w w'.
Proof.
  intros f. revert ps os errs w. induction ms as [|m ms IH]; intros ps os errs w Hcl Hp Ho E;
    cbn [settleEach_loop] in E.
  - run_inv E; [|done]. run_inv E; [|done]. injection E as Hj <-.
    assert (x = None) as -> by (apply (errors_Join_None _ Hj); set_solver).
    assert (x1 = None) as -> by (apply (errors_Join_None _ Hj); set_solver).
    simpl in Hcl. destruct (claims_app _ _ Hcl) as [Hc1 Hc2].
    match goal with X : settle _ _ ps _ _ = _, Y : settle _ _ os _ _ = _ |- _ =>
      apply settle_done in X as S1; [|done]; apply settle_done in Y as S2; [|done] end.
    split; [intros e ?; apply (errors_Join_None _ Hj); set_solver|].
    apply (settled_to_app _ ps os _ x0); [apply Hcl|..].
    + eapply settled_to_same; [done| |exact S1]. intros m ?. by rewrite Hp.
    + eapply settled_to_same; [done| |exact S2]. intros m ?. by rewrite Ho.
  - destruct (default oth (map_entry outs (ID m))) as [e|] eqn:Hf.
    + destruct (map_entry outs (ID m)) as [ent|] eqn:He.
      * run_inv E; [|done]. simpl in Hf. subst ent.
        destruct (claims_app [m] (ms ++ ps ++ os) Hcl) as [Hc1 Hc2].
        destruct (IH _ _ _ _ Hc2 Hp Ho E) as [Herr Hrest].
        assert (x = None) as -> by (apply Herr; set_solver).
        split; [intros y ?; apply Herr; set_solver|].
        apply (settled_to_app f [m] (ms ++ ps ++ os) _ x0); [apply Hcl| |done].
        eapply settled_to_same; [done| |by eapply settle_done].
        intros m' ->%list_elem_of_singleton. unfold f. by rewrite He.
      * destruct (IH ps (os ++ [m])%list errs w) as [Herr Hrest]; [|done| |done|split; [done|]].
        -- eapply claims_perm; [|exact Hcl]. solve_Permutation.
        -- intros m' [?| ->%list_elem_of_singleton]%elem_of_app; [auto|]. unfold f. by rewrite He.
        -- eapply settled_to_same; [|done|exact Hrest]. solve_Permutation.
    + destruct (IH (ps ++ [m])%list os errs w) as [Herr Hrest]; [..|done|done|split; [done|]].
      * eapply claims_perm; [|exact Hcl]. solve_Permutation.
      * intros m' [?| ->%list_elem_of_singleton]%elem_of_app; auto.
      * eapply settled_to_same; [|done|exact Hrest]. solve_Permutation.
Qed.

Lemma settle_batch_done_lem ms perr w w' :
  claims ms → settle_batch rt r ms perr w = (Ok None, w') →
  settled_to (message_outcome perr) ms w w'.
Proof.
  intros Hcl E. unfold settle_batch, message_outcome in *.
  destruct (errors_As_opt as_batch perr) as [[outs oth]|]; [|by eapply settle_done].
  destruct (settleEach_loop_done outs oth [] [] [] ms w w') as [_ Hs]; try done.
  - by rewrite !app_nil_r.
  - by intros ? ?%not_elem_of_nil.
  - by intros ? ?%not_elem_of_nil.
  - by rewrite !app_nil_r in Hs.
Qed.

(** C17. What a settled batch is: for a relay alone on the table while it settles
    (no cleanup, requeue or other relay in between), a batch with distinct,
    canonical keys, and settling that reports success, every message of the batch
    was still claimed, its row now has the state, error text and retry delay its
    own outcome prescribes (its entry of a per-message map, nil meaning published,
    else the outcome of the rest), and no other row changed.  What holds beside
    other processes is [RelaySafety.worker_completions_justified]. *)
Theorem settle_batch_done ms perr w w' :
  claims ms → settle_batch rt r ms perr w = (Ok None, w') →
  settled_to (message_outcome perr) ms w w'.
Proof. apply settle_batch_done_lem. Qed.

(** ** Outcomes that cannot be recorded *)

Lemma finish_unstorable ms st why delay w y w' :
  ms ≠ [] → storable why = false →
  finish (store r) ms st why delay (ClearPayloadOnComplete (set r)) w = (y, w') →
  db_of w' = db_of w ∧ ∀ c, y ≠ Ok (c, None).
Proof.
  intros Hne Hs E. unfold finish, claimKeys in E. destruct ms as [|m ms]; [done|].
  set (st' := mkStmt _ _) in E.
  assert (∀ e, after_stmt e st' (db_of w) = db_of w ∧ ∀ d, exec_stmt e st' (db_of w) ≠ SqlOk d) as Hno.
  { intros e. unfold after_stmt, exec_stmt. simpl. destruct (String.eqb _ _); [|done].
    unfold exec_finish. rewrite arg_text_nullStr, Hs. by destruct (cast_keys _ _). }
  assert (∀ o v, call eq st' w v o → db_of v = db_of w ∧ o = None) as Hcall.
  { intros o v Hc. unfold db_of, sys_of. destruct Hc as [e s s' d <- _ Hex _|e s s' <- [_ Hb _] <-|<-]; [| |done].
    - by destruct (proj2 (Hno e) d).
    - rewrite Hb. split; [apply Hno|done]. }
  run_inv E.
  - apply query_law in H1 as [_ Hx]. destruct x as [rs [e|]].
    + destruct Hx as [[? _]%Hcall _]. by injection E as <- <-.
    + by destruct Hx as (d & [_ ?]%Hcall & _).
  - apply query_law in H1 as [_ [[? _]%Hcall _]]. by subst.
Qed.

Lemma complete_unstorable ms st cause delay w x w' :
  ms ≠ [] → storable (cause_text cause) = false →
  complete rt r ms st cause delay w = (x, w') → db_of w' = db_of w ∧ x ≠ Ok None.
Proof.
  intros Hne Hs E. unfold complete in E. fold (cause_text cause) in E. run_inv E.
  - apply finish_unstorable in H1 as [Hdb Hy]; [|done..]. destruct x0 as [c [e|]].
    + by injection E as <- <-.
    + by destruct (Hy c).
  - apply finish_unstorable in H1 as [Hdb _]; [|done..]. by subst.
Qed.

Lemma settle_loop_unstorable e retry errs ms w x w' :
  storable (Error e) = false → errs ≠ [] ∨ ms ≠ [] →
  settle_loop rt r e retry errs ms w = (x, w') → db_of w' = db_of w ∧ x ≠ Ok None.
Proof.
  intros Hs. revert errs w. induction ms as [|m ms IH]; intros errs w Hor E; simpl in E.
  - injection E as <- <-. split; [done|]. intros [= Hj]. destruct Hor as [Hor|]; [|done].
    destruct errs as [|e0 errs]; [done|]. by assert (Some e0 = None) by
      (apply (errors_Join_None _ Hj); left).
  - run_inv E; match goal with X : retry_decision _ _ _ _ _ = _ |- _ =>
      apply random_same in X; apply same_table_db in X as Hdb0 end; [|by subst].
    destruct x0 as [st delay]. run_inv E; match goal with X : complete _ _ _ _ _ _ _ = _ |- _ =>
      apply complete_unstorable in X as [Hdb Hx]; [|done..] end.
    + destruct x0 as [e0|]; [|done].
      apply IH in E as [Hdb' ?]; [split; congruence|]. left. by destruct errs.
    + subst. split; [congruence|done].
Qed.

(** C32. An outcome whose error text the server cannot store (a zero byte, an
    invalid encoding) is never recorded: whether the error is plain, permanent
    or a discard, settling fails and leaves the table as it was, so the rows
    stay claimed whatever their attempt limit and come back with their lease. *)
Theorem unstorable_outcome_not_recorded ms e w x w' :
  ms ≠ [] → storable (Error e) = false →
  settle rt r ms (Some e) w = (x, w') → db_of w' = db_of w ∧ x ≠ Ok None.
Proof.
  intros Hne Hs E. unfold settle in E. destruct ms as [|m ms]; [done|].
  assert (storable (cause_text (Some e)) = false) as Hs' by exact Hs.
  destruct (errors_As as_permanent e); [eapply complete_unstorable; [|exact Hs'|exact E]; done|].
  destruct (errors_As as_discard e); [eapply complete_unstorable; [|exact Hs'|exact E]; done|].
  eapply settle_loop_unstorable; [exact Hs|by right|exact E].
Qed.

(** ** Claiming and renewing *)

Lemma claim_query w ms w' :
  claim (store r) (set r) w = (Ok (ms, None), w') →
  ∃ e d, stmt_ready e (sys_of w) ∧
    exec_stmt e (claim_stmt r) (db_of w) = SqlOk d ∧
    exec_claim e (Ordered (set r)) (InstanceID (set r)) (LeaseDuration (set r)) (BatchSize (set r))
      (db_of w) = SqlOk d ∧ db_of w' = d_db d ∧ ms = map scanned (d_rows d).
Proof.
  intros E. unfold claim in E. run_inv E; [|done]. destruct x as [rs [e|]]; [done|].
  injection E as Hs <-.
  match goal with X : Query _ _ _ = _ |- _ => apply query_law in X as [_ (d & Hc & ->)] end.
  apply call_some in Hc as (e & Hrd & Hex & Hdb). exists e, d. split_and!; try done.
  - revert Hex. unfold exec_stmt. by destruct (String.eqb _ _).
  - unfold scanMessages in Hs. by destruct (scan_loop_cases [] (d_rows d)) as [[Hc _]|[? Hc]];
      rewrite Hc in Hs; simplify_eq.
Qed.

(** A row whose lease alone may have changed. *)
Definition with_lease (u : option time) (row : Row) : Row :=
  mkRow row.(topic) row.(partition_key) row.(payload) row.(headers) row.(content_type)
    row.(message_type) row.(status) row.(attempts) row.(max_attempts) row.(locked_by) u
    row.(next_attempt_at) row.(last_error) row.(created_at) row.(published_at) row.(lease_token)
    row.(finished_at) row.(seq).

Definition leases_only (ids : list string) (w w' : W) : Prop := ∀ id,
  rows (db_of w') !! id = rows (db_of w) !! id ∨
  id ∈ ids ∧ ∃ row u, rows (db_of w) !! id = Some row ∧ rows (db_of w') !! id = Some (with_lease u row).

#[export] Instance leases_only_refl ids : Reflexive (leases_only ids).
Proof. intros w id. by left. Qed.
#[export] Instance leases_only_trans ids : Transitive (leases_only ids).
Proof.
  intros w1 w2 w3 H12 H23 id.
  destruct (H12 id) as [E1|(Hid & row & u & E1 & E2)], (H23 id) as [E3|(? & row' & u' & E3 & E4)].
  - left. congruence.
  - right. split; [done|]. exists row', u'. split; congruence.
  - right. split; [done|]. exists row, u. split; congruence.
  - right. split; [done|]. exists row, u'. rewrite E3 in E2. injection E2 as ->. done.
Qed.

Lemma leases_only_db ids w w' : db_of w' = db_of w → leases_only ids w w'.
Proof. intros E id. left. by rewrite E. Qed.

Lemma leases_only_tolerates ids P : tolerates eq (leases_only ids) P.
Proof. intros w w' o E _ _. apply leases_only_db. unfold db_of, sys_of. by rewrite E. Qed.

(** A renewal touches the rows of its batch only. *)
Lemma leases_only_renew ms : Forall canonical ms → allows eq (leases_only (map ID ms)) (renew_stmt r ms).
Proof.
  intros Hcan.
  assert (∀ e s, ∀ id, rows (after_stmt e (renew_stmt r ms) s) !! id = rows s !! id ∨
    id ∈ map ID ms ∧ ∃ row u, rows s !! id = Some row ∧
      rows (after_stmt e (renew_stmt r ms) s) !! id = Some (with_lease u row)) as Hst.
  { intros e s id. pose proof (after_stmt_row_step e (renew_stmt r ms) s id ltac:(constructor)) as Hs.
    inversion Hs as [| | |? ? ? keys row Hk Hl| | |]; subst; [by left|]. right. split.
    - rewrite cast_keys_canonical in Hk by done. injection Hk as <-.
      apply live_claim_spec in Hl as ((t & (m & [= -> _] & Hm)%list_elem_of_fmap & _) & _).
      by apply list_elem_of_fmap_2.
    - eexists _, _. split; [by symmetry|]. by symmetry. }
  intros w w' x Hc _ id. unfold db_of, sys_of.
  destruct Hc as [e s s' d <- [_ Hb _] _ <-|e s s' <- [_ Hb _] <-| ->]; [rewrite Hb..|]; simpl; auto.
Qed.

Lemma publish_leases ms w x w' : Forall canonical ms → publish rt r ms w = (x, w') → leases_only (map ID ms) w w'.
Proof.
  intros Hcan. apply (publish_preserves eq rt r (leases_only (map ID ms))).
  - apply leases_only_tolerates.
  - by apply leases_only_renew.
  - intros c. eapply aside_preserves; [apply (leases_only_tolerates _ (λ _, True))|apply publish_law|repeat constructor].
Qed.

(** The bound on a drain is in terms of the limits the table holds. *)
Context `{!KeepsLimits (pub r)}.

Lemma publish_limits ms w ms' perr le w' :
  publish rt r ms w = (Ok (ms', perr, le), w') → map MaxAttempts ms' = map MaxAttempts ms.
Proof. intros (c & w1 & w2 & E)%publish_call. by eapply keeps_limits. Qed.

Lemma fatal_stage_same perr w x w' : fatal_stage rt r perr w = (x, w') → db_of w' = db_of w.
Proof.
  intros E. apply same_table_db. revert E.
  by apply (preserves_fatal_stage eq rt r same_table), same_table_tolerates.
Qed.

(** The messages of a claim are the batch whose completions it licenses. *)
Lemma scanned_claims e ordered inst lease n db d :
  wf_db (d_db d) → exec_claim e ordered inst lease n db = SqlOk d → claims (map scanned (d_rows d)).
Proof.
  intros Hwf Hex. destruct (exec_claim_inv _ _ _ _ _ _ _ Hex) as [_ ->]. split.
  - apply Forall_forall. intros m ([id row] & -> & Hin)%list_elem_of_fmap.
    apply elem_of_returned in Hin as (row0 & Hr0 & Hsel & ->).
    assert (rows (d_db (run_update db (λ id _, bool_decide (id ∈ claim_select e ordered n (rows db)))
              (claim_row e inst lease))) !! id = Some (claim_row e inst lease id row0)) as Hr.
    { rewrite lookup_run_update, Hr0. simpl. by rewrite Hsel. }
    destruct (wf_rows _ Hwf _ _ Hr) as [Hid Htok _ _ _]. split; [done|]. by apply Htok.
  - pose proof (NoDup_returned db (λ id _, bool_decide (id ∈ claim_select e ordered n (rows db)))
      (claim_row e inst lease)) as Hnd. revert Hnd.
    generalize (d_rows (run_update db (λ id _, bool_decide (id ∈ claim_select e ordered n (rows db)))
      (claim_row e inst lease))). intros l. by rewrite map_map.
Qed.

(** ** One batch *)

Definition row_limit (row : Row) : Z := default (sMaxAttempts (set r)) (max_attempts row).

(** The row was claimed, and the verdict of the publisher's answer [perr] on that
    attempt recorded. *)
Definition settled_row (perr : option err) (row row' : Row) : Prop :=
  (status row = StatusPending ∨ status row = StatusProcessing) ∧
  ∃ row1 e m why delay clear,
    Attempts m = attempts row + 1 ∧ limit m = row_limit row ∧
    attempts row1 = attempts row + 1 ∧ max_attempts row1 = max_attempts row ∧
    row' = finish_row e (verdict (limit m) (message_outcome perr m) m) why delay clear row1.

Definition batch_row (perr : option err) (o o' : option Row) : Prop :=
  o' = o ∨ ∃ row row', o = Some row ∧ o' = Some row' ∧ settled_row perr row row'.

(** The message a claim hands out for a row: its place and its data. *)
Record carries (m : Message) (id : string) (row : Row) : Prop := {
  carries_ID : ID m = id;
  carries_Topic : Topic m = topic row;
  carries_PartitionKey : PartitionKey m = derefStr (partition_key row);
  carries_Payload : Payload m = Some (payload row);
  carries_Headers : json_Unmarshal (headers row) = inl (Headers m);
  carries_ContentType : ContentType m = derefStr (content_type row);
  carries_MessageType : MessageType m = derefStr (message_type row);
  carries_MaxAttempts : MaxAttempts m = max_attempts row;
  carries_CreatedAt : CreatedAt m = created_at row
}.

(** Among these observations, the publisher answered [perr] to a batch with the
    message of this row. *)
Definition handed_row (perr : option err) (tr : list Obs) (id : string) (row : Row) : Prop :=
  ∃ ms ms' m, Handed ms (Ok (ms', perr)) ∈ tr ∧ m ∈ ms ∧ carries m id row.

Lemma handed_row_app perr tr tr' id row :
  handed_row perr tr id row ∨ handed_row perr tr' id row → handed_row perr (tr ++ tr') id row.
Proof.
  intros [(ms & ms' & m & Hin & Hrest)|(ms & ms' & m & Hin & Hrest)]; exists ms, ms', m;
    (split; [apply elem_of_app|done]); auto.
Qed.

Lemma settled_row_attempts perr row row' : settled_row perr row row' → attempts row' = attempts row + 1.
Proof. by intros (_ & row1 & e & m & why & delay & clear & _ & _ & <- & _ & ->). Qed.

Lemma scanned_carries e inst lease id row :
  readable row → carries (scanned (id, claim_row e inst lease id row)) id row.
Proof. intros [h Hh]. split; try done. unfold scanned. simpl. by rewrite Hh. Qed.

(** A call of the publisher leaves every message a place in the batch. *)
Lemma shares_elem ms ms' m0 :
  Forall2 shares ms ms' → map MaxAttempts ms' = map MaxAttempts ms → m0 ∈ ms →
  ∃ m, m ∈ ms' ∧ shares m0 m ∧ MaxAttempts m = MaxAttempts m0.
Proof.
  induction 1 as [|m m' ms ms' Hs _ IH]; intros Hl Hin; [by apply not_elem_of_nil in Hin|].
  simpl in Hl. injection Hl as Hm Hl. apply elem_of_cons in Hin as [->|Hin].
  - exists m'. split; [by left|done].
  - destruct (IH Hl Hin) as (m1 & ? & ?). exists m1. split; [by right|done].
Qed.

(** The table through a batch whose claim returned [d]: as the claim left it, up
    to the renewals, and with the outcomes of the messages [ms'] the publisher
    gave back. *)
Section OneBatch.
Context (w w1 w2 w3 w' : W) (ce : StmtEnv) (d : Done) (ms' : list Message) (perr : option err).
Hypothesis Hclaim : exec_claim ce (Ordered (set r)) (InstanceID (set r)) (LeaseDuration (set r))
  (BatchSize (set r)) (db_of w) = SqlOk d.
Hypothesis Hclaimed : db_of w1 = d_db d.
Hypothesis Hrenewed : leases_only (map ID (map scanned (d_rows d))) w1 w2.
Hypothesis Hfatal : db_of w3 = db_of w2.
Hypothesis Hshares : Forall2 shares (map scanned (d_rows d)) ms'.
Hypothesis Hlimits : map MaxAttempts ms' = map MaxAttempts (map scanned (d_rows d)).
Hypothesis Hsettled : settled_to (message_outcome perr) ms' w3 w'.

Lemma claimed_row_settled id row1 :
  (id, row1) ∈ d_rows d → ∃ row row', rows (db_of w) !! id = Some row ∧
    rows (db_of w') !! id = Some row' ∧ settled_row perr row row'.
Proof.
  intros Hin. destruct (claim_facts _ _ _ _ _ _ _ Hclaim) as (_ & Hc & _ & _).
  destruct (Hc _ _ Hin) as (row & Hrow & -> & Hrow1 & _ & _ & Hcan). clear Hc. rewrite <-Hclaimed in Hrow1.
  apply (list_elem_of_fmap_2 scanned), (shares_elem _ _ _ Hshares Hlimits) in Hin as (m & Hm & Hms & Hmx).
  destruct (proj1 Hsettled m Hm) as (e & row3 & delay & H3 & _ & H' & _).
  assert (limit m = row_limit row) as Hlim.
  { unfold limit, attempt_limit, row_limit. rewrite Hmx. simpl. by destruct (max_attempts row). }
  assert (ID m = id ∧ Attempts m = attempts row + 1) as [Hmid Hmatt] by (destruct Hms; naive_solver).
  rewrite Hmid in *. rewrite Hfatal in H3. exists row. eexists. split_and!; [done|exact H'|].
  split; [naive_solver|]. exists row3, e. do 4 eexists. split_and!; [|exact Hlim|..|reflexivity]; [done|..];
    destruct (Hrenewed id) as [E|(_ & row2 & u & E1 & E2)]; (congruence || rewrite Hrow1 in *; by simplify_eq).
Qed.

Lemma unclaimed_row_kept id : id ∉ (d_rows d).*1 → rows (db_of w') !! id = rows (db_of w) !! id.
Proof.
  intros Hout. destruct (claim_facts _ _ _ _ _ _ _ Hclaim) as (_ & _ & Hmiss & _).
  specialize (Hmiss id Hout). rewrite <-Hclaimed in Hmiss.
  assert (id ∉ map ID (map scanned (d_rows d))) as Hid.
  { rewrite map_map. intros ([i row1] & -> & Hin)%list_elem_of_fmap. apply Hout, list_elem_of_fmap. by exists (i, row1). }
  assert (id ∉ map ID ms') as Hid' by (by rewrite (proj1 (shares_keys _ _ Hshares))).
  rewrite (proj2 Hsettled id Hid'), Hfatal. destruct (Hrenewed id) as [E|[? _]]; [congruence|done].
Qed.

Lemma batch_rows id : batch_row perr (rows (db_of w) !! id) (rows (db_of w') !! id).
Proof.
  destruct (decide (id ∈ (d_rows d).*1)) as [([i row1] & -> & Hin)%list_elem_of_fmap|Hout].
  - right. by apply (claimed_row_settled i row1).
  - left. by apply unclaimed_row_kept.
Qed.

(** A row whose message was settled is the one the claim handed out. *)
Lemma settled_row_claimed id row row' :
  wf_db (db_of w) → rows (db_of w) !! id = Some row → rows (db_of w') !! id = Some row' →
  settled_row perr row row' → ∃ m, m ∈ map scanned (d_rows d) ∧ carries m id row.
Proof.
  intros Hwf Hr Hr' Hs%settled_row_attempts.
  destruct (decide (id ∈ (d_rows d).*1)) as [([i row1] & -> & Hin)%list_elem_of_fmap|Hout].
  - exists (scanned (i, row1)). split; [by apply (list_elem_of_fmap_2 scanned)|].
    destruct (claim_facts _ _ _ _ _ _ _ Hclaim) as (_ & Hc & _).
    destruct (Hc _ _ Hin) as (row0 & Hrow & -> & _). simpl in *. simplify_eq.
    apply scanned_carries. by apply (wf_rows _ Hwf) in Hr as [_ _ _ ? _].
  - pose proof (unclaimed_row_kept id Hout). assert (row' = row) as -> by congruence. lia.
Qed.
End OneBatch.

(** What a batch that claimed something and settled it did: it handed over what
    it claimed and recorded the answer. *)
Lemma processBatch_done w n w' :
  wf_db (db_of w) → processBatch rt r w = (Ok (n, None), w') → n ≠ 0 →
  ∃ perr ms ms' w1 w2 tr, publish rt r ms w1 = (Ok (ms', perr, None), w2) ∧
  (∀ id, batch_row perr (rows (db_of w) !! id) (rows (db_of w') !! id)) ∧
  records w w' tr ∧
  (∀ id row row', rows (db_of w) !! id = Some row → rows (db_of w') !! id = Some row' →
     settled_row perr row row' → handed_row perr tr id row) ∧
  ∃ id row row', rows (db_of w) !! id = Some row ∧ rows (db_of w') !! id = Some row' ∧
    settled_row perr row row'.
Proof.
  intros Hwf Hb%processBatch_inv Hn.
  inversion Hb as [? ? ? Hst|? w1 w2 w3 ? ms ms' perr x Ec Hne Ep Ef Es Hy]; subst.
  { exfalso. inversion Hst as [? ? x ? _ Hx|? ? ? ? ? _ _ Hp|? ? ? ? ? ? ? ? f ? _ _ _ _ Hx]; subst.
    - destruct x as [[ms e]|p]; [|done]. destruct Hx as [_ [= -> _]]. done.
    - destruct f as [[]|p]; [naive_solver| |done]. destruct Hx as [[? ->] ?]. naive_solver. }
  destruct x as [e|p]; simplify_eq.
  destruct (claim_query _ _ _ Ec) as (ce & d & [Henv _ _] & Hst & Hex & Hdb & ->).
  assert (wf_db (d_db d)) as Hwf1 by (eapply stmt_keeps_wf; [exact Henv| |exact Hwf|exact Hst]; constructor).
  destruct (batch_trace eq rt r _ _ _ _ _ _ _ _ _ Ec Ep Ef Es) as (tr & tr' & Htr & _).
  exists perr, (map scanned (d_rows d)), ms', w1, w2, (tr ++ Handed (map scanned (d_rows d)) (Ok (ms', perr)) :: tr')%list.
  split; [done|]. pose proof (publish_batch eq rt r _ _ _ _ _ _ Ep) as Hsh.
  pose proof (publish_limits _ _ _ _ _ _ Ep) as Hl. apply publish_leases in Ep; [|by eapply scanned_claims]. apply fatal_stage_same in Ef.
  apply settle_batch_done_lem in Es; [|by eapply shares_claims, scanned_claims].
  split_and!; [by eapply (batch_rows w w1 w2 w3)|exact Htr| |].
  - intros id row row' Hr Hr' Hs.
    destruct (settled_row_claimed w w1 w2 w3 w' ce d ms' perr ltac:(done) ltac:(done) ltac:(done) ltac:(done)
      ltac:(done) ltac:(done) id row row') as (m & ? & ?); [done..|].
    exists (map scanned (d_rows d)), ms', m. split; [apply elem_of_app; right; by left|done].
  - destruct (d_rows d) as [|[id row1] l] eqn:El; [done|]. rewrite <-El in *.
    destruct (claimed_row_settled w w1 w2 w3 w' ce d ms' perr ltac:(done) ltac:(done) ltac:(done) ltac:(done)
      ltac:(done) ltac:(done) ltac:(done) id row1) as (row & row' & ?); [rewrite El; by left|]. by exists id, row, row'.
Qed.

(** ** A bound on the batches of a drain *)

(** Attempts a row may still take: none once terminal, else what its limit
    leaves and the one that finds it exhausted. *)
Definition row_work (row : Row) : nat :=
  match status row with
  | StatusPending | StatusProcessing => S (Z.to_nat (row_limit row - attempts row))
  | _ => O
  end.

Definition work (t : gmap string Row) : nat := map_fold (λ _ row n, row_work row + n)%nat O t.

Lemma work_delete t id row :
  t !! id = Some row → work t = (row_work row + work (delete id t))%nat.
Proof. intros Hr. unfold work. rewrite (map_fold_delete_L _ _ id row t); [done|intros; lia|done]. Qed.

Lemma work_insert t id row :
  t !! id = None → work (<[id := row]> t) = (row_work row + work t)%nat.
Proof. intros Hr. unfold work. rewrite map_fold_insert_L; [done|intros; lia|done]. Qed.

(** Row by row no more work. *)
Definition less_work (o o' : option Row) : Prop :=
  match o, o' with
  | Some row, Some row' => (row_work row' ≤ row_work row)%nat
  | None, None => True
  | _, _ => False
  end.

Lemma work_le t t' : (∀ id, less_work (t !! id) (t' !! id)) → (work t' ≤ work t)%nat.
Proof.
  revert t'. induction t as [|id row t Hid IH] using map_ind; intros t' Hall.
  - assert (t' = ∅) as ->; [|done]. apply map_empty. intros id. specialize (Hall id).
    rewrite lookup_empty in Hall. by destruct (t' !! id).
  - pose proof (Hall id) as Hi. rewrite lookup_insert_eq in Hi. simpl in Hi.
    destruct (t' !! id) as [row'|] eqn:Hr'; [|done].
    rewrite work_insert by done. rewrite (work_delete t' id row') by done.
    enough (work (delete id t') ≤ work t)%nat by lia. apply IH. intros j.
    destruct (decide (j = id)) as [->|Hne].
    + by rewrite lookup_delete_eq, Hid.
    + rewrite lookup_delete_ne by done. specialize (Hall j). by rewrite lookup_insert_ne in Hall by done.
Qed.

Lemma work_lt t t' id row row' :
  (∀ id, less_work (t !! id) (t' !! id)) →
  t !! id = Some row → t' !! id = Some row' → (row_work row' < row_work row)%nat →
  (work t' < work t)%nat.
Proof.
  intros Hall Hr Hr' Hlt. rewrite (work_delete t id row), (work_delete t' id row') by done.
  enough (work (delete id t') ≤ work (delete id t))%nat by lia. apply work_le. intros j.
  destruct (decide (j = id)) as [->|Hne].
  - by rewrite !lookup_delete_eq.
  - by rewrite !lookup_delete_ne.
Qed.


Lemma settled_row_work perr row row' : settled_row perr row row' → (row_work row' < row_work row)%nat.
Proof.
  intros (Hst & row1 & e & m & why & delay & clear & Hatt & Hlim & Hatt1 & Hmax1 & ->).
  assert (row_work row = S (Z.to_nat (row_limit row - attempts row))) as ->.
  { unfold row_work. by destruct Hst as [-> | ->]. }
  unfold row_work, row_limit at 1; simpl. rewrite Hmax1, Hatt1. fold (row_limit row).
  destruct (verdict _ _ _) eqn:Hv; try lia.
  - unfold verdict in Hv. destruct (message_outcome perr m) as [x|]; [|done].
    repeat case_match; try done. lia.
  - by apply verdict_not_processing in Hv.
Qed.

Lemma batch_row_work perr o o' : batch_row perr o o' → less_work o o'.
Proof.
  intros [->|(row & row' & -> & -> & Hs%settled_row_work)]; simpl.
  - by destruct o; simpl.
  - lia.
Qed.

Lemma processBatch_work w n w' :
  wf_db (db_of w) → processBatch rt r w = (Ok (n, None), w') → n ≠ 0 →
  (work (rows (db_of w')) < work (rows (db_of w)))%nat.
Proof.
  intros Hwf E Hn. destruct (processBatch_done _ _ _ Hwf E Hn)
    as (perr & _ & _ & _ & _ & _ & _ & Hall & _ & _ & id & row & row' & ? & ? & Hs).
  eapply work_lt; [|done|done|by eapply settled_row_work]. intros j. by eapply batch_row_work.
Qed.

Lemma worker_keeps_wf {A} (m : go W A) w x w' :
  preserves evolves m → m w = (x, w') → wf_db (db_of w) → wf_db (db_of w').
Proof. intros Hm E. apply reachable_keeps_wf. by apply (Hm _ _ _ E). Qed.

(** C14. A drain of a relay alone on its table ends: on a well-formed table that
    nobody else writes meanwhile, with a publisher that may answer anything but
    does not overwrite the attempt limits its messages point to, and whatever
    statements fail or lose their answers, the drain claims at most as many batches
    as the rows have attempts left, and returns or panics within that many passes.
    It does not depend on retried rows not being due.  Beside processes that keep
    enqueuing or requeuing there is no such bound. *)
Theorem drain_terminates fuel w x w' :
  wf_db (db_of w) → (work (rows (db_of w)) < fuel)%nat →
  drain rt r fuel w = (x, w') → x ≠ Ok None.
Proof.
  revert w. induction fuel as [|fuel IH]; intros w Hwf Hfuel E; [lia|]. simpl in E.
  run_inv E; [|congruence].
  assert (db_of x1 = db_of w) as Hctx.
  { apply same_table_db. revert H1. by apply (ctx_preserves eq), same_table_tolerates. }
  destruct x0 as []; [by injection E as <- _|].
  run_inv E; [|congruence]. destruct x0 as [n [e|]].
  - destruct (errors_As as_fatal e); [by injection E as <- _|].
    run_inv E; [|congruence]. destruct x0 as []; [by injection E as <- _|].
    run_inv E; [|congruence]. by injection E as <- _.
  - destruct (Z.eqb_spec n 0) as [|Hn]; [by injection E as <- _|].
    rewrite <-Hctx in Hwf, Hfuel.
    eapply IH; [| |exact E].
    + eapply worker_keeps_wf; [|done|done]. apply (processBatch_evolves eq rt r).
      intros ? ? ->. apply rtc_refl.
    + match goal with X : processBatch _ _ _ = _ |- _ => apply processBatch_work in X; [lia|done|done] end.
Qed.
End Alone.
