(* ===== verification/RelayLive.v ===== *)
(** * Progress of a relay

    When the database answers within [tick], nothing else touches the table and
    leases outlive the statements of a batch, settling succeeds; and when the
    publisher accepts every batch, a drain publishes every row that was due. *)

From stdpp Require Import relations.
From S2P Require Import Prelude Outcome Message Backoff Config Postgres Store System Safety StoreSpec Relay World RelaySpec RelaySafety RelayCorrect.

Open Scope string_scope.
Open Scope Z_scope.

Section Live.
Context `{Postgres} {W : Type} `{Deployment W} (rt : Runtime W) (r : Relay W).
Context `{!LawfulExecutor eq (exec (store r))}.
Context `{!LawfulPublisher eq (pub r)} `{!LawfulRuntime eq rt}.

(** ** A responsive database *)

(** A statement sent in [w] runs at once, in an environment whose transaction
    starts no earlier than the last effect and which takes at most [tick]. *)
Class Responsive (tick : Z) (ex : Executor W) : Prop := {
  tick_nonneg : 0 ≤ tick;
  answers st w : ∃ e, stmt_ready e (sys_of w) ∧
    s_clock (sys_of w) ≤ e_now e ∧ e_clk e ≤ s_clock (sys_of w) + tick ∧ e_locked e = ∅ ∧
    ∀ d, exec_stmt e st (db_of w) = SqlOk d →
      (∃ w', Query ex st w = (Ok (d_rows d, None), w') ∧ sys_of w' = advance e st (sys_of w)) ∧
      (∃ w', Exec ex st w = (Ok (d_affected d, None), w') ∧ sys_of w' = advance e st (sys_of w))
}.

(** A runtime whose calls return and whose context is never done. *)
Class Calm : Prop := {
  calm_ctx w : ∃ w', ctx_Err rt w = (Ok false, w');
  calm_random w : ∃ f w', random rt w = (Ok f, w') ∧
    ∀ b n, sBackoff (set r) = Some b → ∃ d, b f n = Ok d;
  calm_observe ev w : ∃ w', observe rt ev w = (Ok tt, w')
}.

Context (tick : Z) `{!Responsive tick (exec (store r))} `{!Calm}.
Context (Hset : runnable (set r)).

(** The table is well formed and is the one the store names. *)
Definition good (w : W) : Prop :=
  wf_db (db_of w) ∧ table_name (db_of w) = table (store r).

Lemma sys_step_table s s' : sys_step s s' → table_name (s_db s') = table_name (s_db s).
Proof.
  intros [e st _ _ _ Hiss ->]. simpl. unfold after_stmt.
  destruct (exec_stmt e st (s_db s)) as [d|] eqn:E; [|done].
  by destruct (exec_stmt_frame _ _ _ _ Hiss E).
Qed.

Lemma evolves_good w w' : evolves w w' → good w → good w'.
Proof.
  intros He [Hwf Ht]. split; [by eapply reachable_keeps_wf|].
  rewrite <-Ht. unfold db_of. clear -He. change (rtc sys_step (sys_of w) (sys_of w')) in He.
  induction He as [|s1 s2 s3 Hs _ IH]; [done|]. rewrite IH. by apply sys_step_table.
Qed.

(** ** Completions succeed *)

(** The claims of [ms] are live, [k] statements from now. *)
Definition alive (k : nat) (ms : list Message) (w : W) : Prop := ∀ m, m ∈ ms →
  ∃ row u, rows (db_of w) !! ID m = Some row ∧ status row = StatusProcessing ∧
    lease_token row = Some (LeaseToken m) ∧ locked_until row = Some u ∧
    s_clock (sys_of w) + tick * Z.of_nat k < u.

Lemma alive_batch k ms w e :
  claims ms → alive (S k) ms w → e_clk e ≤ s_clock (sys_of w) + tick → live_batch (e_clk e) (db_of w) ms.
Proof.
  pose proof tick_nonneg. intros [Hc Hnd] Hal He. split_and!; [done..|]. intros m Hm.
  destruct (Hal m Hm) as (row & u & ? & ? & ? & ? & ?). exists row. split; [done|].
  split_and!; [done..|]. exists u. split; [done|]. nia.
Qed.

Lemma observe_total ev w : ∃ w', observe rt ev w = (Ok tt, w') ∧ same_table w w'.
Proof.
  destruct (calm_observe ev w) as [w' E]. exists w'. split; [done|].
  apply observe_law in E as [E _]. by apply same_server.
Qed.

Lemma hook_total ev w : ∃ w', call_hook rt (set r) ev w = (Ok tt, w') ∧ same_table w w'.
Proof.
  unfold call_hook. destruct (run_hooks _ Hset) as [h ->]. apply observe_total.
Qed.

Lemma for_each_total {A} (l : list A) f w :
  (∀ a w, ∃ w', f a w = (Ok tt, w') ∧ same_table w w') →
  ∃ w', for_each l f w = (Ok tt, w') ∧ same_table w w'.
Proof.
  intros Hf. revert w. induction l as [|a l IH]; intros w; simpl.
  - exists w. split; [done|apply reflexivity].
  - destruct (Hf a w) as (w1 & E1 & S1), (IH w1) as (w2 & E2 & S2). exists w2.
    rewrite (M_bind_ok _ _ _ _ _ E1). split; [done|by etrans].
Qed.

Lemma query_total st w d0 :
  good w → (∀ e, e_clk e ≤ s_clock (sys_of w) + tick → e_locked e = ∅ → s_clock (sys_of w) ≤ e_now e →
             ∃ d, exec_stmt e st (db_of w) = SqlOk d ∧ d0 e d) → issued (st_cmd st) →
  ∃ e d w', Query (exec (store r)) st w = (Ok (d_rows d, None), w') ∧ d0 e d ∧
    exec_stmt e st (db_of w) = SqlOk d ∧ stmt_ready e (sys_of w) ∧
    e_clk e ≤ s_clock (sys_of w) + tick ∧ s_clock (sys_of w) ≤ e_now e ∧ e_locked e = ∅ ∧
    sys_of w' = advance e st (sys_of w) ∧ good w'.
Proof.
  intros Hg Hok Hiss. destruct (answers (ex := exec (store r)) st w) as (e & Hrd & Hnow & Hclk & Hlk & Hans).
  destruct (Hok e Hclk Hlk Hnow) as (d & Hex & Hd). destruct (Hans d Hex) as [(w' & E & Hs) _].
  exists e, d, w'. split_and!; try done. eapply evolves_good; [|done].
  by eapply advance_evolves.
Qed.

Lemma same_table_good w w' : same_table w w' → good w → good w'.
Proof. intros E. unfold good. by rewrite (same_table_db _ _ E). Qed.

(** The server can store the text of an outcome. *)
Definition writable (outcome : option err) : Prop := storable (cause_text outcome) = true.

Lemma complete_total ms st cause delay w :
  ms ≠ [] → claims ms → alive 1 ms w → good w → st ≠ StatusProcessing → writable cause →
  ∃ w', complete rt r ms st cause delay w = (Ok None, w') ∧ good w' ∧
    s_clock (sys_of w') ≤ s_clock (sys_of w) + tick.
Proof.
  intros Hne Hcl Hal Hg Hst Htx. set (why := cause_text cause).
  destruct (query_total (finish_stmt r ms st why delay) w (λ e d, length (d_rows d) = length ms ∧
    Forall (λ ir, readable ir.2) (d_rows d))) as (e & d & w1 & E & [Hlen Hrd] & _ & _ & Hclk & _ & _ & Hs & Hg1);
    [done| |by constructor|].
  { intros e Hclk _ _. destruct (finish_facts e ms st why delay (ClearPayloadOnComplete (set r)) (db_of w))
      as (d & Hex & _ & _ & Hrows & Hlen); [apply Hcl|done|].
    exists d. unfold exec_stmt. simpl. destruct Hg as [Hwf Ht]. rewrite Ht, String.eqb_refl.
    split_and!; [done|apply Hlen; by eapply alive_batch|].
    apply Forall_forall. intros [id row'] (m & row & _ & _ & Hrow & _ & ->)%Hrows.
    unfold readable. simpl. destruct (scrubs _ _); [by exists (Some ∅)|].
    by apply (wf_rows _ Hwf) in Hrow as [_ _ _ ? _]. }
  assert (finish (store r) ms st why delay (ClearPayloadOnComplete (set r)) w
          = (Ok (map scanned (d_rows d), None), w1)) as Hf.
  { unfold finish, claimKeys. destruct ms as [|m ms]; [done|].
    rewrite (M_bind_ok _ _ _ _ _ E). by rewrite scanMessages_ok. }
  unfold complete. fold (cause_text cause). fold why. rewrite (M_bind_ok _ _ _ _ _ Hf).
  match goal with |- context [(?m ≫= _) w1] => assert (∃ w2, m w1 = (Ok tt, w2) ∧ same_table w1 w2) as (w2 & E2 & S2) end.
  { destruct (map scanned (d_rows d)) as [|m0 l0] eqn:Ec; [by exists w1|]. rewrite <-Ec.
    destruct st; try done.
    - apply for_each_total. intros. apply hook_total.
    - apply hook_total.
    - apply for_each_total. intros. apply hook_total.
    - destruct (sHooks (set r)) as [h|]; [|by exists w1].
      destruct (implements_discard h); [apply observe_total|by exists w1]. }
  rewrite (M_bind_ok _ _ _ _ _ E2). exists w2.
  rewrite length_map, Hlen, Nat.eqb_refl. split_and!; [done|by eapply same_table_good|].
  rewrite S2, Hs. done.
Qed.

(** ** Settling succeeds *)

(** [m] runs to [None] within [k] statements. *)
Definition succeeds (m : go W (option err)) (k : nat) (w w' : W) : Prop :=
  m w = (Ok None, w') ∧ good w' ∧ s_clock (sys_of w') ≤ s_clock (sys_of w) + tick * Z.of_nat k.

Lemma alive_sub k k' ms ms' w :
  (k' ≤ k)%nat → (∀ m, m ∈ ms' → m ∈ ms) → alive k ms w → alive k' ms' w.
Proof.
  pose proof tick_nonneg. intros Hk Hsub Hal m Hm.
  destruct (Hal m (Hsub m Hm)) as (row & u & ? & ? & ? & ? & ?).
  exists row, u. split_and!; try done. nia.
Qed.

Lemma alive_rest f k k' ms ms' w w' :
  NoDup (map ID (ms ++ ms')) → settled_to r f ms w w' →
  s_clock (sys_of w') ≤ s_clock (sys_of w) + tick * Z.of_nat k →
  alive (k + k') ms' w → alive k' ms' w'.
Proof.
  rewrite map_app. intros (_ & Hd & _)%NoDup_app [_ Hkeep] Hclk Hal m Hm.
  destruct (Hal m Hm) as (row & u & Hr & ? & ? & ? & ?). exists row, u. split_and!; try done.
  - rewrite Hkeep; [done|]. intros Hin. apply (Hd _ Hin), list_elem_of_fmap. by exists m.
  - lia.
Qed.

Lemma retry_decision_total retry m w : ∃ st delay w',
  retry_decision rt r retry m w = (Ok (st, delay), w') ∧ same_table w w' ∧ st ≠ StatusProcessing.
Proof.
  unfold retry_decision. destruct (_ <=? _).
  - eexists _, _, w. split_and!; [done|apply reflexivity|done].
  - destruct (calm_random w) as (f & w' & E & Hb). rewrite (M_bind_ok _ _ _ _ _ E).
    destruct (run_backoff _ Hset) as [b Eb]. rewrite Eb. destruct (Hb b (Attempts m) Eb) as [d Ed].
    unfold lift_res. rewrite Ed. eexists _, _, w'. split_and!; [done| |done].
    apply random_law in E as [E _]. by apply same_server.
Qed.

Lemma settle_loop_total e ms w :
  errors_As as_permanent e = None → errors_As as_discard e = None → writable (Some e) →
  claims ms → alive (length ms) ms w → good w →
  ∃ w', succeeds (settle_loop rt r e (errors_As as_retry e) [] ms) (length ms) w w'.
Proof.
  intros Hp Hd Htx. revert w. induction ms as [|m ms IH]; intros w Hcl Hal Hg.
  { exists w. split_and!; [done..|simpl; lia]. }
  destruct (claims_app [m] ms Hcl) as [Hc1 Hc2].
  destruct (retry_decision_total (errors_As as_retry e) m w) as (st & delay & w1 & E1 & S1 & Hst).
  assert (alive (length (m :: ms)) (m :: ms) w1) as Hal1.
  { intros m' Hm'. unfold db_of. rewrite S1. by apply Hal. }
  destruct (complete_total [m] st (Some e) delay w1) as (w2 & E2 & Hg2 & Hclk); try done.
  { eapply alive_sub; [|..|exact Hal1]; simpl; [lia|set_solver]. }
  { by eapply same_table_good. }
  destruct (complete_done rt r [m] st (Some e) delay w1 w2) as (ce & _ & Hkeep); [done|apply Hc1..|done|].
  destruct (IH w2 Hc2) as (w3 & E3 & Hg3 & Hclk3); [|done|].
  { intros m' Hm'. destruct (Hal1 m') as (row & u & Hr & ? & ? & ? & ?); [by right|].
    exists row, u. split_and!; try done.
    - rewrite Hkeep; [done|]. intros Heq%list_elem_of_singleton.
      destruct Hcl as [_ [Hn _]%NoDup_cons]. apply Hn, list_elem_of_fmap. by exists m'.
    - cbn [length] in *. lia. }
  exists w3. split_and!; [|done|rewrite S1 in Hclk; cbn [length]; lia].
  cbn [settle_loop]. rewrite (M_bind_ok _ _ _ _ _ E1), (M_bind_ok _ _ _ _ _ E2). exact E3.
Qed.

Lemma complete_succeeds ms st cause delay w :
  ms ≠ [] → claims ms → alive (length ms) ms w → good w → st ≠ StatusProcessing → writable cause →
  ∃ w', succeeds (complete rt r ms st cause delay) (length ms) w w'.
Proof.
  pose proof tick_nonneg. intros Hne Hcl Hal Hg Hst Htx.
  destruct (complete_total ms st cause delay w) as (w' & ? & ? & ?); try done.
  - eapply alive_sub; [|done|exact Hal]. destruct ms; simpl; [done|lia].
  - exists w'. split_and!; [done..|]. destruct ms; [done|]. cbn [length]. nia.
Qed.

Lemma settle_total ms perr w :
  claims ms → alive (length ms) ms w → good w → (∀ m, m ∈ ms → writable perr) →
  ∃ w', succeeds (settle rt r ms perr) (length ms) w w'.
Proof.
  intros Hcl Hal Hg Htx. destruct ms as [|m ms].
  { exists w. split_and!; [done..|simpl; lia]. }
  specialize (Htx m ltac:(by left)). unfold settle. destruct perr as [e|]; [|by apply complete_succeeds].
  destruct (errors_As as_permanent e) eqn:Hp; [by apply complete_succeeds|].
  destruct (errors_As as_discard e) eqn:Hd; [by apply complete_succeeds|].
  by apply settle_loop_total.
Qed.

Lemma Join_all_None es : (∀ e, e ∈ es → e = None) → errors_Join es = None.
Proof.
  intros Hes. unfold errors_Join. enough (omap id es = []) as -> by done.
  induction es as [|e es IH]; simpl; [done|]. rewrite (Hes e) by (by left). simpl.
  apply IH. intros. apply Hes. by right.
Qed.

Lemma settleEach_loop_total outs oth ps os errs ms w :
  claims (ms ++ ps ++ os) → alive (length (ms ++ ps ++ os)) (ms ++ ps ++ os) w → good w →
  (∀ e, e ∈ errs → e = None) →
  (∀ m, m ∈ ms → writable (default oth (map_entry outs (ID m)))) → (∀ m, m ∈ os → writable oth) →
  ∃ w', succeeds (settleEach_loop rt r outs oth ps os errs ms) (length (ms ++ ps ++ os)) w w'.
Proof.
  revert ps os errs w. induction ms as [|m ms IH]; intros ps os errs w Hcl Hal Hg Herr Hms Hos;
    cbn [settleEach_loop].
  - simpl in *. destruct (claims_app _ _ Hcl) as [Hc1 Hc2]. rewrite length_app in Hal.
    destruct (settle_total ps None w) as (w1 & E1 & Hg1 & K1); [done| |done..|].
    { eapply alive_sub; [..|exact Hal]; [lia|set_solver]. }
    pose proof (settle_done rt r _ _ _ _ Hc1 E1) as S1.
    destruct (settle_total os oth w1) as (w2 & E2 & Hg2 & K2); [done| |done..|].
    { eapply alive_rest; [apply Hcl|exact S1|exact K1|]. eapply alive_sub; [..|exact Hal]; [lia|set_solver]. }
    exists w2. split_and!; [|done|rewrite length_app; lia].
    rewrite (M_bind_ok _ _ _ _ _ E1), (M_bind_ok _ _ _ _ _ E2).
    rewrite Join_all_None; [done|]. set_solver.
  - assert (writable (default oth (map_entry outs (ID m)))) as Hm by (apply Hms; by left).
    assert (∀ m, m ∈ ms → writable (default oth (map_entry outs (ID m)))) as Hms'
      by (intros; apply Hms; by right).
    destruct (default oth (map_entry outs (ID m))) as [e|] eqn:Hf; [destruct (map_entry outs (ID m))|].
    + destruct (claims_app [m] (ms ++ ps ++ os) Hcl) as [Hc1 Hc2].
      destruct (settle_total [m] (Some e) w) as (w1 & E1 & Hg1 & K1); [done| |done..|].
      { eapply alive_sub; [..|exact Hal]; [simpl; lia|set_solver]. }
      pose proof (settle_done rt r _ _ _ _ Hc1 E1) as S1.
      destruct (IH ps os (errs ++ [None])%list w1) as (w2 & E2 & Hg2 & K2); [done| |done|set_solver|done..|].
      { eapply (alive_rest _ 1 _ [m] (ms ++ ps ++ os)); [apply Hcl|exact S1|exact K1|].
        eapply alive_sub; [..|exact Hal]; [simpl; lia|set_solver]. }
      exists w2. split_and!; [|done|cbn [length app] in *; lia].
      by rewrite (M_bind_ok _ _ _ _ _ E1).
    + assert (ms ++ ps ++ os ++ [m] ≡ₚ (m :: ms) ++ ps ++ os) as Hp by solve_Permutation.
      destruct (IH ps (os ++ [m])%list errs w) as (w1 & E1 & Hg1 & K1); try done.
      * by eapply claims_perm.
      * rewrite (Permutation_length Hp). eapply alive_sub; [done| |exact Hal]. set_solver.
      * intros m' [?|Hm']%elem_of_app; [by eapply Hos|]. simpl in Hf. by rewrite Hf.
      * exists w1. split_and!; [done..|]. by rewrite <-(Permutation_length Hp).
    + assert (ms ++ (ps ++ [m]) ++ os ≡ₚ (m :: ms) ++ ps ++ os) as Hp by solve_Permutation.
      destruct (IH (ps ++ [m])%list os errs w) as (w1 & E1 & Hg1 & K1); try done.
      * by eapply claims_perm.
      * rewrite (Permutation_length Hp). eapply alive_sub; [done| |exact Hal]. set_solver.
      * exists w1. split_and!; [done..|]. by rewrite <-(Permutation_length Hp).
Qed.

(** C4. When settling succeeds: for a relay alone on a well-formed table, with a
    database that answers every statement within [tick] and locks nothing, a
    runtime whose context is not done and whose hooks and backoff return, and
    claims that are live and outlast one statement per message of the batch, then
    whatever the publisher answered, per-message outcomes included, as long as the
    server can store the text of every message's own error, settling reports
    success and records every message's own outcome.  Without the last condition
    it cannot succeed ([RelayCorrect.unstorable_outcome_not_recorded]). *)
Theorem settle_batch_succeeds ms perr w :
  claims ms → alive (length ms) ms w → good w →
  (∀ m, m ∈ ms → writable (message_outcome perr m)) →
  ∃ w', settle_batch rt r ms perr w = (Ok None, w') ∧ settled_to r (message_outcome perr) ms w w'.
Proof.
  intros Hcl Hal Hg Htx. unfold message_outcome in Htx.
  assert (∃ w', settle_batch rt r ms perr w = (Ok None, w')) as [w' E].
  { unfold settle_batch. destruct (errors_As_opt as_batch perr) as [[outs oth]|].
    - destruct (settleEach_loop_total outs oth [] [] [] ms w) as (w' & E & _);
        rewrite ?app_nil_r; try done; [by intros ? ?%not_elem_of_nil..|by exists w'].
    - destruct (settle_total ms perr w Hcl Hal Hg Htx) as (w' & E & _). by exists w'. }
  exists w'. split; [done|by eapply settle_batch_done_lem].
Qed.

(** ** Publishing everything that is due *)
Section Accepting.

(** The publisher accepts every batch and leaves the attempt limits alone,
    however many heartbeats fire meanwhile, and a lease outlives the statements
    of a batch. *)
Context (Haccept : ∀ c ms w, ∃ ms' w', Publish (pub r) c ms w = (Ok (ms', None), w')).
Context (Hevents : ∀ dl d w, ∃ evs w', heartbeat_events rt dl d w = (Ok evs, w')).
Context (Hlease : tick * (BatchSize (set r) + 1) < interval_us (LeaseDuration (set r))).
Context (Hinstance : text_in (InstanceID (set r)) = true).
Context `{!KeepsLimits (pub r)}.

Lemma renew_total ms k w :
  claims ms → good w → alive 1 ms w → tick * Z.of_nat k < interval_us (LeaseDuration (set r)) →
  ∃ w', renew (store r) ms (LeaseDuration (set r)) w = (Ok None, w') ∧ good w' ∧ alive k ms w'.
Proof.
  intros Hcl Hg Hal Hk. set (st := renew_stmt r ms).
  destruct (answers (ex := exec (store r)) st w) as (e & Hrd & _ & Hclk & _ & Hans).
  assert (live_batch (e_clk e) (db_of w) ms) as Hlive by by eapply alive_batch.
  set (d := run_update (db_of w) (live_claim (e_clk e) (map msg_key ms)) (λ _, renew_row e (LeaseDuration (set r)))).
  assert (exec_stmt e st (db_of w) = SqlOk d) as Hex.
  { unfold exec_stmt. simpl. destruct Hg as [_ Ht]. rewrite Ht, String.eqb_refl.
    unfold exec_renew. by rewrite cast_keys_canonical by apply Hcl. }
  destruct (Hans d Hex) as [_ (w' & E & Hs)]. exists w'.
  assert (db_of w' = d_db d) as Hdb.
  { unfold db_of. rewrite Hs. simpl. unfold after_stmt. fold (db_of w). by rewrite Hex. }
  split_and!.
  - unfold renew, claimKeys. fold st. rewrite (M_bind_ok _ _ _ _ _ E). simpl.
    apply live_batch_matched, Permutation_length in Hlive. rewrite !length_map in Hlive.
    rewrite Hlive, Z.eqb_refl. done.
  - eapply evolves_good; [|done]. apply (advance_evolves e st); [done..|constructor].
  - intros m Hm. destruct Hlive as (_ & _ & Hl). destruct (Hl m Hm) as (row & Hr & Hrow).
    assert (rows (db_of w') !! ID m = Some (renew_row e (LeaseDuration (set r)) row)) as Hr'.
    { rewrite Hdb. unfold d. rewrite lookup_run_update, Hr. simpl.
      by rewrite (proj2 (live_claim_batch (e_clk e) ms (ID m) row)) by (by exists m). }
    destruct Hrow as (Hst & Htok & _). eexists _, _. split_and!; [exact Hr'|done..|reflexivity|].
    rewrite Hs. simpl. lia.
Qed.

Lemma heartbeat_total evs ms k w :
  claims ms → good w → alive (S k) ms w → tick * Z.of_nat (S k) < interval_us (LeaseDuration (set r)) →
  ∃ hb w', heartbeat rt r evs ms w = (Ok hb, w') ∧ good w' ∧ alive (S k) ms w' ∧
    hb_cancelled hb = false ∧ hb_error hb = None.
Proof.
  intros Hcl. revert w. induction evs as [|[] evs IH]; intros w Hg Hal Hk; simpl; try by eexists _, w.
  destruct (renew_total ms (S k) w) as (w1 & E1 & Hg1 & Hal1); try done.
  { eapply alive_sub; [|done|exact Hal]. lia. }
  rewrite (M_bind_ok _ _ _ _ _ E1). by apply IH.
Qed.

Lemma same_table_alive k ms w w' : same_table w w' → alive k ms w → alive k ms w'.
Proof. intros S Hal m Hm. unfold db_of. rewrite S. by apply Hal. Qed.

Lemma beat_total ms k w :
  claims ms → good w → alive (S k) ms w → tick * Z.of_nat (S k) < interval_us (LeaseDuration (set r)) →
  ∃ hb w', beat rt r ms w = (Ok hb, w') ∧ good w' ∧ alive (S k) ms w' ∧
    hb_cancelled hb = false ∧ hb_error hb = None.
Proof.
  intros Hcl Hg Hal Hk. unfold beat.
  destruct (Hevents (publish_deadline r) (heartbeat_interval r) w) as (evs & w1 & E1).
  rewrite (M_bind_ok _ _ _ _ _ E1). apply events_law in E1 as [S1%same_server _].
  destruct (heartbeat_total evs ms k w1) as (hb & w2 & E2 & Hrest); try done.
  { by eapply same_table_good. }
  { by eapply same_table_alive. }
  exists hb, w2. split; [|done]. unfold try_catch. by rewrite E2.
Qed.

Lemma shares_alive k ms ms' w : Forall2 shares ms ms' → alive k ms w → alive k ms' w.
Proof.
  intros Hs Hal m' [i Hi]%list_elem_of_lookup.
  destruct (Forall2_lookup_r _ _ _ _ _ Hs Hi) as (m & Hm%list_elem_of_lookup_2 & Hsm).
  rewrite (shares_ID _ _ Hsm), (shares_LeaseToken _ _ Hsm). by apply Hal.
Qed.

Lemma publish_total ms k w :
  claims ms → good w → alive (S k) ms w → tick * Z.of_nat (S k) < interval_us (LeaseDuration (set r)) →
  ∃ ms' w', publish rt r ms w = (Ok (ms', None, None), w') ∧ good w' ∧ alive (S k) ms w'.
Proof.
  intros Hcl Hg Hal Hk. unfold publish.
  destruct (beat_total ms k w) as (hb & w1 & E1 & Hg1 & Hal1 & _ & Hc); try done.
  rewrite (M_bind_ok _ _ _ _ _ E1). destruct (Haccept (hb_cancelled hb) ms w1) as (ms' & w2 & E2).
  rewrite (M_bind_ok _ _ _ _ _ E2). apply publish_law in E2 as [S2%same_server _].
  assert (good w2) as Hg2 by by eapply same_table_good.
  assert (alive (S k) ms w2) as Hal2 by by eapply same_table_alive.
  destruct hb as [|e c]; [|by simplify_eq/=; exists ms', w2].
  destruct (beat_total ms k w2) as (hb & w3 & E3 & Hg3 & Hal3 & _ & Hc3); try done.
  rewrite (M_bind_ok _ _ _ _ _ E3). exists ms', w3. simpl. by rewrite Hc3.
Qed.

(** A claim that returns no row changed none. *)
Lemma claim_nothing e ordered inst lease limit db d :
  exec_claim e ordered inst lease limit db = SqlOk d → d_rows d = [] → ∀ db', db' = d_db d → db' = db.
Proof.
  intros Hex Hnil db' ->. destruct (claim_facts _ _ _ _ _ _ _ Hex) as (_ & _ & Hout & _).
  destruct (exec_claim_inv _ _ _ _ _ _ _ Hex) as [_ Hd].
  assert (rows (d_db d) = rows db) as Hrows.
  { apply map_eq. intros id. apply Hout. rewrite Hnil. apply not_elem_of_nil. }
  rewrite Hd in Hrows |- *. simpl in Hrows |- *. unfold with_rows. rewrite Hrows. by destruct db.
Qed.

(** Rows that may be claimed have room for one more attempt in their column. *)
Definition headroom (w : W) : Prop := ∀ id row, rows (db_of w) !! id = Some row →
  status row = StatusPending ∨ status row = StatusProcessing → attempts row < int4_max.

Lemma exec_claim_ok e w :
  good w → headroom w →
  ∃ d, exec_stmt e (claim_stmt r) (db_of w) = SqlOk d ∧
    exec_claim e (Ordered (set r)) (InstanceID (set r)) (LeaseDuration (set r)) (BatchSize (set r)) (db_of w) = SqlOk d.
Proof.
  intros [Hwf Ht] Hroom. unfold exec_stmt. simpl. rewrite Ht, String.eqb_refl.
  unfold exec_claim. pose proof (run_batch _ Hset). destruct (Z.ltb_spec (BatchSize (set r)) 0); [lia|].
  rewrite Hinstance. simpl negb. cbv iota.
  rewrite (proj2 (forallb_forall _ _)); [eauto|].
  intros [id row] [Hr Hsel]%list_elem_of_In%elem_of_matched. simpl.
  apply bool_decide_eq_true, elem_of_claim_select in Hsel as (_ & row' & ? & (_ & Hst & _)%claimable_spec).
  simplify_eq. assert (attempts row < int4_max) by (eapply Hroom; [done|naive_solver]).
  destruct (wf_rows _ Hwf _ _ Hr) as [_ _ ? _ _]. unfold int4_ok, int4_min, int4_max in *. lia.
Qed.

Lemma evolves_clock w w' : evolves w w' → s_clock (sys_of w) ≤ s_clock (sys_of w').
Proof.
  intros He. change (rtc sys_step (sys_of w) (sys_of w')) in He.
  induction He as [|s1 s2 s3 [e st _ Hc _ _ ->] _ IH]; [lia|]. simpl in IH. lia.
Qed.

(** A row whose turn has come: pending, or left processing by a relay that lost
    its lease, a crashed one for example. *)
Definition due (now : time) (row : Row) : Prop :=
  next_attempt_at row ≤ now ∧
  (status row = StatusPending ∨ status row = StatusProcessing ∧ ∃ u, locked_until row = Some u ∧ u < now).

Lemma due_later now now' row : now ≤ now' → due now row → due now' row.
Proof. intros Hle [Hd [Hp|(Hp & u & Hu & Hl)]]; (split; [lia|]); [by left|]. right. split; [done|]. exists u. split; [done|lia]. Qed.

Lemma due_claimable now ordered t row :
  due now row → (ordered = true → blocked t row = false) → claimable now ordered t row = true.
Proof. intros [Hd Hs] Hb. by apply claimable_spec. Qed.

(** A claim leases what it can, each lease long enough for the batch; when it
    leases nothing, every due row waits for an earlier one of its key. *)
Lemma claim_total w :
  good w → headroom w →
  ∃ ms w1, claim (store r) (set r) w = (Ok (ms, None), w1) ∧ good w1 ∧ claims ms ∧
    alive (length ms) ms w1 ∧ tick * Z.of_nat (length ms) < interval_us (LeaseDuration (set r)) ∧
    (ms = [] → db_of w1 = db_of w ∧ ∀ id row, rows (db_of w) !! id = Some row →
       due (s_clock (sys_of w)) row → Ordered (set r) = true ∧ blocked (rows (db_of w)) row = true).
Proof.
  intros Hg Hroom. pose proof tick_nonneg.
  destruct (query_total (claim_stmt r) w (λ e d, exec_claim e (Ordered (set r)) (InstanceID (set r))
      (LeaseDuration (set r)) (BatchSize (set r)) (db_of w) = SqlOk d))
    as (e & d & w1 & E & Hex & Hst & Hrdy & Hclk & Hnow & Hlk & Hs & Hg1); [done| |constructor|].
  { intros e _ _ _. by apply exec_claim_ok. }
  assert (db_of w1 = d_db d) as Hdb.
  { unfold db_of. rewrite Hs. simpl. unfold after_stmt. fold (db_of w). by rewrite Hst. }
  assert (wf_db (d_db d)) as Hwf1 by (rewrite <-Hdb; apply Hg1).
  destruct (claim_facts _ _ _ _ _ _ _ Hex) as ((Hnd & Hn & Hlim) & Hin & Hout & Hfull).
  exists (map scanned (d_rows d)), w1. rewrite length_map. split_and!; [|done| | | |].
  - unfold claim. fold (claim_stmt r). rewrite (M_bind_ok _ _ _ _ _ E), scanMessages_ok; [done|].
    apply Forall_forall. intros [id row'] Hi. destruct (Hin _ _ Hi) as (row & _ & _ & Hr' & _).
    by apply (wf_rows _ Hwf1) in Hr' as [_ _ _ ? _].
  - by eapply scanned_claims.
  - intros m ([id row'] & -> & Hi)%list_elem_of_fmap.
    destruct (Hin _ _ Hi) as (row & _ & -> & Hr' & _). eexists _, _. rewrite Hdb.
    split_and!; [exact Hr'|done..|reflexivity|]. rewrite Hs. cbn [s_clock advance].
    assert (tick * Z.of_nat (length (d_rows d)) ≤ tick * BatchSize (set r)) by (apply Z.mul_le_mono_nonneg_l; lia).
    lia.
  - assert (tick * Z.of_nat (length (d_rows d)) ≤ tick * BatchSize (set r)) by (apply Z.mul_le_mono_nonneg_l; lia).
    lia.
  - intros Hnil%map_eq_nil. rewrite Hnil in *. split.
    + apply (claim_nothing _ _ _ _ _ _ _ Hex Hnil) in Hdb. done.
    + intros id row Hr Hdue. apply (due_later _ (e_now e)) in Hdue; [|lia].
      destruct (claimable (e_now e) (Ordered (set r)) (rows (db_of w)) row) eqn:Hc.
      * exfalso. destruct (Hfull id row Hr Hc) as [Haff _].
        -- rewrite Hlk. apply not_elem_of_empty.
        -- apply not_elem_of_nil.
        -- simpl in *. pose proof (run_batch _ Hset). lia.
      * destruct (Ordered (set r)) eqn:Ho, (blocked (rows (db_of w)) row) eqn:Hb; try done; exfalso;
          (rewrite due_claimable in Hc; [done|done|done]).
Qed.

(** A batch of an accepting publisher is published. *)
Lemma processBatch_total w :
  good w → headroom w →
  ∃ n w', processBatch rt r w = (Ok (n, None), w') ∧ good w' ∧
    (n = 0 → db_of w' = db_of w ∧ ∀ id row, rows (db_of w) !! id = Some row →
       due (s_clock (sys_of w)) row → Ordered (set r) = true ∧ blocked (rows (db_of w)) row = true).
Proof.
  intros Hg Hroom. destruct (claim_total w Hg Hroom) as (ms & w1 & Ec & Hg1 & Hcl & Hal & Hk & Hnil).
  unfold processBatch. rewrite (M_bind_ok _ _ _ _ _ Ec).
  destruct ms as [|m0 ms0]; [by exists 0, w1; auto|]. set (ms := m0 :: ms0) in *.
  destruct (publish_total ms (length ms0) w1) as (ms' & w2 & Ep & Hg2 & Hal2); try done.
  rewrite (M_bind_ok _ _ _ _ _ Ep), M_ret_bind. simpl.
  pose proof (publish_batch eq rt r _ _ _ _ _ _ Ep) as Hsh.
  destruct (settle_total ms' None w2) as (w3 & Es & Hg3 & _); [by eapply shares_claims| |done..|].
  { rewrite <-(Forall2_length _ _ _ Hsh). by eapply shares_alive. }
  rewrite (M_bind_ok _ _ _ _ _ Es). eexists _, w3. split_and!; [done|done|lia].
Qed.

Lemma publish_answer ms w ms' perr le w' :
  publish rt r ms w = (Ok (ms', perr, le), w') → perr = None.
Proof.
  intros (c & w1 & w2 & E)%publish_call. destruct (Haccept c ms w1) as (? & ? & E1). congruence.
Qed.

Lemma settled_published row row' : settled_row r None row row' → status row' = StatusPublished.
Proof. by intros (_ & row1 & e & m & why & delay & clear & _ & _ & _ & _ & ->). Qed.

Lemma batch_row_headroom w w' :
  (∀ id, batch_row r None (rows (db_of w) !! id) (rows (db_of w') !! id)) → headroom w → headroom w'.
Proof.
  intros Hall Hroom id row' Hr' Hst. specialize (Hall id). rewrite Hr' in Hall.
  destruct Hall as [E|(row & row1 & E1 & [= ->] & Hs%settled_published)].
  - by eapply Hroom.
  - rewrite Hs in Hst. naive_solver.
Qed.

(** A row the relay can deliver now: due, and in ordered mode behind nothing but
    rows it can deliver before. *)
Definition deliverable (t : gmap string Row) (now : time) (row : Row) : Prop :=
  due now row ∧
  (Ordered (set r) = true → ∀ j e k, t !! j = Some e → partition_key e = Some k →
     partition_key row = Some k → before e row = true → settled e = false → due now e).

Lemma deliverable_elder t now j e row k :
  t !! j = Some e → partition_key e = Some k → partition_key row = Some k → before e row = true →
  settled e = false → Ordered (set r) = true → deliverable t now row → deliverable t now e.
Proof.
  intros He Hke Hkr Hb Hs Ho [_ Hall]. split; [by apply (Hall Ho j e k)|].
  intros _ i f k' Hf Hkf Hke' Hbf Hsf. simplify_eq.
  apply (Hall Ho i f k); try done. rewrite before_spec in *. lia.
Qed.

(** If every due row waits for an earlier one, no row is deliverable: the first
    of its key would wait for nothing. *)
Lemma all_blocked_none_deliverable t now :
  (∀ id row, t !! id = Some row → due now row → Ordered (set r) = true ∧ blocked t row = true) →
  ∀ id row, t !! id = Some row → ¬ deliverable t now row.
Proof.
  intros Hblk. set (elders row := filter (λ ir, before ir.2 row = true) t).
  enough (∀ n id row, (size (elders row) < n)%nat → t !! id = Some row → ¬ deliverable t now row) as Hn
    by (intros id row; by apply (Hn (S (size (elders row)))); lia).
  induction n as [|n IH]; intros id row Hlt Hr Hd; [lia|].
  destruct (Hblk id row Hr) as [Ho Hb]; [apply Hd..|].
  apply blocked_spec in Hb as (j & e & k & He & Hke & Hkr & Hbe & Hse).
  apply (IH j e); [|done|by eapply deliverable_elder].
  enough (size (elders e) < size (elders row))%nat by lia. apply map_subset_size.
  apply map_subset_alt. split.
  - apply map_subseteq_spec. intros i f. unfold elders. rewrite !map_lookup_filter_Some. simpl.
    intros [? Hf]. split; [done|]. rewrite !before_spec in *. lia.
  - exists j. unfold elders. split.
    + apply map_lookup_filter_None. right. intros f Hf. simpl. simplify_eq. rewrite before_spec. lia.
    + exists e. by apply map_lookup_filter_Some.
Qed.

(** What an accepted batch leaves deliverable. *)
Lemma batch_row_deliverable w w' now now' id row row' :
  (∀ id, batch_row r None (rows (db_of w) !! id) (rows (db_of w') !! id)) → now ≤ now' →
  rows (db_of w) !! id = Some row → rows (db_of w') !! id = Some row' →
  deliverable (rows (db_of w)) now row →
  status row' = StatusPublished ∨ deliverable (rows (db_of w')) now' row'.
Proof.
  intros Hall Hle Hr Hr' [Hd Hold].
  pose proof (Hall id) as Hi. rewrite Hr, Hr' in Hi.
  destruct Hi as [[= ->]|(row0 & row1 & [= <-] & [= ->] & Hs)]; [right|left; by eapply settled_published].
  split; [by eapply due_later|]. intros Ho j e' k He' Hke Hk Hb Hu. pose proof (Hall j) as Hj. rewrite He' in Hj.
  destruct Hj as [E|(e & e1 & _ & [= ->] & Hpub%settled_published)].
  - eapply due_later; [exact Hle|]. by eapply (Hold Ho j e' k).
  - unfold settled in Hu. by rewrite Hpub in Hu.
Qed.

Lemma records_none w w1 w2 tr : records w w1 [] → records w1 w2 tr → records w w2 tr.
Proof. apply (records_app w w1 w2 [] tr). Qed.

Lemma processBatch_grows : preserves (grows (λ _, True)) (processBatch rt r).
Proof.
  apply (processBatch_preserves eq rt r (grows (λ _, True))); try (intros; by apply grows_allows).
  - by apply grows_tolerates.
  - intros ms perr. apply (settle_batch_preserves eq); [apply _..|by apply grows_tolerates|].
    intros ms' st why d _ _. by apply grows_allows.
Qed.

Lemma drain_delivers fuel w :
  good w → headroom w → (work r (rows (db_of w)) < fuel)%nat →
  ∃ w' tr, drain rt r fuel w = (Ok (Some None), w') ∧ records w w' tr ∧
    ∀ id row, rows (db_of w) !! id = Some row →
      deliverable (rows (db_of w)) (s_clock (sys_of w)) row ∨ status row = StatusPublished →
      ∃ row', rows (db_of w') !! id = Some row' ∧ status row' = StatusPublished ∧
        (due (s_clock (sys_of w)) row → handed_row None tr id row).
Proof.
  revert w. induction fuel as [|fuel IH]; intros w Hg Hroom Hfuel; [lia|]. simpl.
  destruct (calm_ctx w) as (w1 & E1). destruct (ctx_law _ _ _ E1) as [S1%same_server T1].
  rewrite (M_bind_ok _ _ _ _ _ E1). pose proof (same_table_db _ _ S1) as Hdb1.
  assert (good w1) as Hg1 by (unfold good; by rewrite Hdb1).
  assert (headroom w1) as Hroom1 by (unfold headroom; by rewrite Hdb1).
  destruct (processBatch_total w1 Hg1 Hroom1) as (n & w2 & E2 & Hg2 & Hdone).
  rewrite (M_bind_ok _ _ _ _ _ E2). rewrite Hdb1, S1 in Hdone. destruct (Z.eqb_spec n 0) as [Hz|Hnz].
  { assert (grows (λ _, True) w1 w2) as (tr & Htr & _) by by eapply processBatch_grows.
    destruct (Hdone Hz) as [Hsame Hnone]. exists w2, tr. split_and!; [done|by eapply records_none|].
    intros id row Hr [Hd|Hp].
    - by destruct (all_blocked_none_deliverable _ _ Hnone id row Hr).
    - rewrite Hsame. exists row. split_and!; [done..|]. intros [_ [?|[? _]]]; congruence. }
  pose proof (processBatch_work rt r _ _ _ (proj1 Hg1) E2 Hnz) as Hwork.
  destruct (processBatch_done rt r _ _ _ (proj1 Hg1) E2 Hnz) as (perr & ms & ms' & w3 & w4 & tr1 & Ep & Hall & Htr1 & Hhand & _).
  assert (perr = None) as -> by by eapply publish_answer.
  assert (evolves w1 w2) as Hev%evolves_clock.
  { eapply (processBatch_evolves eq rt r); [|exact E2]. by intros ? ? ->. }
  destruct (IH w2) as (w' & tr2 & E & Htr2 & Hfin); [done|by eapply batch_row_headroom|rewrite Hdb1 in Hwork; lia|].
  exists w', (tr1 ++ tr2)%list. split_and!; [done|eapply records_app; [by eapply records_none|exact Htr2]|].
  intros id row Hr Hcase. rewrite <-Hdb1 in Hr, Hcase. rewrite S1 in Hev.
  destruct (Hall id) as [Hr2|(row0 & row2 & Hr0 & Hr2 & Hs)].
  - rewrite Hr in Hr2. destruct (Hfin id row Hr2) as (row' & Hr' & Hp' & Hh').
    { destruct Hcase as [Hd|Hp]; [|by right].
      destruct (batch_row_deliverable w1 w2 _ _ id row row Hall Hev Hr Hr2 Hd); auto. }
    exists row'. split_and!; [done..|]. intros Hd. apply handed_row_app. right. by apply Hh', (due_later _ _ _ Hev).
  - rewrite Hr in Hr0. injection Hr0 as <-. pose proof (settled_published _ _ Hs) as Hp2.
    destruct (Hfin id row2 Hr2) as (row' & Hr' & Hp' & _); [by right|].
    exists row'. split_and!; [done..|]. intros _. apply handed_row_app. left. by apply (Hhand id row row2).
Qed.

(** C3. Everything deliverable is delivered: alone on the table, with a database
    that answers within [tick], leases that outlive a batch's statements and a
    publisher that accepts every batch, a drain ends by itself without an error,
    and every row that was due when it started is published: pending ones, and
    those other relays, crashed or slow, had claimed and lost their leases on; in
    ordered mode, every such row that waits for no row but such rows. *)
Theorem drain_publishes_due fuel w :
  good w → headroom w → (work r (rows (db_of w)) < fuel)%nat →
  ∃ w', drain rt r fuel w = (Ok (Some None), w') ∧
    ∀ id row, rows (db_of w) !! id = Some row →
      deliverable (rows (db_of w)) (s_clock (sys_of w)) row ∨ status row = StatusPublished →
      ∃ row', rows (db_of w') !! id = Some row' ∧ status row' = StatusPublished.
Proof.
  intros Hg Hroom Hfuel. destruct (drain_delivers fuel w Hg Hroom Hfuel) as (w' & tr & E & _ & Hall).
  exists w'. split; [done|]. intros id row Hr Hd. destruct (Hall id row Hr Hd) as (row' & ? & ? & _). eauto.
Qed.
End Accepting.
End Live.
