(* ===== verification/Cleaner.v ===== *)
(** * The cleaner: [engine/cleaner.go]

    The retention loop of the cleaner, and what one of its passes achieves. *)

From stdpp Require Import relations.
From S2P Require Import Prelude Outcome Message Backoff Config Postgres Store System Safety StoreSpec Relay World RelaySpec RelaySafety RelayCorrect RelayLive.

Open Scope string_scope.
Open Scope Z_scope.

(** What the select of the cleaner can receive. *)
Inductive CleanerEvent : Type := CDone | CTick.

Record Cleaner (W : Type) : Type := NewCleaner { c_store : Store W; c_set : Settings }.
Arguments c_store {W}.
Arguments c_set {W}.
Arguments NewCleaner {W}.

(** The inverse of the first guard of [run]. *)
Definition cleaner_enabled (s : Settings) : bool :=
  negb ((s.(CleanupInterval) <=? 0) ||
        ((s.(Retention) <=? 0) && (s.(DeadRetention) <=? 0) && (s.(DiscardRetention) <=? 0))).

Section Cleaner.
Context {W : Type} (rt : Runtime W) (c : Cleaner W).

(** One pass: batches until one comes back short; [None] is out of fuel. *)
Fixpoint clean_pass (fuel : nat) : go W (option (option err)) :=
  match fuel with
  | O => mret None
  | S fuel' =>
      done ← rt.(ctx_Err);
      if done : bool then mret (Some None)
      else
        '(n, e) ← cleanup c.(c_store) c.(c_set);
        match e with
        | Some e =>
            fatal ← isFatal rt c.(c_set) e;
            if fatal : bool then mret (Some (Some e))
            else _ ← call_logger rt c.(c_set) (LogError "outbox: cleanup failed" e); mret (Some None)
        | None =>
            _ ← (if 0 <? n then call_hook rt c.(c_set) (OnCleanup n) else mret tt);
            if n <? c.(c_set).(BatchSize) then mret (Some None) else clean_pass fuel'
        end
  end.

Fixpoint clean_ticks (fuel : nat) (evs : list CleanerEvent) : go W (option (option err)) :=
  match evs with
  | [] | CDone :: _ => mret (Some None)
  | CTick :: evs' =>
      res ← clean_pass fuel;
      match res with
      | Some None => clean_ticks fuel evs'
      | _ => mret res
      end
  end.

Definition clean_run (fuel : nat) (evs : list CleanerEvent) : go W (option (option err)) :=
  if cleaner_enabled c.(c_set) then clean_ticks fuel evs else mret (Some None).

(** [Cleaner.Run]: a panic becomes an error. *)
Definition Run (fuel : nat) (evs : list CleanerEvent) : go W (option (option err)) :=
  try_catch (clean_run fuel evs) (λ p, Some (Some (panic_error p))).
End Cleaner.

Section CleanerSpec.
Context `{Postgres} {W : Type} `{Deployment W} (rt : Runtime W) (c : Cleaner W).
Context `{!LawfulExecutor eq (exec (c_store c))} `{!LawfulRuntime eq rt}.

(** A relay over the same store, whose lemmas about statements apply. *)
Definition cleanup_stmt : Stmt :=
  mkStmt (table (c_store c))
    (CCleanup (Retention (c_set c)) (DeadRetention (c_set c)) (DiscardRetention (c_set c)) (BatchSize (c_set c))).

(** The cleaner never deletes and never calls anything unless an interval
    and at least one retention window are set. *)
Theorem cleaner_disabled fuel evs w :
  CleanupInterval (c_set c) ≤ 0 ∨
  (Retention (c_set c) ≤ 0 ∧ DeadRetention (c_set c) ≤ 0 ∧ DiscardRetention (c_set c) ≤ 0) →
  Run rt c fuel evs w = (Ok (Some None), w).
Proof.
  intros Hoff. unfold Run, clean_run, try_catch.
  assert (cleaner_enabled (c_set c) = false) as ->; [|done].
  unfold cleaner_enabled. rewrite negb_false_iff, orb_true_iff, !andb_true_iff, !Z.leb_le. lia.
Qed.

Lemma cleanup_inv w n w' :
  cleanup (c_store c) (c_set c) w = (Ok (n, None), w') →
  ∃ e d, stmt_ready e (sys_of w) ∧
    exec_cleanup e (Retention (c_set c)) (DeadRetention (c_set c)) (DiscardRetention (c_set c))
      (BatchSize (c_set c)) (db_of w) = SqlOk d ∧ db_of w' = d_db d ∧ n = d_affected d.
Proof.
  intros E. unfold cleanup in E. run_inv E; [|done]. destruct x as [k [e|]]; [done|].
  injection E as -> <-.
  match goal with X : Exec _ _ _ = _ |- _ => apply exec_law in X as [_ (d & Hc & ->)] end.
  apply call_some in Hc as (e & Hrd & Hex & Hdb). exists e, d. split_and!; try done.
  revert Hex. unfold exec_stmt. by destruct (String.eqb _ _).
Qed.

(** A cleanup pass ends: every batch that does not end it deleted a full
    batch of rows, so it needs at most one batch more than the table has rows. *)
Theorem clean_pass_terminates fuel w x w' :
  1 ≤ BatchSize (c_set c) → (size (rows (db_of w)) < fuel)%nat →
  clean_pass rt c fuel w = (x, w') → x ≠ Ok None.
Proof.
  intros Hb. revert w. induction fuel as [|fuel IH]; intros w Hfuel E; [lia|]. simpl in E.
  run_inv E; [|congruence].
  pose proof (same_table_db _ _ (ctx_preserves eq rt same_table (same_table_tolerates _) _ _ _ H1)) as Hctx.
  destruct x0 as []; [by injection E as <- _|].
  run_inv E; [|congruence]. destruct x0 as [n [e|]].
  { run_inv E; [|congruence]. match goal with X : isFatal _ _ _ _ = (Ok ?b, _) |- _ => destruct b; [by injection E as <- _|] end.
    run_inv E; [|congruence]. by injection E as <- _. }
  apply cleanup_inv in H2 as (e & d & _ & Hex & Hdb & ->).
  destruct (cleanup_facts e (Retention (c_set c)) (DeadRetention (c_set c)) (DiscardRetention (c_set c))
    (BatchSize (c_set c)) (db_of x1)) as (d' & Hex' & _ & Hsize & _); [lia|].
  rewrite Hex in Hex'. injection Hex' as <-.
  run_inv E; [|congruence].
  destruct (Z.ltb_spec (d_affected d) (BatchSize (c_set c))); [by injection E as <- _|].
  eapply IH; [|exact E].
  match goal with |- (size (rows (db_of ?v)) < _)%nat => assert (db_of v = db_of x2) as -> end.
  { apply same_table_db.
    assert (∀ ev, preserves same_table (call_hook rt (c_set c) ev)) as Hh
      by (intros ev; exact (hook_preserves eq rt same_table (same_table_tolerates _) _ ev)).
    destruct (0 <? d_affected d); [by eapply Hh|]. by injection H2 as _ ->. }
  rewrite Hdb, <-Hctx in *. lia.
Qed.

(** ** What a pass achieves *)
Section Pass.
Context (p : Publisher W) (tick : Z).
Let r : Relay W := NewRelay (c_store c) p (c_set c).
Context `{!Responsive tick (exec (c_store c))} `{!Calm rt r} (Hset : runnable (c_set c)).

Definition due_for_removal (t : time) (row : Row) : Prop :=
  removable t (Retention (c_set c)) (DeadRetention (c_set c)) (DiscardRetention (c_set c)) row = true.

Lemma due_mono t t' row : t ≤ t' → due_for_removal t row → due_for_removal t' row.
Proof.
  unfold due_for_removal, removable, expired. intros Ht.
  destruct (status row); try done; rewrite !andb_true_iff; (intros [? Hl]; split; [done|]);
    destruct (published_at row), (finished_at row); simpl in *; try done; lia.
Qed.

Lemma cleanup_total w :
  good r w → ∃ e d w', cleanup (c_store c) (c_set c) w = (Ok (d_affected d, None), w') ∧
    s_clock (sys_of w) ≤ e_now e ∧ e_locked e = ∅ ∧
    exec_cleanup e (Retention (c_set c)) (DeadRetention (c_set c)) (DiscardRetention (c_set c))
      (BatchSize (c_set c)) (db_of w) = SqlOk d ∧ db_of w' = d_db d ∧ good r w' ∧
    s_clock (sys_of w) ≤ s_clock (sys_of w').
Proof.
  intros Hg. pose proof (run_batch _ Hset).
  destruct (answers (ex := exec (c_store c)) cleanup_stmt w) as (e & Hrd & Hnow & _ & Hlk & Hans).
  destruct (cleanup_facts e (Retention (c_set c)) (DeadRetention (c_set c)) (DiscardRetention (c_set c))
    (BatchSize (c_set c)) (db_of w)) as (d & Hex & _); [lia|].
  assert (exec_stmt e cleanup_stmt (db_of w) = SqlOk d) as Hst.
  { unfold exec_stmt. simpl. destruct Hg as [_ Ht]. by rewrite Ht, String.eqb_refl. }
  destruct (Hans d Hst) as [_ (w' & E & Hs)]. exists e, d, w'.
  assert (evolves w w') as Hev.
  { apply (advance_evolves e cleanup_stmt); [done..|constructor]. }
  split_and!; try done.
  - unfold cleanup. fold cleanup_stmt. by rewrite (M_bind_ok _ _ _ _ _ E).
  - unfold db_of. rewrite Hs. simpl. unfold after_stmt. fold (db_of w). by rewrite Hst.
  - by eapply evolves_good.
  - by apply evolves_clock.
Qed.

(** C29. A cleanup pass is complete: with a responsive database it ends without
    an error, every terminal row whose retention had run out when it started is
    gone, and every row that was not removable at any later moment is still there. *)
Theorem clean_pass_complete fuel w :
  good r w → (size (rows (db_of w)) < fuel)%nat →
  ∃ w', clean_pass rt c fuel w = (Ok (Some None), w') ∧
    (∀ id row, rows (db_of w) !! id = Some row → due_for_removal (s_clock (sys_of w)) row →
       rows (db_of w') !! id = None) ∧
    (∀ id row, rows (db_of w) !! id = Some row → (∀ t, ¬ due_for_removal t row) →
       rows (db_of w') !! id = Some row) ∧
    (∀ id, rows (db_of w) !! id = None → rows (db_of w') !! id = None).
Proof.
  pose proof (run_batch _ Hset). revert w.
  induction fuel as [|fuel IH]; intros w Hg Hfuel; [lia|]. simpl.
  destruct (calm_ctx rt r w) as (w1 & E1). pose proof (same_server _ _ (proj1 (ctx_law _ _ _ E1))) as Hs1.
  rewrite (M_bind_ok _ _ _ _ _ E1).
  destruct (cleanup_total w1) as (e & d & w2 & E2 & Hnow & Hlk & Hex & Hdb & Hg2 & Hclk);
    [by eapply same_table_good|].
  destruct (cleanup_facts e (Retention (c_set c)) (DeadRetention (c_set c)) (DiscardRetention (c_set c))
    (BatchSize (c_set c)) (db_of w1)) as (d' & Hex' & Hle & Hsize & Hrows & Hnone & Hleft); [lia|].
  rewrite Hex in Hex'. injection Hex' as <-. rewrite (M_bind_ok _ _ _ _ _ E2).
  assert (∃ w3, (if 0 <? d_affected d then call_hook rt (c_set c) (OnCleanup (d_affected d)) else mret tt) w2
                = (Ok tt, w3) ∧ same_table w2 w3) as (w3 & E3 & S3).
  { destruct (0 <? d_affected d); [|by exists w2]. by apply (hook_total rt r). }
  rewrite (M_bind_ok _ _ _ _ _ E3). pose proof (same_table_db _ _ S3) as Hdb3.
  pose proof (same_table_db _ _ Hs1) as Hdb1. rewrite Hdb1 in *. unfold same_table in Hs1. rewrite Hs1 in *.
  assert (∀ id row, rows (db_of w) !! id = Some row → (∀ t, ¬ due_for_removal t row) →
            rows (db_of w3) !! id = Some row) as Hkeep.
  { intros id row Hr Hno. rewrite Hdb3, Hdb. destruct (Hrows id row Hr) as [?|(_ & _ & Hrm)]; [done|].
    by destruct (Hno (e_now e)). }
  destruct (Z.ltb_spec (d_affected d) (BatchSize (c_set c))) as [Hshort|Hfull].
  - exists w3. split_and!; [done| |done|].
    + intros id row Hr Hdue. rewrite Hdb3, Hdb.
      destruct (Hrows id row Hr) as [Hstay|(? & _)]; [|done]. exfalso.
      enough (d_affected d = BatchSize (c_set c)) by lia. eapply Hleft; [exact Hstay| |].
      * by eapply due_mono.
      * rewrite Hlk. apply not_elem_of_empty.
    + intros id Hn. rewrite Hdb3, Hdb. auto.
  - destruct (IH w3) as (w4 & E4 & Hgone & Hkept & Habsent).
    { by eapply same_table_good. }
    { rewrite Hdb3, Hdb. lia. }
    exists w4. split_and!; [done| |auto|].
    + intros id row Hr Hdue. rewrite Hdb3, Hdb in Hgone, Habsent.
      destruct (Hrows id row Hr) as [Hstay|(Hn & _)]; [|auto].
      eapply Hgone; [exact Hstay|]. eapply due_mono; [|done]. rewrite S3. lia.
    + intros id Hn. apply Habsent. rewrite Hdb3, Hdb. auto.
Qed.
End Pass.
End CleanerSpec.
