(* ===== verification/Lifecycle.v ===== *)
(** * Running and stopping: [Relay.Run], [Relay.listen], [Outbox.Run]

    How the goroutines of a relay end, which of their errors is returned, how
    notifications wake the workers, and how the relay's and the cleaner's ends
    are combined.  The scheduler's choices are the order of the events. *)

From S2P Require Import Prelude Outcome Message Backoff Config Postgres Store System Safety Relay World RelaySpec RelaySafety Cleaner.

Open Scope string_scope.
Open Scope Z_scope.

(** ** The goroutines of [Relay.Run] *)

(** The number of goroutines: a listener when there is a pool to listen on, and
    the workers; and whether the missing pool is warned about. *)
Definition goroutines (s : Settings) (pool : option Pool) : nat * bool :=
  let listener := s.(Notify) && bool_decide (is_Some pool) in
  ((if listener then 1%nat else 0%nat) + Z.to_nat s.(Concurrency),
   s.(Notify) && negb (bool_decide (is_Some pool)))%nat.

Record RunState : Type := mkRunState {
  cancelled : bool;          (* the relay's own context *)
  failure : option err;      (* written once, by [once.Do] *)
  live : nat                 (* goroutines [wg] still waits for *)
}.

(** The closure [fail]. *)
Definition fail (e : option err) (s : RunState) : RunState :=
  match e with
  | Some e =>
      match s.(failure) with
      | None => mkRunState true (Some e) s.(live)
      | Some _ => s
      end
  | None => s
  end.

(** [recovered] on the way a goroutine's function ends. *)
Definition recover_end (r : res panic (option err)) : option err :=
  match r with Ok e => e | Panicked p => Some (panic_error p) end.

Inductive RunEvent : Type :=
| ParentDone                           (* the caller's context is cancelled *)
| Ended (r : res panic (option err)).  (* the function of a goroutine ended *)

Definition run_step (s : RunState) (ev : RunEvent) : RunState :=
  match ev with
  | ParentDone => mkRunState true s.(failure) s.(live)
  | Ended r =>
      let s' := fail (recover_end r) s in
      mkRunState s'.(cancelled) s'.(failure) (pred s'.(live))
  end.

Definition run_init (s : Settings) (pool : option Pool) : RunState :=
  mkRunState false None (fst (goroutines s pool)).

(** [wg.Wait] lets [Run] return [failure] once no goroutine is left. *)
Definition run_result (s : RunState) : option (option err) :=
  if (s.(live) =? 0)%nat then Some s.(failure) else None.

Definition ends (evs : list RunEvent) : list (option err) :=
  omap (λ ev, match ev with Ended r => Some (recover_end r) | ParentDone => None end) evs.

(** The first error of a list. *)
Definition first_error (es : list (option err)) : option err := find_map id es.

Lemma run_fold evs s :
  let s' := fold_left run_step evs s in
  failure s' = or_else (failure s) (first_error (ends evs)) ∧
  live s' = (live s - length (ends evs))%nat ∧
  (cancelled s' = true ↔ cancelled s = true ∨ ParentDone ∈ evs ∨
     (failure s = None ∧ is_Some (first_error (ends evs)))).
Proof.
  revert s. induction evs as [|ev evs IH]; intros s; simpl.
  - split_and!; [by destruct (failure s)|lia|].
    split; [by left|]. intros [?|[?%not_elem_of_nil|[_ [? ?]]]]; done.
  - destruct (IH (run_step s ev)) as (Hf & Hl & Hc). rewrite Hf, Hl, Hc. clear.
    destruct ev as [|r]; simpl.
    + split_and!; [done..|]. split; [|by left]. intros _. right; left. by left.
    + assert (∀ P : Prop, ParentDone ∈ Ended r :: evs ↔ ParentDone ∈ evs) as Hin.
      { intros _. rewrite elem_of_cons. naive_solver. }
      rewrite (Hin True). unfold fail. destruct (recover_end r) as [e|], (failure s) as [f|] eqn:Ef; simpl;
        rewrite ?Ef; split_and!; try done; try lia; naive_solver.
Qed.

(** [Relay.Run] returns once all its goroutines ended, with the first error
    any of them ended with, recovered panics included, or nil when none did; and
    the first error cancels the context of all others. *)
Theorem run_returns_first_error s pool evs e :
  run_result (fold_left run_step evs (run_init s pool)) = Some e →
  e = first_error (ends evs) ∧
  (fst (goroutines s pool) ≤ length (ends evs))%nat ∧
  (cancelled (fold_left run_step evs (run_init s pool)) = true ↔ ParentDone ∈ evs ∨ is_Some e).
Proof.
  destruct (run_fold evs (run_init s pool)) as (Hf & Hl & Hc). unfold run_result.
  destruct (Nat.eqb_spec (live (fold_left run_step evs (run_init s pool))) 0) as [Hz|]; [|done].
  intros [= <-]. rewrite Hf in *. simpl in *. split_and!; [done|lia|]. rewrite Hc. naive_solver.
Qed.

(** ** [Outbox.Run] *)

(** The receive loop over the two results, in the order they arrive. *)
Fixpoint collect (errs : list (option err)) (failure : option err) (cancel : bool) : option err * bool :=
  match errs with
  | [] => (failure, cancel)
  | e :: errs' =>
      match e, failure with
      | Some e', None => collect errs' (Some e') true
      | _, _ => collect errs' failure cancel
      end
  end.

(** [ctx_err] is [ctx.Err()] of the caller's context at the end. *)
Definition Run (first second : option err) (ctx_err : option err) : option err :=
  match fst (collect [first; second] None false) with
  | Some e => Some e
  | None => ctx_err
  end.

(** [Outbox.Run] returns the error that arrived first, and the context's
    error only when both loops ended without one; the first error stops the
    other loop. *)
Theorem outbox_run_spec first second ctx_err :
  Run first second ctx_err = or_else first (or_else second ctx_err) ∧
  (snd (collect [first; second] None false) = true ↔ is_Some first ∨ is_Some second).
Proof. unfold Run. destruct first, second; simpl; naive_solver. Qed.

(** ** Wake-ups *)

(** The channel [wake], of capacity one, by what its buffer holds. *)
Definition wake_send (buffer : nat) : nat := if (buffer <? 1)%nat then S buffer else buffer.
Definition wake_receive (buffer : nat) : option nat :=
  match buffer with O => None | S b => Some b end.

(** ** LISTEN *)

(** The pool and its connection, over the world [X] outside the channel. *)
Record Conn (X : Type) : Type := mkConn {
  Acquire : go X (option err);
  ConnExec : string → go X (option err);
  WaitForNotification : go X (option err);
  Release : go X unit;
  pause : go X unit                (* the select on [ctx.Done] and [time.After] *)
}.
Arguments Acquire {X}.
Arguments ConnExec {X}.
Arguments WaitForNotification {X}.
Arguments Release {X}.
Arguments pause {X}.

Section Listen.
Context {X : Type} (cn : Conn X) (rt : Runtime X) (s : Settings).

(** The listener's world: the buffer of [wake] beside [X]. *)
Definition outside {A} (m : go X A) : go (nat * X) A := λ w,
  let '(r, x) := m w.2 in (r, (w.1, x)).

Definition signal : go (nat * X) unit := λ w, (Ok tt, (wake_send w.1, w.2)).

(** Go's [defer f()]. *)
Definition defer {W A} (f : go W unit) (m : go W A) : go W A := λ w,
  let '(r, w1) := m w in
  match f w1 with
  | (Ok _, w2) => (r, w2)
  | (Panicked p, w2) => (Panicked p, w2)
  end.

(** The receive loop; [None] when the fuel is used up by notifications. *)
Fixpoint wait_loop (fuel : nat) : go (nat * X) (option (option err)) :=
  match fuel with
  | O => mret None
  | S fuel' =>
      e ← outside cn.(WaitForNotification);
      match e with
      | Some _ => mret (Some e)
      | None => _ ← signal; wait_loop fuel'
      end
  end.

Definition listenOnce (fuel : nat) : go (nat * X) (option (option err)) :=
  e ← outside cn.(Acquire);
  match e with
  | Some _ => mret (Some e)
  | None =>
      defer (outside cn.(Release))
        (e ← outside (cn.(ConnExec) ("LISTEN " +:+ NotifyChannel));
         match e with
         | Some _ => mret (Some e)
         | None => wait_loop fuel
         end)
  end.

(** Reconnects until the context is done; [rounds] bounds the connections and
    [fuel] the notifications of each. *)
Fixpoint listen (rounds fuel : nat) : go (nat * X) (option unit) :=
  match rounds with
  | O => mret None
  | S rounds' =>
      done ← outside rt.(ctx_Err);
      if done : bool then mret (Some tt)
      else
        res ← listenOnce fuel;
        match res with
        | None => mret None
        | Some e =>
            _ ← (match e with
                 | Some e =>
                     done ← outside rt.(ctx_Err);
                     if done : bool then mret tt
                     else _ ← outside (call_logger rt s (LogWarn "outbox: listen connection lost, retrying"));
                          outside cn.(pause)
                 | None => mret tt
                 end);
            listen rounds' fuel
        end
  end.

(** *** The connection is given back *)

(** [held] counts the connections taken from the pool. *)
Context (held : X → Z).
Definition moves {A} (m : go X A) (by_ok by_other : Z) (ok : A → bool) : Prop := ∀ x r x',
  m x = (r, x') →
  held x' = held x + match r with Ok a => if ok a then by_ok else by_other | Panicked _ => by_other end.

Definition no_error (e : option err) : bool := match e with None => true | Some _ => false end.

Context (Hacq : moves (Acquire cn) 1 0 no_error) (Hrel : moves (Release cn) (-1) (-1) (λ _, true)).
Context (Hexec : ∀ q, moves (ConnExec cn q) 0 0 no_error).
Context (Hwait : moves (WaitForNotification cn) 0 0 no_error).

Lemma outside_inv {A} (m : go X A) w r w' :
  outside m w = (r, w') → m w.2 = (r, w'.2) ∧ w'.1 = w.1.
Proof. unfold outside. destruct (m w.2) as [r0 x]. by intros [= <- <-]. Qed.

Lemma moves_zero {A} (m : go X A) ok w r w' :
  moves m 0 0 ok → outside m w = (r, w') → held w'.2 = held w.2.
Proof. intros Hm [E%Hm _]%outside_inv. rewrite E. destruct r as [a|]; [destruct (ok a)|]; lia. Qed.

Lemma wait_loop_held fuel w r w' : wait_loop fuel w = (r, w') → held w'.2 = held w.2.
Proof.
  revert w. induction fuel as [|fuel IH]; intros w E; simpl in E; [by injection E as _ <-|].
  run_inv E; [|by eapply moves_zero].
  apply (moves_zero _ _ _ _ _ Hwait) in H. destruct x as [e|].
  - by injection E as _ <-.
  - run_inv E; [|done]. injection H0 as _ <-. apply IH in E. simpl in E. congruence.
Qed.

(** The listener gives its connection back on every path: LISTEN failing, a
    lost connection, a panic; and it returns only with an error, never with nil. *)
Theorem listenOnce_releases fuel w r w' :
  listenOnce fuel w = (r, w') → held w'.2 = held w.2 ∧ r ≠ Ok (Some None).
Proof.
  intros E. unfold listenOnce in E. run_inv E.
  - apply outside_inv in H as [H _]. apply Hacq in H. destruct x as [e|]; simpl in H.
    + injection E as <- <-. split; [lia|done].
    + unfold defer in E.
      match type of E with (let '(_, _) := ?m in _) = _ => destruct m as [r1 w1] eqn:Eb end.
      assert (held w1.2 = held x0.2 ∧ r1 ≠ Ok (Some None)) as [Hb Hr1].
      { run_inv Eb; [|split; [exact (moves_zero _ _ _ _ _ (Hexec _) ltac:(eassumption))|by subst]].
        apply (moves_zero _ _ _ _ _ (Hexec _)) in H0. destruct x as [e|].
        - injection Eb as <- <-. by split.
        - split; [rewrite <-H0; by eapply wait_loop_held|]. clear -Eb.
          revert x1 Eb. induction fuel as [|fuel IH]; intros w E; simpl in E; [by injection E as <- _|].
          run_inv E; [|by subst]. destruct x as [e|]; [by injection E as <- _|].
          run_inv E; [by eapply IH|by subst]. }
      destruct (outside (Release cn) w1) as [r2 w2] eqn:Er. pose proof Er as Er'.
      apply outside_inv in Er' as [Hr _]. apply Hrel in Hr.
      destruct r2 as [u|p]; injection E as <- <-; (split; [lia|done]).
  - subst. apply outside_inv in H as [H _]. apply Hacq in H. split; [lia|done].
Qed.
End Listen.

(** ** What [Outbox.Run] returns *)
Section RunContract.
Context `{Postgres} {W : Type} `{Deployment W} (others : relation (server W)).
Context (rt : Runtime W) (r : Relay W) (c : Cleaner W).
Context `{!LawfulExecutor others (exec (store r))}.
Context `{!LawfulPublisher others (pub r)} `{!LawfulRuntime others rt}.
Context {X : Type} (cn : Conn X) (rtX : Runtime X).

(** How the function of a relay goroutine may end. *)
Inductive goroutine_end : res panic (option err) → Prop :=
| end_worker fuel evs w e w' :
    worker rt r fuel evs w = (Ok (Some e), w') → goroutine_end (Ok e)
| end_worker_panic fuel evs w p w' :
    worker rt r fuel evs w = (Panicked p, w') → goroutine_end (Panicked p)
| end_listener rounds fuel w w' :
    listen cn rtX (set r) rounds fuel w = (Ok (Some tt), w') → goroutine_end (Ok None)
| end_listener_panic rounds fuel w p w' :
    listen cn rtX (set r) rounds fuel w = (Panicked p, w') → goroutine_end (Panicked p).

Lemma panic_accepted p : accepted r (panic_error p).
Proof.
  left. unfold always_fatal. apply orb_true_iff. right. apply bool_decide_eq_true_2.
  destruct p as [[] ?]; by eexists.
Qed.

Lemma goroutine_error x e : goroutine_end x → recover_end x = Some e → accepted r e.
Proof.
  destruct 1; simpl; intros He; simplify_eq; try apply panic_accepted. by eapply worker_error.
Qed.

Lemma clean_pass_error fuel w e w' :
  c_set c = set r → clean_pass rt c fuel w = (Ok (Some (Some e)), w') → accepted r e.
Proof.
  intros Hset. revert w. induction fuel as [|fuel IH]; intros w E; simpl in E; [done|].
  run_inv E; [|done]. destruct x as []; [done|]. run_inv E; [|done]. destruct x as [n [e1|]].
  - run_inv E; [|done]. destruct x as [].
    + injection E as <- _. match goal with X : isFatal _ _ _ _ = _ |- _ =>
        rewrite Hset in X; by eapply isFatal_true end.
    + run_inv E; done.
  - run_inv E; [|done]. destruct (n <? BatchSize (c_set c)); [done|]. by eapply IH.
Qed.

Lemma cleaner_error fuel evs w e w' :
  c_set c = set r → Cleaner.Run rt c fuel evs w = (Ok (Some (Some e)), w') → accepted r e.
Proof.
  intros Hset. unfold Cleaner.Run, try_catch.
  destruct (clean_run rt c fuel evs w) as [[x|p] w1] eqn:Ec; intros [= E _]; [subst x|subst; apply panic_accepted].
  unfold clean_run in Ec. destruct (cleaner_enabled _); [|done].
  revert w Ec. induction evs as [|[] evs IH]; intros w E; simpl in E; try done.
  run_inv E; [|done]. destruct x as [[e1|]|]; try done; [|by eapply IH].
  injection E as -> _. by eapply clean_pass_error.
Qed.

Lemma first_error_accepted evs e :
  Forall (λ ev, match ev with Ended x => goroutine_end x | ParentDone => True end) evs →
  first_error (ends evs) = Some e → accepted r e.
Proof.
  intros Hall Hf. assert (is_Some (first_error (ends evs))) as Hs by by eexists.
  unfold first_error, ends in *. induction Hall as [|[|x] evs Hx _ IH]; simpl in *; [done|auto|].
  destruct (recover_end x) as [e1|] eqn:Hr; simpl in *; [|auto]. simplify_eq. by eapply goroutine_error.
Qed.

(** C30. [Outbox.Run] returns the context's error exactly when both the relay
    and the cleaner ended without one, and otherwise the first of their errors,
    which is always a reason to stop: an abort, a recovered panic, or an error
    the caller's classifier accepts.  Lost leases, database errors and plain
    publish errors are never returned, whatever the goroutines went through. *)
Theorem outbox_run_contract pool evs eR fuel cevs w eC w' ctx_err e :
  c_set c = set r →
  Forall (λ ev, match ev with Ended x => goroutine_end x | ParentDone => True end) evs →
  run_result (fold_left run_step evs (run_init (set r) pool)) = Some eR →
  Cleaner.Run rt c fuel cevs w = (Ok (Some eC), w') →
  e = Run eR eC ctx_err ∨ e = Run eC eR ctx_err →
  (eR = None ∧ eC = None ∧ e = ctx_err) ∨
  (∃ x, e = Some x ∧ (eR = Some x ∨ eC = Some x) ∧ accepted r x).
Proof.
  intros Hset Hall HR HC He.
  assert (∀ x, eR = Some x → accepted r x) as HaR.
  { intros x ->. unfold run_result in HR. destruct (run_fold evs (run_init (set r) pool)) as (Hf & _).
    destruct (_ =? 0)%nat; [|done]. injection HR as Hx. rewrite Hf in Hx. by eapply first_error_accepted. }
  assert (∀ x, eC = Some x → accepted r x) as HaC by (intros x ->; by eapply cleaner_error).
  destruct eR as [x|], eC as [y|]; unfold Run in He; simpl in He; destruct He as [-> | ->]; simpl; eauto 10.
Qed.
End RunContract.
