(* ===== verification/Facade.v ===== *)
(** * The facade: [outbox.go]

    [New] with its checks and the detection of a listen pool, and the methods an
    application calls: validation, enqueueing, requeueing. *)

From S2P Require Import Prelude Outcome Message Backoff Config Postgres Store System Safety StoreSpec Relay World RelaySpec RelaySafety RelayCorrect RelayLive Cleaner Lifecycle.

Open Scope string_scope.
Open Scope Z_scope.

Definition ErrNoCodec : err := ENew 6 "outbox: no codec configured (use WithCodec)".
Definition ErrNoExecutor : err := ENew 7 "outbox: a relay executor is required".

(** A non-nil value of interface type [port.Executor]: its methods, and the pool
    it is when its dynamic type is [*pgxpool.Pool]. *)
Record ExecutorValue (W : Type) : Type := mkExecutorValue {
  methods : Executor W;
  as_pool : option Pool
}.
Arguments methods {W}.
Arguments as_pool {W}.
Arguments mkExecutorValue {W}.

(** Calling a method of a nil interface. *)
Definition nil_executor {W} : Executor W :=
  mkExecutor W (λ _, raise nil_dereference) (λ _, raise nil_dereference).

Record Outbox (W : Type) : Type := mkOutbox {
  o_store : Store W;
  o_relay : Relay W;
  o_clean : Cleaner W;
  o_set : Settings
}.
Arguments o_store {W}.
Arguments o_relay {W}.
Arguments o_clean {W}.
Arguments o_set {W}.
Arguments mkOutbox {W}.

(** [New]; [random] and [hostname] are what [config.Resolve] may draw. *)
Definition New {W} (random : bytes) (hostname : option string)
    (exec enq : option (ExecutorValue W)) (pub : Publisher W) (opts : list Option) : Outbox W + err :=
  let set := Resolve random hostname opts in
  if negb (ValidSchema set.(Schema)) then inr ErrInvalidSchema
  else
    match exec with
    | None => inr ErrNoExecutor
    | Some ex =>
        let listenPool := or_else set.(ListenPool) ex.(as_pool) in
        let st := NewStore ex.(methods)
                    (match enq with Some en => en.(methods) | None => nil_executor end)
                    listenPool set.(Schema) in
        inl (mkOutbox st (NewRelay st pub set) (NewCleaner st set) set)
    end.

(** The validation loop of [EnqueueBatch]. *)
Fixpoint validate_all (ms : list Message) : option err :=
  match ms with
  | [] => None
  | m :: ms' => match Validate m with Some e => Some e | None => validate_all ms' end
  end.

Section Methods.
Context {W : Type} (o : Outbox W).

Definition Enqueue (m : Message) : go W (option err) :=
  match Validate m with
  | Some e => mret (Some e)
  | None => Store.Enqueue o.(o_store) [m]
  end.

Definition EnqueueBatch (ms : list Message) : go W (option err) :=
  match validate_all ms with
  | Some e => mret (Some e)
  | None => Store.Enqueue o.(o_store) ms
  end.

Definition EnqueueValue (topic partitionKey msgType : string) (v : any) : go W (option err) :=
  match o.(o_set).(sCodec) with
  | None => mret (Some ErrNoCodec)
  | Some codec =>
      match codec.(Marshal) v with
      | (_, _, Some e) => mret (Some e)
      | (payload, ct, None) =>
          Enqueue (new_message EmptyString topic partitionKey payload None ct msgType None)
      end
  end.

Definition Requeue (id : string) : go W (bool * option err) := Store.Requeue o.(o_store) id.
End Methods.

(** ** Construction *)

(** C35. [New] checks the schema before the executor and fails for nothing else;
    an outbox it returns addresses the table in the schema exactly as
    configured, between quotes no identifier can close, listens on the explicit
    pool or else on a pool passed as executor, and hands runnable settings to
    the relay and the cleaner, which share its store. *)
Theorem New_spec {W} random hostname (exec enq : option (ExecutorValue W)) pub opts :
  let set := Resolve random hostname opts in
  match New random hostname exec enq pub opts with
  | inr e => (e = ErrInvalidSchema ∧ ValidSchema (Schema set) = false) ∨
             (e = ErrNoExecutor ∧ ValidSchema (Schema set) = true ∧ exec = None)
  | inl o =>
      ValidSchema (Schema set) = true ∧ is_Some exec ∧ o_set o = set ∧ runnable (Relay.set (o_relay o)) ∧
      Table (o_store o) = String quote_char (Schema set +:+ String quote_char ("." +:+ TableName)) ∧
      pool (o_store o) = or_else (ListenPool set) (exec ≫= as_pool) ∧
      store (o_relay o) = o_store o ∧ c_store (o_clean o) = o_store o ∧ c_set (o_clean o) = set
  end.
Proof.
  intros set. unfold New. fold set.
  pose proof (Resolve_is_runnable random hostname opts) as Hrun. fold set in Hrun. clearbody set.
  destruct (ValidSchema (Schema set)) eqn:Hv; simpl; [|by left].
  destruct exec as [ex|]; [|by right]. simpl. split_and!; try done.
  - unfold Table, NewStore, Quote. simpl. rewrite quote_body_plain by by apply ValidSchema_plain.
    change (String quote_char ((Schema set +:+ String quote_char EmptyString) +:+ ("." +:+ TableName)) =
            String quote_char (Schema set +:+ String quote_char ("." +:+ TableName))).
    by rewrite string_append_assoc.
Qed.

(** ** Enqueueing *)

Section Enqueueing.
Context `{Postgres} {W : Type} `{Deployment W} (others : relation (server W)) (o : Outbox W).
Context `{!LawfulExecutor others (enq (o_store o))}.

Lemma validate_all_first ms :
  match validate_all ms with
  | Some e => ∃ pre m post, ms = (pre ++ m :: post)%list ∧ Validate m = Some e ∧
                Forall (λ m, Validate m = None) pre
  | None => Forall (λ m, Validate m = None) ms
  end.
Proof.
  induction ms as [|m ms IH]; simpl; [done|]. destruct (Validate m) as [e|] eqn:Hm.
  - by exists [], m, ms.
  - destruct (validate_all ms) as [e|]; [|by constructor].
    destruct IH as (pre & m' & post & -> & ? & ?). exists (m :: pre), m', post.
    split_and!; [done..|]. by constructor.
Qed.

(** A batch is all or nothing: with an invalid message in it nothing is
    sent, and the error is that of the first one; an empty batch sends nothing;
    otherwise exactly one INSERT carries every message, and a nil error means
    the server executed it. *)
Theorem EnqueueBatch_atomic ms w x w' :
  EnqueueBatch o ms w = (x, w') →
  (∃ pre m post e, ms = (pre ++ m :: post)%list ∧ Validate m = Some e ∧
     Forall (λ m, Validate m = None) pre ∧ x = Ok (Some e) ∧ w' = w) ∨
  (ms = [] ∧ x = Ok None ∧ w' = w) ∨
  (ms ≠ [] ∧ Forall (λ m, Validate m = None) ms ∧
   let st := mkStmt (table (o_store o))
               (CEnqueue (enqueue_text (table (o_store o)) ms) (flat_map enqueue_args ms)) in
   records w w' [Sent st] ∧ issued (st_cmd st) ∧
   (x = Ok None → ∃ d, call others st w w' (Some d))).
Proof.
  unfold EnqueueBatch. pose proof (validate_all_first ms) as Hv.
  destruct (validate_all ms) as [e|].
  { intros [= <- <-]. left. destruct Hv as (pre & m & post & ? & ? & ?). by exists pre, m, post, e. }
  unfold Store.Enqueue. destruct ms as [|m ms]; [intros [= <- <-]; auto|]. intros E. right; right.
  split_and!; [done..| | |].
  - run_inv E; [match goal with X : Exec _ _ _ = (Ok ?a, _) |- _ => destruct a end; injection E as _ <-|];
      match goal with X : Exec _ _ _ = _ |- _ => by apply exec_law in X as [? _] end.
  - constructor.
  - intros ->. run_inv E; [|done].
    match goal with X : Exec _ _ _ = (Ok ?a, _) |- _ => destruct a as [n e] end. injection E as -> <-.
    match goal with X : Exec _ _ _ = _ |- _ => apply exec_law in X as [_ (d & ? & _)] end. by exists d.
Qed.

(** [EnqueueValue] stores what the codec produced under a generated id: its
    failures are the missing codec, the codec's own error and the validation of
    the message; none of them sends anything. *)
Theorem EnqueueValue_spec topic key mtype v w x w' :
  EnqueueValue o topic key mtype v w = (x, w') →
  match sCodec (o_set o) with
  | None => x = Ok (Some ErrNoCodec) ∧ w' = w
  | Some codec =>
      let '(payload, ct, e) := Marshal codec v in
      let m := new_message EmptyString topic key payload None ct mtype None in
      match e, Validate m with
      | Some e, _ | None, Some e => x = Ok (Some e) ∧ w' = w
      | None, None => Store.Enqueue (o_store o) [m] w = (x, w')
      end
  end.
Proof.
  unfold EnqueueValue. destruct (sCodec (o_set o)) as [codec|]; [|by intros [= <- <-]].
  destruct (Marshal codec v) as [[payload ct] [e|]]; [by intros [= <- <-]|].
  unfold Enqueue. destruct (Validate _); [by intros [= <- <-]|done].
Qed.
End Enqueueing.
