(* ===== verification/TxCalls.v ===== *)
(** * Calls inside a caller's transaction

    [Enqueue] and [Requeue] send their statement through the executor the
    application bound to its transaction.  Here such an executor is a contract,
    and the theorems say what that makes of a call: whatever it answers, it changes
    nothing outside that transaction; and what it did there becomes visible with
    the transaction's commit, all of it, or never. *)

From stdpp Require Import relations.
From S2P Require Import Prelude Outcome Message Backoff Config Postgres Store System Safety StoreSpec Relay World Transactions TxSafety RelaySpec RelaySafety RelayCorrect RelayLive Cleaner Lifecycle Facade.

Open Scope string_scope.
Open Scope Z_scope.

Section TxCalls.
Context `{Postgres}.

(** ** Everybody else *)

(** The action belongs to the owner of transaction [x]. *)
Definition acts_on (x : nat) (a : Act) : Prop :=
  match a with InTx y _ _ | Commit y _ | Rollback y => y = x | Begin _ | Auto _ _ => False end.

Inductive other_step (x : nat) (T T' : TxSys) : Prop :=
| other_act a : act_ok T a → ¬ acts_on x a → tx_exec T a = Some T' → other_step x T T'.

Lemma other_tx_step x T T' : other_step x T T' → tx_step T T'.
Proof. intros [a ? _ ?]. by econstructor. Qed.

Lemma others_run x T T' : rtc (other_step x) T T' → rtc tx_step T T'.
Proof. apply rtc_subrel, other_tx_step. Qed.

(** The others leave an open transaction as it is. *)
Lemma other_keeps x tx T T' :
  rtc (other_step x) T T' → tx_ok T → t_open T !! x = Some tx → t_open T' !! x = Some tx.
Proof.
  induction 1 as [|T1 T2 T3 [a Ha Hno Hex] _ IH]; [done|]. intros Hok Hx.
  apply IH; [by eapply tx_exec_ok|]. destruct a as [c|y e st|y c|y|e st]; simpl in *.
  - injection Hex as <-. cbn [t_open]. destruct (ok_start _ Hok _ _ Hx). rewrite lookup_insert_ne by lia. done.
  - destruct (t_open T1 !! y) as [ty|]; [|done]. simpl in Hex. destruct (x_failed ty); [done|].
    destruct (exec_stmt _ _ _); [case_decide; [|done]|]; injection Hex as <-; cbn [t_open]; by rewrite lookup_insert_ne.
  - destruct (t_open T1 !! y) as [ty|]; [|done]. simpl in Hex.
    destruct (x_failed ty); injection Hex as <-; cbn [t_open]; by rewrite lookup_delete_ne.
  - injection Hex as <-. cbn [t_open]. by rewrite lookup_delete_ne.
  - case_decide; [|done]. by injection Hex as <-.
Qed.

(** ** A call in the transaction *)

(** While a call that sends [st] for transaction [x] is under way: the others go
    on, the statement runs in the transaction, or the connection is lost and the
    transaction with it. *)
Inductive call_step (x : nat) (st : Stmt) (T T' : TxSys) : Prop :=
| call_other : other_step x T T' → call_step x st T T'
| call_runs e : act_ok T (InTx x e st) → tx_exec T (InTx x e st) = Some T' → call_step x st T T'
| call_broken : tx_exec T (Rollback x) = Some T' → call_step x st T T'.

(** The answer is that of [st] on what the transaction sees. *)
Record answered_inside (x : nat) (st : Stmt) (e : StmtEnv) (T0 T T' T1 : TxSys) (tx : Tx) (d : Done) : Prop := {
  ai_before : rtc (other_step x) T0 T;
  ai_ok : act_ok T (InTx x e st);
  ai_runs : tx_exec T (InTx x e st) = Some T';
  ai_after : rtc (other_step x) T' T1;
  ai_open : t_open T !! x = Some tx;
  ai_answer : exec_stmt e st (view (committed T) tx) = SqlOk d
}.

(** Steps that show nothing of transaction [x]: those of the others, and those
    that leave the committed rows and the notifications as they are. *)
Definition hidden_step (x : nat) (T T' : TxSys) : Prop :=
  other_step x T T' ∨
  tx_step T T' ∧ rows (committed T') = rows (committed T) ∧ notified (committed T') = notified (committed T).

Lemma call_hidden x st T T' : call_step x st T T' → hidden_step x T T'.
Proof.
  intros [Ho|e Ha Hex|Hex]; [by left|right..].
  - split; [by econstructor|]. simpl in Hex. destruct (t_open T !! x) as [tx|]; [|done]. simpl in Hex.
    destruct (x_failed tx); [done|]. destruct (exec_stmt _ _ _); [case_decide; [|done]|]; by injection Hex as <-.
  - split; [by apply (tx_act _ _ (Rollback x))|]. by injection Hex as <-.
Qed.

Lemma calls_hidden x st T T' : rtc (call_step x st) T T' → rtc (hidden_step x) T T'.
Proof. apply rtc_subrel, call_hidden. Qed.

Lemma answered_calls x st e T0 T T' T1 tx d :
  answered_inside x st e T0 T T' T1 tx d → rtc (call_step x st) T0 T1.
Proof.
  intros [H0 Ha Hex H1 _ _]. assert (∀ Ta Tb, rtc (other_step x) Ta Tb → rtc (call_step x st) Ta Tb) as Hsub.
  { intros Ta Tb. apply rtc_subrel. by constructor. }
  etrans; [by apply Hsub|]. eapply rtc_l; [by eapply call_runs|by apply Hsub].
Qed.

(** The transaction has what it wrote before and what the statement wrote, and
    will end whole. *)
Lemma answered_writes x st e T0 T T' T1 tx0 tx d :
  answered_inside x st e T0 T T' T1 tx d → tx_ok T0 → t_open T0 !! x = Some tx0 →
  tx = tx0 ∧ e_now e = x_start tx0 ∧
  ∃ tx1, t_open T1 !! x = Some tx1 ∧ x_own tx1 = writes (view (committed T) tx0) (d_db d) ∪ x_own tx0 ∧
    x_own tx0 ⊆ x_own tx1 ∧ ends_whole x T1 tx1.
Proof.
  intros [H0 Ha Hex H1 Hx Hd] Hok Hx0.
  pose proof (tx_reachable_ok _ _ (others_run _ _ _ H0) Hok) as HokT.
  pose proof (tx_exec_ok _ _ _ Ha Hex HokT) as HokT'.
  rewrite (other_keeps x tx0 T0 T) in Hx by done. injection Hx as <-.
  assert (t_open T !! x = Some tx0) as Hx by by apply (other_keeps x tx0 T0 T).
  split; [done|]. split; [destruct Ha as (_ & _ & _ & _ & Hs); by apply Hs|].
  pose proof (tx_goes_on _ _ _ _ _ Ha Hex HokT Hx) as Hgrow.
  simpl in Hex. rewrite Hx in Hex. simpl in Hex. destruct (x_failed tx0); [done|]. rewrite Hd in Hex.
  case_decide; [|done]. injection Hex as <-.
  match type of H1 with rtc _ ?T' _ => assert (∃ tx1, t_open T' !! x = Some tx1 ∧
    x_own tx1 = writes (view (committed T) tx0) (d_db d) ∪ x_own tx0) as (tx1 & Hx1 & Hown) end.
  { eexists. split; [apply lookup_insert_eq|done]. }
  destruct Hgrow as [(tx' & Hx' & Hsub)|[Hno _]]; [|congruence]. rewrite Hx1 in Hx'. injection Hx' as <-.
  exists tx1. pose proof (other_keeps x tx1 _ _ H1 HokT' Hx1) as Hx2. split_and!; [done..|].
  apply transaction_whole; [|done]. by eapply tx_reachable_ok; [apply (others_run x)|].
Qed.

(** A statement that left every row alone wrote nothing. *)
Lemma unwritten db db' : (∀ id, rows db' !! id = rows db !! id) → writes db db' = ∅.
Proof.
  intros Hsame. apply map_eq. intros id. rewrite lookup_empty.
  destruct (writes db db' !! id) as [r|] eqn:E; [|done]. apply lookup_writes in E as [Hr Hne].
  rewrite Hsame in Hr. by destruct (Hne r).
Qed.

(** ** The executor of the caller *)

Section Bound.
Context {W : Type} (tx_of : W → TxSys).

(** An executor bound to transaction [x], as a [pgx.Tx] is: an answer without an
    error is the statement's, run in that transaction; in any other case it may
    have run there or not. *)
Class BoundTo (x : nat) (ex : Executor W) : Prop := {
  bound_law st w r w' :
    reached (tx_of w) → issued (st_cmd st) → caller_cmd (st_cmd st) = true → Exec ex st w = (r, w') →
    match r with
    | Ok (n, None) => ∃ e T T' tx d, answered_inside x st e (tx_of w) T T' (tx_of w') tx d ∧ n = d_affected d
    | _ => rtc (call_step x st) (tx_of w) (tx_of w')
    end
}.

Context (x : nat) (o : Outbox W) `{!BoundTo x (enq (o_store o))}.

Lemma bound_hidden st w r w' :
  reached (tx_of w) → issued (st_cmd st) → caller_cmd (st_cmd st) = true → Exec (enq (o_store o)) st w = (r, w') →
  rtc (hidden_step x) (tx_of w) (tx_of w').
Proof.
  intros Hr Hi Hc E. apply (calls_hidden x st). pose proof (bound_law _ _ _ _ Hr Hi Hc E) as Hl.
  destruct r as [[n [er|]]|p]; [done| |done]. destruct Hl as (e & T & T' & tx & d & Ha & _). by eapply answered_calls.
Qed.


(** C20. A replay is part of the caller's transaction in the same way: whatever
    [Requeue] answers on an executor bound to transaction [x], nothing it did is
    committed or notified yet; true means that the transaction saw a dead row under
    that id and now has it pending with a clean slate, to be shown when the
    transaction commits and dropped when it rolls back; false, that the
    transaction wrote nothing. *)
Theorem requeue_joins_transaction s w y w1 tx0 :
  reached (tx_of w) → t_open (tx_of w) !! x = Some tx0 → Requeue o s w = (y, w1) →
  rtc (hidden_step x) (tx_of w) (tx_of w1) ∧
  (∀ b, y = Ok (b, None) → ∃ e T tx1 id, rtc (other_step x) (tx_of w) T ∧ t_open (tx_of w1) !! x = Some tx1 ∧
     x_own tx0 ⊆ x_own tx1 ∧ ends_whole x (tx_of w1) tx1 ∧ uuid_in s = Some id ∧
     if b then ∃ r r', rows (view (committed T) tx0) !! id = Some r ∧ status r = StatusDead ∧
                 x_own tx1 !! id = Some r' ∧ requeued (e_clk e) r r'
     else x_own tx1 = x_own tx0 ∧ ∀ r, rows (view (committed T) tx0) !! id = Some r → status r ≠ StatusDead).
Proof.
  intros Hreach Hx. unfold Requeue, Store.Requeue. pose proof (reached_ok _ Hreach) as Hok.
  set (st := mkStmt _ _). intros E. assert (issued (st_cmd st)) as Hi by constructor.
  run_inv E; [|subst; split; [by eapply bound_hidden|done]]. destruct x0 as [n er].
  match goal with X : Exec _ _ _ = _ |- _ => rename X into Ex end.
  assert (x1 = w1) as -> by (destruct er; by injection E as _ <-).
  split; [by eapply bound_hidden|]. intros b ->. destruct er as [er|]; [done|]. injection E as Hb.
  destruct (bound_law _ _ _ _ Hreach Hi eq_refl Ex) as (e & T & T' & tx & d & Ha & ->).
  destruct (answered_writes _ _ _ _ _ _ _ _ _ _ Ha Hok Hx) as (-> & _ & tx1 & Hx1 & Hown & Hsub & Hend).
  assert (exec_requeue e s (view (committed T) tx0) = SqlOk d) as Hd.
  { pose proof (ai_answer _ _ _ _ _ _ _ _ _ Ha) as Hd. revert Hd. unfold exec_stmt. by destruct (String.eqb _ _). }
  assert (∃ id, uuid_in s = Some id) as [id Hid] by (unfold exec_requeue in Hd; destruct (uuid_in s); [eauto|done]).
  exists e, T, tx1, id. split_and!; [apply Ha|done..|].
  destruct (requeue_facts e s id (view (committed T) tx0) Hid) as (d' & Hd' & Hsame & Hrow).
  rewrite Hd in Hd'. injection Hd' as <-.
  destruct (rows (view (committed T) tx0) !! id) as [r|] eqn:Hr; [case_bool_decide as Hdead|].
  - destruct Hrow as (Haff & _ & r' & Hr' & Hq). rewrite Haff in Hb. subst b. exists r, r'. split_and!; [done..| |done].
    rewrite Hown. apply lookup_union_Some_l, lookup_writes. split; [done|]. intros r0 Hr0.
    rewrite Hr in Hr0. injection Hr0 as <-. rewrite Hdead, (proj1 (rq_pending _ _ _ Hq)). done.
  - destruct Hrow as (Haff & _ & Hr'). rewrite Haff in Hb. subst b. split; [|by intros ? [= <-]].
    rewrite Hown, (unwritten (view (committed T) tx0) (d_db d)); [apply (left_id_L ∅ (∪))|].
    intros j. destruct (decide (j = id)) as [->|Hne]; [congruence|by apply Hsame].
  - destruct Hrow as (Haff & _ & Hr'). rewrite Haff in Hb. subst b. split; [|done].
    rewrite Hown, (unwritten (view (committed T) tx0) (d_db d)); [apply (left_id_L ∅ (∪))|].
    intros j. destruct (decide (j = id)) as [->|Hne]; [congruence|by apply Hsame].
Qed.
End Bound.
End TxCalls.
