(* ===== verification/EndToEnd.v ===== *)
(** * From the application to the publisher

    The composition of the facade, the table and the relay: what an application
    enqueues is what the publisher is handed, and it is published. *)

From stdpp Require Import relations.
From S2P Require Import Prelude Outcome Message Backoff Config Postgres Store System Safety StoreSpec Relay World RelaySpec RelaySafety RelayCorrect RelayLive Cleaner Lifecycle Facade.

Open Scope string_scope.
Open Scope Z_scope.

Section EndToEnd.
Context `{Postgres}.

(** [m'] is [m] as the table gives it back: under the canonical form of its id,
    with an empty headers map where there was none. *)
Record same_message (m m' : Message) : Prop := {
  sm_ID : uuid_in (ID m) = Some (ID m');
  sm_Topic : Topic m' = Topic m;
  sm_PartitionKey : PartitionKey m' = PartitionKey m;
  sm_Payload : Payload m' = Payload m;
  sm_Headers : Headers m' = Some (default ∅ (Headers m));
  sm_ContentType : ContentType m' = ContentType m;
  sm_MessageType : MessageType m' = MessageType m;
  sm_MaxAttempts : MaxAttempts m' = MaxAttempts m
}.

(** The columns of an INSERT read back are the message they were made from. *)
Lemma enqueued_roundtrip now m k id m' :
  is_Some (Payload m) → uuid_in (ID m) = Some id → carries m' id (enqueued_row now m k) → same_message m m'.
Proof.
  intros [pl Hpl] Hid [Ei Et Ek Ep Eh Ec Em Ex _].
  change (json_Unmarshal (json_Marshal (default ∅ (Headers m))) = inl (Headers m')) in Eh.
  rewrite json_roundtrip in Eh. injection Eh as Eh. simpl in *. rewrite derefStr_null_text in *.
  split; try done; [congruence|by rewrite Ep, Hpl].
Qed.

(** A batch an application may enqueue: valid messages the table accepts, under
    distinct ids of their own that are not in the table. *)
Definition new_batch (db : Db) (ms : list Message) : Prop :=
  Forall (λ m, Validate m = None) ms ∧ Forall enqueuable ms ∧ fits_statement ms ∧
  Forall (λ m, ID m ≠ EmptyString) ms ∧ NoDup (map (λ m, uuid_in (ID m)) ms) ∧
  (∀ m id, m ∈ ms → uuid_in (ID m) = Some id → rows db !! id = None).

Lemma id_of_named e i m id : ID m ≠ EmptyString → id_of e i m id ↔ uuid_in (ID m) = Some id.
Proof. intros Hne. unfold id_of. by rewrite (proj2 (String.eqb_neq _ _) Hne). Qed.

Lemma validate_all_None ms : Forall (λ m, Validate m = None) ms → validate_all ms = None.
Proof. induction 1 as [|m ms Hm _ IH]; [done|]. simpl. by rewrite Hm. Qed.

(** What the INSERT of a new batch leaves: every message has its row, and every
    row was there before or is one of them. *)
Lemma enqueue_new_batch e ms db :
  new_batch db ms →
  ∃ d, exec_enqueue e (flat_map enqueue_args ms) db = SqlOk d ∧
    (∀ id r, rows db !! id = Some r → rows (d_db d) !! id = Some r) ∧
    (∀ m, m ∈ ms → ∃ id k, uuid_in (ID m) = Some id ∧ rows (d_db d) !! id = Some (enqueued_row (e_now e) m k)).
Proof.
  intros (_ & Hok & Hfit & Hne & Hnd & Hnew). destruct (enqueue_facts e ms db Hok Hfit) as (d & E & _ & Hkeep & Hins).
  exists d. split_and!; [done..|]. intros m Hm.
  rewrite Forall_forall in Hne. rewrite Forall_forall in Hok.
  destruct (Hok m Hm) as ([?|[id Hid]] & _); [by destruct (Hne m Hm)|].
  apply list_elem_of_split in Hm as Hs. destruct Hs as (pre & post & ->).
  destruct (Hins pre m post id eq_refl) as (k & _ & Hr).
  - by apply id_of_named; [apply Hne|].
  - by apply (Hnew m).
  - intros j m' Hj%list_elem_of_lookup_2 Hid'.
    rewrite id_of_named in Hid' by (apply Hne, elem_of_app; by left).
    rewrite map_app in Hnd. apply NoDup_app in Hnd as (_ & Hd & _).
    apply (Hd (uuid_in (ID m))); [rewrite Hid, <-Hid'|by left]. by apply (list_elem_of_fmap_2 (λ m, uuid_in (ID m))).
  - by exists id, k.
Qed.

(** ** A deployment of one application and one relay *)

Context {W : Type} `{Deployment W} (rt : Runtime W) (o : Outbox W).
Let r : Relay W := o_relay o.
Context (tick : Z) `{!LawfulExecutor eq (enq (o_store o))} `{!Responsive tick (enq (o_store o))}.
Context `{!LawfulExecutor eq (exec (store r))} `{!Responsive tick (exec (store r))}.
Context `{!LawfulPublisher eq (pub r)} `{!KeepsLimits (pub r)} `{!LawfulRuntime eq rt} `{!Calm rt r}.
Context (Htable : table (o_store o) = table (store r)).

Lemma EnqueueBatch_total ms w :
  ms ≠ [] → new_batch (db_of w) ms → good r w →
  ∃ e d w1, EnqueueBatch o ms w = (Ok None, w1) ∧ good r w1 ∧
    exec_enqueue e (flat_map enqueue_args ms) (db_of w) = SqlOk d ∧ db_of w1 = d_db d ∧
    e_now e ≤ s_clock (sys_of w1) ∧ s_clock (sys_of w) ≤ s_clock (sys_of w1) ∧
    issued (CEnqueue (enqueue_text (table (o_store o)) ms) (flat_map enqueue_args ms)).
Proof.
  intros Hne Hnew Hg. pose proof (proj1 Hnew) as Hv.
  set (st := mkStmt (table (o_store o))
               (CEnqueue (enqueue_text (table (o_store o)) ms) (flat_map enqueue_args ms))).
  destruct (answers (ex := enq (o_store o)) st w) as (e & Hrd & _ & _ & _ & Hans).
  destruct (enqueue_new_batch e ms (db_of w) Hnew) as (d & Ed & _ & _).
  assert (exec_stmt e st (db_of w) = SqlOk d) as Hst.
  { unfold exec_stmt. simpl. by rewrite (proj2 Hg), Htable, String.eqb_refl. }
  destruct (Hans d Hst) as [_ (w1 & E & Hs)]. exists e, d, w1.
  assert (evolves w w1) as Hev.
  { apply (advance_evolves e st); [done..|constructor]. }
  assert (db_of w1 = d_db d) as Hdb.
  { unfold db_of. rewrite Hs. simpl. unfold after_stmt. fold (db_of w). by rewrite Hst. }
  split_and!; [|by eapply evolves_good|done..| |by apply evolves_clock|constructor].
  - unfold EnqueueBatch. rewrite (validate_all_None _ Hv). unfold Store.Enqueue.
    destruct ms as [|m ms]; [done|]. by rewrite (M_bind_ok _ _ _ _ _ E).
  - rewrite Hs. simpl. destruct (ready_env _ _ Hrd). lia.
Qed.

(** In ordered mode, the rows of the batch's keys that are not settled yet are due. *)
Definition clear_keys (w : W) (ms : list Message) : Prop :=
  Ordered (set r) = true → ∀ id row m, rows (db_of w) !! id = Some row → m ∈ ms →
    partition_key row = null_text (PartitionKey m) → settled row = false →
    due (s_clock (sys_of w)) row.

(** A row of the table after the INSERT was there before, or is a new message's. *)
Lemma enqueue_row_cases e ms db d id row :
  exec_enqueue e (flat_map enqueue_args ms) db = SqlOk d → rows (d_db d) !! id = Some row →
  rows db !! id = Some row ∨ ∃ m k, m ∈ ms ∧ row = enqueued_row (e_now e) m k.
Proof.
  unfold exec_enqueue. destruct (_ <? _); [done|]. rewrite tuples_of_enqueue.
  destruct (insert_tuples _ _ _ _) as [db'|] eqn:E; [|done]. intros [= <-] Hr. simpl in Hr.
  destruct (insert_tuples_inv _ _ _ _ _ E) as (_ & _ & Hall).
  destruct (Hall id) as [<-|(_ & j & m & k & ? & _ & _ & _ & _ & Hr')]; [by left|].
  right. exists m, k. split; [done|congruence].
Qed.

Lemma enqueued_deliverable e ms d w w1 m id k :
  exec_enqueue e (flat_map enqueue_args ms) (db_of w) = SqlOk d → db_of w1 = d_db d →
  e_now e ≤ s_clock (sys_of w1) → s_clock (sys_of w) ≤ s_clock (sys_of w1) →
  clear_keys w ms → m ∈ ms → rows (db_of w1) !! id = Some (enqueued_row (e_now e) m k) →
  deliverable r (rows (db_of w1)) (s_clock (sys_of w1)) (enqueued_row (e_now e) m k).
Proof.
  intros Ed Hdb Hnow Hclk Hkeys Hm Hr. split; [by split; [|left]|].
  intros Ho j row' key Hr' Hkey Hkm _ Hs. simpl in Hkm. rewrite Hdb in Hr'.
  destruct (enqueue_row_cases _ _ _ _ _ _ Ed Hr') as [Hold|(m' & k' & _ & ->)].
  - eapply due_later; [exact Hclk|]. apply (Hkeys Ho j row' m); [done|done|congruence|done].
  - by split; [|left].
Qed.

Lemma enqueue_headroom e ms d w w1 :
  exec_enqueue e (flat_map enqueue_args ms) (db_of w) = SqlOk d → db_of w1 = d_db d →
  headroom w → headroom w1.
Proof.
  intros Ed Hdb Hroom id row Hr Hst. rewrite Hdb in Hr.
  destruct (enqueue_row_cases _ _ _ _ _ _ Ed Hr) as [Hold|(m & k & _ & ->)]; [by eapply Hroom|done].
Qed.

Context (Hset : runnable (set r)).
Context (Haccept : ∀ c ms w, ∃ ms' w', Publish (pub r) c ms w = (Ok (ms', None), w')).
Context (Hevents : ∀ dl d w, ∃ evs w', heartbeat_events rt dl d w = (Ok evs, w')).
Context (Hlease : tick * (BatchSize (set r) + 1) < interval_us (LeaseDuration (set r))).
Context (Hinstance : text_in (InstanceID (set r)) = true).

(** C8. What the application enqueues is what the publisher gets.  Let the relay be
    alone on a well-formed table whose attempt counts can grow, with a database that
    answers every statement within [tick], a lease that outlasts the statements of
    a batch, an instance id the server can store, a context that is not done and a
    publisher that accepts every batch.  Then a new batch (valid messages the
    server can store, at most 8191, under distinct ids of their own that are not in
    the table) is accepted, and, if in ordered mode the unsettled rows of its keys
    are due too, the next drain hands every message of it to the publisher, with
    the same topic, key, payload, headers, types and attempt limit and the
    canonical id, and records it as published. *)
Theorem enqueue_drain_roundtrip ms w :
  ms ≠ [] → new_batch (db_of w) ms → good r w → headroom w → clear_keys w ms →
  ∃ w1, EnqueueBatch o ms w = (Ok None, w1) ∧
    ∀ fuel, (work r (rows (db_of w1)) < fuel)%nat →
    ∃ w2 tr, drain rt r fuel w1 = (Ok (Some None), w2) ∧ records w1 w2 tr ∧
      ∀ m, m ∈ ms → ∃ hs hs' m' row,
        Handed hs (Ok (hs', None)) ∈ tr ∧ m' ∈ hs ∧ same_message m m' ∧
        rows (db_of w2) !! ID m' = Some row ∧ status row = StatusPublished.
Proof.
  intros Hne Hnew Hg Hroom Hkeys.
  destruct (EnqueueBatch_total ms w Hne Hnew Hg) as (e & d & w1 & E & Hg1 & Ed & Hdb & Hnow & Hclk & _).
  exists w1. split; [done|]. intros fuel Hfuel.
  destruct (drain_delivers rt r tick Hset Haccept Hevents Hlease Hinstance fuel w1)
    as (w2 & tr & Edr & Htr & Hall); [done|by eapply enqueue_headroom|done|].
  exists w2, tr. split_and!; [done..|]. intros m Hm.
  destruct (enqueue_new_batch e ms (db_of w) Hnew) as (d' & Ed' & _ & Hrows).
  rewrite Ed in Ed'. injection Ed' as <-. destruct (Hrows m Hm) as (id & k & Hid & Hr).
  rewrite <-Hdb in Hr.
  destruct (Hall id _ Hr) as (row & Hrow & Hp & Hh); [left; by eapply enqueued_deliverable|].
  destruct (Hh ltac:(by split; [|left])) as (hs & hs' & m' & Hin & Hm' & Hc). exists hs, hs', m', row.
  destruct Hnew as (_ & Hok & _). rewrite Forall_forall in Hok.
  split_and!; [done|done| |by rewrite (carries_ID _ _ _ Hc)|done].
  eapply enqueued_roundtrip; [apply (Hok m Hm)|done|exact Hc].
Qed.
End EndToEnd.
