(* ===== verification/Wakeup.v ===== *)
(** * Wake-ups

    How a message that becomes visible makes a relay look for it: the commit
    that shows it notifies, the listener turns each notification into a send on
    [wake], a channel of capacity one that drops what does not fit, and a worker
    that receives from it starts a drain.  One relay, with its listener and its
    workers, beside the transactions of [Transactions.v]. *)

From stdpp Require Import relations.
From S2P Require Import Prelude Outcome Message Backoff Config Postgres Store System Safety StoreSpec Relay World RelaySpec RelaySafety RelayCorrect RelayLive Cleaner Lifecycle Transactions.

Open Scope string_scope.
Open Scope Z_scope.

Section Wakeup.
Context `{Postgres}.

(** ** What a commit that shows a message sends *)

Lemma exec_enqueue_notified e sql ms db d tbl :
  exec_stmt e (mkStmt tbl (CEnqueue sql (flat_map enqueue_args ms))) db = SqlOk d →
  notified (d_db d) = S (notified db).
Proof.
  unfold exec_stmt. destruct (String.eqb _ _); [|done]. simpl. unfold exec_enqueue.
  destruct (_ <? _)%Z; [done|]. rewrite tuples_of_enqueue. destruct (insert_tuples _ _ _ _) as [db'|] eqn:E; [|done].
  intros [= <-]. simpl. by rewrite (insert_tuples_notified _ _ _ _ _ E).
Qed.

Lemma exec_notified_mono e st db d :
  issued (st_cmd st) → exec_stmt e st db = SqlOk d → (notified db ≤ notified (d_db d))%nat.
Proof.
  destruct st as [tbl c]. simpl. intros Hiss Hex. destruct Hiss as [tb ms| | | | |].
  { apply exec_enqueue_notified in Hex. lia. }
  all: unfold exec_stmt in Hex; simpl in Hex; destruct (String.eqb _ _); [|done].
  - unfold exec_claim in Hex. repeat case_match; by simplify_eq.
  - unfold exec_renew in Hex. repeat case_match; by simplify_eq.
  - unfold exec_finish in Hex. repeat case_match; by simplify_eq.
  - unfold exec_requeue in Hex. destruct (uuid_in id); simplify_eq/=. lia.
  - unfold exec_cleanup in Hex. repeat case_match; by simplify_eq.
Qed.

(** A statement that inserts a row or changes a dead one notifies. *)
Lemma exec_shows_notifies e st db d id row :
  issued (st_cmd st) → exec_stmt e st db = SqlOk d → rows (d_db d) !! id = Some row →
  (∀ r, rows db !! id = Some r → status r = StatusDead) →
  rows db !! id = Some row ∨ (notified db < notified (d_db d))%nat.
Proof.
  intros Hiss Hex Hrow Hdead. pose proof (exec_row_step e st db d id Hiss Hex) as Hs.
  destruct st as [tbl c]. simpl in *.
  remember (rows db !! id) as o1 eqn:E1. remember (rows (d_db d) !! id) as o2 eqn:E2.
  destruct Hs as [c o|sql ms m i k|? ? ? ? r Hr Hsel|? ? ? ? r _ Hl|? ? ? ? ? ? ? ? r _ _ Hl|s r Hu Hd|]; [by left; subst| | | | | |done];
    try (specialize (Hdead _ eq_refl); simplify_eq).
  - right. apply exec_enqueue_notified in Hex. lia.
  - eapply claim_row_status in Hsel; [|done]. destruct Hsel as [?|[? _]]; congruence.
  - apply live_claim_spec in Hl as (_ & ? & _). congruence.
  - apply live_claim_spec in Hl as (_ & ? & _). congruence.
  - right. unfold exec_stmt in Hex. destruct (String.eqb _ _); [|done]. simpl in Hex. unfold exec_requeue in Hex.
    rewrite Hu in Hex. injection Hex as <-. simpl.
    destruct (matched (λ i r, String.eqb i id && bool_decide (status r = StatusDead)) (rows db)) as [|? l] eqn:Em;
      [|simpl; lia].
    exfalso. apply matched_nil with (id := id) (r := r) in Em; [|done].
    rewrite String.eqb_refl, (bool_decide_eq_true_2 _ Hdead) in Em. done.
Qed.

(** An open transaction that wrote something will notify. *)
Definition notes (open : gmap nat Tx) : Prop :=
  ∀ x tx, open !! x = Some tx → x_own tx ≠ ∅ → x_note tx = true.

Lemma notes_step T a T' : act_ok T a → tx_exec T a = Some T' → notes (t_open T) → notes (t_open T').
Proof.
  intros Ha Hex Hn. destruct a as [c|y e st|y c|y|e st]; simpl in *.
  - injection Hex as <-. cbn [t_open]. intros x tx [[<- <-]|[_ ?]]%lookup_insert_Some; [done|by eapply Hn].
  - destruct (t_open T !! y) as [ty|] eqn:Hy; [|done]. simpl in Hex.
    destruct Ha as (_ & _ & Hiss & Hcall & _). destruct (x_failed ty); [done|].
    destruct (exec_stmt _ _ _) as [d|code] eqn:Ed; [case_decide as Hd; [|done]|]; injection Hex as <-; cbn [t_open];
      intros x tx [[<- <-]|[_ ?]]%lookup_insert_Some; simpl; try by eapply Hn.
    intros Hne. destruct (map_choose _ Hne) as (id & row & Hr). apply orb_true_iff.
    apply lookup_union_Some_raw in Hr as [Hr|[_ Hr]].
    + right. apply lookup_writes in Hr as [Hr Hst]. apply Nat.ltb_lt.
      edestruct (exec_shows_notifies e st (view (committed T) ty) d id row Hiss Ed Hr) as [Hs|]; [|by destruct (Hst _ Hs)|done].
      intros r Hr0. destruct (caller_row_step e _ st d id Hiss Hcall Ed) as [Hs|[(m & k & ? & _)|(r1 & ? & ? & _)]];
        [|congruence..].
      rewrite Hs in Hr. by destruct (Hst row).
    + left. apply (Hn y); [done|]. intros E. by rewrite E, lookup_empty in Hr.
  - destruct (t_open T !! y) as [ty|]; [|done]. simpl in Hex. destruct (x_failed ty); injection Hex as <-; cbn [t_open];
      intros x tx [_ ?]%lookup_delete_Some; by eapply Hn.
  - injection Hex as <-. cbn [t_open]. intros x tx [_ ?]%lookup_delete_Some; by eapply Hn.
  - case_decide; [|done]. by injection Hex as <-.
Qed.

(** Between [db] and [db'] nothing was enqueued or requeued: every row was there,
    and a row that was dead is what it was. *)
Definition nothing_new (db db' : Db) : Prop := ∀ id row, rows db' !! id = Some row →
  ∃ r0, rows db !! id = Some r0 ∧ seq r0 = seq row ∧ (status r0 = StatusDead → row = r0).

#[export] Instance nothing_new_refl : Reflexive nothing_new.
Proof. intros db id row Hr. by exists row. Qed.
#[export] Instance nothing_new_trans : Transitive nothing_new.
Proof.
  intros db1 db2 db3 H12 H23 id row Hr. destruct (H23 id row Hr) as (r2 & Hr2 & S2 & D2).
  destruct (H12 id r2 Hr2) as (r1 & Hr1 & S1 & D1). exists r1. split_and!; [done|congruence|].
  intros Hd. pose proof (D1 Hd) as ->. auto.
Qed.

(** Every step that shows a message to the relays notifies. *)
Lemma silent_step T a T' :
  act_ok T a → tx_exec T a = Some T' → notes (t_open T) →
  (notified (committed T) ≤ notified (committed T'))%nat ∧
  (notified (committed T') = notified (committed T) → nothing_new (committed T) (committed T')).
Proof.
  intros Ha Hex Hn. destruct a as [c|y e st|y c|y|e st]; simpl in *.
  - injection Hex as <-. by split.
  - destruct (t_open T !! y) as [ty|]; [|done]. simpl in Hex. destruct (x_failed ty); [done|].
    destruct (exec_stmt _ _ _) as [d|code]; [case_decide; [|done]|]; injection Hex as <-; split; try done;
      intros _ id row Hr; by exists row.
  - destruct (t_open T !! y) as [ty|] eqn:Hy; [|done]. simpl in Hex. destruct (x_failed ty); injection Hex as <-.
    + by split.
    + unfold committed at 2 3. simpl. fold (committed T). split; [lia|]. intros Heq.
      assert (x_own ty = ∅) as Ho.
      { apply dec_stable. intros Hne. rewrite (Hn _ _ Hy Hne) in Heq. lia. }
      intros id row Hr. change (rows (view (committed T) ty) !! id = Some row) in Hr.
      rewrite view_lookup, Ho, lookup_empty in Hr. by exists row.
  - injection Hex as <-. by split.
  - case_decide; [|done]. injection Hex as <-. destruct Ha as (_ & _ & Hiss & _).
    unfold committed at 2 3 5. simpl. unfold after_stmt. fold (committed T).
    destruct (exec_stmt e st (committed T)) as [d|] eqn:Ed; [|by split].
    split; [by eapply exec_notified_mono|]. intros Heq id row Hr.
    change (rows (d_db d) !! id = Some row) in Hr. change (notified (d_db d) = notified (committed T)) in Heq.
    destruct (rows (committed T) !! id) as [r0|] eqn:Hr0.
    + exists r0. split; [done|]. split.
      * pose proof (exec_row_step e st (committed T) d id Hiss Ed) as Hs. rewrite Hr, Hr0 in Hs.
        by apply row_step_origin in Hs as [].
      * intros Hd. destruct (exec_shows_notifies e st (committed T) d id row Hiss Ed Hr) as [?|?]; [|congruence|lia].
        intros r Hr1. congruence.
    + exfalso. destruct (exec_shows_notifies e st (committed T) d id row Hiss Ed Hr) as [?|?]; [|congruence|lia].
      intros r Hr1. congruence.
Qed.

(** ** One relay *)

(** The state beside the table: the listener's connection, as the number of the
    last notification it received; the buffer of [wake]; how many workers wait in
    their select, have received from it, and are draining.  [k_since] and
    [k_looked] are the history: the state in which the last LISTEN took effect, and
    those in which a drain started. *)
Record Wk : Type := mkWk {
  k_tx : TxSys;
  k_conn : option nat;
  k_since : TxSys;
  k_buffer : nat;
  k_idle : nat;
  k_woken : nat;
  k_draining : nat;
  k_looked : list TxSys
}.

Definition sent (k : Wk) : nat := notified (committed (k_tx k)).

(** A LISTEN that takes effect: the connection gets the notifications sent from
    now on, and nobody looks at the table; a lost connection; the poll ticker. *)
Inductive outer_step (k : Wk) : Wk → Prop :=
| k_listen :
    k_conn k = None →
    outer_step k (mkWk (k_tx k) (Some (sent k)) (k_tx k) (k_buffer k) (k_idle k) (k_woken k) (k_draining k) (k_looked k))
| k_lost :
    outer_step k (mkWk (k_tx k) None (k_since k) (k_buffer k) (k_idle k) (k_woken k) (k_draining k) (k_looked k))
| k_tick n :
    k_idle k = S n →
    outer_step k (mkWk (k_tx k) (k_conn k) (k_since k) (k_buffer k) n (S (k_woken k)) (k_draining k) (k_looked k)).

(** [listenOnce] receives a notification and sends on [wake]; a worker receives
    from [wake], starts its drain, and comes back when the drain returned nil. *)
Inductive relay_step (k : Wk) : Wk → Prop :=
| k_receive c :
    k_conn k = Some c → (c < sent k)%nat →
    relay_step k (mkWk (k_tx k) (Some (S c)) (k_since k) (wake_send (k_buffer k)) (k_idle k) (k_woken k) (k_draining k)
                    (k_looked k))
| k_wake n b :
    k_idle k = S n → wake_receive (k_buffer k) = Some b →
    relay_step k (mkWk (k_tx k) (k_conn k) (k_since k) b n (S (k_woken k)) (k_draining k) (k_looked k))
| k_start n :
    k_woken k = S n →
    relay_step k (mkWk (k_tx k) (k_conn k) (k_since k) (k_buffer k) (k_idle k) n (S (k_draining k)) (k_tx k :: k_looked k))
| k_end n :
    k_draining k = S n →
    relay_step k (mkWk (k_tx k) (k_conn k) (k_since k) (k_buffer k) (S (k_idle k)) (k_woken k) n (k_looked k)).

Inductive wk_step (k : Wk) : Wk → Prop :=
| wk_table T' :
    tx_step (k_tx k) T' →
    wk_step k (mkWk T' (k_conn k) (k_since k) (k_buffer k) (k_idle k) (k_woken k) (k_draining k) (k_looked k))
| wk_outer k' : outer_step k k' → wk_step k k'
| wk_relay k' : relay_step k k' → wk_step k k'.

(** Unless a notification was sent since [T0], nothing is new since then. *)
Definition remembers (k : Wk) (T0 : TxSys) : Prop :=
  (notified (committed T0) ≤ sent k)%nat ∧
  (sent k = notified (committed T0) → nothing_new (committed T0) (committed (k_tx k))).

(** Every notification the connection received is in the buffer, or a worker is on
    its way, or a drain started since. *)
Record wk_ok (k : Wk) : Prop := {
  wk_notes : notes (t_open (k_tx k));
  wk_history : ∀ T0, T0 ∈ k_since k :: k_looked k → remembers k T0;
  wk_buffer : (k_buffer k ≤ 1)%nat;
  wk_conn : ∀ c, k_conn k = Some c → (c ≤ sent k)%nat ∧
    (c = notified (committed (k_since k)) ∨ k_buffer k = 1%nat ∨ (0 < k_woken k)%nat ∨
     ∃ T0, T0 ∈ k_looked k ∧ (c ≤ notified (committed T0))%nat)
}.

Lemma remembers_now k : remembers k (k_tx k).
Proof. split; [done|reflexivity]. Qed.

Lemma wk_step_ok k k' : wk_step k k' → wk_ok k → wk_ok k'.
Proof.
  intros Hs [Hn Hh Hb Hc].
  assert (∀ T0, T0 ∈ k_tx k :: k_since k :: k_looked k → remembers k T0) as Hh'.
  { intros T0 [->|?]%elem_of_cons; [apply remembers_now|by apply Hh]. }
  destruct Hs as [T' [a Ha Hex]|k' Ho|k' Hr].
  - destruct (silent_step _ _ _ Ha Hex Hn) as [Hle Hq]. split; simpl; [by eapply notes_step| |done|].
    + intros T0 HT. destruct (Hh T0 HT) as [H1 H2]. unfold remembers, sent in *. simpl. split; [lia|]. intros E.
      etrans; [apply H2; lia|apply Hq; lia].
    + intros c Hk. destruct (Hc c Hk) as [? Hor]. unfold sent in *. simpl. split; [lia|exact Hor].
  - destruct Ho as [_| |n Hi]; split; simpl; try done.
    + intros T0 HT. apply Hh'. set_solver.
    + intros c [= <-]. split; [done|by left].
    + intros c Hk. destruct (Hc c Hk). split; [done|]. right; right; left. lia.
  - destruct Hr as [c Hk Hlt|n b Hi Hw|n Hw|n Hd]; split; simpl; try done.
    + unfold wake_send. destruct (Nat.ltb_spec (k_buffer k) 1); lia.
    + intros c' [= <-]. split; [unfold sent in *; simpl; lia|]. right; left. unfold wake_send.
      destruct (Nat.ltb_spec (k_buffer k) 1); lia.
    + unfold wake_receive in Hw. destruct (k_buffer k); simplify_eq. lia.
    + intros c Hk. destruct (Hc c Hk). split; [done|]. right; right; left. lia.
    + intros T0 HT. apply Hh'. set_solver.
    + intros c Hk. destruct (Hc c Hk). split; [done|]. right; right; right. exists (k_tx k).
      split; [by left|done].
Qed.

Lemma wk_reachable_ok k k' : rtc wk_step k k' → wk_ok k → wk_ok k'.
Proof. induction 1 as [|k1 k2 k3 H12 _ IH]; [done|]. intros Hok. by apply IH, (wk_step_ok k1). Qed.

Lemma relay_reachable_ok k k' : rtc relay_step k k' → wk_ok k → wk_ok k'.
Proof. intros Hs. apply wk_reachable_ok. revert Hs. apply rtc_subrel. by constructor. Qed.

(** A relay that starts on a table: no connection, an empty channel. *)
Definition wk_start (T : TxSys) (workers : nat) : Wk := mkWk T None T 0 workers 0 0 [].

Lemma wk_start_ok T n : t_open T = ∅ → wk_ok (wk_start T n).
Proof.
  intros Ho. split; simpl; [| |lia|done].
  - intros x tx Hx. by rewrite Ho, lookup_empty in Hx.
  - intros T0 ->%list_elem_of_singleton. apply remembers_now.
Qed.

(** The relay's own steps take the work of a wake-up down. *)
Definition wake_work (k : Wk) : nat :=
  (5 * (sent k - default (sent k) (k_conn k)) + 4 * k_buffer k + 2 * k_woken k + k_draining k)%nat.

Lemma relay_step_work k k' : wk_ok k → relay_step k k' → (wake_work k' < wake_work k)%nat.
Proof.
  intros [_ _ Hb _] Hr. unfold wake_work, sent.
  destruct Hr as [c Hk Hlt|n b Hi Hw|n Hw|n Hd]; simpl; try lia.
  - rewrite Hk. unfold sent in Hlt. simpl. unfold wake_send. destruct (Nat.ltb_spec (k_buffer k) 1); lia.
  - unfold wake_receive in Hw. destruct (k_buffer k); simplify_eq. lia.
Qed.

Lemma relay_steps_work k k' steps : wk_ok k → nsteps relay_step steps k k' → (steps ≤ wake_work k)%nat.
Proof.
  intros Hok Hs. revert Hok. induction Hs as [|m k1 k2 k3 H12 _ IH]; intros Hok; [lia|].
  pose proof (relay_step_work _ _ Hok H12). specialize (IH ltac:(by apply (wk_step_ok k1); [apply wk_relay|])). lia.
Qed.

(** They leave the table, the connection and the number of workers as they are, and
    a worker that was woken has looked at the table once it waits again. *)
Lemma relay_step_frame k k' :
  relay_step k k' → (k_idle k' + k_woken k' + k_draining k' = k_idle k + k_woken k + k_draining k)%nat ∧
    k_tx k' = k_tx k ∧ k_since k' = k_since k ∧ (is_Some (k_conn k) → is_Some (k_conn k')) ∧
    ((0 < k_woken k)%nat ∨ k_tx k ∈ k_looked k → (0 < k_woken k')%nat ∨ k_tx k' ∈ k_looked k').
Proof.
  destruct 1; simpl; (split; [lia|]); (split_and!; [done..|by eauto|]); try done.
  - intros _. left. lia.
  - intros _. right. by left.
Qed.

Lemma relay_steps_frame k k' :
  rtc relay_step k k' → (k_idle k' + k_woken k' + k_draining k' = k_idle k + k_woken k + k_draining k)%nat ∧
    k_tx k' = k_tx k ∧ k_since k' = k_since k ∧ (is_Some (k_conn k) → is_Some (k_conn k')) ∧
    ((0 < k_woken k)%nat ∨ k_tx k ∈ k_looked k → (0 < k_woken k')%nat ∨ k_tx k' ∈ k_looked k').
Proof.
  induction 1 as [|k1 k2 k3 H12 _ (E1 & E2 & E3 & E4 & E5)]; [by eauto|].
  destruct (relay_step_frame _ _ H12) as (F1 & F2 & F3 & F4 & F5).
  split_and!; [lia|congruence..|by eauto|by eauto].
Qed.

(** When none is possible, a drain started after the last notification, unless
    none came since the LISTEN. *)
Lemma settled_looked k c :
  wk_ok k → k_conn k = Some c → (0 < k_idle k + k_woken k + k_draining k)%nat →
  (∀ k', ¬ relay_step k k') →
  nothing_new (committed (k_since k)) (committed (k_tx k)) ∨
  ∃ T0, T0 ∈ k_looked k ∧ nothing_new (committed T0) (committed (k_tx k)).
Proof.
  intros [_ Hh Hb Hc] Hk Hworkers Hstuck. destruct (Hc c Hk) as [Hle Hor].
  assert (k_woken k = 0%nat) as Hw by (destruct (k_woken k) eqn:E; [done|by destruct (Hstuck _ (k_start _ _ E))]).
  assert (k_draining k = 0%nat) as Hd by (destruct (k_draining k) eqn:E; [done|by destruct (Hstuck _ (k_end _ _ E))]).
  assert (c = sent k) as ->.
  { destruct (decide (c = sent k)); [done|]. by destruct (Hstuck _ (k_receive _ c Hk ltac:(lia))). }
  destruct (k_idle k) as [|n] eqn:Hi; [lia|].
  destruct (k_buffer k) as [|b] eqn:Eb; [|by destruct (Hstuck _ (k_wake _ n b Hi ltac:(by rewrite Eb)))].
  destruct Hor as [Hs|[?|[?|(T0 & HT & Hn)]]]; [|lia|lia|].
  - left. apply (Hh (k_since k)); [by left|done].
  - right. exists T0. split; [done|]. destruct (Hh T0) as [H1 H2]; [by right|]. apply H2. lia.
Qed.

(** C12. No wake-up is lost while the listener is connected: in any interleaving of
    the callers' transactions, the statements of relays and cleaners, lost and
    renewed connections, poll ticks and the relay's own steps, the relay's own
    steps come to rest after a bounded number; and with a connected listener and a
    worker, at rest, either nothing was enqueued or requeued since the LISTEN took
    effect, or a drain started after the last message became visible, although
    [wake] holds a single token and drops the rest.  What became visible before the
    LISTEN is looked for by the next drain or at the next poll tick: after a tick
    the relay comes to rest only once a drain has started on the table as it is,
    connected or not. *)
Theorem no_lost_wakeup T n k :
  t_open T = ∅ → rtc wk_step (wk_start T n) k →
  (∀ k' steps, nsteps relay_step steps k k' → (steps ≤ wake_work k)%nat) ∧
  (∀ k', rtc relay_step k k' → (∀ k'', ¬ relay_step k' k'') →
     (is_Some (k_conn k) → (0 < k_idle k + k_woken k + k_draining k)%nat →
      nothing_new (committed (k_since k')) (committed (k_tx k')) ∨
      ∃ T0, T0 ∈ k_looked k' ∧ nothing_new (committed T0) (committed (k_tx k'))) ∧
     ((0 < k_woken k)%nat → k_tx k' ∈ k_looked k')).
Proof.
  intros Ho Hrun. pose proof (wk_reachable_ok _ _ Hrun (wk_start_ok T n Ho)) as Hok. split.
  { intros k' steps. by apply relay_steps_work. }
  intros k' Hs Hstuck. pose proof (relay_reachable_ok _ _ Hs Hok) as Hok'.
  destruct (relay_steps_frame _ _ Hs) as (Hsum & _ & _ & Hconn & Hlook). split.
  - intros [c Hc]%Hconn Hw. eapply settled_looked; [done..|lia|done].
  - intros Hw. destruct (Hlook (or_introl Hw)) as [Hw'|?]; [|done].
    destruct (k_woken k') eqn:E; [lia|]. by destruct (Hstuck _ (k_start _ _ E)).
Qed.
End Wakeup.
