(* ===== verification/SqlText.v ===== *)
(** * SQL as text

    The fragment of SQL that [engine/store.go] sends: a lexer and a parser from
    the text of a statement to its syntax tree.  [Sql.v] says what a tree means;
    [StoreSql.v] has the texts themselves. *)

From Stdlib Require Import Ascii.
From S2P Require Import Prelude Outcome Message Backoff Config Postgres Store.

Open Scope string_scope.
Open Scope Z_scope.

(** ** Syntax trees *)

Inductive column : Set :=
| Cid | Ctopic | Cpartition_key | Cpayload | Cheaders | Ccontent_type | Cmessage_type | Cstatus
| Cattempts | Cmax_attempts | Clocked_by | Clocked_until | Cnext_attempt_at | Clast_error
| Ccreated_at | Cpublished_at | Clease_token | Cfinished_at | Cseq.
#[export] Instance column_eq_dec : EqDecision column.
Proof. solve_decision. Defined.

Inductive fn : Set :=
| Fnow | Fclock_timestamp | Fgen_random_uuid | Fmake_interval | Fcoalesce | Funnest | Fpg_notify.

Inductive sqltype : Set :=
| Tuuid | Ttext | Tfloat8 | Tint8 | Tint4 | Tbool | Tbytea | Tjsonb | Ttimestamptz | Tuuids.

Inductive cmp : Set := OpEq | OpLt | OpLe | OpGt.

(** A table name: schema and table. *)
Record tname : Type := mkTname { t_schema : string; t_table : string }.

Inductive expr : Type :=
| ECol (alias : option string) (c : column)
| EParam (n : N)
| EStr (s : string)
| EInt (n : N)
| ENull
| EStar
| ECall (f : fn) (args : list expr)
| ECmp (o : cmp) (a b : expr)
| EAdd (a b : expr)
| ESub (a b : expr)
| EAnd (a b : expr)
| EOr (a b : expr)
| ENot (a : expr)
| EIsNull (a : expr)
| EIn (a : expr) (l : list expr)
| EInQuery (a : expr) (q : query)
| EExists (q : query)
| ETuple (l : list expr)
| ECase (c a b : expr)
| ECast (a : expr) (ty : sqltype)
with query : Type :=
| QTable (sel : expr) (t : tname) (alias : string) (w : expr) (order : list expr) (lim : option expr)
    (skip_locked : bool)
| QCall (sel : expr) (f : fn) (args : list expr).

Inductive stmt : Type :=
| SUpdate (t : tname) (sets : list (column * expr)) (w : expr) (ret : list column)
| SDelete (t : tname) (w : expr)
| SWith (cte : string) (u : stmt) (sel : expr) (from : string)
| SInsert (t : tname) (cs : list column) (tuples : list (list expr)) (conflict : column).

(** ** Tokens *)

Inductive token : Type :=
| TId (s : string)          (* a word, folded to lower case *)
| TQuoted (s : string)      (* a quoted identifier *)
| TStr (s : string)
| TParam (n : N)
| TNum (n : N)
| TOp (s : string)          (* a run of operator characters *)
| TPunct (c : ascii).

(** Inside which token the lexer is. *)
Inductive lstate : Type :=
| LStart
| LWord (acc : string)
| LQuoted (acc : string)
| LQuotedEnd (acc : string)
| LStr (acc : string)
| LStrEnd (acc : string)
| LParam (n : N)
| LNum (n : N)
| LOp (acc : string).

Definition is_space (c : ascii) : bool :=
  in_range 32 32 c || in_range 9 10 c || in_range 13 13 c.
Definition digit_of (c : ascii) : option N :=
  if in_range 48 57 c then Some (N_of_ascii c - 48)%N else None.
Definition is_quote (c : ascii) : bool := in_range 39 39 c.
Definition is_dquote (c : ascii) : bool := Ascii.eqb c quote_char.
Definition is_dollar (c : ascii) : bool := in_range 36 36 c.
(** The operator characters: the colon counts, for the cast. *)
Definition is_op (c : ascii) : bool :=
  in_range 42 43 c || in_range 45 45 c || in_range 47 47 c || in_range 58 58 c || in_range 60 62 c.
Definition to_lower (c : ascii) : ascii :=
  if in_range 65 90 c then ascii_of_N (N_of_ascii c + 32) else c.

Definition snoc (s : string) (c : ascii) : string := s +:+ String c EmptyString.

(** A character between tokens. *)
Definition start (c : ascii) : list token * lstate :=
  if ident_start c then ([], LWord (snoc EmptyString (to_lower c)))
  else if is_dquote c then ([], LQuoted EmptyString)
  else if is_quote c then ([], LStr EmptyString)
  else if is_dollar c then ([], LParam 0)
  else match digit_of c with
  | Some d => ([], LNum d)
  | None =>
      if is_space c then ([], LStart)
      else if is_op c then ([], LOp (snoc EmptyString c))
      else ([TPunct c], LStart)
  end.

(** The token [t] ends before [c]. *)
Definition ends (t : token) (c : ascii) : list token * lstate := (t :: (start c).1, (start c).2).

Definition lex_step (st : lstate) (c : ascii) : list token * lstate :=
  match st with
  | LStart => start c
  | LWord acc => if ident_cont c then ([], LWord (snoc acc (to_lower c))) else ends (TId acc) c
  | LQuoted acc => if is_dquote c then ([], LQuotedEnd acc) else ([], LQuoted (snoc acc c))
  | LQuotedEnd acc => if is_dquote c then ([], LQuoted (snoc acc c)) else ends (TQuoted acc) c
  | LStr acc => if is_quote c then ([], LStrEnd acc) else ([], LStr (snoc acc c))
  | LStrEnd acc => if is_quote c then ([], LStr (snoc acc c)) else ends (TStr acc) c
  | LParam n => match digit_of c with Some d => ([], LParam (10 * n + d)%N) | None => ends (TParam n) c end
  | LNum n => match digit_of c with Some d => ([], LNum (10 * n + d)%N) | None => ends (TNum n) c end
  | LOp acc => if is_op c then ([], LOp (snoc acc c)) else ends (TOp acc) c
  end.

(** The end of the text; [None] inside quotes. *)
Definition lex_end (st : lstate) : option (list token) :=
  match st with
  | LStart => Some []
  | LWord acc => Some [TId acc]
  | LQuotedEnd acc => Some [TQuoted acc]
  | LStrEnd acc => Some [TStr acc]
  | LParam n => Some [TParam n]
  | LNum n => Some [TNum n]
  | LOp acc => Some [TOp acc]
  | LQuoted _ | LStr _ => None
  end.

Fixpoint lex_run (st : lstate) (s : string) : list token * lstate :=
  match s with
  | EmptyString => ([], st)
  | String c s' =>
      let '(ts, st') := lex_step st c in
      let '(ts', st'') := lex_run st' s' in ((ts ++ ts')%list, st'')
  end.

Definition lex (s : string) : option (list token) :=
  let '(ts, st) := lex_run LStart s in
  ts' ← lex_end st; Some (ts ++ ts')%list.

(** ** Parser *)

(** A parser reads a prefix of the tokens. *)
Definition parser (A : Type) : Type := list token → option (A * list token).

Definition kw (s : string) (ts : list token) : option (list token) :=
  match ts with TId s' :: ts' => if String.eqb s' s then Some ts' else None | _ => None end.
Definition op (s : string) (ts : list token) : option (list token) :=
  match ts with TOp s' :: ts' => if String.eqb s' s then Some ts' else None | _ => None end.
Definition punct (c : ascii) (ts : list token) : option (list token) :=
  match ts with TPunct c' :: ts' => if Ascii.eqb c' c then Some ts' else None | _ => None end.

Fixpoint kws (l : list string) (ts : list token) : option (list token) :=
  match l with
  | [] => Some ts
  | s :: l' => ts' ← kw s ts; kws l' ts'
  end.

Definition lookup_word {A} (table : list (string * A)) (s : string) : option A :=
  snd <$> List.find (λ p, String.eqb p.1 s) table.

Definition columns : list (string * column) :=
  [("id", Cid); ("topic", Ctopic); ("partition_key", Cpartition_key); ("payload", Cpayload);
   ("headers", Cheaders); ("content_type", Ccontent_type); ("message_type", Cmessage_type);
   ("status", Cstatus); ("attempts", Cattempts); ("max_attempts", Cmax_attempts);
   ("locked_by", Clocked_by); ("locked_until", Clocked_until); ("next_attempt_at", Cnext_attempt_at);
   ("last_error", Clast_error); ("created_at", Ccreated_at); ("published_at", Cpublished_at);
   ("lease_token", Clease_token); ("finished_at", Cfinished_at); ("seq", Cseq)].

Definition functions : list (string * fn) :=
  [("now", Fnow); ("clock_timestamp", Fclock_timestamp); ("gen_random_uuid", Fgen_random_uuid);
   ("make_interval", Fmake_interval); ("coalesce", Fcoalesce); ("unnest", Funnest);
   ("pg_notify", Fpg_notify)].

Definition cmps : list (string * cmp) := [("=", OpEq); ("<", OpLt); ("<=", OpLe); (">", OpGt)].

Definition p_column : parser column := λ ts,
  match ts with TId s :: ts' => c ← lookup_word columns s; Some (c, ts') | _ => None end.

(** [uuid], [uuid[]], [double precision] and so on. *)
Definition p_type : parser sqltype := λ ts,
  match kw "uuid" ts with
  | Some ts1 =>
      match (ts2 ← punct "[" ts1; punct "]" ts2) with
      | Some ts2 => Some (Tuuids, ts2)
      | None => Some (Tuuid, ts1)
      end
  | None =>
      match kws ["double"; "precision"] ts with
      | Some ts1 => Some (Tfloat8, ts1)
      | None =>
          match ts with
          | TId s :: ts' =>
              ty ← lookup_word [("text", Ttext); ("bytea", Tbytea); ("jsonb", Tjsonb)] s; Some (ty, ts')
          | _ => None
          end
      end
  end.

Definition p_tname : parser tname := λ ts,
  match ts with
  | TQuoted s :: ts1 =>
      ts2 ← punct "." ts1;
      match ts2 with TId t :: ts3 => Some (mkTname s t, ts3) | _ => None end
  | _ => None
  end.

(** A comma-separated list. *)
Definition p_list {A} (p : parser A) : nat → parser (list A) :=
  fix go fuel ts :=
    match fuel with
    | O => None
    | S fuel' =>
        '(a, ts1) ← p ts;
        match punct "," ts1 with
        | Some ts2 => '(l, ts3) ← go fuel' ts2; Some (a :: l, ts3)
        | None => Some ([a], ts1)
        end
    end.

(** An argument of a call; [make_interval] has a named one. *)
Definition p_arg (p : parser expr) : parser expr := λ ts,
  match ts with
  | TId "secs" :: ts1 => match op "=>" ts1 with Some ts2 => p ts2 | None => p ts end
  | _ => p ts
  end.

(** Between parentheses; a call's arguments may be none. *)
Definition p_paren {A} (p : parser A) : parser A := λ ts,
  ts1 ← punct "(" ts; '(a, ts2) ← p ts1; ts3 ← punct ")" ts2; Some (a, ts3).
Definition p_args (p : parser expr) (fuel : nat) : parser (list expr) := λ ts,
  match (ts1 ← punct "(" ts; punct ")" ts1) with
  | Some ts2 => Some ([], ts2)
  | None => p_paren (p_list (p_arg p) fuel) ts
  end.

(** From weakest to strongest: OR, AND, NOT, comparisons, addition, casts. *)
Fixpoint p_expr (fuel : nat) (ts : list token) {struct fuel} : option (expr * list token) :=
  match fuel with
  | O => None
  | S fuel' =>
      '(a, ts1) ← p_and fuel' ts;
      match kw "or" ts1 with
      | Some ts2 => '(b, ts3) ← p_expr fuel' ts2; Some (EOr a b, ts3)
      | None => Some (a, ts1)
      end
  end
with p_and (fuel : nat) (ts : list token) {struct fuel} : option (expr * list token) :=
  match fuel with
  | O => None
  | S fuel' =>
      '(a, ts1) ← p_not fuel' ts;
      match kw "and" ts1 with
      | Some ts2 => '(b, ts3) ← p_and fuel' ts2; Some (EAnd a b, ts3)
      | None => Some (a, ts1)
      end
  end
with p_not (fuel : nat) (ts : list token) {struct fuel} : option (expr * list token) :=
  match fuel with
  | O => None
  | S fuel' =>
      match kw "not" ts with
      | Some ts1 => '(a, ts2) ← p_not fuel' ts1; Some (ENot a, ts2)
      | None => p_cmp fuel' ts
      end
  end
with p_cmp (fuel : nat) (ts : list token) {struct fuel} : option (expr * list token) :=
  match fuel with
  | O => None
  | S fuel' =>
      '(a, ts1) ← p_sum fuel' ts;
      match ts1 with
      | TOp s :: ts2 =>
          match lookup_word cmps s with
          | Some o => '(b, ts3) ← p_sum fuel' ts2; Some (ECmp o a b, ts3)
          | None => Some (a, ts1)
          end
      | _ =>
          match kws ["is"; "not"; "null"] ts1, kws ["is"; "null"] ts1, kws ["not"; "in"] ts1, kw "in" ts1 with
          | Some ts2, _, _, _ => Some (ENot (EIsNull a), ts2)
          | _, Some ts2, _, _ => Some (EIsNull a, ts2)
          | _, _, Some ts2, _ => '(r, ts3) ← p_in fuel' a ts2; Some (ENot r, ts3)
          | _, _, _, Some ts2 => p_in fuel' a ts2
          | _, _, _, _ => Some (a, ts1)
          end
      end
  end
with p_in (fuel : nat) (a : expr) (ts : list token) {struct fuel} : option (expr * list token) :=
  match fuel with
  | O => None
  | S fuel' =>
      match (ts1 ← punct "(" ts; kw "select" ts1) with
      | Some _ => '(q, ts2) ← p_paren (p_query fuel') ts; Some (EInQuery a q, ts2)
      | None => '(l, ts2) ← p_paren (p_list (p_expr fuel') fuel') ts; Some (EIn a l, ts2)
      end
  end
with p_sum (fuel : nat) (ts : list token) {struct fuel} : option (expr * list token) :=
  match fuel with
  | O => None
  | S fuel' =>
      '(a, ts1) ← p_cast fuel' ts;
      match op "+" ts1, op "-" ts1 with
      | Some ts2, _ => '(b, ts3) ← p_cast fuel' ts2; Some (EAdd a b, ts3)
      | _, Some ts2 => '(b, ts3) ← p_cast fuel' ts2; Some (ESub a b, ts3)
      | _, _ => Some (a, ts1)
      end
  end
with p_cast (fuel : nat) (ts : list token) {struct fuel} : option (expr * list token) :=
  match fuel with
  | O => None
  | S fuel' =>
      '(a, ts1) ← p_prim fuel' ts;
      match op "::" ts1 with
      | Some ts2 => '(ty, ts3) ← p_type ts2; Some (ECast a ty, ts3)
      | None => Some (a, ts1)
      end
  end
with p_prim (fuel : nat) (ts : list token) {struct fuel} : option (expr * list token) :=
  match fuel with
  | O => None
  | S fuel' =>
      match ts with
      | TParam n :: ts1 => Some (EParam n, ts1)
      | TStr s :: ts1 => Some (EStr s, ts1)
      | TNum n :: ts1 => Some (EInt n, ts1)
      | TOp _ :: _ => ts1 ← op "*" ts; Some (EStar, ts1)
      | TPunct _ :: _ =>
          '(l, ts1) ← p_paren (p_list (p_expr fuel') fuel') ts;
          Some (match l with [a] => a | _ => ETuple l end, ts1)
      | TId w :: ts1 =>
          if String.eqb w "null" then Some (ENull, ts1)
          else if String.eqb w "exists" then '(q, ts2) ← p_paren (p_query fuel') ts1; Some (EExists q, ts2)
          else if String.eqb w "case" then
            ts2 ← kw "when" ts1; '(c, ts3) ← p_expr fuel' ts2;
            ts4 ← kw "then" ts3; '(a, ts5) ← p_expr fuel' ts4;
            ts6 ← kw "else" ts5; '(b, ts7) ← p_expr fuel' ts6;
            ts8 ← kw "end" ts7; Some (ECase c a b, ts8)
          else
            match lookup_word functions w, punct "." ts1 with
            | Some f, _ => '(l, ts2) ← p_args (p_expr fuel') fuel' ts1; Some (ECall f l, ts2)
            | None, Some ts2 => '(c, ts3) ← p_column ts2; Some (ECol (Some w) c, ts3)
            | None, None => '(c, ts2) ← p_column ts; Some (ECol None c, ts2)
            end
      | TQuoted _ :: _ | [] => None
      end
  end
with p_query (fuel : nat) (ts : list token) {struct fuel} : option (query * list token) :=
  match fuel with
  | O => None
  | S fuel' =>
      ts0 ← kw "select" ts; '(sel, ts1) ← p_expr fuel' ts0; ts2 ← kw "from" ts1;
      match ts2 with
      | TId w :: ts3 => f ← lookup_word functions w; '(l, ts4) ← p_args (p_expr fuel') fuel' ts3; Some (QCall sel f l, ts4)
      | _ =>
          '(t, ts3) ← p_tname ts2;
          let '(alias, ts4) :=
            match kw "where" ts3, ts3 with
            | None, TId a :: ts' => (a, ts')
            | _, _ => (t_table t, ts3)
            end in
          ts5 ← kw "where" ts4; '(w, ts6) ← p_expr fuel' ts5;
          '(order, ts7) ← (match kws ["order"; "by"] ts6 with
                           | Some ts' => p_list (p_expr fuel') fuel' ts'
                           | None => Some ([], ts6)
                           end);
          '(lim1, ts8) ← p_limit fuel' ts7;
          let '(lock, ts9) :=
            match kws ["for"; "update"; "skip"; "locked"] ts8 with
            | Some ts' => (true, ts')
            | None => (false, ts8)
            end in
          '(lim2, ts10) ← p_limit fuel' ts9;
          Some (QTable sel t alias w order (or_else lim1 lim2) lock, ts10)
      end
  end
with p_limit (fuel : nat) (ts : list token) {struct fuel} : option (option expr * list token) :=
  match fuel with
  | O => None
  | S fuel' =>
      match kw "limit" ts with
      | Some ts1 => '(e, ts2) ← p_sum fuel' ts1; Some (Some e, ts2)
      | None => Some (None, ts)
      end
  end.

Definition p_set (fuel : nat) : parser (column * expr) := λ ts,
  '(c, ts1) ← p_column ts; ts2 ← op "=" ts1; '(e, ts3) ← p_expr fuel ts2; Some (c, e, ts3).

Definition p_returning (fuel : nat) : parser (list column) := λ ts,
  match kw "returning" ts with
  | Some ts1 => p_list p_column fuel ts1
  | None => Some ([], ts)
  end.

Definition p_update (fuel : nat) : parser stmt := λ ts,
  ts1 ← kw "update" ts; '(t, ts2) ← p_tname ts1; ts3 ← kw "set" ts2;
  '(sets, ts4) ← p_list (p_set fuel) fuel ts3; ts5 ← kw "where" ts4; '(w, ts6) ← p_expr fuel ts5;
  '(ret, ts7) ← p_returning fuel ts6; Some (SUpdate t sets w ret, ts7).

Definition p_stmt (fuel : nat) : parser stmt := λ ts,
  match kws ["delete"; "from"] ts, kw "with" ts, kws ["insert"; "into"] ts with
  | Some ts1, _, _ =>
      '(t, ts2) ← p_tname ts1; ts3 ← kw "where" ts2; '(w, ts4) ← p_expr fuel ts3; Some (SDelete t w, ts4)
  | _, Some ts1, _ =>
      match ts1 with
      | TId cte :: ts2 =>
          ts3 ← kw "as" ts2; '(u, ts4) ← p_paren (p_update fuel) ts3;
          ts5 ← kw "select" ts4; '(sel, ts6) ← p_expr fuel ts5; ts7 ← kw "from" ts6;
          match ts7 with TId from :: ts8 => Some (SWith cte u sel from, ts8) | _ => None end
      | _ => None
      end
  | _, _, Some ts1 =>
      '(t, ts2) ← p_tname ts1; '(cs, ts3) ← p_paren (p_list p_column fuel) ts2; ts4 ← kw "values" ts3;
      '(tuples, ts5) ← p_list (p_paren (p_list (p_expr fuel) fuel)) fuel ts4;
      ts6 ← kws ["on"; "conflict"] ts5; '(c, ts7) ← p_paren p_column ts6; ts8 ← kws ["do"; "nothing"] ts7;
      Some (SInsert t cs tuples c, ts8)
  | _, _, _ => p_update fuel ts
  end.

(** The whole text is one statement. Fuel for nesting and for list items. *)
Definition parse (fuel : nat) (text : string) : option stmt :=
  ts ← lex text; '(s, rest) ← p_stmt fuel ts; match rest with [] => Some s | _ => None end.
