(* ===== verification/Sql.v ===== *)
(** * What the SQL means

    An executable semantics of the trees of [SqlText.v] on the table of
    [Postgres.v]: typed values, NULL and three-valued logic, correlated
    subqueries, ORDER BY, LIMIT and SKIP LOCKED, the typing of parameters from
    where they stand.  Anything outside the fragment is an error, never a guess. *)

From Stdlib Require Import Ascii.
From S2P Require Import Prelude Outcome Message Backoff Config Postgres Store SqlText.

Open Scope string_scope.
Open Scope Z_scope.

(** ** Values and failures *)

Inductive value : Type :=
| VNull
| VBool (b : bool)
| VInt (z : Z)
| VText (s : string)
| VUuid (s : string)
| VTime (t : time)
| VInterval (us : Z)
| VFloat (d : duration)       (* the double d.Seconds() *)
| VBytes (b : bytes)
| VJson (j : json)
| VArray (l : list value)
| VTuple (l : list value)
| VVoid.

(** A result, or an SQLSTATE. *)
Definition sql (A : Type) : Type := (A + string)%type.
#[export] Instance sql_ret : MRet sql := λ _ a, inl a.
#[export] Instance sql_bind : MBind sql := λ _ _ f m, match m with inl a => f a | inr e => inr e end.

Definition type_error : string := "42804".
Definition unsupported : string := "0A000".

Definition map_sql {A B} (f : A → sql B) : list A → sql (list B) :=
  fix map_sql l := match l with [] => inl [] | a :: l' => b ← f a; bs ← map_sql l'; inl (b :: bs) end.

Fixpoint filter_sql {A} (f : A → sql bool) (l : list A) : sql (list A) :=
  match l with
  | [] => inl []
  | a :: l' => b ← f a; l'' ← filter_sql f l'; inl (if b : bool then a :: l'' else l'')
  end.

(** ** Three-valued logic *)

Definition v_and (a b : value) : sql value :=
  match a, b with
  | VBool false, (VBool _ | VNull) | (VBool _ | VNull), VBool false => inl (VBool false)
  | VBool true, VBool true => inl (VBool true)
  | VBool true, VNull | VNull, VBool true | VNull, VNull => inl VNull
  | _, _ => inr type_error
  end.

Definition v_not (a : value) : sql value :=
  match a with VBool b => inl (VBool (negb b)) | VNull => inl VNull | _ => inr type_error end.

Definition v_or (a b : value) : sql value :=
  na ← v_not a; nb ← v_not b; c ← v_and na nb; v_not c.

(** A condition holds when it is true, not when it is NULL. *)
Definition truth (a : value) : sql bool :=
  match a with VBool b => inl b | VNull => inl false | _ => inr type_error end.

(** ** Comparisons *)

Definition cmp_result (o : cmp) (c : comparison) : bool :=
  match o, c with
  | OpEq, Eq | OpLt, Lt | OpLe, (Lt | Eq) | OpGt, Gt => true
  | _, _ => false
  end.

(** [uuid] values are ordered as their canonical texts; the order of texts is the
    collation's. *)
Definition uuid_compare (x y : string) : comparison :=
  if String.eqb x y then Eq else if String.leb x y then Lt else Gt.

Definition v_cmp (o : cmp) (a b : value) : sql value :=
  match a, b with
  | VNull, _ | _, VNull => inl VNull
  | VInt x, VInt y | VTime x, VTime y => inl (VBool (cmp_result o (x ?= y)))
  | VFloat d, VInt 0 => inl (VBool (cmp_result o (d ?= 0)))
  | VText x, VText y => match o with OpEq => inl (VBool (String.eqb x y)) | _ => inr unsupported end
  | VUuid x, VUuid y => inl (VBool (cmp_result o (uuid_compare x y)))
  | _, _ => inr type_error
  end.

(** Row comparison: decided at the first pair that differs. *)
Fixpoint v_cmp_rows (o : cmp) (l1 l2 : list value) : sql value :=
  match l1, l2 with
  | [a], [b] => v_cmp o a b
  | a :: l1', b :: l2' =>
      c ← v_cmp OpEq a b;
      match c with
      | VBool true => v_cmp_rows o l1' l2'
      | VBool false =>
          match o with
          | OpEq => inl (VBool false)
          | OpLe => v_cmp OpLt a b
          | _ => v_cmp o a b
          end
      | _ =>
          match o with
          | OpEq => r ← v_cmp_rows o l1' l2'; v_and VNull r
          | _ => inl VNull
          end
      end
  | _, _ => inr type_error
  end.

Definition v_compare (o : cmp) (a b : value) : sql value :=
  match a, b with VTuple l1, VTuple l2 => v_cmp_rows o l1 l2 | _, _ => v_cmp o a b end.

(** [a IN (l)] *)
Fixpoint v_in (a : value) (l : list value) : sql value :=
  match l with
  | [] => inl (VBool false)
  | b :: l' => c ← v_compare OpEq a b; r ← v_in a l'; v_or c r
  end.

(** ** Columns *)

Definition opt_value {A} (f : A → value) (o : option A) : value := match o with Some a => f a | None => VNull end.

Definition col_value (c : column) (ir : string * Row) : value :=
  let r := ir.2 in
  match c with
  | Cid => VUuid ir.1
  | Ctopic => VText r.(topic)
  | Cpartition_key => opt_value VText r.(partition_key)
  | Cpayload => VBytes r.(payload)
  | Cheaders => VJson r.(headers)
  | Ccontent_type => opt_value VText r.(content_type)
  | Cmessage_type => opt_value VText r.(message_type)
  | Cstatus => VText (string_of_status r.(status))
  | Cattempts => VInt r.(attempts)
  | Cmax_attempts => opt_value VInt r.(max_attempts)
  | Clocked_by => opt_value VText r.(locked_by)
  | Clocked_until => opt_value VTime r.(locked_until)
  | Cnext_attempt_at => VTime r.(next_attempt_at)
  | Clast_error => opt_value VText r.(last_error)
  | Ccreated_at => VTime r.(created_at)
  | Cpublished_at => opt_value VTime r.(published_at)
  | Clease_token => opt_value VUuid r.(lease_token)
  | Cfinished_at => opt_value VTime r.(finished_at)
  | Cseq => VInt r.(seq)
  end.

Definition col_type (c : column) : sqltype :=
  match c with
  | Cid | Clease_token => Tuuid
  | Cpayload => Tbytea
  | Cheaders => Tjsonb
  | Cattempts | Cmax_attempts => Tint4
  | Cseq => Tint8
  | Clocked_until | Cnext_attempt_at | Ccreated_at | Cpublished_at | Cfinished_at => Ttimestamptz
  | _ => Ttext
  end.

Definition all_statuses : list Status :=
  [StatusPending; StatusProcessing; StatusPublished; StatusDead; StatusDiscarded].
(** The CHECK constraint of the column. *)
Definition status_of_string (s : string) : option Status :=
  List.find (λ st, String.eqb (string_of_status st) s) all_statuses.

Definition nullable {A} (f : value → sql A) (v : value) : sql (option A) :=
  match v with VNull => inl None | _ => a ← f v; inl (Some a) end.
Definition not_null {A} (f : value → sql A) (v : value) : sql A :=
  match v with VNull => inr "23502" | _ => f v end.
Definition as_text (v : value) : sql string := match v with VText s => inl s | _ => inr type_error end.
Definition as_uuid (v : value) : sql string := match v with VUuid s => inl s | _ => inr type_error end.
Definition as_time (v : value) : sql time := match v with VTime t => inl t | _ => inr type_error end.
Definition as_bytes (v : value) : sql bytes := match v with VBytes b => inl b | _ => inr type_error end.
Definition as_json (v : value) : sql json := match v with VJson j => inl j | _ => inr type_error end.
Definition as_int4 (v : value) : sql Z :=
  match v with VInt z => if int4_ok z then inl z else inr "22003" | _ => inr type_error end.

(** The row with the value assigned to the column. *)
Definition set_col (c : column) (v : value) (r : Row) : sql Row :=
  let '(mkRow tp pk pl hd ct mt st at_ ma lb lu na le ca pu tk fi sq) := r in
  match c with
  | Ctopic => x ← not_null as_text v; inl (mkRow x pk pl hd ct mt st at_ ma lb lu na le ca pu tk fi sq)
  | Cpartition_key => x ← nullable as_text v; inl (mkRow tp x pl hd ct mt st at_ ma lb lu na le ca pu tk fi sq)
  | Cpayload => x ← not_null as_bytes v; inl (mkRow tp pk x hd ct mt st at_ ma lb lu na le ca pu tk fi sq)
  | Cheaders => x ← not_null as_json v; inl (mkRow tp pk pl x ct mt st at_ ma lb lu na le ca pu tk fi sq)
  | Ccontent_type => x ← nullable as_text v; inl (mkRow tp pk pl hd x mt st at_ ma lb lu na le ca pu tk fi sq)
  | Cmessage_type => x ← nullable as_text v; inl (mkRow tp pk pl hd ct x st at_ ma lb lu na le ca pu tk fi sq)
  | Cstatus =>
      s ← not_null as_text v;
      match status_of_string s with
      | Some x => inl (mkRow tp pk pl hd ct mt x at_ ma lb lu na le ca pu tk fi sq)
      | None => inr "23514"
      end
  | Cattempts => x ← not_null as_int4 v; inl (mkRow tp pk pl hd ct mt st x ma lb lu na le ca pu tk fi sq)
  | Cmax_attempts => x ← nullable as_int4 v; inl (mkRow tp pk pl hd ct mt st at_ x lb lu na le ca pu tk fi sq)
  | Clocked_by => x ← nullable as_text v; inl (mkRow tp pk pl hd ct mt st at_ ma x lu na le ca pu tk fi sq)
  | Clocked_until => x ← nullable as_time v; inl (mkRow tp pk pl hd ct mt st at_ ma lb x na le ca pu tk fi sq)
  | Cnext_attempt_at => x ← not_null as_time v; inl (mkRow tp pk pl hd ct mt st at_ ma lb lu x le ca pu tk fi sq)
  | Clast_error => x ← nullable as_text v; inl (mkRow tp pk pl hd ct mt st at_ ma lb lu na x ca pu tk fi sq)
  | Cpublished_at => x ← nullable as_time v; inl (mkRow tp pk pl hd ct mt st at_ ma lb lu na le ca x tk fi sq)
  | Clease_token => x ← nullable as_uuid v; inl (mkRow tp pk pl hd ct mt st at_ ma lb lu na le ca pu x fi sq)
  | Cfinished_at => x ← nullable as_time v; inl (mkRow tp pk pl hd ct mt st at_ ma lb lu na le ca pu tk x sq)
  | Cid | Ccreated_at | Cseq => inr unsupported
  end.

Fixpoint set_cols (vs : list (column * value)) (r : Row) : sql Row :=
  match vs with [] => inl r | (c, v) :: vs' => r' ← set_col c v r; set_cols vs' r' end.

(** ** Sorting: ascending, NULLs last *)

Definition sortable (v : value) : sql value :=
  match v with VNull | VInt _ | VTime _ | VUuid _ => inl v | _ => inr unsupported end.

Definition v_order (a b : value) : comparison :=
  match a, b with
  | VNull, VNull => Eq
  | VNull, _ => Gt
  | _, VNull => Lt
  | VInt x, VInt y | VTime x, VTime y => x ?= y
  | VUuid x, VUuid y => uuid_compare x y
  | _, _ => Eq
  end.

Fixpoint keys_order (l1 l2 : list value) : comparison :=
  match l1, l2 with
  | a :: l1', b :: l2' => match v_order a b with Eq => keys_order l1' l2' | c => c end
  | _, _ => Eq
  end.

Definition keys_le {A} (a b : list value * A) : Prop := keys_order b.1 a.1 ≠ Lt.
#[export] Instance keys_le_dec {A} (a b : list value * A) : Decision (keys_le a b).
Proof. unfold keys_le. destruct (keys_order b.1 a.1); (left; congruence) || (right; congruence). Defined.

Section Sql.
Context `{Postgres}.

(** ** Expressions *)

(** The server, the snapshot, the bound parameters, and what [gen_random_uuid()]
    draws here. *)
Record ctx : Type := mkCtx { cx_env : StmtEnv; cx_db : Db; cx_params : list value; cx_uuid : string }.

(** The rows in scope, innermost first, by alias. *)
Definition scope : Type := list (string * (string * Row)).

Definition in_scope (sc : scope) (alias : option string) : sql (string * Row) :=
  match alias, sc with
  | None, (_, ir) :: _ => inl ir
  | None, [] => inr "42703"
  | Some a, _ => match List.find (λ p, String.eqb p.1 a) sc with Some p => inl p.2 | None => inr "42P01" end
  end.

Definition apply_fn (cx : ctx) (f : fn) (args : list value) : sql value :=
  match f, args with
  | Fnow, [] => inl (VTime (cx_env cx).(e_now))
  | Fclock_timestamp, [] => inl (VTime (cx_env cx).(e_clk))
  | Fgen_random_uuid, [] => inl (VUuid (cx_uuid cx))
  | Fmake_interval, [VFloat d] => inl (VInterval (interval_us d))
  | Fcoalesce, _ => inl (default VNull (List.find (λ v, match v with VNull => false | _ => true end) args))
  | _, _ => inr "42883"
  end.

(** Casts of what stands before the double colon in the texts: parameters, which
    have that type when bound, and two literals. *)
Definition v_cast (v : value) (ty : sqltype) : sql value :=
  match v, ty with
  | VNull, _ => inl VNull
  | VUuid _, Tuuid | VFloat _, Tfloat8 | VJson _, Tjsonb | VBytes _, Tbytea | VText _, Ttext | VArray _, Tuuids => inl v
  | VText s, Tbytea => if String.eqb s EmptyString then inl (VBytes []) else inr unsupported
  | VText s, Tjsonb => if String.eqb s "{}" then inl (VJson (JObj [])) else inr unsupported
  | _, _ => inr unsupported
  end.

(** [unnest] of two arrays: the rows, the shorter one padded with NULLs. *)
Fixpoint unnest2 (l1 l2 : list value) : list value :=
  match l1, l2 with
  | [], [] => []
  | a :: l1', [] => VTuple [a; VNull] :: unnest2 l1' []
  | [], b :: l2' => VTuple [VNull; b] :: map (λ b', VTuple [VNull; b']) l2'
  | a :: l1', b :: l2' => VTuple [a; b] :: unnest2 l1' l2'
  end.

Definition is_table (t : tname) (db : Db) : bool :=
  String.eqb (Quote (t_schema t) +:+ "." +:+ t_table t) (table_name db).

Definition v_add (a b : value) : sql value :=
  match a, b with
  | VNull, _ | _, VNull => inl VNull
  | VInt x, VInt y => if int4_ok (x + y) then inl (VInt (x + y)) else inr "22003"
  | VTime t, VInterval i => inl (VTime (t + i))
  | _, _ => inr type_error
  end.
Definition v_sub (a b : value) : sql value :=
  match a, b with
  | VNull, _ | _, VNull => inl VNull
  | VTime t, VInterval i => inl (VTime (t - i))
  | _, _ => inr unsupported
  end.

Definition v_limit (v : value) : sql (option nat) :=
  match v with
  | VNull => inl None
  | VInt z => if z <? 0 then inr "2201W" else inl (Some (Z.to_nat z))
  | _ => inr type_error
  end.

Fixpoint eval (cx : ctx) (sc : scope) (e : expr) {struct e} : sql value :=
  match e with
  | ECol alias c => ir ← in_scope sc alias; inl (col_value c ir)
  | EParam n => match cx_params cx !! N.to_nat (n - 1) with Some v => inl v | None => inr "42P02" end
  | EStr s => inl (VText s)
  | EInt n => inl (VInt (Z.of_N n))
  | ENull => inl VNull
  | EStar => inr unsupported
  | ECall f args => vs ← map_sql (eval cx sc) args; apply_fn cx f vs
  | ECmp o a b => x ← eval cx sc a; y ← eval cx sc b; v_compare o x y
  | EAdd a b => x ← eval cx sc a; y ← eval cx sc b; v_add x y
  | ESub a b => x ← eval cx sc a; y ← eval cx sc b; v_sub x y
  | EAnd a b => x ← eval cx sc a; y ← eval cx sc b; v_and x y
  | EOr a b => x ← eval cx sc a; y ← eval cx sc b; v_or x y
  | ENot a => x ← eval cx sc a; v_not x
  | EIsNull a => x ← eval cx sc a; inl (VBool (match x with VNull => true | _ => false end))
  | EIn a l => x ← eval cx sc a; vs ← map_sql (eval cx sc) l; v_in x vs
  | EInQuery a q => x ← eval cx sc a; vs ← eval_query cx sc q; v_in x vs
  | EExists q => vs ← eval_query cx sc q; inl (VBool (match vs with [] => false | _ => true end))
  | ETuple l => vs ← map_sql (eval cx sc) l; inl (VTuple vs)
  | ECase c a b => x ← eval cx sc c; t ← truth x; if t : bool then eval cx sc a else eval cx sc b
  | ECast a ty => x ← eval cx sc a; v_cast x ty
  end
with eval_query (cx : ctx) (sc : scope) (q : query) {struct q} : sql (list value) :=
  match q with
  | QTable sel t alias w order lim skip =>
      if negb (is_table t (cx_db cx)) then inr "42P01" else
      hits ← filter_sql (λ ir, v ← eval cx ((alias, ir) :: sc) w; truth v) (map_to_list (rows (cx_db cx)));
      keyed ← map_sql (λ ir, ks ← map_sql (eval cx ((alias, ir) :: sc)) order; ks' ← map_sql sortable ks; inl (ks', ir)) hits;
      let sorted := map snd (merge_sort keys_le keyed) in
      let free := if skip then filter (λ ir, ir.1 ∉ (cx_env cx).(e_locked)) sorted else sorted in
      n ← (match lim with Some e => v ← eval cx sc e; v_limit v | None => inl None end);
      map_sql (λ ir, eval cx ((alias, ir) :: sc) sel) (match n with Some n => take n free | None => free end)
  | QCall sel f args =>
      vs ← map_sql (eval cx sc) args;
      match sel, f, vs with
      | EStar, Funnest, [VArray l1; VArray l2] => inl (unnest2 l1 l2)
      | _, _, _ => inr unsupported
      end
  end.

(** ** Statements *)

(** The new table, the rows sent back, and the number in the command tag. *)
Record answer : Type := mkAnswer { a_db : Db; a_rows : list (list value); a_affected : Z }.

Definition alias_of (t : tname) (ir : string * Row) : scope := [(t_table t, ir)].

Definition matching (cx : ctx) (t : tname) (w : expr) : sql (list (string * Row)) :=
  filter_sql (λ ir, v ← eval cx (alias_of t ir) w; truth v) (map_to_list (rows (cx_db cx))).

(** Assignments read the old row. *)
Definition assign (cx : ctx) (t : tname) (sets : list (column * expr)) (ir : string * Row) : sql (string * Row) :=
  let cx' := mkCtx (cx_env cx) (cx_db cx) (cx_params cx) ((cx_env cx).(e_token) ir.1) in
  vs ← map_sql (λ s, v ← eval cx' (alias_of t ir) s.2; inl (s.1, v)) sets;
  r ← set_cols vs ir.2;
  inl (ir.1, r).

Definition run_UPDATE (cx : ctx) (t : tname) (sets : list (column * expr)) (w : expr) : sql (Db * list (string * Row)) :=
  hits ← matching cx t w;
  new ← map_sql (assign cx t sets) hits;
  inl (with_rows (cx_db cx) (list_to_map new ∪ rows (cx_db cx)), returning new).

(** *** INSERT *)

(** The column defaults of the migrations; [topic] and [payload] have none. *)
Definition default_row (cx : ctx) : Row :=
  mkRow EmptyString None [] (JObj []) None None StatusPending 0 None None None (cx_env cx).(e_now) None
    (cx_env cx).(e_now) None None None (next_seq (cx_db cx)).

Definition value_of (c : column) (vs : list (column * value)) : option value :=
  snd <$> List.find (λ cv, bool_decide (cv.1 = c)) vs.

(** Number [i] of the tuples, with ON CONFLICT (id) DO NOTHING: [seq] is drawn
    for a row that conflicts, too. *)
Definition insert_values (cx : ctx) (cs : list column) (i : nat) (tu : list expr) (db : Db) : sql Db :=
  let cx' := mkCtx (cx_env cx) db (cx_params cx) ((cx_env cx).(e_id) i) in
  if negb (length cs =? length tu)%nat then inr "42601" else
  vs ← map_sql (eval cx' []) tu;
  let cvs := zip cs vs in
  match value_of Cid cvs, value_of Ctopic cvs, value_of Cpayload cvs with
  | Some v, Some _, Some _ =>
      id ← not_null as_uuid v;
      r ← set_cols (List.filter (λ cv, negb (bool_decide (cv.1 = Cid))) cvs) (default_row cx');
      inl (mkDb (table_name db)
             (match rows db !! id with Some _ => rows db | None => <[id := r]> (rows db) end)
             (next_seq db + 1) (notified db))
  | None, _, _ => inr unsupported
  | _, _, _ => inr "23502"
  end.

Fixpoint run_INSERT (cx : ctx) (cs : list column) (i : nat) (tuples : list (list expr)) (db : Db) : sql Db :=
  match tuples with
  | [] => inl db
  | tu :: tuples' => db' ← insert_values cx cs i tu db; run_INSERT cx cs (S i) tuples' db'
  end.

Definition run_stmt (cx : ctx) (s : stmt) : sql answer :=
  match s with
  | SUpdate t sets w ret =>
      '(db, new) ← run_UPDATE cx t sets w;
      inl (mkAnswer db (match ret with [] => [] | _ => map (λ ir, map (λ c, col_value c ir) ret) new end)
             (Z.of_nat (length new)))
  | SDelete t w =>
      hits ← matching cx t w;
      inl (mkAnswer (with_rows (cx_db cx) (filter (λ ir, ir.1 ∉ hits.*1) (rows (cx_db cx)))) []
             (Z.of_nat (length hits)))
  | SWith cte (SUpdate t sets w (_ :: _)) (ECall Fpg_notify [EStr channel; EStr _]) from =>
      if negb (String.eqb cte from) then inr "42P01" else
      '(db, new) ← run_UPDATE cx t sets w;
      let sent := if String.eqb channel NotifyChannel then length new else O in
      inl (mkAnswer (mkDb (table_name db) (rows db) (next_seq db) (sent + notified db)%nat)
             (map (λ _, [VVoid]) new) (Z.of_nat (length new)))
  | SInsert t cs tuples Cid =>
      db ← run_INSERT cx cs 0 tuples (cx_db cx);
      (* the trigger of the migrations, once for the statement *)
      inl (mkAnswer (mkDb (table_name db) (rows db) (next_seq db) (S (notified db))) []
             (Z.of_nat (size (rows db)) - Z.of_nat (size (rows (cx_db cx)))))
  | _ => inr unsupported
  end.

(** ** Parameters *)

(** What the Go code passes for a parameter. *)
Inductive bound : Type :=
| BArg (a : arg)
| BFloat (d : duration)      (* d.Seconds() *)
| BBool (b : bool)
| BTexts (l : list string).

(** The type of a parameter, from the places where it stands: a cast, the column
    or literal it is compared with or assigned to, a condition, an interval. *)
Definition static_type (e : expr) : option sqltype :=
  match e with
  | ECol _ c => Some (col_type c)
  | EStr _ => Some Ttext
  | ECast _ ty => Some ty
  | _ => None
  end.

Definition typed (e : expr) (ty : option sqltype) : list (N * sqltype) :=
  match e, ty with EParam n, Some ty => [(n, ty)] | _, _ => [] end.

Fixpoint uses (e : expr) : list (N * sqltype) :=
  match e with
  | ECol _ _ | EParam _ | EStr _ | EInt _ | ENull | EStar => []
  | ECall Fmake_interval [a] => typed a (Some Tfloat8)
  | ECall _ l | ETuple l => flat_map uses l
  | ECmp _ a b => (typed a (static_type b) ++ typed b (static_type a) ++ uses a ++ uses b)%list
  | EAdd a b | ESub a b => (uses a ++ uses b)%list
  | EAnd a b | EOr a b => (typed a (Some Tbool) ++ typed b (Some Tbool) ++ uses a ++ uses b)%list
  | ENot a | EIsNull a => uses a
  | EIn a l => (typed a (match l with b :: _ => static_type b | [] => None end) ++ uses a ++ flat_map uses l)%list
  | EInQuery a q => (uses a ++ uses_query q)%list
  | EExists q => uses_query q
  | ECase c a b => (uses c ++ uses a ++ uses b)%list
  | ECast a ty => (typed a (Some ty) ++ uses a)%list
  end
with uses_query (q : query) : list (N * sqltype) :=
  match q with
  | QTable sel _ _ w order lim _ =>
      (uses sel ++ uses w ++ flat_map uses order ++
       match lim with Some e => typed e (Some Tint8) ++ uses e | None => [] end)%list
  | QCall _ _ args => flat_map uses args
  end.

Definition uses_set (s : column * expr) : list (N * sqltype) := (typed s.2 (Some (col_type s.1)) ++ uses s.2)%list.

Fixpoint uses_stmt (s : stmt) : list (N * sqltype) :=
  match s with
  | SUpdate _ sets w _ => (flat_map uses_set sets ++ uses w)%list
  | SDelete _ w => uses w
  | SWith _ u sel _ => (uses_stmt u ++ uses sel)%list
  | SInsert _ cs tuples _ => flat_map (λ tu, flat_map uses_set (zip cs tu)) tuples
  end.

Definition data_exception : string := "22000".
Definition checked {A} (ok : bool) (a : A) : sql A := if ok then inl a else inr data_exception.
Definition from_option {A} (o : option A) : sql A := match o with Some a => inl a | None => inr data_exception end.

Definition bind_value (ty : sqltype) (b : bound) : sql value :=
  match ty, b with
  | (Tuuid | Ttext | Tbytea | Tjsonb | Tint4 | Tint8), BArg ANull => inl VNull
  | Ttext, BArg (AText s) => checked (text_in s) (VText s)
  | Tuuid, BArg (AText s) => id ← from_option (uuid_in s); inl (VUuid id)
  | Tbytea, BArg (ABytes x) => inl (VBytes x)
  | Tjsonb, BArg (AJson j) => checked (jsonb_in j) (VJson j)
  | Tint4, BArg (AInt z) => checked (int4_ok z) (VInt z)
  | Tint8, BArg (AInt z) => inl (VInt z)
  | Tfloat8, BFloat d => inl (VFloat d)
  | Tbool, BBool x => inl (VBool x)
  | Tuuids, BTexts l => ids ← from_option (mapM uuid_in l); inl (VArray (map VUuid ids))
  | _, _ => inr data_exception
  end.

(** The n-th argument at the type of the n-th parameter. *)
Fixpoint bind_args (us : list (N * sqltype)) (n : N) (args : list bound) : sql (list value) :=
  match args with
  | [] => inl []
  | b :: args' =>
      match List.find (λ u, N.eqb u.1 n) us with
      | Some u => v ← bind_value u.2 b; vs ← bind_args us (n + 1) args'; inl (v :: vs)
      | None => inr "42P18"
      end
  end.

(** ** A text and its arguments *)

(** Enough for any text: no list has more items than characters. *)
Definition parse_fuel (text : string) : nat := 40 + String.length text.

Definition target (s : stmt) : tname :=
  match s with
  | SUpdate t _ _ _ | SDelete t _ | SInsert t _ _ _ | SWith _ (SUpdate t _ _ _) _ _ => t
  | SWith _ _ _ _ => mkTname EmptyString EmptyString
  end.

(** Parse, find the table, bind the arguments if they are not too many, execute. *)
Definition run_text (e : StmtEnv) (text : string) (args : list bound) (db : Db) : sql answer :=
  match parse (parse_fuel text) text with
  | Some s =>
      if negb (is_table (target s) db) then inr "42P01" else
      if max_params <? Z.of_nat (length args) then inr too_many_params else
      params ← bind_args (uses_stmt s) 1 args; run_stmt (mkCtx e db params EmptyString) s
  | None => inr "42601"
  end.
End Sql.
