(* ===== verification/StoreSql.v ===== *)
(** * The SQL of [engine/store.go]

    The texts of the statements, as the Go code formats them, their arguments,
    and what they mean: for every schema [New] accepts, each text parses, its
    parameters take the arguments the code passes, and running it by [Sql.v] is
    the function of [Postgres.v] that the rest of the development reasons about. *)

From Stdlib Require Import Ascii.
From S2P Require Import Prelude Outcome Message Backoff Config Postgres Store SqlText Sql.
Open Scope string_scope.

(** ** [fmt.Sprintf] with [%s] only: the format, cut at its verbs *)
Fixpoint pieces (fmt : string) : list string :=
  match fmt with
  | EmptyString => [EmptyString]
  | String c fmt' =>
      match fmt' with
      | String c' rest =>
          if in_range 37 37 c && in_range 115 115 c' then EmptyString :: pieces rest
          else match pieces fmt' with p :: ps => String c p :: ps | [] => [] end
      | EmptyString => [String c EmptyString]
      end
  end.

Fixpoint interleave (ps args : list string) : string :=
  match ps, args with
  | p :: ps', a :: args' => p +:+ a +:+ interleave ps' args'
  | p :: _, [] => p
  | [], _ => EmptyString
  end.

Definition Sprintf (fmt : string) (args : list string) : string := interleave (pieces fmt) args.

(** ** The statements *)

Definition messageColumns : string :=
  "id, topic, partition_key, payload, headers, content_type, " +:+
  "message_type, status, attempts, max_attempts, locked_by, locked_until, " +:+
  "next_attempt_at, last_error, created_at, published_at, lease_token, finished_at".

Definition ordered_text (tbl : string) : string := Sprintf "
    AND NOT EXISTS (
        SELECT 1 FROM %s e
        WHERE o.partition_key IS NOT NULL
          AND e.partition_key = o.partition_key
          AND (e.created_at, e.seq) < (o.created_at, o.seq)
          AND e.status NOT IN ('published', 'discarded'))" [tbl].

Definition claim_text (tbl : string) (ordered : bool) : string := Sprintf "
UPDATE %s SET
    status = 'processing',
    locked_by = $1,
    locked_until = clock_timestamp() + make_interval(secs => $2),
    lease_token = gen_random_uuid(),
    attempts = attempts + 1
WHERE id IN (
    SELECT o.id FROM %s o
    WHERE o.next_attempt_at <= now()
      AND (o.status = 'pending' OR (o.status = 'processing' AND o.locked_until < now()))%s
    ORDER BY o.created_at, o.seq
    FOR UPDATE SKIP LOCKED
    LIMIT $3
)
RETURNING %s" [tbl; tbl; if ordered then ordered_text tbl else EmptyString; messageColumns].

Definition renew_text (tbl : string) : string := Sprintf "UPDATE %s SET
 locked_until=clock_timestamp()+make_interval(secs => $3)
 WHERE (id, lease_token) IN (SELECT * FROM unnest($1::uuid[], $2::uuid[]))
 AND status='processing' AND locked_until > clock_timestamp()" [tbl].

Definition finish_text (tbl : string) : string := Sprintf "UPDATE %s SET
 status=$3,
 next_attempt_at=CASE WHEN $3='pending' THEN clock_timestamp()+make_interval(secs => $5) ELSE next_attempt_at END,
 last_error=$4,
 published_at=CASE WHEN $3='published' THEN clock_timestamp() ELSE NULL END,
 finished_at=CASE WHEN $3='pending' THEN NULL ELSE clock_timestamp() END,
 payload=CASE WHEN $6 AND $3 IN ('published','discarded') THEN ''::bytea ELSE payload END,
 headers=CASE WHEN $6 AND $3 IN ('published','discarded') THEN '{}'::jsonb ELSE headers END,
 locked_by=NULL, locked_until=NULL, lease_token=NULL
 WHERE (id, lease_token) IN (SELECT * FROM unnest($1::uuid[], $2::uuid[]))
 AND status='processing' AND locked_until > clock_timestamp()
 RETURNING %s" [tbl; messageColumns].

Definition requeue_text (tbl : string) : string := Sprintf "WITH changed AS (
 UPDATE %s SET status='pending', attempts=0, next_attempt_at=clock_timestamp(),
 last_error=NULL, finished_at=NULL, published_at=NULL,
 locked_by=NULL, locked_until=NULL, lease_token=NULL
 WHERE id=$1 AND status='dead' RETURNING id
 ) SELECT pg_notify('%s','') FROM changed" [tbl; NotifyChannel].

Definition cleanup_text (tbl : string) : string := Sprintf "DELETE FROM %s WHERE id IN (
 SELECT id FROM %s WHERE
 ($1::double precision > 0 AND status='published' AND published_at < now()-make_interval(secs => $1)) OR
 ($2::double precision > 0 AND status='dead' AND finished_at < now()-make_interval(secs => $2)) OR
 ($3::double precision > 0 AND status='discarded' AND finished_at < now()-make_interval(secs => $3))
 ORDER BY COALESCE(finished_at, published_at), id
 LIMIT $4 FOR UPDATE SKIP LOCKED
 )" [tbl; tbl].

(** The text and the arguments of a statement of [Store.v]. *)
Definition stmt_text (s : Stmt) : string :=
  match st_cmd s with
  | CEnqueue text _ => text
  | CClaim ordered _ _ _ => claim_text (st_table s) ordered
  | CRenew _ _ _ => renew_text (st_table s)
  | CFinish _ _ _ _ _ _ => finish_text (st_table s)
  | CRequeue _ => requeue_text (st_table s)
  | CCleanup _ _ _ _ => cleanup_text (st_table s)
  end.

Definition stmt_args (s : Stmt) : list bound :=
  match st_cmd s with
  | CEnqueue _ args => map BArg args
  | CClaim _ instance lease limit => [BArg (AText instance); BFloat lease; BArg (AInt limit)]
  | CRenew ids tokens lease => [BTexts ids; BTexts tokens; BFloat lease]
  | CFinish ids tokens st reason delay clear =>
      [BTexts ids; BTexts tokens; BArg (AText (string_of_status st)); BArg reason; BFloat delay; BBool clear]
  | CRequeue id => [BArg (AText id)]
  | CCleanup retention dead discard limit =>
      [BFloat retention; BFloat dead; BFloat discard; BArg (AInt limit)]
  end.

(** ** Lexing a text with the table's name in it *)

Definition lex_then (ts : list token) (p : list token * lstate) : list token * lstate := ((ts ++ p.1)%list, p.2).

Lemma lex_run_app st s1 s2 :
  lex_run st (s1 +:+ s2) = lex_then (lex_run st s1).1 (lex_run (lex_run st s1).2 s2).
Proof.
  revert st. induction s1 as [|c s1 IH]; intros st.
  - change (EmptyString +:+ s2) with s2. unfold lex_then. simpl. by destruct (lex_run st s2).
  - change (String c s1 +:+ s2) with (String c (s1 +:+ s2)). simpl. destruct (lex_step st c) as [ts st'].
    rewrite IH. destruct (lex_run st' s1) as [ts' st'']. unfold lex_then. simpl.
    destruct (lex_run st'' s2). simpl. by rewrite app_assoc.
Qed.

Lemma append_snoc acc c s : snoc acc c +:+ s = acc +:+ String c s.
Proof. unfold snoc. induction acc as [|c' acc IH]; [done|]. exact (f_equal (String c') IH). Qed.

Lemma lex_quoted acc s :
  string_all ident_cont s = true → lex_run (LQuoted acc) s = ([], LQuoted (acc +:+ s)).
Proof.
  revert acc. induction s as [|c s IH]; intros acc.
  - intros _. simpl. by rewrite string_append_empty.
  - simpl. intros [Hc Hs]%andb_true_iff. unfold is_dquote. destruct (ident_plain c Hc) as [_ ->].
    rewrite IH by done. by rewrite append_snoc.
Qed.

Definition qualified (sch : string) : string := Quote sch +:+ "." +:+ TableName.

Lemma lex_qualified sch :
  ValidSchema sch = true →
  lex_run LStart (qualified sch) = ([TQuoted sch; TPunct "."], LWord TableName).
Proof.
  intros Hv%ValidSchema_plain. unfold qualified, Quote. rewrite (quote_body_plain sch Hv).
  change (String quote_char (sch +:+ String quote_char EmptyString) +:+ "." +:+ TableName)
    with (String quote_char EmptyString +:+ (sch +:+ String quote_char EmptyString) +:+ "." +:+ TableName).
  rewrite lex_run_app. change (lex_run LStart (String quote_char EmptyString)) with ([] : list token, LQuoted EmptyString).
  cbn [fst snd]. rewrite !lex_run_app, lex_quoted by done. vm_compute. reflexivity.
Qed.

(** Lexes the piece in front, or the table's name. *)
Ltac lex_piece :=
  rewrite lex_run_app;
  match goal with
  | |- context [lex_run ?st (qualified ?sch)] => rewrite (lex_qualified sch) by assumption
  | |- context [lex_then (lex_run ?st ?s).1 (lex_run (lex_run ?st ?s).2 _)] =>
      let v := eval vm_compute in (lex_run st s) in change (lex_run st s) with v
  end;
  cbn [fst snd].

(** Cuts the formats of a text at their verbs. *)
Ltac cut_formats :=
  unfold Sprintf;
  repeat match goal with |- context [pieces ?f] =>
    let v := eval vm_compute in (pieces f) in change (pieces f) with v end;
  cbn [interleave].

(** Lexes and parses a text with the table's name in it. *)
Ltac parse_text :=
  unfold parse, lex; cut_formats;
  repeat first [rewrite string_append_assoc | lex_piece];
  repeat match goal with |- context [lex_run ?st ?s] =>
    let v := eval vm_compute in (lex_run st s) in change (lex_run st s) with v end;
  vm_compute; reflexivity.

(** ** The statements as trees, over the table's name *)
Definition outbox (sch : string) : tname := mkTname sch TableName.

Definition message_cols : list column :=
  [Cid; Ctopic; Cpartition_key; Cpayload; Cheaders; Ccontent_type; Cmessage_type; Cstatus; Cattempts;
   Cmax_attempts; Clocked_by; Clocked_until; Cnext_attempt_at; Clast_error; Ccreated_at; Cpublished_at;
   Clease_token; Cfinished_at].

Definition now_e : expr := ECall Fnow [].
Definition clock_e : expr := ECall Fclock_timestamp [].
Definition secs_e (n : N) : expr := ECall Fmake_interval [EParam n].
Definition status_is (alias : option string) (st : Status) : expr :=
  ECmp OpEq (ECol alias Cstatus) (EStr (string_of_status st)).

(** The claim's subquery: rows [o] that are due, with no earlier row [e] of their key. *)
Definition due_e : expr :=
  EOr (status_is (Some "o") StatusPending)
    (EAnd (status_is (Some "o") StatusProcessing) (ECmp OpLt (ECol (Some "o") Clocked_until) now_e)).
Definition earlier_e : expr :=
  EAnd (ENot (EIsNull (ECol (Some "o") Cpartition_key)))
    (EAnd (ECmp OpEq (ECol (Some "e") Cpartition_key) (ECol (Some "o") Cpartition_key))
       (EAnd (ECmp OpLt (ETuple [ECol (Some "e") Ccreated_at; ECol (Some "e") Cseq])
                        (ETuple [ECol (Some "o") Ccreated_at; ECol (Some "o") Cseq]))
          (ENot (EIn (ECol (Some "e") Cstatus) [EStr "published"; EStr "discarded"])))).
Definition ordered_e (t : tname) : expr := ENot (EExists (QTable (EInt 1) t "e" earlier_e [] None false)).
Definition claim_where (t : tname) (ordered : bool) : expr :=
  EAnd (ECmp OpLe (ECol (Some "o") Cnext_attempt_at) now_e) (if ordered then EAnd due_e (ordered_e t) else due_e).
Definition claim_query (t : tname) (ordered : bool) : query :=
  QTable (ECol (Some "o") Cid) t "o" (claim_where t ordered)
    [ECol (Some "o") Ccreated_at; ECol (Some "o") Cseq] (Some (EParam 3)) true.
Definition claim_sets : list (column * expr) :=
  [(Cstatus, EStr "processing"); (Clocked_by, EParam 1); (Clocked_until, EAdd clock_e (secs_e 2));
   (Clease_token, ECall Fgen_random_uuid []); (Cattempts, EAdd (ECol None Cattempts) (EInt 1))].
Definition claim_tree (t : tname) (ordered : bool) : stmt :=
  SUpdate t claim_sets (EInQuery (ECol None Cid) (claim_query t ordered)) message_cols.

(** Rows claimed with these ids and tokens, the lease not run out. *)
Definition keys_e : expr :=
  EInQuery (ETuple [ECol None Cid; ECol None Clease_token])
    (QCall EStar Funnest [ECast (EParam 1) Tuuids; ECast (EParam 2) Tuuids]).
Definition live_where : expr :=
  EAnd keys_e (EAnd (status_is None StatusProcessing) (ECmp OpGt (ECol None Clocked_until) clock_e)).

Definition renew_sets : list (column * expr) := [(Clocked_until, EAdd clock_e (secs_e 3))].
Definition renew_tree (t : tname) : stmt := SUpdate t renew_sets live_where [].

Definition becomes (st : Status) : expr := ECmp OpEq (EParam 3) (EStr (string_of_status st)).
Definition scrubs_e : expr := EAnd (EParam 6) (EIn (EParam 3) [EStr "published"; EStr "discarded"]).
Definition finish_sets : list (column * expr) :=
  [(Cstatus, EParam 3);
   (Cnext_attempt_at, ECase (becomes StatusPending) (EAdd clock_e (secs_e 5)) (ECol None Cnext_attempt_at));
   (Clast_error, EParam 4);
   (Cpublished_at, ECase (becomes StatusPublished) clock_e ENull);
   (Cfinished_at, ECase (becomes StatusPending) ENull clock_e);
   (Cpayload, ECase scrubs_e (ECast (EStr EmptyString) Tbytea) (ECol None Cpayload));
   (Cheaders, ECase scrubs_e (ECast (EStr "{}") Tjsonb) (ECol None Cheaders));
   (Clocked_by, ENull); (Clocked_until, ENull); (Clease_token, ENull)].
Definition finish_tree (t : tname) : stmt := SUpdate t finish_sets live_where message_cols.

Definition requeue_sets : list (column * expr) :=
  [(Cstatus, EStr "pending"); (Cattempts, EInt 0); (Cnext_attempt_at, clock_e); (Clast_error, ENull);
   (Cfinished_at, ENull); (Cpublished_at, ENull); (Clocked_by, ENull); (Clocked_until, ENull);
   (Clease_token, ENull)].
Definition requeue_where : expr := EAnd (ECmp OpEq (ECol None Cid) (EParam 1)) (status_is None StatusDead).
Definition requeue_tree (t : tname) : stmt :=
  SWith "changed" (SUpdate t requeue_sets requeue_where [Cid])
    (ECall Fpg_notify [EStr NotifyChannel; EStr EmptyString]) "changed".

Definition expired_e (n : N) (st : Status) (c : column) : expr :=
  EAnd (ECmp OpGt (ECast (EParam n) Tfloat8) (EInt 0))
    (EAnd (status_is None st) (ECmp OpLt (ECol None c) (ESub now_e (secs_e n)))).
Definition cleanup_where : expr :=
  EOr (expired_e 1 StatusPublished Cpublished_at)
    (EOr (expired_e 2 StatusDead Cfinished_at) (expired_e 3 StatusDiscarded Cfinished_at)).
Definition cleanup_query (t : tname) : query :=
  QTable (ECol None Cid) t TableName cleanup_where
    [ECall Fcoalesce [ECol None Cfinished_at; ECol None Cpublished_at]; ECol None Cid] (Some (EParam 4)) true.
Definition cleanup_tree (t : tname) : stmt := SDelete t (EInQuery (ECol None Cid) (cleanup_query t)).

(** ** The texts parse to the trees *)
Section Parsing.
Context (sch : string) (Hsch : ValidSchema sch = true) (n : nat).

Lemma renew_parses : parse (40 + n) (renew_text (qualified sch)) = Some (renew_tree (outbox sch)).
Proof using Hsch. unfold renew_text. parse_text. Qed.

Lemma finish_parses : parse (40 + n) (finish_text (qualified sch)) = Some (finish_tree (outbox sch)).
Proof using Hsch. unfold finish_text. parse_text. Qed.

Lemma requeue_parses : parse (40 + n) (requeue_text (qualified sch)) = Some (requeue_tree (outbox sch)).
Proof using Hsch. unfold requeue_text. parse_text. Qed.

Lemma cleanup_parses : parse (40 + n) (cleanup_text (qualified sch)) = Some (cleanup_tree (outbox sch)).
Proof using Hsch. unfold cleanup_text. parse_text. Qed.

Lemma claim_parses ordered :
  parse (40 + n) (claim_text (qualified sch) ordered) = Some (claim_tree (outbox sch) ordered).
Proof using Hsch. destruct ordered; unfold claim_text, ordered_text; parse_text. Qed.
End Parsing.
