(* ===== verification/SqlMeaning.v ===== *)
(** * What the store's statements mean

    The trees of [StoreSql.v] under the semantics of [Sql.v] are the functions of
    [Postgres.v]: the same rows match, the same rows are written and sent back,
    the same failures occur. *)

From S2P Require Import Prelude Outcome Message Backoff Config Postgres Store SqlText Sql StoreSql.

Open Scope string_scope.
Open Scope Z_scope.

#[local] Arguments cmp_result : simpl never.
#[local] Arguments uuid_compare : simpl never.

(** ** Mapping, filtering and sorting *)

Lemma filter_sql_pure {A} (f : A → sql bool) (p : A → bool) l :
  (∀ a, f a = inl (p a)) → filter_sql f l = inl (filter (λ a, p a = true) l).
Proof.
  intros Hf. induction l as [|a l IH]; [done|]. simpl. rewrite Hf. simpl. rewrite IH. simpl.
  rewrite filter_cons. by destruct (p a).
Qed.

Lemma map_sql_guard {A B} (f : A → sql B) (ok : A → bool) (g : A → B) c l :
  (∀ a, f a = if ok a then inl (g a) else inr c) →
  map_sql f l = if forallb ok l then inl (map g l) else inr c.
Proof.
  intros Hf. induction l as [|a l IH]; [done|]. simpl. rewrite Hf. destruct (ok a); [|done].
  simpl. rewrite IH. by destruct (forallb ok l).
Qed.

Lemma map_sql_pure {A B} (f : A → sql B) (g : A → B) l : (∀ a, f a = inl (g a)) → map_sql f l = inl (map g l).
Proof. intros Hf. induction l as [|a l IH]; [done|]. simpl. rewrite Hf. simpl. by rewrite IH. Qed.

(** Sorting decorated values sorts the values. *)
Section Decorated.
Context {A B} (R : relation A) (S : relation B) `{∀ a b, Decision (R a b)} `{∀ a b, Decision (S a b)} (f : A → B).
Context (HRS : ∀ a b, R a b ↔ S (f a) (f b)).

Lemma map_list_merge l1 l2 : map f (list_merge R l1 l2) = list_merge S (map f l1) (map f l2).
Proof using HRS.
  revert l2. induction l1 as [|a l1 IH1]; intros l2; [by destruct l2|].
  induction l2 as [|b l2 IH2]; [done|]. simpl.
  destruct (decide (R a b)) as [Hr|Hr]; destruct (decide (S (f a) (f b))) as [Hs|Hs]; try by rewrite HRS in Hr.
  - simpl. f_equal. apply IH1.
  - simpl. f_equal. apply IH2.
Qed.

Let map_stack : list (option (list A)) → list (option (list B)) := map (option_map (map f)).

Lemma map_to_stack st l :
  map_stack (merge_list_to_stack R st l) = merge_list_to_stack S (map_stack st) (map f l).
Proof using HRS.
  revert l. induction st as [|[l'|] st IH]; intros l; [done| |done]. simpl.
  f_equal. rewrite <-map_list_merge. apply IH.
Qed.

Lemma map_merge_stack st : map f (merge_stack R st) = merge_stack S (map_stack st).
Proof using HRS. induction st as [|[l|] st IH]; [done| |done]. simpl. by rewrite map_list_merge, IH. Qed.

Lemma map_merge_sort l : map f (merge_sort R l) = merge_sort S (map f l).
Proof using HRS.
  unfold merge_sort. change (@nil (option (list B))) with (map_stack []).
  generalize (@nil (option (list A))) as st. induction l as [|a l IH]; intros st; simpl.
  - apply map_merge_stack.
  - rewrite IH, map_to_stack. done.
Qed.
End Decorated.

(** ** Conditions *)

Lemma truth_and a b p q : truth a = inl p → truth b = inl q → (v_and a b ≫= truth) = inl (p && q).
Proof. destruct a as [|[]| | | | | | | | | | |], b as [|[]| | | | | | | | | | |]; naive_solver. Qed.

Lemma truth_or a b p q : truth a = inl p → truth b = inl q → (v_or a b ≫= truth) = inl (p || q).
Proof. destruct a as [|[]| | | | | | | | | | |], b as [|[]| | | | | | | | | | |]; naive_solver. Qed.

Lemma status_eqb s st :
  String.eqb (string_of_status s) (string_of_status st) = bool_decide (s = st).
Proof. by destruct s, st. Qed.

Lemma cmp_lt x y : cmp_result OpLt (x ?= y) = (x <? y).
Proof. unfold Z.ltb. by destruct (x ?= y). Qed.
Lemma cmp_le x y : cmp_result OpLe (x ?= y) = (x <=? y).
Proof. unfold Z.leb. by destruct (x ?= y). Qed.
Lemma cmp_gt x y : cmp_result OpGt (x ?= y) = (y <? x).
Proof. rewrite <-Z.gtb_ltb. unfold Z.gtb. by destruct (x ?= y). Qed.
Lemma cmp_uuid x y : cmp_result OpEq (uuid_compare x y) = String.eqb x y.
Proof. unfold uuid_compare. destruct (String.eqb x y); [done|]. by destruct (String.leb x y). Qed.

Section Meaning.
Context `{Postgres}.

(** The condition [w] holds in the row exactly when [b]. *)
Definition cond (cx : ctx) (sc : scope) (w : expr) (b : bool) : Prop := (eval cx sc w ≫= truth) = inl b.

Lemma cond_inv cx sc w b : cond cx sc w b → ∃ v, eval cx sc w = inl v ∧ truth v = inl b.
Proof. unfold cond. destruct (eval cx sc w) as [v|]; [eauto|done]. Qed.

Lemma cond_and cx sc a b p q : cond cx sc a p → cond cx sc b q → cond cx sc (EAnd a b) (p && q).
Proof.
  intros (x & Ha & Hx)%cond_inv (y & Hb & Hy)%cond_inv. unfold cond. simpl. rewrite Ha. simpl. rewrite Hb.
  by apply truth_and.
Qed.

Lemma cond_or cx sc a b p q : cond cx sc a p → cond cx sc b q → cond cx sc (EOr a b) (p || q).
Proof.
  intros (x & Ha & Hx)%cond_inv (y & Hb & Hy)%cond_inv. unfold cond. simpl. rewrite Ha. simpl. rewrite Hb.
  by apply truth_or.
Qed.

Lemma cond_status cx sc alias st ir :
  in_scope sc alias = inl ir → cond cx sc (status_is alias st) (bool_decide (status ir.2 = st)).
Proof. intros Hs. unfold cond. simpl. rewrite Hs. simpl. by rewrite status_eqb. Qed.

(** Comparisons of a column of times that may be NULL. *)
Lemma cond_time_lt cx sc a b x y :
  eval cx sc a = inl (opt_value VTime x) → eval cx sc b = inl (opt_value VTime y) →
  cond cx sc (ECmp OpLt a b) (null_lt x y).
Proof.
  intros Ha Hb. unfold cond. simpl. rewrite Ha. simpl. rewrite Hb.
  by destruct x, y; simpl; rewrite ?cmp_lt.
Qed.

Lemma cond_time_gt cx sc a b x y :
  eval cx sc a = inl (opt_value VTime x) → eval cx sc b = inl (opt_value VTime y) →
  cond cx sc (ECmp OpGt a b) (null_lt y x).
Proof.
  intros Ha Hb. unfold cond. simpl. rewrite Ha. simpl. rewrite Hb.
  by destruct x, y; simpl; rewrite ?cmp_gt.
Qed.

(** ** UPDATE *)

Lemma new_rows (t : gmap string Row) p f :
  list_to_map (map (λ ir, (ir.1, f ir.1 ir.2)) (matched p t)) ∪ t = update_rows p f t.
Proof.
  apply map_eq. intros id. rewrite lookup_union, lookup_update_rows.
  assert (NoDup (map (λ ir : string * Row, (ir.1, f ir.1 ir.2)) (matched p t)).*1) as Hnd.
  { rewrite <-list_fmap_compose. apply NoDup_fst_matched. }
  destruct (list_to_map _ !! id) as [r'|] eqn:E.
  - apply elem_of_list_to_map in E; [|done].
    apply list_elem_of_In, in_map_iff in E as ([id' r] & [= -> <-] & Hin%list_elem_of_In).
    apply elem_of_matched in Hin as [Hr Hp]. rewrite Hr. simpl. rewrite Hp. by destruct (Some _).
  - apply not_elem_of_list_to_map in E. destruct (t !! id) as [r|] eqn:Hr; [|done]. simpl.
    destruct (p id r) eqn:Hp; [|done]. exfalso. apply E.
    apply list_elem_of_fmap. exists (id, f id r). split; [done|].
    apply list_elem_of_In, in_map_iff. exists (id, r). split; [done|]. by apply list_elem_of_In, elem_of_matched.
Qed.

Lemma run_UPDATE_means cx t sets w p f ok c :
  (∀ ir, cond cx (alias_of t ir) w (p ir.1 ir.2)) →
  (∀ ir, assign cx t sets ir = if ok ir : bool then inl (ir.1, f ir.1 ir.2) else inr c) →
  run_UPDATE cx t sets w =
    let d := run_update (cx_db cx) p f in
    if forallb ok (matched p (rows (cx_db cx))) then inl (d_db d, d_rows d) else inr c.
Proof.
  intros Hw Hs. unfold run_UPDATE, matching. rewrite (filter_sql_pure _ (λ ir, p ir.1 ir.2) _ Hw). simpl.
  rewrite (map_sql_guard _ _ _ _ _ Hs). fold (matched p (rows (cx_db cx))).
  destruct (forallb ok _); [|done]. simpl. by rewrite new_rows.
Qed.

(** ** Keys *)

Lemma in_ids id sel : (v_in (VUuid id) (map VUuid sel) ≫= truth) = inl (bool_decide (id ∈ sel)).
Proof.
  enough (∃ v, v_in (VUuid id) (map VUuid sel) = inl v ∧ truth v = inl (bool_decide (id ∈ sel)))
    as (v & -> & Hv) by done.
  induction sel as [|i sel (v & Hv & Ht)]; [by eexists|]. simpl. rewrite Hv. simpl. rewrite cmp_uuid.
  pose proof (truth_or (VBool (String.eqb id i)) v _ _ eq_refl Ht) as Ho.
  destruct (v_or _ v) as [o|]; [|done]. exists o. split; [done|]. etrans; [exact Ho|]. f_equal.
  destruct (String.eqb_spec id i); destruct (bool_decide_reflect (id ∈ sel));
    destruct (bool_decide_reflect (id ∈ i :: sel)); set_solver.
Qed.

Lemma unnest_zip ids tokens :
  length ids = length tokens →
  unnest2 (map VUuid ids) (map VUuid tokens) = map (λ k, VTuple [VUuid k.1; VUuid k.2]) (zip ids tokens).
Proof.
  revert tokens. induction ids as [|i ids IH]; intros [|t tokens] Hl; try done. simpl. f_equal. apply IH. simpl in Hl. lia.
Qed.

Lemma in_keys id r keys :
  (v_in (VTuple [VUuid id; opt_value VUuid (lease_token r)]) (map (λ k, VTuple [VUuid k.1; VUuid k.2]) keys) ≫= truth)
    = inl (holds_key keys id r).
Proof.
  set (a := VTuple _). enough (∃ v, v_in a (map (λ k, VTuple [VUuid k.1; VUuid k.2]) keys) = inl v ∧
    truth v = inl (holds_key keys id r)) as (v & -> & Hv) by done.
  induction keys as [|[i t] keys (v & Hv & Ht)]; [by eexists|]. simpl. rewrite Hv. subst a. simpl. rewrite cmp_uuid.
  assert (∃ c, (if String.eqb id i then v_cmp OpEq (opt_value VUuid (lease_token r)) (VUuid t) else inl (VBool false))
               = inl c ∧ truth c = inl (String.eqb i id && null_eq (lease_token r) (Some t))) as (c & Hc & Htc).
  { rewrite String.eqb_sym. destruct (String.eqb i id); [|by eexists].
    destruct (lease_token r) as [u|]; simpl; [rewrite cmp_uuid|]; by eexists. }
  rewrite Hc. pose proof (truth_or c v _ _ Htc Ht) as Ho. simpl. destruct (v_or c v) as [o|]; [|done]. by exists o.
Qed.

(** ** SELECT ... ORDER BY ... FOR UPDATE SKIP LOCKED LIMIT *)

Section Selecting.
Context (cx : ctx) (sc : scope) (tn : tname) (alias : string) (w sel lim : expr) (order : list expr).
Context (p : string → Row → bool) (keys : string * Row → list value) (R : relation (string * Row)) `{∀ a b, Decision (R a b)}.
Context (limit : Z) (Hlimit : 0 ≤ limit).
Context (Htn : is_table tn (cx_db cx) = true).
Context (Hw : ∀ ir, cond cx ((alias, ir) :: sc) w (p ir.1 ir.2)).
Context (Hkeys : ∀ ir, (map_sql (eval cx ((alias, ir) :: sc)) order ≫= map_sql sortable) = inl (keys ir)).
Context (HR : ∀ a b, keys_le (keys a, a) (keys b, b) ↔ R a b).
Context (Hlim : eval cx sc lim = inl (VInt limit)).
Context (Hsel : ∀ ir, eval cx ((alias, ir) :: sc) sel = inl (VUuid ir.1)).

Lemma query_means :
  eval_query cx sc (QTable sel tn alias w order (Some lim) true) =
    inl (map VUuid (skip_locked_limit (e_locked (cx_env cx)) limit
                      (merge_sort R (matched p (rows (cx_db cx)))))).
Proof using Hlimit Htn Hw Hkeys HR Hlim Hsel.
  cbn [eval_query]. rewrite Htn. simpl. rewrite (filter_sql_pure _ (λ ir, p ir.1 ir.2) _ Hw). simpl.
  fold (matched p (rows (cx_db cx))).
  rewrite (map_sql_pure _ (λ ir, (keys ir, ir))).
  2: { intros ir. specialize (Hkeys ir). by destruct (map_sql (eval _ _) order) as [ks|]; [simpl in *; rewrite Hkeys|]. }
  simpl. rewrite Hlim. simpl. rewrite (proj2 (Z.ltb_ge limit 0) Hlimit). simpl.
  rewrite (map_sql_pure _ (λ ir, VUuid ir.1)) by done. f_equal.
  unfold skip_locked_limit. rewrite <-(map_map fst VUuid). f_equal.
  rewrite <-(filter_map_fst (λ i, i ∉ e_locked (cx_env cx))), <-firstn_map. do 3 f_equal.
  rewrite <-(map_merge_sort (λ a b, keys_le (keys a, a) (keys b, b)) keys_le (λ ir, (keys ir, ir))) by done.
  rewrite map_map. simpl. rewrite map_id.
  pose proof (map_merge_sort (λ a b, keys_le (keys a, a) (keys b, b)) R id HR (matched p (rows (cx_db cx)))) as E.
  by rewrite !map_id in E.
Qed.
End Selecting.

(** ** Renew and finish *)
Section Keyed.
Context (cx : ctx) (ids tokens : list string) (params : list value).
Context (Hlen : length ids = length tokens).
Context (Hparams : cx_params cx = VArray (map VUuid ids) :: VArray (map VUuid tokens) :: params).

Lemma cond_live t ir :
  cond cx (alias_of t ir) live_where (live_claim (e_clk (cx_env cx)) (zip ids tokens) ir.1 ir.2).
Proof using Hlen Hparams.
  unfold live_where, live_claim. rewrite <-andb_assoc. apply cond_and; [|apply cond_and].
  - unfold cond, keys_e. simpl. rewrite Hparams. simpl. rewrite (unnest_zip _ _ Hlen). apply in_keys.
  - by apply cond_status.
  - by apply (cond_time_gt _ _ _ _ (locked_until ir.2) (Some (e_clk (cx_env cx)))).
Qed.
End Keyed.

Lemma cast_keys_bind ids tokens :
  length ids = length tokens →
  match cast_keys ids tokens with
  | Some keys => ∃ ids' tokens', mapM uuid_in ids = Some ids' ∧ mapM uuid_in tokens = Some tokens' ∧
      length ids' = length tokens' ∧ keys = zip ids' tokens'
  | None => mapM uuid_in ids = None ∨ (∃ ids', mapM uuid_in ids = Some ids') ∧ mapM uuid_in tokens = None
  end.
Proof.
  intros Hlen. unfold cast_keys.
  destruct (mapM uuid_in ids) as [ids'|] eqn:Hi; [|by left]. simpl.
  destruct (mapM uuid_in tokens) as [tokens'|] eqn:Ht; [|by right; eauto]. simpl.
  exists ids', tokens'. split_and!; try done.
  apply mapM_Some_1, Forall2_length in Hi, Ht. congruence.
Qed.

(** ** Claim *)

Lemma cmp_eq x y : cmp_result OpEq (x ?= y) = (x =? y).
Proof. destruct (Z.compare_spec x y), (Z.eqb_spec x y); done || lia. Qed.

Definition claim_keys (ir : string * Row) : list value := [VTime (created_at ir.2); VInt (seq ir.2)].

Lemma claim_keys_order a b : keys_le (claim_keys a, a) (claim_keys b, b) ↔ claim_order a b.
Proof.
  unfold keys_le, claim_keys, claim_order. rewrite before_false. simpl.
  destruct (Z.compare_spec (created_at b.2) (created_at a.2)), (Z.compare_spec (seq b.2) (seq a.2));
    (split; [intros|intros []]; try done; lia).
Qed.

Section Claim.
Context (cx : ctx) (t : tname) (outer : scope).
Context (Htable : is_table t (cx_db cx) = true).

Lemma cond_due o :
  cond cx (("o", o) :: outer) due_e
    (bool_decide (status o.2 = StatusPending) ||
     bool_decide (status o.2 = StatusProcessing) && null_lt (locked_until o.2) (Some (e_now (cx_env cx)))).
Proof using.
  unfold due_e. apply cond_or; [by apply cond_status|]. apply cond_and; [by apply cond_status|].
  by apply cond_time_lt.
Qed.

Lemma cond_before o r :
  cond cx (("e", r) :: ("o", o) :: outer)
    (ECmp OpLt (ETuple [ECol (Some "e") Ccreated_at; ECol (Some "e") Cseq])
               (ETuple [ECol (Some "o") Ccreated_at; ECol (Some "o") Cseq])) (before r.2 o.2).
Proof using.
  unfold cond, before. simpl. rewrite cmp_eq. destruct (Z.eqb_spec (created_at r.2) (created_at o.2)) as [->|]; simpl.
  - by rewrite cmp_lt, Z.ltb_irrefl.
  - by rewrite cmp_lt, orb_false_r.
Qed.

Lemma cond_earlier o r :
  cond cx (("e", r) :: ("o", o) :: outer) earlier_e
    (null_eq (partition_key r.2) (partition_key o.2) && before r.2 o.2 && negb (settled r.2)).
Proof using.
  replace (null_eq _ _ && _ && _) with
    (bool_decide (is_Some (partition_key o.2)) &&
     (null_eq (partition_key r.2) (partition_key o.2) && (before r.2 o.2 && negb (settled r.2)))).
  { repeat apply cond_and; [..|apply cond_before|].
    - unfold cond. simpl. by destruct (partition_key o.2).
    - unfold cond. simpl. by destruct (partition_key r.2), (partition_key o.2).
    - unfold cond, settled. simpl. by destruct (status r.2). }
  rewrite <-!andb_assoc. destruct (partition_key o.2); simpl; [done|]. by destruct (partition_key r.2).
Qed.

Lemma cond_ordered o : cond cx (("o", o) :: outer) (ordered_e t) (negb (blocked (rows (cx_db cx)) o.2)).
Proof using Htable.
  unfold cond, ordered_e, blocked. cbn [eval eval_query]. rewrite Htable. cbn [negb].
  rewrite (filter_sql_pure _ _ _ (cond_earlier o)). simpl.
  rewrite (map_sql_pure _ (λ ir, (@nil value, ir))) by done. simpl.
  rewrite (map_sql_pure _ (λ _, VInt 1)) by done. simpl. do 2 f_equal.
  set (hits := filter _ _). set (l := map _ _).
  assert (length l = length hits) as Hl by (subst l; by rewrite !length_map, merge_sort_Permutation, length_map).
  transitivity (match hits with [] => false | _ => true end); [by destruct l, hits|]. subst hits. clear.
  induction (map_to_list (rows (cx_db cx))) as [|ir rs IH]; [done|]. simpl. rewrite filter_cons. rewrite <-IH.
  by destruct (null_eq _ _ && before _ _ && negb _).
Qed.

Lemma cond_claimable ordered o :
  cond cx (("o", o) :: outer) (claim_where t ordered)
    (claimable (e_now (cx_env cx)) ordered (rows (cx_db cx)) o.2).
Proof using Htable.
  unfold claim_where, claimable. rewrite <-andb_assoc. apply cond_and.
  - unfold cond. simpl. by rewrite cmp_le.
  - destruct ordered; [apply cond_and; [apply cond_due|apply cond_ordered]|]. rewrite andb_true_r. apply cond_due.
Qed.
End Claim.

(** ** Cleanup *)

Lemma uuid_order x y : uuid_compare y x ≠ Lt ↔ String.leb x y = true.
Proof.
  unfold uuid_compare. destruct (String.eqb_spec y x) as [->|Hne].
  - destruct (String.leb_total x x) as [E|E]; by rewrite E.
  - destruct (String.leb y x) eqn:E1, (String.leb x y) eqn:E2; try (by split).
    + by destruct Hne; apply String.leb_antisym.
    + destruct (String.leb_total x y); congruence.
Qed.

Definition cleanup_keys (ir : string * Row) : list value := [opt_value VTime (terminal_time ir.2); VUuid ir.1].

Lemma cleanup_keys_order a b : keys_le (cleanup_keys a, a) (cleanup_keys b, b) ↔ cleanup_order a b.
Proof.
  unfold keys_le, cleanup_keys, cleanup_order, cleanup_after. simpl.
  destruct (terminal_time a.2) as [x|], (terminal_time b.2) as [y|]; simpl; try (by split).
  - destruct (Z.compare_spec y x) as [->|Hlt|Hgt].
    + rewrite Z.ltb_irrefl, Z.eqb_refl. simpl. rewrite negb_false_iff, <-uuid_order. by destruct (uuid_compare b.1 a.1).
    + rewrite (proj2 (Z.ltb_lt y x) Hlt). by split.
    + rewrite (proj2 (Z.ltb_ge y x)), (proj2 (Z.eqb_neq y x)) by lia. by split.
  - rewrite negb_false_iff, <-uuid_order. by destruct (uuid_compare b.1 a.1).
Qed.

Lemma cond_expired cx sc n st c d ir ts :
  cx_params cx !! N.to_nat (n - 1) = Some (VFloat d) → in_scope sc None = inl ir →
  col_value c ir = opt_value VTime ts →
  cond cx sc (expired_e n st c) ((0 <? d) && (bool_decide (status ir.2 = st) &&
    null_lt ts (Some (e_now (cx_env cx) - interval_us d)))).
Proof.
  intros Hp Hs Hc. destruct sc as [|[a ir'] sc]; [done|]. injection Hs as ->.
  unfold expired_e. apply cond_and; [|apply cond_and].
  - unfold cond. simpl. rewrite Hp. simpl. by rewrite cmp_gt.
  - by apply cond_status.
  - apply cond_time_lt; simpl; [by rewrite Hc|by rewrite Hp].
Qed.

Lemma cond_removable cx sc ir ret dead disc vs :
  cx_params cx = VFloat ret :: VFloat dead :: VFloat disc :: vs → in_scope sc None = inl ir →
  cond cx sc cleanup_where (removable (e_now (cx_env cx)) ret dead disc ir.2).
Proof.
  intros Hp Hs. unfold cleanup_where.
  replace (removable _ _ _ _ _) with
    ((0 <? ret) && (bool_decide (status ir.2 = StatusPublished) &&
       null_lt (published_at ir.2) (Some (e_now (cx_env cx) - interval_us ret))) ||
     ((0 <? dead) && (bool_decide (status ir.2 = StatusDead) &&
       null_lt (finished_at ir.2) (Some (e_now (cx_env cx) - interval_us dead))) ||
      (0 <? disc) && (bool_decide (status ir.2 = StatusDiscarded) &&
       null_lt (finished_at ir.2) (Some (e_now (cx_env cx) - interval_us disc))))).
  { apply cond_or; [|apply cond_or]; (apply cond_expired; [by rewrite Hp|done|done]). }
  unfold removable, expired. by destruct (status ir.2); simpl; rewrite ?andb_false_r, ?orb_false_r.
Qed.

Lemma length_filter_rows (P : string * Row → Prop) `{∀ ir, Decision (P ir)} (t : gmap string Row) :
  length (filter P (map_to_list t)) = size (filter P t).
Proof.
  rewrite <-length_map_to_list. apply Permutation_length, NoDup_Permutation.
  - apply NoDup_filter, NoDup_map_to_list.
  - apply NoDup_map_to_list.
  - intros [id r]. rewrite list_elem_of_filter, !elem_of_map_to_list, map_lookup_filter_Some. naive_solver.
Qed.

Lemma deleted_count (t : gmap string Row) (sel : list string) :
  Z.of_nat (length (filter (λ ir, ir.1 ∈ sel) (map_to_list t))) =
    (Z.of_nat (size t) - Z.of_nat (size (filter (λ ir, ir.1 ∉ sel) t)))%Z.
Proof.
  rewrite length_filter_rows. pose proof (map_filter_union_complement (λ ir : string * Row, ir.1 ∈ sel) t) as E.
  apply (f_equal size) in E. rewrite map_size_disj_union in E by apply map_disjoint_filter_complement. lia.
Qed.

Lemma DELETE_means cx t w (sel : list string) :
  (∀ ir, cond cx (alias_of t ir) w (bool_decide (ir.1 ∈ sel))) →
  run_stmt cx (SDelete t w) =
    let left := filter (λ ir, ir.1 ∉ sel) (rows (cx_db cx)) in
    inl (mkAnswer (with_rows (cx_db cx) left) [] (Z.of_nat (size (rows (cx_db cx))) - Z.of_nat (size left))).
Proof.
  intros Hw. simpl. unfold matching. rewrite (filter_sql_pure _ (λ ir, bool_decide (ir.1 ∈ sel)) _ Hw). simpl.
  rewrite <-deleted_count. rewrite (list_filter_iff _ (λ ir : string * Row, ir.1 ∈ sel)) by (intros; apply bool_decide_eq_true).
  do 3 f_equal. apply map_filter_ext. intros i r Hr. simpl.
  enough (i ∈ (filter (λ ir : string * Row, ir.1 ∈ sel) (map_to_list (rows (cx_db cx)))).*1 ↔ i ∈ sel) as -> by done.
  rewrite list_elem_of_fmap. setoid_rewrite list_elem_of_filter. split; [naive_solver|]. intros Hi.
  exists (i, r). by rewrite elem_of_map_to_list.
Qed.

(** ** The statements *)

Lemma length_returning {A} (l : list A) : length (returning l) = length l.
Proof. by rewrite returning_perm. Qed.

(** What comes back over the wire for the outcome [d] of a statement. *)
Definition answer_of (c : Cmd) (d : Done) : answer :=
  mkAnswer (d_db d)
    (match c with
     | CClaim _ _ _ _ | CFinish _ _ _ _ _ _ => map (λ ir, map (λ c, col_value c ir) message_cols) (d_rows d)
     | CRequeue _ => replicate (Z.to_nat (d_affected d)) [VVoid]
     | _ => []
     end) (d_affected d).

Definition means (c : Cmd) (r : sql_res) : sql answer :=
  match r with SqlOk d => inl (answer_of c d) | SqlErr code => inr code end.

Section Statements.
Context (sch : string) (Hsch : ValidSchema sch = true) (e : StmtEnv) (db : Db).
Context (Htable : table_name db = qualified sch).
Abbreviation t := (outbox sch).
Abbreviation text c := (stmt_text (mkStmt (qualified sch) c)).
Abbreviation args c := (stmt_args (mkStmt (qualified sch) c)).

Lemma is_outbox : is_table t db = true.
Proof using Htable. unfold is_table. rewrite Htable. apply String.eqb_refl. Qed.

(** A text that parses runs as its tree on the bound arguments. *)
Lemma run_parsed txt tree l :
  parse (parse_fuel txt) txt = Some tree → target tree = t → (max_params <? Z.of_nat (length l)) = false →
  run_text e txt l db = (params ← bind_args (uses_stmt tree) 1 l; run_stmt (mkCtx e db params EmptyString) tree).
Proof using Htable. intros Hp Ht Hl. unfold run_text. by rewrite Hp, Ht, is_outbox, Hl. Qed.

Lemma renew_means ids tokens lease :
  length ids = length tokens → let c := CRenew ids tokens lease in
  run_text e (text c) (args c) db = means c (exec_renew e ids tokens lease db).
Proof using Hsch Htable.
  intros Hlen c. rewrite (run_parsed _ _ _ (renew_parses sch Hsch _) eq_refl) by reflexivity.
  pose proof (cast_keys_bind ids tokens Hlen) as Hk. unfold exec_renew. subst c. simpl.
  destruct (cast_keys ids tokens) as [keys|].
  - destruct Hk as (ids' & tokens' & -> & -> & Hl & ->). simpl.
    rewrite (run_UPDATE_means _ _ _ _ (live_claim (e_clk e) (zip ids' tokens')) (λ _, renew_row e lease)
      (λ _, true) EmptyString); [|intros ir; exact (cond_live (mkCtx e db _ EmptyString) ids' tokens' _ Hl eq_refl t ir)|by intros [? []]].
    simpl. rewrite (proj2 (forallb_forall _ _)) by done. simpl. unfold answer_of. simpl.
    by rewrite length_returning, length_map.
  - by destruct Hk as [->|[[? ->] ->]].
Qed.

(** The encoding of every server has the characters of ASCII. *)
Context (Htext : ∀ st, text_in (string_of_status st) = true).

Lemma bind_text a :
  bind_value Ttext (BArg a) = match arg_text a with Some o => inl (opt_value VText o) | None => inr "22000" end.
Proof. destruct a; simpl; try done. unfold checked. by destruct (text_in _). Qed.

Lemma finish_means ids tokens st reason delay clear :
  length ids = length tokens → let c := CFinish ids tokens st reason delay clear in
  run_text e (text c) (args c) db = means c (exec_finish e ids tokens st reason delay clear db).
Proof using Hsch Htable Htext.
  intros Hlen c. rewrite (run_parsed _ _ _ (finish_parses sch Hsch _) eq_refl) by reflexivity.
  pose proof (cast_keys_bind ids tokens Hlen) as Hk. unfold exec_finish. subst c.
  simpl.
  destruct (cast_keys ids tokens) as [keys|].
  - destruct Hk as (ids' & tokens' & -> & -> & Hl & ->). simpl. rewrite Htext. simpl.
    pose proof (bind_text reason) as Hb. simpl in Hb. rewrite Hb. clear Hb.
    destruct (arg_text reason) as [reason'|]; [|done]. simpl.
    rewrite (run_UPDATE_means _ _ _ _ (live_claim (e_clk e) (zip ids' tokens')) (λ _, finish_row e st reason' delay clear)
      (λ _, true) EmptyString).
    2: { intros ir; exact (cond_live (mkCtx e db _ EmptyString) ids' tokens' _ Hl eq_refl t ir). }
    2: { intros [? []]. by destruct st, reason', clear. }
    simpl. rewrite (proj2 (forallb_forall _ _)) by done. simpl. unfold answer_of. simpl.
    by rewrite length_returning, length_map.
  - by destruct Hk as [->|[[? ->] ->]].
Qed.

Lemma requeue_means id :
  let c := CRequeue id in run_text e (text c) (args c) db = means c (exec_requeue e id db).
Proof using Hsch Htable.
  intros c. rewrite (run_parsed _ _ _ (requeue_parses sch Hsch _) eq_refl) by reflexivity. subst c. unfold exec_requeue. simpl.
  destruct (uuid_in id) as [i|]; [|done]. simpl.
  rewrite (run_UPDATE_means _ _ _ _ (λ j r, String.eqb j i && bool_decide (status r = StatusDead))
    (λ _, requeue_row e) (λ _, true) EmptyString).
  2: { intros ir. apply cond_and; [|by apply cond_status]. unfold cond. simpl. by rewrite cmp_uuid. }
  2: { by intros [? []]. }
  simpl. rewrite (proj2 (forallb_forall _ _)) by done. simpl. unfold answer_of. simpl.
  rewrite !Nat2Z.id, !length_returning, !length_map. do 2 f_equal.
  rewrite <-(length_map (λ ir : string * Row, (ir.1, requeue_row e ir.2))), <-length_returning.
  generalize (returning (map (λ ir : string * Row, (ir.1, requeue_row e ir.2))
    (matched (λ j r, String.eqb j i && bool_decide (status r = StatusDead)) (rows db)))) as l.
  induction l as [|? l IH]; [done|]. simpl. by f_equal.
Qed.

Lemma cleanup_means ret dead disc limit :
  0 ≤ limit → let c := CCleanup ret dead disc limit in
  run_text e (text c) (args c) db = means c (exec_cleanup e ret dead disc limit db).
Proof using Hsch Htable.
  intros Hl c. rewrite (run_parsed _ _ _ (cleanup_parses sch Hsch _) eq_refl) by reflexivity. subst c. unfold exec_cleanup.
  rewrite (proj2 (Z.ltb_ge limit 0) Hl).
  set (cx := mkCtx e db [VFloat ret; VFloat dead; VFloat disc; VInt limit] EmptyString).
  change (run_stmt cx (cleanup_tree t) = means (CCleanup ret dead disc limit)
    (let sel := cleanup_select e ret dead disc limit (rows db) in
     SqlOk (mkDone (with_rows db (filter (λ ir, ir.1 ∉ sel) (rows db))) []
       (Z.of_nat (size (rows db)) - Z.of_nat (size (filter (λ ir, ir.1 ∉ sel) (rows db))))))).
  set (sel := cleanup_select e ret dead disc limit (rows db)). cbv zeta.
  assert (∀ ir, cond cx (alias_of t ir) (EInQuery (ECol None Cid) (cleanup_query t)) (bool_decide (ir.1 ∈ sel))) as Hw.
  { intros ir. unfold cond, cleanup_query. cbn [eval in_scope alias_of mbind sql_bind col_value].
    rewrite (query_means cx (alias_of t ir) t TableName cleanup_where (ECol None Cid) (EParam 4) _
      (λ _ r, removable (e_now e) ret dead disc r) cleanup_keys cleanup_order limit Hl is_outbox); try done.
    - apply in_ids.
    - intros ir'. by apply (cond_removable cx _ _ _ _ _ [VInt limit]).
    - intros [i' []]. simpl. by destruct finished_at, published_at.
    - apply cleanup_keys_order. }
  unfold cleanup_tree. by rewrite (DELETE_means _ _ _ _ Hw).
Qed.

Lemma claim_assigns params inst lease ir :
  let cx := mkCtx e db (VText inst :: VFloat lease :: params) EmptyString in
  assign cx t claim_sets ir =
    if int4_ok (attempts ir.2 + 1) then inl (ir.1, claim_row e inst lease ir.1 ir.2) else inr "22003".
Proof using.
  destruct ir as [id []]. unfold assign. simpl. destruct (int4_ok (attempts + 1)) eqn:E; [|done]. simpl. by rewrite E.
Qed.

Lemma claim_means ordered inst lease limit :
  0 ≤ limit → let c := CClaim ordered inst lease limit in
  run_text e (text c) (args c) db = means c (exec_claim e ordered inst lease limit db).
Proof using Hsch Htable.
  intros Hl c. rewrite (run_parsed _ _ _ (claim_parses sch Hsch _ ordered) eq_refl) by reflexivity. subst c. unfold exec_claim.
  rewrite (proj2 (Z.ltb_ge limit 0) Hl).
  replace (bind_args (uses_stmt (claim_tree t ordered)) 1 (args (CClaim ordered inst lease limit))) with
    (v ← checked (text_in inst) (VText inst); inl [v; VFloat lease; VInt limit]) by by destruct ordered.
  unfold checked. destruct (text_in inst); [|done]. simpl.
  set (cx := mkCtx e db [VText inst; VFloat lease; VInt limit] EmptyString).
  set (sel := claim_select e ordered limit (rows db)).
  rewrite (run_UPDATE_means cx _ _ _ (λ id _, bool_decide (id ∈ sel)) (claim_row e inst lease)
    (λ ir, int4_ok (attempts ir.2 + 1)) "22003"); [| |apply claim_assigns].
  2: { intros ir. unfold cond, claim_query. cbn [eval in_scope alias_of mbind sql_bind col_value].
    rewrite (query_means cx (alias_of t ir) t "o" (claim_where t ordered) (ECol (Some "o") Cid) (EParam 3) _
      (λ _ r, claimable (e_now e) ordered (rows db) r) claim_keys claim_order limit Hl is_outbox); try done.
    - apply in_ids.
    - intros ir'. by apply (cond_claimable cx t (alias_of t ir) is_outbox ordered).
    - apply claim_keys_order. }
  simpl. destruct (forallb _ _); [|done]. simpl. unfold answer_of. simpl. by rewrite length_returning, length_map.
Qed.
End Statements.
End Meaning.
