(* ===== verification/SqlInsert.v ===== *)
(** * The INSERT of [Store.Enqueue]

    Its text has as many tuples as there are messages and as many numbered
    parameters as arguments, so it is lexed and parsed by induction on the
    messages; run on its arguments it is [exec_enqueue]. *)

From Stdlib Require Import Ascii.
From S2P Require Import Prelude Outcome Message Backoff Config Postgres Store SqlText Sql StoreSql SqlMeaning.

Open Scope string_scope.
Open Scope Z_scope.

(** ** Decimal numbers *)

Lemma digit_char d : (d < 10)%N → digit_of (pretty_N_char d) = Some d.
Proof.
  intros Hd. assert (d ∈ [0; 1; 2; 3; 4; 5; 6; 7; 8; 9]%N) as Hin by (rewrite !elem_of_cons; lia).
  repeat (apply elem_of_cons in Hin as [->|Hin]; [done|]). by apply not_elem_of_nil in Hin.
Qed.

(** The digits of [x] take the lexer from the parameter 0 to the parameter [x]. *)
Lemma lex_pretty_go x s : lex_run (LParam 0) (pretty_N_go x s) = lex_run (LParam x) s.
Proof.
  revert s. induction (N.lt_wf_0 x) as [x _ IH]. intros s.
  assert (x = 0 ∨ 0 < x)%N as [->|Hx] by lia; [by rewrite pretty_N_go_0|].
  rewrite pretty_N_go_step by done.
  rewrite (IH (x / 10)%N ltac:(by apply N.div_lt; lia)). cbn [lex_run lex_step].
  rewrite digit_char by (apply N.mod_lt; lia).
  rewrite <-(N.div_mod x 10) by lia. by destruct (lex_run (LParam x) s).
Qed.

Lemma lex_pretty n : lex_run (LParam 0) (pretty (Z.of_nat n)) = ([], LParam (N.of_nat n)).
Proof.
  destruct n as [|n]; [done|].
  change (pretty (Z.of_nat (S n))) with (pretty_N_go (N.of_nat (S n)) EmptyString). apply lex_pretty_go.
Qed.

(** ** The VALUES list *)

(** The tuple of the parameters [p 1] to [p 8], as tokens and as expressions. *)
Definition tuple_tokens (p : nat → N) : list token :=
  [TPunct "("; TId "coalesce"; TPunct "("; TParam (p 1%nat); TOp "::"; TId "uuid"; TPunct ",";
   TId "gen_random_uuid"; TPunct "("; TPunct ")"; TPunct ")"; TPunct ","; TParam (p 2%nat); TPunct ",";
   TParam (p 3%nat); TPunct ","; TParam (p 4%nat); TPunct ","; TParam (p 5%nat); TOp "::"; TId "jsonb"; TPunct ",";
   TParam (p 6%nat); TPunct ","; TParam (p 7%nat); TPunct ","; TParam (p 8%nat); TPunct ")"].

Definition tuple_exprs (p : nat → N) : list expr :=
  [ECall Fcoalesce [ECast (EParam (p 1%nat)) Tuuid; ECall Fgen_random_uuid []]; EParam (p 2%nat); EParam (p 3%nat);
   EParam (p 4%nat); ECast (EParam (p 5%nat)) Tjsonb; EParam (p 6%nat); EParam (p 7%nat); EParam (p 8%nat)].

Lemma lex_tuple (d : nat → string) (p : nat → N) :
  (∀ k, lex_run (LParam 0) (d k) = ([], LParam (p k))) →
  lex_run LStart
    ("(COALESCE($" +:+ d 1%nat +:+ "::uuid, gen_random_uuid()),$" +:+ d 2%nat +:+ ",$" +:+ d 3%nat
      +:+ ",$" +:+ d 4%nat +:+ ",$" +:+ d 5%nat +:+ "::jsonb,$" +:+ d 6%nat +:+ ",$" +:+ d 7%nat
      +:+ ",$" +:+ d 8%nat +:+ ")") = (tuple_tokens p, LStart).
Proof.
  intros Hd.
  repeat (rewrite lex_run_app; first [rewrite Hd|
    match goal with |- context [lex_then (lex_run ?st ?s).1 _] =>
      let v := eval vm_compute in (lex_run st s) in change (lex_run st s) with v end]; cbn [fst snd]).
  reflexivity.
Qed.

(** The number of the k-th parameter of tuple [i]. *)
Definition param (i k : nat) : N := N.of_nat (i * cols + k).

Fixpoint values_tokens (i : nat) (ms : list Message) : list token :=
  match ms with
  | [] => []
  | _ :: ms' => ((if (0 <? i)%nat then [TPunct ","] else []) ++ tuple_tokens (param i) ++ values_tokens (S i) ms')%list
  end.

Fixpoint values_exprs (i : nat) (ms : list Message) : list (list expr) :=
  match ms with [] => [] | _ :: ms' => tuple_exprs (param i) :: values_exprs (S i) ms' end.

Lemma lex_values i ms : lex_run LStart (values_text i ms) = (values_tokens i ms, LStart).
Proof.
  revert i. induction ms as [|m ms IH]; intros i; [done|]. cbn [values_text values_tokens].
  rewrite lex_run_app.
  assert (lex_run LStart (if (0 <? i)%nat then "," else EmptyString) =
          (if (0 <? i)%nat then [TPunct ","] else [], LStart)) as -> by by destruct (0 <? i)%nat.
  cbn [fst snd]. rewrite lex_run_app. unfold placeholders. cbv zeta.
  rewrite (lex_tuple (λ k, pretty (Z.of_nat (i * cols + k))) (param i)) by (intros; apply lex_pretty).
  cbn [fst snd]. by rewrite IH.
Qed.

(** ** Parsing *)

Lemma p_list_step {A} (p : parser A) n ts :
  p_list p (S n) ts =
    '(a, ts1) ← p ts;
    match punct "," ts1 with
    | Some ts2 => '(l, ts3) ← p_list p n ts2; Some (a :: l, ts3)
    | None => Some ([a], ts1)
    end.
Proof. done. Qed.

Section Parsing.
Context (fuel : nat).

Lemma parse_tuple (p : nat → N) rest :
  p_paren (p_list (p_expr (40 + fuel)) (40 + fuel)) (tuple_tokens p ++ rest)%list = Some (tuple_exprs p, rest).
Proof using. vm_compute. reflexivity. Qed.

Lemma parse_values i m ms n rest :
  (length ms < n)%nat → punct "," rest = None →
  p_list (p_paren (p_list (p_expr (40 + fuel)) (40 + fuel))) n
    (tuple_tokens (param i) ++ values_tokens (S i) ms ++ rest)%list = Some (values_exprs i (m :: ms), rest).
Proof using.
  revert i m n. induction ms as [|m' ms IH]; intros i m n Hn Hrest; (destruct n as [|n]; [simpl in Hn; lia|]);
    rewrite p_list_step, parse_tuple; cbn [mbind option_bind].
  - simpl values_tokens. rewrite app_nil_l, Hrest. done.
  - cbn [values_tokens]. change (0 <? S i)%nat with true. cbn [punct app].
    rewrite Ascii.eqb_refl, <-app_assoc.
    rewrite (IH (S i) m') by (simpl in Hn; done || lia). done.
Qed.
End Parsing.

Definition enqueue_cols : list column :=
  [Cid; Ctopic; Cpartition_key; Cpayload; Cheaders; Ccontent_type; Cmessage_type; Cmax_attempts].
Definition enqueue_tree (t : tname) (ms : list Message) : stmt := SInsert t enqueue_cols (values_exprs 0 ms) Cid.

Lemma length_placeholders n : (1 <= String.length (placeholders n))%nat.
Proof. unfold placeholders. cbv zeta. apply le_n_S, Nat.le_0_l. Qed.

Lemma length_values i ms : (length ms <= String.length (values_text i ms))%nat.
Proof.
  revert i. induction ms as [|m ms IH]; intros i; [done|]. cbn [values_text length].
  rewrite !string_append_length. pose proof (length_placeholders (i * cols)). pose proof (IH (S i)). lia.
Qed.

Definition insert_tokens (sch : string) : list token :=
  [TId "insert"; TId "into"; TQuoted sch; TPunct "."; TId "outbox_messages"; TPunct "("; TId "id"; TPunct ",";
   TId "topic"; TPunct ","; TId "partition_key"; TPunct ","; TId "payload"; TPunct ","; TId "headers"; TPunct ",";
   TId "content_type"; TPunct ","; TId "message_type"; TPunct ","; TId "max_attempts"; TPunct ")"; TId "values"].
Definition conflict_tokens : list token :=
  [TId "on"; TId "conflict"; TPunct "("; TId "id"; TPunct ")"; TId "do"; TId "nothing"].

Lemma lex_enqueue sch ms :
  ValidSchema sch = true →
  lex (enqueue_text (qualified sch) ms) = Some (insert_tokens sch ++ values_tokens 0 ms ++ conflict_tokens)%list.
Proof.
  intros Hsch. unfold lex, enqueue_text.
  lex_piece. lex_piece. lex_piece. rewrite lex_run_app, lex_values. cbn [fst snd].
  match goal with |- context [lex_run LStart ?s] =>
    let v := eval vm_compute in (lex_run LStart s) in change (lex_run LStart s) with v end.
  unfold lex_then. cbn [fst snd lex_end mbind option_bind]. by rewrite <-!app_assoc.
Qed.

(** Up to VALUES, and after. *)
Lemma parse_insert sch fuel vals :
  p_stmt (40 + fuel) (insert_tokens sch ++ vals)%list =
  ('(tuples, ts5) ← p_list (p_paren (p_list (p_expr (40 + fuel)) (40 + fuel))) (40 + fuel) vals;
   ts6 ← kws ["on"; "conflict"] ts5; '(c, ts7) ← p_paren p_column ts6; ts8 ← kws ["do"; "nothing"] ts7;
   Some (SInsert (outbox sch) enqueue_cols tuples c, ts8)).
Proof. reflexivity. Qed.

Lemma parse_lexed fuel text ts s : lex text = Some ts → p_stmt fuel ts = Some (s, []) → parse fuel text = Some s.
Proof. unfold parse. intros -> Hp. change (('(s, rest) ← p_stmt fuel ts; match rest with [] => Some s | _ => None end) = Some s). by rewrite Hp. Qed.

Lemma enqueue_parses sch m ms fuel :
  ValidSchema sch = true → (length ms <= fuel)%nat →
  parse (40 + fuel) (enqueue_text (qualified sch) (m :: ms)) = Some (enqueue_tree (outbox sch) (m :: ms)).
Proof.
  intros Hsch Hfuel. apply (parse_lexed _ _ _ _ (lex_enqueue sch (m :: ms) Hsch)). rewrite parse_insert.
  assert (values_tokens 0 (m :: ms) ++ conflict_tokens =
          tuple_tokens (param 0) ++ values_tokens 1 ms ++ conflict_tokens)%list as -> by (symmetry; apply app_assoc).
  rewrite (parse_values fuel 0 m ms) by (done || lia). reflexivity.
Qed.

(** With the fuel of [run_text]. *)
Lemma enqueue_text_parses sch m ms :
  ValidSchema sch = true → let text := enqueue_text (qualified sch) (m :: ms) in
  parse (parse_fuel text) text = Some (enqueue_tree (outbox sch) (m :: ms)).
Proof.
  intros Hsch text. apply enqueue_parses; [done|]. subst text. unfold enqueue_text. rewrite !string_append_length.
  pose proof (length_values 0 (m :: ms)). simpl in *. lia.
Qed.

(** ** Binding *)

Definition tuple_types : list sqltype := [Tuuid; Ttext; Ttext; Tbytea; Tjsonb; Ttext; Ttext; Tint4].

Definition tuple_uses (p : nat → N) : list (N * sqltype) :=
  [(p 1%nat, Tuuid); (p 2%nat, Ttext); (p 3%nat, Ttext); (p 4%nat, Tbytea); (p 5%nat, Tjsonb); (p 6%nat, Ttext);
   (p 7%nat, Ttext); (p 8%nat, Tint4)].

Lemma param_succ i k : (param i k + 1)%N = param i (S k).
Proof. unfold param. lia. Qed.
Lemma param_next i : param i 9 = param (S i) 1.
Proof. unfold param, cols. lia. Qed.
Lemma param_index i j : N.to_nat (param i (S j) - 1) = (i * cols + j)%nat.
Proof. unfold param. lia. Qed.
Lemma param_eqb i j k : N.eqb (param i j) (param i k) = Nat.eqb j k.
Proof. unfold param. destruct (Nat.eqb_spec j k), (N.eqb_spec (N.of_nat (i * cols + j)) (N.of_nat (i * cols + k))); done || lia. Qed.

Lemma find_skip {A} (f : A → bool) pre l : Forall (λ u, f u = false) pre → List.find f (pre ++ l)%list = List.find f l.
Proof. induction 1 as [|u pre Hu _ IH]; [done|]. simpl. by rewrite Hu. Qed.

Section Insert.
Context `{Postgres}.

Definition bind_message (m : Message) : sql (list value) :=
  map_sql (λ ta, bind_value ta.1 (BArg ta.2)) (zip tuple_types (enqueue_args m)).

Lemma uses_values i ms :
  flat_map (λ tu, flat_map uses_set (zip enqueue_cols tu)) (values_exprs i ms) =
  flat_map (λ k, tuple_uses (param k)) (List.seq i (length ms)).
Proof.
  revert i. induction ms as [|m ms IH]; intros i; [done|]. cbn [values_exprs List.seq length flat_map]. by rewrite IH.
Qed.

Lemma bind_tuple us i pre post m bs :
  us = (pre ++ tuple_uses (param i) ++ post)%list → Forall (λ u, (u.1 < param i 1)%N) pre →
  bind_args us (param i 1) (map BArg (enqueue_args m) ++ bs) =
    (vs ← bind_message m; vs' ← bind_args us (param (S i) 1) bs; inl (vs ++ vs')%list).
Proof.
  intros -> Hpre.
  assert (∀ k l, (1 <= k)%nat → List.find (λ u, N.eqb u.1 (param i k)) (pre ++ l)%list =
                 List.find (λ u : N * sqltype, N.eqb u.1 (param i k)) l) as Hskip.
  { intros k l Hk. apply find_skip. eapply Forall_impl; [exact Hpre|]. intros u Hu. apply N.eqb_neq. unfold param in *. lia. }
  unfold bind_message, enqueue_args, tuple_types. cbn [map app bind_args zip zip_with map_sql].
  repeat (rewrite Hskip by lia; cbn [tuple_uses app List.find fst snd]; rewrite ?param_eqb; cbn [Nat.eqb]; rewrite ?param_succ).
  rewrite param_next. cbn [map_sql fst snd].
  destruct (bind_args _ (param (S i) 1) bs) eqn:E; simpl in E; clear E.
  1,2: by repeat match goal with |- context [bind_value ?ty ?b] => destruct (bind_value ty b); [cbn [mbind sql_bind]|done] end.
Qed.

Lemma bind_values us i pre ms :
  us = (pre ++ flat_map (λ k, tuple_uses (param k)) (List.seq i (length ms)))%list →
  Forall (λ u, (u.1 < param i 1)%N) pre →
  bind_args us (param i 1) (map BArg (flat_map enqueue_args ms)) =
    (vss ← map_sql bind_message ms; inl (concat vss)).
Proof.
  revert i pre. induction ms as [|m ms IH]; intros i pre Hus Hpre; [done|].
  cbn [flat_map map_sql length List.seq] in *. rewrite map_app. rewrite (bind_tuple us i pre _ m _ Hus Hpre).
  rewrite (IH (S i) (pre ++ tuple_uses (param i))%list).
  - destruct (bind_message m) as [vs|]; [|done]. cbn [mbind sql_bind]. by destruct (map_sql bind_message ms).
  - by rewrite <-app_assoc.
  - apply Forall_app. split.
    + eapply Forall_impl; [exact Hpre|]. simpl. unfold param, cols. lia.
    + unfold tuple_uses, param, cols. repeat constructor; simpl; lia.
Qed.

(** ** One tuple *)

Definition bind_id (s : string) : option (option string) :=
  if String.eqb s EmptyString then Some None else Some <$> uuid_in s.

Lemma bind_id_value s :
  bind_value Tuuid (BArg (nullStr s)) =
    match bind_id s with Some o => inl (opt_value VUuid o) | None => inr "22000" end.
Proof. unfold nullStr, bind_id. destruct (String.eqb s EmptyString); [done|]. simpl. by destruct (uuid_in s). Qed.

Lemma bind_id_arg d s :
  (match nullStr s with ANull => Some d | AText s => uuid_in s | _ => None end) = default d <$> bind_id s.
Proof. unfold nullStr, bind_id. destruct (String.eqb s EmptyString); [done|]. by destruct (uuid_in s). Qed.

Definition bind_max (o : option Z) : option (option Z) :=
  match o with None => Some None | Some z => if int4_ok z then Some (Some z) else None end.

Lemma bind_max_value o :
  bind_value Tint4 (BArg (nullInt o)) =
    match bind_max o with Some o' => inl (opt_value VInt o') | None => inr "22000" end.
Proof. destruct o as [z|]; [|done]. simpl. unfold checked. by destruct (int4_ok z). Qed.

Lemma bind_max_arg o :
  (match nullInt o with ANull => Some None | AInt z => if int4_ok z then Some (Some z) else None | _ => None end)
    = bind_max o.
Proof. by destruct o. Qed.

(** A tuple whose parameters are bound is one new row, unless its id is taken. *)
Lemma insert_values_row cx i db id tp pk pl hd ct mt ma :
  (∀ z, ma = Some z → int4_ok z = true) →
  (∀ j v, [opt_value VUuid id; VText tp; opt_value VText pk; VBytes pl; VJson hd; opt_value VText ct;
           opt_value VText mt; opt_value VInt ma] !! j = Some v →
          cx_params cx !! (i * cols + j)%nat = Some v) →
  let id' := default (e_id (cx_env cx) i) id in
  insert_values cx enqueue_cols i (tuple_exprs (param i)) db =
    inl (mkDb (table_name db)
           (match rows db !! id' with
            | Some _ => rows db
            | None => <[id' := insert_row (cx_env cx) db tp pk pl hd ct mt ma]> (rows db)
            end) (next_seq db + 1) (notified db)).
Proof.
  intros Hma Hp id'. unfold insert_values, tuple_exprs, enqueue_cols. simpl map_sql.
  rewrite !param_index.
  rewrite (Hp 0%nat _ eq_refl), (Hp 1%nat _ eq_refl), (Hp 2%nat _ eq_refl), (Hp 3%nat _ eq_refl), (Hp 4%nat _ eq_refl), (Hp 5%nat _ eq_refl),
    (Hp 6%nat _ eq_refl), (Hp 7%nat _ eq_refl). simpl.
  destruct id, pk, ct, mt, ma as [z|]; simpl; try done; by rewrite (Hma z eq_refl).
Qed.

(** What the bound values of a message make of its tuple is what [insert_tuple]
    makes of the arguments. *)
Lemma insert_one cx i m db :
  is_Some (Payload m) →
  match bind_message m with
  | inl vs =>
      length vs = cols ∧
      ((∀ j v, vs !! j = Some v → cx_params cx !! (i * cols + j)%nat = Some v) →
       ∃ db', insert_values cx enqueue_cols i (tuple_exprs (param i)) db = inl db' ∧
              insert_tuple (cx_env cx) i (enqueue_args m) db = inl db')
  | inr c => c = "22000" ∧ insert_tuple (cx_env cx) i (enqueue_args m) db = inr "22000"
  end.
Proof.
  intros [pl Hp]. unfold bind_message, enqueue_args, tuple_types. rewrite Hp. cbn [zip zip_with map_sql fst snd].
  rewrite bind_id_value, !bind_text, bind_max_value. unfold insert_tuple. rewrite bind_id_arg, bind_max_arg.
  assert (∀ z, bind_max (MaxAttempts m) = Some (Some z) → int4_ok z = true) as Hma.
  { intros z. unfold bind_max. destruct (MaxAttempts m) as [z'|]; [|done]. destruct (int4_ok z') eqn:E; congruence. }
  revert Hma. generalize (arg_text (nullStr (PartitionKey m))), (arg_text (nullStr (ContentType m))),
    (arg_text (nullStr (MessageType m))), (bind_id (ID m)), (bind_max (MaxAttempts m)), (json_Marshal (default ∅ (Headers m))).
  intros pk ct mt id ma hd Hma. cbn [arg_text]. unfold bind_value at 1 2, checked.
  destruct id as [id|], (text_in (Topic m)), pk as [pk|], (jsonb_in hd), ct as [ct|], mt as [mt|], ma as [ma|];
    try by split.
  cbn [mbind sql_bind negb andb option_fmap option_map fmap]. split; [done|]. intros Hl.
  eexists. split; [|reflexivity]. apply insert_values_row; [naive_solver|exact Hl].
Qed.
(** ** All tuples *)

Lemma insert_fails e i ms db c :
  Forall (λ m, is_Some (Payload m)) ms → map_sql bind_message ms = inr c →
  c = "22000" ∧ insert_tuples e i (map enqueue_args ms) db = inr "22000".
Proof.
  intros Hms. revert i db. induction Hms as [|m ms Hm Hms IH]; intros i db; [done|]. cbn [map map_sql insert_tuples].
  pose (cx vs := mkCtx e db (replicate (i * cols) VNull ++ vs)%list EmptyString).
  pose proof (λ vs, insert_one (cx vs) i m db Hm) as H1. destruct (bind_message m) as [vs|c'].
  - destruct (H1 vs) as [_ (db' & _ & E)].
    { intros j v Hj. simpl. rewrite lookup_app_r by (rewrite length_replicate; lia).
      rewrite length_replicate. by replace (i * cols + j - i * cols)%nat with j by lia. }
    change (cx_env (cx vs)) with e in E. rewrite E. destruct (map_sql bind_message ms) as [|c'] eqn:Ems; [done|]. intros [= ->]. by apply IH.
  - destruct (H1 []) as [-> E]. change (cx_env (cx [])) with e in E. rewrite E. by intros [= <-].
Qed.

Lemma insert_all cx i ms pre vss db :
  Forall (λ m, is_Some (Payload m)) ms → length pre = (i * cols)%nat →
  map_sql bind_message ms = inl vss → cx_params cx = (pre ++ concat vss)%list →
  ∃ db', run_INSERT cx enqueue_cols i (values_exprs i ms) db = inl db' ∧
         insert_tuples (cx_env cx) i (map enqueue_args ms) db = inl db'.
Proof.
  intros Hms. revert i pre vss db. induction Hms as [|m ms Hm Hms IH]; intros i pre vss db Hpre Hb Hp; [by eexists|].
  cbn [map map_sql insert_tuples values_exprs run_INSERT] in *.
  pose proof (insert_one cx i m db Hm) as H1. destruct (bind_message m) as [vs|]; [|done].
  destruct (map_sql bind_message ms) as [vss'|] eqn:Ems; [|done]. injection Hb as <-. simpl in Hp.
  destruct H1 as [Hlen (db1 & E1 & E2)].
  { intros j v Hj. rewrite Hp, lookup_app_r by lia. replace (i * cols + j - length pre)%nat with j by lia.
    by apply lookup_app_l_Some. }
  rewrite E2. destruct (IH (S i) (pre ++ vs)%list vss' db1) as (db' & E3 & E4); [|done| |].
  - rewrite length_app. unfold cols in *. lia.
  - by rewrite Hp, <-app_assoc.
  - exists db'. split; [|done]. rewrite E1. exact E3.
Qed.

Lemma enqueue_means sch e db ms :
  ValidSchema sch = true → table_name db = qualified sch → ms ≠ [] → Forall (λ m, is_Some (Payload m)) ms →
  let c := CEnqueue (enqueue_text (qualified sch) ms) (flat_map enqueue_args ms) in
  let st := mkStmt (qualified sch) c in
  run_text e (stmt_text st) (stmt_args st) db = means c (exec_enqueue e (flat_map enqueue_args ms) db).
Proof.
  intros Hsch Htable Hne Hms c st. destruct ms as [|m ms]; [done|].
  change (stmt_text st) with (enqueue_text (qualified sch) (m :: ms)).
  change (stmt_args st) with (map BArg (flat_map enqueue_args (m :: ms))).
  pose proof (enqueue_text_parses sch m ms Hsch) as Hparse.
  unfold exec_enqueue. destruct (max_params <? Z.of_nat (length (flat_map enqueue_args (m :: ms)))) eqn:Hmany.
  { unfold run_text. rewrite Hparse. change (target (enqueue_tree (outbox sch) (m :: ms))) with (outbox sch).
    by rewrite (is_outbox sch db Htable), length_map, Hmany. }
  rewrite (run_parsed sch e db Htable _ (enqueue_tree (outbox sch) (m :: ms)) _ Hparse);
    [|done|by rewrite length_map].
  cbn [uses_stmt enqueue_tree]. rewrite uses_values. change 1%N with (param 0 1).
  rewrite (bind_values _ 0 []) by done. rewrite tuples_of_enqueue.
  destruct (map_sql bind_message (m :: ms)) as [vss|code] eqn:Hb; cbn [mbind sql_bind].
  - destruct (insert_all (mkCtx e db (concat vss) EmptyString) 0 (m :: ms) [] vss db) as (db' & E1 & E2); [done..|].
    cbn [run_stmt enqueue_tree cx_db cx_env] in *. rewrite E1, E2. done.
  - destruct (insert_fails e 0 (m :: ms) db code Hms Hb) as [-> ->]. done.
Qed.
End Insert.
