(* ===== verification/Statements.v ===== *)
(** * The statements of the store, from text to rows

    [StoreSql.v], [SqlMeaning.v] and [SqlInsert.v] put together: for every schema
    [New] accepts, the text a method of [Store] sends means the function of
    [Postgres.v] the rest of the library reasons about; and what [scanMessages]
    reads by position from the rows sent back is what [Store.v] reads by name. *)

From S2P Require Import Prelude Outcome Message Backoff Config Postgres Store SqlText Sql StoreSql SqlMeaning SqlInsert.

Open Scope string_scope.
Open Scope Z_scope.

(** ** What the methods send *)

(** The commands of [Store.v] on a schema: [Enqueue] of validated messages, the
    others with resolved settings. *)
Inductive sends (sch : string) : Cmd → Prop :=
| sends_enqueue m ms :
    Forall (λ m, is_Some (Payload m)) (m :: ms) →
    sends sch (CEnqueue (enqueue_text (qualified sch) (m :: ms)) (flat_map enqueue_args (m :: ms)))
| sends_claim set :
    runnable set → sends sch (CClaim (Ordered set) (InstanceID set) (LeaseDuration set) (BatchSize set))
| sends_renew ms d : sends sch (CRenew (map ID ms) (map LeaseToken ms) d)
| sends_finish ms st reason delay clear :
    sends sch (CFinish (map ID ms) (map LeaseToken ms) st (nullStr reason) delay clear)
| sends_requeue id : sends sch (CRequeue id)
| sends_cleanup set :
    runnable set →
    sends sch (CCleanup (Retention set) (DeadRetention set) (DiscardRetention set) (BatchSize set)).

(** ** [rows.Scan] into the variables of [scanMessages] *)

Definition scan_string (v : value) : option string :=
  match v with VText s | VUuid s => Some s | _ => None end.
(** A pointer is nil for NULL. *)
Definition scan_ptr {A} (f : value → option A) (v : value) : option (option A) :=
  match v with VNull => Some None | _ => Some <$> f v end.
Definition scan_int (v : value) : option Z := match v with VInt z => Some z | _ => None end.
Definition scan_time (v : value) : option time := match v with VTime t => Some t | _ => None end.
Definition scan_bytes (v : value) : option bytes := match v with VBytes b => Some b | _ => None end.
Definition scan_json (v : value) : option json := match v with VJson j => Some j | _ => None end.

Definition ErrScan : err := ENew 6 "can't scan into dest".

(** One row: eighteen values, in the order of the destinations. *)
Definition Scan (vs : list value) : Message + err :=
  match vs with
  | [v_id; v_topic; v_pk; v_payload; v_headers; v_ct; v_mt; v_status; v_attempts; v_ma; v_lb; v_lu; v_next; v_le;
     v_created; v_pub; v_token; v_finished] =>
      match
        id ← scan_string v_id; topic ← scan_string v_topic; pk ← scan_ptr scan_string v_pk;
        payload ← scan_ptr scan_bytes v_payload; headers ← scan_ptr scan_json v_headers;
        ct ← scan_ptr scan_string v_ct; mt ← scan_ptr scan_string v_mt;
        st ← (s ← scan_string v_status; status_of_string s); attempts ← scan_int v_attempts;
        ma ← scan_ptr scan_int v_ma; lb ← scan_ptr scan_string v_lb; lu ← scan_ptr scan_time v_lu;
        next ← scan_time v_next; le ← scan_ptr scan_string v_le; created ← scan_time v_created;
        pub ← scan_ptr scan_time v_pub; token ← scan_ptr scan_string v_token; finished ← scan_ptr scan_time v_finished;
        Some (headers, λ h,
          {| ID := id; Topic := topic; PartitionKey := derefStr pk; Payload := payload; Headers := h;
             ContentType := derefStr ct; MessageType := derefStr mt; MaxAttempts := ma; MStatus := st;
             Attempts := attempts; LeaseToken := derefStr token; LockedBy := derefStr lb; LockedUntil := lu;
             NextAttemptAt := next; LastError := derefStr le; CreatedAt := created; PublishedAt := pub;
             FinishedAt := finished |})
      with
      | None => inr ErrScan
      | Some (None, m) => inl (m None)
      | Some (Some j, m) =>
          match json_Unmarshal j with
          | inl h => inl (m h)
          | inr e => inr (EWrap "outbox: unmarshal headers: " e)
          end
      end
  | _ => inr ErrScan
  end.

Fixpoint scan_values (out : list Message) (rows : list (list value)) : list Message * option err :=
  match rows with
  | [] => (out, None)
  | vs :: rows' => match Scan vs with inl m => scan_values (out ++ [m])%list rows' | inr e => ([], Some e) end
  end.

Lemma scan_ptr_value {A} (f : value → option A) (g : A → value) o :
  (∀ a, f (g a) = Some a) → (∀ a, g a ≠ VNull) → scan_ptr f (opt_value g o) = Some o.
Proof.
  intros Hf Hg. destruct o as [a|]; [|done]. simpl. specialize (Hf a). specialize (Hg a).
  unfold scan_ptr. by destruct (g a); rewrite ?Hf.
Qed.

Lemma status_roundtrip st : status_of_string (string_of_status st) = Some st.
Proof. by destruct st. Qed.

Lemma Scan_row ir :
  Scan (map (λ c, col_value c ir) message_cols) =
    match json_Unmarshal (headers ir.2) with
    | inl h => inl (scan_row ir.1 ir.2 h)
    | inr e => inr (EWrap "outbox: unmarshal headers: " e)
    end.
Proof.
  unfold message_cols, Scan. cbn [map col_value].
  cbn [scan_string scan_int scan_time mbind option_bind]. rewrite status_roundtrip.
  rewrite !(scan_ptr_value scan_string VText), !(scan_ptr_value scan_string VUuid),
    !(scan_ptr_value scan_int VInt), !(scan_ptr_value scan_time VTime) by done.
  reflexivity.
Qed.

Lemma scan_rows out rs : scan_values out (map (λ ir, map (λ c, col_value c ir) message_cols) rs) = scan_loop out rs.
Proof.
  revert out. induction rs as [|[id r] rs IH]; intros out; [done|]. cbn [map scan_values scan_loop].
  rewrite Scan_row. cbn [fst snd]. by destruct (json_Unmarshal (headers r)); [apply IH|].
Qed.

Section Statements.
Context `{Postgres}.
(** The encoding of every server has the characters of ASCII. *)
Context (Htext : ∀ st, text_in (string_of_status st) = true).

Lemma sends_means sch e c db :
  ValidSchema sch = true → sends sch c → table_name db = qualified sch →
  let st := mkStmt (qualified sch) c in
  run_text e (stmt_text st) (stmt_args st) db = means c (exec_stmt e st db).
Proof using Htext.
  intros Hsch Hc Htable st. unfold exec_stmt. cbn [st_table st_cmd st]. rewrite Htable, String.eqb_refl.
  destruct Hc as [m ms Hms|set Hr|ms d|ms s reason delay clear|id|set Hr].
  - by apply (enqueue_means sch e db (m :: ms)).
  - apply claim_means; [done..|]. pose proof (run_batch _ Hr). lia.
  - apply renew_means; [done..|]. by rewrite !length_map.
  - apply finish_means; [done..|]. by rewrite !length_map.
  - by apply requeue_means.
  - apply cleanup_means; [done..|]. pose proof (run_batch _ Hr). lia.
Qed.

Lemma sends_parses sch c :
  ValidSchema sch = true → sends sch c → let text := stmt_text (mkStmt (qualified sch) c) in
  ∃ tree, parse (parse_fuel text) text = Some tree ∧ target tree = outbox sch.
Proof using.
  intros Hsch Hc text. subst text. destruct Hc as [m ms Hms|set Hr|ms d|ms s reason delay clear|id|set Hr].
  - exists (enqueue_tree (outbox sch) (m :: ms)). split; [by apply enqueue_text_parses|done].
  - exists (claim_tree (outbox sch) (Ordered set)). split; [by apply claim_parses|done].
  - exists (renew_tree (outbox sch)). split; [by apply renew_parses|done].
  - exists (finish_tree (outbox sch)). split; [by apply finish_parses|done].
  - exists (requeue_tree (outbox sch)). split; [by apply requeue_parses|done].
  - exists (cleanup_tree (outbox sch)). split; [by apply cleanup_parses|done].
Qed.

(** C7. The SQL the store sends means what the rest of the library reasons about:
    for every schema [New] accepts and every statement of the store on it, with
    any number of messages to enqueue, the text parses, its placeholders take the
    arguments the code binds, and running it on any table gives the new table,
    the rows sent back, the command tag or the SQLSTATE of [exec_stmt], the
    refusal of more than 65535 parameters included. *)
Theorem statement_meaning sch e st db :
  ValidSchema sch = true → st_table st = qualified sch → sends sch (st_cmd st) →
  run_text e (stmt_text st) (stmt_args st) db = means (st_cmd st) (exec_stmt e st db).
Proof using Htext.
  destruct st as [tbl c]. simpl. intros Hsch -> Hc.
  destruct (decide (table_name db = qualified sch)) as [Htable|Htable]; [by apply sends_means|].
  destruct (sends_parses sch c Hsch Hc) as (tree & Hp & Ht). unfold run_text. rewrite Hp, Ht.
  assert (is_table (outbox sch) db = false) as ->.
  { apply String.eqb_neq. intros E. by apply Htable. }
  unfold exec_stmt. cbn [st_table st_cmd]. by rewrite (proj2 (String.eqb_neq _ _)) by congruence.
Qed.

(** C33. The rows a claim or a completion sends back are read into the fields they
    belong to: [rows.Scan] takes the eighteen columns of [messageColumns] by
    position, and gives, NULLs and unreadable headers included, the messages that
    [scanMessages] of the library reads from the rows by name. *)
Theorem scan_by_position d ordered instance lease limit ids tokens st reason delay clear :
  scan_values [] (a_rows (answer_of (CClaim ordered instance lease limit) d)) = scanMessages (d_rows d) ∧
  scan_values [] (a_rows (answer_of (CFinish ids tokens st reason delay clear) d)) = scanMessages (d_rows d).
Proof using. split; apply scan_rows. Qed.
End Statements.
