(* ===== verification/Typing.v ===== *)
(** * Types of the columns

    Every value in the table, and every value a statement sends back, has the type
    and the NOT NULL constraint the migrations give its column; the statements of
    the store keep it so, and fail with data errors only. *)

From S2P Require Import Prelude Outcome Message Backoff Config Postgres Store System Safety StoreSpec SqlText Sql StoreSql SqlMeaning SqlInsert Statements.

Open Scope string_scope.
Open Scope Z_scope.

Section Typing.
Context `{Postgres}.
(** Every server can store the names of the statuses and the empty document. *)
Context (Htext : ∀ st, text_in (string_of_status st) = true).
Context (Hempty : jsonb_in (JObj []) = true).

(** ** Values of a type *)

Definition has_type (ty : sqltype) (v : value) : bool :=
  match ty, v with
  | Tuuid, VUuid s => bool_decide (uuid_in s = Some s)
  | Ttext, VText s => text_in s
  | Tint4, VInt z => int4_ok z
  | Tjsonb, VJson j => jsonb_in j
  | Tint8, VInt _ | Tbytea, VBytes _ | Ttimestamptz, VTime _ => true
  | _, _ => false
  end.

Definition not_nullable (c : column) : bool :=
  match c with
  | Cid | Ctopic | Cpayload | Cheaders | Cstatus | Cattempts | Cnext_attempt_at | Ccreated_at | Cseq => true
  | _ => false
  end.

Definition fits (c : column) (v : value) : bool :=
  match v with VNull => negb (not_nullable c) | _ => has_type (col_type c) v end.

(** The columns that can go wrong. *)
Record typed_row (id : string) (r : Row) : Prop := {
  typed_id : uuid_in id = Some id;
  typed_topic : text_in (topic r) = true;
  typed_key : ∀ s, partition_key r = Some s → text_in s = true;
  typed_headers : jsonb_in (headers r) = true;
  typed_ctype : ∀ s, content_type r = Some s → text_in s = true;
  typed_mtype : ∀ s, message_type r = Some s → text_in s = true;
  typed_attempts : int4_ok (attempts r) = true;
  typed_max : ∀ z, max_attempts r = Some z → int4_ok z = true;
  typed_owner : ∀ s, locked_by r = Some s → text_in s = true;
  typed_error : ∀ s, last_error r = Some s → text_in s = true;
  typed_token : ∀ s, lease_token r = Some s → uuid_in s = Some s
}.

Definition typed_table (db : Db) : Prop := ∀ id r, rows db !! id = Some r → typed_row id r.

Lemma fits_opt {A} c (f : A → value) o :
  not_nullable c = false → (∀ a, f a ≠ VNull) → (∀ a, o = Some a → has_type (col_type c) (f a) = true) →
  fits c (opt_value f o) = true.
Proof.
  intros Hc Hn Ho. destruct o as [a|]; simpl; [|by rewrite Hc].
  specialize (Hn a). specialize (Ho a eq_refl). unfold fits. by destruct (f a).
Qed.

Lemma typed_fits c id r : typed_row id r → fits c (col_value c (id, r)) = true.
Proof using Htext.
  intros []. destruct c; unfold col_value; cbn [fst snd]; try done;
    try (apply fits_opt; [done|done|]; intros a Ha; simpl; auto using bool_decide_eq_true_2).
  - by apply bool_decide_eq_true_2.
  - apply Htext.
Qed.

(** ** The statements *)

#[local] Hint Resolve typed_id typed_topic typed_key typed_headers typed_ctype typed_mtype typed_attempts typed_max
  typed_owner typed_error typed_token : core.

Lemma update_typed db p f :
  typed_table db → (∀ id r, rows db !! id = Some r → p id r = true → typed_row id r → typed_row id (f id r)) →
  typed_table (d_db (run_update db p f)) ∧ ∀ id r, (id, r) ∈ d_rows (run_update db p f) → typed_row id r.
Proof.
  intros Ht Hf. split.
  - intros id r. rewrite lookup_run_update. destruct (rows db !! id) as [r0|] eqn:Hr; [|done].
    intros [= <-]. destruct (p id r0) eqn:Hp; [apply Hf|]; auto.
  - intros id r (r0 & Hr & Hp & ->)%elem_of_returned. auto.
Qed.

Lemma arg_text_typed a o : arg_text a = Some o → ∀ s, o = Some s → text_in s = true.
Proof. destruct a; simpl; try done; [by intros [= <-]|]. destruct (text_in s) eqn:E; [|done]. by intros [= <-] ? [= <-]. Qed.

Definition id_typed (e : StmtEnv) (i : nat) (a : arg) : option string :=
  match a with ANull => Some (e_id e i) | AText s => uuid_in s | _ => None end.
Definition max_typed (a : arg) : option (option Z) :=
  match a with ANull => Some None | AInt z => if int4_ok z then Some (Some z) else None | _ => None end.

Lemma insert_tuple_cases e i args db db' :
  insert_tuple e i args db = inl db' →
  ∃ a_id tp a_pk pl hd a_ct a_mt a_max id pk ct mt ma,
    args = [a_id; AText tp; a_pk; ABytes pl; AJson hd; a_ct; a_mt; a_max] ∧
    text_in tp = true ∧ jsonb_in hd = true ∧ id_typed e i a_id = Some id ∧
    arg_text a_pk = Some pk ∧ arg_text a_ct = Some ct ∧ arg_text a_mt = Some mt ∧ max_typed a_max = Some ma ∧
    rows db' = match rows db !! id with Some _ => rows db | None => <[id := insert_row e db tp pk pl hd ct mt ma]> (rows db) end.
Proof.
  intros E. unfold insert_tuple in E.
  destruct args as [|a_id [|[| tp | | |] [|a_pk [|[| | pl | |] [|[| | |hd |] [|a_ct [|a_mt [|a_max [|]]]]]]]]]; try done.
  destruct (text_in tp && jsonb_in hd) eqn:Hth; [|done]. apply andb_true_iff in Hth as [Htp Hhd].
  cbv beta iota delta [negb] in E. fold (id_typed e i a_id) (max_typed a_max) in E.
  destruct (id_typed e i a_id) as [id|] eqn:Hid; [|done]. destruct (arg_text a_pk) as [pk|] eqn:Hpk; [|done].
  destruct (arg_text a_ct) as [ct|] eqn:Hct; [|done]. destruct (arg_text a_mt) as [mt|] eqn:Hmt; [|done].
  destruct (max_typed a_max) as [ma|] eqn:Hma; [|done]. injection E as <-.
  exists a_id, tp, a_pk, pl, hd, a_ct, a_mt, a_max, id, pk, ct, mt, ma. by split_and!.
Qed.

Lemma tuple_typed e i args db db' :
  env_ok e → typed_table db → insert_tuple e i args db = inl db' → typed_table db'.
Proof.
  intros He Ht (a_id & tp & a_pk & pl & hd & a_ct & a_mt & a_max & id & pk & ct & mt & ma & _ & Htp & Hhd & Hid & Hpk & Hct
    & Hmt & Hma & Hrows)%insert_tuple_cases j r. rewrite Hrows.
  destruct (rows db !! id) eqn:Hr; [apply Ht|]. rewrite lookup_insert_Some. intros [[<- <-]|[_ ?]]; [|by apply Ht].
  constructor; simpl; try done; try by eapply arg_text_typed.
  - destruct a_id; simplify_eq/=; try apply (env_ids _ He); by eapply uuid_in_canonical.
  - intros z ->. destruct a_max; simplify_eq/=. by case_match; simplify_eq.
Qed.

Lemma tuples_typed e i tus db db' :
  env_ok e → typed_table db → insert_tuples e i tus db = inl db' → typed_table db'.
Proof.
  intros He. revert i db. induction tus as [|tu tus IH]; intros i db Ht; simpl; [by intros [= <-]|].
  destruct (insert_tuple e i tu db) as [db1|] eqn:E; [|done]. apply IH. by eapply tuple_typed.
Qed.

(** Preservation: whatever the statement, the new table and the rows it answers
    are typed. *)
Lemma exec_typed e st db d :
  env_ok e → typed_table db → exec_stmt e st db = SqlOk d →
  typed_table (d_db d) ∧ ∀ id r, (id, r) ∈ d_rows d → typed_row id r.
Proof using Hempty.
  intros He Ht. unfold exec_stmt. destruct (String.eqb _ _); [|done].
  destruct (st_cmd st) as [sql args|ordered inst lease limit|ids tokens lease|ids tokens s reason delay clear|s|ret dead disc limit].
  - unfold exec_enqueue. destruct (_ <? _); [done|]. destruct (insert_tuples _ _ _ _) as [db'|] eqn:E; [|done]. intros [= <-].
    split; [exact (tuples_typed _ _ _ _ _ He Ht E)|]. by intros id r ?%not_elem_of_nil.
  - unfold exec_claim. destruct (limit <? 0); [done|]. destruct (text_in inst) eqn:Hi; [|done]. simpl negb. cbv iota.
    destruct (forallb _ _) eqn:Hall; [|done]. intros [= <-]. apply update_typed; [done|]. intros id r Hr Hp [].
    rewrite forallb_forall in Hall. specialize (Hall (id, r)). simpl in Hall.
    constructor; simpl; try done.
    + apply Hall, list_elem_of_In, elem_of_matched. split; [exact Hr|exact Hp].
    + by intros ? [= <-].
    + intros ? [= <-]. apply (env_tokens _ He).
  - unfold exec_renew. destruct (cast_keys _ _); [|done]. intros [= <-]. apply update_typed; [done|].
    intros id r _ _ []. by constructor.
  - unfold exec_finish. destruct (cast_keys _ _); [|done]. destruct (arg_text reason) as [why|] eqn:Hw; [|done].
    intros [= <-]. apply update_typed; [done|]. intros id r _ _ []. constructor; simpl; try done.
    + by destruct (scrubs _ _).
    + by eapply arg_text_typed.
  - unfold exec_requeue. destruct (uuid_in s); [|done]. intros [= <-].
    split; [|by intros id r ?%not_elem_of_nil]. apply update_typed; [done|]. intros id r _ _ []. by constructor.
  - unfold exec_cleanup. destruct (limit <? 0); [done|]. intros [= <-]. split; [|by intros id r ?%not_elem_of_nil].
    intros id r Hr. simpl in Hr. apply map_lookup_filter_Some in Hr as [Hr _]. by apply Ht.
Qed.

(** ** Failures *)

(** A value that does not convert, an attempt count out of range, or more
    parameters than a statement can have. *)
Definition data_error (code : string) : Prop := code = "22000" ∨ code = "22003" ∨ code = too_many_params.

Lemma tuples_error e i ms db code :
  Forall (λ m, is_Some (Payload m)) ms → insert_tuples e i (map enqueue_args ms) db = inr code → code = "22000".
Proof.
  intros Hms. revert i db. induction Hms as [|m ms [pl Hpl] _ IH]; intros i db; cbn [map insert_tuples]; [done|].
  destruct (insert_tuple e i (enqueue_args m) db) as [db1|c] eqn:E; [apply IH|]. intros [= <-].
  revert E. unfold insert_tuple, enqueue_args. rewrite Hpl. repeat case_match; intros; by simplify_eq.
Qed.

Lemma exec_error sch e st db code :
  table_name db = st_table st → sends sch (st_cmd st) → exec_stmt e st db = SqlErr code → data_error code.
Proof.
  unfold exec_stmt, data_error. intros -> Hs. rewrite String.eqb_refl.
  destruct Hs as [m ms Hms|set Hr|ms d|ms s reason delay clear|id|set Hr].
  - unfold exec_enqueue. destruct (_ <? _); [intros [= <-]; by right; right|].
    rewrite tuples_of_enqueue. destruct (insert_tuples _ _ _ _) eqn:E; [done|]. intros [= <-].
    left. by eapply tuples_error.
  - unfold exec_claim. pose proof (run_batch _ Hr). destruct (Z.ltb_spec (BatchSize set) 0); [lia|].
    destruct (negb _); [intros [= <-]; by left|]. destruct (forallb _ _); [done|]. intros [= <-]. by right; left.
  - unfold exec_renew. destruct (cast_keys _ _); [done|]. intros [= <-]. by left.
  - unfold exec_finish. destruct (cast_keys _ _); [destruct (arg_text (nullStr reason)); [done|]|]; intros [= <-]; by left.
  - unfold exec_requeue. destruct (uuid_in id); [done|]. intros [= <-]. by left.
  - unfold exec_cleanup. pose proof (run_batch _ Hr). by destruct (Z.ltb_spec (BatchSize set) 0); [lia|].
Qed.

(** ** Types *)

(** What a statement sends back, column by column. *)
Definition answer_typed (c : Cmd) (vs : list value) : Prop :=
  match c with
  | CClaim _ _ _ _ | CFinish _ _ _ _ _ _ => Forall2 (λ c v, fits c v = true) message_cols vs
  | CRequeue _ => vs = [VVoid]
  | _ => False
  end.

Lemma answers_typed c d :
  (∀ id r, (id, r) ∈ d_rows d → typed_row id r) → Forall (answer_typed c) (a_rows (answer_of c d)).
Proof using Htext.
  intros Hd. apply Forall_forall. intros vs Hvs.
  assert (∀ l, Forall (λ ir, typed_row ir.1 ir.2) l → vs ∈ map (λ ir, map (λ c, col_value c ir) message_cols) l →
            Forall2 (λ c v, fits c v = true) message_cols vs) as Hrow.
  { intros l Hl ([id r] & -> & Hin)%list_elem_of_fmap. rewrite Forall_forall in Hl. specialize (Hl _ Hin).
    generalize message_cols. intros cs. induction cs; constructor; [by apply typed_fits|done]. }
  assert (Forall (λ ir, typed_row ir.1 ir.2) (d_rows d)) as Hl by (apply Forall_forall; intros [id r] ?; by apply Hd).
  destruct c; simpl in Hvs |- *; try (by eapply Hrow); try (by apply not_elem_of_nil in Hvs).
  by apply elem_of_replicate in Hvs as [-> _].
Qed.

(** C34. Types: on a table whose values have the types and NOT NULL constraints of
    their columns, every statement of the store leaves such a table, whatever the
    arguments, and sends back rows of such values, each in the place of its
    column; it never fails for a type, a NULL, an unknown name or a missing
    parameter, but for data only: a value that does not convert, a count of
    attempts out of range, or a batch of more than 65535 parameters. *)
Theorem statement_well_typed sch e st db :
  ValidSchema sch = true → st_table st = qualified sch → sends sch (st_cmd st) →
  table_name db = qualified sch → env_ok e → typed_table db →
  match run_text e (stmt_text st) (stmt_args st) db with
  | inl a => typed_table (a_db a) ∧ Forall (answer_typed (st_cmd st)) (a_rows a)
  | inr code => data_error code
  end.
Proof using Htext Hempty.
  intros Hsch Hst Hs Htable He Ht.
  assert (st = mkStmt (qualified sch) (st_cmd st)) as Hform by (destruct st; by simplify_eq/=).
  assert (run_text e (stmt_text st) (stmt_args st) db = means (st_cmd st) (exec_stmt e st db)) as ->.
  { rewrite Hform. by apply sends_means. }
  destruct (exec_stmt e st db) as [d|code] eqn:E; simpl.
  - destruct (exec_typed e st db d He Ht E) as [Hdb Hd]. split; [exact Hdb|by apply answers_typed].
  - eapply exec_error; [by rewrite Hst|exact Hs|exact E].
Qed.

(** Every reachable table is typed. *)
Theorem reachable_typed s s' : rtc sys_step s s' → typed_table (s_db s) → typed_table (s_db s').
Proof using Hempty.
  induction 1 as [|s1 s2 s3 [e st He _ _ _ ->] _ IH]; [done|]. intros Ht. apply IH. simpl. unfold after_stmt.
  destruct (exec_stmt e st (s_db s1)) as [d|] eqn:E; [|done]. by apply (exec_typed e st (s_db s1) d).
Qed.
End Typing.
