(* ===== verification/Placeholders.v ===== *)
(** * The text of the INSERT

    [Store.Enqueue] numbers its placeholders by hand, eight to a message.  A
    scanner of SQL parameters reads the text back: every bound argument has its
    placeholder, in order, and there is no other. *)

From Stdlib Require Import Ascii.
From S2P Require Import Prelude Outcome Message Backoff Config Postgres Store System Safety StoreSpec Relay World RelaySpec RelaySafety RelayCorrect RelayLive Cleaner Lifecycle Facade SqlText Sql StoreSql SqlMeaning SqlInsert.

Open Scope string_scope.
Open Scope Z_scope.

(** ** Parameters of a statement: [$] and a decimal number *)

Fixpoint num (acc : N) (s : string) : N :=
  match s with
  | String c s' => match digit_of c with Some d => num (10 * acc + d) s' | None => acc end
  | EmptyString => acc
  end.

Definition dollar (c : ascii) : bool := (N_of_ascii c =? 36)%N.

Fixpoint params (s : string) : list N :=
  match s with
  | EmptyString => []
  | String c s' => if dollar c then num 0 s' :: params s' else params s'
  end.

Lemma params_dollar s : params (String "$" s) = num 0 s :: params s.
Proof. done. Qed.
Lemma params_skip c s : dollar c = false → params (String c s) = params s.
Proof. intros Hc. simpl. by rewrite Hc. Qed.

(** Text before, without a parameter. *)
Lemma params_plain s t : string_all (λ c, negb (dollar c)) s = true → params (s +:+ t) = params t.
Proof.
  induction s as [|c s IH]; [done|]. simpl. intros [Hc Hs]%andb_true_iff.
  apply negb_true_iff in Hc. rewrite Hc. by apply IH.
Qed.

(** *** Decimal numbers *)

(** The digits of [x] in front of [s], read back. *)
Lemma pretty_go_read x s :
  num 0 (pretty_N_go x s) = num x s ∧ params (pretty_N_go x s) = params s ∧
  ∀ t, pretty_N_go x s +:+ t = pretty_N_go x (s +:+ t).
Proof.
  revert s. induction (N.lt_wf_0 x) as [x _ IH]. intros s.
  assert (x = 0 ∨ 0 < x)%N as [->|Hx] by lia; [by rewrite !pretty_N_go_0|].
  rewrite pretty_N_go_step by done.
  assert (x mod 10 < 10)%N as Hm by (apply N.mod_lt; lia).
  pose proof (digit_char _ Hm) as Hd. pose proof (N.div_mod x 10 ltac:(lia)) as Hdm.
  destruct (IH (x / 10)%N ltac:(by apply N.div_lt; lia) (String (pretty_N_char (x mod 10)) s)) as (H1 & H2 & H3).
  split_and!.
  - rewrite H1. cbn [num]. rewrite Hd. by rewrite <-Hdm.
  - rewrite H2. cbn [params]. assert (dollar (pretty_N_char (x mod 10)) = false) as ->; [|done].
    unfold digit_of, in_range in Hd. unfold dollar. destruct (N.leb_spec 48 (N_of_ascii (pretty_N_char (x mod 10)))); [|done].
    apply N.eqb_neq. lia.
  - intros t. rewrite H3, (pretty_N_go_step x (s +:+ t)) by done. done.
Qed.

Lemma pretty_read n c t :
  digit_of c = None →
  num 0 (pretty (Z.of_nat n) +:+ String c t) = N.of_nat n ∧
  params (pretty (Z.of_nat n) +:+ String c t) = params (String c t).
Proof.
  intros Hc. destruct n as [|n].
  - change (pretty (Z.of_nat 0)) with "0". split; [|done].
    change (num 0 (String c t) = 0%N). cbn [num]. by rewrite Hc.
  - change (pretty (Z.of_nat (S n))) with (pretty_N_go (N.pos (Pos.of_succ_nat n)) "").
    destruct (pretty_go_read (N.pos (Pos.of_succ_nat n)) "") as (_ & _ & ->).
    destruct (pretty_go_read (N.pos (Pos.of_succ_nat n)) ("" +:+ String c t)) as (-> & -> & _).
    split; [|done]. change (num (N.pos (Pos.of_succ_nat n)) (String c t) = N.of_nat (S n)). cbn [num]. by rewrite Hc.
Qed.

(** ** The VALUES list *)

Lemma placeholders_params n t :
  params (placeholders n +:+ t) = (map N.of_nat (List.seq (S n) 8) ++ params t)%list.
Proof.
  unfold placeholders. cbv zeta. rewrite !string_append_assoc.
  assert (∃ d : nat → string, ∀ k, d k = pretty (Z.of_nat (n + k))) as [d Hd] by by eexists.
  rewrite <-!Hd.
  assert (∀ k c t', digit_of c = None → num 0 (d k +:+ String c t') = N.of_nat (n + k)) as Hn
    by (intros; rewrite Hd; by apply pretty_read).
  assert (∀ k c t', digit_of c = None → params (d k +:+ String c t') = params (String c t')) as Hp
    by (intros; rewrite Hd; by apply pretty_read).
  clear Hd.
  assert (∀ c s s', String c s +:+ s' = String c (s +:+ s')) as Happ by done.
  assert (∀ s, "" +:+ s = s) as Hnil by done.
  rewrite !Happ, !Hnil.
  repeat first [rewrite params_dollar|rewrite params_skip by reflexivity|rewrite Hn, Hp by reflexivity].
  cbn [List.seq map app]. repeat (f_equal; [lia|]). f_equal. lia.
Qed.

Lemma values_params i ms t :
  params (values_text i ms +:+ t) = (map N.of_nat (List.seq (S (i * cols)) (8 * length ms)) ++ params t)%list.
Proof.
  revert i. induction ms as [|m ms IH]; intros i; [done|]. cbn [values_text].
  rewrite !string_append_assoc.
  rewrite params_plain by (by destruct (0 <? i)%nat). rewrite placeholders_params, IH.
  rewrite app_assoc, <-map_app. do 2 f_equal.
  replace (8 * length (m :: ms))%nat with (8 + 8 * length ms)%nat by (simpl; lia).
  rewrite List.seq_app. do 2 f_equal. unfold cols. lia.
Qed.

Lemma enqueue_args_length ms : length (flat_map enqueue_args ms) = (8 * length ms)%nat.
Proof. induction ms as [|m ms IH]; [done|]. simpl. rewrite IH. lia. Qed.

Lemma string_all_app p a b : string_all p (a +:+ b) = string_all p a && string_all p b.
Proof.
  induction a as [|c a IH]; [done|]. change (p c && string_all p (a +:+ b) = p c && string_all p a && string_all p b).
  by rewrite IH, andb_assoc.
Qed.

Lemma ident_no_dollar s : string_all ident_cont s = true → string_all (λ c, negb (dollar c)) s = true.
Proof.
  induction s as [|c s IH]; [done|]. simpl. intros [Hc Hs]%andb_true_iff. rewrite (IH Hs), andb_true_r.
  unfold dollar. unfold ident_cont, ident_start, in_range in Hc. destruct (N.eqb_spec (N_of_ascii c) 36) as [E|]; [|done].
  rewrite E in Hc. done.
Qed.

(** Every argument has its placeholder: for every schema [New] accepts, the
    parameters of the INSERT text are [$1], [$2], ... in this order, once each,
    as many as there are bound arguments, eight to a message. *)
Theorem enqueue_placeholders {W} (ex en : Executor W) p schema ms :
  ValidSchema schema = true →
  params (enqueue_text (table (NewStore ex en p schema)) ms)
    = map N.of_nat (List.seq 1 (length (flat_map enqueue_args ms))).
Proof.
  intros Hs%ValidSchema_plain. unfold enqueue_text. rewrite params_plain by done.
  rewrite params_plain.
  - rewrite params_plain by done. rewrite values_params, enqueue_args_length.
    change (params " ON CONFLICT (id) DO NOTHING") with (@nil N). by rewrite app_nil_r.
  - simpl table. unfold Quote. rewrite quote_body_plain by done.
    change (string_all (λ c, negb (dollar c)) ((schema +:+ String quote_char EmptyString) +:+ "." +:+ TableName) = true).
    rewrite !string_all_app, (ident_no_dollar _ Hs). done.
Qed.
