(* ===== verification/Adapters.v ===== *)
(** * What the transport adapters share: [contrib/publishers]

    Conversions between Go's strings and byte slices, the reserved header names
    of the Kafka and NATS adapters, publish loops that stop at the first error,
    and the order of a [range] over a map, which Go leaves open. *)

From Stdlib Require Import String.
From S2P Require Import Prelude Outcome Message Backoff Config Postgres Store Relay.

Open Scope string_scope.
Open Scope Z_scope.

(** Conversions between Go's strings and byte slices. *)
Definition to_bytes (s : string) : bytes := list_byte_of_string s.
Definition of_bytes (b : bytes) : string := string_of_list_byte b.

Definition HeaderOutboxID : string := "pg-outbox-id".
Definition HeaderContentType : string := "content-type".
Definition HeaderMessageType : string := "message-type".
Definition HeaderPartitionKey : string := "partition-key".

Definition nonempty (s : string) : bool := negb (String.eqb s EmptyString).

(** Runs [f] over a list until it fails. *)
Fixpoint until_error {W A} (f : A → go W (option err)) (l : list A) : go W (option err) :=
  match l with
  | [] => mret None
  | a :: l' => e ← f a; match e with Some _ => mret e | None => until_error f l' end
  end.

(** [f] succeeded on each element, in order. *)
Inductive sent_all {W A} (f : A → go W (option err)) : list A → W → W → Prop :=
| sent_nil w : sent_all f [] w w
| sent_cons a l w w1 w2 : f a w = (Ok None, w1) → sent_all f l w1 w2 → sent_all f (a :: l) w w2.

(** Such a loop went through the whole list, or up to the first failure and no
    further, and its answer is that failure. *)
Lemma until_error_spec {W A} (f : A → go W (option err)) l w y w' :
  until_error f l w = (y, w') ↔
  (y = Ok None ∧ sent_all f l w w') ∨
  ∃ pre a post w1, l = (pre ++ a :: post)%list ∧ sent_all f pre w w1 ∧ f a w1 = (y, w') ∧ y ≠ Ok None.
Proof.
  revert w. induction l as [|a l IH]; intros w; simpl.
  { split; [intros [= <- <-]; left; split; [done|constructor]|].
    intros [[-> Hs]|(pre & a & post & _ & E & _)]; [by inversion Hs|by destruct pre]. }
  unfold mbind, M_bind. split.
  - destruct (f a w) as [[[e|]|p] w1] eqn:E.
    + intros [= <- <-]. right. exists [], a, l, w. split_and!; [done|constructor|done|done].
    + intros [[-> Hs]|(pre & b & post & w2 & -> & Hs & Hb & Hy)]%IH.
      * left. split; [done|by econstructor].
      * right. exists (a :: pre), b, post, w2. split_and!; [done|by econstructor|done|done].
    + intros [= <- <-]. right. exists [], a, l, w. split_and!; [done|constructor|done|done].
  - intros [[-> Hs]|(pre & b & post & w2 & El & Hs & Hb & Hy)].
    + inversion Hs as [|? ? ? w1 ? Ha Hl]; subst. rewrite Ha. apply IH. by left.
    + destruct pre as [|a' pre]; simplify_eq/=.
      * inversion Hs; subst. rewrite Hb. by destruct y as [[e|]|p].
      * inversion Hs as [|? ? ? w1 ? Ha Hl]; subst. rewrite Ha. apply IH. right. by exists pre, b, post, w2.
Qed.

(** The iteration order of a Go map. *)
Class MapOrder : Type := {
  range : gmap string string → list (string * string);
  range_perm h : range h ≡ₚ map_to_list h
}.

Lemma range_nodup `{MapOrder} h : NoDup (range h).*1.
Proof. rewrite range_perm. apply NoDup_fst_map_to_list. Qed.

Lemma elem_of_range `{MapOrder} h k v : (k, v) ∈ range h ↔ h !! k = Some v.
Proof. rewrite range_perm. apply elem_of_map_to_list. Qed.
