(* ===== verification/Kafka.v ===== *)
(** * The Kafka adapter: [contrib/publishers/kafka/kafka.go]

    The transport's message, header and writer are parameters. *)

From S2P Require Import Prelude Outcome Message Backoff Config Postgres Store Relay Adapters.

Open Scope string_scope.
Open Scope Z_scope.

Section Kafka.
Context `{MapOrder} {W : Type}.

(** [kafkago.Header] and [kafkago.Message], by their literals, and the writer. *)
Context {KHeader KMessage : Type}.
Context (header : string → bytes → KHeader).
Context (message : string → bytes → option bytes → list KHeader → KMessage).

Record Writer : Type := { WriteMessages : list KMessage → go W (option err) }.
Definition Mapper : Type := Message → KMessage * option err.

Record Publisher : Type := mkPublisher { writer : Writer; mapper : Mapper }.
Definition Option : Type := Publisher → Publisher.

Definition WithMapper (m : option Mapper) : Option := λ p,
  match m with Some m => mkPublisher p.(writer) m | None => p end.

Definition appendMetadata (headers : list KHeader) (m : Message) : list KHeader :=
  let headers := if nonempty m.(ID)
    then (headers ++ [header HeaderOutboxID (to_bytes m.(ID))])%list else headers in
  let headers := if nonempty m.(ContentType)
    then (headers ++ [header HeaderContentType (to_bytes m.(ContentType))])%list else headers in
  if nonempty m.(MessageType)
    then (headers ++ [header HeaderMessageType (to_bytes m.(MessageType))])%list else headers.

Definition DefaultMapper : Mapper := λ m,
  let headers := map (λ kv, header kv.1 (to_bytes kv.2)) (range (default ∅ m.(Headers))) in
  (message m.(Topic) (to_bytes m.(PartitionKey)) m.(Payload) (appendMetadata headers m), None).

Definition New (wr : Writer) (opts : list Option) : Publisher :=
  fold_left (λ p o, o p) opts (mkPublisher wr DefaultMapper).

Fixpoint map_batch (mp : Mapper) (ms : list Message) : list KMessage + err :=
  match ms with
  | [] => inl []
  | m :: ms' =>
      match mp m with
      | (_, Some e) => inr e
      | (k, None) => match map_batch mp ms' with inl ks => inl (k :: ks) | inr e => inr e end
      end
  end.

Definition Publish (p : Publisher) (ms : list Message) : go W (option err) :=
  match map_batch p.(mapper) ms with
  | inr e => mret (Some e)
  | inl ks => p.(writer).(WriteMessages) ks
  end.

(** The Kafka adapter writes a batch with one call or not at all: when the
    mapper rejects a message nothing is written and the first rejection is the
    batch's error; otherwise the writer gets the mapped messages in order, and
    its answer, per-message errors included, is the adapter's. *)
Theorem kafka_all_or_nothing p ms w :
  (∃ pre m post e, ms = (pre ++ m :: post)%list ∧ snd (mapper p m) = Some e ∧
     Forall (λ m, snd (mapper p m) = None) pre ∧ Publish p ms w = (Ok (Some e), w)) ∨
  (Forall (λ m, snd (mapper p m) = None) ms ∧
   Publish p ms w = WriteMessages (writer p) (map (fst ∘ mapper p) ms) w).
Proof.
  unfold Publish.
  assert ((∃ pre m post e, ms = (pre ++ m :: post)%list ∧ snd (mapper p m) = Some e ∧
     Forall (λ m, snd (mapper p m) = None) pre ∧ map_batch (mapper p) ms = inr e) ∨
     (Forall (λ m, snd (mapper p m) = None) ms ∧ map_batch (mapper p) ms = inl (map (fst ∘ mapper p) ms))) as Hm.
  { induction ms as [|m ms IH]; [by right|]. simpl. destruct (mapper p m) as [k [e|]] eqn:Em.
    - left. exists [], m, ms, e. rewrite Em. split_and!; done.
    - destruct IH as [(pre & m' & post & e & -> & ? & ? & ->)|[? ->]].
      + left. exists (m :: pre), m', post, e. split_and!; try done. constructor; [by simpl; rewrite Em|done].
      + right. split; [constructor; [by simpl; rewrite Em|done]|]. done. }
  destruct Hm as [(pre & m & post & e & ? & ? & ? & ->)|[? ->]]; [left|right]; [|done].
  by exists pre, m, post, e.
Qed.

Lemma appendMetadata_app hs m : appendMetadata hs m = (hs ++ appendMetadata [] m)%list.
Proof.
  unfold appendMetadata.
  destruct (nonempty (ID m)), (nonempty (ContentType m)), (nonempty (MessageType m));
    rewrite ?app_nil_l, <-?app_assoc, ?app_nil_r; done.
Qed.

(** The outbox's own headers come after the caller's, whatever the map's order. *)
Lemma default_mapper_headers m : ∃ hs,
  DefaultMapper m = (message (Topic m) (to_bytes (PartitionKey m)) (Payload m)
    (hs ++ appendMetadata [] m), None) ∧
  hs ≡ₚ map (λ kv, header kv.1 (to_bytes kv.2)) (map_to_list (default ∅ (Headers m))).
Proof.
  unfold DefaultMapper. rewrite appendMetadata_app. eexists. split; [done|]. by rewrite range_perm.
Qed.
End Kafka.
