(* ===== verification/Nats.v ===== *)
(** * The NATS adapter: [contrib/publishers/nats/nats.go]

    The transport's message and client are parameters, and so is its header map,
    with what [Set] and [Get] are documented to do. *)

From S2P Require Import Prelude Outcome Message Backoff Config Postgres Store Relay Adapters.

Open Scope string_scope.
Open Scope Z_scope.

Section Nats.
Context `{MapOrder} {W : Type}.

(** [natsgo.Header] with its [Set] and [Get], and [natsgo.Msg]. *)
Context {Header Msg : Type}.
Context (make : Header) (Set_ : Header → string → string → Header) (Get : Header → string → string).
Context (msg : string → option bytes → Header → Msg).
Context (Get_make : ∀ k, Get make k = EmptyString).
Context (Get_Set : ∀ h k v k', Get (Set_ h k v) k' = if String.eqb k k' then v else Get h k').

Record Client : Type := { PublishMsg : Msg → go W (option err); FlushWithContext : go W (option err) }.
Definition Mapper : Type := Message → Msg * option err.

Record Publisher : Type := mkPublisher { client : Client; mapper : Mapper; flush : bool }.
Definition Option : Type := Publisher → Publisher.

Definition WithMapper (m : option Mapper) : Option := λ p,
  match m with
  | Some m => mkPublisher p.(client) m p.(flush)
  | None => p
  end.
Definition WithoutFlush : Option := λ p,
  mkPublisher p.(client) p.(mapper) false.

Definition setMetadata (h : Header) (m : Message) : Header :=
  let h := if nonempty m.(ID) then Set_ h HeaderOutboxID m.(ID) else h in
  let h := if nonempty m.(ContentType) then Set_ h HeaderContentType m.(ContentType) else h in
  let h := if nonempty m.(MessageType) then Set_ h HeaderMessageType m.(MessageType) else h in
  if nonempty m.(PartitionKey) then Set_ h HeaderPartitionKey m.(PartitionKey) else h.

Definition user_headers (m : Message) : Header :=
  fold_left (λ h kv, Set_ h kv.1 kv.2) (range (default ∅ m.(Headers))) make.

Definition DefaultMapper : Mapper := λ m,
  (msg m.(Topic) m.(Payload) (setMetadata (user_headers m) m), None).

Definition New (c : Client) (opts : list Option) : Publisher :=
  fold_left (λ p o, o p) opts (mkPublisher c DefaultMapper true).

Definition Publish (p : Publisher) (ms : list Message) : go W (option err) :=
  e ← until_error (λ m,
        match p.(mapper) m with
        | (_, Some e) => mret (Some e)
        | (x, None) => p.(client).(PublishMsg) x
        end) ms;
  match e with
  | Some _ => mret e
  | None => if p.(flush) then p.(client).(FlushWithContext) else mret None
  end.

Lemma fold_set l h k :
  NoDup l.*1 →
  (∀ v, (k, v) ∈ l → Get (fold_left (λ h kv, Set_ h kv.1 kv.2) l h) k = v) ∧
  (k ∉ l.*1 → Get (fold_left (λ h kv, Set_ h kv.1 kv.2) l h) k = Get h k).
Proof.
  revert h. induction l as [|[k0 v0] l IH]; intros h; simpl.
  { intros _. split; [by intros v ?%not_elem_of_nil|done]. }
  intros [Hk0 Hl]%NoDup_cons. destruct (IH (Set_ h k0 v0) Hl) as [Hin Hout]. split.
  - intros v [[= -> ->]|Hv]%elem_of_cons; [|auto]. rewrite Hout by done.
    by rewrite Get_Set, String.eqb_refl.
  - intros [Hne Hk]%not_elem_of_cons. rewrite Hout by done. rewrite Get_Set.
    by rewrite (proj2 (String.eqb_neq _ _)) by congruence.
Qed.

Lemma user_headers_get m k :
  Get (user_headers m) k = default EmptyString (default ∅ (Headers m) !! k).
Proof.
  unfold user_headers. destruct (fold_set (range (default ∅ (Headers m))) make k (range_nodup _)) as [Hin Hout].
  destruct (default ∅ (Headers m) !! k) as [v|] eqn:E; simpl.
  - by apply Hin, elem_of_range.
  - rewrite Hout; [apply Get_make|]. intros ([k' v] & -> & Hv%elem_of_range)%list_elem_of_fmap. simpl in E. congruence.
Qed.

(** The value a reserved name ends up with. *)
Definition reserved (m : Message) (k : string) : string :=
  if String.eqb HeaderOutboxID k then m.(ID)
  else if String.eqb HeaderContentType k then m.(ContentType)
  else if String.eqb HeaderMessageType k then m.(MessageType)
  else if String.eqb HeaderPartitionKey k then m.(PartitionKey)
  else EmptyString.

(** C40. The headers of a NATS message, in whatever order Go walks the caller's:
    a reserved name (outbox id, content type, message type, partition key) whose
    field of the row is not empty carries that field, whatever the message's own
    headers say; one whose field is empty, like every other name, carries the
    message's own header of that name if there is one.  So a message's headers can
    never replace metadata the row has, and can supply what it does not have. *)
Theorem nats_metadata_wins m k :
  Get (setMetadata (user_headers m) m) k =
    if nonempty (reserved m k) then reserved m k
    else default EmptyString (default ∅ (Headers m) !! k).
Proof.
  rewrite <-user_headers_get. unfold setMetadata, reserved.
  destruct (nonempty (ID m)) eqn:E1, (nonempty (ContentType m)) eqn:E2,
    (nonempty (MessageType m)) eqn:E3, (nonempty (PartitionKey m)) eqn:E4; rewrite ?Get_Set;
  (destruct (String.eqb_spec HeaderOutboxID k) as [<-|];
   [simpl; rewrite ?E1; done|]);
  (destruct (String.eqb_spec HeaderContentType k) as [<-|];
   [simpl; rewrite ?E2; done|]);
  (destruct (String.eqb_spec HeaderMessageType k) as [<-|];
   [simpl; rewrite ?E3; done|]);
  (destruct (String.eqb_spec HeaderPartitionKey k) as [<-|];
   [simpl; rewrite ?E4; done|]); done.
Qed.
End Nats.
