(* ===== verification/Valkey.v ===== *)
(** * The Valkey adapters: [contrib/publishers/valkey/valkey.go]

    Pub/Sub and Streams publishers; the client's commands are parameters. *)

From S2P Require Import Prelude Outcome Message Backoff Config Postgres Store Relay Adapters.

Open Scope string_scope.
Open Scope Z_scope.

Section Valkey.
Context `{MapOrder} {W : Type}.

(** Commands as the client's builder completes them. *)
Context {Completed : Type}.
Context (publish_cmd : string → string → Completed).
Context (xadd_cmd : string → string → list (string * string) → Completed).

(** [Do] with the error of its result. *)
Record Client : Type := { Do : Completed → go W (option err) }.
(** Name and value. *)
Definition StreamField : Type := string * string.

Definition StreamFieldPayload : string := "payload".
Definition StreamFieldOutboxID : string := "pg_outbox_id".
Definition StreamFieldPartitionKey : string := "partition_key".
Definition StreamFieldContentType : string := "content_type".
Definition StreamFieldMessageType : string := "message_type".
Definition StreamFieldCreatedAtUnixNano : string := "created_at_unix_nano".
Definition streamHeaderPrefix : string := "header.".

Definition PubSubMapper : Type := Message → string * string * option err.
Definition StreamMapper : Type := Message → string * list StreamField * option err.

Record PubSubPublisher : Type := mkPubSub { ps_client : Client; ps_mapper : PubSubMapper }.
Record StreamPublisher : Type := mkStream { st_client : Client; st_mapper : StreamMapper }.
Definition PubSubOption : Type := PubSubPublisher → PubSubPublisher.
Definition StreamOption : Type := StreamPublisher → StreamPublisher.

Definition WithPubSubMapper (m : option PubSubMapper) : PubSubOption := λ p,
  match m with Some m => mkPubSub p.(ps_client) m | None => p end.
Definition WithStreamMapper (m : option StreamMapper) : StreamOption := λ p,
  match m with Some m => mkStream p.(st_client) m | None => p end.

Definition DefaultPubSubMapper : PubSubMapper := λ m,
  (m.(Topic), of_bytes (default [] m.(Payload)), None).

(** [CreatedAt.UnixNano()], an int64. *)
Definition UnixNano (t : time) : Z := wrap64 (t * 1000).

Definition DefaultStreamMapper : StreamMapper := λ m,
  let fields := [(StreamFieldPayload, of_bytes (default [] m.(Payload)))] in
  let fields := if nonempty m.(ID)
    then (fields ++ [(StreamFieldOutboxID, m.(ID))])%list else fields in
  let fields := if nonempty m.(PartitionKey)
    then (fields ++ [(StreamFieldPartitionKey, m.(PartitionKey))])%list else fields in
  let fields := if nonempty m.(ContentType)
    then (fields ++ [(StreamFieldContentType, m.(ContentType))])%list else fields in
  let fields := if nonempty m.(MessageType)
    then (fields ++ [(StreamFieldMessageType, m.(MessageType))])%list else fields in
  let fields := if negb (m.(CreatedAt) =? zero_time)
    then (fields ++ [(StreamFieldCreatedAtUnixNano, pretty (UnixNano m.(CreatedAt)))])%list else fields in
  (m.(Topic),
   (fields ++ map (λ kv, (streamHeaderPrefix +:+ kv.1, kv.2)) (range (default ∅ m.(Headers))))%list,
   None).

Definition NewPubSub (c : Client) (opts : list PubSubOption) : PubSubPublisher :=
  fold_left (λ p o, o p) opts (mkPubSub c DefaultPubSubMapper).
Definition NewStream (c : Client) (opts : list StreamOption) : StreamPublisher :=
  fold_left (λ p o, o p) opts (mkStream c DefaultStreamMapper).

Definition PubSub_Publish (p : PubSubPublisher) (ms : list Message) : go W (option err) :=
  until_error (λ m,
    match p.(ps_mapper) m with
    | (_, _, Some e) => mret (Some e)
    | (channel, payload, None) => p.(ps_client).(Do) (publish_cmd channel payload)
    end) ms.

Definition Stream_Publish (p : StreamPublisher) (ms : list Message) : go W (option err) :=
  until_error (λ m,
    match p.(st_mapper) m with
    | (_, _, Some e) => mret (Some e)
    | (stream, fields, None) => p.(st_client).(Do) (xadd_cmd stream "*" fields)
    end) ms.

(** *** The names of a stream entry *)

Lemma prefixed_fst (l : list (string * string)) :
  (map (λ kv, (streamHeaderPrefix +:+ kv.1, kv.2)) l).*1 = map (String.append streamHeaderPrefix) l.*1.
Proof. induction l as [|[k v] l IH]; [done|]. simpl. f_equal. exact IH. Qed.

Lemma prefix_inj : Inj (=) (=) (String.append streamHeaderPrefix).
Proof. apply _. Qed.

(** The names of a stream entry are all different, whatever headers the
    message carries, so no header can stand in for the payload or the outbox's
    metadata; and each header is found under its prefixed name. *)
Theorem stream_fields_distinct m :
  let fields := snd (fst (DefaultStreamMapper m)) in
  NoDup fields.*1 ∧
  (StreamFieldPayload, of_bytes (default [] (Payload m))) ∈ fields ∧
  (ID m ≠ EmptyString → (StreamFieldOutboxID, ID m) ∈ fields) ∧
  (∀ k v, default ∅ (Headers m) !! k = Some v ↔ (streamHeaderPrefix +:+ k, v) ∈ fields).
Proof.
  unfold DefaultStreamMapper. simpl.
  set (hs := map (λ kv, (streamHeaderPrefix +:+ kv.1, kv.2)) (range (default ∅ (Headers m)))).
  assert (∀ k v, (streamHeaderPrefix +:+ k, v) ∈ hs ↔ default ∅ (Headers m) !! k = Some v) as Hhs.
  { intros k v. unfold hs. rewrite list_elem_of_fmap, <-elem_of_range. split.
    - intros ([k' v'] & [= E ->] & Hin). by apply (inj _) in E as ->.
    - intros Hin. by exists (k, v). }
  assert (NoDup hs.*1) as Hnd.
  { unfold hs. rewrite prefixed_fst. apply NoDup_fmap_2; [apply prefix_inj|apply range_nodup]. }
  assert (∀ c, (∀ k, c ≠ streamHeaderPrefix +:+ k) → c ∉ hs.*1) as Hout.
  { intros c Hc. unfold hs. rewrite prefixed_fst. intros (k & -> & _)%list_elem_of_fmap. by apply (Hc k). }
  clearbody hs.
  destruct (nonempty (ID m)) eqn:E1, (nonempty (PartitionKey m)), (nonempty (ContentType m)),
    (nonempty (MessageType m)), (negb (CreatedAt m =? zero_time)); simpl;
  (split_and!;
   [repeat (apply NoDup_cons; split; [rewrite ?not_elem_of_cons; split_and?; try done; by apply Hout|]); done
   |by left
   |intros Hid; first [by right; left
                      |unfold nonempty in E1; apply negb_false_iff, String.eqb_eq in E1; done]
   |intros k v; rewrite <-Hhs, ?elem_of_cons; naive_solver]).
Qed.
End Valkey.
