(* ===== verification/Transports.v ===== *)
(** * What the answer of an adapter means

    A relay records a batch as published when its publisher answers nil.  For each
    adapter of [contrib/publishers]: what was sent then, and what was sent when
    the answer is an error. *)

From S2P Require Import Prelude Outcome Message Backoff Config Postgres Store Relay Adapters.
From S2P Require Kafka Nats Valkey.

Open Scope string_scope.
Open Scope Z_scope.

(** A step of a publish loop: map the message, send what it became. *)
Definition mapped_send {W B} (mapper : Message → B * option err) (send : B → go W (option err)) (m : Message)
    : go W (option err) :=
  match mapper m with (_, Some e) => mret (Some e) | (x, None) => send x end.

Lemma sent_all_mapped {W B} (mapper : Message → B * option err) (send : B → go W (option err)) ms w w' :
  sent_all (mapped_send mapper send) ms w w' →
  Forall (λ m, snd (mapper m) = None) ms ∧ sent_all send (map (fst ∘ mapper) ms) w w'.
Proof.
  induction 1 as [w|m ms w w1 w2 Hm _ [IH1 IH2]]; [by split; constructor|].
  unfold mapped_send in Hm. destruct (mapper m) as [x [e|]] eqn:E; [done|].
  split; [constructor; [by rewrite E|done]|]. simpl. rewrite E. by econstructor.
Qed.

Lemma loop_success {W B} (mapper : Message → B * option err) (send : B → go W (option err)) ms w w' :
  until_error (mapped_send mapper send) ms w = (Ok None, w') →
  Forall (λ m, snd (mapper m) = None) ms ∧ sent_all send (map (fst ∘ mapper) ms) w w'.
Proof. intros [[_ Hs]|(? & ? & ? & ? & _ & _ & _ & ?)]%until_error_spec; [by apply sent_all_mapped|done]. Qed.

Lemma until_error_ext {W A} (f g : A → go W (option err)) l w :
  (∀ a w, f a w = g a w) → until_error f l w = until_error g l w.
Proof.
  intros Hfg. revert w. induction l as [|a l IH]; intros w; [done|]. simpl. unfold mbind, M_bind. rewrite Hfg.
  destruct (g a w) as [[[e|]|p] w1]; [done|apply IH|done].
Qed.

(** The commands of the Valkey adapters. *)
Definition pubsub_send {W C} (publish_cmd : string → string → C) (c : Valkey.Client (W := W) (Completed := C))
    (x : string * string) : go W (option err) := Valkey.Do c (publish_cmd x.1 x.2).
Definition stream_send {W C} (xadd_cmd : string → string → list (string * string) → C)
    (c : Valkey.Client (W := W) (Completed := C)) (x : string * list Valkey.StreamField) : go W (option err) :=
  Valkey.Do c (xadd_cmd x.1 "*" x.2).

Lemma PubSub_loop {W C} (cmd : string → string → C) (p : Valkey.PubSubPublisher (W := W)) ms w :
  Valkey.PubSub_Publish cmd p ms w =
    until_error (mapped_send (Valkey.ps_mapper p) (pubsub_send cmd (Valkey.ps_client p))) ms w.
Proof.
  apply until_error_ext. intros m w1. unfold mapped_send. by destruct (Valkey.ps_mapper p m) as [[ch pl] [e|]].
Qed.

Lemma Stream_loop {W C} (cmd : string → string → list (string * string) → C) (p : Valkey.StreamPublisher (W := W)) ms w :
  Valkey.Stream_Publish cmd p ms w =
    until_error (mapped_send (Valkey.st_mapper p) (stream_send cmd (Valkey.st_client p))) ms w.
Proof.
  apply until_error_ext. intros m w1. unfold mapped_send. by destruct (Valkey.st_mapper p m) as [[st fs] [e|]].
Qed.

Lemma Nats_success {W Msg} (p : Nats.Publisher (W := W) (Msg := Msg)) ms w w' :
  Nats.Publish p ms w = (Ok None, w') →
  ∃ w1, until_error (mapped_send (Nats.mapper p) (Nats.PublishMsg (Nats.client p))) ms w = (Ok None, w1) ∧
    (if Nats.flush p then Nats.FlushWithContext (Nats.client p) w1 = (Ok None, w') else w' = w1).
Proof.
  unfold Nats.Publish. intros [(e & w1 & E & Hr)|(q & _ & ?)]%M_bind_inv; [|done].
  destruct e as [e|]; [done|]. exists w1. split; [exact E|]. destruct (Nats.flush p); [done|]. by injection Hr.
Qed.

Section Success.
Context {W KMessage NMsg Completed : Type}.
Context (publish_cmd : string → string → Completed) (xadd_cmd : string → string → list (string * string) → Completed).

(** C39. Success means sent: when an adapter answers nil, every message of the
    batch was mapped without an error, and the transport accepted what each was
    mapped to, all of them in the order of the batch: Kafka in one write, NATS
    one by one and then the flush, unless it was disabled, Valkey one command
    per message; so nothing is recorded as published that was not sent. *)
Theorem success_means_sent ms (w w' : W) :
  (∀ p : Kafka.Publisher (KMessage := KMessage), Kafka.Publish p ms w = (Ok None, w') →
     Forall (λ m, snd (Kafka.mapper p m) = None) ms ∧
     Kafka.WriteMessages (Kafka.writer p) (map (fst ∘ Kafka.mapper p) ms) w = (Ok None, w')) ∧
  (∀ p : Nats.Publisher (Msg := NMsg), Nats.Publish p ms w = (Ok None, w') →
     Forall (λ m, snd (Nats.mapper p m) = None) ms ∧
     ∃ w1, sent_all (Nats.PublishMsg (Nats.client p)) (map (fst ∘ Nats.mapper p) ms) w w1 ∧
       (if Nats.flush p then Nats.FlushWithContext (Nats.client p) w1 = (Ok None, w') else w' = w1)) ∧
  (∀ p, Valkey.PubSub_Publish publish_cmd p ms w = (Ok None, w') →
     Forall (λ m, snd (Valkey.ps_mapper p m) = None) ms ∧
     sent_all (pubsub_send publish_cmd (Valkey.ps_client p)) (map (fst ∘ Valkey.ps_mapper p) ms) w w') ∧
  (∀ p, Valkey.Stream_Publish xadd_cmd p ms w = (Ok None, w') →
     Forall (λ m, snd (Valkey.st_mapper p m) = None) ms ∧
     sent_all (stream_send xadd_cmd (Valkey.st_client p)) (map (fst ∘ Valkey.st_mapper p) ms) w w').
Proof.
  split_and!.
  - intros p E. destruct (Kafka.kafka_all_or_nothing p ms w) as [(? & ? & ? & ? & _ & _ & _ & E')|[Hm E']]; [congruence|].
    split; [done|congruence].
  - intros p (w1 & [Hm Hs]%loop_success & Hf)%Nats_success. split; [done|]. by exists w1.
  - intros p. rewrite PubSub_loop. apply loop_success.
  - intros p. rewrite Stream_loop. apply loop_success.
Qed.
End Success.
