(* ===== verification/Migrations.v ===== *)
(** * Migrations: [migrations/migrations.go] and the upgrade of [migrations/*.sql]

    The ordered list of forward migrations, and what the second of them does to
    the rows of a table created by the first. *)

From S2P Require Import Prelude Outcome Message Backoff Config Postgres Store.

Open Scope string_scope.
Open Scope Z_scope.

(** ** [Up] *)

(** A file system as its directory entries: file name and contents. *)
Definition FS : Type := list (string * string).

Fixpoint HasSuffix (s suffix : string) : bool :=
  String.eqb s suffix || match s with EmptyString => false | String _ s' => HasSuffix s' suffix end.

Definition ReadFile (fs : FS) (name : string) : option string :=
  snd <$> find (λ f, String.eqb f.1 name) fs.

Definition string_le (a b : string) : Prop := String.leb a b = true.
#[export] Instance string_le_dec a b : Decision (string_le a b).
Proof. unfold string_le. apply _. Defined.

(** [None] is the panic on a file that cannot be read. *)
Definition Up (fs : FS) : option (list string) :=
  let names := filter (λ n, HasSuffix n ".sql" = true) (map fst fs) in
  mapM (ReadFile fs) (merge_sort string_le names).

#[export] Instance string_le_total : Total string_le.
Proof. intros a b. unfold string_le. destruct (String.leb_total a b); auto. Qed.

Lemma ReadFile_some fs n c : NoDup fs.*1 → (n, c) ∈ fs → ReadFile fs n = Some c.
Proof.
  unfold ReadFile. induction fs as [|[n0 c0] fs IH]; simpl; [by intros _ ?%not_elem_of_nil|].
  intros [Hn Hnd]%NoDup_cons. destruct (String.eqb_spec n0 n) as [->|Hne].
  - intros [[= ->]|Hin]%elem_of_cons; [done|]. destruct Hn. apply list_elem_of_fmap. by exists (n, c).
  - intros [[= <- <-]|Hin]%elem_of_cons; [done|]. by apply IH.
Qed.

(** [Up] never panics, returns each [.sql] file exactly once and nothing
    else, in the order of the file names. *)
Theorem Up_spec fs :
  NoDup fs.*1 →
  ∃ names out, Up fs = Some out ∧ Forall2 (λ n c, (n, c) ∈ fs) names out ∧
    names ≡ₚ filter (λ n, HasSuffix n ".sql" = true) fs.*1 ∧ Sorted string_le names.
Proof.
  intros Hnd. unfold Up. set (names := merge_sort string_le (filter (λ n, HasSuffix n ".sql" = true) (map fst fs))).
  assert (names ≡ₚ filter (λ n, HasSuffix n ".sql" = true) fs.*1) as Hp by apply merge_sort_Permutation.
  assert (Forall (λ n, ∃ c, (n, c) ∈ fs) names) as Hall.
  { rewrite Hp. apply Forall_forall. intros n [_ ([n' c] & -> & ?)%list_elem_of_fmap]%list_elem_of_filter. eauto. }
  assert (∃ out, mapM (ReadFile fs) names = Some out ∧ Forall2 (λ n c, (n, c) ∈ fs) names out) as (out & E & F).
  { clear Hp. clearbody names. induction Hall as [|n names (c & Hc) _ (out & E & F)]; [by exists []|].
    exists (c :: out). split; [|by constructor]. simpl. by rewrite (ReadFile_some fs n c), E. }
  exists names, out. split_and!; try done. apply Sorted_merge_sort, _.
Qed.

(** ** The upgrade of a first-version table *)

(** A row of [0001_init.sql]: neither token, terminal time nor sequence. *)
Record OldRow : Type := mkOldRow {
  old_topic : string;
  old_partition_key : option string;
  old_payload : bytes;
  old_headers : json;
  old_content_type : option string;
  old_message_type : option string;
  old_status : Status;
  old_attempts : Z;
  old_max_attempts : option Z;
  old_locked_by : option string;
  old_locked_until : option time;
  old_next_attempt_at : time;
  old_last_error : option string;
  old_created_at : time;
  old_published_at : option time
}.

(** The UPDATE of the second migration, run at [now], and the [seq] the third
    one draws for the row. *)
Definition upgrade_row (now : time) (k : Z) (o : OldRow) : Row :=
  mkRow o.(old_topic) o.(old_partition_key) o.(old_payload) o.(old_headers) o.(old_content_type)
    o.(old_message_type) o.(old_status) o.(old_attempts) o.(old_max_attempts) o.(old_locked_by)
    o.(old_locked_until) o.(old_next_attempt_at) o.(old_last_error) o.(old_created_at)
    o.(old_published_at) None
    (match o.(old_status) with
     | StatusPublished | StatusDead | StatusDiscarded =>
         match o.(old_published_at) with Some t => Some t | None => Some now end
     | StatusPending | StatusProcessing => None
     end)
    k.

(** Upgrading loses no dead letter: a dead row of the first version, which
    has no terminal time, starts its retention at the migration, so no cleanup
    removes it before that retention has passed since; and a row a first-version
    relay holds claimed is never completed or renewed by a token. *)
Theorem upgrade_keeps `{Postgres} now k o clk ret dead disc keys id :
  old_published_at o = None →
  (old_status o = StatusDead → removable clk ret dead disc (upgrade_row now k o) = true →
     0 < dead ∧ now + interval_us dead < clk) ∧
  (old_status o = StatusProcessing → live_claim clk keys id (upgrade_row now k o) = false).
Proof.
  intros Hp. split.
  - intros Hs. unfold removable, upgrade_row, expired. simpl. rewrite Hs, Hp. simpl.
    rewrite andb_true_iff, !Z.ltb_lt. lia.
  - intros _. apply not_true_iff_false. rewrite live_claim_spec. simpl. naive_solver.
Qed.
