(* ===== verification/Api.v ===== *)
(** * The public names: [outbox.go]

    What the package re-exports for its users, under the names it gives it, and
    the options as a user passes them: which field each writes, and that their
    order does not matter unless two write the same field. *)

From S2P Require Import Prelude Outcome Message Backoff Config Postgres Store System Safety StoreSpec Relay World RelaySpec RelaySafety RelayCorrect RelayLive Cleaner Lifecycle Facade Migrations.

Open Scope string_scope.
Open Scope Z_scope.

(** ** Options *)

(** The option functions of the package, applied to their arguments. *)
Inductive PublicOption : Type :=
| WithConfig (c : Config.Config)
| WithInstanceID (id : string)
| WithSchema (schema : string)
| WithPollInterval (d : duration)
| WithBatchSize (n : Z)
| WithLeaseDuration (d : duration)
| WithConcurrency (n : Z)
| WithMaxAttempts (n : Z)
| WithRetryBackoff (b : option Backoff.Backoff)
| WithRetention (ttl : duration)
| WithDeadRetention (ttl : duration)
| WithDiscardRetention (ttl : duration)
| WithClearPayloadOnComplete (enabled : bool)
| WithPublishTimeout (d : duration)
| WithCleanupInterval (d : duration)
| WithOrdered (v : bool)
| WithoutNotify
| WithListenPool (p : option Pool)
| WithFatal (f : option (err → res panic bool))
| WithHooks (h : option Config.Hooks)
| WithCodec (c : option Config.Codec)
| WithLogger (l : option Logger).

Definition option_of (o : PublicOption) : Config.Option :=
  match o with
  | WithConfig c => Config.WithConfig c
  | WithInstanceID id => Config.WithInstanceID id
  | WithSchema schema => Config.WithSchema schema
  | WithPollInterval d => Config.WithPollInterval d
  | WithBatchSize n => Config.WithBatchSize n
  | WithLeaseDuration d => Config.WithLeaseDuration d
  | WithConcurrency n => Config.WithConcurrency n
  | WithMaxAttempts n => Config.WithMaxAttempts n
  | WithRetryBackoff b => Config.WithRetryBackoff b
  | WithRetention ttl => Config.WithRetention ttl
  | WithDeadRetention ttl => Config.WithDeadRetention ttl
  | WithDiscardRetention ttl => Config.WithDiscardRetention ttl
  | WithClearPayloadOnComplete enabled => Config.WithClearPayloadOnComplete enabled
  | WithPublishTimeout d => Config.WithPublishTimeout d
  | WithCleanupInterval d => Config.WithCleanupInterval d
  | WithOrdered v => Config.WithOrdered v
  | WithoutNotify => Config.WithoutNotify
  | WithListenPool p => Config.WithListenPool p
  | WithFatal f => Config.WithFatal f
  | WithHooks h => Config.WithHooks h
  | WithCodec c => Config.WithCodec c
  | WithLogger l => Config.WithLogger l
  end.

(** The fields of [Settings]. *)
Inductive field : Set :=
| FInstanceID | FSchema | FPollInterval | FBatchSize | FLeaseDuration | FConcurrency | FMaxAttempts | FBackoff
| FRetention | FDeadRetention | FDiscardRetention | FClearPayloadOnComplete | FPublishTimeout | FCleanupInterval
| FOrdered | FNotify | FListenPool | FFatal | FHooks | FCodec | FLogger.
#[export] Instance field_eq_dec : EqDecision field.
Proof. solve_decision. Defined.

(** The fields an option may write. *)
Definition fields_of (o : PublicOption) : list field :=
  match o with
  | WithConfig _ =>
      [FSchema; FPollInterval; FBatchSize; FLeaseDuration; FConcurrency; FMaxAttempts; FRetention; FDeadRetention;
       FDiscardRetention; FClearPayloadOnComplete; FPublishTimeout; FCleanupInterval; FOrdered; FNotify]
  | WithInstanceID _ => [FInstanceID]
  | WithSchema _ => [FSchema]
  | WithPollInterval _ => [FPollInterval]
  | WithBatchSize _ => [FBatchSize]
  | WithLeaseDuration _ => [FLeaseDuration]
  | WithConcurrency _ => [FConcurrency]
  | WithMaxAttempts _ => [FMaxAttempts]
  | WithRetryBackoff _ => [FBackoff]
  | WithRetention _ => [FRetention]
  | WithDeadRetention _ => [FDeadRetention]
  | WithDiscardRetention _ => [FDiscardRetention]
  | WithClearPayloadOnComplete _ => [FClearPayloadOnComplete]
  | WithPublishTimeout _ => [FPublishTimeout]
  | WithCleanupInterval _ => [FCleanupInterval]
  | WithOrdered _ => [FOrdered]
  | WithoutNotify => [FNotify]
  | WithListenPool _ => [FListenPool]
  | WithFatal _ => [FFatal]
  | WithHooks _ => [FHooks]
  | WithCodec _ => [FCodec]
  | WithLogger _ => [FLogger]
  end.

(** No two of the options write the same field. *)
Definition apart (a b : PublicOption) : bool := forallb (λ f, bool_decide (f ∉ fields_of b)) (fields_of a).
Fixpoint independent (opts : list PublicOption) : bool :=
  match opts with [] => true | a :: opts' => forallb (apart a) opts' && independent opts' end.

Lemma apart_commute a b s :
  apart a b = true → option_of a (option_of b s) = option_of b (option_of a s).
Proof.
  destruct a, b; intros Hap; try (vm_compute in Hap; discriminate Hap);
    repeat match goal with o : option _ |- _ => destruct o end; reflexivity.
Qed.

Lemma apart_sym a b : apart a b = apart b a.
Proof.
  apply eq_true_iff_eq. unfold apart. rewrite !forallb_forall. setoid_rewrite bool_decide_eq_true.
  setoid_rewrite list_elem_of_In. naive_solver.
Qed.

Lemma forallb_perm {A} (p : A → bool) l l' : l ≡ₚ l' → forallb p l = forallb p l'.
Proof.
  induction 1 as [|a l l' _ IH|a b l|l1 l2 l3 _ IH1 _ IH2]; simpl; [done|by rewrite IH| |congruence].
  by rewrite !andb_assoc, (andb_comm (p a)).
Qed.

Lemma independent_perm opts opts' : opts ≡ₚ opts' → independent opts = independent opts'.
Proof.
  induction 1 as [|a l l' Hl IH|a b l|l1 l2 l3 _ IH1 _ IH2]; simpl; [done| | |congruence].
  - by rewrite IH, (forallb_perm _ _ _ Hl).
  - rewrite (apart_sym a b). destruct (apart b a); simpl; [|done].
    rewrite !andb_assoc. f_equal. apply andb_comm.
Qed.

Lemma apply_perm opts opts' s :
  opts ≡ₚ opts' → independent opts = true →
  fold_left (λ s o, o s) (map option_of opts) s = fold_left (λ s o, o s) (map option_of opts') s.
Proof.
  intros Hp. revert s. induction Hp as [|a l l' Hl IH|a b l|l1 l2 l3 H12 IH1 H23 IH2]; intros s Hi; simpl in *; [done| | |].
  - apply andb_true_iff in Hi as [_ Hi]. by apply IH.
  - apply andb_true_iff in Hi as [[Hab _]%andb_true_iff _]. by rewrite (apart_commute _ _ _ Hab).
  - rewrite IH1 by done. apply IH2. by rewrite <-(independent_perm _ _ H12).
Qed.

(** The order of the options does not matter unless two of them write the
    same field: any two orders of the same options, no two of which share a
    field, resolve to the same settings. *)
Theorem options_in_any_order random hostname opts opts' :
  opts ≡ₚ opts' → independent opts = true →
  Resolve random hostname (map option_of opts) = Resolve random hostname (map option_of opts').
Proof. intros Hp Hi. unfold Resolve. by rewrite (apply_perm opts opts'). Qed.

(** ** Types, constants, constructors *)

Definition Message : Type := Message.Message.
Definition Status : Set := Message.Status.
Definition Publisher : Type → Type := Relay.Publisher.
Definition Codec : Type := Config.Codec.
Definition Hooks : Type := Config.Hooks.
Definition NoopHooks : Hooks := Config.NoopHooks.
Definition Executor : Type → Type := Store.Executor.
Definition Backoff : Type := Backoff.Backoff.
Definition Config : Type := Config.Config.
Definition Settings : Type := Config.Settings.
Definition Option : Type := Config.Option.

Definition TableName : string := Message.TableName.
Definition Statuses : list Status :=
  [Message.StatusPending; Message.StatusProcessing; Message.StatusPublished; Message.StatusDead;
   Message.StatusDiscarded].

Definition Permanent : option err → err := Outcome.Permanent.
Definition RetryAfter : option err → Z → err := Outcome.RetryAfter.
Definition Discard : option err → err := Outcome.Discard.
Definition Abort : option err → err := Outcome.Abort.
Definition PerMessage : list (string * option err) → option err → err := Outcome.PerMessage.
Definition ErrLeaseLost : err := Outcome.ErrLeaseLost.

Definition ExpBackoff := Backoff.Exp.
Definition DefaultBackoff : Backoff := Backoff.Default.

(** [MigrationsFS], the embedded file system, and [Migrations], over it. *)
Definition MigrationsFS (embedded : FS) : FS := embedded.
Definition Migrations (embedded : FS) : option (list string) := Up embedded.

Definition ErrEmptyTopic : err := Message.ErrEmptyTopic.
Definition ErrNilPayload : err := Message.ErrNilPayload.
Definition ErrInvalidSchema : err := Config.ErrInvalidSchema.
