(* ===== verification/Scripted.v ===== *)
(** * A scripted deployment

    A concrete server, executor, publisher and runtime, deterministic and
    executable, that satisfy the contract of [World.v]: statements run on a
    server at a clock that advances by a fixed step, the other processes move in
    between, and a script says which statements fail, what the publisher answers
    and when the context ends. *)

From stdpp Require Import relations.
From S2P Require Import Prelude Outcome Message Backoff Config Postgres Store System Safety StoreSpec Relay World RelaySpec RelaySafety RelayCorrect RelayLive.

Open Scope string_scope.
Open Scope Z_scope.

(** Any non-empty string is a uuid, texts and documents hold no zero byte,
    durations round to microseconds, and rows come back in key order. *)
Definition demo_uuid (s : string) : option string :=
  if String.eqb s EmptyString then None else Some s.
Definition demo_interval (d : duration) : Z := (d + 500) / 1000.

Definition zero_free (s : string) : bool :=
  string_all (λ c, negb (Ascii.N_of_ascii c =? 0)%N) s.
Fixpoint json_zero_free (j : json) : bool :=
  match j with
  | JNull | JBool _ | JNum _ => true
  | JStr s => zero_free s
  | JArr l => forallb json_zero_free l
  | JObj fields => forallb (λ kv, zero_free kv.1 && json_zero_free kv.2) fields
  end.

#[export] Program Instance demo_postgres : Postgres := {|
  uuid_in := demo_uuid;
  text_in := zero_free;
  jsonb_in := json_zero_free;
  interval_us := demo_interval;
  returning := λ _ l, l
|}.
Next Obligation. intros s c. unfold demo_uuid. destruct (String.eqb_spec s EmptyString); [done|].
  intros [= <-]. by rewrite (proj2 (String.eqb_neq _ _)). Qed.
Next Obligation. intros d Hd. unfold demo_interval. apply Z.div_pos; lia. Qed.
Next Obligation. done. Qed.

(** A token longer than every token drawn so far. *)
Definition fresh_token (used : gset string) : string := foldr String.append "t" (elements used).

Lemma fresh_token_new used : fresh_token used ∉ used.
Proof.
  intros Hin%elem_of_elements. unfold fresh_token in Hin. revert Hin.
  assert (∀ l x, x ∈ l → (String.length x < String.length (foldr String.append "t" l))%nat) as Hlt.
  { intros l x. induction l as [|y l IH]; [by intros ?%not_elem_of_nil|]. simpl.
    rewrite string_append_length. intros [->|Hx]%elem_of_cons.
    - enough (0 < String.length (foldr String.append "t" l))%nat by lia. clear.
      induction l as [|z l IHl]; simpl; [lia|]. rewrite string_append_length. lia.
    - specialize (IH Hx). lia. }
  intros Hx%Hlt. lia.
Qed.

Lemma fresh_token_uuid used : uuid_in (fresh_token used) = Some (fresh_token used).
Proof.
  simpl. unfold demo_uuid. destruct (String.eqb_spec (fresh_token used) EmptyString) as [E|]; [|done].
  exfalso. unfold fresh_token in E. revert E. clear. generalize (elements used). intros l.
  assert (0 < String.length (foldr String.append "t" l))%nat as Hpos.
  { induction l as [|z l IHl]; simpl; [lia|]. rewrite string_append_length. lia. }
  intros E. rewrite E in Hpos. simpl in Hpos. lia.
Qed.

(** ** Script and world *)

Inductive Fault : Type :=
| NoFault
| DropRequest          (* the statement never reaches the server *)
| LoseAnswer           (* it runs, the answer is lost *)
| CrashAfter.          (* it runs, then the executor panics *)

Record Script : Type := mkScript {
  sc_elapsed : N;                                         (* time of a statement, in microseconds *)
  sc_fault : nat → Fault;                                 (* by the number of statements sent *)
  sc_answer : list Message → res panic (option err);      (* the publisher *)
  sc_write : Message → option Z;                          (* what it stores in an attempt limit *)
  sc_done : list Obs → bool;                              (* the relay's context *)
  sc_beats : list HbEvent;                                (* heartbeat events of a publish *)
  sc_random : Z → Z;
  sc_hook : Event → option panic                          (* a panicking hook *)
}.

Record WorldOf (S : Type) : Type := mkWorld { w_sys : S; w_trace : list Obs }.
Arguments mkWorld {S} _ _.
Arguments w_sys {S} _.
Arguments w_trace {S} _.
#[export] Instance scripted {S} `{Server S} : Deployment (WorldOf S) :=
  {| server := S; server_of := w_sys; trace_of := w_trace |}.
Notation World := (WorldOf Sys).

(** A server to run scripts on: it takes so long for a statement, and may make it
    wait until the client gives up. *)
Class Machine (S : Type) `{Server S} : Type := {
  env_for : N → S → StmtEnv;
  execute : N → Stmt → S → option S;
  execute_runs n st s s' : execute n st s = Some s' → runs (env_for n s) st s s'
}.

Definition env_at (elapsed : N) (s : Sys) : StmtEnv :=
  mkStmtEnv (s_clock s) (s_clock s + Z.of_N elapsed) ∅ (λ _, fresh_token (s_used s))
    (λ i, "id" +:+ pretty (Z.of_nat i)).

Lemma env_at_ready elapsed s : stmt_ready (env_at elapsed s) s.
Proof.
  split; simpl; [|lia|intros; apply fresh_token_new].
  split; simpl; [lia|intros; done|intros; apply fresh_token_uuid].
Qed.

#[export] Program Instance sys_machine : Machine Sys := {|
  env_for := env_at;
  execute := λ n st s, Some (advance (env_at n s) st s)
|}.
Next Obligation. simpl. intros n st s s' [= <-]. split; [apply env_at_ready|done|done]. Qed.

Section Scripted.
Context {S : Type} `{Machine S} (sc : Script).
(** What the other processes do before the n-th statement arrives. *)
Context (meddle : nat → S → S).
Implicit Types w : WorldOf S.

Definition connection_lost : err := EPg "08006" "connection lost".
Definition executor_panic : panic := (PvOther "executor", EmptyString).

Definition lock_timeout : err := EPg "55P03" "canceling statement due to lock timeout".

Definition sent_to (st : Stmt) (s : S) w : WorldOf S := mkWorld s (w_trace w ++ [Sent st]).

Definition send (st : Stmt) : go (WorldOf S) (Done + err) := λ w,
  let n := length (List.filter (λ o, match o with Sent _ => true | _ => false end) (w_trace w)) in
  let s := meddle n (w_sys w) in
  match sc_fault sc n, execute (sc_elapsed sc) st s with
  | DropRequest, _ => (Ok (inr connection_lost), sent_to st s w)
  | _, None => (Ok (inr lock_timeout), sent_to st s w)
  | NoFault, Some s' =>
      match exec_stmt (env_for (sc_elapsed sc) s) st (s_db (base s)) with
      | SqlOk d => (Ok (inl d), sent_to st s' w)
      | SqlErr code => (Ok (inr (EPg code "statement failed")), sent_to st s' w)
      end
  | LoseAnswer, Some s' => (Ok (inr connection_lost), sent_to st s' w)
  | CrashAfter, Some s' => (Panicked executor_panic, sent_to st s' w)
  end.

Definition executor_beside : Executor (WorldOf S) := {|
  Exec := λ st, d ← send st; mret (match d with inl d => (d_affected d, None) | inr e => (0, Some e) end);
  Query := λ st, d ← send st; mret (match d with inl d => (d_rows d, None) | inr e => ([], Some e) end)
|}.

Definition note (o : Obs) : go (WorldOf S) unit := λ w, (Ok tt, mkWorld (w_sys w) (w_trace w ++ [o])).

(** The publisher may overwrite the attempt limit a message points to. *)
Definition written (m : Message) : Message :=
  mkMessage (ID m) (Topic m) (PartitionKey m) (Payload m) (Headers m) (ContentType m) (MessageType m)
    (match MaxAttempts m, sc_write sc m with Some _, Some n => Some n | max, _ => max end)
    (MStatus m) (Attempts m) (LeaseToken m) (LockedBy m) (LockedUntil m) (NextAttemptAt m) (LastError m)
    (CreatedAt m) (PublishedAt m) (FinishedAt m).

Definition answer (ms : list Message) : res panic (list Message * option err) :=
  match sc_answer sc ms with Ok e => Ok (map written ms, e) | Panicked p => Panicked p end.

Definition publisher : Publisher (WorldOf S) := {|
  Publish := λ _ ms, _ ← note (Handed ms (answer ms)); lift_res (answer ms)
|}.

Definition runtime : Runtime (WorldOf S) := {|
  ctx_Err := λ w, (Ok (sc_done sc (w_trace w)), w);
  pubCtx_Err := λ w, (Ok (sc_done sc (w_trace w)), w);
  heartbeat_events := λ _ _ w, (Ok (sc_beats sc), w);
  random := λ w, (Ok (sc_random sc), w);
  observe := λ ev, _ ← note (Observed ev);
             match sc_hook sc ev with Some p => raise p | None => mret tt end
|}.

(** ** The contract holds *)

Context (others : relation S) `{!Reflexive others} (Hmeddle : ∀ n s, others s (meddle n s)).

Lemma send_law st w r w' :
  send st w = (r, w') →
  records w w' [Sent st] ∧
  match r with
  | Ok (inl d) => call others st w w' (Some d)
  | Ok (inr e) => call others st w w' None ∧ foreign e
  | Panicked p => call others st w w' None ∧ foreign (panic_error p)
  end.
Proof.
  unfold send. set (n := length _). set (s := meddle n (w_sys w)).
  assert (call others st w (sent_to st s w) None) as Hdrop by (apply call_dropped, Hmeddle).
  destruct (execute (sc_elapsed sc) st s) as [s'|] eqn:Hex.
  - apply execute_runs in Hex as Hruns.
    assert (call others st w (sent_to st s' w) None) as Hlost.
    { by eapply call_lost; [apply Hmeddle|exact Hruns|]. }
    destruct (sc_fault sc n); [destruct (exec_stmt _ _ _) as [d|] eqn:Hd|..]; intros [= <- <-]; (split; [done|]);
      [|by split..].
    by eapply call_answered; [apply Hmeddle|exact Hruns|exact Hd|].
  - destruct (sc_fault sc n); intros [= <- <-]; (split; [done|]); by split.
Qed.

Lemma executor_beside_lawful : LawfulExecutor others executor_beside.
Proof.
  split; intros st w r w'; simpl; intros E; run_inv E;
    match goal with X : send _ _ = _ |- _ => apply send_law in X as [? Hs] end.
  - destruct x as [d|e]; injection E as <- <-; (split; [done|]); eauto.
  - by subst.
  - destruct x as [d|e]; injection E as <- <-; (split; [done|]); eauto.
  - by subst.
Qed.

#[export] Instance publisher_lawful : LawfulPublisher others publisher.
Proof.
  split.
  - intros c ms w r w'. simpl. by intros [= <- <-].
  - intros c ms w ms' e w'. simpl. unfold mbind, M_bind, note, lift_res, answer.
    destruct (sc_answer sc ms); [|done]. intros [= <- _ _]. induction ms as [|m ms IH]; [constructor|].
    simpl. constructor; [|exact IH]. split; try done. simpl.
    destruct (MaxAttempts m), (sc_write sc m); (done || split; by eexists).
Qed.

Lemma written_limits : (∀ m, sc_write sc m = None) → KeepsLimits publisher.
Proof.
  intros Hw. split. intros c ms w ms' e w'. simpl. unfold mbind, M_bind, note, lift_res, answer.
  destruct (sc_answer sc ms); [|done]. intros [= <- _ _]. rewrite map_map. apply map_ext. intros m.
  simpl. rewrite Hw. by destruct (MaxAttempts m).
Qed.

#[export] Instance runtime_lawful : LawfulRuntime others runtime.
Proof.
  split; try (intros *; intros w r w' [= <- <-]; split; [done|]; unfold records; by rewrite app_nil_r).
  - done.
  - intros ev w r w'. simpl. unfold mbind, M_bind, note. destruct (sc_hook sc ev); by intros [= <- <-].
Qed.

End Scripted.

(** ** Alone on the plain server *)

Section Alone.
Context (sc : Script).

Definition executor : Executor World := executor_beside sc (λ _ s, s).

#[export] Instance executor_lawful : LawfulExecutor eq executor.
Proof. by apply executor_beside_lawful. Qed.

(** A script without faults answers within its step. *)
Lemma responsive_script :
  (∀ n, sc_fault sc n = NoFault) → Responsive (Z.of_N (sc_elapsed sc)) executor.
Proof.
  intros Hno. split; [lia|]. intros st w. exists (env_at (sc_elapsed sc) (sys_of w)).
  split_and!; [apply env_at_ready|simpl; lia|simpl; lia|done|].
  intros d Hd. set (w' := sent_to st (advance (env_at (sc_elapsed sc) (w_sys w)) st (w_sys w)) w).
  assert (send sc (λ _ s, s) st w = (Ok (inl d), w')) as E.
  { unfold send. rewrite Hno. unfold db_of, sys_of in Hd. simpl in Hd |- *. by rewrite Hd. }
  split; exists w'; (split; [|done]); simpl; by rewrite (M_bind_ok _ _ _ _ _ E).
Qed.

Lemma calm_script (r : Relay World) :
  (∀ tr, sc_done sc tr = false) → (∀ ev, sc_hook sc ev = None) →
  (∀ b n, sBackoff (set r) = Some b → ∃ d, b (sc_random sc) n = Ok d) → Calm (runtime sc) r.
Proof.
  intros Hd Hh Hb. split.
  - intros w. exists w. simpl. by rewrite Hd.
  - intros w. exists (sc_random sc), w. by split.
  - intros ev w. eexists. simpl. unfold mbind, M_bind, note. by rewrite Hh.
Qed.
End Alone.
