(* ===== verification/TxRuns.v ===== *)
(** * Runs with transactions

    Concrete runs of [Transactions.v] on the server of [Scripted.v], played from
    a list of moves; among them the one in which ordered mode delivers two
    messages of a key against their transaction times.  At the end, scripts for a
    relay on that server, with moves of the others between its statements. *)

From stdpp Require Import relations.
From S2P Require Import Prelude Outcome Message Backoff Config Postgres Store System Safety StoreSpec Relay World RelaySpec RelaySafety RelayCorrect RelayLive Cleaner Lifecycle Facade Scripted Transactions TxSafety TxCalls Handover TxRelay.

Open Scope string_scope.
Open Scope Z_scope.

(** ** Moves *)

Inductive Move : Type :=
| MBegin | MIn (x : nat) (st : Stmt) | MCommit (x : nat) | MRollback (x : nat) | MAuto (st : Stmt).

(** The server's part: statements of a transaction at its start time, each ten
    microseconds long; the rows of open transactions are locked. *)
Definition move_env (T : TxSys) (now : time) : StmtEnv :=
  mkStmtEnv now (s_clock (t_sys T) + 10) (held_by (t_open T)) (λ _, fresh_token (s_used (t_sys T)))
    (λ i, "id" +:+ pretty (Z.of_nat i)).

Definition act_of (T : TxSys) (mv : Move) : Act :=
  match mv with
  | MBegin => Begin (s_clock (t_sys T) + 10)
  | MIn x st => InTx x (move_env T (default 0 (x_start <$> t_open T !! x))) st
  | MCommit x => Commit x (s_clock (t_sys T))
  | MRollback x => Rollback x
  | MAuto st => Auto (move_env T (s_clock (t_sys T))) st
  end.

Definition move_ok (mv : Move) : Prop :=
  match mv with
  | MIn _ st => issued (st_cmd st) ∧ caller_cmd (st_cmd st) = true
  | MAuto st => issued (st_cmd st) ∧ ∀ o inst lease limit, st_cmd st = CClaim o inst lease limit → o = true
  | _ => True
  end.

Fixpoint play (T : TxSys) (mvs : list Move) : option TxSys :=
  match mvs with
  | [] => Some T
  | mv :: mvs' => T' ← tx_exec T (act_of T mv); play T' mvs'
  end.

Lemma move_env_ok T now : now ≤ s_clock (t_sys T) → env_ok (move_env T now).
Proof. intros Hn. split; simpl; [lia|done|intros; apply fresh_token_uuid]. Qed.

Lemma act_of_ok T mv : tx_ok T → is_Some (tx_exec T (act_of T mv)) → move_ok mv → act_ok T (act_of T mv).
Proof.
  intros Hok Hex Hmv. destruct mv as [|x st|x|x|st]; simpl in *; try lia; try done.
  - destruct (t_open T !! x) as [tx|] eqn:Hx; [|by destruct Hex]. destruct Hmv.
    destruct (ok_start _ Hok _ _ Hx). split_and!; [by apply move_env_ok|lia|done|done|by intros ? [= <-]].
  - destruct Hmv. split_and!; [by apply move_env_ok|lia|done|intros; apply fresh_token_new|done].
Qed.

Lemma play_steps T mvs T' :
  tx_ok T → Forall move_ok mvs → play T mvs = Some T' → rtc ordered_claims_step T T' ∧ rtc tx_step T T'.
Proof.
  intros Hok Hall. revert T Hok. induction Hall as [|mv mvs Hmv _ IH]; intros T Hok; simpl.
  - intros [= <-]. split; apply rtc_refl.
  - destruct (tx_exec T (act_of T mv)) as [T1|] eqn:Hex; [|done]. simpl. intros Hp.
    assert (act_ok T (act_of T mv)) as Ha by (apply act_of_ok; [done|by eexists|done]).
    destruct (IH T1) as [H1 H2]; [by eapply tx_exec_ok|done|]. split; [|by eapply rtc_l; [econstructor|]].
    eapply rtc_l; [|exact H1]. econstructor; [exact Ha| |exact Hex].
    destruct mv as [|x st|x|x|st]; try done. intros e st' o inst lease limit [= _ <-]. by apply Hmv.
Qed.

(** ** Two transactions that overlap *)

Definition tx_table : string := Quote "public" +:+ "." +:+ TableName.
Definition tx_empty : TxSys := mkTxSys (mkSys (mkDb tx_table ∅ 1 0) 100 ∅) ∅ 0.

Definition enq_of (ms : list Message) : Stmt :=
  mkStmt tx_table (CEnqueue (enqueue_text tx_table ms) (flat_map enqueue_args ms)).
Definition keyed (id : string) : Message :=
  new_message id "orders" "k" (Some []) None EmptyString EmptyString None.
Definition ordered_claim : Stmt :=
  let s := Config.WithOrdered true (WithInstanceID "relay-1" Config.Default) in
  mkStmt tx_table (CClaim (Ordered s) (InstanceID s) (LeaseDuration s) (BatchSize s)).

(** Transaction 0 starts first; 1 enqueues [b] and commits, and a relay claims
    it; then 0 enqueues [a], commits, and a relay claims that. *)
Definition overlap1 : list Move :=
  [MBegin; MBegin; MIn 1 (enq_of [keyed "b"]); MCommit 1; MAuto ordered_claim].
Definition overlap2 : list Move := [MIn 0 (enq_of [keyed "a"]); MCommit 0; MAuto ordered_claim].

Definition played (T : TxSys) (mvs : list Move) : TxSys := default T (play T mvs).

Lemma tx_empty_ok : tx_ok tx_empty.
Proof.
  apply quiet_ok; [|done]. assert (∀ id, rows (committed tx_empty) !! id = None) as Hno by (intros; apply lookup_empty).
  split; intros *; rewrite Hno; done.
Qed.

Lemma overlap_ok : Forall move_ok overlap1 ∧ Forall move_ok overlap2.
Proof.
  assert (move_ok (MAuto ordered_claim)) as Hc.
  { split; [constructor|]. by intros o inst lease limit [= <- _ _ _]. }
  split; repeat constructor; apply Hc.
Qed.

Definition claimed_second : TxSys := played tx_empty overlap1.
Definition claimed_both : TxSys := played claimed_second overlap2.

Lemma played_steps T mvs :
  tx_ok T → Forall move_ok mvs → is_Some (play T mvs) →
  rtc ordered_claims_step T (played T mvs) ∧ rtc tx_step T (played T mvs) ∧ tx_ok (played T mvs).
Proof.
  intros Hok Hall [T' Hp]. unfold played. rewrite Hp. simpl.
  destruct (play_steps T mvs T' Hok Hall Hp) as [? ?]. split_and!; [done..|by eapply tx_reachable_ok].
Qed.

Lemma claimed_second_run :
  rtc ordered_claims_step tx_empty claimed_second ∧ rtc tx_step tx_empty claimed_second ∧ tx_ok claimed_second.
Proof.
  apply played_steps; [apply tx_empty_ok|apply overlap_ok|]. apply (bool_decide_unpack _). vm_compute. exact I.
Qed.

Lemma claimed_both_run : rtc ordered_claims_step claimed_second claimed_both.
Proof.
  apply played_steps; [apply claimed_second_run|apply overlap_ok|].
  apply (bool_decide_unpack _). vm_compute. exact I.
Qed.

Definition committed_row (T : TxSys) (id : string) : option Row := rows (committed T) !! id.

(** The two rows are one key's, in this order, both handed out. *)
Definition both_out (k : string) (ra rb : Row) : bool :=
  bool_decide (partition_key ra = Some k) && bool_decide (partition_key rb = Some k) && before ra rb
  && bool_decide (status ra = StatusProcessing) && bool_decide (status rb = StatusProcessing).

(** The limit of ordered delivery: ordering by transaction time holds among
    rows that are visible, not among transactions that overlap.  From an empty
    table, with every claim ordered, a run of two transactions of one key hands
    out the message of the later one while that of the earlier one, already
    started, is not visible; and then the message that is first by transaction
    time and number is handed out second, while the other is still processing. *)
Theorem overlapping_transactions_reorder :
  ∃ T1 T2 : TxSys,
    rtc ordered_claims_step tx_empty T1 ∧ rtc ordered_claims_step T1 T2 ∧
    status <$> committed_row T1 "b" = Some StatusProcessing ∧ committed_row T1 "a" = None ∧
    ∃ ra rb, committed_row T2 "a" = Some ra ∧ committed_row T2 "b" = Some rb ∧ both_out "k" ra rb = true.
Proof.
  exists claimed_second, claimed_both.
  split; [exact (proj1 claimed_second_run)|]. split; [exact claimed_both_run|].
  split; [vm_compute; reflexivity|]. split; [vm_compute; reflexivity|].
  assert (match committed_row claimed_both "a", committed_row claimed_both "b" with
          | Some ra, Some rb => both_out "k" ra rb | _, _ => false end = true) as Hout by (vm_compute; reflexivity).
  destruct (committed_row claimed_both "a") as [ra|]; [|done].
  destruct (committed_row claimed_both "b") as [rb|]; [|done]. by exists ra, rb.
Qed.

(** *** Single moves *)

Definition moved (T : TxSys) (mv : Move) : TxSys := default T (tx_exec T (act_of T mv)).

Lemma moved_step T mv :
  tx_ok T → move_ok mv → is_Some (tx_exec T (act_of T mv)) →
  tx_step T (moved T mv) ∧ tx_ok (moved T mv) ∧
  (in_order T (act_of T mv) → ordered_tx_step T (moved T mv)).
Proof.
  intros Hok Hmv Hex. pose proof (act_of_ok _ _ Hok Hex Hmv) as Ha. unfold moved.
  destruct Hex as [T' Hex]. rewrite Hex. simpl. split_and!.
  - by econstructor.
  - by eapply tx_exec_ok.
  - intros Ho. by econstructor.
Qed.

(** ** Scripts on the server with transactions *)

(** The environment of a relay's own statement, [n] microseconds long. *)
Definition own_env (n : N) (T : TxSys) : StmtEnv :=
  mkStmtEnv (s_clock (t_sys T)) (s_clock (t_sys T) + Z.of_N n) (held_by (t_open T))
    (λ _, fresh_token (s_used (t_sys T))) (λ i, "id" +:+ pretty (Z.of_nat i)).

#[export] Program Instance tx_machine : Machine TxSys := {|
  env_for := own_env;
  execute := λ n st T, tx_exec T (Auto (own_env n T) st)
|}.
Next Obligation.
  intros n st T T' Hex. split.
  - split; simpl; [|lia|intros; apply fresh_token_new].
    split; simpl; [lia|done|intros; apply fresh_token_uuid].
  - cbn [tx_exec] in Hex. case_decide; [|done]. by injection Hex as <-.
  - by split.
Qed.

(** Moves of the others between two statements of a relay. *)
Definition meanwhile (moves : nat → list Move) (n : nat) (T : TxSys) : TxSys := played T (moves n).

Lemma played_follows T mvs : Forall move_ok mvs → follows T (played T mvs).
Proof.
  intros Hall Hr%reached_ok. unfold played. destruct (play T mvs) as [T'|] eqn:E; [|apply rtc_refl].
  by destruct (play_steps T mvs T' Hr Hall E).
Qed.

Lemma meanwhile_follows moves : (∀ n, Forall move_ok (moves n)) → ∀ n T, follows T (meanwhile moves n T).
Proof. intros Hall n T. by apply played_follows. Qed.

(** ** The executor of a caller *)

Definition tx_closed : err := EPg "25P01" "there is no transaction in progress".

(** A statement in the open transaction [x], if it does not have to wait. *)
Definition send_in (x : nat) (st : Stmt) : go (WorldOf TxSys) (Done + err) := λ w,
  let T := w_sys w in
  match t_open T !! x with
  | None => (Ok (inr tx_closed), w)
  | Some tx =>
      match tx_exec T (act_of T (MIn x st)), exec_stmt (move_env T (x_start tx)) st (view (committed T) tx) with
      | Some T', SqlOk d => (Ok (inl d), sent_to st T' w)
      | Some T', SqlErr code => (Ok (inr (EPg code "statement failed")), sent_to st T' w)
      | None, _ => (Ok (inr lock_timeout), sent_to st T w)
      end
  end.

Definition bound_executor (x : nat) : Executor (WorldOf TxSys) := {|
  Exec := λ st, d ← send_in x st; mret (match d with inl d => (d_affected d, None) | inr e => (0, Some e) end);
  Query := λ st, d ← send_in x st; mret (match d with inl d => (d_rows d, None) | inr e => ([], Some e) end)
|}.

Lemma send_in_law x st w r w' :
  reached (w_sys w) → issued (st_cmd st) → caller_cmd (st_cmd st) = true → send_in x st w = (r, w') →
  match r with
  | Ok (inl d) => ∃ e T T' tx, answered_inside x st e (w_sys w) T T' (w_sys w') tx d
  | Ok (inr _) => rtc (call_step x st) (w_sys w) (w_sys w')
  | Panicked _ => False
  end.
Proof.
  intros Hr%reached_ok Hi Hc. unfold send_in. destruct (t_open (w_sys w) !! x) as [tx|] eqn:Hx; [|by intros [= <- <-]].
  assert (act_of (w_sys w) (MIn x st) = InTx x (move_env (w_sys w) (x_start tx)) st) as Hact by (simpl; by rewrite Hx).
  destruct (tx_exec _ _) as [T'|] eqn:Hex; [|by intros [= <- <-]].
  assert (act_ok (w_sys w) (act_of (w_sys w) (MIn x st))) as Ha by (apply act_of_ok; [done|by eexists|done]).
  rewrite Hact in Ha, Hex. destruct (exec_stmt _ _ _) as [d|code] eqn:Hd; intros [= <- <-].
  - exists (move_env (w_sys w) (x_start tx)), (w_sys w), T', tx. by split.
  - apply rtc_once. by eapply call_runs.
Qed.

Lemma bound_executor_bound x : BoundTo w_sys x (bound_executor x).
Proof.
  split. intros st w r w' Hr Hi Hc E. cbn [bound_executor Exec] in E.
  run_inv E; match goal with X : send_in _ _ _ = _ |- _ => pose proof (send_in_law _ _ _ _ _ Hr Hi Hc X) as Hl end.
  - destruct x0 as [d|er]; injection E as <- <-; [|done].
    destruct Hl as (e & T & T' & tx & Ha). by exists e, T, T', tx, d.
  - done.
Qed.
