(* ===== verification/Witnesses.v ===== *)
(** * Executions and witnesses

    Concrete runs of the model on the scripted deployment, and for each theorem
    with hypotheses an input at which they hold. *)

From stdpp Require Import relations.
From S2P Require Import Adapters Kafka Nats Valkey Prelude Outcome Message Backoff Config Postgres Store System Safety StoreSpec Relay World RelaySpec RelaySafety RelayCorrect RelayLive Cleaner Lifecycle Facade Migrations Scripted Transactions TxSafety TxCalls Snapshot Handover TxRelay TxRuns EndToEnd Wakeup SqlText Sql StoreSql SqlMeaning SqlInsert Statements Typing Placeholders.

From S2P Require Api.
From S2P Require Import Transports.

Open Scope string_scope.
Open Scope Z_scope.

(** ** A deployment with three rows *)

Definition settings : Settings :=
  Resolve [] (Some "host") [WithInstanceID "relay-1"; WithBatchSize 2; WithMaxAttempts 2;
    WithRetention 1000; WithCleanupInterval 1000].

Definition plain_script : Script :=
  mkScript 10 (λ _, NoFault) (λ _, Ok None) (λ _, None) (λ _, false) [HbTick; HbStop] (λ n, 0) (λ _, None).

Definition demo_store (sc : Script) : Store World :=
  NewStore (executor sc) (executor sc) None (Schema settings).
Definition demo_relay (sc : Script) : Relay World :=
  NewRelay (demo_store sc) (publisher sc) settings.
Definition demo_cleaner (sc : Script) : Cleaner World := NewCleaner (demo_store sc) settings.

Definition demo_messages : list Message :=
  [ new_message "a" "orders" "k" (Some []) None "text/plain" "created" None;
    new_message "b" "orders" "k" (Some []) (Some {[ "h" := "v" ]}) EmptyString EmptyString (Some 1);
    new_message EmptyString "audit" EmptyString (Some []) None EmptyString EmptyString None ].

Definition empty_world : World :=
  mkWorld (mkSys (mkDb (table (demo_store plain_script)) ∅ 1 0) 100 ∅) [].

Definition run_world {A} (m : go World A) (w : World) : World := snd (m w).

Definition world3 : World := run_world (Store.Enqueue (demo_store plain_script) demo_messages) empty_world.

(** The table with the three rows, its trace forgotten, and the same after a
    claim of the first two. *)
Definition fresh_world : World := mkWorld (w_sys world3) [].

#[export] Instance demo_executor_lawful sc : LawfulExecutor eq (exec (store (demo_relay sc))) :=
  executor_lawful sc.
#[export] Instance demo_publisher_lawful sc : LawfulPublisher eq (pub (demo_relay sc)) :=
  publisher_lawful sc eq.
#[export] Instance plain_limits : KeepsLimits (pub (demo_relay plain_script)) :=
  written_limits plain_script (λ _, eq_refl).
#[export] Instance demo_cleaner_lawful sc : LawfulExecutor eq (exec (c_store (demo_cleaner sc))) :=
  executor_lawful sc.

Lemma settings_runnable : runnable settings.
Proof. apply Resolve_is_runnable. Qed.

Lemma empty_wf : wf_db (db_of empty_world).
Proof.
  assert (∀ id, rows (db_of empty_world) !! id = None) as Hno by (intros; apply lookup_empty).
  split; intros *; rewrite Hno; done.
Qed.

Definition enqueue_stmt (ms : list Message) : Stmt :=
  mkStmt (table (demo_store plain_script))
    (CEnqueue (enqueue_text (table (demo_store plain_script)) ms) (flat_map enqueue_args ms)).

Definition env0 : StmtEnv := env_at 10 (w_sys empty_world).

Lemma env_at_ok n s : env_ok (env_at n s).
Proof. apply env_at_ready. Qed.

Lemma fresh_good : good (demo_relay plain_script) fresh_world.
Proof.
  split; [|vm_compute; reflexivity].
  change (db_of fresh_world) with (after_stmt env0 (enqueue_stmt demo_messages) (db_of empty_world)).
  assert (∃ d, exec_stmt env0 (enqueue_stmt demo_messages) (db_of empty_world) = SqlOk d) as [d Hd]
    by (eexists; vm_compute; reflexivity).
  unfold after_stmt. rewrite Hd.
  apply (stmt_keeps_wf env0 (enqueue_stmt demo_messages) (db_of empty_world)); [apply env_at_ok|constructor|apply empty_wf|exact Hd].
Qed.

Definition claim_world (sc : Script) (w : World) : World :=
  run_world (claim (store (demo_relay sc)) settings) w.

Lemma claim_good sc w : good (demo_relay sc) w → good (demo_relay sc) (claim_world sc w).
Proof.
  intros Hg. eapply evolves_good; [|exact Hg].
  assert (∀ s s' : server World, s = s' → base_steps s s') as Heq by (by intros ? ? ->).
  apply (claim_preserves eq (demo_relay sc) evolves (evolves_allows eq Heq (claim_stmt (demo_relay sc)) (issued_claim _))
    w (fst (claim (store (demo_relay sc)) settings w))).
  apply surjective_pairing.
Qed.

(** ** Relays at work *)

(** Row [a] accepted, everything else failed for good; the publisher also
    overwrites the attempt limits it can reach. *)
Definition mixed_answer (ms : list Message) : res panic (option err) :=
  Ok (Some (PerMessage [("a", None)] (Some (Permanent (Some (ENew 9 "rejected")))))).

Definition mixed_script : Script :=
  mkScript 10 (λ _, NoFault) mixed_answer (λ _, Some 7) (λ _, false) [HbStop] (λ n, 0) (λ _, None).

(** Its call, and what it leaves of the batch. *)
Example mixed_writes :
  match fst (Publish (pub (demo_relay mixed_script)) false [new_message "b" "t" "" None None "" "" (Some 1)] fresh_world) with
  | Ok (ms, _) => map MaxAttempts ms = [Some 7]
  | Panicked _ => False
  end.
Proof. reflexivity. Qed.

(** A publisher that aborts, and an executor whose answers get lost. *)
Definition abort_script : Script :=
  mkScript 10 (λ _, NoFault) (λ _, Ok (Some (Abort (Some (ENew 8 "stop"))))) (λ _, None) (λ _, false)
    [HbStop] (λ n, 0) (λ _, None).
Definition faulty_script : Script :=
  mkScript 10 (λ n, if (n =? 1)%nat then LoseAnswer else NoFault) (λ _, Ok None) (λ _, None) (λ _, false)
    [HbTick] (λ n, 0) (λ _, None).

Definition claimed : list Message :=
  match fst (claim (store (demo_relay mixed_script)) settings fresh_world) with
  | Ok (ms, _) => ms
  | Panicked _ => []
  end.
Definition claimed_world : World := claim_world mixed_script fresh_world.

Lemma claimed_claims : claims claimed.
Proof.
  split; [repeat constructor|]. vm_compute. repeat constructor; set_solver.
Qed.

Lemma claimed_alive : alive 10 2 claimed claimed_world.
Proof.
  intros m Hm. assert (m ∈ take 1 claimed ∨ m ∈ drop 1 claimed) as [Hx|Hx]
    by (rewrite <-(take_drop 1 claimed) in Hm; by apply elem_of_app in Hm);
    (apply list_elem_of_singleton in Hx as ->; eexists _, _;
     split_and!; [vm_compute; reflexivity|reflexivity..|vm_compute; reflexivity]).
Qed.

#[export] Instance mixed_calm : Calm (runtime mixed_script) (demo_relay mixed_script).
Proof.
  apply calm_script; try done. intros b n [= <-].
  destruct (Backoff.Default_delay (λ _, 0) n) as (d & E & _); [intros k; lia|]. by exists d.
Qed.
#[export] Instance mixed_responsive : Responsive 10 (exec (store (demo_relay mixed_script))).
Proof. apply (responsive_script mixed_script). done. Qed.

Lemma settle_batch_succeeds_witness :
  ∃ w', settle_batch (runtime mixed_script) (demo_relay mixed_script) claimed
          (Some (PerMessage [("a", None)] (Some (Permanent None)))) claimed_world = (Ok None, w') ∧
        settled_to (demo_relay mixed_script)
          (message_outcome (Some (PerMessage [("a", None)] (Some (Permanent None))))) claimed claimed_world w'.
Proof.
  apply (settle_batch_succeeds (runtime mixed_script) (demo_relay mixed_script) 10 settings_runnable).
  - apply claimed_claims.
  - apply claimed_alive.
  - apply claim_good. exact fresh_good.
  - intros m Hm.
    assert (m ∈ take 1 claimed ∨ m ∈ drop 1 claimed) as [Hx|Hx]
      by (rewrite <-(take_drop 1 claimed) in Hm; by apply elem_of_app in Hm);
      apply list_elem_of_singleton in Hx as ->; vm_compute; reflexivity.
Defined.

(** An error that embeds a zero byte. *)
Definition binary_error : err := ENew 9 (String Ascii.zero EmptyString).

Lemma unstorable_outcome_not_recorded_witness :
  map Attempts claimed = [1; 1] ∧ map MaxAttempts claimed = [None; Some 1] ∧
  db_of (run_world (settle (runtime mixed_script) (demo_relay mixed_script) claimed (Some binary_error)) claimed_world)
    = db_of claimed_world ∧
  fst (settle (runtime mixed_script) (demo_relay mixed_script) claimed (Some binary_error) claimed_world) ≠ Ok None.
Proof.
  split; [reflexivity|]. split; [reflexivity|].
  apply (unstorable_outcome_not_recorded (runtime mixed_script) (demo_relay mixed_script) claimed binary_error
    claimed_world
    (fst (settle (runtime mixed_script) (demo_relay mixed_script) claimed (Some binary_error) claimed_world))
    (snd (settle (runtime mixed_script) (demo_relay mixed_script) claimed (Some binary_error) claimed_world))).
  - intros Hn. apply (f_equal length) in Hn. vm_compute in Hn. discriminate.
  - reflexivity.
  - apply surjective_pairing.
Defined.

Lemma settle_batch_done_witness :
  settled_to (demo_relay mixed_script) (message_outcome (Some (PerMessage [("a", None)] None))) claimed
    claimed_world
    (run_world (settle_batch (runtime mixed_script) (demo_relay mixed_script) claimed
       (Some (PerMessage [("a", None)] None))) claimed_world).
Proof.
  apply (settle_batch_done (runtime mixed_script) (demo_relay mixed_script)).
  - apply claimed_claims.
  - vm_compute. reflexivity.
Defined.

#[export] Instance faulty_limits : KeepsLimits (pub (demo_relay faulty_script)) :=
  written_limits faulty_script (λ _, eq_refl).

Lemma drain_terminates_witness :
  (work (demo_relay faulty_script) (rows (db_of fresh_world)) < 9)%nat ∧
  fst (drain (runtime faulty_script) (demo_relay faulty_script) 9 fresh_world) ≠ Ok None.
Proof.
  assert (work (demo_relay faulty_script) (rows (db_of fresh_world)) < 9)%nat as Hw
    by (apply Nat.ltb_lt; vm_compute; reflexivity).
  split; [exact Hw|].
  apply (drain_terminates (runtime faulty_script) (demo_relay faulty_script) 9 fresh_world _
    (snd (drain (runtime faulty_script) (demo_relay faulty_script) 9 fresh_world))).
  - apply fresh_good.
  - exact Hw.
  - apply surjective_pairing.
Defined.

#[export] Instance plain_calm : Calm (runtime plain_script) (demo_relay plain_script).
Proof.
  apply calm_script; try done. intros b n [= <-].
  destruct (Backoff.Default_delay (λ _, 0) n) as (d & E & _); [intros k; lia|]. by exists d.
Qed.
#[export] Instance plain_responsive : Responsive 10 (exec (store (demo_relay plain_script))).
Proof. apply (responsive_script plain_script). done. Qed.

(** Every row of a table, checked one by one. *)
Lemma all_rows (p : string → Row → bool) t :
  forallb (λ ir, p ir.1 ir.2) (map_to_list t) = true → ∀ id row, t !! id = Some row → p id row = true.
Proof.
  rewrite forallb_forall. intros Hall id row Hr%elem_of_map_to_list%list_elem_of_In. apply (Hall _ Hr).
Qed.

Lemma fresh_headroom : headroom (W := World) fresh_world.
Proof.
  intros id row Hr _. apply Z.ltb_lt. revert id row Hr.
  apply (all_rows (λ _ row, attempts row <? int4_max)). vm_compute. reflexivity.
Qed.

(** A relay claimed the first two rows and crashed; their leases have run out. *)
Definition crashed_world : World :=
  mkWorld (mkSys (db_of claimed_world) 1000000000 (s_used (sys_of claimed_world))) [].

Lemma crashed_good : good (demo_relay plain_script) crashed_world.
Proof. exact (claim_good mixed_script _ fresh_good). Qed.

Lemma crashed_headroom : headroom (W := World) crashed_world.
Proof.
  intros id row Hr _. apply Z.ltb_lt. revert id row Hr.
  apply (all_rows (λ _ row, attempts row <? int4_max)). vm_compute. reflexivity.
Qed.

Lemma drain_publishes_due_witness :
  (status <$> rows (db_of crashed_world) !! "a") = Some StatusProcessing ∧
  ∃ w', drain (runtime plain_script) (demo_relay plain_script) 9 crashed_world = (Ok (Some None), w') ∧
    ∀ id row, rows (db_of crashed_world) !! id = Some row →
      deliverable (demo_relay plain_script) (rows (db_of crashed_world)) (s_clock (sys_of crashed_world)) row ∨
      status row = StatusPublished →
      ∃ row', rows (db_of w') !! id = Some row' ∧ status row' = StatusPublished.
Proof.
  split; [vm_compute; reflexivity|].
  apply (drain_publishes_due (runtime plain_script) (demo_relay plain_script) 10 settings_runnable).
  - intros c ms w. eexists _, _. reflexivity.
  - intros dl d w. eexists _, _. reflexivity.
  - vm_compute. reflexivity.
  - reflexivity.
  - exact plain_limits.
  - exact crashed_good.
  - exact crashed_headroom.
  - apply Nat.ltb_lt. vm_compute. reflexivity.
Defined.

(** Those rows are deliverable, and delivered. *)
Example crashed_recovered :
  map (λ id, status <$> rows (db_of (snd (drain (runtime plain_script) (demo_relay plain_script) 9 crashed_world))) !! id)
    ["a"; "b"] = [Some StatusPublished; Some StatusPublished].
Proof. vm_compute. reflexivity. Qed.

Lemma worker_completions_justified_witness :
  trace_ok (demo_relay mixed_script)
    (trace_of (snd (worker (runtime mixed_script) (demo_relay mixed_script) 9 [WTick; WDone] fresh_world))).
Proof.
  apply (worker_completions_justified eq (runtime mixed_script) (demo_relay mixed_script) 9 [WTick; WDone]
    fresh_world (fst (worker (runtime mixed_script) (demo_relay mixed_script) 9 [WTick; WDone] fresh_world))).
  - apply surjective_pairing.
  - apply trace_ok_nil.
Defined.

Lemma worker_refines_witness :
  rtc sys_step (sys_of fresh_world)
    (sys_of (snd (worker (runtime faulty_script) (demo_relay faulty_script) 9 [WWake; WTick] fresh_world))).
Proof.
  apply (worker_refines eq (runtime faulty_script) (demo_relay faulty_script)) with 9%nat [WWake; WTick]
    (fst (worker (runtime faulty_script) (demo_relay faulty_script) 9 [WWake; WTick] fresh_world)).
  - by intros s s' ->.
  - apply surjective_pairing.
Defined.

(** The batch an abort stops: claimed, handed over, nothing completed. *)
Lemma fatal_answer_leaves_claims_witness :
  ∃ tr, records fresh_world (snd (processBatch (runtime abort_script) (demo_relay abort_script) fresh_world)) tr ∧
    ((∃ ms a, Handed ms a ∈ tr ∧ ends_relay a) → Forall no_finish tr).
Proof.
  apply (fatal_answer_leaves_claims eq (runtime abort_script) (demo_relay abort_script) fresh_world
    (fst (processBatch (runtime abort_script) (demo_relay abort_script) fresh_world))).
  apply surjective_pairing.
Defined.

Lemma hooks_report_committed_witness :
  ∃ tr, records claimed_world
      (snd (complete (runtime mixed_script) (demo_relay mixed_script) claimed StatusPublished None 0 claimed_world))
      (Sent (finish_stmt (demo_relay mixed_script) claimed StatusPublished EmptyString 0) :: tr) ∧
    (tr ≠ [] → ∃ w1 d,
       call eq (finish_stmt (demo_relay mixed_script) claimed StatusPublished EmptyString 0) claimed_world w1 (Some d) ∧
       Forall (λ o, ∃ ev, o = Observed ev ∧ reports StatusPublished None (map scanned (d_rows d)) ev) tr).
Proof.
  apply (hooks_report_committed eq (runtime mixed_script) (demo_relay mixed_script) claimed StatusPublished
    None 0 claimed_world
    (fst (complete (runtime mixed_script) (demo_relay mixed_script) claimed StatusPublished None 0 claimed_world))).
  - vm_compute. discriminate.
  - apply surjective_pairing.
Defined.

Lemma always_fatal_reordered_witness :
  always_fatal (EWrap "w: " (EBatch [("a", Some (EAbort None)); ("b", None)] None)) =
  always_fatal (EWrap "w: " (EBatch [("b", None); ("a", Some (EAbort None))] None)).
Proof.
  apply always_fatal_reordered. apply (reordered_frame (FWrap "w: ")). constructor. constructor.
Defined.

(** ** The cleaner *)

(** The table after the rows were published and a day has passed. *)
Definition later (n : Z) (w : World) : World :=
  mkWorld (mkSys (s_db (w_sys w)) (s_clock (w_sys w) + n) (s_used (w_sys w))) [].
Definition published_world : World :=
  later 86400000000 (snd (drain (runtime plain_script) (demo_relay plain_script) 9 fresh_world)).

Lemma later_good r n w : good r w → good r (later n w).
Proof. done. Qed.

Lemma published_good : good (demo_relay plain_script) published_world.
Proof.
  apply later_good.
  assert (∀ s s' : server World, s = s' → base_steps s s') as Heq by (by intros ? ? ->).
  eapply evolves_good; [|exact fresh_good].
  eapply (drain_preserves eq (runtime plain_script) (demo_relay plain_script) evolves
    (evolves_tolerates eq Heq _) (processBatch_evolves eq _ _ Heq)).
  apply surjective_pairing.
Qed.

#[export] Instance cleaner_responsive : Responsive 10 (exec (c_store (demo_cleaner plain_script))).
Proof. apply (responsive_script plain_script). done. Qed.
#[export] Instance cleaner_calm :
  Calm (runtime plain_script)
    (NewRelay (c_store (demo_cleaner plain_script)) (publisher plain_script) (c_set (demo_cleaner plain_script))) :=
  plain_calm.

Lemma clean_pass_complete_witness :
  ∃ w', clean_pass (runtime plain_script) (demo_cleaner plain_script) 4 published_world = (Ok (Some None), w') ∧
    (∀ id row, rows (db_of published_world) !! id = Some row →
       due_for_removal (demo_cleaner plain_script) (s_clock (sys_of published_world)) row →
       rows (db_of w') !! id = None) ∧
    (∀ id row, rows (db_of published_world) !! id = Some row →
       (∀ t, ¬ due_for_removal (demo_cleaner plain_script) t row) → rows (db_of w') !! id = Some row) ∧
    (∀ id, rows (db_of published_world) !! id = None → rows (db_of w') !! id = None).
Proof.
  apply (clean_pass_complete (runtime plain_script) (demo_cleaner plain_script) (publisher plain_script) 10
    settings_runnable).
  - exact published_good.
  - apply Nat.ltb_lt. vm_compute. reflexivity.
Defined.

(** The three published rows are indeed due. *)
Lemma published_cleaned :
  size (rows (db_of (snd (clean_pass (runtime plain_script) (demo_cleaner plain_script) 4 published_world)))) = 0%nat.
Proof. vm_compute. reflexivity. Qed.

Lemma clean_pass_terminates_witness :
  fst (clean_pass (runtime plain_script) (demo_cleaner plain_script) 4 published_world) ≠ Ok None.
Proof.
  apply (clean_pass_terminates (runtime plain_script) (demo_cleaner plain_script) 4 published_world _
    (snd (clean_pass (runtime plain_script) (demo_cleaner plain_script) 4 published_world))).
  - vm_compute. discriminate.
  - apply Nat.ltb_lt. vm_compute. reflexivity.
  - apply surjective_pairing.
Defined.

Lemma cleaner_disabled_witness :
  Cleaner.Run (runtime plain_script) (NewCleaner (demo_store plain_script) Config.Default) 4 [CTick] published_world
  = (Ok (Some None), published_world).
Proof. apply cleaner_disabled. left. vm_compute. discriminate. Defined.

(** ** Statements on the table *)

(** What a statement yields, and a row of the table, when they exist. *)
Definition done_of (e : StmtEnv) (st : Stmt) (db : Db) : Done :=
  match exec_stmt e st db with SqlOk d => d | SqlErr _ => mkDone db [] 0 end.
Definition row_of (db : Db) (id : string) : Row :=
  default (insert_row env0 db EmptyString None [] JNull None None None) (rows db !! id).

Definition tbl : string := table (demo_store plain_script).
Definition claim_st : Stmt := claim_stmt (demo_relay plain_script).
Definition db3 : Db := db_of fresh_world.
Definition db_claimed : Db := db_of claimed_world.
Definition env1 : StmtEnv := env_at 10 (w_sys claimed_world).

(** A later moment, when every lease of [db_claimed] has run out. *)
Definition late_env : StmtEnv := env_at 10 (w_sys (later 100000000 claimed_world)).
Definition finish_of (ms : list Message) (st : Status) : Stmt :=
  mkStmt tbl (CFinish (map ID ms) (map LeaseToken ms) st (nullStr "why") 0 true).

Lemma live_lease_exclusive_witness :
  rows (d_db (done_of env1 claim_st db_claimed)) !! "a" = Some (row_of db_claimed "a") ∨
  presents (st_cmd claim_st) "a" "t".
Proof.
  apply (live_lease_exclusive env1 claim_st db_claimed (done_of env1 claim_st db_claimed) "a"
    (row_of db_claimed "a") "t" (default 0 (locked_until (row_of db_claimed "a")))).
  - apply env_at_ok.
  - constructor.
  - vm_compute. reflexivity.
  - vm_compute. reflexivity.
  - vm_compute. reflexivity.
  - vm_compute. reflexivity.
  - vm_compute. reflexivity.
  - vm_compute. reflexivity.
Defined.

Lemma issued_finish_of ms st : st ≠ StatusProcessing → issued (st_cmd (finish_of ms st)).
Proof. intros. by constructor. Qed.

Lemma stale_keys_change_nothing_witness :
  rows (d_db (done_of late_env (finish_of claimed StatusPublished) db_claimed)) !! "a" =
    Some (row_of db_claimed "a").
Proof.
  apply (stale_keys_change_nothing late_env (finish_of claimed StatusPublished) db_claimed).
  - by apply issued_finish_of.
  - vm_compute. reflexivity.
  - vm_compute. reflexivity.
  - right. repeat eexists.
  - intros t u _ _ _ Hu. vm_compute in Hu. injection Hu as <-. vm_compute. discriminate.
Defined.

(** Row [a] was claimed under [t], its lease ran out, and another claim took it. *)
Definition stolen_world : World := claim_world plain_script (later 100000000 claimed_world).

Lemma stolen_steps : rtc sys_step (w_sys (later 100000000 claimed_world)) (w_sys stolen_world).
Proof.
  assert (∀ s s' : server World, s = s' → base_steps s s') as Heq by (by intros ? ? ->).
  change (evolves (later 100000000 claimed_world) stolen_world).
  apply (claim_preserves eq (demo_relay plain_script) evolves
    (evolves_allows eq Heq (claim_stmt (demo_relay plain_script)) (issued_claim _))
    (later 100000000 claimed_world)
    (fst (claim (store (demo_relay plain_script)) settings (later 100000000 claimed_world)))).
  apply surjective_pairing.
Qed.

Lemma lost_claim_fenced_witness :
  rows (after_stmt (env_at 10 (w_sys stolen_world)) (finish_of (take 1 claimed) StatusPublished)
          (s_db (w_sys stolen_world))) !! "a" = Some (row_of (s_db (w_sys stolen_world)) "a").
Proof.
  apply (lost_claim_fenced (w_sys stolen_world) (w_sys stolen_world) "a" "t").
  - apply (bool_decide_unpack _). vm_compute. exact I.
  - intros (row & Hr & Ht).
    assert (lease_token (row_of (s_db (w_sys stolen_world)) "a") = Some "t") as Hx
      by (unfold row_of; rewrite Hr; exact Ht).
    vm_compute in Hx. discriminate.
  - apply rtc_refl.
  - by apply issued_finish_of.
  - vm_compute. reflexivity.
  - right. repeat eexists.
  - intros t (keys & Hk & Hin). vm_compute in Hk. injection Hk as <-.
    apply list_elem_of_singleton in Hin. by injection Hin.
Defined.

(** An ordered claim of the three rows: [b] waits for [a], its elder of the key. *)
Definition ordered_st : Stmt := mkStmt tbl (CClaim true "relay-1" 1000 5).

Lemma db3_key_order : key_order db3.
Proof.
  intros i j r1 r2 k _ H2 _ _ _ Hatt. exfalso.
  assert (attempts r2 =? 0 = true) as Hz%Z.eqb_eq; [|lia]. revert j r2 H2 Hatt. intros j r2 H2 _.
  revert j r2 H2. apply (all_rows (λ _ row, attempts row =? 0)). vm_compute. reflexivity.
Qed.

Definition ordered_world : Sys := advance env1 ordered_st (w_sys fresh_world).

Lemma key_order_preserved_witness :
  map fst (d_rows (done_of env1 ordered_st db3)) = ["id2"; "a"] ∧
  key_order (s_db ordered_world).
Proof.
  split; [vm_compute; reflexivity|].
  apply (key_order_preserved (w_sys fresh_world) ordered_world).
  - apply rtc_once. apply (ordered_stmt _ _ env1 ordered_st).
    + split; [by intros o inst lease limit [= <- _ _ _]|done].
    + apply env_at_ok.
    + vm_compute. discriminate.
    + intros id. apply (bool_decide_unpack _). vm_compute. exact I.
    + apply (issued_claim (WithOrdered true (WithBatchSize 5 (WithLeaseDuration 1000
        (WithInstanceID "relay-1" Config.Default))))).
    + reflexivity.
  - apply fresh_good.
  - exact db3_key_order.
Defined.

(** Row [a] between its first claim and its second, after the lease ran out. *)
Lemma message_history_witness :
  status (row_of db_claimed "a") = StatusProcessing ∧
  lease_token (row_of (s_db (w_sys stolen_world)) "a") ≠ lease_token (row_of db_claimed "a") ∧
  descends (row_of db_claimed "a") (row_of (s_db (w_sys stolen_world)) "a").
Proof.
  split; [vm_compute; reflexivity|]. split; [vm_compute; discriminate|].
  apply (message_history (w_sys (later 100000000 claimed_world)) (w_sys stolen_world) "a").
  - apply (claim_good mixed_script). exact fresh_good.
  - exact stolen_steps.
  - vm_compute. reflexivity.
  - vm_compute. reflexivity.
  - vm_compute. reflexivity.
Defined.

Lemma row_lifecycle_witness :
  let r := row_of db_claimed "a" in
  let d := done_of env1 (finish_of claimed StatusPublished) db_claimed in
  let r' := row_of (d_db d) "a" in
  next_status (status r) (status r') = true ∧ same_origin r r' ∧
  ((payload r' = payload r ∧ headers r' = headers r) ∨
   (payload r' = [] ∧ headers r' = JObj [] ∧ settled r' = true)) ∧
  (attempts r' = attempts r ∨
   (attempts r' = attempts r + 1 ∧ status r' = StatusProcessing) ∨
   (attempts r' = 0 ∧ status r = StatusDead ∧ status r' = StatusPending)).
Proof.
  apply (row_lifecycle env1 (finish_of claimed StatusPublished) db_claimed
    (done_of env1 (finish_of claimed StatusPublished) db_claimed) "a").
  - by apply issued_finish_of.
  - vm_compute. reflexivity.
  - vm_compute. reflexivity.
  - vm_compute. reflexivity.
Defined.

Definition cleanup_st : Stmt := mkStmt tbl (CCleanup 1000 0 0 2).
Definition cleanup_env : StmtEnv := env_at 10 (w_sys published_world).

Lemma row_removed_only_expired_witness :
  ∃ ret dead disc limit ts keep,
    st_cmd cleanup_st = CCleanup ret dead disc limit ∧ 0 < keep ∧ ts < e_now cleanup_env - interval_us keep ∧
    ((status (row_of (db_of published_world) "a") = StatusPublished ∧ keep = ret ∧
      published_at (row_of (db_of published_world) "a") = Some ts) ∨
     (status (row_of (db_of published_world) "a") = StatusDead ∧ keep = dead ∧
      finished_at (row_of (db_of published_world) "a") = Some ts) ∨
     (status (row_of (db_of published_world) "a") = StatusDiscarded ∧ keep = disc ∧
      finished_at (row_of (db_of published_world) "a") = Some ts)).
Proof.
  apply (row_removed_only_expired cleanup_env cleanup_st (db_of published_world)
    (done_of cleanup_env cleanup_st (db_of published_world)) "a").
  - apply (issued_cleanup (WithRetention 1000 (WithBatchSize 2 Config.Default))).
  - vm_compute. reflexivity.
  - vm_compute. reflexivity.
  - vm_compute. reflexivity.
Defined.

Lemma exec_stmt_wf_witness : wf_db (after_stmt env1 claim_st db3).
Proof. apply exec_stmt_wf; [apply env_at_ok|constructor|apply fresh_good]. Defined.

(** ** Specifications of the statements *)



Lemma claim_ordered_spec_witness :
  map fst (d_rows (done_of env1 ordered_st db3)) = ["id2"; "a"] ∧
  (∀ i j ri rj k, (i, ri) ∈ d_rows (done_of env1 ordered_st db3) → (j, rj) ∈ d_rows (done_of env1 ordered_st db3) →
     partition_key ri = Some k → partition_key rj = Some k → i = j).
Proof.
  split; [vm_compute; reflexivity|].
  apply (claim_ordered_spec env1 "relay-1" 1000 5 db3).
  - apply fresh_good.
  - vm_compute. reflexivity.
Defined.

Lemma enqueue_spec_witness :
  (∃ d, exec_enqueue env1 (flat_map enqueue_args demo_messages) db3 = SqlOk d ∧
    notified (d_db d) = S (notified db3)) ∧
  exec_enqueue env1 (flat_map enqueue_args (replicate (Z.to_nat 8192) (new_message "a" "t" "k" None None "x" "y" None))) db3
    = SqlErr "08P01".
Proof.
  split.
  - destruct (proj1 (enqueue_spec env1 demo_messages db3)) as (d & E & Hn & _).
    + repeat constructor; try (by right; eexists; vm_compute); try (by left); try (by eexists);
        vm_compute; reflexivity.
    + vm_compute. discriminate.
    + by exists d.
  - apply (proj2 (enqueue_spec env1 _ db3)). rewrite length_replicate. vm_compute. reflexivity.
Defined.

Lemma finish_spec_witness :
  ∃ d, exec_finish env1 (map ID claimed) (map LeaseToken claimed) StatusDead (nullStr "why") 0 true db_claimed = SqlOk d ∧
    length (d_rows d) = 2%nat.
Proof.
  destruct (proj2 (finish_spec env1 claimed StatusDead "why" 0 true db_claimed (proj1 claimed_claims)) eq_refl)
    as (d & E & _ & _ & _ & Hlen).
  exists d. split; [exact E|]. rewrite Hlen; [vm_compute; reflexivity|].
  eapply (alive_batch (demo_relay mixed_script) 10 1 claimed claimed_world); [apply claimed_claims|exact claimed_alive|].
  vm_compute. discriminate.
Defined.

Definition dead_db : Db := d_db (done_of env1 (finish_of claimed StatusDead) db_claimed).

Lemma requeue_spec_witness :
  ∃ d r', exec_requeue env1 "a" dead_db = SqlOk d ∧ d_affected d = 1 ∧
    rows (d_db d) !! "a" = Some r' ∧ requeued (e_clk env1) (row_of dead_db "a") r'.
Proof.
  assert (uuid_in "a" = Some "a") as Hid by reflexivity.
  destruct (requeue_spec env1 "a" "a" dead_db Hid) as (d & E & _ & Hrow).
  assert (status (row_of dead_db "a") = StatusDead) as Hst by (vm_compute; reflexivity).
  unfold row_of in *. destruct (rows dead_db !! "a") as [row|] eqn:Hr; [|vm_compute in Hr; discriminate].
  simpl in Hst. rewrite (bool_decide_eq_true_2 _ Hst) in Hrow. destruct Hrow as (Haff & _ & r' & Hr' & Hq).
  exists d, r'. split; [exact E|]. split; [exact Haff|]. split; [exact Hr'|exact Hq].
Defined.

Lemma cleanup_spec_witness :
  ∃ d, exec_cleanup cleanup_env 1000 0 0 2 (db_of published_world) = SqlOk d ∧ 0 ≤ d_affected d ≤ 2 ∧
    ∀ id r, rows (db_of published_world) !! id = Some r → rows (d_db d) !! id = Some r ∨
      (rows (d_db d) !! id = None ∧ id ∉ e_locked cleanup_env ∧ past_retention (e_now cleanup_env) 1000 0 0 r).
Proof.
  destruct (cleanup_spec cleanup_env 1000 0 0 2 (db_of published_world)) as (d & E & Hle & _ & Hrow & _); [lia|].
  exists d. split; [exact E|]. split; [exact Hle|exact Hrow].
Defined.

(** ** Lifecycle, facade, adapters *)

Definition fatal_run : list RunEvent :=
  [Ended (Ok (Some (ENew 8 "stop"))); Ended (Panicked executor_panic)].

Lemma run_returns_first_error_witness :
  let s := WithConcurrency 2 settings in
  run_result (fold_left run_step fatal_run (run_init s None)) = Some (Some (ENew 8 "stop")) ∧
  cancelled (fold_left run_step fatal_run (run_init s None)) = true.
Proof.
  intros s. assert (run_result (fold_left run_step fatal_run (run_init s None)) = Some (Some (ENew 8 "stop"))) as E
    by reflexivity.
  split; [exact E|]. apply (run_returns_first_error s None fatal_run _ E). right. by eexists.
Defined.

(** A pool of connections, counted, whose connection breaks at once. *)
Definition breaking_conn : Conn Z := {|
  Acquire := λ x, (Ok None, x + 1);
  ConnExec := λ _ x, (Ok None, x);
  WaitForNotification := λ x, (Ok (Some connection_lost), x);
  Release := λ x, (Ok tt, x - 1);
  pause := λ x, (Ok tt, x)
|}.

(** One worker meets an abort, the cleaner is stopped by the context. *)
Lemma outbox_run_contract_witness :
  Lifecycle.Run (Some (Abort (Some (ENew 8 "stop")))) None (Some (ENew 10 "context canceled"))
    = Some (Abort (Some (ENew 8 "stop"))) ∧
  accepted (demo_relay abort_script) (Abort (Some (ENew 8 "stop"))).
Proof.
  split; [reflexivity|].
  destruct (outbox_run_contract eq (runtime abort_script) (demo_relay abort_script) (demo_cleaner abort_script)
    breaking_conn (mkRuntime Z (λ x, (Ok true, x)) (λ x, (Ok true, x)) (λ _ _ x, (Ok [], x))
                     (λ x, (Ok (λ n, n), x)) (λ _ x, (Ok tt, x)))
    None [Ended (Ok (Some (Abort (Some (ENew 8 "stop")))))] (Some (Abort (Some (ENew 8 "stop"))))
    9 [CDone] fresh_world None fresh_world (Some (ENew 10 "context canceled"))
    (Some (Abort (Some (ENew 8 "stop"))))) as [(? & _)|(x & Hx & _ & Ha)].
  - reflexivity.
  - constructor; [|constructor].
    apply (end_worker _ _ _ _ 9 [WTick] fresh_world _
      (snd (worker (runtime abort_script) (demo_relay abort_script) 9 [WTick] fresh_world))).
    vm_compute. reflexivity.
  - reflexivity.
  - reflexivity.
  - left. reflexivity.
  - discriminate.
  - injection Hx as <-. exact Ha.
Defined.

Lemma listenOnce_releases_witness :
  snd (snd (listenOnce breaking_conn 3 (0%nat, 5))) = 5.
Proof.
  refine (proj1 (listenOnce_releases breaking_conn (λ x, x) _ _ _ _ 3 (0%nat, 5)
    (fst (listenOnce breaking_conn 3 (0%nat, 5))) (snd (listenOnce breaking_conn 3 (0%nat, 5))) _)).
  - intros x r x' [= <- <-]. simpl. lia.
  - intros x r x' [= <- <-]. simpl. lia.
  - intros q x r x' [= <- <-]. simpl. lia.
  - intros x r x' [= <- <-]. simpl. lia.
  - apply surjective_pairing.
Defined.

Definition demo_outbox : Outbox World :=
  mkOutbox (demo_store plain_script) (demo_relay plain_script) (demo_cleaner plain_script) settings.
#[export] Instance demo_enq_lawful : LawfulExecutor eq (enq (o_store demo_outbox)) :=
  executor_lawful plain_script.

Lemma EnqueueBatch_atomic_witness :
  let ms := [new_message "a" "t" "k" (Some []) None "x" "y" None; new_message "b" EmptyString "k" (Some []) None "x" "y" None] in
  EnqueueBatch demo_outbox ms empty_world = (Ok (Some ErrEmptyTopic), empty_world) ∧
  ((∃ pre m post e, ms = (pre ++ m :: post)%list ∧ Validate m = Some e ∧
     Forall (λ m, Validate m = None) pre ∧ Ok (P := panic) (Some ErrEmptyTopic) = Ok (Some e) ∧ empty_world = empty_world) ∨
   (ms = [] ∧ Ok (P := panic) (Some ErrEmptyTopic) = Ok None ∧ empty_world = empty_world) ∨
   (ms ≠ [] ∧ Forall (λ m, Validate m = None) ms ∧
    let st := mkStmt (table (o_store demo_outbox))
                (CEnqueue (enqueue_text (table (o_store demo_outbox)) ms) (flat_map enqueue_args ms)) in
    records empty_world empty_world [Sent st] ∧ issued (st_cmd st) ∧
    (Ok (P := panic) (Some ErrEmptyTopic) = Ok None → ∃ d, call eq st empty_world empty_world (Some d)))).
Proof.
  intros ms. assert (EnqueueBatch demo_outbox ms empty_world = (Ok (Some ErrEmptyTopic), empty_world)) as E by reflexivity.
  split; [exact E|]. apply (EnqueueBatch_atomic eq demo_outbox ms _ _ _ E).
Defined.

#[export] Program Instance key_order_range : MapOrder := {| range := map_to_list |}.
Next Obligation. done. Qed.

(** Headers as a function from names to values. *)
Lemma nats_metadata_wins_witness :
  Nats.setMetadata (λ h k v k', if String.eqb k k' then v else h k')
    (Nats.user_headers (λ _, EmptyString) (λ h k v k', if String.eqb k k' then v else h k')
       (new_message "real" "t" "k" None (Some {[ HeaderOutboxID := "forged" ]}) "x" "y" None))
    (new_message "real" "t" "k" None (Some {[ HeaderOutboxID := "forged" ]}) "x" "y" None) HeaderOutboxID = "real".
Proof.
  apply (Nats.nats_metadata_wins (λ _, EmptyString) (λ h k v k', if String.eqb k k' then v else h k')
    (λ h, h) (λ _, eq_refl) (λ _ _ _ _, eq_refl)).
Defined.

Lemma Exp_delay_exact_witness :
  Exp_delay Second (30 * Second) 1 = Second ∧ Exp_delay (100 * Millisecond) 0 9 = 25600 * Millisecond ∧
  Exp_delay (100 * Millisecond) (30 * Second) 60 = 30 * Second.
Proof.
  split; [|split].
  - refine (eq_trans (proj1 (Exp_delay_exact Second (30 * Second) 1 _) _) _); vm_compute; reflexivity.
  - refine (eq_trans (proj1 (Exp_delay_exact (100 * Millisecond) 0 9 _) _) _); vm_compute; reflexivity.
  - refine (proj2 (Exp_delay_exact (100 * Millisecond) (30 * Second) 60 _) _ _ _ _);
      vm_compute; (reflexivity || discriminate).
Defined.

Lemma Exp_delay_overflow_witness : Exp_delay (250 * Millisecond) 0 63 = 0 ∧ Exp_delay (250 * Millisecond) 0 1000 = 0.
Proof.
  split; apply Exp_delay_overflow; vm_compute; first [split; reflexivity|discriminate].
Defined.

Lemma Up_spec_witness : ∃ names out,
  Up [("b.sql", "2"); ("migrations.go", "go"); ("a.sql", "1")] = Some out ∧
  Forall2 (λ n c, (n, c) ∈ [("b.sql", "2"); ("migrations.go", "go"); ("a.sql", "1")]) names out ∧
  names ≡ₚ filter (λ n, HasSuffix n ".sql" = true) [("b.sql", "2"); ("migrations.go", "go"); ("a.sql", "1")].*1 ∧
  Sorted string_le names.
Proof. apply Up_spec. repeat constructor; set_solver. Defined.

(** ** From the application to the publisher *)

Definition app_messages : list Message := take 2 demo_messages.

#[export] Instance demo_enq_responsive : Responsive 10 (enq (o_store demo_outbox)).
Proof. apply (responsive_script plain_script). done. Qed.

Lemma app_new_batch : new_batch (db_of empty_world) app_messages.
Proof.
  split_and!.
  - by repeat constructor.
  - repeat constructor; try (by right; eexists; vm_compute); try (by eexists); vm_compute; reflexivity.
  - vm_compute. discriminate.
  - by repeat constructor.
  - vm_compute. repeat constructor; set_solver.
  - intros m id _ _. apply lookup_empty.
Qed.

Lemma enqueue_drain_roundtrip_witness :
  let w1 := run_world (EnqueueBatch demo_outbox app_messages) empty_world in
  fst (EnqueueBatch demo_outbox app_messages empty_world) = Ok None ∧
  ∃ w2 tr, drain (runtime plain_script) (o_relay demo_outbox) 9 w1 = (Ok (Some None), w2) ∧ records w1 w2 tr ∧
    ∀ m, m ∈ app_messages → ∃ hs hs' m' row,
      Handed hs (Ok (hs', None)) ∈ tr ∧ m' ∈ hs ∧ same_message m m' ∧
      rows (db_of w2) !! ID m' = Some row ∧ status row = StatusPublished.
Proof.
  intros w1.
  assert (10 * (BatchSize settings + 1) < interval_us (LeaseDuration settings)) as Hl by (vm_compute; reflexivity).
  destruct (enqueue_drain_roundtrip (runtime plain_script) demo_outbox 10 eq_refl settings_runnable
    (λ c ms w, ex_intro _ _ (ex_intro _ _ eq_refl)) (λ dl d w, ex_intro _ _ (ex_intro _ _ eq_refl))
    Hl eq_refl app_messages empty_world) as (w & E & Hd).
  - discriminate.
  - exact app_new_batch.
  - split; [exact empty_wf|reflexivity].
  - intros id row Hr. exfalso. change ((∅ : gmap string Row) !! id = Some row) in Hr. rewrite lookup_empty in Hr. discriminate.
  - intros Ho. discriminate.
  - split; [by rewrite E|]. assert (w = w1) as -> by (unfold w1, run_world; by rewrite E).
    apply Hd. apply Nat.ltb_lt. vm_compute. reflexivity.
Defined.

Lemma enqueue_placeholders_witness :
  ValidSchema "public" = true ∧
  params (enqueue_text (table (NewStore (executor plain_script) (executor plain_script) None "public")) app_messages)
    = map N.of_nat (List.seq 1 16).
Proof. split; [reflexivity|]. by apply enqueue_placeholders. Defined.

(** ** Transactions *)

Lemma some_of {A} (o : option A) : match o with Some _ => true | None => false end = true → is_Some o.
Proof. destruct o; [by eexists|done]. Qed.

(** A transaction enqueued [a] and is open; it commits; a relay claims. *)
Definition tx_a0 : TxSys := moved tx_empty MBegin.
Definition tx_a1 : TxSys := moved tx_a0 (MIn 0 (enq_of [keyed "a"])).
Definition tx_a2 : TxSys := moved tx_a1 (MCommit 0).
Definition tx_a3 : TxSys := moved tx_a2 (MAuto ordered_claim).
(** Or it rolls back. *)
Definition tx_r2 : TxSys := moved tx_a1 (MRollback 0).

Lemma tx_a0_step : tx_step tx_empty tx_a0 ∧ tx_ok tx_a0 ∧ (in_order tx_empty (act_of tx_empty MBegin) → ordered_tx_step tx_empty tx_a0).
Proof. apply moved_step; [apply tx_empty_ok|done|]. apply some_of. vm_compute. reflexivity. Qed.
Lemma tx_a1_step : tx_step tx_a0 tx_a1 ∧ tx_ok tx_a1 ∧
  (in_order tx_a0 (act_of tx_a0 (MIn 0 (enq_of [keyed "a"]))) → ordered_tx_step tx_a0 tx_a1).
Proof. apply moved_step; [apply tx_a0_step|repeat constructor|]. apply some_of. vm_compute. reflexivity. Qed.
Lemma tx_a2_step : tx_step tx_a1 tx_a2 ∧ tx_ok tx_a2 ∧ (in_order tx_a1 (act_of tx_a1 (MCommit 0)) → ordered_tx_step tx_a1 tx_a2).
Proof. apply moved_step; [apply tx_a1_step|done|]. apply some_of. vm_compute. reflexivity. Qed.
Lemma tx_r2_step : tx_step tx_a1 tx_r2 ∧ tx_ok tx_r2 ∧ (in_order tx_a1 (act_of tx_a1 (MRollback 0)) → ordered_tx_step tx_a1 tx_r2).
Proof. apply moved_step; [apply tx_a1_step|done|]. apply some_of. vm_compute. reflexivity. Qed.
Lemma ordered_claim_ok : move_ok (MAuto ordered_claim).
Proof. split; [constructor|]. by intros o inst lease limit [= <- _ _ _]. Qed.
Lemma tx_a3_step : tx_step tx_a2 tx_a3 ∧ tx_ok tx_a3 ∧
  (in_order tx_a2 (act_of tx_a2 (MAuto ordered_claim)) → ordered_tx_step tx_a2 tx_a3).
Proof. apply moved_step; [apply tx_a2_step|apply ordered_claim_ok|]. apply some_of. vm_compute. reflexivity. Qed.

Definition tx_of (T : TxSys) (x : nat) : Tx := default (mkTx 0 ∅ false false) (t_open T !! x).

Lemma tx_of_lookup T x : is_Some (t_open T !! x) → t_open T !! x = Some (tx_of T x).
Proof. unfold tx_of. by intros [tx ->]. Qed.

Lemma tx_empty_wf : wf_db (committed tx_empty).
Proof. apply tx_empty_ok. Qed.

Lemma open_writes_isolated_witness :
  committed_row tx_a1 "a" = None ∧ status <$> x_own (tx_of tx_a1 0) !! "a" = Some StatusPending ∧
  wf_db (committed tx_a1).
Proof.
  split; [vm_compute; reflexivity|]. split; [vm_compute; reflexivity|].
  apply (open_writes_isolated tx_empty tx_a1).
  - eapply rtc_l; [exact (proj1 tx_a0_step)|]. apply rtc_once. exact (proj1 tx_a1_step).
  - exact tx_empty_wf.
  - reflexivity.
Defined.

Lemma tx_a1_committed : rows (committed tx_a1) = ∅.
Proof. vm_compute. reflexivity. Qed.

Lemma ordered_transactions_witness :
  status <$> committed_row tx_a3 "a" = Some StatusProcessing ∧ key_order (committed tx_a3).
Proof.
  split; [vm_compute; reflexivity|]. apply (ordered_transactions tx_empty tx_a3).
  - eapply rtc_l; [by apply tx_a0_step|]. eapply rtc_l; [by apply tx_a1_step|].
    eapply rtc_l; [|apply rtc_once].
    + apply tx_a2_step. intros tx id row j r k _ _ _ Hj. exfalso.
      rewrite tx_a1_committed, lookup_empty in Hj. discriminate.
    + apply tx_a3_step. split; [by intros o inst lease limit [= <- _ _ _]|discriminate].
  - exact tx_empty_wf.
  - reflexivity.
  - intros i j r1 r2 k Hi. exfalso. change ((∅ : gmap string Row) !! i = Some r1) in Hi.
    rewrite lookup_empty in Hi. discriminate.
Defined.

(** ** Wake-ups *)

(** The listener connects, then the transaction commits: the message came after the
    LISTEN, so a drain that starts after the commit is what is left. *)
Definition heard (T : TxSys) : Wk := mkWk T (Some (notified (committed tx_empty))) tx_empty 0 1 0 0 [].
Definition committed_while_listening : Wk := heard tx_a2.

Lemma tx_a2_new : ¬ nothing_new (committed tx_empty) (committed tx_a2).
Proof.
  intros Hn. destruct (rows (committed tx_a2) !! "a") as [r|] eqn:E; [|vm_compute in E; discriminate].
  destruct (Hn "a" r E) as (r0 & Hr0 & _). change ((∅ : gmap string Row) !! "a" = Some r0) in Hr0.
  by rewrite lookup_empty in Hr0.
Qed.

Lemma no_lost_wakeup_witness :
  wake_work committed_while_listening = 5%nat ∧
  (∀ k' steps, nsteps relay_step steps committed_while_listening k' → (steps ≤ 5)%nat) ∧
  (∀ k', rtc relay_step committed_while_listening k' → (∀ k'', ¬ relay_step k' k'') →
     ∃ T0, T0 ∈ k_looked k' ∧ nothing_new (committed T0) (committed (k_tx k'))).
Proof.
  assert (wake_work committed_while_listening = 5%nat) as E by (vm_compute; reflexivity).
  split; [exact E|]. rewrite <-E.
  destruct (no_lost_wakeup tx_empty 1 committed_while_listening) as [Hwork Hrest].
  - reflexivity.
  - apply (rtc_l _ _ (heard tx_empty)).
    { apply wk_outer. apply (k_listen (wk_start tx_empty 1)). reflexivity. }
    apply (rtc_l _ _ (heard tx_a0)); [apply (wk_table (heard tx_empty)); exact (proj1 tx_a0_step)|].
    apply (rtc_l _ _ (heard tx_a1)); [apply (wk_table (heard tx_a0)); exact (proj1 tx_a1_step)|].
    apply rtc_once. apply (wk_table (heard tx_a1)). exact (proj1 tx_a2_step).
  - split; [exact Hwork|]. intros k' Hs Hstuck.
    destruct (relay_steps_frame _ _ Hs) as (_ & Htx & Hsince & _).
    destruct (proj1 (Hrest k' Hs Hstuck)) as [Hn|Hl]; [eexists; reflexivity|simpl; lia| |exact Hl].
    exfalso. rewrite Htx, Hsince in Hn. exact (tx_a2_new Hn).
Defined.

(** ** Safety across transactions *)

Lemma reached_played mvs : Forall move_ok mvs → is_Some (play tx_empty mvs) → reached (played tx_empty mvs).
Proof.
  intros Hall Hp. exists tx_empty. split_and!; [exact tx_empty_wf|done|]. by apply played_steps.
Qed.

Definition to_a3 : list Move := [MBegin; MIn 0 (enq_of [keyed "a"]); MCommit 0; MAuto ordered_claim].
Definition tx_claimed : TxSys := played tx_empty to_a3.

Lemma to_a3_ok : Forall move_ok to_a3.
Proof. repeat constructor. by intros o inst lease limit [= <- _ _ _]. Qed.

Lemma tx_claimed_reached : reached tx_claimed.
Proof. apply reached_played; [exact to_a3_ok|]. apply some_of. vm_compute. reflexivity. Qed.

Definition claimed_row : Row := row_of (committed tx_claimed) "a".
Definition claimed_token : string := default "" (lease_token claimed_row).

(** Another transaction begins, and another relay looks for work. *)
Definition tx_begun : TxSys := moved tx_claimed MBegin.
Definition tx_looked : TxSys := moved tx_begun (MAuto ordered_claim).

Lemma moved_unpresented T mv id t :
  tx_ok T → move_ok mv → is_Some (tx_exec T (act_of T mv)) → ¬ presented (act_of T mv) id t →
  unpresented_step id t T (moved T mv).
Proof.
  intros Hok Hmv Hex Hnp. pose proof (act_of_ok _ _ Hok Hex Hmv). unfold moved. destruct Hex as [T' E]. rewrite E.
  by econstructor.
Qed.

Lemma tx_begun_step : unpresented_step "a" claimed_token tx_claimed tx_begun ∧ tx_ok tx_begun.
Proof.
  assert (is_Some (tx_exec tx_claimed (act_of tx_claimed MBegin))) as Hex by (apply some_of; vm_compute; reflexivity).
  pose proof (reached_ok _ tx_claimed_reached) as Hok.
  split; [apply moved_unpresented; [exact Hok|exact I|exact Hex|simpl; tauto]|apply moved_step; [exact Hok|exact I|exact Hex]].
Qed.

Lemma lease_exclusive_witness :
  status claimed_row = StatusProcessing ∧ committed_row tx_looked "a" = Some claimed_row.
Proof.
  split; [vm_compute; reflexivity|].
  apply (lease_exclusive tx_claimed tx_looked "a" claimed_row claimed_token (default 0 (locked_until claimed_row))).
  - exact tx_claimed_reached.
  - vm_compute. reflexivity.
  - vm_compute. reflexivity.
  - vm_compute. reflexivity.
  - vm_compute. reflexivity.
  - eapply rtc_l; [exact (proj1 tx_begun_step)|]. apply rtc_once. apply moved_unpresented.
    + exact (proj2 tx_begun_step).
    + exact ordered_claim_ok.
    + apply some_of. vm_compute. reflexivity.
    + simpl. tauto.
  - vm_compute. reflexivity.
Defined.

(** Row [a] was there, and still is when two transactions later it is claimed. *)
Lemma message_kept_or_expired_witness :
  (∃ r', rows (committed tx_looked) !! "a" = Some r' ∧ descends claimed_row r') ∨
  (∃ Ta Tb e st r1, rtc tx_step tx_claimed Ta ∧ act_ok Ta (Auto e st) ∧ tx_exec Ta (Auto e st) = Some Tb ∧
     rtc tx_step Tb tx_looked ∧ rows (committed Ta) !! "a" = Some r1 ∧ descends claimed_row r1 ∧
     retention_over (st_cmd st) (e_now e) r1 ∧
     ∀ j r', rows (committed tx_looked) !! j = Some r' → seq r' ≠ seq claimed_row).
Proof.
  apply (message_kept_or_expired tx_claimed tx_looked "a" claimed_row).
  - exact tx_claimed_reached.
  - eapply rtc_l; [exact (unpresented_tx_step _ _ _ _ (proj1 tx_begun_step))|]. apply rtc_once.
    apply moved_step; [exact (proj2 tx_begun_step)|exact ordered_claim_ok|]. apply some_of. vm_compute. reflexivity.
  - vm_compute. reflexivity.
Defined.

(** The token of [b] presented for [a]. *)
Definition stray_token : string := default "" (lease_token (row_of (committed claimed_both) "b")).
Definition stray : Message := scanned ("a", row_of (committed claimed_both) "b").
Definition stray_st : Stmt :=
  mkStmt tx_table (CFinish (map ID [stray]) (map LeaseToken [stray]) StatusPublished (nullStr EmptyString) 0 false).
Definition stray_env : StmtEnv := move_env claimed_both (s_clock (t_sys claimed_both)).
Definition tx_stray : TxSys := moved claimed_both (MAuto stray_st).

Lemma claimed_both_reached : reached claimed_both.
Proof.
  assert (is_Some (play claimed_second overlap2)) as Hp by (apply some_of; vm_compute; reflexivity).
  destruct claimed_second_run as (_ & H1 & Hok).
  destruct (played_steps claimed_second overlap2 Hok (proj2 overlap_ok) Hp) as (_ & H2 & _).
  exists tx_empty. split; [exact tx_empty_wf|]. split; [reflexivity|].
  exact (transitivity (R := rtc tx_step) H1 H2).
Qed.

Lemma stray_move_ok : move_ok (MAuto stray_st).
Proof. split; [by apply issued_finish|done]. Qed.

Lemma lost_token_fenced_witness :
  lease_token (row_of (committed claimed_both) "a") ≠ Some stray_token ∧
  rows (committed tx_stray) !! "a" = rows (committed claimed_both) !! "a".
Proof.
  split; [vm_compute; discriminate|].
  apply (lost_token_fenced claimed_both claimed_both tx_stray "a" stray_token stray_env stray_st).
  - exact claimed_both_reached.
  - apply (bool_decide_unpack _). vm_compute. exact I.
  - intros (row & Hr & Ht).
    assert (lease_token (row_of (committed claimed_both) "a") = Some stray_token) as Hx
      by (unfold row_of, committed; rewrite Hr; exact Ht).
    vm_compute in Hx. discriminate.
  - apply rtc_refl.
  - apply (act_of_ok claimed_both (MAuto stray_st)); [apply reached_ok, claimed_both_reached| |exact stray_move_ok].
    apply some_of. vm_compute. reflexivity.
  - vm_compute. reflexivity.
  - right. repeat eexists.
  - intros t (keys & Hk & Hin). vm_compute in Hk. injection Hk as <-.
    apply list_elem_of_singleton in Hin. by injection Hin.
Defined.

(** An application whose calls go to transaction [x], on an outbox with a relay's
    executor of its own. *)
Definition caller_outbox (x : nat) : Outbox (WorldOf TxSys) :=
  let ex := executor_beside plain_script (λ _ T, T) in
  let st := NewStore ex (bound_executor x) None (Schema settings) in
  mkOutbox st (NewRelay st (publisher plain_script) settings) (NewCleaner st settings) settings.




(** The claimed message is given up; then a caller's transaction replays it. *)
Definition gone_dead : Stmt :=
  let m := scanned ("a", row_of (committed tx_a3) "a") in
  mkStmt tx_table (CFinish (map ID [m]) (map LeaseToken [m]) StatusDead (nullStr "why") 0 false).
Definition tx_dead : TxSys := moved (moved tx_a3 (MAuto gone_dead)) MBegin.
Definition dead_world : WorldOf TxSys := mkWorld tx_dead [].
Definition requeued_world : WorldOf TxSys := snd (Facade.Requeue (caller_outbox 1) "a" dead_world).

Lemma gone_dead_step : tx_step tx_a3 (moved tx_a3 (MAuto gone_dead)) ∧ tx_ok (moved tx_a3 (MAuto gone_dead)) ∧
  (in_order tx_a3 (act_of tx_a3 (MAuto gone_dead)) → ordered_tx_step tx_a3 (moved tx_a3 (MAuto gone_dead))).
Proof.
  apply moved_step; [apply tx_a3_step|split; [by apply issued_finish|done]|]. apply some_of. vm_compute. reflexivity.
Qed.

Lemma tx_dead_reached : reached tx_dead.
Proof.
  exists tx_empty. split; [exact tx_empty_wf|]. split; [reflexivity|].
  eapply rtc_l; [exact (proj1 tx_a0_step)|]. eapply rtc_l; [exact (proj1 tx_a1_step)|].
  eapply rtc_l; [exact (proj1 tx_a2_step)|]. eapply rtc_l; [exact (proj1 tx_a3_step)|].
  eapply rtc_l; [exact (proj1 gone_dead_step)|]. apply rtc_once.
  apply moved_step; [exact (proj1 (proj2 gone_dead_step))|done|]. apply some_of. vm_compute. reflexivity.
Qed.

Lemma requeue_joins_transaction_witness :
  status <$> committed_row (w_sys requeued_world) "a" = Some StatusDead ∧
  ∃ e T tx1 id, rtc (other_step 1) tx_dead T ∧ t_open (w_sys requeued_world) !! 1%nat = Some tx1 ∧
    x_own (tx_of tx_dead 1) ⊆ x_own tx1 ∧ ends_whole 1 (w_sys requeued_world) tx1 ∧ uuid_in "a" = Some id ∧
    ∃ r r', rows (view (committed T) (tx_of tx_dead 1)) !! id = Some r ∧ status r = StatusDead ∧
      x_own tx1 !! id = Some r' ∧ requeued (e_clk e) r r'.
Proof.
  split; [vm_compute; reflexivity|].
  assert (fst (Facade.Requeue (caller_outbox 1) "a" dead_world) = Ok (true, None)) as E by (vm_compute; reflexivity).
  destruct (@requeue_joins_transaction _ _ w_sys 1%nat (caller_outbox 1) (bound_executor_bound 1) "a" dead_world
    (Ok (true, None)) requeued_world (tx_of tx_dead 1)) as [_ Hc].
  - exact tx_dead_reached.
  - apply tx_of_lookup, some_of. vm_compute. reflexivity.
  - unfold requeued_world. rewrite <-E. apply surjective_pairing.
  - exact (Hc true eq_refl).
Defined.

(** A relay beside two transactions of one key: [b] is committed when it starts,
    and [a] commits between its first two statements. *)
Definition begun_apart : list Move :=
  [MBegin; MBegin; MIn 1 (enq_of [keyed "b"]); MIn 0 (enq_of [keyed "a"]); MCommit 1].
Definition commit_meanwhile (n : nat) : list Move := if (n =? 1)%nat then [MCommit 0] else [].
Definition calm_script : Script :=
  mkScript 10 (λ _, NoFault) (λ _, Ok None) (λ _, None) (λ _, false) [HbStop] (λ n, 0) (λ _, None).
Definition busy_executor : Executor (WorldOf TxSys) := executor_beside calm_script (meanwhile commit_meanwhile).
Definition busy_relay : Relay (WorldOf TxSys) :=
  NewRelay (NewStore busy_executor busy_executor None (Schema settings)) (publisher calm_script) settings.
Definition busy_start : WorldOf TxSys := mkWorld (played tx_empty begun_apart) [].
Definition busy_run : res panic (option (option err)) * WorldOf TxSys :=
  worker (runtime calm_script) busy_relay 9 [WTick; WDone] busy_start.

Lemma commit_meanwhile_ok n : Forall move_ok (commit_meanwhile n).
Proof. unfold commit_meanwhile. destruct (n =? 1)%nat; repeat constructor. Qed.

(** Its server is one of transactions. *)
Definition busy : Deployment (WorldOf TxSys) := tx_deployment w_sys w_trace.

Lemma busy_executor_lawful : @LawfulExecutor _ _ busy follows busy_executor.
Proof.
  exact (executor_beside_lawful calm_script (meanwhile commit_meanwhile) follows
    (meanwhile_follows commit_meanwhile commit_meanwhile_ok)).
Qed.
Lemma busy_publisher_lawful : @LawfulPublisher _ busy follows (publisher calm_script).
Proof. exact (publisher_lawful calm_script follows). Qed.
Lemma busy_runtime_lawful : @LawfulRuntime _ busy follows (runtime calm_script).
Proof. exact (runtime_lawful calm_script follows). Qed.

Lemma busy_start_reached : reached (w_sys busy_start).
Proof. apply reached_played; [repeat constructor|]. apply some_of. vm_compute. reflexivity. Qed.

Lemma worker_among_transactions_witness :
  committed_row (w_sys busy_start) "a" = None ∧
  status <$> committed_row (w_sys (snd busy_run)) "a" = Some StatusPublished ∧
  status <$> committed_row (w_sys (snd busy_run)) "b" = Some StatusPublished ∧
  rtc tx_step (w_sys busy_start) (w_sys (snd busy_run)).
Proof.
  split; [vm_compute; reflexivity|]. split; [vm_compute; reflexivity|]. split; [vm_compute; reflexivity|].
  apply (@worker_among_transactions _ _ w_sys w_trace follows (runtime calm_script) busy_relay
    busy_executor_lawful busy_publisher_lawful busy_runtime_lawful 9 [WTick; WDone] busy_start (fst busy_run)).
  - by intros T T'.
  - exact busy_start_reached.
  - apply surjective_pairing.
Defined.

Lemma handed_over_committed_witness :
  ∃ tr, w_trace (snd busy_run) = ([] ++ tr)%list ∧
    (∀ ms m, ms ∈ handed tr → m ∈ ms →
     ∃ T row, rtc tx_step (w_sys busy_start) T ∧ rtc tx_step T (w_sys (snd busy_run)) ∧
       rows (committed T) !! ID m = Some row ∧ status row = StatusProcessing ∧
       lease_token row = Some (LeaseToken m) ∧ m = scanned (ID m, row)) ∧
    NoDup (handed_keys (handed tr)) ∧ ∀ k, k ∈ handed_keys (handed tr) → k.2 ∉ s_used (t_sys (w_sys busy_start)).
Proof.
  apply (@handed_over_committed _ _ w_sys w_trace follows (runtime calm_script) busy_relay
    busy_executor_lawful busy_publisher_lawful busy_runtime_lawful 9 [WTick; WDone] busy_start (fst busy_run)).
  - by intros T T'.
  - exact busy_start_reached.
  - apply surjective_pairing.
Defined.

(** ** Texts *)

(** The ordered claim of the relay, its text run on the table of three rows. *)
Definition ordered_settings : Settings := WithOrdered true settings.
Definition claim_stmt : Stmt :=
  mkStmt (qualified "public")
    (CClaim (Ordered ordered_settings) (InstanceID ordered_settings) (LeaseDuration ordered_settings)
       (BatchSize ordered_settings)).
Definition text_env : StmtEnv := mkStmtEnv 200 210 {[ "b" ]} (λ id, id +:+ "-t") (λ _, "x").

Lemma status_texts st : text_in (string_of_status st) = true.
Proof. by destruct st. Qed.

Lemma statement_meaning_witness :
  match run_text text_env (stmt_text claim_stmt) (stmt_args claim_stmt) (db_of fresh_world) with
  | inl a => a_affected a = 2 ∧ map fst (map_to_list (rows (a_db a))) = map fst (map_to_list (rows (db_of fresh_world)))
  | inr _ => False
  end ∧
  run_text text_env (stmt_text claim_stmt) (stmt_args claim_stmt) (db_of fresh_world)
    = means (st_cmd claim_stmt) (exec_stmt text_env claim_stmt (db_of fresh_world)).
Proof.
  split; [vm_compute; by split|].
  apply (statement_meaning status_texts "public"); [reflexivity|reflexivity|].
  apply sends_claim. destruct settings_runnable. by split.
Defined.

(** ** Snapshots *)

(** A claim begins when [a] and [b] are pending; before it locks its rows another
    relay claims [a]. *)
Definition snap_moves : list Move := [MBegin; MIn 0 (enq_of [keyed "a"; keyed "b"]); MCommit 0].
Definition snap0 : TxSys := played tx_empty snap_moves.
Definition snap1 : TxSys := played snap0 [MAuto ordered_claim].
Definition snap_settings : Settings := WithInstanceID "relay-2" Config.Default.
Definition snap_env : StmtEnv := move_env snap1 (s_clock (t_sys snap1)).
Definition snap_cur : gmap string Row := rows (committed snap1).

Lemma snap_moves_ok : Forall move_ok snap_moves.
Proof. repeat constructor. Qed.

Lemma snap0_reached : reached snap0.
Proof. apply reached_played; [exact snap_moves_ok|]. apply some_of. vm_compute. reflexivity. Qed.

Lemma snap_between : run_of false snap0 snap1.
Proof.
  destruct (played_steps snap0 [MAuto ordered_claim]) as (_ & Hr & _); [by apply reached_ok, snap0_reached| | |exact Hr].
  - repeat constructor. by intros o inst lease limit [= <- _ _ _].
  - apply some_of. vm_compute. reflexivity.
Qed.

Lemma snapshot_claim_atomic_witness :
  snapshot_claim snap_env false 100 (rows (committed snap0)) snap_cur = ["b"] ∧
  let st := mkStmt (table_name (committed snap1))
              (CClaim false "relay-2" (LeaseDuration snap_settings) (BatchSize snap_settings)) in
  ∃ e' T2,
    e_now e' = e_now snap_env ∧ e_clk e' = e_clk snap_env ∧ e_token e' = e_token snap_env ∧
    exec_stmt e' st (committed snap1) =
      claim_on_snapshot snap_env false "relay-2" (LeaseDuration snap_settings) (BatchSize snap_settings)
        (rows (committed snap0)) snap_cur (committed snap1) ∧
    tx_exec snap1 (Auto e' st) = Some T2 ∧ committed T2 = after_stmt e' st (committed snap1) ∧ tx_step snap1 T2.
Proof.
  split; [vm_compute; reflexivity|].
  apply (snapshot_claim_atomic snap0 snap1 snap_env snap_settings snap_cur).
  - exact snap0_reached.
  - exact snap_between.
  - vm_compute. discriminate.
  - intros id _. split; [done|]. replace (held_by (t_open snap1)) with (∅ : gset string) by (vm_compute; reflexivity). set_solver.
  - apply move_env_ok. done.
  - vm_compute. discriminate.
  - intros id. apply fresh_token_new.
Defined.

(** The other relay completes [a] while a transaction begins. *)
Definition snap2 : TxSys := played snap1 [MBegin].
Definition snap_token : string := default "" (lease_token (row_of (committed snap1) "a")).

Lemma snap1_reached : reached snap1.
Proof.
  destruct snap0_reached as (T & Hwf & Ho & Hrun). exists T. split_and!; [done..|].
  etrans; [exact Hrun|exact snap_between].
Qed.

Lemma snap_unused : rtc (keys_unused [("a", snap_token)]) snap1 snap2.
Proof.
  assert (tx_exec snap1 (act_of snap1 MBegin) = Some snap2) as Hex by (vm_compute; reflexivity).
  assert (act_ok snap1 (act_of snap1 MBegin)) as Hok by (unfold act_of, act_ok; lia).
  apply rtc_once. exact (keys_unused_act _ _ _ _ Hok (λ _ _ _ Hno, Hno) Hex).
Qed.

Lemma snapshot_completion_atomic_witness :
  status <$> committed_row snap2 "a" = Some StatusProcessing ∧
  finish_on_snapshot snap_env ["a"] [snap_token] StatusPublished ANull 0 true (rows (committed snap1)) (committed snap2) =
  exec_finish snap_env ["a"] [snap_token] StatusPublished ANull 0 true (committed snap2).
Proof.
  split; [vm_compute; reflexivity|].
  apply (snapshot_completion_atomic snap1 snap2 snap_env ["a"] [snap_token]); [exact snap1_reached|].
  intros keys Hk. assert (keys = [("a", snap_token)]) as -> by (vm_compute in Hk; vm_compute; congruence).
  split; [exact snap_unused|]. intros id t [-> ->]%list_elem_of_singleton%pair_eq.
  apply (bool_decide_unpack _). vm_compute. exact I.
Defined.

(** ** The end of a drain *)

Definition busy_drain : res panic (option (option err)) * WorldOf TxSys := drain (runtime calm_script) busy_relay 9 busy_start.

Lemma drain_exhausts_witness :
  fst busy_drain = Ok (Some None) ∧
  ((∃ w1, rtc tx_step (w_sys busy_start) (w_sys w1) ∧ ctx_Err (runtime calm_script) w1 = (Ok true, snd busy_drain)) ∨
   (∃ tr er, w_trace (snd busy_drain) = (tr ++ [Observed (LogError "outbox: relay batch failed" er)])%list) ∨
   ∃ e T T', rtc tx_step (w_sys busy_start) T ∧ act_ok T (Auto e (RelaySpec.claim_stmt busy_relay)) ∧
     tx_exec T (Auto e (RelaySpec.claim_stmt busy_relay)) = Some T' ∧ rtc tx_step T' (w_sys (snd busy_drain)) ∧
     ∀ id row, rows (committed T) !! id = Some row →
       claimable (e_now e) (Ordered (set busy_relay)) (rows (committed T)) row = true → id ∈ e_locked e).
Proof.
  split; [vm_compute; reflexivity|].
  apply (@drain_exhausts _ _ w_sys w_trace follows (runtime calm_script) busy_relay
    busy_executor_lawful busy_publisher_lawful busy_runtime_lawful 9 busy_start (snd busy_drain)).
  - by intros T T'.
  - exact busy_start_reached.
  - vm_compute. discriminate.
  - vm_compute. reflexivity.
Defined.

(** ** Public options *)
Lemma options_in_any_order_witness :
  Resolve [] None (map Api.option_of [Api.WithBatchSize 5; Api.WithOrdered true; Api.WithSchema "app"]) =
  Resolve [] None (map Api.option_of [Api.WithSchema "app"; Api.WithBatchSize 5; Api.WithOrdered true]).
Proof.
  apply Api.options_in_any_order; [|reflexivity].
  apply (Permutation_app_comm [Api.WithBatchSize 5; Api.WithOrdered true] [Api.WithSchema "app"]).
Defined.

(** ** Ordered publication *)

(** The same relay in ordered mode: [b] is there when it starts, [a] of the same
    transaction key commits meanwhile. *)
Definition strict_relay : Relay (WorldOf TxSys) :=
  NewRelay (NewStore busy_executor busy_executor None (Schema settings)) (publisher calm_script) ordered_settings.
Definition strict_run : res panic (option (option err)) * WorldOf TxSys :=
  worker (runtime calm_script) strict_relay 9 [WTick; WDone] busy_start.

Lemma ordered_handover_witness :
  map (map ID) (handed (w_trace (snd strict_run))) = [["b"]; ["a"]] ∧
  ∃ tr, w_trace (snd strict_run) = ([] ++ tr)%list ∧
    ∀ ms, ms ∈ handed tr →
    (∃ T, rtc tx_step (w_sys busy_start) T ∧ rtc tx_step T (w_sys (snd strict_run)) ∧
      ∀ m, m ∈ ms → ∃ row, rows (committed T) !! ID m = Some row ∧ m = scanned (ID m, row) ∧
        ∀ j rj k, rows (committed T) !! j = Some rj → partition_key row = Some k → partition_key rj = Some k →
          before rj row = true → status rj = StatusPublished ∨ status rj = StatusDiscarded) ∧
    ∀ m m', m ∈ ms → m' ∈ ms → PartitionKey m = PartitionKey m' → PartitionKey m ≠ EmptyString → m = m'.
Proof.
  split; [vm_compute; reflexivity|].
  apply (@ordered_handover _ _ w_sys w_trace follows (runtime calm_script) strict_relay
    busy_executor_lawful busy_publisher_lawful busy_runtime_lawful 9 [WTick; WDone] busy_start (fst strict_run)).
  - by intros T T'.
  - exact busy_start_reached.
  - reflexivity.
  - apply surjective_pairing.
Defined.

(** ** Types *)

Lemma empty_stored : jsonb_in (JObj []) = true.
Proof. reflexivity. Qed.

Lemma fresh_typed : typed_table (db_of fresh_world).
Proof.
  change (db_of fresh_world) with (after_stmt env0 (enqueue_stmt demo_messages) (db_of empty_world)).
  assert (∃ d, exec_stmt env0 (enqueue_stmt demo_messages) (db_of empty_world) = SqlOk d) as [d Hd]
    by (eexists; vm_compute; reflexivity).
  unfold after_stmt. rewrite Hd.
  apply (exec_typed empty_stored env0 (enqueue_stmt demo_messages) (db_of empty_world)); [apply env_at_ok| |exact Hd].
  intros id r Hr. exfalso. revert Hr. change (rows (db_of empty_world)) with (∅ : gmap string Row). by rewrite lookup_empty.
Qed.

Lemma statement_well_typed_witness :
  ValidSchema "public" = true ∧
  match run_text text_env (stmt_text claim_stmt) (stmt_args claim_stmt) (db_of fresh_world) with
  | inl a => typed_table (a_db a) ∧ Forall (answer_typed (st_cmd claim_stmt)) (a_rows a)
  | inr code => data_error code
  end.
Proof.
  split; [reflexivity|].
  apply (statement_well_typed status_texts empty_stored "public"); [reflexivity|reflexivity| |reflexivity| |exact fresh_typed].
  - apply sends_claim. destruct settings_runnable. by split.
  - split; [vm_compute; discriminate|by intros i|intros id; by destruct id].
Defined.

(** ** Adapters *)

(** A NATS client that logs what it is given, and a batch of two. *)
Definition nats_log : Nats.Client (W := list (string * option bytes)) (Msg := string * option bytes * (string → string)) :=
  {| Nats.PublishMsg := λ x w, (Ok None, (w ++ [x.1])%list); Nats.FlushWithContext := λ w, (Ok None, w) |}.
Definition nats_pub : Nats.Publisher :=
  let range_order := {| Adapters.range := map_to_list; Adapters.range_perm := λ h, Permutation_refl _ |} in
  Nats.New (H := range_order) (λ _, EmptyString) (λ h k v k', if String.eqb k k' then v else h k')
    (λ t p h, (t, p, h)) nats_log [].
Definition nats_batch : list Message :=
  [new_message "a" "orders" "k" (Some []) None "" "" None; new_message "b" "audit" "k" (Some []) None "" "" None].

Lemma success_means_sent_witness :
  snd (Nats.Publish nats_pub nats_batch []) = [("orders", Some []); ("audit", Some [])] ∧
  ∃ w1, sent_all (Nats.PublishMsg (Nats.client nats_pub)) (map (fst ∘ Nats.mapper nats_pub) nats_batch) [] w1.
Proof.
  split; [reflexivity|].
  destruct (success_means_sent (KMessage := unit) (NMsg := string * option bytes * (string → string)) (λ _ _ : string, tt) (λ (_ _ : string) (_ : list (string * string)), tt)
    nats_batch [] (snd (Nats.Publish nats_pub nats_batch []))) as (_ & Hn & _).
  destruct (Hn nats_pub eq_refl) as (_ & w1 & Hs & _). by exists w1.
Defined.
